(* ===== verification/_CoqProject ===== *)
-Q . S2P
Prelude.v
KernelEnv.v
Proc.v
Locking.v
ProcSpec.v
Lottery.v
Handover.v
Protocol.v
System.v
KernelInstance.v
KernelProps.v
SwitchProps.v
Execution.v
ExecutionProps.v
SystemProps.v
CodeProps.v
TypeProps.v
PidProps.v
TicketProps.v
Syscall.v
SleepProps.v
KernelCalls.v
SyscallRuns.v
KernelWitness.v
Hashtable.v
HashConc.v
HashProps.v
HashMain.v
HashSeq.v
HashRefine.v
Disk.v
DiskProps.v
DiskMain.v
Benchmark.v
Uniq.v
UniqProps.v
Shell.v
ShellProps.v
Lotterytest.v
