(* ===== verification/Prelude.v ===== *)
(** * Verification of the operating-systems course programs

    The repository holds five groups of C programs: [uniq] for xv6 (hw1), a
    shell (hw2), the process subsystem of xv6 with a lottery scheduler (hw3),
    three versions of a parallel hash table (hw4), and programs that read,
    write and xor files (final_project).  The groups do not call each other;
    inside hw3, syscall.c calls sysproc.c, which calls proc.c.  The development
    is a shallow embedding: every C function is a definition that can be
    evaluated, or a step relation where threads or processors interleave.

    ** The process subsystem (hw3/proc.c, proc.h)

    - KernelEnv.v: [proc], [cpu], [context] of proc.h, and as type classes what
      proc.c uses and the repository does not contain: [KernelEnv] (kalloc,
      setupkvm, copyuvm, filedup, random_at_most, ...), [Spinlock] with its laws
      [SpinlockLaws] (spinlock.c: acquire, release, pushcli, popcli), [RandomLaw]
      (a draw is between 0 and its argument).
    - Proc.v: the state [kernel] (ptable, initproc, nextpid, first, ticks, the
      processors, the locks, the rest of the kernel, a trace) and every function
      of proc.c but [scheduler], in a state and error monad whose errors are the
      panics and null dereferences.  A loop over the table is a recursion over
      it; the loop of [wait] takes the number of rounds.
    - Lottery.v: [scheduler], the two loops over the table, and how many draws
      select each process.  [scheduler_loop] is observed for a number of rounds,
      as the function never returns.
    - Locking.v: states up to the bookkeeping of the locks ([≡], with [Proper]
      instances), and the rule for a section between acquire and release.
    - ProcSpec.v, Handover.v: the effect of each critical section on the table,
      and that the function has it; the functions cut in two at [swtch].
    - Protocol.v: the abstract process table - state, parent, channel, pid and
      the place in the code of each slot -, its steps, their invariant.
    - System.v: the effects of all functions interleaved on any number of
      processors, and the simulation by the protocol.
    - Execution.v, ExecutionProps.v: the functions themselves interleaved, each
      from one moment without [ptable.lock] to the next, and the simulation of
      each such step by at most three steps of System.v.
    - KernelProps.v, SwitchProps.v, SystemProps.v, CodeProps.v: the theorems:
      what fork, kill, wakeup, sleep, yield, exit, wait and a scheduler round do
      on every branch; [userinit] reaches a state the system starts from; the
      refinement of the protocol; no interleaving panics, but for the exit of
      init; each running process is on exactly one processor, no wakeup between exit and wait is lost,
      parents are alive, pids differ, each EMBRYO slot has one builder.
    - TypeProps.v: the C types and array bounds of struct proc and of the globals,
      kept by [userinit] and by every step of the code.
    - PidProps.v: pids over time: no pid is given out twice.
    - TicketProps.v: tickets over time: a slot-by-slot logic for the code, by which
      the tickets of a process are those of its own last settickets; and that the
      lottery neither overflows nor misses a runnable process as long as the
      processes ask for few tickets.
    - KernelInstance.v, KernelWitness.v: a small kernel with all the parameters
      given, on which the theorems are applied.

    ** System calls (hw3/syscall.c, syscall.h, sysproc.c)

    - Syscall.v: fetchint, fetchstr, argint, argptr, argstr, the dispatcher, the
      calls of sysproc.c; the bounds of the arguments, the branches of the
      dispatcher, sbrk, settickets.
    - SleepProps.v: [sys_sleep] while the system runs: when it returns, and that
      it does.
    - KernelCalls.v: the calls that do not switch, from the trap frame to the
      result register, as steps of the system of Execution.v that never fail; and
      that a process stopped in [wait] collects its zombie child.
    - SyscallRuns.v: the whole functions [wait], [sleep], [yield] and [exit], whose
      argument [swtch] stands for the switch, and every call of the dispatcher:
      with a switch that does what swtch.S and the scheduler do, they are runs of
      the system of Execution.v, up to their return or to the switch, or the
      lock of the clock, that does not come back to them.

    ** The other programs

    - Lotterytest.v (hw3/lotterytest.c): the user program that exercises the
      lottery, as an interaction tree over its system calls; its busy loops end
      and the calls of its processes follow from the answers of fork.
    - Hashtable.v, HashConc.v, HashProps.v, HashMain.v, HashSeq.v, HashRefine.v
      (hw4): insert
      as its memory accesses, interleaved among the threads, without locks, with
      a mutex for each bucket and with one spin lock; retrieval; the phases;
      main.  With locks no key is lost, the phase ends and main reports it;
      without, a schedule of two threads that loses a key.  A run of main may be
      out of memory for an entry (which the programs check) or for the counts
      (which they do not: the run is killed).  HashSeq.v has insert
      and the put phase of one thread as whole functions: they refine a
      multimap, are schedules of the interleaved model, and one thread needs no
      lock.  HashRefine.v: with locks the interleaved accesses refine the multimap
      with atomic insertions.
    - Disk.v, DiskProps.v, DiskMain.v (final_project): read, xor, threads, seek,
      write, and the programs over a file system whose files have permissions.
      The xor of the file, the threads agreeing with the sequential programs,
      reading back what was written.
    - Benchmark.v (benchmark_extra_cred.cpp): the two timed functions, iterated
      as often as the library asks, over files with permissions and a bounded
      number of descriptors; which iterations transfer something.
    - Uniq.v, UniqProps.v (hw1/uniq.c): the line buffer, the comparison on the
      stack, which each call leaves dirty for the next and whose copies are not
      terminated under -i, the two modes, main.
    - Shell.v, ShellProps.v (hw2/shell.c): the parser on its heap refines a
      grammar of tokens, printing and parsing a pipeline, the processes and
      descriptors of a pipeline, the loop over the input.

    ** Integers, fuel and bounds

    [int] and [uint] are [Z] with [i32] and [u32] (below) at each operation that
    may leave the range.  A loop that is not a walk over a list takes fuel, and
    for the loops that end by themselves a theorem says how much is enough: one
    more than the bytes that are left for the loops that read a file, than the
    lines for uniq, than the length of the text for the parser and its
    tokenizer, than the block count for the seek loop, the size of the heap for a bucket's chain (which visits a
    block once), NUM_KEYS for the index loops of hw4.  [wait] and [sys_sleep]
    count the times they go to sleep, as what wakes them is the rest of the
    system.  [pids_unique] and [pid_names_one_process] speak of runs that are too
    short for [nextpid] to overflow.

    ** Not modelled

    hw3/sysfile.c is empty in the repository, and its calls are an argument of
    the dispatcher; defs.h, user.h, usys.S hold prototypes and stubs.  The
    Python scripts and the build files are left out, and so is what the
    benchmark library measures.  [swtch] is
    an argument, or the step from one half of a function to another.  In the
    shell malloc and pipe succeed, as the code takes them to; in hw4 the times
    printed are left out, pthread_create succeeds, and the loops over the keys
    are those of at most INT_MAX - NUM_KEYS threads, with more of which their
    index overflows.  Interrupt handlers appear only through what they call
    (yield, wakeup, kill).

    The interleavings of Execution.v are those at [ptable.lock].  What the
    functions do outside of it is one step from one lock to the next, as it
    touches slots nobody else writes: the copy in fork, the files and the
    directory in exit, the memory in sbrk; a fork in progress is not preempted
    by the timer between its steps, though other processors run there.  The
    files, the log and the directories are pure functions of the rest of the
    kernel, so their own sleeping does not appear.  [sleep] with a lock other
    than [ptable.lock] gives up the processor in one step and returns from the
    switch in another; taking the caller's lock again is left to whoever owns it
    (in SyscallRuns.v, for the clock's lock, it is part of the run). *)

From Stdlib Require Import ZArith Lia.
From stdpp Require Export base decidable list numbers option relations tactics.

#[global] Open Scope Z_scope.

(** ** Machine integers

    [int] is a signed and [uint] an unsigned 32-bit integer; both are kept as
    [Z] and every operation of the source that may leave the range is followed
    by the wrap-around below (two's complement, as the compilers in use do). *)

Definition u32 (z : Z) : Z := z mod 2 ^ 32.

Definition i32 (z : Z) : Z := (z + 2 ^ 31) mod 2 ^ 32 - 2 ^ 31.

Definition INT_MIN : Z := - 2 ^ 31.

Definition INT_MAX : Z := 2 ^ 31 - 1.

Definition UINT_MAX : Z := 2 ^ 32 - 1.

(** ** State and error monad

    The result of running stateful C code: a value with the new state, or the
    reason it stopped ([exit], [panic], a fault).  [prog] instantiates stdpp's
    monad classes, whose [x ← m; k] notation the components use. *)

Inductive outcome (S E A : Type) : Type :=
| Ok (a : A) (s : S)
| Err (e : E).

Arguments Ok {S E A} _ _.
Arguments Err {S E A} _.

Definition prog (S E A : Type) : Type := S → outcome S E A.

#[export] Instance prog_ret {S E} : MRet (prog S E) := λ A a s, Ok a s.

#[export] Instance prog_bind {S E} : MBind (prog S E) :=
  λ A B f m s, match m s with Ok a s' => f a s' | Err e => Err e end.

Definition get {S E} : prog S E S := λ s, Ok s s.

Definition gets {S E A} (f : S → A) : prog S E A := λ s, Ok (f s) s.

Definition modify {S E} (f : S → S) : prog S E unit := λ s, Ok tt (f s).

Definition fail {S E A} (e : E) : prog S E A := λ _, Err e.

Definition expect {S E A} (e : E) (o : option A) : prog S E A :=
  match o with Some a => mret a | None => fail e end.

Definition outcome_ok {S E A} (o : outcome S E A) : bool :=
  match o with Ok _ _ => true | Err _ => false end.

(** ** C strings

    A string in a buffer of bytes ends at the first NUL. *)

Fixpoint cstr (buf : list Z) : list Z :=
  match buf with
  | [] => []
  | b :: buf' => if decide (b = 0) then [] else b :: cstr buf'
  end.

(** ** Transition systems *)

(** [n] steps of a relation, and reachability from a set of initial states. *)

Definition reachable {S} (init : S → Prop) (step : relation S) (s : S) : Prop :=
  ∃ s0, init s0 ∧ rtc step s0 s.

Definition reachable_in {S} (init : S → Prop) (step : relation S) (n : nat) (s : S) : Prop :=
  ∃ s0, init s0 ∧ nsteps step n s0 s.

(** ** Tactics *)

(** Open every existential and conjunction of the context. *)
Ltac deex :=
  repeat match goal with
  | H : ∃ _, _ |- _ => destruct H
  | H : _ ∧ _ |- _ => destruct H
  end.

(** Case analysis on the innermost [match] or [if] of the goal. *)
Ltac case_goal :=
  match goal with
  | |- context [match ?x with _ => _ end] =>
      lazymatch x with context [match _ with _ => _ end] => fail | _ => destruct x eqn:? end
  end.

(** Unfold one monadic step in a hypothesis or the goal. *)
Ltac unmonad :=
  unfold mbind, prog_bind, mret, prog_ret, get, gets, modify, fail, expect in *; simpl in *.

(** Adds a fact to the context unless it is already there. *)
Ltac learn pf :=
  let P := type of pf in
  lazymatch goal with
  | _ : P |- _ => fail
  | _ => pose proof pf
  end.

(** ** Lemmas on machine integers *)

Lemma u32_small z : 0 ≤ z < 2 ^ 32 → u32 z = z.
Proof. intros. unfold u32. by rewrite Z.mod_small. Qed.

Lemma u32_range z : 0 ≤ u32 z < 2 ^ 32.
Proof. apply Z.mod_pos_bound. lia. Qed.

Lemma i32_small z : INT_MIN ≤ z ≤ INT_MAX → i32 z = z.
Proof. unfold i32, INT_MIN, INT_MAX. intros. rewrite Z.mod_small; lia. Qed.

Lemma i32_range z : INT_MIN ≤ i32 z ≤ INT_MAX.
Proof.
  unfold i32, INT_MIN, INT_MAX.
  pose proof (Z.mod_pos_bound (z + 2 ^ 31) (2 ^ 32)). lia.
Qed.

Lemma u32_i32 z : u32 (i32 z) = u32 z.
Proof.
  unfold u32, i32. rewrite Zminus_mod_idemp_l. f_equal. lia.
Qed.

Lemma i32_u32 z : i32 (u32 z) = i32 z.
Proof. unfold u32, i32. by rewrite Zplus_mod_idemp_l. Qed.

Lemma u32_add_l a b : u32 (u32 a + b) = u32 (a + b).
Proof. unfold u32. by rewrite Zplus_mod_idemp_l. Qed.

Lemma u32_add_r a b : u32 (a + u32 b) = u32 (a + b).
Proof. unfold u32. by rewrite Zplus_mod_idemp_r. Qed.

Lemma u32_sub_l a b : u32 (u32 a - b) = u32 (a - b).
Proof. unfold u32. by rewrite Zminus_mod_idemp_l. Qed.

Lemma u32_sub_r a b : u32 (a - u32 b) = u32 (a - b).
Proof. unfold u32. by rewrite Zminus_mod_idemp_r. Qed.

Create HintDb int.

#[export] Hint Rewrite u32_i32 i32_u32 u32_add_l u32_add_r u32_sub_l u32_sub_r : int.

(** ** Lemmas on transition systems *)

Section invariants.
Context {S : Type} (init : S → Prop) (step : relation S) (I : S → Prop).

Hypothesis init_ok : ∀ s, init s → I s.

Hypothesis step_ok : ∀ s s', I s → step s s' → I s'.

Lemma rtc_preserves s s' : I s → rtc step s s' → I s'.
Proof. intros HI. induction 1; eauto. Qed.

Lemma reachable_invariant s : reachable init step s → I s.
Proof. intros (s0 & ? & ?). eauto using rtc_preserves. Qed.

End invariants.

Lemma reachable_in_reachable {S} (init : S → Prop) step n s :
  reachable_in init step n s → reachable init step s.
Proof. intros (s0 & ? & ?). exists s0. split; [done|]. apply rtc_nsteps. eauto. Qed.

Lemma nsteps_preserves {S} (step : relation S) (J : nat → S → Prop) :
  (∀ n s s', J n s → step s s' → J (Datatypes.S n) s') →
  ∀ n k s s', J k s → nsteps step n s s' → J (k + n)%nat s'.
Proof.
  intros Hstep n. induction n as [|n IH]; intros k s s' HJ Hn; inversion Hn; subst.
  - by rewrite Nat.add_0_r.
  - replace (k + Datatypes.S n)%nat with (Datatypes.S k + n)%nat by lia. eauto.
Qed.

(** ** Lemmas on lists *)

Lemma list_alter_lookup_Some {A} (f : A → A) (l : list A) i j y :
  alter f i l !! j = Some y ↔
  (i = j ∧ ∃ x, l !! j = Some x ∧ y = f x) ∨ (i ≠ j ∧ l !! j = Some y).
Proof.
  destruct (decide (i = j)) as [->|Hne].
  - rewrite list_lookup_alter_eq.
    destruct (l !! j); naive_solver.
  - rewrite list_lookup_alter_ne by done. naive_solver.
Qed.

Lemma lookup_map_Some {A B} (f : A → B) (l : list A) j y :
  (f <$> l) !! j = Some y ↔ ∃ x, l !! j = Some x ∧ y = f x.
Proof.
  rewrite list_lookup_fmap. destruct (l !! j); naive_solver.
Qed.

Lemma fmap_S_O (o : option nat) : ¬ (S <$> o = Some O).
Proof. by destruct o. Qed.

Lemma fmap_S_Some (o : option nat) j : S <$> o = Some (S j) ↔ o = Some j.
Proof. destruct o; naive_solver. Qed.

Lemma list_alter_insert {A} (f : A → A) (l : list A) i x :
  l !! i = Some x → alter f i l = <[i := f x]> l.
Proof.
  intros Hl. rewrite list_insert_alter. apply list_alter_ext; [|done]. naive_solver.
Qed.

(** A loop over the indices that assigns to each slot in turn is a map. *)
Lemma foldl_alter_seq_lookup {A} (f : A → A) (l : list A) n j :
  foldl (λ t i, alter f i t) l (seq 0 n) !! j =
  if decide (j < n)%nat then f <$> l !! j else l !! j.
Proof.
  revert j. induction n as [|n IH]; intros j; [done|].
  rewrite seq_S, foldl_snoc. simpl. destruct (decide (n = j)) as [->|Hj].
  - by rewrite list_lookup_alter_eq, IH, decide_False, decide_True by lia.
  - rewrite list_lookup_alter_ne, IH by done. repeat case_decide; done || lia.
Qed.

Lemma foldl_alter_seq {A} (f : A → A) (l : list A) :
  foldl (λ t i, alter f i t) l (seq 0 (length l)) = f <$> l.
Proof.
  apply list_eq. intros j. rewrite foldl_alter_seq_lookup, list_lookup_fmap.
  case_decide; [done|]. by rewrite lookup_ge_None_2 by lia.
Qed.

Lemma list_alter_None {A} (f : A → A) (l : list A) i : l !! i = None → alter f i l = l.
Proof.
  intros Hl. apply list_eq. intros j. destruct (decide (i = j)) as [->|].
  - by rewrite list_lookup_alter_eq, Hl.
  - by rewrite list_lookup_alter_ne.
Qed.

(** How many integers of a range lie in an interval inside it. *)
Lemma count_interval (P : Z → Prop) `{∀ z, Decision (P z)} a b n :
  (∀ z, 0 ≤ z < n → P z ↔ a ≤ z ≤ b) → 0 ≤ a → a ≤ b + 1 → b < n →
  Z.of_nat (length (filter P (seqZ 0 n))) = b - a + 1.
Proof.
  intros HP Ha Hab Hb.
  replace n with (a + ((b - a + 1) + (n - b - 1))) by lia.
  rewrite !seqZ_app, !list.filter_app, !length_app by lia.
  assert (∀ l, Forall (λ z, ¬ P z) l → filter P l = []) as Hnone.
  { induction 1; [done|]. by rewrite filter_cons_False. }
  assert (∀ l, Forall P l → filter P l = l) as Hall.
  { induction 1; [done|]. rewrite filter_cons_True by done. by f_equal. }
  rewrite (Hnone (seqZ 0 a)), (Hall (seqZ (0 + a) _)), (Hnone (seqZ (0 + a + (b - a + 1)) _)).
  - rewrite length_seqZ. simpl. lia.
  - apply Forall_seqZ. intros z Hz. rewrite HP; lia.
  - apply Forall_seqZ. intros z Hz. rewrite HP; lia.
  - apply Forall_seqZ. intros z Hz. rewrite HP; lia.
Qed.

(** ** Lemmas on C strings *)

Lemma cstr_app_nul l rest : Forall (λ b, b ≠ 0) l → cstr (l ++ 0 :: rest) = l.
Proof. induction 1 as [|b l Hb Hl IH]; simpl; [done|]. rewrite decide_False by done. by rewrite IH. Qed.

Lemma cstr_nonnul l : Forall (λ b, b ≠ 0) (cstr l).
Proof. induction l as [|b l IH]; simpl; [constructor|]. case_decide; by constructor. Qed.

Lemma cstr_id l : Forall (λ b, b ≠ 0) l → cstr l = l.
Proof. induction 1 as [|b l Hb Hl IH]; simpl; [done|]. rewrite decide_False by done. by rewrite IH. Qed.
