(* ===== verification/KernelEnv.v ===== *)
(** Data of the xv6 process subsystem (hw3/proc.h) and the interface of the
    kernel parts that are not in the repository: memory allocation and paging,
    files and inodes, the random generator, the spin locks, the linker
    symbols and the constants of param.h, memlayout.h and mmu.h. *)

From Stdlib Require Import String.
From S2P Require Import Prelude.

(** ** proc.h *)

Inductive procstate : Type :=
| UNUSED | EMBRYO | SLEEPING | RUNNABLE | RUNNING | ZOMBIE.

(** Sleep channels are addresses; the ones the source uses are the address of
    a process slot ([sleep(proc, ...)]), the address of [ticks], and whatever
    address another kernel file passes. [None] is the null channel. *)
Inductive chanid : Type :=
| ChProc (i : nat)
| ChTicks
| ChOther (addr : Z).

(** The fields of [struct trapframe] the source reads or writes. *)
Record trapframe : Type := Trapframe {
  tf_eax : Z; tf_esp : Z; tf_eip : Z; tf_eflags : Z;
  tf_cs : Z; tf_ds : Z; tf_es : Z; tf_ss : Z
}.

Record context : Type := Context { edi : Z; esi : Z; ebx : Z; ebp : Z; eip : Z }.

(** [struct proc]. Pointers into [ptable.proc] are slot numbers, [None] being
    the null pointer; [tf] and [context] hold the addresses together with the
    pointed-to values, which live on the kernel stack of the process;
    [kret] is the word above the context, where [forkret] returns to. *)
Record proc : Type := Proc {
  sz : Z;
  pgdir : Z;
  kstack : Z;
  state : procstate;
  pid : Z;
  parent : option nat;
  tf_addr : Z;
  tf : trapframe;
  context_addr : Z;
  ctx : context;
  kret : Z;
  chan : option chanid;
  killed : Z;
  ofile : list Z;
  cwd : Z;
  name : list Z;
  tickets : Z
}.

(** [struct cpu]: the fields the process code uses, and the interrupt flag of
    the processor's eflags register. *)
Record cpu : Type := Cpu {
  cpu_proc : option nat;
  ncli : Z;
  intena : Z;
  eflags_if : bool
}.

Inductive lockid : Type :=
| PtableLock
| TicksLock
| OtherLock (n : nat).

#[export] Instance procstate_eq_dec : EqDecision procstate.
Proof. solve_decision. Defined.

#[export] Instance chanid_eq_dec : EqDecision chanid.
Proof. solve_decision. Defined.

#[export] Instance lockid_eq_dec : EqDecision lockid.
Proof. solve_decision. Defined.

#[export] Instance trapframe_eq_dec : EqDecision trapframe.
Proof. solve_decision. Defined.

#[export] Instance context_eq_dec : EqDecision context.
Proof. solve_decision. Defined.

(** ** Assignments to the fields of a process *)

Definition set_sz v '(Proc a b c d e f g h i j k l m n o p q) :=
  Proc v b c d e f g h i j k l m n o p q.

Definition set_pgdir v '(Proc a b c d e f g h i j k l m n o p q) :=
  Proc a v c d e f g h i j k l m n o p q.

Definition set_kstack v '(Proc a b c d e f g h i j k l m n o p q) :=
  Proc a b v d e f g h i j k l m n o p q.

Definition set_state v '(Proc a b c d e f g h i j k l m n o p q) :=
  Proc a b c v e f g h i j k l m n o p q.

Definition set_pid v '(Proc a b c d e f g h i j k l m n o p q) :=
  Proc a b c d v f g h i j k l m n o p q.

Definition set_parent v '(Proc a b c d e f g h i j k l m n o p q) :=
  Proc a b c d e v g h i j k l m n o p q.

Definition set_tf_addr v '(Proc a b c d e f g h i j k l m n o p q) :=
  Proc a b c d e f v h i j k l m n o p q.

Definition set_tf v '(Proc a b c d e f g h i j k l m n o p q) :=
  Proc a b c d e f g v i j k l m n o p q.

Definition set_context_addr v '(Proc a b c d e f g h i j k l m n o p q) :=
  Proc a b c d e f g h v j k l m n o p q.

Definition set_ctx v '(Proc a b c d e f g h i j k l m n o p q) :=
  Proc a b c d e f g h i v k l m n o p q.

Definition set_kret v '(Proc a b c d e f g h i j k l m n o p q) :=
  Proc a b c d e f g h i j v l m n o p q.

Definition set_chan v '(Proc a b c d e f g h i j k l m n o p q) :=
  Proc a b c d e f g h i j k v m n o p q.

Definition set_killed v '(Proc a b c d e f g h i j k l m n o p q) :=
  Proc a b c d e f g h i j k l v n o p q.

Definition set_ofile v '(Proc a b c d e f g h i j k l m n o p q) :=
  Proc a b c d e f g h i j k l m v o p q.

Definition set_cwd v '(Proc a b c d e f g h i j k l m n o p q) :=
  Proc a b c d e f g h i j k l m n v p q.

Definition set_name v '(Proc a b c d e f g h i j k l m n o p q) :=
  Proc a b c d e f g h i j k l m n o v q.

Definition set_tickets v '(Proc a b c d e f g h i j k l m n o p q) :=
  Proc a b c d e f g h i j k l m n o p v.

(** ** The kernel outside the repository

    [kext] is everything those parts keep: free pages, page tables, the file
    and inode tables, the generator's state, the clock. *)
Class KernelEnv : Type := {
  (* param.h, memlayout.h, mmu.h *)
  NPROC : nat;
  NOFILE : nat;
  KSTACKSIZE : Z;
  PGSIZE : Z;
  sizeof_trapframe : Z;
  SEG_UCODE : Z;
  SEG_UDATA : Z;
  DPL_USER : Z;
  FL_IF : Z;
  ROOTDEV : Z;
  sizeof_rtcdate : Z;
  (* linker symbols *)
  forkret_addr : Z;
  trapret_addr : Z;
  initcode_start : Z;
  initcode_size : Z;
  (* the other kernel files *)
  kext : Type;
  kalloc : kext → Z * kext;
  kfree : Z → kext → kext;
  page_tf : Z → kext → trapframe;   (* what an address of a fresh page holds *)
  setupkvm : kext → Z * kext;
  inituvm : Z → Z → Z → kext → kext;
  allocuvm : Z → Z → Z → kext → Z * kext;
  deallocuvm : Z → Z → Z → kext → Z * kext;
  copyuvm : Z → Z → kext → Z * kext;
  freevm : Z → kext → kext;
  switchuvm : nat → kext → kext;
  switchkvm : kext → kext;
  filedup : Z → kext → Z * kext;
  fileclose : Z → kext → kext;
  idup : Z → kext → Z * kext;
  iput : Z → kext → kext;
  namei : list Z → kext → Z * kext;
  begin_op : kext → kext;
  end_op : kext → kext;
  iinit : Z → kext → kext;
  initlog : Z → kext → kext;
  unixtime : kext → Z;
  sgenrand : Z → kext → kext;
  random_at_most : Z → kext → Z * kext;
  safestrcpy : list Z → list Z → Z → list Z;
  getcallerpcs : Z → kext → list Z;
  uload32 : Z → Z → kext → Z;   (* the word at an address of an address space *)
  uload8 : Z → Z → kext → Z;
  cmostime : Z → Z → kext → kext   (* page directory and address of the rtcdate to fill *)
}.

(** rand.h: [random_at_most(max)] returns a number in the closed interval
    from 0 to [max]. *)
Class RandomLaw `{KernelEnv} : Prop := {
  random_range : ∀ n e, 0 ≤ n → 0 ≤ (random_at_most n e).1 ≤ n
}.

(** spinlock.c: [acquire] and [release] act on the lock words and on the
    [ncli], [intena] and interrupt flag of the calling processor, [holding]
    says whether a processor holds a lock. *)
Class Spinlock : Type := {
  lkst : Type;
  lk_init : lockid → lkst → lkst;
  lk_acquire : nat → lockid → lkst → cpu → option (lkst * cpu);
  lk_release : nat → lockid → lkst → cpu → option (lkst * cpu);
  holding : nat → lockid → lkst → bool
}.

(** What the callers rely on: a free lock is taken, a held lock is given back,
    the caller's [proc] is untouched, nesting is counted, interrupts are off
    while a lock is held and come back with the outermost release. *)
Class SpinlockLaws `{Spinlock} : Prop := {
  init_free : ∀ c l L, holding c l (lk_init l L) = false;
  acquire_free : ∀ c l L k,
    (∀ c', holding c' l L = false) → 0 ≤ ncli k →
    ∃ L' k', lk_acquire c l L k = Some (L', k') ∧
      cpu_proc k' = cpu_proc k ∧ ncli k' = ncli k + 1 ∧ eflags_if k' = false ∧
      intena k' = (if decide (ncli k = 0) then (if eflags_if k then 1 else 0) else intena k) ∧
      holding c l L' = true ∧
      (∀ c' l', (c', l') ≠ (c, l) → holding c' l' L' = holding c' l' L);
  acquire_busy : ∀ c c' l L k, holding c' l L = true → lk_acquire c l L k = None;
  release_held : ∀ c l L k,
    holding c l L = true → 1 ≤ ncli k → eflags_if k = false →
    ∃ L' k', lk_release c l L k = Some (L', k') ∧
      cpu_proc k' = cpu_proc k ∧ ncli k' = ncli k - 1 ∧ intena k' = intena k ∧
      eflags_if k' = bool_decide (ncli k = 1 ∧ intena k ≠ 0) ∧
      (∀ c', holding c' l L' = holding c' l L && negb (bool_decide (c' = c))) ∧
      (∀ c' l', l' ≠ l → holding c' l' L' = holding c' l' L)
}.
