(* ===== verification/Proc.v ===== *)
(** The process table of hw3/proc.c: the kernel's state and every function of
    the file except the scheduler (Lottery.v), as programs of the state and
    error monad, with what each does to the table.

    [swtch] (swtch.S, not in the repository) is an argument of the functions
    that give up the processor: it runs the rest of the system and comes back,
    on a processor that may be another one, when the process is scheduled. *)

From Stdlib Require Import String.
From S2P Require Import Prelude KernelEnv.

Definition MAGIC_TICKET_NUM : Z := 20.

Inductive kerr : Type :=
| Panic (msg : string)
| NoLock (l : lockid)      (* spins on, or panics in, [acquire] or [release] *)
| NullDeref.

Inductive event : Type :=
| EvProc (pid : Z) (state : string) (name : list Z)
| EvPc (pc : Z)
| EvNewline
| EvUnknownCall (pid : Z) (name : list Z) (num : Z)
| EvHlt (c : nat).

Section proc.
Context `{KernelEnv} `{Spinlock}.

(** ** State *)

Record kernel : Type := Kernel {
  ptable : list proc;
  initproc : option nat;
  nextpid : Z;
  first : Z;
  ticks : Z;
  cpus : list cpu;
  locks : lkst;
  ext : kext;
  trace : list event
}.

Definition set_ptable v '(Kernel a b c d e f g h i) := Kernel v b c d e f g h i.

Definition set_initproc v '(Kernel a b c d e f g h i) := Kernel a v c d e f g h i.

Definition set_nextpid v '(Kernel a b c d e f g h i) := Kernel a b v d e f g h i.

Definition set_first v '(Kernel a b c d e f g h i) := Kernel a b c v e f g h i.

Definition set_ticks v '(Kernel a b c d e f g h i) := Kernel a b c d v f g h i.

Definition set_cpus v '(Kernel a b c d e f g h i) := Kernel a b c d e v g h i.

Definition set_locks v '(Kernel a b c d e f g h i) := Kernel a b c d e f v h i.

Definition set_ext v '(Kernel a b c d e f g h i) := Kernel a b c d e f g v i.

Definition emit v '(Kernel a b c d e f g h i) := Kernel a b c d e f g h (i ++ [v])%list.

(** ** Primitives *)

Definition K (A : Type) : Type := prog kernel kerr A.

#[export] Instance K_ret : MRet K := @prog_ret kernel kerr.

#[export] Instance K_bind : MBind K := @prog_bind kernel kerr.

Definition panic {A} (msg : string) : K A := fail (Panic msg).

(** [proc->] on the processor's current process, [p->] on a slot. *)
Definition curproc (c : nat) : K nat :=
  s ← (get : K kernel); expect NullDeref (cpus s !! c ≫= cpu_proc).

Definition proc_at (i : nat) : K proc :=
  s ← (get : K kernel); expect NullDeref (ptable s !! i).

Definition upd (i : nat) (f : proc → proc) : K unit :=
  modify (λ s, set_ptable (alter f i (ptable s)) s).

Definition upd_cpu (c : nat) (f : cpu → cpu) : K unit :=
  modify (λ s, set_cpus (alter f c (cpus s)) s).

Definition ext_get {A} (f : kext → A * kext) : K A :=
  λ s, let r := f (ext s) in Ok r.1 (set_ext r.2 s).

Definition ext_do (f : kext → kext) : K unit := modify (λ s, set_ext (f (ext s)) s).

Definition with_lock (f : lkst → cpu → option (lkst * cpu)) (c : nat) (l : lockid) : K unit :=
  λ s, match cpus s !! c with
       | None => Err NullDeref
       | Some k =>
           match f (locks s) k with
           | Some (L, k') => Ok tt (set_locks L (set_cpus (<[c := k']> (cpus s)) s))
           | None => Err (NoLock l)
           end
       end.

Definition acquire (c : nat) (l : lockid) : K unit := with_lock (lk_acquire c l) c l.

Definition release (c : nat) (l : lockid) : K unit := with_lock (lk_release c l) c l.

(** ** pinit and allocproc *)

Definition pinit : K unit :=
  modify (λ s, set_locks (lk_init PtableLock (locks s)) s) ;;
  ext_do (λ e, sgenrand (unixtime e) e).

(** The slot the scan stops at: the first whose state is [UNUSED]. *)
Definition find_unused (tab : list proc) : option nat :=
  fst <$> list_find (λ p, state p = UNUSED) tab.

(** Lines 45 to 59: take a slot, under the lock. *)
Definition allocproc_slot (c : nat) : K (option nat) :=
  acquire c PtableLock ;;
  s ← (get : K kernel);
  match find_unused (ptable s) with
  | None => release c PtableLock ;; mret None
  | Some i =>
      upd i (set_state EMBRYO) ;;
      upd i (set_pid (nextpid s)) ;;
      modify (set_nextpid (i32 (nextpid s + 1))) ;;
      upd i (set_tickets MAGIC_TICKET_NUM) ;;
      release c PtableLock ;;
      mret (Some i)
  end.

Definition sizeof_context : Z := 20.

(** Lines 61 to 82: lay out the kernel stack. *)
Definition allocproc_stack (i : nat) : K (option nat) :=
  ks ← ext_get kalloc;
  upd i (set_kstack ks) ;;
  if decide (ks = 0) then
    upd i (set_state UNUSED) ;;
    mret None
  else
    let sp := u32 (u32 (ks + KSTACKSIZE) - sizeof_trapframe) in
    s ← (get : K kernel);
    upd i (set_tf_addr sp) ;;
    upd i (set_tf (page_tf sp (ext s))) ;;
    let sp := u32 (sp - 4) in
    upd i (set_kret (u32 trapret_addr)) ;;
    let sp := u32 (sp - sizeof_context) in
    upd i (set_context_addr sp) ;;
    upd i (set_ctx (Context 0 0 0 0 0)) ;;
    upd i (λ p, set_ctx (Context (edi (ctx p)) (esi (ctx p)) (ebx (ctx p)) (ebp (ctx p))
                                 (u32 forkret_addr)) p) ;;
    mret (Some i).

Definition allocproc (c : nat) : K (option nat) :=
  r ← allocproc_slot c;
  match r with
  | None => mret None
  | Some i => allocproc_stack i
  end.

(** ** userinit *)

Definition tf_zero : trapframe := Trapframe 0 0 0 0 0 0 0 0.

Definition initcode_name : list Z := [105; 110; 105; 116; 99; 111; 100; 101; 0].

Definition user_tf : trapframe :=
  let ds := u32 (Z.lor (Z.shiftl SEG_UDATA 3) DPL_USER) in
  {| tf_eax := tf_eax tf_zero; tf_esp := PGSIZE; tf_eip := 0; tf_eflags := FL_IF;
     tf_cs := u32 (Z.lor (Z.shiftl SEG_UCODE 3) DPL_USER);
     tf_ds := ds; tf_es := ds; tf_ss := ds |}.

Definition userinit (c : nat) : K unit :=
  r ← allocproc c;
  modify (set_initproc r) ;;
  p ← (expect NullDeref r : K nat);
  pg ← ext_get setupkvm;
  upd p (set_pgdir pg) ;;
  if decide (pg = 0) then panic "userinit: out of memory?" else
  ext_do (inituvm pg initcode_start initcode_size) ;;
  upd p (set_sz PGSIZE) ;;
  upd p (set_tf user_tf) ;;
  upd p (λ q, set_name (safestrcpy (name q) initcode_name 16) q) ;;
  cw ← ext_get (namei [47; 0]);
  upd p (set_cwd cw) ;;
  upd p (set_state RUNNABLE).

(** ** growproc *)

Definition growproc (c : nat) (n : Z) : K Z :=
  cur ← curproc c;
  p ← proc_at cur;
  let finish sz' :=
    upd cur (set_sz sz') ;; ext_do (switchuvm cur) ;; mret 0 in
  if decide (0 < n) then
    r ← ext_get (allocuvm (pgdir p) (sz p) (u32 (sz p + n)));
    if decide (u32 r = 0) then mret (-1) else finish (u32 r)
  else if decide (n < 0) then
    r ← ext_get (deallocuvm (pgdir p) (sz p) (u32 (sz p + n)));
    if decide (u32 r = 0) then mret (-1) else finish (u32 r)
  else finish (sz p).

(** ** fork *)

(** The loop over the open files: [filedup] of every open one, in order. *)
Fixpoint dup_files (from to : list Z) (e : kext) : list Z * kext :=
  match from, to with
  | f :: from', t :: to' =>
      let '(t', e1) := if decide (f ≠ 0) then filedup f e else (t, e) in
      let '(r, e2) := dup_files from' to' e1 in
      (t' :: r, e2)
  | _, _ => (to, e)
  end.

(** Lines 147 to 166, the copy into the new slot; [false] when there is no
    memory for the page table. *)
Definition fork_copy (cur np : nat) : K bool :=
  p ← proc_at cur;
  pg ← ext_get (copyuvm (pgdir p) (sz p));
  upd np (set_pgdir pg) ;;
  if decide (pg = 0) then
    q ← proc_at np;
    ext_do (kfree (kstack q)) ;;
    upd np (set_kstack 0) ;;
    upd np (set_state UNUSED) ;;
    mret false
  else
    upd np (set_sz (sz p)) ;;
    upd np (set_parent (Some cur)) ;;
    upd np (set_tf (tf p)) ;;
    upd np (λ q, let t := tf q in
      set_tf (Trapframe 0 (tf_esp t) (tf_eip t) (tf_eflags t)
                        (tf_cs t) (tf_ds t) (tf_es t) (tf_ss t)) q) ;;
    q ← proc_at np;
    files ← ext_get (dup_files (ofile p) (ofile q));
    upd np (set_ofile files) ;;
    cw ← ext_get (idup (cwd p));
    upd np (set_cwd cw) ;;
    upd np (λ q, set_name (safestrcpy (name q) (name p) 16) q) ;;
    mret true.

(** Lines 170 to 173. *)
Definition fork_publish (c np : nat) : K unit :=
  acquire c PtableLock ;;
  upd np (set_state RUNNABLE) ;;
  release c PtableLock.

Definition fork (c : nat) : K Z :=
  r ← allocproc c;
  match r with
  | None => mret (-1)
  | Some np =>
      cur ← curproc c;
      ok ← fork_copy cur np;
      if (ok : bool) then
        q ← proc_at np;
        fork_publish c np ;;
        mret (pid q)
      else mret (-1)
  end.

(** ** wakeup *)

(** The loop of [wakeup1] over the table. *)
Definition wake (ch : option chanid) (p : proc) : proc :=
  if decide (state p = SLEEPING ∧ chan p = ch) then set_state RUNNABLE p else p.

Definition wake_all (ch : option chanid) (tab : list proc) : list proc := wake ch <$> tab.

Definition wakeup1 (ch : option chanid) : K unit :=
  modify (λ s, set_ptable (wake_all ch (ptable s)) s).

Definition wakeup (c : nat) (ch : option chanid) : K unit :=
  acquire c PtableLock ;;
  wakeup1 ch ;;
  release c PtableLock.

(** ** sched, yield, sleep, forkret *)

Definition set_intena v '(Cpu a b c d) := Cpu a b v d.

Definition set_cpu_proc v '(Cpu a b c d) := Cpu v b c d.

Definition set_if v '(Cpu a b c d) := Cpu a b c v.

(** The four checks of [sched], in order, and the saved [intena]. *)
Definition sched_enter (c : nat) : K Z :=
  s ← (get : K kernel);
  k ← (expect NullDeref (cpus s !! c) : K cpu);
  if negb (holding c PtableLock (locks s)) then panic "sched ptable.lock" else
  if decide (ncli k ≠ 1) then panic "sched locks" else
  cur ← curproc c;
  p ← proc_at cur;
  if decide (state p = RUNNING) then panic "sched running" else
  if eflags_if k then panic "sched interruptible" else
  mret (intena k).

Definition sched_leave (c : nat) (saved : Z) : K unit := upd_cpu c (set_intena saved).

Definition sched (swtch : nat → K nat) (c : nat) : K nat :=
  saved ← sched_enter c;
  c' ← swtch c;
  sched_leave c' saved ;;
  mret c'.

Definition yield (swtch : nat → K nat) (c : nat) : K nat :=
  acquire c PtableLock ;;
  cur ← curproc c;
  upd cur (set_state RUNNABLE) ;;
  c' ← sched swtch c;
  release c' PtableLock ;;
  mret c'.

Definition forkret (c : nat) : K unit :=
  release c PtableLock ;;
  s ← (get : K kernel);
  if decide (first s ≠ 0) then
    modify (set_first 0) ;;
    ext_do (iinit ROOTDEV) ;;
    ext_do (initlog ROOTDEV)
  else mret tt.

(** Lines 390 to 411: up to the call of [sched]. *)
Definition sleep_enter (c : nat) (ch : option chanid) (lk : option lockid) : K nat :=
  s ← (get : K kernel);
  match cpus s !! c ≫= cpu_proc, lk with
  | None, _ => panic "sleep"
  | Some _, None => panic "sleep without lk"
  | Some cur, Some l =>
      (if decide (l ≠ PtableLock) then
         acquire c PtableLock ;; release c l
       else mret tt) ;;
      upd cur (set_chan ch) ;;
      upd cur (set_state SLEEPING) ;;
      mret cur
  end.

(** Lines 414 to 421: after [sched] has returned. *)
Definition sleep_leave (c cur : nat) (lk : option lockid) : K unit :=
  upd cur (set_chan None) ;;
  match lk with
  | Some l =>
      if decide (l ≠ PtableLock) then release c PtableLock ;; acquire c l else mret tt
  | None => mret tt
  end.

Definition sleep (swtch : nat → K nat) (c : nat) (ch : option chanid) (lk : option lockid)
    : K nat :=
  cur ← sleep_enter c ch lk;
  c' ← sched swtch c;
  sleep_leave c' cur lk ;;
  mret c'.

(** ** exit *)

Fixpoint close_files (fs : list Z) (e : kext) : list Z * kext :=
  match fs with
  | [] => ([], e)
  | f :: fs' =>
      let '(f', e1) := if decide (f ≠ 0) then (0, fileclose f e) else (f, e) in
      let '(r, e2) := close_files fs' e1 in
      (f' :: r, e2)
  end.

(** The loop that passes abandoned children to init, slot by slot. *)
Definition reparent1 (cur : nat) (ip : option nat) (tab : list proc) (i : nat) : list proc :=
  match tab !! i with
  | Some p =>
      if decide (parent p = Some cur) then
        let tab' := alter (set_parent ip) i tab in
        if decide (state p = ZOMBIE) then wake_all (ChProc <$> ip) tab' else tab'
      else tab
  | None => tab
  end.

Definition reparent (cur : nat) (ip : option nat) (tab : list proc) : list proc :=
  foldl (reparent1 cur ip) tab (seq 0 (List.length tab)).

(** Lines 187 to 201: release the files and the directory. *)
Definition exit_files (c : nat) : K nat :=
  cur ← curproc c;
  s ← (get : K kernel);
  if decide (Some cur = initproc s) then panic "init exiting" else
  p ← proc_at cur;
  files ← ext_get (close_files (ofile p));
  upd cur (set_ofile files) ;;
  ext_do begin_op ;;
  ext_do (iput (cwd p)) ;;
  ext_do end_op ;;
  upd cur (set_cwd 0) ;;
  mret cur.

(** Lines 206 to 219, with the lock held. *)
Definition exit_zombie (cur : nat) : K unit :=
  p ← proc_at cur;
  wakeup1 (ChProc <$> parent p) ;;
  modify (λ s, set_ptable (reparent cur (initproc s) (ptable s)) s) ;;
  upd cur (set_state ZOMBIE).

Definition exit (swtch : nat → K nat) (c : nat) : K unit :=
  cur ← exit_files c;
  acquire c PtableLock ;;
  exit_zombie cur ;;
  sched swtch c ;;
  panic "zombie exit".

(** ** wait *)

(** The scan for a zombie child: whether a child was met, and the slot of the
    first zombie one, where the scan stops. *)
Fixpoint wait_scan (cur : nat) (i : nat) (tab : list proc) (havekids : bool)
    : bool * option nat :=
  match tab with
  | [] => (havekids, None)
  | p :: tab' =>
      if decide (parent p ≠ Some cur) then wait_scan cur (S i) tab' havekids
      else if decide (state p = ZOMBIE) then (true, Some i)
      else wait_scan cur (S i) tab' true
  end.

(** Lines 243 to 253: free the zombie's slot and return its pid. *)
Definition wait_reap (c i : nat) : K Z :=
  p ← proc_at i;
  ext_do (kfree (kstack p)) ;;
  upd i (set_kstack 0) ;;
  ext_do (freevm (pgdir p)) ;;
  upd i (set_state UNUSED) ;;
  upd i (set_pid 0) ;;
  upd i (set_parent None) ;;
  upd i (λ q, set_name (<[0%nat := 0]> (name q)) q) ;;
  upd i (set_killed 0) ;;
  release c PtableLock ;;
  mret (pid p).

(** One round of the [for(;;)]: [Some r] when [wait] returns [r], [None] when
    it goes on to [sleep]. *)
Definition wait_round (c cur : nat) : K (option Z) :=
  s ← (get : K kernel);
  match wait_scan cur 0 (ptable s) false with
  | (_, Some i) => r ← wait_reap c i; mret (Some r)
  | (havekids, None) =>
      p ← proc_at cur;
      if negb havekids || bool_decide (killed p ≠ 0) then
        release c PtableLock ;; mret (Some (-1))
      else mret None
  end.

(** [rounds] bounds the number of times the process goes to sleep; the result
    is the return value and the processor the process is on by then. *)
Fixpoint wait_loop (rounds : nat) (swtch : nat → K nat) (c cur : nat) : K (option (Z * nat)) :=
  r ← wait_round c cur;
  match r with
  | Some v => mret (Some (v, c))
  | None =>
      match rounds with
      | O => mret None
      | S rounds' =>
          c' ← sleep swtch c (Some (ChProc cur)) (Some PtableLock);
          wait_loop rounds' swtch c' cur
      end
  end.

Definition wait (rounds : nat) (swtch : nat → K nat) (c : nat) : K (option (Z * nat)) :=
  acquire c PtableLock ;;
  cur ← curproc c;
  wait_loop rounds swtch c cur.

(** ** kill *)

Definition find_pid (n : Z) (tab : list proc) : option nat :=
  fst <$> list_find (λ p, pid p = n) tab.

Definition kill_proc (p : proc) : proc :=
  let p := set_killed 1 p in
  if decide (state p = SLEEPING) then set_state RUNNABLE p else p.

Definition kill (c : nat) (n : Z) : K Z :=
  acquire c PtableLock ;;
  s ← (get : K kernel);
  match find_pid n (ptable s) with
  | Some i =>
      upd i kill_proc ;;
      release c PtableLock ;;
      mret 0
  | None =>
      release c PtableLock ;;
      mret (-1)
  end.

(** ** procdump *)

Definition state_name (st : procstate) : string :=
  match st with
  | UNUSED => "unused"
  | EMBRYO => "embryo"
  | SLEEPING => "sleep "
  | RUNNABLE => "runble"
  | RUNNING => "run   "
  | ZOMBIE => "zombie"
  end.

(** [for(i=0; i<10 && pc[i] != 0; i++)] *)
Fixpoint nonzero_prefix (fuel : nat) (pcs : list Z) : list Z :=
  match fuel, pcs with
  | S fuel', pc :: pcs' => if decide (pc = 0) then [] else pc :: nonzero_prefix fuel' pcs'
  | _, _ => []
  end.

Definition dump_proc (e : kext) (p : proc) : list event :=
  if decide (state p = UNUSED) then [] else
  EvProc (pid p) (state_name (state p)) (name p) ::
  (if decide (state p = SLEEPING) then
     EvPc <$> nonzero_prefix 10 (getcallerpcs (u32 (ebp (ctx p) + 8)) e)
   else []) ++ [EvNewline].

Definition procdump : K unit :=
  modify (λ s, foldl (λ s ev, emit ev s) s (ptable s ≫= dump_proc (ext s))).

End proc.

(** Unfolds the monad and its primitives in the goal. *)
Ltac kunfold :=
  cbv [mbind mret K_bind K_ret prog_bind prog_ret get gets modify fail expect panic
       upd upd_cpu ext_get ext_do curproc proc_at]; cbn beta.
