(* ===== verification/Locking.v ===== *)
(** The lock discipline of the process code: what taking and giving back a
    spin lock around a critical section leaves of the kernel state, stated up
    to the lock bookkeeping, from the interface [Spinlock] alone. *)

From S2P Require Import Prelude KernelEnv Proc.

Section locking.
Context `{KernelEnv} `{SpinlockLaws}.

(** ** States up to lock bookkeeping *)

(** The same processor but for the saved interrupt flag, which is only
    meaningful while a lock is held. *)
Definition cpu_same (k1 k2 : cpu) : Prop :=
  cpu_proc k1 = cpu_proc k2 ∧ ncli k1 = ncli k2 ∧ eflags_if k1 = eflags_if k2.

(** The same kernel state but for the representation of the lock words. *)
Record kernel_same (s1 s2 : kernel) : Prop := {
  same_ptable : ptable s1 = ptable s2;
  same_initproc : initproc s1 = initproc s2;
  same_nextpid : nextpid s1 = nextpid s2;
  same_first : first s1 = first s2;
  same_ticks : ticks s1 = ticks s2;
  same_ext : ext s1 = ext s2;
  same_trace : trace s1 = trace s2;
  same_cpus : Forall2 cpu_same (cpus s1) (cpus s2);
  same_holding : ∀ c l, holding c l (locks s1) = holding c l (locks s2)
}.

#[export] Instance kernel_equiv : Equiv kernel := kernel_same.

(** [m] started in [s] returns [a] in a state that is [t] up to bookkeeping. *)
Definition runs {A} (m : K A) (s : kernel) (a : A) (t : kernel) : Prop :=
  ∃ s', m s = Ok a s' ∧ s' ≡ t.

Definition lock_free (l : lockid) (s : kernel) : Prop :=
  ∀ c, holding c l (locks s) = false.

(** Interrupts are off whenever the processor is inside a critical section. *)
Definition cpu_ok (k : cpu) : Prop := 0 ≤ ncli k ∧ (ncli k ≠ 0 → eflags_if k = false).

Definition can_lock (c : nat) (l : lockid) (s : kernel) : Prop :=
  lock_free l s ∧ ∃ k, cpus s !! c = Some k ∧ cpu_ok k.

(** The body of a critical section works on the process table and the rest of
    the kernel, not on the lock words or the processors. *)
Definition tabular {A} (g : kernel → A * kernel) : Prop :=
  ∀ s L C, g (set_locks L (set_cpus C s)) = ((g s).1, set_locks L (set_cpus C (g s).2)).

(** ** The equivalence *)

#[export] Instance cpu_same_equivalence : Equivalence cpu_same.
Proof.
  split; red; unfold cpu_same; [done|naive_solver|].
  intros k1 k2 k3 H12 H23. naive_solver congruence.
Qed.

#[export] Instance kernel_equivalence : Equivalence (≡@{kernel}).
Proof.
  split.
  - intros s. by split.
  - intros s t []. by split.
  - intros s t u [] []. split; [congruence..|by trans (cpus t)|congruence].
Qed.

#[export] Instance lock_free_proper l : Proper ((≡) ==> iff) (lock_free l).
Proof. intros s t []. unfold lock_free. naive_solver congruence. Qed.

#[export] Instance can_lock_proper c l : Proper ((≡) ==> iff) (can_lock c l).
Proof.
  intros s t Heq. unfold can_lock. rewrite Heq. apply and_iff_compat_l.
  destruct Heq. unfold cpu_ok, cpu_same in *.
  split; intros (k & Hk & ?).
  - destruct (Forall2_lookup_l _ _ _ _ _ same_cpus0 Hk) as (k' & ? & _ & Hn & Hi).
    exists k'. by rewrite <-Hn, <-Hi.
  - destruct (Forall2_lookup_r _ _ _ _ _ same_cpus0 Hk) as (k' & ? & _ & Hn & Hi).
    exists k'. by rewrite Hn, Hi.
Qed.

#[export] Instance ptable_proper : Proper ((≡) ==> (=)) ptable.
Proof. by intros s t []. Qed.

#[export] Instance initproc_proper : Proper ((≡) ==> (=)) initproc.
Proof. by intros s t []. Qed.

#[export] Instance nextpid_proper : Proper ((≡) ==> (=)) nextpid.
Proof. by intros s t []. Qed.

#[export] Instance ext_proper : Proper ((≡) ==> (=)) ext.
Proof. by intros s t []. Qed.

#[export] Instance set_ptable_proper v : Proper ((≡) ==> (≡)) (set_ptable v).
Proof. intros [] [] []. by split. Qed.

(** ** Rules for [runs] *)

Lemma runs_ret {A} (a : A) s : runs (mret a) s a s.
Proof. by exists s. Qed.

Lemma runs_bind {A B} (m : K A) (f : A → K B) s a t b u :
  runs m s a t → (∀ s', s' ≡ t → runs (f a) s' b u) → runs (m ≫= f) s b u.
Proof.
  intros (s' & Hm & Heq) Hf. destruct (Hf s' Heq) as (s'' & Hf' & Hu).
  exists s''. split; [|done]. unfold mbind, K_bind, prog_bind. by rewrite Hm.
Qed.

Lemma runs_step {A B} (m : K A) (f : A → K B) s a t b u :
  m s = Ok a t → runs (f a) t b u → runs (m ≫= f) s b u.
Proof.
  intros Hm (s' & Hf & Hu). exists s'. split; [|done].
  unfold mbind, K_bind, prog_bind. by rewrite Hm.
Qed.

Lemma runs_weaken {A} (m : K A) s a t t' : runs m s a t → t ≡ t' → runs m s a t'.
Proof. intros (s' & ? & ?) ?. exists s'. split; [done|]. by trans t. Qed.

(** ** Taking and giving back a lock *)

Lemma acquire_ok c l s k :
  lock_free l s → cpus s !! c = Some k → cpu_ok k →
  ∃ L k', acquire c l s = Ok tt (set_locks L (set_cpus (<[c:=k']> (cpus s)) s)) ∧
    cpu_proc k' = cpu_proc k ∧ ncli k' = ncli k + 1 ∧ eflags_if k' = false ∧
    intena k' = (if decide (ncli k = 0) then (if eflags_if k then 1 else 0) else intena k) ∧
    holding c l L = true ∧
    (∀ c' l', (c', l') ≠ (c, l) → holding c' l' L = holding c' l' (locks s)).
Proof.
  intros Hfree Hk [Hn _].
  destruct (acquire_free c l (locks s) k Hfree Hn) as (L & k' & Ha & Hrest).
  exists L, k'. split; [|done]. unfold acquire, with_lock. by rewrite Hk, Ha.
Qed.

Lemma release_ok c l s k :
  holding c l (locks s) = true → cpus s !! c = Some k → 1 ≤ ncli k → eflags_if k = false →
  ∃ L k', release c l s = Ok tt (set_locks L (set_cpus (<[c:=k']> (cpus s)) s)) ∧
    cpu_proc k' = cpu_proc k ∧ ncli k' = ncli k - 1 ∧
    eflags_if k' = bool_decide (ncli k = 1 ∧ intena k ≠ 0) ∧
    (∀ c', holding c' l L = holding c' l (locks s) && negb (bool_decide (c' = c))) ∧
    (∀ c' l', l' ≠ l → holding c' l' L = holding c' l' (locks s)).
Proof.
  intros Hh Hk Hn Hif.
  destruct (release_held c l (locks s) k Hh Hn Hif)
    as (L & k' & Hr & ? & ? & _ & Hrest).
  exists L, k'. split; [|done]. unfold release, with_lock. by rewrite Hk, Hr.
Qed.

(** A processor after a balanced [acquire] and [release]. *)
Lemma cpu_same_bracket k k1 k2 :
  cpu_ok k → cpu_proc k1 = cpu_proc k → ncli k1 = ncli k + 1 →
  intena k1 = (if decide (ncli k = 0) then (if eflags_if k then 1 else 0) else intena k) →
  cpu_proc k2 = cpu_proc k1 → ncli k2 = ncli k1 - 1 →
  eflags_if k2 = bool_decide (ncli k1 = 1 ∧ intena k1 ≠ 0) →
  cpu_same k2 k.
Proof.
  intros [Hn Hif] Hp1 Hn1 Hi1 Hp2 Hn2 Hif2. split; [congruence|]. split; [lia|].
  rewrite Hif2. case_decide as Hz.
  - destruct (eflags_if k); [rewrite bool_decide_true; lia|].
    rewrite bool_decide_false; [done|]. intros []. lia.
  - rewrite Hif by done. rewrite bool_decide_false; [done|]. intros []. lia.
Qed.

Lemma cpus_same_insert c k k2 C : C !! c = Some k → cpu_same k2 k → Forall2 cpu_same (<[c:=k2]> C) C.
Proof.
  intros Hk Hs. rewrite <-(list_insert_id C c k) at 2 by done. by apply Forall2_insert.
Qed.

(** The body of a section leaves the processors and the locks alone. *)
Lemma tabular_frame {A} (g : kernel → A * kernel) s :
  tabular g → cpus (g s).2 = cpus s ∧ locks (g s).2 = locks s.
Proof.
  intros Hg. specialize (Hg s (locks s) (cpus s)). destruct s. simpl in *.
  destruct (g _) as [? []]. simpl in *. split; congruence.
Qed.

(** [acquire], the body, [release]: the effect of the body alone, no lock
    left, interrupts as they were. *)
Lemma bracket_runs {A} c l (m : K A) (g : kernel → A * kernel) s :
  (∀ s, m s = (acquire c l ;; x ← (λ s, Ok (g s).1 (g s).2) : K A; release c l ;; mret x) s) →
  tabular g → can_lock c l s → runs m s (g s).1 (g s).2.
Proof.
  intros Hm Hg (Hfree & k & Hk & Hok). unfold runs. rewrite Hm.
  destruct (acquire_ok c l s k Hfree Hk Hok)
    as (L & k1 & Ha & Hp1 & Hn1 & Hif1 & Hi1 & Hin1 & Ho1).
  unfold mbind, mret, K_bind, K_ret, prog_bind, prog_ret. rewrite Ha. simpl. rewrite Hg. simpl.
  destruct (tabular_frame g s Hg) as [Hcpus Hlocks]. destruct Hok as [Hn Hif].
  set (s1 := set_locks L (set_cpus (<[c:=k1]> (cpus s)) (g s).2)).
  pose proof (lookup_lt_Some _ _ _ Hk) as Hlt.
  destruct (release_ok c l s1 k1) as (L2 & k2 & Hr & Hp2 & Hn2 & Hif2 & Hl2 & Ho2).
  { by destruct (g s).2. }
  { unfold s1. destruct (g s).2. simpl. by apply list_lookup_insert_eq. }
  { lia. }
  { done. }
  rewrite Hr. eexists. split; [done|].
  assert (cpu_same k2 k) as Hsame by (by apply (cpu_same_bracket k k1 k2)).
  unfold s1 in *. destruct (g s).2 as [? ? ? ? ? C ? ? ?]. simpl in *. subst.
  split; simpl; try done.
  - rewrite list_insert_insert_eq. by eapply cpus_same_insert.
  - intros c' l'. destruct (decide (l' = l)) as [->|Hl].
    + rewrite Hl2. destruct (decide (c' = c)) as [->|Hc].
      * rewrite bool_decide_true by done. by rewrite andb_false_r, Hfree.
      * rewrite bool_decide_false by done. rewrite andb_true_r. apply Ho1. congruence.
    + rewrite Ho2 by done. apply Ho1. congruence.
Qed.

End locking.
