(* ===== verification/ProcSpec.v ===== *)
(** What the functions of hw3/proc.c do to the process table: slot allocation,
    fork, wakeup, kill, exit and wait, each on every branch, from the
    definitions of Proc.v and the lock discipline of Locking.v. *)

From S2P Require Import Prelude KernelEnv Proc Locking.

Section specs.
Context `{KernelEnv} `{SpinlockLaws}.

(** ** Closed forms *)

(** The assignments of [allocproc] to the slot it takes, in the critical
    section and on the kernel stack at [ks]. *)
Definition take_slot (n : Z) (p : proc) : proc :=
  set_tickets MAGIC_TICKET_NUM (set_pid n (set_state EMBRYO p)).

Definition stack_tf (ks : Z) : Z := u32 (u32 (ks + KSTACKSIZE) - sizeof_trapframe).

Definition lay_stack (ks : Z) (e : kext) (p : proc) : proc :=
  set_ctx (Context 0 0 0 0 (u32 forkret_addr))
    (set_context_addr (u32 (u32 (stack_tf ks - 4) - sizeof_context))
      (set_kret (u32 trapret_addr)
        (set_tf (page_tf (stack_tf ks) e) (set_tf_addr (stack_tf ks) (set_kstack ks p))))).

Definition drop_slot (p : proc) : proc := set_state UNUSED (set_kstack 0 p).

(** The assignments of [fork] to the new slot, given the page table, the
    duplicated files and the directory the other subsystems return. *)
Definition copy_proc (cur : nat) (pp : proc) (pg : Z) (files : list Z) (cw : Z) (q : proc)
    : proc :=
  let t := tf pp in
  set_name (safestrcpy (name q) (name pp) 16)
    (set_cwd cw
      (set_ofile files
        (set_tf (Trapframe 0 (tf_esp t) (tf_eip t) (tf_eflags t)
                             (tf_cs t) (tf_ds t) (tf_es t) (tf_ss t))
          (set_parent (Some cur) (set_sz (sz pp) (set_pgdir pg q)))))).

(** The assignments of [wait] to the slot of the child it collects. *)
Definition reap_slot (p : proc) : proc :=
  set_killed 0 (set_name (<[0%nat := 0]> (name p))
    (set_parent None (set_pid 0 (set_state UNUSED (set_kstack 0 p))))).

(** A state with a change of one slot of the table. *)
Definition on_slot (i : nat) (f : proc → proc) (s : kernel) : kernel :=
  set_ptable (alter f i (ptable s)) s.

Definition on_ext (e : kext) (s : kernel) : kernel := set_ext e s.

(** The effect of the critical section of [kill]. *)
Definition kill_effect (n : Z) (s : kernel) : Z * kernel :=
  match find_pid n (ptable s) with
  | Some i => (0, on_slot i kill_proc s)
  | None => (-1, s)
  end.

(** The effect of the critical section of [allocproc]. *)
Definition slot_effect (s : kernel) : option nat * kernel :=
  match find_unused (ptable s) with
  | Some i => (Some i, set_nextpid (i32 (nextpid s + 1)) (on_slot i (take_slot (nextpid s)) s))
  | None => (None, s)
  end.

(** The effect of [allocproc_stack] and of the whole [allocproc]. *)
Definition stack_effect (i : nat) (s : kernel) : option nat * kernel :=
  let '(ks, e) := kalloc (ext s) in
  if decide (ks = 0) then (None, on_slot i drop_slot (set_ext e s))
  else (Some i, on_slot i (lay_stack ks e) (set_ext e s)).

Definition alloc_effect (s : kernel) : option nat * kernel :=
  match slot_effect s with
  | (None, s1) => (None, s1)
  | (Some i, s1) => stack_effect i s1
  end.

(** The effect of [fork_copy] for the parent [pp] in slot [cur]. *)
Definition copy_effect (cur np : nat) (pp q : proc) (s : kernel) : bool * kernel :=
  let '(pg, e1) := copyuvm (pgdir pp) (sz pp) (ext s) in
  if decide (pg = 0) then
    (false, on_slot np (λ p, drop_slot (set_pgdir 0 p)) (set_ext (kfree (kstack q) e1) s))
  else
    let '(files, e2) := dup_files (ofile pp) (ofile q) e1 in
    let '(cw, e3) := idup (cwd pp) e2 in
    (true, on_slot np (copy_proc cur pp pg files cw) (set_ext e3 s)).

Definition publish_effect (np : nat) (s : kernel) : kernel := on_slot np (set_state RUNNABLE) s.

Definition fork_effect (cur : nat) (s : kernel) : Z * kernel :=
  match alloc_effect s with
  | (None, s1) => (-1, s1)
  | (Some np, s1) =>
      match ptable s1 !! cur, ptable s1 !! np with
      | Some pp, Some q =>
          match copy_effect cur np pp q s1 with
          | (true, s2) => (pid q, publish_effect np s2)
          | (false, s2) => (-1, s2)
          end
      | _, _ => (-1, s1)
      end
  end.

(** ** Symbolic execution *)

(** Shows that a function is [acquire], a body, [release]. *)
Ltac bracket :=
  let t := fresh in
  intros t; cbv [kill wakeup wakeup1 allocproc_slot fork_publish]; kunfold;
  destruct (acquire _ PtableLock t) as [[] ?|]; [|done]; simpl;
  cbv [kill_effect slot_effect on_slot]; simpl;
  repeat (case_match; simpl); repeat match goal with u : unit |- _ => destruct u end;
  simplify_eq/=; done.


(** Fuses successive assignments to one slot and compares them pointwise. *)
Ltac merge_alters :=
  rewrite ?list_alter_alter_eq; f_equal; f_equal;
  (apply list_alter_ext; [intros [] _; reflexivity|reflexivity]).

Lemma upd_run i f s : upd i f s = Ok tt (on_slot i f s).
Proof. done. Qed.

Lemma on_slot_compose i f g s : on_slot i f (on_slot i g s) = on_slot i (f ∘ g) s.
Proof. destruct s. unfold on_slot. simpl. by rewrite list_alter_alter_eq. Qed.

Lemma on_slot_lookup i f s j :
  ptable (on_slot i f s) !! j = if decide (i = j) then f <$> ptable s !! j else ptable s !! j.
Proof.
  destruct s. unfold on_slot. simpl. case_decide.
  - subst. apply list_lookup_alter_eq.
  - by apply list_lookup_alter_ne.
Qed.

Lemma proc_at_run i s p : ptable s !! i = Some p → proc_at i s = Ok p s.
Proof. intros Hp. kunfold. by rewrite Hp. Qed.

Lemma find_unused_spec tab i :
  find_unused tab = Some i ↔
  (∃ p, tab !! i = Some p ∧ state p = UNUSED) ∧
  (∀ j q, tab !! j = Some q → (j < i)%nat → state q ≠ UNUSED).
Proof.
  unfold find_unused. split.
  - intros ((j & p) & (? & ? & ?)%list_find_Some & ->)%fmap_Some. split; [by exists p|].
    simpl. eauto.
  - intros [(p & ? & ?) Hlt]. apply fmap_Some. exists (i, p). split; [|done].
    apply list_find_Some. split; [done|]. split; [done|]. eauto.
Qed.

Lemma find_unused_None tab :
  find_unused tab = None ↔ Forall (λ p, state p ≠ UNUSED) tab.
Proof. unfold find_unused. by rewrite fmap_None, list_find_None. Qed.

Lemma find_pid_spec n tab i :
  find_pid n tab = Some i ↔
  (∃ p, tab !! i = Some p ∧ pid p = n) ∧
  (∀ j q, tab !! j = Some q → (j < i)%nat → pid q ≠ n).
Proof.
  unfold find_pid. split.
  - intros ((j & p) & (? & ? & ?)%list_find_Some & ->)%fmap_Some. split; [by exists p|].
    simpl. eauto.
  - intros [(p & ? & ?) Hlt]. apply fmap_Some. exists (i, p). split; [|done].
    apply list_find_Some. split; [done|]. split; [done|]. eauto.
Qed.

(** ** wakeup and kill *)

Lemma wakeup_runs c ch s :
  can_lock c PtableLock s →
  runs (wakeup c ch) s tt (set_ptable (wake_all ch (ptable s)) s).
Proof.
  apply (bracket_runs c PtableLock (wakeup c ch)
           (λ s, (tt, set_ptable (wake_all ch (ptable s)) s))); [bracket|by intros []].
Qed.

Lemma kill_runs c n s :
  can_lock c PtableLock s → runs (kill c n) s (kill_effect n s).1 (kill_effect n s).2.
Proof.
  apply bracket_runs.
  - bracket.
  - intros [] L C. unfold kill_effect. simpl. by destruct (find_pid n _).
Qed.

Lemma take_slot_steps n (i : nat) (tab : list proc) :
  alter (set_tickets MAGIC_TICKET_NUM) i (alter (set_pid n) i (alter (set_state EMBRYO) i tab)) =
  alter (take_slot n) i tab.
Proof. by rewrite !list_alter_alter_eq. Qed.

Lemma allocproc_slot_runs c s :
  can_lock c PtableLock s → runs (allocproc_slot c) s (slot_effect s).1 (slot_effect s).2.
Proof.
  apply bracket_runs.
  - intros t. cbv [allocproc_slot]. kunfold.
    destruct (acquire _ PtableLock t) as [[] []|]; [|done]. cbv [slot_effect on_slot]. simpl.
    destruct (find_unused _) as [i|]; simpl; [rewrite take_slot_steps|]; by case_match.
  - intros [] L C. unfold slot_effect. simpl. by destruct (find_unused _).
Qed.

(** ** allocproc *)

#[export] Instance on_slot_proper i f : Proper ((≡) ==> (≡)) (on_slot i f).
Proof. intros [] [] []. simpl in *. subst. by split. Qed.

#[export] Instance set_ext_proper e : Proper ((≡) ==> (≡)) (set_ext e).
Proof. intros [] [] []. simpl in *. subst. by split. Qed.

Lemma allocproc_stack_run i s :
  allocproc_stack i s = Ok (stack_effect i s).1 (stack_effect i s).2.
Proof.
  destruct s. cbv [allocproc_stack stack_effect on_slot]. kunfold. simpl.
  destruct (kalloc ext) as [ks e]. simpl.
  case_decide; simpl; subst; by merge_alters.
Qed.

Lemma stack_effect_proper i s t :
  s ≡ t → (stack_effect i s).1 = (stack_effect i t).1 ∧
          (stack_effect i s).2 ≡ (stack_effect i t).2.
Proof.
  intros Heq. unfold stack_effect. rewrite (ext_proper _ _ Heq).
  destruct (kalloc _) as [ks e]. case_decide; simpl; by rewrite Heq.
Qed.

Lemma allocproc_runs c s :
  can_lock c PtableLock s → runs (allocproc c) s (alloc_effect s).1 (alloc_effect s).2.
Proof.
  intros Hc. pose proof (allocproc_slot_runs c s Hc) as Hslot. unfold allocproc, alloc_effect.
  destruct (slot_effect s) as [[i|] s1]; simpl in *; eapply runs_bind; try exact Hslot;
    intros s' Heq.
  - destruct (stack_effect_proper i s' s1 Heq) as [E1 E2].
    eexists. by rewrite allocproc_stack_run, E1.
  - by exists s'.
Qed.

(** ** fork *)

Definition current (c : nat) (s : kernel) : option nat := cpus s !! c ≫= cpu_proc.

#[export] Instance current_proper c : Proper ((≡) ==> (=)) (current c).
Proof.
  intros s t [_ _ _ _ _ _ _ Hc _]. unfold current.
  destruct (cpus s !! c) as [k|] eqn:Hk.
  - destruct (Forall2_lookup_l _ _ _ _ _ Hc Hk) as (k' & -> & ? & _). done.
  - apply lookup_ge_None in Hk. apply Forall2_length in Hc. rewrite Hc in Hk.
    by rewrite (lookup_ge_None_2 _ _ Hk).
Qed.

Lemma curproc_run c s cur : current c s = Some cur → curproc c s = Ok cur s.
Proof.
  intros Hc. change (curproc c s) with (expect (S := kernel) NullDeref (current c s) s).
  by rewrite Hc.
Qed.

Lemma fork_copy_run cur np s pp q :
  ptable s !! cur = Some pp → ptable s !! np = Some q →
  fork_copy cur np s = Ok (copy_effect cur np pp q s).1 (copy_effect cur np pp q s).2.
Proof.
  intros Hpp Hq. destruct s as [tab ? ? ? ? ? ? e ?]. cbv [fork_copy copy_effect on_slot]. kunfold. simpl in *.
  rewrite Hpp. simpl. destruct (copyuvm (pgdir pp) (sz pp) e) as [pg e1]. simpl.
  case_decide; simpl; rewrite ?list_lookup_alter_eq, Hq; simpl.
  - subst. destruct q. simpl. merge_alters.
  - destruct q. simpl.
    destruct (dup_files _ _ _) as [files e2]. simpl.
    destruct (idup _ _) as [cw e3]. simpl. merge_alters.
Qed.

Lemma fork_publish_runs c np s :
  can_lock c PtableLock s → runs (fork_publish c np) s tt (publish_effect np s).
Proof.
  apply (bracket_runs c PtableLock (fork_publish c np) (λ s, (tt, publish_effect np s)));
    [bracket|by intros []].
Qed.

(** The effects leave the processors and the locks alone. *)
Definition frame (s t : kernel) : Prop := cpus s = cpus t ∧ locks s = locks t.

Lemma frame_on_slot i f s t : frame s t → frame s (on_slot i f t).
Proof. by destruct t. Qed.

Lemma frame_set_ext e s t : frame s t → frame s (set_ext e t).
Proof. by destruct t. Qed.

Lemma frame_set_nextpid n s t : frame s t → frame s (set_nextpid n t).
Proof. by destruct t. Qed.

Lemma can_lock_frame c l s t : frame s t → can_lock c l s → can_lock c l t.
Proof. intros [Hc Hl]. unfold can_lock, lock_free. by rewrite Hc, Hl. Qed.

Lemma current_frame c s t : frame s t → current c t = current c s.
Proof. intros [Hc _]. unfold current. by rewrite Hc. Qed.

Lemma alloc_effect_frame s : frame s (alloc_effect s).2.
Proof.
  unfold alloc_effect, slot_effect, stack_effect.
  destruct (find_unused _); simpl; [|done].
  destruct (kalloc _). case_decide; simpl; by apply frame_on_slot, frame_set_ext, frame_set_nextpid, frame_on_slot.
Qed.

Lemma copy_effect_frame cur np pp q s : frame s (copy_effect cur np pp q s).2.
Proof.
  unfold copy_effect. destruct (copyuvm _ _ _). case_decide; simpl; [by apply frame_on_slot, frame_set_ext|].
  destruct (dup_files _ _ _), (idup _ _). simpl. by apply frame_on_slot, frame_set_ext.
Qed.

(** What a successful allocation returns. *)
Lemma alloc_effect_Some s np s1 :
  alloc_effect s = (Some np, s1) →
  ∃ q ks e, find_unused (ptable s) = Some np ∧ ptable s !! np = Some q ∧ state q = UNUSED ∧
    kalloc (ext s) = (ks, e) ∧ ks ≠ 0 ∧ ext s1 = e ∧ initproc s1 = initproc s ∧
    nextpid s1 = i32 (nextpid s + 1) ∧
    ptable s1 = <[np := lay_stack ks e (take_slot (nextpid s) q)]> (ptable s).
Proof.
  unfold alloc_effect, slot_effect, stack_effect.
  destruct (find_unused (ptable s)) as [i|] eqn:Hf; [|done]. intros Ha.
  destruct (find_unused_spec (ptable s) i) as [Hspec _]. destruct (Hspec Hf) as [(q & Hq & Hu) _].
  destruct s as [tab ? ? ? ? ? ? e0 ?]. simpl in *.
  destruct (kalloc e0) as [ks e]. case_decide; simplify_eq/=.
  exists q, ks, e. repeat split; try done.
  rewrite list_alter_alter_eq. by rewrite (list_alter_insert _ _ _ _ Hq).
Qed.

(** A slot is taken from the unused ones: never the running process's. *)
Lemma alloc_effect_None s s1 :
  alloc_effect s = (None, s1) →
  nextpid s1 = nextpid s ∧ ptable s1 = ptable s ∧ Forall (λ p, state p ≠ UNUSED) (ptable s)
  ∨ ∃ np q, find_unused (ptable s) = Some np ∧ ptable s !! np = Some q ∧
      (kalloc (ext s)).1 = 0 ∧ nextpid s1 = i32 (nextpid s + 1) ∧
      ptable s1 = <[np := drop_slot (take_slot (nextpid s) q)]> (ptable s).
Proof.
  unfold alloc_effect, slot_effect, stack_effect.
  destruct (find_unused (ptable s)) as [i|] eqn:Hf; intros Ha.
  - right. pose proof Hf as [(q & Hq & _) _]%find_unused_spec.
    destruct s as [tab ? ? ? ? ? ? e0 ?]. simpl in *.
    destruct (kalloc e0) as [ks e]. case_decide; simplify_eq/=.
    exists i, q. repeat split; try done.
    by rewrite list_alter_alter_eq, (list_alter_insert _ _ _ _ Hq).
  - left. simplify_eq/=. by apply find_unused_None in Hf.
Qed.

Lemma copy_effect_proper cur np pp q s t :
  s ≡ t → (copy_effect cur np pp q s).1 = (copy_effect cur np pp q t).1 ∧
          (copy_effect cur np pp q s).2 ≡ (copy_effect cur np pp q t).2.
Proof.
  intros Heq. unfold copy_effect. rewrite (ext_proper _ _ Heq).
  destruct (copyuvm _ _ _). case_decide; simpl; [by rewrite Heq|].
  destruct (dup_files _ _ _), (idup _ _). simpl. by rewrite Heq.
Qed.

#[export] Instance publish_effect_proper np : Proper ((≡) ==> (≡)) (publish_effect np).
Proof. apply on_slot_proper. Qed.

(** The pid of the new process is the one of its slot. *)
Lemma copy_effect_pid cur np pp q s :
  ptable s !! np = Some q →
  ∃ q', ptable (copy_effect cur np pp q s).2 !! np = Some q' ∧ pid q = pid q'.
Proof.
  intros Hq. unfold copy_effect. destruct (copyuvm _ _ _).
  case_decide; [|destruct (dup_files _ _ _), (idup _ _)];
    destruct s; simpl in *; rewrite list_lookup_alter_eq, Hq; eexists; (split; [done|]); by destruct q.
Qed.

Lemma fork_runs c s cur pp :
  can_lock c PtableLock s → current c s = Some cur →
  ptable s !! cur = Some pp → state pp ≠ UNUSED →
  runs (fork c) s (fork_effect cur s).1 (fork_effect cur s).2.
Proof.
  intros Hc Hcur Hpp Hu. pose proof (allocproc_runs c s Hc) as Ha.
  pose proof (alloc_effect_frame s) as Hfr. unfold fork, fork_effect.
  destruct (alloc_effect s) as [[np|] s1] eqn:He; simpl in *; eapply runs_bind; try exact Ha;
    intros s' Heq; simpl.
  2: { by exists s'. }
  apply alloc_effect_Some in He as (q0 & ks & e & _ & Hq0 & Hq0u & _ & _ & _ & _ & _ & Htab).
  assert (np ≠ cur) as Hne by congruence.
  assert (ptable s1 !! cur = Some pp) as Hpp1 by by rewrite Htab, list_lookup_insert_ne.
  assert (∃ q, ptable s1 !! np = Some q) as [q Hq].
  { rewrite Htab, list_lookup_insert_eq by by eapply lookup_lt_Some. eauto. }
  rewrite Hpp1, Hq.
  assert (ptable s' = ptable s1) as Ht' by by rewrite Heq.
  apply (runs_step _ _ _ cur s').
  { apply curproc_run. by rewrite Heq, (current_frame c s). }
  apply (runs_step _ _ _ _ _ _ _ (fork_copy_run cur np s' pp q ltac:(by rewrite Ht') ltac:(by rewrite Ht'))).
  destruct (copy_effect_proper cur np pp q s' s1 Heq) as [-> Heq2].
  pose proof (copy_effect_frame cur np pp q s1) as Hfr2.
  pose proof (copy_effect_pid cur np pp q s1 Hq) as Hpid.
  destruct (copy_effect cur np pp q s1) as [[|] s2]; simpl in *; [|by eexists].
  destruct Hpid as (q' & Hq' & Hpid). rewrite <-Heq2 in Hq'.
  apply (runs_step _ _ _ _ _ _ _ (proc_at_run _ _ _ Hq')). rewrite <-Hpid.
  eapply runs_bind; [apply fork_publish_runs|].
  { rewrite Heq2. eapply can_lock_frame; [|done]. destruct Hfr, Hfr2. split; congruence. }
  intros s4 Heq4. exists s4. split; [done|]. by rewrite Heq4, Heq2.
Qed.

(** ** wait *)

Definition is_child (cur : nat) (p : proc) : bool := bool_decide (parent p = Some cur).

Definition zombie_child (cur : nat) (p : proc) : bool :=
  is_child cur p && bool_decide (state p = ZOMBIE).

(** The scan finds the first zombie child, and says whether there is a child
    at all when there is no zombie one. *)
Lemma wait_scan_eq cur i tab hk :
  wait_scan cur i tab hk =
  match list_find (zombie_child cur) tab with
  | Some (j, _) => (true, Some (i + j)%nat)
  | None => (hk || existsb (is_child cur) tab, None)
  end.
Proof.
  revert i hk. induction tab as [|p tab IH]; intros i hk; simpl; [by rewrite orb_false_r|].
  unfold zombie_child, is_child in *.
  destruct (decide (parent p = Some cur)) as [Hp|Hp];
    [rewrite (bool_decide_true _ Hp), decide_False by naive_solver
    |rewrite (bool_decide_false _ Hp), decide_True by done; simpl].
  - destruct (decide (state p = ZOMBIE)) as [Hz|Hz];
      [rewrite (bool_decide_true _ Hz)|rewrite (bool_decide_false _ Hz)]; simpl.
    + f_equal. f_equal. lia.
    + rewrite IH. destruct (list_find _ tab) as [[j q]|]; simpl; [f_equal; f_equal; lia|].
      by rewrite orb_true_r.
  - rewrite IH. by destruct (list_find _ tab) as [[j q]|]; simpl; [f_equal; f_equal; lia|].
Qed.

(** ** exit *)

(** One slot after the loop over the children of [cur]. *)
Definition adopt (cur : nat) (ip : option nat) (p : proc) : proc :=
  if is_child cur p then set_parent ip p else p.

(** What the loop of [exit] leaves in a slot: a child goes to init, and init
    wakes up when one of the children is a zombie. *)
Definition reparent_slot (cur : nat) (ip : option nat) (woken : bool) (p : proc) : proc :=
  let p' := adopt cur ip p in if woken then wake (ChProc <$> ip) p' else p'.

Lemma wake_idemp ch p : wake ch (wake ch p) = wake ch p.
Proof. unfold wake. repeat case_decide; try done. destruct p; simpl in *. naive_solver. Qed.

Lemma wake_set_parent ch v p : wake ch (set_parent v p) = set_parent v (wake ch p).
Proof. unfold wake. destruct p. simpl. by case_decide. Qed.

Lemma wake_parent ch p : parent (wake ch p) = parent p.
Proof. unfold wake. case_decide; by destruct p. Qed.

Lemma wake_zombie ch p : state (wake ch p) = ZOMBIE ↔ state p = ZOMBIE.
Proof. unfold wake. case_decide; [|done]. destruct p; naive_solver. Qed.

Definition adopt_at (cur : nat) (ip : option nat) (tab : list proc) (i : nat) : list proc :=
  alter (adopt cur ip) i tab.

Definition zombie_child_at (cur : nat) (tab : list proc) (i : nat) : bool :=
  if tab !! i is Some p then zombie_child cur p else false.

Lemma adopt_wake cur ip ch p : adopt cur ip (wake ch p) = wake ch (adopt cur ip p).
Proof.
  unfold adopt, is_child. rewrite wake_parent. case_bool_decide; [by rewrite wake_set_parent|done].
Qed.

Lemma wake_all_idemp ch tab : wake_all ch (wake_all ch tab) = wake_all ch tab.
Proof.
  unfold wake_all. rewrite <-list_fmap_compose. apply list_fmap_ext. intros. apply wake_idemp.
Qed.

Lemma adopt_at_wake cur ip ch tab i :
  adopt_at cur ip (wake_all ch tab) i = wake_all ch (adopt_at cur ip tab i).
Proof.
  unfold adopt_at, wake_all. symmetry. apply list_fmap_alter.
  apply Forall_forall. intros. symmetry. apply adopt_wake.
Qed.

Lemma adopts_wake cur ip ch tab l :
  foldl (adopt_at cur ip) (wake_all ch tab) l = wake_all ch (foldl (adopt_at cur ip) tab l).
Proof. revert tab. induction l; intros tab; simpl; [done|]. by rewrite adopt_at_wake. Qed.

Lemma reparent1_eq cur ip tab i :
  reparent1 cur ip tab i =
  if zombie_child_at cur tab i then wake_all (ChProc <$> ip) (adopt_at cur ip tab i)
  else adopt_at cur ip tab i.
Proof.
  unfold reparent1, zombie_child_at, adopt_at. destruct (tab !! i) as [p|] eqn:Hp.
  - rewrite (list_alter_insert _ _ _ _ Hp), (list_alter_insert _ _ _ _ Hp).
    unfold zombie_child, adopt, is_child. case_decide as Hc.
    + rewrite (bool_decide_true _ Hc). simpl. case_decide; by case_bool_decide.
    + rewrite (bool_decide_false _ Hc). simpl. by rewrite list_insert_id.
  - by rewrite list_alter_None.
Qed.

(** A round does not change which other slots hold a zombie child. *)
Lemma zombie_child_at_step cur ip tab i j :
  i ≠ j → zombie_child_at cur (reparent1 cur ip tab i) j = zombie_child_at cur tab j.
Proof.
  intros Hij. rewrite reparent1_eq. unfold adopt_at.
  destruct (zombie_child_at cur tab i); unfold zombie_child_at, wake_all;
    rewrite ?list_lookup_fmap, list_lookup_alter_ne by done; [|done].
  destruct (tab !! j) as [p|]; [|done]. simpl. unfold zombie_child, is_child.
  rewrite wake_parent. f_equal. apply bool_decide_ext, wake_zombie.
Qed.

Lemma reparent_loop cur ip tab l :
  NoDup l →
  foldl (reparent1 cur ip) tab l =
  if existsb (zombie_child_at cur tab) l
  then wake_all (ChProc <$> ip) (foldl (adopt_at cur ip) tab l)
  else foldl (adopt_at cur ip) tab l.
Proof.
  intros Hnd. revert tab. induction Hnd as [|i l Hi Hnd IH]; intros tab; [done|]. simpl.
  rewrite IH.
  assert (existsb (zombie_child_at cur (reparent1 cur ip tab i)) l =
          existsb (zombie_child_at cur tab) l) as ->.
  { clear IH Hnd. induction l as [|j l IHl]; [done|]. simpl. apply not_elem_of_cons in Hi as [? ?].
    rewrite zombie_child_at_step by done. f_equal. by apply IHl. }
  rewrite reparent1_eq. destruct (zombie_child_at cur tab i); simpl; [|done].
  rewrite adopts_wake, wake_all_idemp. by destruct (existsb _ l).
Qed.

(** The whole loop: children go to init, which wakes up when one is a zombie. *)
Lemma reparent_eq cur ip tab :
  reparent cur ip tab = reparent_slot cur ip (existsb (zombie_child cur) tab) <$> tab.
Proof.
  unfold reparent. rewrite reparent_loop by apply NoDup_seq.
  assert (existsb (zombie_child_at cur tab) (seq 0 (length tab)) = existsb (zombie_child cur) tab)
    as ->.
  { unfold zombie_child_at. apply eq_true_iff_eq. rewrite !existsb_exists. split.
    - intros (i & _ & Hz). destruct (tab !! i) as [p|] eqn:Hp; [|done].
      exists p. split; [|done]. apply list_elem_of_In. by eapply list_elem_of_lookup_2.
    - intros (p & Hin%list_elem_of_In & Hz). apply list_elem_of_lookup in Hin as [i Hp].
      exists i. rewrite Hp. split; [|done]. apply in_seq. apply lookup_lt_Some in Hp. lia. }
  unfold adopt_at. rewrite foldl_alter_seq. unfold reparent_slot, wake_all.
  destruct (existsb _ tab); [|done]. by rewrite <-list_fmap_compose.
Qed.

End specs.
