(* ===== verification/Lottery.v ===== *)
(** The lottery scheduler of hw3/proc.c ([scheduler]): the ticket count, the
    draw, the choice of the winner and one round of the scheduler's loop, and
    how many of the possible draws select each process. *)

From S2P Require Import Prelude KernelEnv Proc.

Section lottery.
Context `{KernelEnv} `{Spinlock}.

(** ** The code *)

(** Lines 292 to 299: the tickets of the runnable processes, in an [int]. *)
Definition count_tickets (num : Z) (p : proc) : Z :=
  if decide (state p = RUNNABLE) then i32 (num + tickets p) else num.

Definition num_tickets (tab : list proc) : Z := foldl count_tickets 0 tab.

(** Lines 301 to 312: the scan that stops at the winner. *)
Fixpoint pick (winner counter : Z) (i : nat) (tab : list proc) : option nat :=
  match tab with
  | [] => None
  | p :: tab' =>
      if decide (state p ≠ RUNNABLE) then pick winner counter (S i) tab'
      else
        let counter := i32 (counter + tickets p) in
        if decide (counter < winner) then pick winner counter (S i) tab'
        else Some i
  end.

Definition lottery (winner : Z) (tab : list proc) : option nat := pick winner 0 0 tab.

(** Lines 284 to 320: from the top of the loop to the switch to the chosen
    process; [None] when the round found nobody. *)
Definition scheduler_choose (c : nat) (foundproc : Z) : K (option nat) :=
  upd_cpu c (set_if true) ;;
  (if decide (foundproc = 0) then modify (emit (EvHlt c)) else mret tt) ;;
  acquire c PtableLock ;;
  s ← (get : K kernel);
  winner ← ext_get (random_at_most (num_tickets (ptable s)));
  match lottery (i32 winner) (ptable s) with
  | None => mret None
  | Some i =>
      upd_cpu c (set_cpu_proc (Some i)) ;;
      ext_do (switchuvm i) ;;
      upd i (set_state RUNNING) ;;
      mret (Some i)
  end.

(** Lines 322 to 331: after the process has switched back. *)
Definition scheduler_back (c : nat) : K unit :=
  ext_do switchkvm ;;
  upd_cpu c (set_cpu_proc None) ;;
  release c PtableLock.

(** One iteration of the [for(;;)]; the result is the new [foundproc]. *)
Definition scheduler_round (swtch : nat → K nat) (c : nat) (foundproc : Z) : K Z :=
  r ← scheduler_choose c foundproc;
  match r with
  | None => release c PtableLock ;; mret 0
  | Some _ =>
      swtch c ;;
      scheduler_back c ;;
      mret 1
  end.

Fixpoint scheduler_loop (rounds : nat) (swtch : nat → K nat) (c : nat) (foundproc : Z) : K Z :=
  match rounds with
  | O => mret foundproc
  | S n =>
      found ← scheduler_round swtch c foundproc;
      scheduler_loop n swtch c found
  end.

(** [scheduler] never returns; [rounds] is how much of it is observed. *)
Definition scheduler (rounds : nat) (swtch : nat → K nat) (c : nat) : K Z :=
  scheduler_loop rounds swtch c 1.

(** ** What the tickets add up to *)

Definition weight (p : proc) : Z := if decide (state p = RUNNABLE) then tickets p else 0.

Definition total (tab : list proc) : Z := foldr (λ p n, weight p + n) 0 tab.

(** Every runnable process has a non-negative number of tickets, and the sum
    fits an [int]: what the source's arithmetic needs. *)
Definition fair_table (tab : list proc) : Prop :=
  Forall (λ p, 0 ≤ weight p) tab ∧ total tab ≤ INT_MAX.

Definition runnable_before (tab : list proc) (j : nat) : Prop :=
  Exists (λ p, state p = RUNNABLE) (take j tab).

#[export] Instance runnable_before_dec tab j : Decision (runnable_before tab j).
Proof. unfold runnable_before. apply _. Defined.

(** The draws between 0 and [total], and those that select a slot. *)
Definition draws (tab : list proc) : list Z := seqZ 0 (total tab + 1).

Definition winning_draws (tab : list proc) (j : nat) : list Z :=
  filter (λ w, lottery w tab = Some j) (draws tab).

#[local] Arguments total : simpl never.

Lemma total_nil : total [] = 0.
Proof. done. Qed.

Lemma total_cons p tab : total (p :: tab) = weight p + total tab.
Proof. done. Qed.

Lemma total_nonneg tab : Forall (λ p, 0 ≤ weight p) tab → 0 ≤ total tab.
Proof. induction 1; [done|]. rewrite total_cons. lia. Qed.

Lemma weight_runnable p : state p = RUNNABLE → weight p = tickets p.
Proof. intros Hr. unfold weight. by rewrite decide_True. Qed.

Lemma weight_idle p : state p ≠ RUNNABLE → weight p = 0.
Proof. intros Hr. unfold weight. by rewrite decide_False. Qed.

Lemma num_tickets_from n tab :
  Forall (λ p, 0 ≤ weight p) tab → 0 ≤ n → n + total tab ≤ INT_MAX →
  foldl count_tickets n tab = n + total tab.
Proof.
  intros Hnn. revert n. induction Hnn as [|p tab Hp Hnn IH]; intros n Hn Hmax;
    [rewrite total_nil; simpl; lia|].
  pose proof (total_nonneg tab Hnn). rewrite total_cons in Hmax |- *. simpl.
  unfold count_tickets at 2. case_decide as Hr.
  - rewrite (weight_runnable p Hr) in *.
    rewrite i32_small by (unfold INT_MIN; lia). rewrite IH; lia.
  - rewrite (weight_idle p Hr) in *. rewrite IH; lia.
Qed.

Lemma num_tickets_total tab : fair_table tab → num_tickets tab = total tab.
Proof. intros []. unfold num_tickets. rewrite num_tickets_from; done || lia. Qed.

Lemma pick_shift w c i tab : pick w c (S i) tab = S <$> pick w c i tab.
Proof.
  revert c i. induction tab as [|p tab IH]; intros c i; simpl; [done|].
  repeat case_decide; auto.
Qed.

Lemma runnable_before_cons p tab j :
  runnable_before (p :: tab) (S j) ↔ state p = RUNNABLE ∨ runnable_before tab j.
Proof. unfold runnable_before. simpl. by rewrite Exists_cons. Qed.

Lemma runnable_before_0 tab : ¬ runnable_before tab 0.
Proof. intros Hb. inversion Hb. Qed.

Lemma not_runnable_before tab j : ¬ runnable_before tab j → total (take j tab) = 0.
Proof.
  revert j. induction tab as [|p tab IH]; intros [|j] Hb; [done..|]. simpl.
  rewrite runnable_before_cons in Hb. rewrite total_cons, weight_idle, IH by tauto. done.
Qed.

Lemma pick_runnable w c tab j :
  pick w c 0 tab = Some j → ∃ p, tab !! j = Some p ∧ state p = RUNNABLE.
Proof.
  revert c j. induction tab as [|p tab IH]; intros c j; simpl; [done|]. rewrite !pick_shift.
  destruct (decide (state p ≠ RUNNABLE)) as [|Hr%dec_stable].
  - destruct j; [by intros ?%fmap_S_O|]. rewrite fmap_S_Some. apply IH.
  - case_decide; [|naive_solver].
    destruct j; [by intros ?%fmap_S_O|]. rewrite fmap_S_Some. apply IH.
Qed.

Lemma lottery_runnable w tab j :
  lottery w tab = Some j → ∃ p, tab !! j = Some p ∧ state p = RUNNABLE.
Proof. apply pick_runnable. Qed.

(** Which draws select slot [j]: those up to the tickets counted so far, and
    past those counted before [j] unless nobody before [j] is runnable. *)
Lemma pick_iff w c tab j :
  Forall (λ p, 0 ≤ weight p) tab → 0 ≤ c → c + total tab ≤ INT_MAX →
  pick w c 0 tab = Some j ↔
  ∃ p, tab !! j = Some p ∧ state p = RUNNABLE ∧
       w ≤ c + total (take j tab) + tickets p ∧
       (runnable_before tab j → c + total (take j tab) < w).
Proof.
  intros Hnn. revert c j.
  induction Hnn as [|p tab Hp Hnn IH]; intros c j Hc Hmax; [naive_solver|].
  pose proof (total_nonneg tab Hnn) as Ht. rewrite total_cons in Hmax. simpl pick.
  rewrite !pick_shift.
  assert (∀ n, 0 ≤ total (take n tab)) as Htk.
  { intros n. apply total_nonneg. by apply Forall_take. }
  destruct (decide (state p = RUNNABLE)) as [Hr|Hr].
  - rewrite (decide_False (P := state p ≠ RUNNABLE)) by naive_solver.
    rewrite (weight_runnable p Hr) in Hp, Hmax.
    rewrite i32_small by (unfold INT_MIN; lia).
    destruct j as [|j].
    + pose proof (runnable_before_0 (p :: tab)) as Hb0. simpl. rewrite total_nil.
      case_decide as Hw.
      * split; [by intros ?%fmap_S_O|]. intros (q & ? & _ & ? & _). simplify_eq. lia.
      * split; [intros _; exists p; repeat split; [done|lia|by intros ?]|done].
    + setoid_rewrite runnable_before_cons. simpl. setoid_rewrite total_cons.
      rewrite (weight_runnable p Hr).
      specialize (Htk j). specialize (IH (c + tickets p) j).
      case_decide as Hw.
      * rewrite fmap_S_Some, IH by lia. setoid_rewrite Z.add_assoc.
        pose proof (not_runnable_before tab j). split; intros (q & ? & ? & ? & Hb); exists q.
        -- repeat split; [done..|]. intros _. destruct (decide (runnable_before tab j)); intuition lia.
        -- repeat split; [done..|]. auto.
      * split; [done|]. intros (q & ? & ? & ? & Hb). specialize (Hb (or_introl Hr)). lia.
  - rewrite decide_True by done. rewrite (weight_idle p Hr) in Hp, Hmax.
    destruct j as [|j].
    + simpl. split; [by intros ?%fmap_S_O|]. naive_solver.
    + setoid_rewrite runnable_before_cons. simpl. setoid_rewrite total_cons.
      rewrite (weight_idle p Hr).
      rewrite fmap_S_Some, IH by lia. naive_solver.
Qed.

Lemma total_app t1 t2 : total (t1 ++ t2) = total t1 + total t2.
Proof. induction t1 as [|p t1 IH]; [done|]. simpl. rewrite !total_cons, IH. lia. Qed.

(** The tickets counted up to and with a slot fit in the total. *)
Lemma total_split tab j p :
  Forall (λ p, 0 ≤ weight p) tab → tab !! j = Some p →
  0 ≤ total (take j tab) ∧ 0 ≤ weight p ∧ total (take j tab) + weight p ≤ total tab.
Proof.
  intros Hnn Hp. pose proof (take_drop_middle tab j p Hp) as Ht.
  assert (total tab = total (take j tab) + (weight p + total (drop (S j) tab))) as ->
    
    by (rewrite <-total_cons, <-total_app; by rewrite Ht).
  rewrite <-Ht in Hnn. apply Forall_app in Hnn as [H1 [H2 H3]%Forall_cons_1].
  pose proof (total_nonneg _ H1). pose proof (total_nonneg _ H3). lia.
Qed.

Lemma lottery_iff w tab j :
  fair_table tab →
  lottery w tab = Some j ↔
  ∃ p, tab !! j = Some p ∧ state p = RUNNABLE ∧ w ≤ total (take j tab) + tickets p ∧
       (runnable_before tab j → total (take j tab) < w).
Proof. intros []. unfold lottery. rewrite pick_iff; naive_solver lia. Qed.

Lemma length_draws tab : fair_table tab → Z.of_nat (length (draws tab)) = total tab + 1.
Proof.
  intros [Hnn _]. unfold draws. rewrite length_seqZ. pose proof (total_nonneg tab Hnn). lia.
Qed.

(** The first slot the scan stops at exists as long as somebody is runnable
    and the draw is at most the total. *)
Lemma pick_some w c tab :
  Forall (λ p, 0 ≤ weight p) tab → 0 ≤ c → c + total tab ≤ INT_MAX →
  Exists (λ p, state p = RUNNABLE) tab → w ≤ c + total tab → pick w c 0 tab ≠ None.
Proof.
  intros Hnn. revert c. induction Hnn as [|p tab Hp Hnn IH]; intros c Hc Hmax Hex Hw;
    [by inversion Hex|].
  pose proof (total_nonneg tab Hnn). rewrite total_cons in Hmax, Hw. simpl. rewrite !pick_shift.
  destruct (decide (state p = RUNNABLE)) as [Hr|Hr].
  - rewrite (decide_False (P := state p ≠ RUNNABLE)) by naive_solver.
    rewrite (weight_runnable p Hr) in Hp, Hmax, Hw.
    rewrite i32_small by (unfold INT_MIN; lia). case_decide as Hlt; [|done].
    rewrite fmap_None. destruct (decide (Exists (λ p, state p = RUNNABLE) tab)) as [He|He].
    + apply IH; [lia|lia|done|lia].
    + rewrite <-Forall_Exists_neg in He.
      assert (total tab = 0) as Hz; [|lia].
      clear -He. induction He as [|q l Hq Hl IHl]; [done|].
      rewrite total_cons, weight_idle, IHl by done. done.
  - rewrite decide_True, fmap_None by done. rewrite (weight_idle p Hr) in *.
    apply Exists_cons in Hex as [|]; [done|]. apply IH; done || lia.
Qed.

(** ** Fairness *)

(** C6: with non-negative tickets whose sum fits an [int], the scheduler counts
    exactly that sum, draws one of (sum + 1) numbers, and each runnable process
    is selected by as many of them as it has tickets - except that the first
    runnable process of the table has one more, because the draw is from a
    closed interval and the comparison is [counter < winner]. *)
Theorem lottery_fair tab j p :
  fair_table tab → tab !! j = Some p → state p = RUNNABLE →
  num_tickets tab = total tab ∧
  Z.of_nat (length (draws tab)) = num_tickets tab + 1 ∧
  Z.of_nat (length (winning_draws tab j)) =
    tickets p + (if decide (runnable_before tab j) then 0 else 1).
Proof.
  intros Hf Hp Hr. rewrite num_tickets_total, length_draws by done. do 2 (split; [done|]).
  destruct (total_split tab j p (proj1 Hf) Hp) as (H1 & H2 & H3).
  rewrite (weight_runnable p Hr) in H2, H3. unfold winning_draws, draws.
  pose proof (not_runnable_before tab j) as Hz.
  rewrite (count_interval _ (if decide (runnable_before tab j) then total (take j tab) + 1 else 0)
             (total (take j tab) + tickets p)); [|intros w Hw|..].
  - case_decide; [lia|]. rewrite Hz by done. lia.
  - rewrite lottery_iff by done. split.
    + intros (q & Hq & _ & Hle & Hlt). simplify_eq. case_decide; [specialize (Hlt H4)|]; lia.
    + intros [Hlo Hhi]. exists p. repeat split; try done. intros. rewrite decide_True in Hlo by done. lia.
  - case_decide; lia.
  - case_decide; lia.
  - lia.
Qed.

(** whenever some process is runnable, every number the generator may
    return (0 to the ticket count, both included) selects a runnable process;
    and a runnable process that holds no tickets and is not the first runnable
    one is selected by none of them. *)
Lemma lottery_serves tab w :
  fair_table tab → Exists (λ p, state p = RUNNABLE) tab → 0 ≤ w ≤ num_tickets tab →
  (∃ j p, lottery w tab = Some j ∧ tab !! j = Some p ∧ state p = RUNNABLE) ∧
  ∀ j p, tab !! j = Some p → tickets p = 0 → runnable_before tab j → lottery w tab ≠ Some j.
Proof.
  intros Hf Hex Hw. rewrite num_tickets_total in Hw by done. split.
  - destruct (lottery w tab) as [j|] eqn:Hl.
    + destruct (lottery_runnable _ _ _ Hl) as (p & ? & ?). eauto.
    + exfalso. destruct Hf. eapply pick_some in Hl; [done|done|lia|lia|done|lia].
  - intros j p Hp Ht Hb Hl. apply lottery_iff in Hl as (q & Hq & _ & Hle & Hlt); [|done].
    simplify_eq. specialize (Hlt Hb). lia.
Qed.

End lottery.
