(* ===== verification/Handover.v ===== *)
(** The functions of hw3/proc.c that hand the processor over with
    [ptable.lock] held - the scheduler, yield, sleep, wait and exit: the effect
    of each up to the switch, that the checks of [sched] pass there, and that
    the side that is switched to gives the lock back. *)

From Stdlib Require Import String.
From S2P Require Import Prelude KernelEnv Proc Locking ProcSpec Lottery.

Section effects.
Context `{KernelEnv} `{Spinlock}.

(** ** The functions, cut at the switch *)

(** [yield] up to [swtch]; the result is the saved [intena]. *)
Definition yield_half (c : nat) : K Z :=
  acquire c PtableLock ;;
  cur ← curproc c;
  upd cur (set_state RUNNABLE) ;;
  sched_enter c.

(** [sched] and [yield] after it. *)
Definition yield_rest (c : nat) (saved : Z) : K unit :=
  sched_leave c saved ;; release c PtableLock.

(** [sleep] up to [swtch]. *)
Definition sleep_half (c : nat) (ch : option chanid) (lk : lockid) : K Z :=
  sleep_enter c ch (Some lk) ;; sched_enter c.

(** [sched] and [sleep] after it, up to the release of [ptable.lock]. *)
Definition sleep_rest (c cur : nat) (saved : Z) : K unit :=
  sched_leave c saved ;; upd cur (set_chan None) ;; release c PtableLock.

(** [exit] up to [swtch], from which it never returns. *)
Definition exit_half (c : nat) : K Z :=
  cur ← exit_files c;
  acquire c PtableLock ;;
  exit_zombie cur ;;
  sched_enter c.

(** [wait] up to the end of its first round; and from the switch inside
    [sleep] to the beginning of the next round. *)
Definition wait_first (c : nat) : K (option Z) :=
  acquire c PtableLock ;; cur ← curproc c; wait_round c cur.

Definition wait_wakes (c cur : nat) (saved : Z) : K unit :=
  sched_leave c saved ;; upd cur (set_chan None).

(** ** Effects *)

Definition on_cpu (c : nat) (f : cpu → cpu) (s : kernel) : kernel :=
  set_cpus (alter f c (cpus s)) s.

(** From the draw to the switch; [None] when nobody wins. *)
Definition choose_effect (c : nat) (s : kernel) : option nat * kernel :=
  let '(w, e) := random_at_most (num_tickets (ptable s)) (ext s) in
  match lottery (i32 w) (ptable s) with
  | None => (None, set_ext e s)
  | Some i =>
      (Some i, on_slot i (set_state RUNNING)
                 (set_ext (switchuvm i e) (on_cpu c (set_cpu_proc (Some i)) s)))
  end.

(** The processor goes back to its scheduler. *)
Definition back_effect (c : nat) (s : kernel) : kernel :=
  on_cpu c (set_cpu_proc None) (set_ext (switchkvm (ext s)) s).

Definition forkret_effect (s : kernel) : kernel :=
  if decide (first s ≠ 0)
  then set_ext (initlog ROOTDEV (iinit ROOTDEV (ext s))) (set_first 0 s) else s.

Definition exit_files_effect (cur : nat) (p : proc) (s : kernel) : kernel :=
  let '(files, e1) := close_files (ofile p) (ext s) in
  on_slot cur (λ q, set_cwd 0 (set_ofile files q)) (set_ext (end_op (iput (cwd p) (begin_op e1))) s).

Definition exit_zombie_effect (cur : nat) (s : kernel) : kernel :=
  match ptable s !! cur with
  | Some p =>
      on_slot cur (set_state ZOMBIE)
        (set_ptable (reparent cur (initproc s) (wake_all (ChProc <$> parent p) (ptable s))) s)
  | None => s
  end.

Definition reap_effect (z : nat) (p : proc) (s : kernel) : kernel :=
  on_slot z reap_slot (set_ext (freevm (pgdir p) (kfree (kstack p) (ext s))) s).

Definition sleep_effect (i : nat) (ch : option chanid) (s : kernel) : kernel :=
  on_slot i (λ p, set_state SLEEPING (set_chan ch p)) s.

(** One round of [wait] that does not go to sleep: the slot it collected, if
    any, and the new state; [None] when it goes to sleep. *)
Definition wait_effect (i : nat) (p : proc) (s : kernel) : option (option nat * kernel) :=
  match wait_scan i 0 (ptable s) false with
  | (_, Some z) =>
      match ptable s !! z with
      | Some q => Some (Some z, reap_effect z q s)
      | None => None
      end
  | (havekids, None) =>
      if negb havekids || bool_decide (killed p ≠ 0) then Some (None, s) else None
  end.

(** [t] is [s] with [ptable.lock] taken by processor [c]. *)
Record locked (c : nat) (s t : kernel) : Prop := {
  locked_ptable : ptable t = ptable s;
  locked_initproc : initproc t = initproc s;
  locked_nextpid : nextpid t = nextpid s;
  locked_first : first t = first s;
  locked_ticks : ticks t = ticks s;
  locked_ext : ext t = ext s;
  locked_trace : trace t = trace s;
  locked_cpus : ∃ k k', cpus s !! c = Some k ∧ cpus t = <[c:=k']> (cpus s) ∧
    cpu_ok k ∧ cpu_proc k' = cpu_proc k ∧ ncli k' = ncli k + 1 ∧ eflags_if k' = false ∧
    intena k' = (if decide (ncli k = 0) then (if eflags_if k then 1 else 0) else intena k);
  locked_free : lock_free PtableLock s;
  locked_holding : ∀ c' l,
    holding c' l (locks t) = bool_decide (c' = c ∧ l = PtableLock) || holding c' l (locks s)
}.

End effects.

Section handover.
Context `{KernelEnv} `{SpinlockLaws}.

(** ** Taking the lock, working under it, giving it back *)

Lemma acquire_locked c s :
  can_lock c PtableLock s → ∃ t, acquire c PtableLock s = Ok tt t ∧ locked c s t.
Proof.
  intros (Hfree & k & Hk & Hok).
  destruct (acquire_ok c PtableLock s k Hfree Hk Hok) as (L & k' & Ha & ? & ? & ? & ? & Hin & Ho).
  eexists. split; [exact Ha|]. destruct s. simpl in *. split; try done.
  - exists k, k'. repeat split; try done; apply Hok.
  - intros c' l. simpl. destruct (decide (c' = c ∧ l = PtableLock)) as [[-> ->]|Hne].
    + by rewrite bool_decide_true.
    + rewrite bool_decide_false by done. apply Ho. naive_solver.
Qed.

Lemma release_locked c s t : locked c s t → ∃ u, release c PtableLock t = Ok tt u ∧ u ≡ s.
Proof.
  intros [? ? ? ? ? ? ? (k & k' & Hk & Hcpus & Hok & Hp & Hn & Hif & Hi) Hfree Hh].
  pose proof (lookup_lt_Some _ _ _ Hk) as Hlt.
  destruct (release_ok c PtableLock t k') as (L & k2 & Hr & Hp2 & Hn2 & Hif2 & Hl2 & Ho2).
  { rewrite Hh, bool_decide_true; done. }
  { rewrite Hcpus. by apply list_lookup_insert_eq. }
  { destruct Hok. lia. }
  { done. }
  eexists. split; [exact Hr|]. destruct s, t. simpl in *. subst. split; simpl; try done.
  - rewrite list_insert_insert_eq. eapply cpus_same_insert; [done|].
    by apply (cpu_same_bracket k k' k2).
  - intros c' l. destruct (decide (l = PtableLock)) as [->|Hl].
    + rewrite Hl2, Hh, Hfree. destruct (decide (c' = c)) as [->|Hc].
      * by rewrite (bool_decide_true (c = c)), andb_false_r.
      * by rewrite (bool_decide_false (c' = c ∧ _)) by naive_solver.
    + rewrite Ho2, Hh by done. by rewrite bool_decide_false by naive_solver.
Qed.

(** Work on the table under the lock. *)
Lemma locked_on_slot c i f s t : locked c s t → locked c (on_slot i f s) (on_slot i f t).
Proof. intros []. destruct s, t. simpl in *. subst. by split. Qed.

Lemma locked_set_ext c e s t : locked c s t → locked c (set_ext e s) (set_ext e t).
Proof. intros []. destruct s, t. simpl in *. subst. by split. Qed.

Lemma locked_set_ptable c v s t : locked c s t → locked c (set_ptable v s) (set_ptable v t).
Proof. intros []. destruct s, t. simpl in *. subst. by split. Qed.

Lemma locked_current c s t : locked c s t → current c t = current c s.
Proof.
  intros [_ _ _ _ _ _ _ (k & k' & Hk & Hcpus & _ & Hp & _) _ _]. unfold current.
  rewrite Hcpus, list_lookup_insert_eq by by eapply lookup_lt_Some. rewrite Hk. simpl. done.
Qed.

(** The processor's pointer may change hands under the lock. *)
Lemma locked_on_cpu c o s t :
  locked c s t → locked c (on_cpu c (set_cpu_proc o) s) (on_cpu c (set_cpu_proc o) t).
Proof.
  intros [? ? ? ? ? ? ? (k & k' & Hk & Hcpus & Hok & Hp & Hn & Hif & Hi) Hfree Hh].
  destruct s, t. simpl in *. subst. split; try done. simpl.
  pose proof (lookup_lt_Some _ _ _ Hk) as Hlt.
  exists (set_cpu_proc o k), (set_cpu_proc o k'). unfold on_cpu. simpl.
  rewrite list_lookup_alter_eq, Hk.
  rewrite (list_alter_insert _ _ _ k') by by apply list_lookup_insert_eq.
  rewrite (list_alter_insert _ _ _ k Hk), !list_insert_insert_eq.
  destruct k, k'. simpl in *. by repeat split; try apply Hok.
Qed.

(** The checks of [sched] pass: the caller holds [ptable.lock] and no other
    lock, and the process is not marked running. *)
Lemma sched_enter_ok c s t k cur p :
  locked c s t → cpus s !! c = Some k → ncli k = 0 → current c s = Some cur →
  ptable s !! cur = Some p → state p ≠ RUNNING →
  sched_enter c t = Ok (if eflags_if k then 1 else 0) t.
Proof.
  intros Hl Hk Hn Hcur Hp Hst. pose proof (locked_current _ _ _ Hl) as Hc.
  destruct Hl as [Htab _ _ _ _ _ _ (k0 & k' & Hk0 & Hcpus & Hok & Hp' & Hn' & Hif & Hi) Hfree Hh].
  assert (k0 = k) as -> by congruence. rewrite decide_True in Hi by done.
  assert (cpus t !! c = Some k') as Hkt.
  { rewrite Hcpus. apply list_lookup_insert_eq. by eapply lookup_lt_Some. }
  rewrite Hcur in Hc. rewrite <-Htab in Hp.
  unfold sched_enter. cbv [mbind K_bind prog_bind get expect]. cbn beta.
  rewrite Hkt, Hh, bool_decide_true by done. cbn. rewrite decide_False by lia.
  rewrite (curproc_run _ _ _ Hc), (proc_at_run _ _ _ Hp). by rewrite decide_False, Hif, Hi.
Qed.

(** ** The functions up to the switch, and back *)

Definition sti_effect (c : nat) (foundproc : Z) (s : kernel) : kernel :=
  let s1 := on_cpu c (set_if true) s in
  if decide (foundproc = 0) then emit (EvHlt c) s1 else s1.

Lemma sti_can_lock c f s k :
  lock_free PtableLock s → cpus s !! c = Some k → ncli k = 0 →
  can_lock c PtableLock (sti_effect c f s).
Proof.
  intros Hfree Hk Hn. split.
  - unfold sti_effect. case_decide; destruct s; apply Hfree.
  - exists (set_if true k). split; [|by destruct k; split; simpl in *; [lia|]].
    unfold sti_effect. case_decide; destruct s; simpl in *; by rewrite list_lookup_alter_eq, Hk.
Qed.

Lemma scheduler_choose_locked c f s k :
  lock_free PtableLock s → cpus s !! c = Some k → ncli k = 0 →
  let r := choose_effect c (sti_effect c f s) in
  ∃ t, scheduler_choose c f s = Ok r.1 t ∧ locked c r.2 t.
Proof.
  intros Hfree Hk Hn r.
  destruct (acquire_locked c (sti_effect c f s)) as (t & Ha & Hl); [by eapply sti_can_lock|].
  assert (scheduler_choose c f s =
    (acquire c PtableLock ;;
     s ← (get : K kernel);
     winner ← ext_get (random_at_most (num_tickets (ptable s)));
     match lottery (i32 winner) (ptable s) with
     | None => mret None
     | Some i =>
         upd_cpu c (set_cpu_proc (Some i)) ;; ext_do (switchuvm i) ;;
         upd i (set_state RUNNING) ;; mret (Some i)
     end) (sti_effect c f s)) as ->.
  { unfold scheduler_choose, sti_effect, on_cpu. kunfold. by case_decide. }
  unfold r, choose_effect. cbv [mbind K_bind prog_bind]. rewrite Ha. cbv [get]. cbn beta iota.
  rewrite (locked_ptable _ _ _ Hl). unfold ext_get. rewrite (locked_ext _ _ _ Hl).
  destruct (random_at_most _ _) as [w e]. simpl.
  destruct (lottery (i32 w) _) as [i|]; simpl; eexists; (split; [done|]).
  - pose proof (locked_on_slot c i (set_state RUNNING) _ _
      (locked_set_ext c (switchuvm i e) _ _ (locked_on_cpu c (Some i) _ _ Hl))) as Hl'.
    by destruct t.
  - by apply locked_set_ext.
Qed.

Lemma scheduler_back_runs c s t :
  locked c s t → runs (scheduler_back c) t tt (back_effect c s).
Proof.
  intros Hl.
  pose proof (locked_on_cpu c None _ _ (locked_set_ext c (switchkvm (ext s)) _ _ Hl)) as Hl'.
  destruct (release_locked _ _ _ Hl') as (u & Hr & Hu). exists u. split; [|done].
  rewrite <-Hr. unfold scheduler_back. kunfold. by rewrite (locked_ext _ _ _ Hl).
Qed.

Lemma forkret_runs c s t : locked c s t → runs (forkret c) t tt (forkret_effect s).
Proof.
  intros Hl. destruct (release_locked _ _ _ Hl) as (u & Hr & Hu).
  unfold runs, forkret, forkret_effect. kunfold. rewrite Hr.
  rewrite (same_first _ _ Hu). case_decide; [|by exists u].
  eexists. split; [done|]. destruct s, u, Hu. simpl in *. subst. by split.
Qed.

(** [yield] reaches the switch with the process runnable and the lock held,
    and gives the lock back when it is switched to again. *)
Lemma yield_cut swtch c s :
  yield swtch c s = (saved ← yield_half c; c' ← swtch c; yield_rest c' saved ;; mret c') s.
Proof.
  unfold yield, yield_half, yield_rest, sched. cbv [mbind K_bind prog_bind].
  destruct (acquire c PtableLock s) as [[] t|]; [|done]. destruct (curproc c t) as [cur u|]; [|done].
  rewrite !upd_run. destruct (sched_enter c _) as [saved v|]; [|done].
  destruct (swtch c v) as [c' w|]; [|done]. by destruct (sched_leave c' saved w) as [[] ?|].
Qed.

Lemma yield_half_locked c s k cur p :
  lock_free PtableLock s → cpus s !! c = Some k → ncli k = 0 →
  current c s = Some cur → ptable s !! cur = Some p →
  ∃ t, yield_half c s = Ok (if eflags_if k then 1 else 0) t ∧
       locked c (on_slot cur (set_state RUNNABLE) s) t.
Proof.
  intros Hfree Hk Hn Hcur Hp.
  destruct (acquire_locked c s) as (t & Ha & Hl).
  { split; [done|]. exists k. split; [done|]. split; [lia|]. intros. lia. }
  exists (on_slot cur (set_state RUNNABLE) t).
  pose proof (locked_on_slot c cur (set_state RUNNABLE) _ _ Hl) as Hl'. split; [|done].
  unfold yield_half. cbv [mbind K_bind prog_bind]. rewrite Ha. cbn beta iota.
  rewrite (curproc_run c t cur) by by rewrite (locked_current _ _ _ Hl).
  rewrite upd_run.
  by rewrite (sched_enter_ok c _ _ k cur (set_state RUNNABLE p) Hl');
    [|by destruct s|done|by destruct s|by rewrite on_slot_lookup, decide_True, Hp|by destruct p].
Qed.

Lemma yield_locked c s k cur p :
  lock_free PtableLock s → cpus s !! c = Some k → ncli k = 0 →
  current c s = Some cur → ptable s !! cur = Some p →
  ∃ t, locked c (on_slot cur (set_state RUNNABLE) s) t ∧
    ∀ swtch, yield swtch c s =
      (c' ← swtch c;
       sched_leave c' (if eflags_if k then 1 else 0) ;;
       release c' PtableLock ;; mret c') t.
Proof.
  intros Hfree Hk Hn Hcur Hp.
  destruct (yield_half_locked c s k cur p Hfree Hk Hn Hcur Hp) as (t & Hy & Hl).
  exists t. split; [done|]. intros swtch. rewrite yield_cut.
  unfold yield_rest. cbv [mbind K_bind prog_bind]. rewrite Hy. cbn beta iota.
  destruct (swtch c t) as [c' w|]; [|done]. by destruct (sched_leave c' _ w) as [[] ?|].
Qed.

(** ** sleep *)

Lemma sleep_enter_eq c ch l s cur :
  current c s = Some cur →
  sleep_enter c ch (Some l) s =
  ((if decide (l ≠ PtableLock) then acquire c PtableLock ;; release c l else mret tt) ;;
   upd cur (set_chan ch) ;; upd cur (set_state SLEEPING) ;; mret cur) s.
Proof.
  intros Hcur.
  change (sleep_enter c ch (Some l) s) with
    ((match current c s, Some l with
      | None, _ => panic "sleep"
      | Some _, None => panic "sleep without lk"
      | Some cur, Some l =>
          (if decide (l ≠ PtableLock) then acquire c PtableLock ;; release c l else mret tt) ;;
          upd cur (set_chan ch) ;; upd cur (set_state SLEEPING) ;; mret cur
      end : K nat) s).
  by rewrite Hcur.
Qed.

(** [sleep] on a lock other than [ptable.lock], held by the caller and the
    only one it holds: at the switch the process is on the channel, sleeping,
    [ptable.lock] is held and the caller's lock is free. *)
Lemma sleep_enter_lock c ch l s k cur p :
  l ≠ PtableLock →
  lock_free PtableLock s → cpus s !! c = Some k → ncli k = 1 → eflags_if k = false →
  current c s = Some cur → ptable s !! cur = Some p →
  holding c l (locks s) = true → (∀ c', c' ≠ c → holding c' l (locks s) = false) →
  ∃ t kt, sleep_enter c ch (Some l) s = Ok cur t ∧
    (∃ L, t = set_locks L (set_cpus (<[c:=kt]> (cpus s)) (sleep_effect cur ch s))) ∧
    lock_free l t ∧ (∀ c', holding c' PtableLock (locks t) = bool_decide (c' = c)) ∧
    cpus t !! c = Some kt ∧ ncli kt = 1 ∧ eflags_if kt = false ∧ cpu_proc kt = Some cur.
Proof.
  intros Hlp Hfree Hk Hn Hif Hcur Hp Hh Ho.
  destruct (acquire_locked c s) as (t & Ha & Hl).
  { split; [done|]. exists k. split; [done|]. by split; [lia|]. }
  destruct Hl as [Ht ? ? ? ? ? ? (k0 & k1 & Hk0 & Hc1 & _ & Hp1 & Hn1 & Hi1 & _) _ Hht].
  assert (k0 = k) as -> by congruence. pose proof (lookup_lt_Some _ _ _ Hk) as Hlt.
  destruct (release_ok c l t k1) as (L & k2 & Hr & Hp2 & Hn2 & Hi2 & Hl2 & Ho2).
  { rewrite Hht, Hh. by rewrite orb_true_r. }
  { rewrite Hc1. by apply list_lookup_insert_eq. }
  { lia. }
  { done. }
  assert (cpu_proc k = Some cur) as Hcp by (unfold current in Hcur; by rewrite Hk in Hcur).
  rewrite (sleep_enter_eq _ _ _ _ _ Hcur), decide_True by done.
  cbv [mbind K_bind prog_bind]. rewrite Ha, Hr. rewrite !upd_run.
  eexists _, k2. split; [done|]. destruct s, t. simpl in *. subst. split_and!.
  - exists L. unfold sleep_effect, on_slot. simpl. by rewrite list_alter_alter_eq, list_insert_insert_eq.
  - intros c'. simpl. rewrite Hl2, Hht. destruct (decide (c' = c)) as [->|Hc].
    + by rewrite (bool_decide_true (c = c)), andb_false_r.
    + rewrite (bool_decide_false (c' = c ∧ _)) by naive_solver. by rewrite Ho.
  - intros c'. rewrite Ho2, Hht, Hfree, orb_false_r by done. apply bool_decide_ext. naive_solver.
  - rewrite list_insert_insert_eq. by apply list_lookup_insert_eq.
  - lia.
  - rewrite Hi2. apply bool_decide_false. lia.
  - congruence.
Qed.

(** [sleep] inside [wait], which already holds [ptable.lock]. *)
Lemma sleep_enter_wait c ch s t cur :
  locked c s t → current c s = Some cur →
  ∃ u, sleep_enter c ch (Some PtableLock) t = Ok cur u ∧ locked c (sleep_effect cur ch s) u.
Proof.
  intros Hl Hcur. exists (on_slot cur (set_state SLEEPING ∘ set_chan ch) t). split.
  - pose proof (locked_current _ _ _ Hl) as Hc. rewrite Hcur in Hc.
    rewrite (sleep_enter_eq _ _ _ _ _ Hc), decide_False by naive_solver.
    cbv [mbind K_bind prog_bind mret K_ret prog_ret]. cbn beta iota.
    by rewrite !upd_run, on_slot_compose.
  - by apply locked_on_slot.
Qed.

(** ** wait *)

Lemma wait_reap_runs c z q s t :
  locked c s t → ptable s !! z = Some q →
  runs (wait_reap c z) t (pid q) (reap_effect z q s).
Proof.
  intros Hl Hq.
  assert (ptable t !! z = Some q) as Hqt by by rewrite (locked_ptable _ _ _ Hl).
  pose proof (locked_on_slot c z reap_slot _ _
    (locked_set_ext c (freevm (pgdir q) (kfree (kstack q) (ext s))) _ _ Hl)) as Hl'.
  destruct (release_locked _ _ _ Hl') as (u & Hr & Hu). exists u. split; [|done].
  unfold wait_reap. cbv [mbind K_bind prog_bind]. rewrite (proc_at_run _ _ _ Hqt). cbn beta iota.
  cbv [upd ext_do modify mret K_ret prog_ret]. cbn beta iota.
  match goal with |- match release c PtableLock ?x with _ => _ end = _ =>
    assert (x = on_slot z reap_slot (set_ext (freevm (pgdir q) (kfree (kstack q) (ext s))) t)) as ->
  end; [|by rewrite Hr].
  pose proof (locked_ext _ _ _ Hl) as He. destruct t. simpl in *. subst.
  unfold on_slot. simpl. f_equal. rewrite !list_alter_alter_eq.
  apply list_alter_ext; [|done]. by intros [].
Qed.

(** One round of [wait] with the lock held: it returns with the lock given
    back, or keeps it and goes on to sleep. *)
Lemma wait_round_runs c cur s t p :
  locked c s t → ptable s !! cur = Some p →
  match wait_effect cur p s with
  | Some (Some z, s') => ∃ q, ptable s !! z = Some q ∧ runs (wait_round c cur) t (Some (pid q)) s'
  | Some (None, s') => runs (wait_round c cur) t (Some (-1)) s'
  | None => wait_round c cur t = Ok None t
  end.
Proof.
  intros Hl Hp. pose proof (locked_ptable _ _ _ Hl) as Ht.
  unfold runs, wait_effect, wait_round. cbv [mbind K_bind prog_bind get]. cbn beta iota.
  rewrite Ht, wait_scan_eq. destruct (list_find _ _) as [[z q]|] eqn:Hf.
  - cbn beta iota. change (0 + z)%nat with z.
    apply list_find_Some in Hf as (Hz & _). rewrite Hz. exists q. split; [done|].
    destruct (wait_reap_runs c z q s t Hl Hz) as (u & Hr & Hu). exists u. by rewrite Hr.
  - rewrite <-Ht in Hp. rewrite (proc_at_run _ _ _ Hp). simpl.
    destruct (negb _ || _); [|done].
    destruct (release_locked _ _ _ Hl) as (u & Hr & Hu). exists u. by rewrite Hr.
Qed.

(** ** exit *)

Lemma exit_files_run c s cur p :
  current c s = Some cur → initproc s ≠ Some cur → ptable s !! cur = Some p →
  exit_files c s = Ok cur (exit_files_effect cur p s).
Proof.
  intros Hcur Hini Hp. unfold exit_files, exit_files_effect. cbv [mbind K_bind prog_bind].
  rewrite (curproc_run _ _ _ Hcur). cbv [get]. cbn beta iota. rewrite decide_False by congruence.
  rewrite (proc_at_run _ _ _ Hp). cbv [ext_get ext_do upd modify mret K_ret prog_ret].
  cbn beta iota. destruct s. simpl. destruct (close_files _ _) as [fs e1]. simpl.
  unfold on_slot. simpl. do 2 f_equal. by rewrite list_alter_alter_eq.
Qed.

Lemma exit_zombie_locked c cur s t p :
  locked c s t → ptable s !! cur = Some p →
  ∃ u, exit_zombie cur t = Ok tt u ∧ locked c (exit_zombie_effect cur s) u.
Proof.
  intros Hl Hp. pose proof Hp as Hp'. rewrite <-(locked_ptable _ _ _ Hl) in Hp'.
  unfold exit_zombie, exit_zombie_effect. rewrite Hp. cbv [mbind K_bind prog_bind].
  rewrite (proc_at_run _ _ _ Hp'). unfold wakeup1, upd, modify. cbn beta iota.
  eexists. split; [done|]. apply (locked_on_slot c cur (set_state ZOMBIE)) with
    (s := set_ptable _ s) (t := set_ptable _ (set_ptable _ t)).
  pose proof (locked_initproc _ _ _ Hl) as Hi. pose proof (locked_ptable _ _ _ Hl) as Ht.
  destruct s, t. simpl in *. subst. by apply (locked_set_ptable c _ _ _ Hl).
Qed.

(** The checks of [sched], from the state they look at. *)
Lemma sched_enter_run c t k cur p :
  holding c PtableLock (locks t) = true → cpus t !! c = Some k → ncli k = 1 →
  eflags_if k = false → cpu_proc k = Some cur → ptable t !! cur = Some p → state p ≠ RUNNING →
  sched_enter c t = Ok (intena k) t.
Proof.
  intros Hh Hk Hn Hif Hc Hp Hst. unfold sched_enter. cbv [mbind K_bind prog_bind get expect].
  cbn beta. rewrite Hk, Hh. cbn. rewrite decide_False by lia.
  rewrite (curproc_run c t cur), (proc_at_run _ _ _ Hp) by (unfold current; by rewrite Hk).
  by rewrite decide_False, Hif.
Qed.

(** [exit] of a process other than init reaches the switch with the effects
    below done and the lock held; coming back panics. *)
Lemma exit_cut swtch c s :
  exit swtch c s =
  (saved ← exit_half c; c' ← swtch c; sched_leave c' saved ;; panic "zombie exit") s.
Proof.
  unfold exit, exit_half, sched. cbv [mbind K_bind prog_bind].
  destruct (exit_files c s) as [cur t|]; [|done]. destruct (acquire c PtableLock t) as [[] u|]; [|done].
  destruct (exit_zombie cur u) as [[] v|]; [|done]. destruct (sched_enter c v) as [saved w|]; [|done].
  destruct (swtch c w) as [c' x|]; [|done]. by destruct (sched_leave c' saved x) as [[] ?|].
Qed.

Lemma exit_half_locked c s k cur p :
  lock_free PtableLock s → cpus s !! c = Some k → ncli k = 0 →
  current c s = Some cur → initproc s ≠ Some cur → ptable s !! cur = Some p →
  ∃ t, exit_half c s = Ok (if eflags_if k then 1 else 0) t ∧
    locked c (exit_zombie_effect cur (exit_files_effect cur p s)) t.
Proof.
  intros Hfree Hk Hn Hcur Hini Hp.
  set (s1 := exit_files_effect cur p s).
  assert (frame s s1) as Hfr.
  { unfold s1, exit_files_effect. destruct (close_files _ _), s. done. }
  assert (∃ p1, ptable s1 !! cur = Some p1) as [p1 Hp1].
  { unfold s1, exit_files_effect. destruct (close_files _ _), s. simpl in *.
    rewrite list_lookup_alter_eq, Hp. eauto. }
  destruct (acquire_locked c s1) as (t1 & Ha & Hl1).
  { eapply can_lock_frame; [done|]. split; [done|]. exists k. split; [done|]. split; [lia|].
    intros. lia. }
  destruct (exit_zombie_locked c cur s1 t1 p1 Hl1 Hp1) as (t & Hz & Hl).
  pose proof (locked_current _ _ _ Hl) as Hct.
  set (s2 := exit_zombie_effect cur s1) in *.
  assert (cpus s2 = cpus s) as Hcp2.
  { unfold s2, exit_zombie_effect. rewrite Hp1. destruct Hfr as [-> _]. by destruct s1. }
  assert (∃ p2, ptable s2 !! cur = Some p2 ∧ state p2 = ZOMBIE) as (p2 & Hp2 & Hz2).
  { unfold s2, exit_zombie_effect. rewrite Hp1. destruct s1. simpl in *.
    rewrite reparent_eq. unfold wake_all.
    rewrite list_lookup_alter_eq, !list_lookup_fmap, Hp1. simpl.
    eexists. split; [done|]. by destruct (reparent_slot _ _ _ _). }
  exists t. split; [|done]. unfold exit_half. cbv [mbind K_bind prog_bind].
  rewrite (exit_files_run _ _ _ _ Hcur Hini Hp). fold s1. rewrite Ha, Hz.
  rewrite (sched_enter_ok c s2 t k cur p2); [done|done|by rewrite Hcp2|done| |done|by rewrite Hz2].
  unfold current in *. by rewrite Hcp2.
Qed.

Lemma exit_locked c s k cur p :
  lock_free PtableLock s → cpus s !! c = Some k → ncli k = 0 →
  current c s = Some cur → initproc s ≠ Some cur → ptable s !! cur = Some p →
  ∃ t saved, locked c (exit_zombie_effect cur (exit_files_effect cur p s)) t ∧
    ∀ swtch, exit swtch c s =
      (c' ← swtch c; sched_leave c' saved ;; panic "zombie exit") t.
Proof.
  intros Hfree Hk Hn Hcur Hini Hp.
  destruct (exit_half_locked c s k cur p Hfree Hk Hn Hcur Hini Hp) as (t & He & Hl).
  eexists t, _. split; [done|]. intros swtch. rewrite exit_cut.
  cbv [mbind K_bind prog_bind]. by rewrite He.
Qed.

End handover.
