(* ===== verification/Protocol.v ===== *)
(** The protocol of the process table, abstracted from hw3/proc.c: for each
    slot its state, parent, sleep channel and pid, and where its kernel thread
    stands; for each processor the process it runs.  One step is one critical
    section of [ptable.lock], or the private work between two of them.  The
    kernel's steps are shown to be steps of this system in System.v. *)

From S2P Require Import Prelude KernelEnv.

(** Where the kernel thread of a slot stands. *)
Inductive kcont : Type :=
| NoThread             (* the slot has no thread *)
| InKernel             (* running, outside the functions below *)
| Forking (np : nat)   (* in fork, with a slot taken for the child *)
| Copied (np : nat)    (* in fork, the child complete but not yet RUNNABLE *)
| AtForkret            (* a new process, not yet run *)
| AtYield              (* in sched, called by yield *)
| AtSleep              (* in sched, called by sleep *)
| AtWait               (* in sched, called by sleep, called by wait *)
| AtExit.              (* in sched, called by exit *)

Record view : Type := View {
  vstate : procstate;
  vparent : option nat;
  vchan : option chanid;
  vpid : Z;
  vkont : kcont
}.

Record astate : Type := AState {
  slot : nat → view;
  oncpu : nat → option nat;
  ainit : nat;
  anext : Z
}.

(** ** Changes of a slot *)

Definition vset_state st v := View st (vparent v) (vchan v) (vpid v) (vkont v).

Definition vset_parent p v := View (vstate v) p (vchan v) (vpid v) (vkont v).

Definition vset_chan ch v := View (vstate v) (vparent v) ch (vpid v) (vkont v).

Definition vset_pid n v := View (vstate v) (vparent v) (vchan v) n (vkont v).

Definition vset_kont k v := View (vstate v) (vparent v) (vchan v) (vpid v) k.

Definition vwake (ch : option chanid) (v : view) : view :=
  if decide (vstate v = SLEEPING ∧ vchan v = ch) then vset_state RUNNABLE v else v.

Definition vkill (v : view) : view :=
  if decide (vstate v = SLEEPING) then vset_state RUNNABLE v else v.

(** [exit] of [cur], seen from slot [j]; [woken] tells whether init is woken
    for a zombie it inherits. *)
Definition vexit (cur : nat) (par : option nat) (ini : nat) (woken : bool) (j : nat) (v : view)
    : view :=
  let v := vwake (ChProc <$> par) v in
  let v := if decide (vparent v = Some cur) then vset_parent (Some ini) v else v in
  let v := if woken then vwake (Some (ChProc ini)) v else v in
  if decide (j = cur) then vset_kont AtExit (vset_state ZOMBIE v) else v.

Definition alive (v : view) : Prop :=
  vstate v = SLEEPING ∨ vstate v = RUNNABLE ∨ vstate v = RUNNING.

Definition owns (v : view) (np : nat) : Prop := vkont v = Forking np ∨ vkont v = Copied np.

(** ** Steps *)

(** The state after a step: slots changed by [f], processor [c] running [o]. *)
Definition after (s : astate) (f : nat → view → view) (s' : astate) : Prop :=
  (∀ j, slot s' j = f j (slot s j)) ∧ ainit s' = ainit s.

Definition same_cpus (s s' : astate) : Prop := ∀ c, oncpu s' c = oncpu s c.

Definition cpu_set (s : astate) (c : nat) (o : option nat) (s' : astate) : Prop :=
  ∀ c', oncpu s' c' = if decide (c' = c) then o else oncpu s c'.

Definition at_slot (i : nat) (g : view → view) (j : nat) (v : view) : view :=
  if decide (j = i) then g v else v.

Inductive astep (s s' : astate) : Prop :=
| A_dispatch c i :
    oncpu s c = None → vstate (slot s i) = RUNNABLE →
    after s (at_slot i (vset_state RUNNING)) s' → cpu_set s c (Some i) s' →
    anext s' = anext s → astep s s'
| A_resume c i ch :
    oncpu s c = Some i → vkont (slot s i) ∈ [AtForkret; AtYield; AtSleep] →
    after s (at_slot i (vset_kont InKernel ∘ vset_chan ch)) s' → same_cpus s s' →
    anext s' = anext s → astep s s'
| A_yield c i :
    oncpu s c = Some i → vkont (slot s i) = InKernel →
    after s (at_slot i (vset_kont AtYield ∘ vset_state RUNNABLE)) s' → cpu_set s c None s' →
    anext s' = anext s → astep s s'
| A_sleep c i ch :
    oncpu s c = Some i → vkont (slot s i) = InKernel →
    after s (at_slot i (vset_kont AtSleep ∘ vset_state SLEEPING ∘ vset_chan ch)) s' →
    cpu_set s c None s' → anext s' = anext s → astep s s'
| A_wait_reap c i z ch :
    oncpu s c = Some i → vkont (slot s i) ∈ [InKernel; AtWait] →
    vparent (slot s z) = Some i → vstate (slot s z) = ZOMBIE →
    after s (λ j v, if decide (j = z) then View UNUSED None (vchan v) 0 NoThread
                    else at_slot i (vset_kont InKernel ∘ vset_chan ch) j v) s' →
    same_cpus s s' → anext s' = anext s → astep s s'
| A_wait_none c i ch :
    oncpu s c = Some i → vkont (slot s i) ∈ [InKernel; AtWait] →
    after s (at_slot i (vset_kont InKernel ∘ vset_chan ch)) s' →
    same_cpus s s' → anext s' = anext s → astep s s'
| A_wait_sleep c i :
    oncpu s c = Some i → vkont (slot s i) ∈ [InKernel; AtWait] →
    (∀ j, vparent (slot s j) = Some i → vstate (slot s j) ≠ ZOMBIE) →
    after s (at_slot i (vset_kont AtWait ∘ vset_state SLEEPING ∘ vset_chan (Some (ChProc i)))) s' →
    cpu_set s c None s' → anext s' = anext s → astep s s'
| A_exit c i woken :
    oncpu s c = Some i → vkont (slot s i) = InKernel → i ≠ ainit s →
    ((∃ j, vparent (slot s j) = Some i ∧ vstate (slot s j) = ZOMBIE) → woken = true) →
    after s (vexit i (vparent (slot s i)) (ainit s) woken) s' → cpu_set s c None s' →
    anext s' = anext s → astep s s'
| A_fork_slot c i np :
    oncpu s c = Some i → vkont (slot s i) = InKernel → vstate (slot s np) = UNUSED →
    after s (λ j v, if decide (j = np) then vset_pid (anext s) (vset_state EMBRYO v)
                    else at_slot i (vset_kont (Forking np)) j v) s' →
    same_cpus s s' → anext s' = i32 (anext s + 1) → astep s s'
| A_fork_fail c i np :
    oncpu s c = Some i → vkont (slot s i) = Forking np →
    after s (λ j v, if decide (j = np) then vset_state UNUSED v
                    else at_slot i (vset_kont InKernel) j v) s' →
    same_cpus s s' → anext s' = anext s → astep s s'
| A_fork_copy c i np :
    oncpu s c = Some i → vkont (slot s i) = Forking np →
    after s (λ j v, if decide (j = np) then vset_parent (Some i) v
                    else at_slot i (vset_kont (Copied np)) j v) s' →
    same_cpus s s' → anext s' = anext s → astep s s'
| A_fork_publish c i np :
    oncpu s c = Some i → vkont (slot s i) = Copied np →
    after s (λ j v, if decide (j = np) then vset_kont AtForkret (vset_state RUNNABLE v)
                    else at_slot i (vset_kont InKernel) j v) s' →
    same_cpus s s' → anext s' = anext s → astep s s'
| A_wakeup ch :
    after s (λ _, vwake ch) s' → same_cpus s s' → anext s' = anext s → astep s s'
| A_kill i :
    after s (at_slot i vkill) s' → same_cpus s s' → anext s' = anext s → astep s s'
| A_private :
    after s (λ _ v, v) s' → same_cpus s s' → anext s' = anext s → astep s s'.

(** After boot: one runnable process, no processor running anything. *)
Definition aboot (s : astate) : Prop :=
  (∀ c, oncpu s c = None) ∧ anext s = 2 ∧
  (∀ j, if decide (j = ainit s)
        then vstate (slot s j) = RUNNABLE ∧ vparent (slot s j) = None ∧
             vkont (slot s j) = AtForkret ∧ vpid (slot s j) = 1
        else vstate (slot s j) = UNUSED ∧ vparent (slot s j) = None ∧
             vkont (slot s j) = NoThread).

(** ** Invariant *)

(** The states a slot may be in, by where its thread stands. *)
Definition kont_ok (k : kcont) (st : procstate) : Prop :=
  match k with
  | NoThread => st = UNUSED ∨ st = EMBRYO
  | InKernel | Forking _ | Copied _ => st = RUNNING
  | AtForkret | AtYield => st = RUNNABLE ∨ st = RUNNING
  | AtSleep | AtWait => st = SLEEPING ∨ st = RUNNABLE ∨ st = RUNNING
  | AtExit => st = ZOMBIE
  end.

Record inv (s : astate) : Prop := Inv {
  inv_oncpu : ∀ c i, oncpu s c = Some i → vstate (slot s i) = RUNNING;
  inv_cpu_inj : ∀ c c' i, oncpu s c = Some i → oncpu s c' = Some i → c = c';
  inv_running : ∀ i, vstate (slot s i) = RUNNING → ∃ c, oncpu s c = Some i;
  inv_kont : ∀ i, kont_ok (vkont (slot s i)) (vstate (slot s i));
  inv_owner : ∀ i np, owns (slot s i) np → vstate (slot s np) = EMBRYO;
  inv_fresh : ∀ i np, vkont (slot s i) = Forking np → vparent (slot s np) = None;
  inv_owner_inj : ∀ i j np, owns (slot s i) np → owns (slot s j) np → i = j;
  inv_embryo : ∀ np, vstate (slot s np) = EMBRYO → ∃ i, owns (slot s i) np;
  inv_parent : ∀ i q, vparent (slot s i) = Some q → alive (slot s q);
  inv_unused : ∀ i, vstate (slot s i) = UNUSED → vparent (slot s i) = None;
  inv_noself : ∀ i, vparent (slot s i) ≠ Some i;
  inv_init : alive (slot s (ainit s));
  inv_orphan : vparent (slot s (ainit s)) = None;
  inv_wait : ∀ i, vkont (slot s i) = AtWait → vstate (slot s i) = SLEEPING →
    vchan (slot s i) = Some (ChProc i) ∧
    ∀ j, vparent (slot s j) = Some i → vstate (slot s j) ≠ ZOMBIE
}.

(** Pids, while the counter has not wrapped around. *)
Record pids_ok (s : astate) : Prop := {
  pids_next : 0 < anext s;
  pids_range : ∀ i, vstate (slot s i) ≠ UNUSED → 0 < vpid (slot s i) < anext s;
  pids_inj : ∀ i j, vstate (slot s i) ≠ UNUSED → vstate (slot s j) ≠ UNUSED →
    vpid (slot s i) = vpid (slot s j) → i = j
}.

Lemma aboot_inv s : aboot s → inv s.
Proof.
  intros (Hc & _ & Hs).
  assert (∀ j, vkont (slot s j) = AtForkret ∧ vstate (slot s j) = RUNNABLE ∨
               vkont (slot s j) = NoThread ∧ vstate (slot s j) = UNUSED) as Hk.
  { intros j. specialize (Hs j). case_decide; naive_solver. }
  assert (∀ j, vparent (slot s j) = None) as Hp.
  { intros j. specialize (Hs j). case_decide; naive_solver. }
  assert (alive (slot s (ainit s))) as Hi.
  { specialize (Hs (ainit s)). rewrite decide_True in Hs by done. unfold alive. naive_solver. }
  assert (∀ i st, vstate (slot s i) = st → st = RUNNABLE ∨ st = UNUSED) as Hst
    by (intros i st <-; destruct (Hk i) as [[_ ->]|[_ ->]]; auto).
  assert (∀ i k, vkont (slot s i) = k → k = AtForkret ∨ k = NoThread) as Hko
    by (intros i k <-; destruct (Hk i) as [[-> _]|[-> _]]; auto).
  clear Hs. split; unfold owns; try done; try (intros; congruence).
  - intros i Hr. by destruct (Hst i _ Hr).
  - intros i. by destruct (Hk i) as [[-> ->]|[-> ->]]; left.
  - intros i np [Ho|Ho]; by destruct (Hko i _ Ho).
  - intros i j np [Ho|Ho]; by destruct (Hko i _ Ho).
  - intros np He. by destruct (Hst np _ He).
  - intros i Hw. by destruct (Hko i _ Hw).
Qed.

(** ** Preservation *)

Lemma vwake_cases ch v :
  vwake ch v = v ∨ vstate v = SLEEPING ∧ vchan v = ch ∧ vwake ch v = vset_state RUNNABLE v.
Proof. unfold vwake. case_decide; naive_solver. Qed.

Lemma vkill_cases v :
  vkill v = v ∨ vstate v = SLEEPING ∧ vkill v = vset_state RUNNABLE v.
Proof. unfold vkill. case_decide; naive_solver. Qed.

(** Reads the slots and processors of the state after a step. *)
Ltac step_slots :=
  unfold after, same_cpus, cpu_set, at_slot in *; deex;
  repeat match goal with
  | H : ∀ j, slot ?s' j = _ |- context [slot ?s' _] => rewrite !H
  | H : ∀ j, slot ?s' j = _, H' : context [slot ?s' _] |- _ => rewrite !H in H'
  | H : ∀ c, oncpu ?s' c = _ |- context [oncpu ?s' _] => rewrite !H
  | H : ∀ c, oncpu ?s' c = _, H' : context [oncpu ?s' _] |- _ => rewrite !H in H'
  end.

Lemma vwake_kont ch v : vkont (vwake ch v) = vkont v.
Proof. unfold vwake. by case_decide. Qed.

Lemma vwake_parent ch v : vparent (vwake ch v) = vparent v.
Proof. unfold vwake. by case_decide. Qed.

Lemma vwake_chan ch v : vchan (vwake ch v) = vchan v.
Proof. unfold vwake. by case_decide. Qed.

Lemma vwake_pid ch v : vpid (vwake ch v) = vpid v.
Proof. unfold vwake. by case_decide. Qed.

Lemma vwake_state ch v :
  vstate (vwake ch v) = if decide (vstate v = SLEEPING ∧ vchan v = ch) then RUNNABLE else vstate v.
Proof. unfold vwake. by case_decide. Qed.

(** What [exit] does to the parts of a view. *)
Lemma vexit_kont cur par ini w j v :
  vkont (vexit cur par ini w j v) = if decide (j = cur) then AtExit else vkont v.
Proof.
  unfold vexit. case_decide; [done|].
  destruct w; rewrite ?vwake_kont; case_decide; simpl; by rewrite vwake_kont.
Qed.

Lemma vexit_parent cur par ini w j v :
  vparent (vexit cur par ini w j v) =
  if decide (vparent v = Some cur) then Some ini else vparent v.
Proof.
  unfold vexit. rewrite vwake_parent.
  destruct (decide (j = cur)); destruct w; simpl; rewrite ?vwake_parent;
    case_decide; simpl; by rewrite ?vwake_parent.
Qed.

Lemma vexit_chan cur par ini w j v : vchan (vexit cur par ini w j v) = vchan v.
Proof.
  unfold vexit. destruct (decide (j = cur)); destruct w; simpl; rewrite ?vwake_chan;
    case_decide; simpl; by rewrite ?vwake_chan.
Qed.

Lemma vexit_pid cur par ini w j v : vpid (vexit cur par ini w j v) = vpid v.
Proof.
  unfold vexit. destruct (decide (j = cur)); destruct w; simpl; rewrite ?vwake_pid;
    case_decide; simpl; by rewrite ?vwake_pid.
Qed.

Lemma vexit_state cur par ini w j v :
  vstate (vexit cur par ini w j v) =
  if decide (j = cur) then ZOMBIE
  else if decide (vstate v = SLEEPING ∧
                  (vchan v = ChProc <$> par ∨ w = true ∧ vchan v = Some (ChProc ini)))
  then RUNNABLE else vstate v.
Proof.
  unfold vexit. destruct (decide (j = cur)); [by destruct w|].
  rewrite vwake_parent.
  assert (∀ v', vstate (if decide (vparent v = Some cur) then vset_parent (Some ini) v' else v')
                = vstate v') as Hs by (intros; by case_decide).
  assert (∀ v', vchan (if decide (vparent v = Some cur) then vset_parent (Some ini) v' else v')
                = vchan v') as Hc by (intros; by case_decide).
  destruct w; rewrite ?vwake_state, Hs, ?Hc, ?vwake_chan, !vwake_state;
    repeat case_decide; intuition congruence.
Qed.

Lemma vkill_kont v : vkont (vkill v) = vkont v.
Proof. unfold vkill. by case_decide. Qed.

Lemma vkill_parent v : vparent (vkill v) = vparent v.
Proof. unfold vkill. by case_decide. Qed.

Lemma vkill_chan v : vchan (vkill v) = vchan v.
Proof. unfold vkill. by case_decide. Qed.

Lemma vkill_pid v : vpid (vkill v) = vpid v.
Proof. unfold vkill. by case_decide. Qed.

Lemma vkill_state v :
  vstate (vkill v) = if decide (vstate v = SLEEPING) then RUNNABLE else vstate v.
Proof. unfold vkill. by case_decide. Qed.

Create HintDb view.

#[export] Hint Rewrite vexit_kont vexit_parent vexit_chan vexit_pid vexit_state
  vwake_kont vwake_parent vwake_chan vwake_pid vwake_state
  vkill_kont vkill_parent vkill_chan vkill_pid vkill_state : view.

(** All the cases of a step, with the fields of the new slots computed. *)
Ltac step_cases :=
  step_slots; repeat case_decide; subst; simpl in *; autorewrite with view in *;
  repeat case_decide; simplify_eq/=.

Section preservation.
Context (s s' : astate) (Hinv : inv s) (Hstep : astep s s').

Lemma owner_running i np : owns (slot s i) np → vstate (slot s i) = RUNNING.
Proof. pose proof (inv_kont _ Hinv i) as Hk. intros [E|E]; by rewrite E in Hk. Qed.

(** Instances of the invariant for the facts at hand. *)
Ltac saturate :=
  repeat match goal with
  | H : oncpu s ?c = Some ?i |- _ => learn (inv_oncpu _ Hinv c i H)
  | H : oncpu s ?c = Some ?i, H' : oncpu s ?c' = Some ?i |- _ =>
      learn (inv_cpu_inj _ Hinv c c' i H H')
  | H : vkont (slot s ?i) = Forking ?np |- _ =>
      first [learn (inv_owner _ Hinv i np (or_introl H)) | learn (inv_fresh _ Hinv i np H)
            | learn (owner_running i np (or_introl H))]
  | H : vkont (slot s ?i) = Copied ?np |- _ =>
      first [learn (inv_owner _ Hinv i np (or_intror H)) | learn (owner_running i np (or_intror H))]
  | H : vstate (slot s ?i) = UNUSED |- _ => learn (inv_unused _ Hinv i H)
  | H : vkont (slot s ?i) = Forking ?np, H' : vkont (slot s ?j) = Forking ?np |- _ =>
      learn (inv_owner_inj _ Hinv i j np (or_introl H) (or_introl H'))
  | H : vkont (slot s ?i) = Forking ?np, H' : vkont (slot s ?j) = Copied ?np |- _ =>
      learn (inv_owner_inj _ Hinv i j np (or_introl H) (or_intror H'))
  | H : vkont (slot s ?i) = Copied ?np, H' : vkont (slot s ?j) = Copied ?np |- _ =>
      learn (inv_owner_inj _ Hinv i j np (or_intror H) (or_intror H'))
  end; subst.

(** The cases of a membership in an explicit list. *)
Ltac split_mem :=
  repeat match goal with
  | H : _ ∈ _ :: _ |- _ => apply list_elem_of_In in H; simpl in H; destruct_or?; try done
  end.

(** [congruence] on the ground facts only. *)
Ltac ground :=
  solve [deex; repeat match goal with H : ∀ _, _ |- _ => clear H end; congruence].

(** Forgets the equations of the new state, then decides by cases. *)
Ltac finish :=
  repeat match goal with
  | H : ∀ j, slot _ j = _ |- _ => clear H
  | H : ∀ c, oncpu _ c = _ |- _ => clear H
  end; intuition congruence.

Lemma step_cpu_inj c c' i : oncpu s' c = Some i → oncpu s' c' = Some i → c = c'.
Proof. destruct Hstep; intros Ho1 Ho2; step_cases; saturate; ground. Qed.

Lemma step_oncpu c i : oncpu s' c = Some i → vstate (slot s' i) = RUNNING.
Proof. destruct Hstep; intros Ho1; step_cases; saturate; ground. Qed.

(** A running process that already ran keeps its processor. *)
Lemma step_running i : vstate (slot s' i) = RUNNING → ∃ c, oncpu s' c = Some i.
Proof.
  intros Hr.
  assert (vstate (slot s i) = RUNNING → ∃ c, oncpu s c = Some i) as Hold by apply Hinv.
  destruct Hstep; step_cases; saturate; try ground.
  all: first
    [ destruct Hold as [c1 Hc1]; [ground|]; exists c1; step_slots;
      try case_decide; saturate; ground
    | exists c; step_slots; by rewrite decide_True ].
Qed.

Lemma step_kont i : kont_ok (vkont (slot s' i)) (vstate (slot s' i)).
Proof.
  pose proof (inv_kont _ Hinv i) as Hk.
  destruct Hstep; step_cases; saturate; try done; try ground; deex; simpl; try tauto;
    destruct (vkont (slot s _)); simpl in *; intuition congruence.
Qed.

Lemma step_owner i np : owns (slot s' i) np → vstate (slot s' np) = EMBRYO.
Proof. unfold owns. destruct Hstep; intros [Ho|Ho]; step_cases; saturate; ground. Qed.

Lemma step_fresh i np : vkont (slot s' i) = Forking np → vparent (slot s' np) = None.
Proof. destruct Hstep; intros Ho; step_cases; saturate; ground. Qed.

Lemma step_owner_inj i j np : owns (slot s' i) np → owns (slot s' j) np → i = j.
Proof.
  unfold owns. destruct Hstep; intros [Ho|Ho] [Ho'|Ho']; step_cases; saturate; ground.
Qed.

Lemma step_embryo np : vstate (slot s' np) = EMBRYO → ∃ i, owns (slot s' i) np.
Proof.
  unfold owns. intros He.
  destruct (decide (vstate (slot s np) = EMBRYO)) as [Hold|Hnew].
  - destruct (inv_embryo _ Hinv np Hold) as [i1 [Hi1|Hi1]]; exists i1;
      destruct Hstep; step_cases; saturate; try ground; auto; split_mem; ground.
  - destruct Hstep as [| | | | | | | |c i np'| | | | | |]; step_cases; try ground.
    exists i. left. step_cases; saturate; ground.
Qed.

Lemma step_parent i q : vparent (slot s' i) = Some q → alive (slot s' q).
Proof.
  unfold alive. pose proof (inv_parent _ Hinv i q) as Hp. pose proof (inv_init _ Hinv) as Hi.
  unfold alive in Hp, Hi.
  destruct Hstep; intros Hq; step_cases; saturate; try ground; try tauto; finish.
Qed.

Lemma step_unused i : vstate (slot s' i) = UNUSED → vparent (slot s' i) = None.
Proof.
  pose proof (inv_unused _ Hinv i).
  destruct Hstep; intros Hq; step_cases; saturate; try ground; auto.
Qed.

Lemma step_init : alive (slot s' (ainit s')).
Proof.
  pose proof (inv_init _ Hinv) as Hi. unfold alive in *.
  destruct Hstep; step_cases; saturate; try ground; try tauto; finish.
Qed.

Lemma step_orphan : vparent (slot s' (ainit s')) = None.
Proof.
  pose proof (inv_init _ Hinv) as Hi. pose proof (inv_orphan _ Hinv) as Ho.
  unfold alive in *.
  destruct Hstep; step_cases; saturate; try ground; finish.
Qed.

Lemma step_noself i : vparent (slot s' i) ≠ Some i.
Proof.
  pose proof (inv_noself _ Hinv i) as Hn. pose proof (inv_orphan _ Hinv) as Ho. intros Hp.
  destruct Hstep; step_cases; saturate; try ground; finish.
Qed.

(** The heart of [wait] and [exit]: nobody sleeps in wait on a zombie child. *)
Lemma step_wait i :
  vkont (slot s' i) = AtWait → vstate (slot s' i) = SLEEPING →
  vchan (slot s' i) = Some (ChProc i) ∧
  ∀ j, vparent (slot s' j) = Some i → vstate (slot s' j) ≠ ZOMBIE.
Proof.
  pose proof (inv_wait _ Hinv i) as Hold. pose proof (inv_kont _ Hinv i) as Hk.
  pose proof (inv_orphan _ Hinv) as Ho.
  intros Hw Hs. split.
  - destruct Hstep; step_cases; saturate; try ground; deex;
      (destruct Hold as [Hc _]; [ground..|]; ground).
  - intros j Hj Hz. pose proof (inv_noself _ Hinv j) as Hself.
    destruct Hstep; step_cases; saturate; try ground; deex;
      try (by eapply H1); try (destruct Hold as [Hc Hn]; [ground..|]; specialize (Hn _ Hj); intuition congruence).
    all: destruct Hold as [Hc _]; [done..|].
    all: match goal with Hn : ¬ (_ ∧ _), Hz : (∃ _, _) → _ = true |- _ =>
           apply Hn; split; [done|];
           first [left; rewrite Hc, Hj; done | right; split; [eauto|done]] end.
Qed.

Lemma astep_inv : inv s'.
Proof.
  split.
  - apply step_oncpu.
  - apply step_cpu_inj.
  - apply step_running.
  - apply step_kont.
  - apply step_owner.
  - apply step_fresh.
  - apply step_owner_inj.
  - apply step_embryo.
  - apply step_parent.
  - apply step_unused.
  - apply step_noself.
  - apply step_init.
  - apply step_orphan.
  - apply step_wait.
Qed.

(** Only [allocproc] gives out a pid, to one slot, and [wait] takes one back. *)
Lemma step_next : anext s' = anext s ∨ anext s' = i32 (anext s + 1).
Proof. destruct Hstep; auto. Qed.

Lemma step_pid i :
  vstate (slot s' i) ≠ UNUSED →
  vpid (slot s' i) = vpid (slot s i) ∧ vstate (slot s i) ≠ UNUSED ∨
  vpid (slot s' i) = anext s ∧ vstate (slot s i) = UNUSED ∧ anext s' = i32 (anext s + 1).
Proof.
  intros Hi. destruct Hstep; step_cases; saturate;
    first [left; split; [done|ground] | right; by repeat split].
Qed.

Lemma step_new_slot i j :
  vstate (slot s i) = UNUSED → vstate (slot s' i) ≠ UNUSED →
  vstate (slot s j) = UNUSED → vstate (slot s' j) ≠ UNUSED → i = j.
Proof. intros Hi Hi' Hj Hj'. destruct Hstep; step_cases; saturate; ground. Qed.

Lemma astep_pids : pids_ok s → anext s < INT_MAX → pids_ok s' ∧ anext s' ≤ anext s + 1.
Proof.
  intros [Hpos Hrange Hinj] Hmax.
  assert (i32 (anext s + 1) = anext s + 1) as Hw by (apply i32_small; unfold INT_MIN; lia).
  pose proof step_next as Hn. rewrite Hw in Hn.
  split; [split; [lia| |]|lia].
  - intros i Hi. destruct (step_pid i Hi) as [[-> Hu]|(-> & _ & E)]; [|rewrite E, Hw; lia].
    specialize (Hrange i Hu). lia.
  - intros i j Hi Hj Hij.
    destruct (step_pid i Hi) as [[Ei Hui]|(Ei & Hui & _)],
             (step_pid j Hj) as [[Ej Huj]|(Ej & Huj & _)].
    + apply Hinj; congruence.
    + specialize (Hrange i Hui). lia.
    + specialize (Hrange j Huj). lia.
    + by apply step_new_slot.
Qed.

End preservation.

(** ** Reachable states *)

Lemma areachable_inv s : reachable aboot astep s → inv s.
Proof.
  apply reachable_invariant; [apply aboot_inv|]. intros s1 s2 Hi Hs. by apply (astep_inv s1 s2).
Qed.

Lemma aboot_pids s : aboot s → pids_ok s.
Proof.
  intros (_ & Hn & Hs). split; [lia| |].
  - intros i Hi. specialize (Hs i). case_decide.
    + destruct Hs as (_ & _ & _ & ->). lia.
    + by destruct Hs as (? & _).
  - intros i j Hi Hj _. pose proof (Hs i). pose proof (Hs j). repeat case_decide; naive_solver.
Qed.

(** After [n] steps from boot, as long as [n] pids can be given out. *)
Lemma areachable_pids n s :
  reachable_in aboot astep n s → Z.of_nat n + 2 ≤ INT_MAX →
  pids_ok s ∧ anext s ≤ 2 + Z.of_nat n.
Proof.
  intros (s0 & Hb & Hn) Hmax.
  assert (∀ n s, inv s ∧ (2 + Z.of_nat n ≤ INT_MAX → pids_ok s ∧ anext s ≤ 2 + Z.of_nat n) →
          ∀ s', astep s s' →
          inv s' ∧ (2 + Z.of_nat (S n) ≤ INT_MAX → pids_ok s' ∧ anext s' ≤ 2 + Z.of_nat (S n)))
    as Hstep.
  { intros m s1 [Hi Hp] s2 Hs. split; [by apply (astep_inv s1 s2)|]. intros Hm.
    destruct Hp as [Hp Hle]; [lia|].
    destruct (astep_pids s1 s2 Hi Hs Hp) as [? ?]; [lia|]. split; [done|lia]. }
  destruct (nsteps_preserves astep
    (λ n s, inv s ∧ (2 + Z.of_nat n ≤ INT_MAX → pids_ok s ∧ anext s ≤ 2 + Z.of_nat n))
    (λ n s s' Hp Hs, Hstep n s Hp s' Hs) n 0 s0 s) as [_ Hp]; [|done|apply Hp; lia].
  split; [by apply aboot_inv|]. intros _.
  split; [by apply aboot_pids|]. destruct Hb as (_ & -> & _). lia.
Qed.
