(* ===== verification/System.v ===== *)
(** The whole system: processors, scheduler and processes executing the
    functions of hw3/proc.c in any interleaving of their critical sections,
    and its refinement of the protocol of Protocol.v.  The step of each
    function is the effect proved for it in ProcSpec.v. *)

From S2P Require Import Prelude KernelEnv Proc Locking ProcSpec Lottery Handover Protocol.

Section system.
Context `{KernelEnv} `{Spinlock}.

Record sys : Type := Sys { ks : kernel; konts : list kcont }.

(** Back from [sched] inside [sleep]: the channel is cleared. *)
Definition awake_effect (k : kcont) (i : nat) (s : kernel) : kernel :=
  match k with
  | AtForkret => forkret_effect s
  | AtSleep | AtWait => on_slot i (set_chan None) s
  | _ => s
  end.

(** ** Steps *)

Definition set_kont (i : nat) (k : kcont) (l : list kcont) : list kcont := alter (λ _, k) i l.

Inductive sys_step : sys → sys → Prop :=
| S_dispatch s l c i s' :
    (c < length (cpus s))%nat → current c s = None → choose_effect c s = (Some i, s') →
    sys_step (Sys s l) (Sys s' l)
| S_idle s l c s' :
    current c s = None → choose_effect c s = (None, s') →
    sys_step (Sys s l) (Sys s' l)
| S_resume s l c i k :
    current c s = Some i → l !! i = Some k → k ∈ [AtForkret; AtYield; AtSleep] →
    sys_step (Sys s l) (Sys (awake_effect k i s) (set_kont i InKernel l))
| S_yield s l c i :
    current c s = Some i → l !! i = Some InKernel →
    sys_step (Sys s l)
      (Sys (back_effect c (on_slot i (set_state RUNNABLE) s)) (set_kont i AtYield l))
| S_sleep s l c i ch :
    current c s = Some i → l !! i = Some InKernel →
    sys_step (Sys s l) (Sys (back_effect c (sleep_effect i ch s)) (set_kont i AtSleep l))
| S_wait_reap s l c i k p z s' :
    current c s = Some i → l !! i = Some k → k ∈ [InKernel; AtWait] →
    ptable (awake_effect k i s) !! i = Some p →
    wait_effect i p (awake_effect k i s) = Some (Some z, s') →
    sys_step (Sys s l) (Sys s' (set_kont z NoThread (set_kont i InKernel l)))
| S_wait_none s l c i k p s' :
    current c s = Some i → l !! i = Some k → k ∈ [InKernel; AtWait] →
    ptable (awake_effect k i s) !! i = Some p →
    wait_effect i p (awake_effect k i s) = Some (None, s') →
    sys_step (Sys s l) (Sys s' (set_kont i InKernel l))
| S_wait_sleep s l c i k p :
    current c s = Some i → l !! i = Some k → k ∈ [InKernel; AtWait] →
    ptable (awake_effect k i s) !! i = Some p →
    wait_effect i p (awake_effect k i s) = None →
    sys_step (Sys s l)
      (Sys (back_effect c (sleep_effect i (Some (ChProc i)) (awake_effect k i s)))
           (set_kont i AtWait l))
| S_exit s l c i p :
    current c s = Some i → l !! i = Some InKernel → initproc s ≠ Some i →
    ptable s !! i = Some p →
    sys_step (Sys s l)
      (Sys (back_effect c (exit_zombie_effect i (exit_files_effect i p s))) (set_kont i AtExit l))
| S_fork_slot s l c i np s' :
    current c s = Some i → l !! i = Some InKernel → slot_effect s = (Some np, s') →
    sys_step (Sys s l) (Sys s' (set_kont i (Forking np) l))
| S_fork_nostack s l c i np s' :
    current c s = Some i → l !! i = Some (Forking np) → stack_effect np s = (None, s') →
    sys_step (Sys s l) (Sys s' (set_kont i InKernel l))
| S_fork_copy s l c i np pp q s1 s2 ok :
    current c s = Some i → l !! i = Some (Forking np) → stack_effect np s = (Some np, s1) →
    ptable s1 !! i = Some pp → ptable s1 !! np = Some q →
    copy_effect i np pp q s1 = (ok, s2) →
    sys_step (Sys s l) (Sys s2 (set_kont i (if ok : bool then Copied np else InKernel) l))
| S_fork_publish s l c i np :
    current c s = Some i → l !! i = Some (Copied np) →
    sys_step (Sys s l)
      (Sys (publish_effect np s) (set_kont np AtForkret (set_kont i InKernel l)))
| S_wakeup s l ch :
    sys_step (Sys s l) (Sys (set_ptable (wake_all ch (ptable s)) s) l)
| S_kill s l n :
    sys_step (Sys s l) (Sys (kill_effect n s).2 l)
| S_settickets s l c i n :   (* an [int] *)
    current c s = Some i → l !! i = Some InKernel → INT_MIN ≤ n ≤ INT_MAX →
    sys_step (Sys s l) (Sys (on_slot i (set_tickets n) s) l)
| S_trapframe s l c i t :   (* the result register, set by [syscall] *)
    current c s = Some i → l !! i = Some InKernel →
    sys_step (Sys s l) (Sys (on_slot i (set_tf t) s) l)
| S_growproc s l c i n e :   (* the size is kept, or an [unsigned int] *)
    current c s = Some i → l !! i = Some InKernel →
    sz <$> ptable s !! i = Some n ∨ 0 ≤ n ≤ UINT_MAX →
    sys_step (Sys s l) (Sys (on_slot i (set_sz n) (set_ext e s)) l)
| S_outside s l e t :   (* the rest of the kernel, and the clock *)
    sys_step (Sys s l) (Sys (set_ticks t (set_ext e s)) l).

(** After [userinit]: init runnable in slot [ini], every other slot as the
    loader's zeroes leave it, no processor running a process. *)
Definition booted (x : sys) : Prop :=
  ∃ ini, initproc (ks x) = Some ini ∧ nextpid (ks x) = 2 ∧
    length (konts x) = length (ptable (ks x)) ∧ (ini < length (ptable (ks x)))%nat ∧
    (∀ c, current c (ks x) = None) ∧
    ∀ j p k, ptable (ks x) !! j = Some p → konts x !! j = Some k →
      parent p = None ∧
      (if decide (j = ini) then state p = RUNNABLE ∧ k = AtForkret ∧ pid p = 1
       else state p = UNUSED ∧ k = NoThread).

(** ** Abstraction *)

Definition view_of (p : proc) (k : kcont) : view :=
  View (state p) (parent p) (chan p) (pid p) k.

Definition no_view : view := View UNUSED None None 0 NoThread.

Definition view_at (tab : list proc) (l : list kcont) (j : nat) : view :=
  match tab !! j, l !! j with
  | Some p, Some k => view_of p k
  | _, _ => no_view
  end.

Definition abs (x : sys) : astate :=
  {| slot := view_at (ptable (ks x)) (konts x);
     oncpu := λ c, current c (ks x);
     ainit := default 0%nat (initproc (ks x));
     anext := nextpid (ks x) |}.

(** Shape: a thread for each slot, and a first process. *)
Definition shape (x : sys) : Prop :=
  length (konts x) = length (ptable (ks x)) ∧
  ∃ ini, initproc (ks x) = Some ini ∧ (ini < length (ptable (ks x)))%nat.

(** ** Views of updated tables *)

Lemma view_alter tab l i f g j :
  length l = length tab → (i < length tab)%nat →
  (∀ p k, view_of (f p) k = g (view_of p k)) →
  view_at (alter f i tab) l j = at_slot i g j (view_at tab l j).
Proof.
  intros Hlen Hi Hfg. unfold view_at, at_slot. case_decide as Hj.
  - subst. rewrite list_lookup_alter_eq.
    destruct (lookup_lt_is_Some_2 tab i Hi) as [p ->].
    destruct (lookup_lt_is_Some_2 l i) as [k ->]; [lia|]. apply Hfg.
  - by rewrite list_lookup_alter_ne.
Qed.

Lemma view_kont tab l i k j :
  length l = length tab → (i < length tab)%nat →
  view_at tab (set_kont i k l) j = at_slot i (vset_kont k) j (view_at tab l j).
Proof.
  intros Hlen Hi. unfold view_at, at_slot, set_kont. case_decide as Hj.
  - subst. rewrite list_lookup_alter_eq.
    destruct (lookup_lt_is_Some_2 tab i Hi) as [p ->].
    destruct (lookup_lt_is_Some_2 l i) as [k' ->]; [lia|]. done.
  - by rewrite list_lookup_alter_ne.
Qed.

Lemma view_map tab l f g j :
  (∀ p k, view_of (f p) k = g (view_of p k)) → g no_view = no_view →
  view_at (f <$> tab) l j = g (view_at tab l j).
Proof.
  intros Hfg Hno. unfold view_at. rewrite list_lookup_fmap.
  destruct (tab !! j), (l !! j); simpl; congruence || apply Hfg.
Qed.

Lemma view_lookup tab l i p k : tab !! i = Some p → l !! i = Some k → view_at tab l i = view_of p k.
Proof. unfold view_at. by intros -> ->. Qed.

Lemma set_kont_length i k l : length (set_kont i k l) = length l.
Proof. apply length_alter. Qed.

Lemma current_lt c s i : current c s = Some i → (c < length (cpus s))%nat.
Proof.
  unfold current. destruct (cpus s !! c) eqn:Hk; [|done]. intros _. by eapply lookup_lt_Some.
Qed.

Lemma current_on_cpu c o s c' :
  (c < length (cpus s))%nat →
  current c' (on_cpu c (set_cpu_proc o) s) = if decide (c' = c) then o else current c' s.
Proof.
  intros Hc. destruct s. unfold current, on_cpu. simpl in *. case_decide as Hj.
  - subst. rewrite list_lookup_alter_eq.
    destruct (lookup_lt_is_Some_2 cpus c Hc) as [[] ->]. done.
  - by rewrite list_lookup_alter_ne.
Qed.

Lemma current_cpus c s t : cpus s = cpus t → current c s = current c t.
Proof. unfold current. by intros ->. Qed.

(** The fields of a state after an assignment to another one. *)
Lemma on_slot_fields i f s :
  ptable (on_slot i f s) = alter f i (ptable s) ∧ cpus (on_slot i f s) = cpus s ∧
  initproc (on_slot i f s) = initproc s ∧ nextpid (on_slot i f s) = nextpid s ∧
  ext (on_slot i f s) = ext s.
Proof. by destruct s. Qed.

Lemma back_fields c s :
  ptable (back_effect c s) = ptable s ∧ initproc (back_effect c s) = initproc s ∧
  nextpid (back_effect c s) = nextpid s.
Proof. by destruct s. Qed.

Lemma current_back c s c' :
  (c < length (cpus s))%nat →
  current c' (back_effect c s) = if decide (c' = c) then None else current c' s.
Proof.
  intros Hc. unfold back_effect. rewrite current_on_cpu by by destruct s.
  case_decide; [done|]. by destruct s.
Qed.

Lemma awake_fields k i s :
  length (ptable (awake_effect k i s)) = length (ptable s) ∧
  cpus (awake_effect k i s) = cpus s ∧ initproc (awake_effect k i s) = initproc s ∧
  nextpid (awake_effect k i s) = nextpid s.
Proof.
  destruct k; simpl; unfold forkret_effect; try case_decide; destruct s; simpl;
    rewrite ?length_alter; auto.
Qed.

Lemma awake_view k i s l :
  length l = length (ptable s) → (i < length l)%nat →
  ∃ ch, ∀ j, view_at (ptable (awake_effect k i s)) l j = at_slot i (vset_chan ch) j (view_at (ptable s) l j).
Proof.
  intros Hlen Hi.
  assert (ptable (awake_effect k i s) = ptable s ∨
          ptable (awake_effect k i s) = alter (set_chan None) i (ptable s)) as [->| ->]
    by (destruct k; simpl; unfold forkret_effect; try case_decide; destruct s; auto).
  - exists (vchan (view_at (ptable s) l i)). intros j. unfold at_slot. case_decide; [|done].
    subst. by destruct (view_at _ _ i).
  - exists None. intros j. apply view_alter; [lia..|]. by intros [].
Qed.

(** The table [exit] leaves. *)
Lemma exit_view s l i ini p :
  length l = length (ptable s) → ptable s !! i = Some p → initproc s = Some ini →
  let woken := existsb (zombie_child i) (wake_all (ChProc <$> parent p) (ptable (exit_files_effect i p s))) in
  (∀ j, view_at (ptable (exit_zombie_effect i (exit_files_effect i p s))) (set_kont i AtExit l) j =
        vexit i (parent p) ini woken j (view_at (ptable s) l j)) ∧
  ((∃ j, vparent (view_at (ptable s) l j) = Some i ∧ vstate (view_at (ptable s) l j) = ZOMBIE) →
   woken = true).
Proof.
  intros Hlen Hp Hini woken. pose proof (lookup_lt_Some _ _ _ Hp) as Hi.
  unfold exit_files_effect in *. destruct (close_files (ofile p) (ext s)) as [fs e1].
  destruct s as [tab ini0 np fi ti cp lk ex tr]. simpl in *. subst.
  set (tab1 := alter _ i tab) in *.
  assert (∀ j, view_at tab1 l j = view_at tab l j) as Htab1.
  { intros j. unfold tab1. rewrite (view_alter _ _ _ _ id); [|done..|by intros []].
    unfold at_slot. by case_decide. }
  assert (tab1 !! i = Some (set_cwd 0 (set_ofile fs p))) as Hp1
    by (unfold tab1; by rewrite list_lookup_alter_eq, Hp).
  unfold exit_zombie_effect. simpl. rewrite Hp1. simpl.
  replace (parent (set_cwd 0 (set_ofile fs p))) with (parent p) by by destruct p.
  split.
  - intros j. rewrite reparent_eq. fold woken.
    assert (length (wake_all (ChProc <$> parent p) tab1) = length tab) as Hl1
      by (unfold wake_all, tab1; by rewrite length_fmap, length_alter).
    rewrite view_kont by (rewrite length_alter, length_fmap; congruence).
    rewrite (view_alter _ _ _ _ (vset_state ZOMBIE));
      [|rewrite length_fmap; congruence..|by intros []].
    rewrite (view_map _ _ _ (λ v, let v := if decide (vparent v = Some i) then vset_parent (Some ini) v else v in
               if woken then vwake (Some (ChProc ini)) v else v)).
    + unfold wake_all. rewrite (view_map _ _ _ (vwake (ChProc <$> parent p))), Htab1.
      * unfold vexit, at_slot. by repeat case_decide.
      * intros q k. unfold wake, vwake, view_of. destruct q. simpl. by case_decide.
      * done.
    + intros q k. unfold reparent_slot, adopt, is_child. destruct q. simpl.
      case_bool_decide; [rewrite decide_True by done|rewrite decide_False by done];
        destruct woken; try done; unfold wake, vwake, view_of; simpl; by case_decide.
    + simpl. destruct woken; done.
  - intros (j & Hpar & Hz). rewrite <-Htab1 in Hpar, Hz. unfold view_at in Hpar, Hz.
    destruct (tab1 !! j) as [q|] eqn:Hq; [|done]. destruct (l !! j); [|done]. simpl in *.
    unfold woken. apply existsb_exists. exists (wake (ChProc <$> parent p) q). split.
    + apply list_elem_of_In, list_elem_of_lookup. exists j. unfold wake_all.
      by rewrite list_lookup_fmap, Hq.
    + unfold zombie_child, is_child. rewrite wake_parent, !bool_decide_true; [done| |done].
      by apply wake_zombie.
Qed.

(** ** The shape of the state is kept *)

Definition same_shape (s t : kernel) : Prop :=
  length (ptable t) = length (ptable s) ∧ initproc t = initproc s.

Lemma shape_refl s : same_shape s s.
Proof. done. Qed.

Lemma shape_on_slot i f s t : same_shape s t → same_shape s (on_slot i f t).
Proof. intros []. destruct t. split; simpl in *; by rewrite ?length_alter. Qed.

Lemma shape_set_ext e s t : same_shape s t → same_shape s (set_ext e t).
Proof. by destruct t. Qed.

Lemma shape_set_ticks e s t : same_shape s t → same_shape s (set_ticks e t).
Proof. by destruct t. Qed.

Lemma shape_set_nextpid e s t : same_shape s t → same_shape s (set_nextpid e t).
Proof. by destruct t. Qed.

Lemma shape_set_first e s t : same_shape s t → same_shape s (set_first e t).
Proof. by destruct t. Qed.

Lemma shape_on_cpu c f s t : same_shape s t → same_shape s (on_cpu c f t).
Proof. by destruct t. Qed.

Lemma shape_set_ptable v s t :
  length v = length (ptable s) → same_shape s t → same_shape s (set_ptable v t).
Proof. intros ? []. destruct t. by split. Qed.

Lemma shape_back c s t : same_shape s t → same_shape s (back_effect c t).
Proof. intros. by apply shape_on_cpu, shape_set_ext. Qed.

Lemma shape_awake k i s t : same_shape s t → same_shape s (awake_effect k i t).
Proof.
  intros Hs. destruct (awake_fields k i t) as (Hl & _ & Hi & _). destruct Hs.
  split; congruence.
Qed.

Lemma shape_choose c s o s' : choose_effect c s = (o, s') → same_shape s s'.
Proof.
  unfold choose_effect. destruct (random_at_most _ _). case_match; intros; simplify_eq;
    auto using shape_on_slot, shape_set_ext, shape_on_cpu, shape_refl.
Qed.

Lemma shape_wait i p s o s' : wait_effect i p s = Some (o, s') → same_shape s s'.
Proof.
  unfold wait_effect, reap_effect. repeat case_match; intros; simplify_eq;
    auto using shape_on_slot, shape_set_ext, shape_refl.
Qed.

Lemma shape_exit i p s t :
  same_shape s t → same_shape s (exit_zombie_effect i (exit_files_effect i p t)).
Proof.
  intros Hs. unfold exit_files_effect. destruct (close_files _ _) as [fs e1].
  assert (same_shape s (on_slot i (λ q, set_cwd 0 (set_ofile fs q))
    (set_ext (end_op (iput (cwd p) (begin_op e1))) t))) as [Hl Hi]
    by auto using shape_on_slot, shape_set_ext.
  unfold exit_zombie_effect. case_match; [|done]. apply shape_on_slot, shape_set_ptable; [|done].
  rewrite reparent_eq. unfold wake_all. by rewrite !length_fmap.
Qed.

Lemma shape_slot s o s' : slot_effect s = (o, s') → same_shape s s'.
Proof.
  unfold slot_effect. case_match; intros; simplify_eq;
    auto using shape_on_slot, shape_set_nextpid, shape_refl.
Qed.

Lemma shape_stack i s o s' : stack_effect i s = (o, s') → same_shape s s'.
Proof.
  unfold stack_effect. destruct (kalloc _). case_match; intros; simplify_eq;
    auto using shape_on_slot, shape_set_ext, shape_refl.
Qed.

Lemma shape_copy i np pp q s ok s' : copy_effect i np pp q s = (ok, s') → same_shape s s'.
Proof.
  unfold copy_effect. destruct (copyuvm _ _ _). case_match.
  - intros; simplify_eq; auto using shape_on_slot, shape_set_ext, shape_refl.
  - destruct (dup_files _ _ _), (idup _ _).
    intros; simplify_eq; auto using shape_on_slot, shape_set_ext, shape_refl.
Qed.

Lemma shape_kill n s : same_shape s (kill_effect n s).2.
Proof. unfold kill_effect. case_match; simpl; auto using shape_on_slot, shape_refl. Qed.

Lemma same_shape_trans s t u : same_shape s t → same_shape t u → same_shape s u.
Proof. intros [] []. split; congruence. Qed.

Lemma shape_of s l s' l' :
  same_shape s s' → length l' = length l → shape (Sys s l) → shape (Sys s' l').
Proof. intros [Hl Hi] Hk [Hs (ini & Hini & Hlt)]. simpl in *. split; simpl; [congruence|].
  exists ini. split; [congruence|]. by rewrite Hl.
Qed.

Lemma sys_step_shape x x' : shape x → sys_step x x' → shape x'.
Proof.
  intros Hsh Hst. destruct Hst; eapply shape_of; try exact Hsh; rewrite ?set_kont_length; try done;
    unfold sleep_effect, publish_effect;
    eauto using shape_on_slot, shape_set_ext, shape_set_ticks, shape_back, shape_awake,
      shape_choose, shape_exit, shape_slot, shape_stack, shape_kill, shape_refl,
      same_shape_trans, shape_wait, shape_copy.
  - apply shape_set_ptable; [apply length_fmap|done].
Qed.

(** ** Every step of the system is a step of the protocol *)

Section simulation.
Context (s : kernel) (l : list kcont).
Hypothesis Hsh : shape (Sys s l).

Hypothesis Hinv : inv (abs (Sys s l)).

#[local] Notation tab := (ptable s).

Lemma sim_len : length l = length tab.
Proof. apply Hsh. Qed.

Lemma sim_lookup i k : l !! i = Some k → ∃ p, tab !! i = Some p ∧ (i < length tab)%nat.
Proof.
  intros Hk%lookup_lt_Some. rewrite sim_len in Hk.
  destruct (lookup_lt_is_Some_2 tab i Hk) as [p Hp]. eauto.
Qed.

Lemma sim_kont i k : l !! i = Some k → vkont (slot (abs (Sys s l)) i) = k.
Proof.
  intros Hk. simpl. destruct (sim_lookup i k Hk) as (p & Hp & _). by rewrite (view_lookup _ _ _ _ _ Hp Hk).
Qed.

Lemma sim_owned np i : owns (view_at tab l i) np → (np < length tab)%nat.
Proof.
  intros Ho. pose proof (inv_owner _ Hinv i np Ho) as He. unfold abs, slot, view_at in He.
  simpl in He. destruct (ptable s !! np) eqn:Hp; [|done]. by eapply lookup_lt_Some.
Qed.

Lemma sim_dispatch c i s' :
  (c < length (cpus s))%nat → current c s = None → choose_effect c s = (Some i, s') →
  astep (abs (Sys s l)) (abs (Sys s' l)).
Proof.
  intros Hc Hcur Hch. pose proof sim_len as Hlen. unfold choose_effect in Hch.
  destruct (random_at_most _ _) as [w e]. destruct (lottery _ _) as [j|] eqn:Hl; simplify_eq.
  destruct (lottery_runnable _ _ _ Hl) as (p & Hp & Hr).
  pose proof (lookup_lt_Some _ _ _ Hp) as Hi.
  apply (A_dispatch _ _ c i); [done| | | |by destruct s].
  - simpl. unfold view_at. rewrite Hp.
    destruct (lookup_lt_is_Some_2 l i) as [k ->]; [|done]. by rewrite Hlen.
  - split; [|by destruct s]. intros j. simpl. destruct s. simpl in *.
    apply view_alter; [done|done|by intros []].
  - intros c'. simpl. transitivity (current c' (on_cpu c (set_cpu_proc (Some i)) s));
      [by destruct s|by apply current_on_cpu].
Qed.

Lemma sim_resume c i k :
  current c s = Some i → l !! i = Some k → k ∈ [AtForkret; AtYield; AtSleep] →
  astep (abs (Sys s l)) (abs (Sys (awake_effect k i s) (set_kont i InKernel l))).
Proof.
  intros Hcur Hk Hin. destruct (sim_lookup i k Hk) as (p & Hp & Hi).
  destruct (awake_view k i s l sim_len) as [ch Hv]; [by rewrite sim_len|].
  destruct (awake_fields k i s) as (Hlen & Hcpus & Hini & Hn).
  apply (A_resume _ _ c i ch); [done|by rewrite (sim_kont i k Hk)| |intros c'; by apply current_cpus|done].
  split; [|simpl; by rewrite Hini]. intros j. simpl.
  rewrite view_kont, Hv by (rewrite Hlen; done || apply sim_len). unfold at_slot. by case_decide.
Qed.

(** Giving up the processor after [f] has been applied to the own slot. *)
Lemma leave_view c i k f g :
  (i < length tab)%nat → current c s = Some i → (∀ p k, view_of (f p) k = g (view_of p k)) →
  let x' := Sys (back_effect c (on_slot i f s)) (set_kont i k l) in
  after (abs (Sys s l)) (at_slot i (vset_kont k ∘ g)) (abs x') ∧
  cpu_set (abs (Sys s l)) c None (abs x') ∧ anext (abs x') = anext (abs (Sys s l)).
Proof.
  intros Hi Hcur Hfg x'. pose proof (current_lt _ _ _ Hcur) as Hc. pose proof sim_len as Hlen.
  split; [|split].
  - split; [|by destruct s]. intros j. simpl. destruct s. simpl in *.
    rewrite view_kont by by rewrite length_alter. rewrite (view_alter _ _ _ _ g) by done.
    unfold at_slot. by case_decide.
  - intros c'. simpl. rewrite current_back by by destruct s. by destruct s.
  - by destruct s.
Qed.

Lemma sim_yield c i :
  current c s = Some i → l !! i = Some InKernel →
  astep (abs (Sys s l))
    (abs (Sys (back_effect c (on_slot i (set_state RUNNABLE) s)) (set_kont i AtYield l))).
Proof.
  intros Hcur Hk. destruct (sim_lookup i _ Hk) as (p & Hp & Hi).
  destruct (leave_view c i AtYield (set_state RUNNABLE) (vset_state RUNNABLE)) as (? & ? & ?);
    [done..|by intros []|].
  apply (A_yield _ _ c i); try done. by apply sim_kont.
Qed.

Lemma sim_sleep c i ch :
  current c s = Some i → l !! i = Some InKernel →
  astep (abs (Sys s l)) (abs (Sys (back_effect c (sleep_effect i ch s)) (set_kont i AtSleep l))).
Proof.
  intros Hcur Hk. destruct (sim_lookup i _ Hk) as (p & Hp & Hi).
  destruct (leave_view c i AtSleep (λ p, set_state SLEEPING (set_chan ch p))
              (vset_state SLEEPING ∘ vset_chan ch)) as (? & ? & ?);
    [done..|by intros []|].
  apply (A_sleep _ _ c i ch); try done. by apply sim_kont.
Qed.

(** The scan of [wait], on the abstract slots. *)
Lemma wait_effect_cases i k p r :
  (i < length tab)%nat → ptable (awake_effect k i s) !! i = Some p →
  wait_effect i p (awake_effect k i s) = r →
  match r with
  | Some (Some z, s') => ∃ q, ptable (awake_effect k i s) !! z = Some q ∧ z ≠ i ∧
      s' = reap_effect z q (awake_effect k i s) ∧
      vparent (view_at tab l z) = Some i ∧ vstate (view_at tab l z) = ZOMBIE
  | Some (None, s') => s' = awake_effect k i s
  | None => ∀ j, vparent (view_at tab l j) = Some i → vstate (view_at tab l j) ≠ ZOMBIE
  end.
Proof.
  intros Hi Hp Hw. pose proof (inv_noself _ Hinv i) as Hself.
  destruct (awake_view k i s l sim_len) as [ch Hv]; [by rewrite sim_len|].
  destruct (awake_fields k i s) as (Hlen & _). pose proof sim_len as Hll.
  assert (∀ j q, ptable (awake_effect k i s) !! j = Some q →
            parent q = vparent (view_at tab l j) ∧ state q = vstate (view_at tab l j)) as Hq.
  { intros j q Hq. pose proof (lookup_lt_Some _ _ _ Hq) as Hj. rewrite Hlen, <-Hll in Hj.
    destruct (lookup_lt_is_Some_2 l j Hj) as [k' Hk']. specialize (Hv j).
    rewrite (view_lookup _ _ _ _ _ Hq Hk') in Hv. unfold at_slot in Hv.
    unfold view_of, vset_chan in Hv. case_decide; destruct (view_at _ _ j); simpl in *; by simplify_eq. }
  unfold wait_effect in Hw. rewrite wait_scan_eq in Hw.
  destruct (list_find _ _) as [[z q]|] eqn:Hf.
  - apply list_find_Some in Hf as (Hz & Hzc & _). change (0 + z)%nat with z in Hw. rewrite Hz in Hw.
    subst r. exists q. destruct (Hq z q Hz) as [Ep Es]. unfold zombie_child, is_child in Hzc.
    apply andb_prop_elim in Hzc as [E1%bool_decide_unpack E2%bool_decide_unpack].
    rewrite E1 in Ep. rewrite E2 in Es. repeat split; try done.
    intros ->. by apply Hself.
  - apply list_find_None in Hf. destruct (negb _ || _); [by subst|]. subst. intros j Hpar Hz.
    destruct (ptable (awake_effect k i s) !! j) as [q|] eqn:Hj.
    + destruct (Hq j q Hj) as [Ep Es]. rewrite Forall_lookup in Hf. apply (Hf j q Hj).
      unfold zombie_child, is_child. by rewrite !bool_decide_true by congruence.
    + apply lookup_ge_None in Hj. rewrite Hlen in Hj. unfold view_at in Hpar.
      by rewrite (lookup_ge_None_2 tab j Hj) in Hpar.
Qed.

Lemma sim_wait_reap c i k p z s' :
  current c s = Some i → l !! i = Some k → k ∈ [InKernel; AtWait] →
  ptable (awake_effect k i s) !! i = Some p →
  wait_effect i p (awake_effect k i s) = Some (Some z, s') →
  astep (abs (Sys s l)) (abs (Sys s' (set_kont z NoThread (set_kont i InKernel l)))).
Proof.
  intros Hcur Hk Hin Hp Hw. destruct (sim_lookup i k Hk) as (_ & _ & Hi).
  destruct (wait_effect_cases i k p _ Hi Hp Hw) as (q & Hz & Hne & -> & Hpar & Hzo).
  destruct (awake_view k i s l sim_len) as [ch Hv]; [by rewrite sim_len|].
  destruct (awake_fields k i s) as (Hlen & Hcpus & Hini & Hn). pose proof sim_len as Hll.
  assert (z < length tab)%nat as Hzl by (rewrite <-Hlen; by eapply lookup_lt_Some).
  apply (A_wait_reap _ _ c i z ch); try done.
  - by rewrite (sim_kont i k Hk).
  - clear Hw Hp Hz. destruct (awake_effect k i s) as [tb ? ? ? ? ? ? ? ?]. simpl in *.
    split; [|by subst]. intros j. simpl.
    rewrite !view_kont by (rewrite ?set_kont_length, length_alter; congruence).
    rewrite (view_alter _ _ _ _ (λ v, View UNUSED None (vchan v) 0 (vkont v))), Hv by
      (congruence || by intros []).
    unfold at_slot. by repeat case_decide; simplify_eq.
  - intros c'. unfold reap_effect. simpl. rewrite <-(current_cpus c' _ _ Hcpus).
    by destruct (awake_effect k i s).
  - transitivity (nextpid (awake_effect k i s)); [by destruct (awake_effect k i s)|done].
Qed.

Lemma sim_wait_none c i k p s' :
  current c s = Some i → l !! i = Some k → k ∈ [InKernel; AtWait] →
  ptable (awake_effect k i s) !! i = Some p →
  wait_effect i p (awake_effect k i s) = Some (None, s') →
  astep (abs (Sys s l)) (abs (Sys s' (set_kont i InKernel l))).
Proof.
  intros Hcur Hk Hin Hp Hw. destruct (sim_lookup i k Hk) as (_ & _ & Hi).
  pose proof (wait_effect_cases i k p _ Hi Hp Hw) as Hs'. simpl in Hs'. subst.
  destruct (awake_view k i s l sim_len) as [ch Hv]; [by rewrite sim_len|].
  destruct (awake_fields k i s) as (Hlen & Hcpus & Hini & Hn).
  apply (A_wait_none _ _ c i ch); [done|by rewrite (sim_kont i k Hk)| |intros c'; by apply current_cpus|done].
  split; [|simpl; by rewrite Hini]. intros j. simpl.
  rewrite view_kont, Hv by (rewrite Hlen; done || apply sim_len). unfold at_slot. by case_decide.
Qed.

Lemma sim_wait_sleep c i k p :
  current c s = Some i → l !! i = Some k → k ∈ [InKernel; AtWait] →
  ptable (awake_effect k i s) !! i = Some p →
  wait_effect i p (awake_effect k i s) = None →
  astep (abs (Sys s l))
    (abs (Sys (back_effect c (sleep_effect i (Some (ChProc i)) (awake_effect k i s)))
              (set_kont i AtWait l))).
Proof.
  intros Hcur Hk Hin Hp Hw. destruct (sim_lookup i k Hk) as (_ & _ & Hi).
  pose proof (wait_effect_cases i k p _ Hi Hp Hw) as Hz. simpl in Hz.
  destruct (awake_view k i s l sim_len) as [ch Hv]; [by rewrite sim_len|].
  destruct (awake_fields k i s) as (Hlen & Hcpus & Hini & Hn). pose proof sim_len as Hll.
  pose proof (current_lt _ _ _ Hcur) as Hc.
  apply (A_wait_sleep _ _ c i); [done|by rewrite (sim_kont i k Hk)|done| | |].
  - clear Hw Hp. destruct (awake_effect k i s) as [tb ? ? ? ? ? ? ? ?]. simpl in *.
    split; [|by subst]. intros j. simpl.
    rewrite !view_kont by (rewrite ?set_kont_length, length_alter; congruence).
    rewrite (view_alter _ _ _ _ (vset_state SLEEPING ∘ vset_chan (Some (ChProc i)))), Hv by
      (congruence || by intros []).
    unfold at_slot. by repeat case_decide; simplify_eq.
  - intros c'. simpl. rewrite current_back.
    + rewrite <-(current_cpus c' _ _ Hcpus). by destruct (awake_effect k i s).
    + unfold sleep_effect. destruct (on_slot_fields i (λ p, set_state SLEEPING (set_chan (Some (ChProc i)) p)) (awake_effect k i s)) as (_ & -> & _). by rewrite Hcpus.
  - transitivity (nextpid (awake_effect k i s)); [by destruct (awake_effect k i s)|done].
Qed.

Lemma sim_exit c i p :
  current c s = Some i → l !! i = Some InKernel → initproc s ≠ Some i → tab !! i = Some p →
  astep (abs (Sys s l))
    (abs (Sys (back_effect c (exit_zombie_effect i (exit_files_effect i p s)))
              (set_kont i AtExit l))).
Proof.
  intros Hcur Hk Hni Hp. destruct Hsh as [Hlen (ini & Hini & Hlt)]. simpl in *.
  pose proof (current_lt _ _ _ Hcur) as Hc.
  destruct (exit_view s l i ini p Hlen Hp Hini) as [Hv Hz].
  set (s1 := exit_zombie_effect i (exit_files_effect i p s)) in *.
  assert (cpus s1 = cpus s ∧ initproc s1 = initproc s ∧ nextpid s1 = nextpid s) as (Hcp & Hi1 & Hn1).
  { unfold s1, exit_zombie_effect, exit_files_effect. destruct (close_files _ _), s. simpl.
    by case_match. }
  destruct (back_fields c s1) as (Hb1 & Hb2 & Hb3).
  apply (A_exit _ _ c i (existsb (zombie_child i)
    (wake_all (ChProc <$> parent p) (ptable (exit_files_effect i p s))))).
  - done.
  - by apply sim_kont.
  - simpl. rewrite Hini. simpl. naive_solver.
  - done.
  - split; simpl; [|by rewrite Hb2, Hi1]. intros j. rewrite Hb1, Hv, Hini. simpl.
    by rewrite (view_lookup tab l i p InKernel).
  - intros c'. simpl. rewrite current_back by by rewrite Hcp.
    by rewrite (current_cpus c' _ _ Hcp).
  - simpl. by rewrite Hb3.
Qed.

Lemma sim_private s' l' :
  (∀ j, view_at (ptable s') l' j = view_at tab l j) → cpus s' = cpus s →
  initproc s' = initproc s → nextpid s' = nextpid s →
  astep (abs (Sys s l)) (abs (Sys s' l')).
Proof.
  intros Hv Hcp Hi Hn. apply A_private; [|intros c; by apply current_cpus|done].
  split; [done|]. simpl. by rewrite Hi.
Qed.

Lemma sim_on_slot i f :
  (i < length tab)%nat → (∀ p k, view_of (f p) k = view_of p k) →
  ∀ j, view_at (alter f i tab) l j = view_at tab l j.
Proof.
  intros Hi Hf j. rewrite (view_alter _ _ _ _ id); [|apply sim_len|done|done].
  unfold at_slot. by case_decide.
Qed.

Lemma sim_idle c s' : choose_effect c s = (None, s') → astep (abs (Sys s l)) (abs (Sys s' l)).
Proof.
  unfold choose_effect. destruct (random_at_most _ _). case_match; intros ?; simplify_eq.
  by apply sim_private; destruct s.
Qed.

Lemma sim_fork_slot c i np s' :
  current c s = Some i → l !! i = Some InKernel → slot_effect s = (Some np, s') →
  astep (abs (Sys s l)) (abs (Sys s' (set_kont i (Forking np) l))).
Proof.
  intros Hcur Hk Hs. destruct (sim_lookup i _ Hk) as (_ & _ & Hi). pose proof sim_len as Hll.
  unfold slot_effect in Hs. destruct (find_unused _) as [z|] eqn:Hf; simplify_eq.
  apply find_unused_spec in Hf as [(q & Hq & Hu) _]. pose proof (lookup_lt_Some _ _ _ Hq) as Hnp.
  assert (vkont (slot (abs (Sys s l)) i) = InKernel) as Hki by by apply sim_kont.
  apply (A_fork_slot _ _ c i np); try done.
  - simpl. unfold view_at. rewrite Hq. destruct (lookup_lt_is_Some_2 l np) as [k ->]; [lia|done].
  - split; [|by destruct s]. intros j. pose proof (inv_kont _ Hinv i) as Hkk.
    assert (vstate (view_at tab l np) = UNUSED) as Hun.
    { unfold view_at. rewrite Hq. destruct (lookup_lt_is_Some_2 l np) as [k ->]; [lia|done]. }
    assert (i ≠ np) as Hne. { intros ->. rewrite Hki in Hkk. simpl in Hkk. congruence. }
    clear Hinv Hsh Hki Hkk. simpl. destruct s as [tb ? n ? ? ? ? ? ?]. simpl in *.
    rewrite view_kont by by rewrite length_alter.
    rewrite (view_alter _ _ _ _ (λ v, vset_pid n (vset_state EMBRYO v))) by (done || by intros []).
    unfold at_slot. by repeat case_decide; simplify_eq.
  - intros c'. by destruct s.
  - by destruct s.
Qed.

(** The slot of the child under construction is not the parent's own. *)
Lemma sim_child i np :
  l !! i = Some (Forking np) ∨ l !! i = Some (Copied np) →
  owns (slot (abs (Sys s l)) i) np ∧ (i < length tab)%nat ∧ (np < length tab)%nat ∧ i ≠ np.
Proof.
  intros Hk.
  assert (owns (slot (abs (Sys s l)) i) np) as Ho.
  { destruct Hk as [Hk|Hk]; [left|right]; by apply sim_kont. }
  split; [done|]. split; [destruct Hk as [Hk|Hk]; by destruct (sim_lookup i _ Hk) as (_ & _ & ?)|].
  split; [by apply (sim_owned np i)|]. intros ->.
  pose proof (inv_owner _ Hinv np np Ho) as He. pose proof (owner_running _ Hinv np np Ho). congruence.
Qed.

Lemma sim_fork_fail c i np f e :
  current c s = Some i → l !! i = Some (Forking np) →
  (∀ p k, view_of (f p) k = vset_state UNUSED (view_of p k)) →
  astep (abs (Sys s l)) (abs (Sys (on_slot np f (set_ext e s)) (set_kont i InKernel l))).
Proof.
  intros Hcur Hk Hf. destruct (sim_child i np) as (Ho & Hi & Hnp & Hne); [by left|].
  pose proof sim_len as Hll.
  apply (A_fork_fail _ _ c i np); [done|by apply sim_kont| |intros c'; by destruct s|by destruct s].
  split; [|by destruct s]. intros j. clear Ho Hinv Hsh. destruct s as [tb ? n ? ? ? ? ? ?]. simpl in *.
  rewrite view_kont by by rewrite length_alter. rewrite (view_alter _ _ _ _ (vset_state UNUSED)) by done.
  unfold at_slot. by repeat case_decide; simplify_eq.
Qed.

Lemma sim_fork_publish c i np :
  current c s = Some i → l !! i = Some (Copied np) →
  astep (abs (Sys s l))
    (abs (Sys (publish_effect np s) (set_kont np AtForkret (set_kont i InKernel l)))).
Proof.
  intros Hcur Hk. destruct (sim_child i np) as (Ho & Hi & Hnp & Hne); [by right|].
  pose proof sim_len as Hll.
  apply (A_fork_publish _ _ c i np); [done|by apply sim_kont| |intros c'; by destruct s|by destruct s].
  split; [|by destruct s]. intros j. clear Ho Hinv Hsh. destruct s as [tb ? n ? ? ? ? ? ?]. simpl in *.
  rewrite !view_kont by by rewrite ?set_kont_length, length_alter.
  rewrite (view_alter _ _ _ _ (vset_state RUNNABLE)) by (done || by intros []).
  unfold at_slot. by repeat case_decide; simplify_eq.
Qed.

Lemma sim_wakeup ch : astep (abs (Sys s l)) (abs (Sys (set_ptable (wake_all ch tab) s) l)).
Proof.
  apply (A_wakeup _ _ ch); [|intros c'; by destruct s|by destruct s].
  split; [|by destruct s]. intros j. simpl. clear Hinv Hsh. destruct s. simpl.
  apply view_map; [|done]. intros q k. unfold wake, vwake, view_of. destruct q. simpl. by case_decide.
Qed.

Lemma sim_kill n : astep (abs (Sys s l)) (abs (Sys (kill_effect n s).2 l)).
Proof.
  unfold kill_effect. destruct (find_pid n tab) as [i|] eqn:Hf; simpl; [|by apply sim_private].
  apply find_pid_spec in Hf as [(p & Hp & _) _]. pose proof (lookup_lt_Some _ _ _ Hp) as Hi.
  pose proof sim_len as Hll.
  apply (A_kill _ _ i); [|intros c'; by destruct s|by destruct s].
  split; [|by destruct s]. intros j. simpl. clear Hinv Hsh Hp. destruct s. simpl in *.
  apply view_alter; [done..|]. intros q k. unfold kill_proc, vkill, view_of. destruct q. simpl.
  by case_decide.
Qed.

Lemma slot_twice np f g e e' :
  on_slot np f (set_ext e' (on_slot np g (set_ext e s))) = on_slot np (f ∘ g) (set_ext e' s).
Proof. clear Hsh Hinv. destruct s. unfold on_slot. simpl. by rewrite list_alter_alter_eq. Qed.

Lemma sim_fork_copy c i np pp q s1 s2 ok :
  current c s = Some i → l !! i = Some (Forking np) → stack_effect np s = (Some np, s1) →
  copy_effect i np pp q s1 = (ok, s2) →
  astep (abs (Sys s l)) (abs (Sys s2 (set_kont i (if ok : bool then Copied np else InKernel) l))).
Proof.
  intros Hcur Hk Hst Hcp. unfold stack_effect in Hst. destruct (kalloc _) as [kst e].
  case_decide; simplify_eq. unfold copy_effect in Hcp. destruct (copyuvm _ _ _) as [pg e1].
  case_decide; simplify_eq.
  - rewrite slot_twice. apply (sim_fork_fail c i np); [done..|]. by intros [].
  - destruct (dup_files _ _ _) as [fs e2], (idup _ _) as [cw e3]. simplify_eq. rewrite slot_twice.
    destruct (sim_child i np) as (Ho & Hi & Hnp & Hne); [by left|].
    pose proof sim_len as Hll.
    apply (A_fork_copy _ _ c i np);
      [done|by apply sim_kont| |intros c'; by destruct s|by destruct s].
    split; [|by destruct s]. intros j. clear Ho Hinv Hsh. destruct s as [tb ? n ? ? ? ? ? ?].
    simpl in *. rewrite view_kont by by rewrite length_alter.
    rewrite (view_alter _ _ _ _ (vset_parent (Some i))) by (done || by intros []).
    unfold at_slot. by repeat case_decide; simplify_eq.
Qed.

(** A field the protocol does not look at. *)
Lemma sim_unseen i k f e :
  l !! i = Some k → (∀ p k, view_of (f p) k = view_of p k) →
  astep (abs (Sys s l)) (abs (Sys (on_slot i f (set_ext e s)) l)).
Proof.
  intros Hk Hf. destruct (sim_lookup i _ Hk) as (_ & _ & Hi).
  apply sim_private; try by destruct s. intros j. transitivity (view_at (alter f i (ptable s)) l j);
    [by destruct s|]. by apply sim_on_slot.
Qed.

End simulation.

Lemma sys_step_sim x x' : shape x → inv (abs x) → sys_step x x' → astep (abs x) (abs x').
Proof.
  intros Hsh Hinv Hst. destruct Hst;
    eauto using sim_dispatch, sim_idle, sim_resume, sim_yield, sim_sleep, sim_wait_reap,
      sim_wait_none, sim_wait_sleep, sim_exit, sim_fork_slot, sim_fork_copy, sim_fork_publish,
      sim_wakeup, sim_kill.
  - unfold stack_effect in *. destruct (kalloc _). case_decide; simplify_eq.
    eapply sim_fork_fail; [done..|]. by intros [].
  - replace s with (set_ext (ext s) s) at 2 by by destruct s. eapply sim_unseen; [done..|]. by intros [].
  - replace s with (set_ext (ext s) s) at 2 by by destruct s. eapply sim_unseen; [done..|]. by intros [].
  - eapply sim_unseen; [done..|]. by intros [].
  - apply sim_private; by destruct s.
Qed.

(** ** What holds in every reachable state *)

Lemma booted_shape x : booted x → shape x.
Proof. intros (ini & Hini & _ & Hl & Hlt & _). split; [done|]. eauto. Qed.

Lemma booted_abs x : booted x → aboot (abs x).
Proof.
  intros (ini & Hini & Hn & Hl & Hlt & Hc & Hs). split; [done|]. split; [done|].
  intros j. simpl. rewrite Hini. simpl. unfold view_at.
  destruct (ptable (ks x) !! j) as [p|] eqn:Hp.
  - destruct (lookup_lt_is_Some_2 (konts x) j) as [k Hk].
    { rewrite Hl. by eapply lookup_lt_Some. }
    rewrite Hk. destruct (Hs j p k Hp Hk) as [Hpar Hst]. case_decide; naive_solver.
  - case_decide; [|done]. subst. apply lookup_ge_None in Hp. lia.
Qed.

Lemma reachable_simulation n x :
  reachable_in booted sys_step n x → shape x ∧ reachable_in aboot astep n (abs x).
Proof.
  intros (x0 & Hb & Hn).
  destruct (nsteps_preserves sys_step (λ m y, shape y ∧ nsteps astep m (abs x0) (abs y)))
    with (n := n) (k := 0%nat) (s := x0) (s' := x) as [Hs Ha]; [| |done|].
  - intros m y y' [Hsh Ha] Hst. split; [by eapply sys_step_shape|].
    eapply nsteps_r; [done|]. apply sys_step_sim; [done| |done].
    apply areachable_inv, (reachable_in_reachable _ _ m). exists (abs x0).
    split; [by apply booted_abs|done].
  - split; [by apply booted_shape|constructor].
  - split; [done|]. exists (abs x0). split; [by apply booted_abs|done].
Qed.

Lemma system_inv x : reachable booted sys_step x → inv (abs x).
Proof.
  intros (x0 & Hb & Hs). apply rtc_nsteps in Hs as [n Hn].
  destruct (reachable_simulation n x) as [_ Ha]; [by exists x0|].
  apply areachable_inv. by eapply reachable_in_reachable.
Qed.

Lemma system_shape x : reachable booted sys_step x → shape x.
Proof.
  intros (x0 & Hb & Hs). apply rtc_nsteps in Hs as [n Hn].
  by destruct (reachable_simulation n x) as [? _]; [by exists x0|].
Qed.

(** Reading a slot of a reachable state. *)
Lemma system_slot x i p :
  reachable booted sys_step x → ptable (ks x) !! i = Some p →
  ∃ k, konts x !! i = Some k ∧ slot (abs x) i = view_of p k.
Proof.
  intros [Hl _]%system_shape Hp.
  destruct (lookup_lt_is_Some_2 (konts x) i) as [k Hk]; [rewrite Hl; by eapply lookup_lt_Some|].
  exists k. split; [done|]. by apply view_lookup.
Qed.

End system.
