(* ===== verification/KernelInstance.v ===== *)
(** A concrete kernel around hw3/proc.c - a page allocator that counts, a
    cyclic generator, test-and-set locks held by processors - for the theorems
    to be applied to: the hypotheses on the parts that are not in the
    repository hold together. *)

From S2P Require Import Prelude KernelEnv Proc Locking ProcSpec Lottery Handover Protocol.
From S2P Require Import System.

(** ** The parts outside the repository *)

(** Copies up to [n - 1] bytes of a string and terminates it. *)
Fixpoint copy_string (src : list Z) (n : nat) : list Z :=
  match n, src with
  | O, _ => []
  | S O, _ => [0]
  | S n', [] => [0]
  | S n', b :: src' => if decide (b = 0) then [0] else b :: copy_string src' n'
  end.

(** The external state is the number of pages handed out so far. *)
Definition page_at (e : Z) : Z * Z := if decide (e < 8) then (4096 * (e + 1), e + 1) else (0, e).

#[export] Instance toy_kernel : KernelEnv := {|
  NPROC := 4; NOFILE := 2; KSTACKSIZE := 4096; PGSIZE := 4096; sizeof_trapframe := 76;
  SEG_UCODE := 3; SEG_UDATA := 4; DPL_USER := 3; FL_IF := 512; ROOTDEV := 1; sizeof_rtcdate := 24;
  forkret_addr := 1048576; trapret_addr := 1048592; initcode_start := 1052672; initcode_size := 44;
  kext := Z;
  kalloc := page_at;
  kfree := λ _ e, e;
  page_tf := λ _ _, tf_zero;
  setupkvm := page_at;
  inituvm := λ _ _ _ e, e;
  allocuvm := λ _ _ new e, (new, e);
  deallocuvm := λ _ _ new e, (new, e);
  copyuvm := λ _ _ e, page_at e;
  freevm := λ _ e, e;
  switchuvm := λ _ e, e;
  switchkvm := λ e, e;
  filedup := λ f e, (f, e);
  fileclose := λ _ e, e;
  idup := λ i e, (i, e);
  iput := λ _ e, e;
  namei := λ _ e, (7, e);
  begin_op := λ e, e;
  end_op := λ e, e;
  iinit := λ _ e, e;
  initlog := λ _ e, e;
  unixtime := λ e, e;
  sgenrand := λ _ e, e;
  random_at_most := λ n e, (e mod (n + 1), e + 1);
  safestrcpy := λ dst src n, copy_string src (Z.to_nat n) ++ drop (length (copy_string src (Z.to_nat n))) dst;
  getcallerpcs := λ _ _, [];
  uload32 := λ _ a _, a;
  uload8 := λ _ a _, if decide (a mod 8 = 7) then 0 else 65;
  cmostime := λ _ _ e, e
|}.

#[export] Instance toy_random : RandomLaw.
Proof.
  split. intros n e Hn. simpl. pose proof (Z.mod_pos_bound e (n + 1)). lia.
Qed.

(** The lock words: who holds what. *)
Definition held (c : nat) (l : lockid) (L : list (nat * lockid)) : bool := bool_decide ((c, l) ∈ L).

#[export] Instance toy_spinlock : Spinlock := {|
  lkst := list (nat * lockid);
  lk_init := λ l L, filter (λ e, e.2 ≠ l) L;
  lk_acquire := λ c l L k,
    if decide (Forall (λ e, e.2 ≠ l) L) then
      let k' := Cpu (cpu_proc k) (ncli k + 1)
                  (if decide (ncli k = 0) then (if eflags_if k then 1 else 0) else intena k) false in
      Some ((c, l) :: L, k')
    else None;
  lk_release := λ c l L k,
    if decide ((c, l) ∈ L) then
      if decide (eflags_if k = false ∧ 1 ≤ ncli k) then
        Some (filter (λ e, e ≠ (c, l)) L,
              Cpu (cpu_proc k) (ncli k - 1) (intena k) (bool_decide (ncli k = 1 ∧ intena k ≠ 0)))
      else None
    else None;
  holding := held
|}.

#[export] Instance toy_spinlock_laws : SpinlockLaws.
Proof.
  split; simpl; unfold held.
  - intros c l L. apply bool_decide_false. rewrite list_elem_of_filter. naive_solver.
  - intros c l L k Hfree Hn. rewrite decide_True.
    + eexists _, _. split; [done|]. simpl. repeat split.
      * apply bool_decide_true. by left.
      * intros c' l' Hne. apply bool_decide_ext. rewrite elem_of_cons. naive_solver.
    + apply list.Forall_forall. intros [c' l'] Hin. simpl. intros ->.
      specialize (Hfree c'). by rewrite bool_decide_true in Hfree.
  - intros c c' l L k Hh%bool_decide_eq_true. rewrite decide_False; [done|].
    intros Hall. rewrite list.Forall_forall in Hall. by apply (Hall (c', l)).
  - intros c l L k Hh%bool_decide_eq_true Hn Hif. rewrite !decide_True by done.
    eexists _, _. split; [done|]. simpl. do 4 (split; [done|]). split.
    + intros c'. apply eq_bool_prop_intro. rewrite andb_True, negb_True, !bool_decide_spec.
      rewrite list_elem_of_filter. naive_solver.
    + intros c' l' Hne. apply bool_decide_ext. rewrite list_elem_of_filter. naive_solver.
Qed.

(** ** Processes and kernel states to start from *)

Definition blank : proc :=
  Proc 0 0 0 UNUSED 0 None 0 tf_zero 0 (Context 0 0 0 0 0) 0 None 0 [0; 0] 0
       (replicate 16 0) 0.

Definition a_proc (st : procstate) (n tix : Z) (par : option nat) : proc :=
  set_state st (set_pid n (set_tickets tix (set_parent par blank))).

Definition free_cpu : cpu := Cpu None 0 0 true.

Definition busy_cpu (i : nat) : cpu := Cpu (Some i) 0 0 true.

Definition kernel_of (tab : list proc) (cs : list cpu) : kernel :=
  {| ptable := tab; initproc := Some 0%nat; nextpid := 9; first := 0; ticks := 5; cpus := cs;
     locks := []; ext := 0; trace := [] |}.

(** As the loader leaves it. *)
Definition power_on : kernel :=
  {| ptable := replicate 4 blank; initproc := None; nextpid := 1; first := 1; ticks := 0;
     cpus := [free_cpu; free_cpu]; locks := []; ext := 0; trace := [] |}.

Lemma can_lock_kernel_of c tab cs k :
  cs !! c = Some k → cpu_ok k → can_lock c PtableLock (kernel_of tab cs).
Proof. intros Hk Hok. split; [done|]. by exists k. Qed.

Lemma free_cpu_ok : cpu_ok free_cpu.
Proof. split; simpl; [lia|done]. Qed.

Lemma busy_cpu_ok i : cpu_ok (busy_cpu i).
Proof. split; simpl; [lia|done]. Qed.

(** ** The lottery at work *)

Definition lottery_table : list proc :=
  [a_proc SLEEPING 1 9 None; a_proc RUNNABLE 2 3 (Some 0%nat); a_proc RUNNABLE 3 5 (Some 0%nat);
   a_proc RUNNABLE 4 0 (Some 0%nat)].

Lemma lottery_table_fair : fair_table lottery_table.
Proof. split; [|by vm_compute]. by repeat constructor. Qed.

Lemma lottery_fair_witness :
  Z.of_nat (length (winning_draws lottery_table 1)) = 4 ∧
  Z.of_nat (length (winning_draws lottery_table 2)) = 5.
Proof.
  split.
  - destruct (lottery_fair lottery_table 1 _ lottery_table_fair eq_refl eq_refl) as (_ & _ & Hn).
    exact Hn.
  - destruct (lottery_fair lottery_table 2 _ lottery_table_fair eq_refl eq_refl) as (_ & _ & Hn).
    exact Hn.
Defined.

Lemma lottery_serves_witness :
  (∃ j p, lottery 4 lottery_table = Some j ∧ lottery_table !! j = Some p ∧ state p = RUNNABLE) ∧
  lottery 4 lottery_table ≠ Some 3%nat.
Proof.
  assert (Exists (λ p, state p = RUNNABLE) lottery_table) as Hex.
  { right. by left. }
  assert (0 ≤ 4 ≤ num_tickets lottery_table) as Hw by (vm_compute; split; discriminate).
  destruct (lottery_serves lottery_table 4 lottery_table_fair Hex Hw) as [Hj Hz].
  split; [exact Hj|]. eapply Hz; [reflexivity|reflexivity|].
  right. by left.
Defined.
