(* ===== verification/KernelProps.v ===== *)
(** What the functions of hw3/proc.c promise to their callers, on every branch:
    wakeup, kill, allocproc and fork. Each theorem speaks of the function as it
    is written in Proc.v and is followed by an application to the kernel of
    KernelInstance.v. *)

From Stdlib Require Import String.
From S2P Require Import Prelude KernelEnv Proc Locking ProcSpec Lottery Handover Protocol.
From S2P Require Import System KernelInstance.

Section properties.
Context `{KernelEnv} `{SpinlockLaws}.

(** The process running on processor [c], able to take the table lock. *)
Definition runs_proc (c cur : nat) (p : proc) (s : kernel) : Prop :=
  can_lock c PtableLock s ∧ current c s = Some cur ∧ ptable s !! cur = Some p ∧
  state p = RUNNING.

(** A failed allocation leaves at most the assignments to a slot that was
    unused and still is. *)
Definition spare_slots (tab tab' : list proc) : Prop :=
  ∀ i, tab' !! i = tab !! i ∨
       ∃ p p', tab !! i = Some p ∧ state p = UNUSED ∧ tab' !! i = Some p' ∧ state p' = UNUSED.

(** The child of [pp] in a slot whose old contents are [q0]. *)
Definition child_of (cur : nat) (pp q0 q : proc) (n : Z) : Prop :=
  state q = RUNNABLE ∧ pid q = n ∧ parent q = Some cur ∧ tickets q = MAGIC_TICKET_NUM ∧
  sz q = sz pp ∧ tf_eax (tf q) = 0 ∧ tf_eip (tf q) = tf_eip (tf pp) ∧
  tf_esp (tf q) = tf_esp (tf pp) ∧ eip (ctx q) = u32 forkret_addr ∧ kret q = u32 trapret_addr ∧
  pgdir q ≠ 0 ∧ kstack q ≠ 0 ∧ killed q = killed q0 ∧ chan q = chan q0.

Lemma spare_refl tab : spare_slots tab tab.
Proof. by left. Qed.

Lemma spare_insert tab np q q' :
  tab !! np = Some q → state q = UNUSED → state q' = UNUSED → spare_slots tab (<[np:=q']> tab).
Proof.
  intros Hq Hu Hu' i. destruct (decide (np = i)) as [->|Hne].
  - right. exists q, q'. repeat split; try done. apply list_lookup_insert_eq. by eapply lookup_lt_Some.
  - left. by rewrite list_lookup_insert_ne.
Qed.

Lemma fork_effect_cases cur pp s :
  ptable s !! cur = Some pp → state pp ≠ UNUSED →
  let '(r, s') := fork_effect cur s in
  frame s s' ∧
  (r = -1 ∧ spare_slots (ptable s) (ptable s') ∨
   ∃ np q0 q, find_unused (ptable s) = Some np ∧ ptable s !! np = Some q0 ∧ r = nextpid s ∧
     nextpid s' = i32 (nextpid s + 1) ∧ ptable s' = <[np := q]> (ptable s) ∧
     child_of cur pp q0 q (nextpid s)).
Proof.
  intros Hpp Hu. pose proof (alloc_effect_frame s) as Hfr. unfold fork_effect.
  destruct (alloc_effect s) as [[np|] s1] eqn:He; simpl in Hfr.
  2: { split; [done|]. left. split; [done|].
       apply alloc_effect_None in He as [(_ & -> & _)|(np & q & Hf & Hq & _ & _ & ->)];
         [apply spare_refl|].
       apply find_unused_spec in Hf as [(q' & Hq' & Hun) _]. simplify_eq.
       eapply spare_insert; [done|done|by match goal with |- state (drop_slot (take_slot _ ?x)) = _ => destruct x end]. }
  apply alloc_effect_Some in He as (q0 & ks & e & Hf & Hq0 & Hq0u & _ & Hks & _ & _ & Hn & Htab).
  assert (np ≠ cur) as Hne by congruence. pose proof (lookup_lt_Some _ _ _ Hq0) as Hlt.
  assert (ptable s1 !! cur = Some pp) as -> by by rewrite Htab, list_lookup_insert_ne.
  assert (ptable s1 !! np = Some (lay_stack ks e (take_slot (nextpid s) q0))) as Hq1
    by by rewrite Htab, list_lookup_insert_eq.
  rewrite Hq1. pose proof (copy_effect_frame cur np pp
    (lay_stack ks e (take_slot (nextpid s) q0)) s1) as Hfr2.
  unfold copy_effect in *. destruct (copyuvm _ _ _) as [pg e1]. case_decide as Hpg.
  - simpl in Hfr2. split; [destruct Hfr, Hfr2; split; congruence|]. left. split; [done|].
    rewrite (proj1 (on_slot_fields _ _ _)).
    replace (ptable (set_ext _ s1)) with (ptable s1) by by destruct s1.
    rewrite (list_alter_insert _ _ _ _ Hq1), Htab, list_insert_insert_eq.
    apply (spare_insert _ _ q0); [done..|by destruct q0].
  - destruct (dup_files _ _ _) as [fs e2], (idup _ _) as [cw e3]. simpl in Hfr2.
    split; [destruct Hfr, Hfr2, s1; split; simpl in *; congruence|]. right.
    eexists np, q0, _. split; [done|]. split; [done|]. split; [by destruct q0|].
    split; [by destruct s1|]. split.
    + destruct s1. simpl in *. rewrite list_alter_alter_eq.
      rewrite (list_alter_insert _ _ _ _ Hq1). rewrite Htab at 1. by rewrite list_insert_insert_eq.
    + unfold child_of. destruct q0, pp. simpl. by repeat split.
Qed.

Lemma runs_facts {A} c (m : K A) s a t :
  runs m s a t → frame s t → can_lock c PtableLock s →
  ∃ s', m s = Ok a s' ∧ lock_free PtableLock s' ∧ ptable s' = ptable t ∧
        nextpid s' = nextpid t ∧ can_lock c PtableLock s' ∧ (∀ c', current c' s' = current c' s).
Proof.
  intros (s' & Hm & Heq) Hfr Hc. pose proof (can_lock_frame _ _ _ _ Hfr Hc) as Hct.
  exists s'. split; [done|]. split; [rewrite Heq; apply Hct|].
  split; [by rewrite Heq|]. split; [by rewrite Heq|]. split; [by rewrite Heq|].
  intros c'. rewrite Heq. by apply current_frame.
Qed.

(** ** wakeup and kill *)

(** [wakeup] makes runnable exactly the processes sleeping on the channel,
    changes nothing else of any slot, and gives the lock back. *)
Lemma wakeup_spec c ch s :
  can_lock c PtableLock s →
  ∃ s', wakeup c ch s = Ok tt s' ∧ lock_free PtableLock s' ∧
    length (ptable s') = length (ptable s) ∧
    ∀ i p, ptable s !! i = Some p →
      (state p = SLEEPING ∧ chan p = ch → ptable s' !! i = Some (set_state RUNNABLE p)) ∧
      (¬ (state p = SLEEPING ∧ chan p = ch) → ptable s' !! i = Some p).
Proof.
  intros Hc.
  destruct (runs_facts c _ _ _ _ (wakeup_runs c ch s Hc)) as (s' & Hm & Hl & Ht & _);
    [by destruct s|done|].
  replace (ptable (set_ptable (wake_all ch (ptable s)) s)) with (wake_all ch (ptable s)) in Ht
    by by destruct s.
  exists s'. rewrite Ht. do 2 (split; [done|]). split; [apply length_fmap|].
  intros i p Hp. unfold wake_all. rewrite list_lookup_fmap, Hp. unfold wake. simpl.
  split; intros; by case_decide.
Qed.

(** [kill n] marks the first slot whose pid is [n] killed and wakes it if
    it sleeps, on whatever channel; it returns 0, or -1 when no slot has that
    pid; no other slot changes and the lock is given back. *)
Lemma kill_spec c n s :
  can_lock c PtableLock s →
  ∃ r s', kill c n s = Ok r s' ∧ lock_free PtableLock s' ∧
    ((r = -1 ∧ ptable s' = ptable s ∧ Forall (λ p, pid p ≠ n) (ptable s)) ∨
     ∃ i p p', r = 0 ∧ ptable s !! i = Some p ∧ pid p = n ∧
       (∀ j q, (j < i)%nat → ptable s !! j = Some q → pid q ≠ n) ∧
       ptable s' = <[i := p']> (ptable s) ∧ killed p' = 1 ∧
       state p' = (if decide (state p = SLEEPING) then RUNNABLE else state p) ∧
       pid p' = n ∧ chan p' = chan p ∧ parent p' = parent p).
Proof.
  intros Hc. pose proof (kill_runs c n s Hc) as Hr. unfold kill_effect in Hr.
  destruct (find_pid n (ptable s)) as [i|] eqn:Hf; simpl in Hr;
    destruct (runs_facts c _ _ _ _ Hr) as (s' & Hm & Hl & Ht & _); try done; try by destruct s.
  - pose proof Hf as [(p & Hp & Hpid) Hfirst]%find_pid_spec.
    exists 0, s'. split; [done|]. split; [done|]. right. exists i, p, (kill_proc p).
    rewrite Ht, (proj1 (on_slot_fields _ _ _)), (list_alter_insert _ _ _ _ Hp).
    repeat split; try done; [naive_solver|..]; unfold kill_proc; destruct p; simpl in *; by case_decide.
  - exists (-1), s'. split; [done|]. split; [done|]. left. split; [done|]. split; [done|].
    unfold find_pid in Hf. by rewrite fmap_None, list_find_None in Hf.
Qed.

(** ** allocproc and fork *)

(** C22: [fork] of a running process either returns -1, and then no used slot
    has changed, or returns the pid of a new runnable child in the first unused
    slot: a copy of the caller with [eax] 0 that will start in [forkret], with
    20 tickets and the next pid; every other slot is unchanged, and the lock is
    given back in both cases. *)
Theorem fork_spec c cur pp s :
  runs_proc c cur pp s →
  ∃ r s', fork c s = Ok r s' ∧ lock_free PtableLock s' ∧
    (r = -1 ∧ spare_slots (ptable s) (ptable s') ∨
     ∃ np q0 q, find_unused (ptable s) = Some np ∧ ptable s !! np = Some q0 ∧ r = nextpid s ∧
       nextpid s' = i32 (nextpid s + 1) ∧ ptable s' = <[np := q]> (ptable s) ∧
       child_of cur pp q0 q (nextpid s)).
Proof.
  intros (Hc & Hcur & Hpp & Hst). assert (state pp ≠ UNUSED) as Hu by by rewrite Hst.
  pose proof (fork_runs c s cur pp Hc Hcur Hpp Hu) as Hr.
  pose proof (fork_effect_cases cur pp s Hpp Hu) as He.
  destruct (fork_effect cur s) as [r s1]. destruct He as [Hfr He].
  destruct (runs_facts c _ _ _ _ Hr Hfr Hc) as (s' & Hm & Hl & Ht & Hn & _).
  simpl in *. exists r, s'. rewrite Ht, Hn. by repeat split.
Qed.

(** nothing resets [killed] between the death of a process and the reuse of
    its slot except [wait], and [kill] does not look at the state: [kill(0)]
    returns 0 and marks the first slot of pid 0, which is an unused one, and
    the next process [fork] creates there is born with [killed] set. *)
Lemma kill_zero_poisons_fork c cur pp np s :
  runs_proc c cur pp s →
  find_pid 0 (ptable s) = Some np → find_unused (ptable s) = Some np → np ≠ cur →
  ∃ s1, kill c 0 s = Ok 0 s1 ∧
    ∀ r s2, fork c s1 = Ok r s2 → r ≠ -1 →
      ∃ q, ptable s2 !! np = Some q ∧ state q = RUNNABLE ∧ pid q = r ∧ killed q = 1.
Proof.
  intros (Hc & Hcur & Hpp & Hst) Hz Hun Hne. pose proof (kill_runs c 0 s Hc) as Hr.
  unfold kill_effect in Hr. rewrite Hz in Hr. simpl in Hr.
  destruct (runs_facts c _ _ _ _ Hr) as (s1 & Hm & Hl & Ht & _ & Hc1 & Hcur1);
    [by destruct s|done|].
  exists s1. split; [done|]. intros r s2 Hfork Hr1.
  apply find_unused_spec in Hun as [(q0 & Hq0 & Hu0) Hbefore].
  rewrite (proj1 (on_slot_fields _ _ _)) in Ht.
  destruct (fork_spec c cur pp s1) as (r' & s2' & Hf & _ & Hcase).
  { repeat split; [apply Hc1..|by rewrite Hcur1| |done].
    by rewrite Ht, list_lookup_alter_ne. }
  rewrite Hf in Hfork. simplify_eq. destruct Hcase as [[-> _]|Hs]; [done|].
  destruct Hs as (np' & q1 & q & Hun' & Hq1 & -> & _ & Ht2 & Hch).
  assert (find_unused (ptable s1) = Some np) as Hun1.
  { apply find_unused_spec. rewrite Ht. split.
    - exists (kill_proc q0). rewrite list_lookup_alter_eq, Hq0. split; [done|].
      unfold kill_proc. destruct q0; simpl in *. subst. by rewrite decide_False.
    - intros j p Hp Hj. rewrite list_lookup_alter_ne in Hp by lia. eauto. }
  assert (np' = np) as -> by congruence.
  rewrite Ht, list_lookup_alter_eq, Hq0 in Hq1. simpl in Hq1. simplify_eq.
  destruct Hch as (? & ? & _ & _ & _ & _ & _ & _ & _ & _ & _ & _ & Hk & _).
  exists q. rewrite Ht2. repeat split; try done.
  - apply list_lookup_insert_eq. rewrite Ht, length_alter. by eapply lookup_lt_Some.
  - rewrite Hk. unfold kill_proc. destruct q0; simpl. by case_decide.
Qed.

End properties.
