(* ===== verification/SwitchProps.v ===== *)
(** The functions of hw3/proc.c that give up the processor, from their entry to
    the switch or to their return: yield, sleep, exit, wait and the scheduler's
    round. [swtch] is arbitrary in these theorems. *)

From Stdlib Require Import String.
From S2P Require Import Prelude KernelEnv Proc Locking ProcSpec Lottery Handover Protocol.
From S2P Require Import System KernelInstance KernelProps.

Section switching.
Context `{KernelEnv} `{SpinlockLaws}.

(** Processor [c] outside every critical section, running [cur]. *)
Definition on_duty (c cur : nat) (k : cpu) (p : proc) (s : kernel) : Prop :=
  lock_free PtableLock s ∧ cpus s !! c = Some k ∧ ncli k = 0 ∧ cpu_proc k = Some cur ∧
  ptable s !! cur = Some p ∧ state p = RUNNING.

(** What [sched] checks before it switches away from [cur]. *)
Definition at_switch (c cur : nat) (t : kernel) : Prop :=
  holding c PtableLock (locks t) = true ∧
  ∃ k p, cpus t !! c = Some k ∧ ncli k = 1 ∧ eflags_if k = false ∧ cpu_proc k = Some cur ∧
         ptable t !! cur = Some p ∧ state p ≠ RUNNING.

(** The saved interrupt flag put back after the switch. *)
Definition saved_intena (k : cpu) : Z := if eflags_if k then 1 else 0.

(** What [exit] does to another slot: the parent is woken if it sleeps on its
    own channel; a child goes to init, which is woken when one of the children
    is a zombie. *)
Definition exit_view (cur ini : nat) (par : option nat) (orphan_zombie : bool) (q q' : proc)
    : Prop :=
  parent q' = (if decide (parent q = Some cur) then Some ini else parent q) ∧
  state q' = (if decide (state q = SLEEPING ∧
                (chan q = ChProc <$> par ∨ orphan_zombie = true ∧ chan q = Some (ChProc ini)))
              then RUNNABLE else state q) ∧
  pid q' = pid q ∧ chan q' = chan q ∧ killed q' = killed q.

Definition has_zombie_child (cur : nat) (tab : list proc) : bool := existsb (zombie_child cur) tab.

(** The slot is as [wait] leaves it for reuse. *)
Definition collected (q' : proc) : Prop :=
  state q' = UNUSED ∧ pid q' = 0 ∧ parent q' = None ∧ killed q' = 0 ∧ kstack q' = 0.

Lemma on_duty_can_lock c cur k p s : on_duty c cur k p s → can_lock c PtableLock s.
Proof.
  intros (Hfree & Hk & Hn & _). split; [done|]. exists k. split; [done|]. split; [lia|].
  intros. lia.
Qed.

Lemma on_duty_current c cur k p s : on_duty c cur k p s → current c s = Some cur.
Proof. intros (_ & Hk & _ & Hc & _). unfold current. by rewrite Hk. Qed.

(** Under the lock, with the process marked, the checks of [sched] hold. *)
Lemma locked_at_switch c cur k s t p :
  locked c s t → cpus s !! c = Some k → ncli k = 0 → cpu_proc k = Some cur →
  ptable s !! cur = Some p → state p ≠ RUNNING → at_switch c cur t.
Proof.
  intros [Ht _ _ _ _ _ _ (k0 & k' & Hk0 & Hcp & _ & Hp & Hn & Hif & _) _ Hh] Hk Hn0 Hc Hpt Hst.
  simplify_eq. split.
  - by rewrite Hh, bool_decide_true.
  - exists k', p. rewrite Ht. repeat split; try done; [|lia|congruence].
    rewrite Hcp. apply list_lookup_insert_eq. by eapply lookup_lt_Some.
Qed.

Lemma sched_run c cur t swtch :
  at_switch c cur t →
  ∃ saved, sched swtch c t = (c' ← swtch c; sched_leave c' saved ;; mret c') t.
Proof.
  intros (Hh & k & p & Hk & Hn & Hif & Hc & Hp & Hst). exists (intena k). unfold sched.
  cbv [mbind K_bind prog_bind]. by rewrite (sched_enter_run c t k cur p).
Qed.

(** ** yield *)

(** [yield] makes the caller runnable and reaches the switch with
    [ptable.lock] held, no other lock, interrupts off and every check of
    [sched] satisfied; once switched back it only restores the interrupt flag
    and gives the lock back. *)
Lemma yield_switches c cur k p s :
  on_duty c cur k p s →
  ∃ t, at_switch c cur t ∧ ptable t = <[cur := set_state RUNNABLE p]> (ptable s) ∧
    ∀ swtch, yield swtch c s =
      (c' ← swtch c; sched_leave c' (saved_intena k) ;; release c' PtableLock ;; mret c') t.
Proof.
  intros Hd. pose proof (on_duty_current _ _ _ _ _ Hd) as Hcur.
  destruct Hd as (Hfree & Hk & Hn & Hc & Hp & Hst).
  destruct (yield_locked c s k cur p Hfree Hk Hn Hcur Hp) as (t & Hl & Hy).
  exists t. split; [|split; [|done]].
  - apply (locked_at_switch c cur k _ t (set_state RUNNABLE p) Hl); [by destruct s|done..| |by destruct p].
    by rewrite on_slot_lookup, decide_True, Hp.
  - rewrite (locked_ptable _ _ _ Hl), (proj1 (on_slot_fields _ _ _)).
    by apply list_alter_insert.
Qed.

(** ** sleep *)

(** C25: [sleep] on a lock the caller holds, and no other: the process is on the
    channel and sleeping, and the caller's lock free, before the switch, while
    [ptable.lock] is held from before the one was given up until after - so no
    [wakeup] on the channel falls in between; switched back, it clears the
    channel, gives up [ptable.lock] and takes the caller's lock again.  Without
    a process or without a lock it panics. *)
Theorem sleep_switches c cur l ch k p s :
  l ≠ PtableLock →
  lock_free PtableLock s → cpus s !! c = Some k → ncli k = 1 → eflags_if k = false →
  cpu_proc k = Some cur → ptable s !! cur = Some p →
  holding c l (locks s) = true → (∀ c', c' ≠ c → holding c' l (locks s) = false) →
  (∃ t saved, at_switch c cur t ∧ lock_free l t ∧
     ptable t = <[cur := set_state SLEEPING (set_chan ch p)]> (ptable s) ∧
     ∀ swtch, sleep swtch c ch (Some l) s =
       (c' ← swtch c; sched_leave c' saved ;; upd cur (set_chan None) ;;
        release c' PtableLock ;; acquire c' l ;; mret c') t) ∧
  (∀ swtch, sleep swtch c ch None s = Err (Panic "sleep without lk")).
Proof.
  intros Hlp Hfree Hk Hn Hif Hc Hp Hh Ho.
  assert (current c s = Some cur) as Hcur by (unfold current; by rewrite Hk).
  split.
  - destruct (sleep_enter_lock c ch l s k cur p Hlp Hfree Hk Hn Hif Hcur Hp Hh Ho)
      as (t & kt & He & (L & Ht) & Hlf & Hho & Hkt & Hnt & Hift & Hct).
    pose proof (Hho c) as Hht. rewrite bool_decide_true in Hht by done.
    assert (ptable t = <[cur := set_state SLEEPING (set_chan ch p)]> (ptable s)) as Htt.
    { trans (ptable (sleep_effect cur ch s)); [by rewrite Ht; destruct s|].
      unfold sleep_effect. rewrite (proj1 (on_slot_fields _ _ _)).
      by rewrite (list_alter_insert _ _ _ _ Hp). }
    assert (at_switch c cur t) as Hat.
    { split; [done|]. exists kt, (set_state SLEEPING (set_chan ch p)). repeat split; try done.
      - rewrite Htt. apply list_lookup_insert_eq. by eapply lookup_lt_Some.
      - by destruct p. }
    exists t, (intena kt). do 3 (split; [done|]). intros swtch. unfold sleep.
    cbv [mbind K_bind prog_bind]. rewrite He. cbn beta iota. unfold sched.
    cbv [mbind K_bind prog_bind].
    destruct Hat as (_ & k2 & p2 & Hk2 & Hn2 & Hif2 & Hc2 & Hp2 & Hst2). assert (k2 = kt) as -> by congruence.
    rewrite (sched_enter_run c t kt cur p2) by done. cbn beta iota.
    destruct (swtch c t) as [c' u|]; [|done]. unfold sched_leave, upd_cpu, modify. cbn beta iota.
    unfold sleep_leave. cbv [mret K_ret prog_ret]. cbn beta iota. rewrite decide_True by done. cbv [mbind K_bind prog_bind].
    rewrite upd_run. cbn beta iota. by destruct (release c' PtableLock _) as [[] w|].
  - intros swtch. unfold sleep. cbv [mbind K_bind prog_bind sleep_enter get]. cbn beta iota.
    rewrite Hk. cbn. by rewrite Hc.
Qed.

(** ** exit *)

Lemma close_files_zero fs e :
  length (close_files fs e).1 = length fs ∧ Forall (λ f, f = 0) (close_files fs e).1.
Proof.
  revert e. induction fs as [|f fs IH]; intros e; simpl; [done|].
  case_decide; simpl.
  - specialize (IH (fileclose f e)). destruct (close_files fs _). simpl in *.
    split; [f_equal; tauto|constructor; tauto].
  - specialize (IH e). destruct (close_files fs _). simpl in *.
    split; [f_equal; tauto|]. constructor; [|tauto]. lia.
Qed.

Lemma reparent_view cur ini par w q :
  exit_view cur ini par w q (reparent_slot cur (Some ini) w (wake (ChProc <$> par) q)).
Proof.
  unfold exit_view, reparent_slot, adopt, is_child. rewrite wake_parent.
  assert (∀ ch q, parent (wake ch q) = parent q ∧ chan (wake ch q) = chan q ∧ pid (wake ch q) = pid q ∧
            killed (wake ch q) = killed q ∧
            state (wake ch q) = if decide (state q = SLEEPING ∧ chan q = ch) then RUNNABLE else state q)
    as Hw by (intros ? []; unfold wake; by case_decide).
  assert (∀ q, parent (set_parent (Some ini) q) = Some ini ∧ chan (set_parent (Some ini) q) = chan q ∧
            pid (set_parent (Some ini) q) = pid q ∧ killed (set_parent (Some ini) q) = killed q ∧
            state (set_parent (Some ini) q) = state q) as Hs by by intros [].
  destruct (decide (parent q = Some cur)) as [Hp|Hp];
    [rewrite bool_decide_true by done|rewrite bool_decide_false by done];
    destruct w; simpl;
    repeat match goal with
    | |- context [parent (wake ?c ?r)] => destruct (Hw c r) as (-> & -> & -> & -> & ->)
    | |- context [parent (set_parent _ ?r)] => destruct (Hs r) as (-> & -> & -> & -> & ->)
    | |- context [chan (wake ?c ?r)] => destruct (Hw c r) as (_ & -> & -> & -> & ->)
    end; (split; [done|split; [|done]]); repeat case_decide; intuition congruence.
Qed.

Lemma zombie_child_wake cur ch tab :
  existsb (zombie_child cur) (wake_all ch tab) = existsb (zombie_child cur) tab.
Proof.
  induction tab as [|q tab IH]; [done|]. simpl. rewrite <-IH. f_equal.
  unfold zombie_child, is_child. rewrite wake_parent. f_equal. apply bool_decide_ext, wake_zombie.
Qed.

(** The exiting process's own assignments do not make it its own zombie child. *)
Lemma zombie_child_alter cur i f tab :
  (∀ p, zombie_child cur (f p) = zombie_child cur p) →
  existsb (zombie_child cur) (alter f i tab) = existsb (zombie_child cur) tab.
Proof.
  intros Hf. revert i. induction tab as [|q tab IH]; intros [|i]; try done; simpl.
  - by rewrite Hf.
  - f_equal. apply IH.
Qed.

Lemma wake_files ch q : cwd (wake ch q) = cwd q ∧ ofile (wake ch q) = ofile q.
Proof. unfold wake. case_decide; by destruct q. Qed.

Lemma reparent_files cur ip w q :
  cwd (reparent_slot cur ip w q) = cwd q ∧ ofile (reparent_slot cur ip w q) = ofile q.
Proof.
  assert (cwd (adopt cur ip q) = cwd q ∧ ofile (adopt cur ip q) = ofile q) as [<- <-].
  { unfold adopt. destruct (is_child cur q); by destruct q. }
  unfold reparent_slot. destruct w; [apply wake_files|done].
Qed.

(** The table [exit] leaves. *)
Lemma exit_table cur ini p s :
  ptable s !! cur = Some p → initproc s = Some ini →
  ptable (exit_zombie_effect cur (exit_files_effect cur p s)) =
  alter (set_state ZOMBIE) cur
    (reparent_slot cur (Some ini) (has_zombie_child cur (ptable s)) <$>
      wake_all (ChProc <$> parent p)
        (alter (λ q, set_cwd 0 (set_ofile (close_files (ofile p) (ext s)).1 q)) cur (ptable s))).
Proof.
  intros Hp Hini. unfold exit_zombie_effect, exit_files_effect.
  destruct (close_files _ _) as [fs e1]. destruct s. simpl in *.
  rewrite list_lookup_alter_eq, Hp. simpl. subst. rewrite reparent_eq.
  rewrite zombie_child_wake, zombie_child_alter by by intros []. by destruct p.
Qed.

(** The slot of the process that exits. *)
Lemma exit_own_slot cur ini w fs p :
  let q := set_cwd 0 (set_ofile fs p) in
  let z := set_state ZOMBIE (reparent_slot cur (Some ini) w (wake (ChProc <$> parent p) q)) in
  state z = ZOMBIE ∧ pid z = pid p ∧ cwd z = 0 ∧ ofile z = fs ∧
  parent z = (if decide (parent p = Some cur) then Some ini else parent p).
Proof.
  intros q z. destruct (reparent_view cur ini (parent p) w q) as (Hv1 & _ & Hv3 & _).
  destruct (reparent_files cur (Some ini) w (wake (ChProc <$> parent p) q)) as [Hc Hf].
  destruct (wake_files (ChProc <$> parent p) q) as [Hc' Hf'].
  unfold z. destruct (reparent_slot _ _ _ _). simpl in *. subst. unfold q in *. by destruct p.
Qed.

(** C21: [exit] panics for init; for any other process it reaches the switch
    with the lock held, its slot a zombie with every file closed and no
    directory but its pid and parent kept for [wait], the parent woken, the
    children handed to init and init woken when one of them is a zombie; if it
    were ever switched back it would panic. *)
Theorem exit_becomes_zombie c cur k p ini s :
  on_duty c cur k p s → initproc s = Some ini →
  (ini = cur → ∀ swtch, exit swtch c s = Err (Panic "init exiting")) ∧
  (ini ≠ cur → ∃ t saved z,
     at_switch c cur t ∧
     ptable t !! cur = Some z ∧ state z = ZOMBIE ∧ pid z = pid p ∧ cwd z = 0 ∧
     Forall (λ f, f = 0) (ofile z) ∧ length (ofile z) = length (ofile p) ∧
     (parent p ≠ Some cur → parent z = parent p) ∧
     length (ptable t) = length (ptable s) ∧
     (∀ j q, j ≠ cur → ptable s !! j = Some q →
        ∃ q', ptable t !! j = Some q' ∧
              exit_view cur ini (parent p) (has_zombie_child cur (ptable s)) q q') ∧
     ∀ swtch, exit swtch c s = (c' ← swtch c; sched_leave c' saved ;; panic "zombie exit") t).
Proof.
  intros Hd Hini. pose proof (on_duty_current _ _ _ _ _ Hd) as Hcur.
  destruct Hd as (Hfree & Hk & Hn & Hc & Hp & Hst). split.
  - intros -> swtch. unfold exit, exit_files. cbv [mbind K_bind prog_bind].
    rewrite (curproc_run _ _ _ Hcur). cbv [get]. cbn beta iota. by rewrite decide_True.
  - intros Hne. assert (initproc s ≠ Some cur) as Hni by congruence.
    destruct (exit_locked c s k cur p Hfree Hk Hn Hcur Hni Hp) as (t & saved & Hl & He).
    pose proof (close_files_zero (ofile p) (ext s)) as [Hflen Hfz].
    pose proof (exit_table cur ini p s Hp Hini) as Ht. rewrite <-(locked_ptable _ _ _ Hl) in Ht.
    destruct (exit_own_slot cur ini (has_zombie_child cur (ptable s)) (close_files (ofile p) (ext s)).1 p)
      as (Hzs & Hzp & Hzc & Hzf & Hzpar). set (z := set_state ZOMBIE _) in *.
    assert (ptable t !! cur = Some z) as Hz.
    { rewrite Ht, list_lookup_alter_eq. unfold wake_all.
      by rewrite !list_lookup_fmap, list_lookup_alter_eq, Hp. }
    clearbody z.
    exists t, saved, z. rewrite Hzf. repeat split; try done.
    + rewrite (locked_holding _ _ _ Hl), bool_decide_true; done.
    + destruct (locked_cpus _ _ _ Hl) as (k0 & k' & Hk0 & Hcp & _ & Hcp' & Hn' & Hif' & _).
      assert (cpus (exit_zombie_effect cur (exit_files_effect cur p s)) = cpus s) as Hcps.
      { unfold exit_zombie_effect, exit_files_effect. destruct (close_files _ _), s. simpl.
        by destruct (alter _ _ _ !! _). }
      rewrite Hcps in *. simplify_eq. exists k', z. repeat split; try done; [|lia|congruence|congruence].
      rewrite Hcp. apply list_lookup_insert_eq. by eapply lookup_lt_Some.
    + intros Hpne. by rewrite Hzpar, decide_False.
    + rewrite Ht. unfold wake_all. by rewrite length_alter, !length_fmap, length_alter.
    + intros j q Hj Hq. rewrite Ht, list_lookup_alter_ne by done. unfold wake_all.
      rewrite !list_lookup_fmap, list_lookup_alter_ne, Hq by done. simpl.
      eexists. split; [done|]. apply reparent_view.
Qed.

(** ** wait *)

Lemma wait_entry c cur k p s rounds swtch :
  on_duty c cur k p s →
  ∃ t, locked c s t ∧ wait rounds swtch c s = wait_loop rounds swtch c cur t.
Proof.
  intros Hd. destruct (acquire_locked c s (on_duty_can_lock _ _ _ _ _ Hd)) as (t & Ha & Hl).
  exists t. split; [done|]. unfold wait. cbv [mbind K_bind prog_bind]. rewrite Ha. cbn beta iota.
  rewrite (curproc_run c t cur); [done|].
  by rewrite (locked_current _ _ _ Hl), (on_duty_current _ _ _ _ _ Hd).
Qed.

Lemma wait_loop_step rounds swtch c cur t :
  wait_loop rounds swtch c cur t =
  match wait_round c cur t with
  | Ok (Some v) t' => Ok (Some (v, c)) t'
  | Ok None t' =>
      match rounds with
      | O => Ok None t'
      | S rounds' => (c' ← sleep swtch c (Some (ChProc cur)) (Some PtableLock);
                      wait_loop rounds' swtch c' cur) t'
      end
  | Err e => Err e
  end.
Proof.
  destruct rounds; simpl; unfold mbind, K_bind, prog_bind; destruct (wait_round c cur t) as [[]|]; done.
Qed.

Lemma no_zombie cur tab :
  Forall (λ q, zombie_child cur q = false) tab → list_find (zombie_child cur) tab = None.
Proof.
  intros Hf. apply list_find_None. eapply Forall_impl; [|exact Hf]. simpl. intros q Hq Hz. by rewrite Hq in Hz.
Qed.

Lemma wait_collects c cur k p s z q rounds swtch :
  on_duty c cur k p s → list_find (zombie_child cur) (ptable s) = Some (z, q) →
  ∃ s' q', wait rounds swtch c s = Ok (Some (pid q, c)) s' ∧
    lock_free PtableLock s' ∧ ptable s' = <[z := q']> (ptable s) ∧ collected q'.
Proof.
  intros Hd Hz. pose proof (on_duty_current _ _ _ _ _ Hd) as Hcur.
  pose proof Hd as (Hfree & Hk & Hn & Hc & Hp & Hst).
  destruct (wait_entry c cur k p s rounds swtch Hd) as (t & Hl & ->).
  pose proof (wait_round_runs c cur s t p Hl Hp) as Hr. unfold wait_effect in Hr.
  rewrite wait_scan_eq, Hz in Hr. cbn in Hr.
  apply list_find_Some in Hz as (Hz & _ & _). rewrite Hz in Hr. cbn in Hr.
  destruct Hr as (q0 & Hq0 & s' & Hr & Heq). assert (q0 = q) as -> by congruence.
  exists s', (reap_slot q). rewrite wait_loop_step, Hr. split; [done|]. split; [|split].
  + rewrite Heq. unfold reap_effect. by destruct s.
  + rewrite Heq. unfold reap_effect. rewrite (proj1 (on_slot_fields _ _ _)).
    rewrite (list_alter_insert _ _ _ q); by destruct s.
  + by destruct q.
Qed.

Lemma wait_fails c cur k p s rounds swtch :
  on_duty c cur k p s → Forall (λ q, zombie_child cur q = false) (ptable s) →
  existsb (is_child cur) (ptable s) = false ∨ killed p ≠ 0 →
  ∃ s', wait rounds swtch c s = Ok (Some (-1, c)) s' ∧ lock_free PtableLock s' ∧ ptable s' = ptable s.
Proof.
  intros Hd Hf%no_zombie Hor. pose proof (on_duty_current _ _ _ _ _ Hd) as Hcur.
  pose proof Hd as (Hfree & Hk & Hn & Hc & Hp & Hst).
  destruct (wait_entry c cur k p s rounds swtch Hd) as (t & Hl & ->).
  pose proof (wait_round_runs c cur s t p Hl Hp) as Hr. unfold wait_effect in Hr.
  rewrite wait_scan_eq, Hf in Hr. cbn in Hr.
  assert (negb (existsb (is_child cur) (ptable s)) || bool_decide (killed p ≠ 0) = true) as Hb.
  { destruct Hor as [->|Hkl]; [done|]. by rewrite bool_decide_true, orb_true_r. }
  rewrite Hb in Hr. destruct Hr as (s' & Hr & Heq). exists s'. rewrite wait_loop_step, Hr.
  split; [done|]. by rewrite Heq.
Qed.

Lemma wait_goes_to_sleep c cur k p s :
  on_duty c cur k p s → Forall (λ q, zombie_child cur q = false) (ptable s) →
  existsb (is_child cur) (ptable s) = true → killed p = 0 →
  ∃ t saved, at_switch c cur t ∧
    ptable t = <[cur := set_state SLEEPING (set_chan (Some (ChProc cur)) p)]> (ptable s) ∧
    ∀ rounds swtch, wait (S rounds) swtch c s =
      (c' ← swtch c; sched_leave c' saved ;; upd cur (set_chan None) ;;
       wait_loop rounds swtch c' cur) t.
Proof.
  intros Hd Hf%no_zombie Hch Hkl. pose proof (on_duty_current _ _ _ _ _ Hd) as Hcur.
  pose proof Hd as (Hfree & Hk & Hn & Hc & Hp & Hst).
  destruct (acquire_locked c s (on_duty_can_lock _ _ _ _ _ Hd)) as (t0 & Ha & Hl).
  pose proof (wait_round_runs c cur s t0 p Hl Hp) as Hr. unfold wait_effect in Hr.
  rewrite wait_scan_eq, Hf, Hch in Hr. cbn in Hr.
  rewrite bool_decide_false in Hr by (intros ?; done). cbn in Hr.
  destruct (sleep_enter_wait c (Some (ChProc cur)) s t0 cur Hl Hcur) as (t & He & Hl').
  assert (ptable t = <[cur := set_state SLEEPING (set_chan (Some (ChProc cur)) p)]> (ptable s)) as Htt.
  { rewrite (locked_ptable _ _ _ Hl'). unfold sleep_effect.
    rewrite (proj1 (on_slot_fields _ _ _)). by rewrite (list_alter_insert _ _ _ _ Hp). }
  assert (at_switch c cur t) as Hat.
  { apply (locked_at_switch c cur k _ t (set_state SLEEPING (set_chan (Some (ChProc cur)) p)) Hl');
      [by destruct s|done|done| |by destruct p].
    rewrite <-(locked_ptable _ _ _ Hl'), Htt. apply list_lookup_insert_eq. by eapply lookup_lt_Some. }
  destruct (sched_run c cur t (λ c, mret c) Hat) as (saved & _).
  pose proof Hat as (Hh & k1 & p1 & Hk1 & Hn1 & Hif1 & Hc1 & Hp1 & Hst1).
  exists t, (intena k1). split; [done|]. split; [done|]. intros rounds swtch.
  unfold wait. cbv [mbind K_bind prog_bind]. rewrite Ha. cbn beta iota.
  rewrite (curproc_run c t0 cur) by by rewrite (locked_current _ _ _ Hl). cbn beta iota.
  rewrite wait_loop_step, Hr. unfold sleep, sched. cbv [mbind K_bind prog_bind].
  rewrite He. cbn beta iota. rewrite (sched_enter_run c t k1 cur p1) by done. cbn beta iota.
  destruct (swtch c t) as [c' u|]; [|done]. unfold sched_leave, upd_cpu, modify. cbn beta iota.
  unfold sleep_leave. cbv [mret K_ret prog_ret mbind K_bind prog_bind]. cbn beta iota.
  by rewrite decide_False by naive_solver.
Qed.

(** C20: one call of [wait]. It collects the first zombie child of the table,
    returning its pid and freeing the slot for reuse; with no zombie child it
    returns -1 at once if there is no child or the caller has been killed, the
    table unchanged; in both cases the lock is given back.  Otherwise it goes
    to sleep on the caller's own slot with [ptable.lock] held since the scan,
    and starts over when it is switched back. *)
Theorem wait_spec c cur k p s :
  on_duty c cur k p s →
  (∀ z q, list_find (zombie_child cur) (ptable s) = Some (z, q) →
     ∀ rounds swtch, ∃ s' q', wait rounds swtch c s = Ok (Some (pid q, c)) s' ∧
       lock_free PtableLock s' ∧ ptable s' = <[z := q']> (ptable s) ∧ collected q') ∧
  (Forall (λ q, zombie_child cur q = false) (ptable s) →
     existsb (is_child cur) (ptable s) = false ∨ killed p ≠ 0 →
     ∀ rounds swtch, ∃ s', wait rounds swtch c s = Ok (Some (-1, c)) s' ∧
       lock_free PtableLock s' ∧ ptable s' = ptable s) ∧
  (Forall (λ q, zombie_child cur q = false) (ptable s) →
     existsb (is_child cur) (ptable s) = true → killed p = 0 →
     ∃ t saved, at_switch c cur t ∧
       ptable t = <[cur := set_state SLEEPING (set_chan (Some (ChProc cur)) p)]> (ptable s) ∧
       ∀ rounds swtch, wait (S rounds) swtch c s =
         (c' ← swtch c; sched_leave c' saved ;; upd cur (set_chan None) ;;
          wait_loop rounds swtch c' cur) t).
Proof.
  intros Hd. split; [|split].
  - intros z q Hz rounds swtch. by eapply wait_collects.
  - intros Hf Hor rounds swtch. by eapply wait_fails.
  - intros Hf Hch Hkl. by eapply wait_goes_to_sleep.
Qed.

(** ** The scheduler *)

Lemma sti_effect_fields c f s :
  ptable (sti_effect c f s) = ptable s ∧ ext (sti_effect c f s) = ext s ∧
  cpus (sti_effect c f s) = alter (set_if true) c (cpus s).
Proof. unfold sti_effect. case_decide; by destruct s. Qed.

Lemma choose_effect_cases `{!RandomLaw} c s o s' :
  fair_table (ptable s) → choose_effect c s = (o, s') →
  match o with
  | Some i => ∃ p, ptable s !! i = Some p ∧ state p = RUNNABLE ∧
      ptable s' = <[i := set_state RUNNING p]> (ptable s) ∧
      cpus s' = alter (set_cpu_proc (Some i)) c (cpus s)
  | None => Forall (λ p, state p ≠ RUNNABLE) (ptable s) ∧ ptable s' = ptable s ∧ cpus s' = cpus s
  end.
Proof.
  intros Hf Hch. unfold choose_effect in Hch.
  pose proof (random_range (num_tickets (ptable s)) (ext s)) as Hr.
  rewrite num_tickets_total in * by done. destruct Hf as [Hnn Hmax].
  pose proof (total_nonneg _ Hnn). specialize (Hr ltac:(lia)).
  destruct (random_at_most _ _) as [w e]. simpl in Hr.
  rewrite i32_small in Hch by (unfold INT_MIN; lia).
  destruct (lottery w (ptable s)) as [i|] eqn:Hl; simplify_eq.
  - destruct (lottery_runnable _ _ _ Hl) as (p & Hp & Hrun). exists p.
    split; [done|]. split; [done|]. destruct s. simpl in *.
    split; [by apply list_alter_insert|done].
  - split; [|by destruct s].
    destruct (decide (Exists (λ p, state p = RUNNABLE) (ptable s))) as [Hex|Hex];
      [|by apply Forall_Exists_neg].
    exfalso. eapply pick_some in Hl; [done|done|lia|lia|done|lia].
Qed.

(** What a round of the scheduler on processor [c] leaves alone, the generator
    being in [e] after it: everything but the table, the processor itself and
    the trace, to which a halt is added when the last round found nobody. *)
Record round_frame (c : nat) (f : Z) (e : kext) (s t : kernel) : Prop := {
  round_initproc : initproc t = initproc s;
  round_nextpid : nextpid t = nextpid s;
  round_first : first t = first s;
  round_ticks : ticks t = ticks s;
  round_ext : ext t = e;
  round_trace : trace t = trace s ++ (if decide (f = 0) then [EvHlt c] else []);
  round_others : ∀ c', c' ≠ c → current c' t = current c' s
}.

Lemma sti_frame c f s : round_frame c f (ext s) s (sti_effect c f s).
Proof.
  destruct s. split; unfold sti_effect; case_decide; simpl; rewrite ?app_nil_r; try done;
    intros c' Hc; unfold current; simpl; by rewrite list_lookup_alter_ne.
Qed.

(** ... also of the state with the lock taken, and up to the lock words. *)
Lemma locked_current_of c s t c' : locked c s t → current c' t = current c' s.
Proof.
  intros Hl. destruct (decide (c' = c)) as [->|Hne]; [by eapply locked_current|].
  destruct (locked_cpus _ _ _ Hl) as (k & k' & _ & Hc & _). unfold current.
  by rewrite Hc, list_lookup_insert_ne.
Qed.

Lemma round_locked c f e s u t : round_frame c f e s u → locked c u t → round_frame c f e s t.
Proof.
  intros [] Hl. pose proof Hl as []. split; try congruence.
  intros c' Hne. rewrite <-round_others0 by done. by eapply locked_current_of.
Qed.

Lemma round_equiv c f e s u t : round_frame c f e s u → t ≡ u → round_frame c f e s t.
Proof.
  intros [] Hu. pose proof Hu as []. split; try congruence. intros c' Hne. rewrite Hu. auto.
Qed.

Lemma choose_frame c f s :
  let d := random_at_most (num_tickets (ptable s)) (ext s) in
  let r := choose_effect c (sti_effect c f s) in
  match lottery (i32 d.1) (ptable s) with
  | Some i => r.1 = Some i ∧ ptable r.2 = alter (set_state RUNNING) i (ptable s) ∧
      round_frame c f (switchuvm i d.2) s r.2 ∧
      cpus r.2 = alter (set_cpu_proc (Some i)) c (alter (set_if true) c (cpus s))
  | None => r = (None, set_ext d.2 (sti_effect c f s)) ∧ round_frame c f d.2 s r.2
  end.
Proof.
  destruct (sti_effect_fields c f s) as (Ht & He & Hc). destruct (sti_frame c f s) as [Hi Hn Hf Hk _ Htr Ho].
  unfold choose_effect. rewrite Ht, He. destruct (random_at_most _ _) as [w e]. simpl.
  destruct (lottery _ _) as [i|]; simpl.
  - destruct (sti_effect c f s). simpl in *. subst. split_and!; try done. split; try done.
    intros c' Hne. rewrite <-Ho by done. unfold current. simpl. by rewrite list_lookup_alter_ne.
  - split; [done|]. by destruct (sti_effect c f s).
Qed.

(** C24: one round of the scheduler on a processor that holds no lock, whatever
    the tickets and whatever the generator returns.  The draw decides: when the
    lottery has a winner for it, the winner was runnable, is now running and the
    processor's current process, nothing else of the table changed, and
    [ptable.lock] is held across the switch; what comes back to the scheduler
    gives it up.  When it has none, the round ends with the table, the current
    processes and the locks as they were; what has changed is the generator, by
    the one draw, the processor's interrupt flag, which is on, and, when the
    round before found nobody either, the trace, by one halt.  Nobody wins when
    nobody is runnable; and when no runnable process has a negative number of
    tickets, their sum is an [int] and the generator keeps to its range,
    somebody wins whenever somebody is runnable. *)
Theorem scheduler_round_spec c k f s :
  lock_free PtableLock s → cpus s !! c = Some k → ncli k = 0 →
  let d := random_at_most (num_tickets (ptable s)) (ext s) in
  let winner := lottery (i32 d.1) (ptable s) in
  match winner with
  | Some i =>
      ∃ p t, ptable s !! i = Some p ∧ state p = RUNNABLE ∧
        ptable t = <[i := set_state RUNNING p]> (ptable s) ∧
        round_frame c f (switchuvm i d.2) s t ∧
        current c t = Some i ∧ holding c PtableLock (locks t) = true ∧
        ∀ swtch, scheduler_round swtch c f s = (swtch c ;; scheduler_back c ;; mret 1) t
  | None =>
      ∃ s' k', ptable s' = ptable s ∧ round_frame c f d.2 s s' ∧
        (∀ c' l, holding c' l (locks s') = holding c' l (locks s)) ∧
        cpus s' !! c = Some k' ∧ cpu_proc k' = cpu_proc k ∧ ncli k' = 0 ∧ eflags_if k' = true ∧
        ∀ swtch, scheduler_round swtch c f s = Ok 0 s'
  end ∧
  (Forall (λ p, state p ≠ RUNNABLE) (ptable s) → winner = None) ∧
  (fair_table (ptable s) → RandomLaw →
     Exists (λ p, state p = RUNNABLE) (ptable s) → winner ≠ None).
Proof.
  intros Hfree Hk Hn d winner. subst winner.
  destruct (scheduler_choose_locked c f s k Hfree Hk Hn) as (t & Hch & Hl).
  destruct (sti_effect_fields c f s) as (Hst & _ & Hsc).
  pose proof (choose_frame c f s) as Hfr. cbv zeta in Hfr. fold d in Hfr. split; [|split].
  - destruct (lottery (i32 d.1) (ptable s)) as [i|] eqn:Hw.
    + destruct Hfr as (Ho & Ht & Hfr & Hc). rewrite Ho in Hch.
      destruct (lottery_runnable _ _ _ Hw) as (p & Hp & Hr). exists p, t. split; [done|]. split; [done|].
      split; [by rewrite (locked_ptable _ _ _ Hl), Ht; apply list_alter_insert|].
      split; [by eapply round_locked|]. split; [|split].
      * rewrite (locked_current _ _ _ Hl). unfold current. rewrite Hc, !list_lookup_alter_eq, Hk. by destruct k.
      * by rewrite (locked_holding _ _ _ Hl), bool_decide_true.
      * intros swtch. unfold scheduler_round. unfold mbind at 1, K_bind at 1, prog_bind at 1. by rewrite Hch.
    + destruct Hfr as (Hr & Hfr). rewrite Hr in Hch, Hl, Hfr. simpl in *.
      destruct (release_locked c _ t Hl) as (u & Hrel & Hu).
      pose proof (round_equiv c f _ s _ u Hfr Hu) as Hfu.
      assert (cpus (set_ext d.2 (sti_effect c f s)) !! c = Some (set_if true k)) as Hck.
      { trans (cpus (sti_effect c f s) !! c); [by destruct (sti_effect c f s)|].
        by rewrite Hsc, list_lookup_alter_eq, Hk. }
      destruct (Forall2_lookup_r _ _ _ _ _ (Locking.same_cpus _ _ Hu) Hck) as (k' & Hk' & Hp' & Hn' & Hi').
      exists u, k'. split; [rewrite (Locking.same_ptable _ _ Hu); by rewrite <-Hst; destruct (sti_effect c f s)|].
      split; [done|]. split.
      { intros c' l. rewrite (Locking.same_holding _ _ Hu). unfold sti_effect. case_decide; by destruct s. }
      split; [done|]. split; [by rewrite Hp'; destruct k|]. split; [by rewrite Hn'; destruct k|].
      split; [by rewrite Hi'; destruct k|].
      intros swtch. unfold scheduler_round. unfold mbind at 1, K_bind at 1, prog_bind at 1.
      rewrite Hch. unfold mbind, K_bind, prog_bind. by rewrite Hrel.
  - intros Hno. destruct (lottery (i32 d.1) (ptable s)) as [i|] eqn:Hw; [|done].
    destruct (lottery_runnable _ _ _ Hw) as (p & Hp & Hr). rewrite list.Forall_lookup in Hno. by destruct (Hno i p).
  - intros Hf Hlaw Hex Hw. rewrite Hw in Hfr. destruct Hfr as [Hr _].
    pose proof (choose_effect_cases c (sti_effect c f s) _ _ (ltac:(by rewrite Hst)) Hr) as (Hno & _).
    rewrite Hst in Hno. by apply Forall_Exists_neg in Hno.
Qed.

End switching.
