(* ===== verification/Execution.v ===== *)
(** The system run by the code: steps that execute the functions of hw3/proc.c
    themselves - each from one moment when no processor holds [ptable.lock] to
    the next, the switch in the middle leading from the function that gives the
    processor up to the second half of [scheduler], and from the first half of
    [scheduler] to wherever the chosen process had stopped -, and the states up
    to what the steps of the system of System.v depend on. *)

From Stdlib Require Import String.
From S2P Require Import Prelude KernelEnv Proc Locking ProcSpec Lottery.
From S2P Require Import Handover Protocol System.

Section execution.
Context `{KernelEnv} `{Spinlock}.

(** ** Steps *)

(** Processor [c] runs the process in slot [i], outside every critical section. *)
Definition calls (c i : nat) (s : kernel) : Prop :=
  lock_free PtableLock s ∧
  ∃ k, cpus s !! c = Some k ∧ ncli k = 0 ∧ cpu_proc k = Some i.

(** Processor [c] is in its scheduler, outside the critical section. *)
Definition idles (c : nat) (s : kernel) : Prop :=
  lock_free PtableLock s ∧
  ∃ k, cpus s !! c = Some k ∧ ncli k = 0 ∧ cpu_proc k = None.

(** What [sched] saves is 0 or 1. *)
Definition is_intena (saved : Z) : Prop := saved = 0 ∨ saved = 1.

(** The slot [wait] collects is nobody's any more. *)
Definition after_wait (i : nat) (tab : list proc) (l : list kcont) : list kcont :=
  match (wait_scan i 0 tab false).2 with
  | Some z => set_kont z NoThread (set_kont i InKernel l)
  | None => set_kont i InKernel l
  end.

(** One turn of the loop of [wait]: it returns, or sleeps and gives up the processor. *)
Definition wait_turn (c cur : nat) : K unit :=
  o ← wait_round c cur;
  match o with
  | Some _ => mret tt
  | None => sleep_half c (Some (ChProc cur)) PtableLock ;; scheduler_back c
  end.

(** Where [swtch] leads from the scheduler, up to the next moment without the lock. *)
Definition resume (k : kcont) (c i : nat) (saved : Z) : K unit :=
  match k with
  | AtForkret => forkret c
  | AtYield => yield_rest c saved
  | AtSleep => sleep_rest c i saved
  | AtWait => wait_wakes c i saved ;; wait_turn c i
  | _ => sched_leave c saved ;; panic "zombie exit"
  end.

(** What a process may ask of proc.c while it runs its own code, and the code
    that runs then; a [fork] in progress goes on whatever is asked. *)
Variant request : Type := AskYield | AskWait | AskExit | AskFork | AskSbrk (n : Z).

Definition in_kernel (k : kcont) : bool :=
  match k with InKernel | Forking _ | Copied _ => true | _ => false end.

Definition proceed (k : kcont) (r : request) (c i : nat) : K unit :=
  match k with
  | Forking np =>
      o ← allocproc_stack np;
      match o with Some np' => fork_copy i np' ;; mret tt | None => mret tt end
  | Copied np => fork_publish c np
  | _ =>
      match r with
      | AskYield => yield_half c ;; scheduler_back c
      | AskWait => acquire c PtableLock ;; cur ← curproc c; wait_turn c cur
      | AskExit => exit_half c ;; scheduler_back c
      | AskFork => allocproc_slot c ;; mret tt
      | AskSbrk n => growproc c n ;; mret tt
      end
  end.

Inductive code_step : sys → sys → Prop :=
| C_idle s l c f t s' :
    idles c s → scheduler_choose c f s = Ok None t → release c PtableLock t = Ok tt s' →
    code_step (Sys s l) (Sys s' l)
| C_run_new s l c f i t s' :
    idles c s → scheduler_choose c f s = Ok (Some i) t → l !! i = Some AtForkret →
    forkret c t = Ok tt s' →
    code_step (Sys s l) (Sys s' (set_kont i InKernel l))
| C_run_yield s l c f i t saved s' :
    idles c s → scheduler_choose c f s = Ok (Some i) t → l !! i = Some AtYield →
    is_intena saved → yield_rest c saved t = Ok tt s' →
    code_step (Sys s l) (Sys s' (set_kont i InKernel l))
| C_run_sleep s l c f i t saved s' :
    idles c s → scheduler_choose c f s = Ok (Some i) t → l !! i = Some AtSleep →
    is_intena saved → sleep_rest c i saved t = Ok tt s' →
    code_step (Sys s l) (Sys s' (set_kont i InKernel l))
| C_run_wait s l c f i t saved t1 v s' :
    idles c s → scheduler_choose c f s = Ok (Some i) t → l !! i = Some AtWait →
    is_intena saved → wait_wakes c i saved t = Ok tt t1 → wait_round c i t1 = Ok (Some v) s' →
    code_step (Sys s l) (Sys s' (after_wait i (ptable t1) l))
| C_run_wait_sleep s l c f i t saved t1 saved' t2 s' :
    idles c s → scheduler_choose c f s = Ok (Some i) t → l !! i = Some AtWait →
    is_intena saved → wait_wakes c i saved t = Ok tt t1 → wait_round c i t1 = Ok None t1 →
    sleep_half c (Some (ChProc i)) PtableLock t1 = Ok saved' t2 →
    scheduler_back c t2 = Ok tt s' →
    code_step (Sys s l) (Sys s' (set_kont i AtWait l))
| C_yield s l c i saved t s' :
    calls c i s → l !! i = Some InKernel →
    yield_half c s = Ok saved t → scheduler_back c t = Ok tt s' →
    code_step (Sys s l) (Sys s' (set_kont i AtYield l))
| C_wait s l c i v s' :
    calls c i s → l !! i = Some InKernel → wait_first c s = Ok (Some v) s' →
    code_step (Sys s l) (Sys s' (after_wait i (ptable s) l))
| C_wait_sleep s l c i t1 saved t2 s' :
    calls c i s → l !! i = Some InKernel → wait_first c s = Ok None t1 →
    sleep_half c (Some (ChProc i)) PtableLock t1 = Ok saved t2 →
    scheduler_back c t2 = Ok tt s' →
    code_step (Sys s l) (Sys s' (set_kont i AtWait l))
| C_exit s l c i saved t s' :
    calls c i s → l !! i = Some InKernel →
    exit_half c s = Ok saved t → scheduler_back c t = Ok tt s' →
    code_step (Sys s l) (Sys s' (set_kont i AtExit l))
| C_fork_slot s l c i np s' :
    calls c i s → l !! i = Some InKernel → allocproc_slot c s = Ok (Some np) s' →
    code_step (Sys s l) (Sys s' (set_kont i (Forking np) l))
| C_fork_full s l c i s' :
    calls c i s → l !! i = Some InKernel → allocproc_slot c s = Ok None s' →
    code_step (Sys s l) (Sys s' l)
| C_fork_nostack s l c i np s' :
    calls c i s → l !! i = Some (Forking np) → allocproc_stack np s = Ok None s' →
    code_step (Sys s l) (Sys s' (set_kont i InKernel l))
| C_fork_copy s l c i np s1 ok s' :
    calls c i s → l !! i = Some (Forking np) → allocproc_stack np s = Ok (Some np) s1 →
    fork_copy i np s1 = Ok ok s' →
    code_step (Sys s l) (Sys s' (set_kont i (if ok : bool then Copied np else InKernel) l))
| C_fork_publish s l c i np s' :
    calls c i s → l !! i = Some (Copied np) → fork_publish c np s = Ok tt s' →
    code_step (Sys s l) (Sys s' (set_kont np AtForkret (set_kont i InKernel l)))
| C_wakeup s l c ch s' :
    can_lock c PtableLock s → wakeup c ch s = Ok tt s' →
    code_step (Sys s l) (Sys s' l)
| C_kill s l c n r s' :
    can_lock c PtableLock s → kill c n s = Ok r s' →
    code_step (Sys s l) (Sys s' l)
| C_sleep s l c i ch lk k saved t s' :
    lk ≠ PtableLock → lock_free PtableLock s → cpus s !! c = Some k → ncli k = 1 →
    eflags_if k = false → cpu_proc k = Some i → holding c lk (locks s) = true →
    (∀ c', c' ≠ c → holding c' lk (locks s) = false) → l !! i = Some InKernel →
    sleep_half c ch lk s = Ok saved t → scheduler_back c t = Ok tt s' →
    code_step (Sys s l) (Sys s' (set_kont i AtSleep l))
| C_growproc s l c i n r s' :
    calls c i s → l !! i = Some InKernel → growproc c n s = Ok r s' →
    code_step (Sys s l) (Sys s' l)
| C_settickets s l c i n :   (* the assignment in [sys_settickets], of an [int] *)
    calls c i s → l !! i = Some InKernel → INT_MIN ≤ n ≤ INT_MAX →
    code_step (Sys s l) (Sys (on_slot i (set_tickets n) s) l)
| C_trapframe s l c i t :   (* the result register, set by [syscall] *)
    calls c i s → l !! i = Some InKernel →
    code_step (Sys s l) (Sys (on_slot i (set_tf t) s) l)
| C_outside s l s' :   (* other locks, the clock, the rest of the kernel *)
    lock_free PtableLock s' →
    ptable s' = ptable s → initproc s' = initproc s → nextpid s' = nextpid s →
    first s' = first s → cpu_proc <$> cpus s' = cpu_proc <$> cpus s →
    code_step (Sys s l) (Sys s' l).

(** ** States up to what the system's steps depend on *)

Record core_same (s t : kernel) : Prop := {
  core_ptable : ptable s = ptable t;
  core_initproc : initproc s = initproc t;
  core_nextpid : nextpid s = nextpid t;
  core_first : first s = first t;
  core_ext : ext s = ext t;
  core_cpus : cpu_proc <$> cpus s = cpu_proc <$> cpus t
}.

(** A processor at depth 0 outside the section that [locked] describes. *)
Definition idle_depth (c : nat) (s : kernel) : Prop := ∃ k, cpus s !! c = Some k ∧ ncli k = 0.

(** The interrupt flag a process comes back with. *)
Definition flagged (c : nat) (saved : Z) (s : kernel) : kernel :=
  on_cpu c (set_if (bool_decide (saved = 1))) s.

(** At most [n] steps of the system, up to the core. *)
Definition moves (n : nat) (s : kernel) (l : list kcont) (s' : kernel) (l' : list kcont) : Prop :=
  ∃ m t, (m ≤ n)%nat ∧ nsteps sys_step m (Sys s l) (Sys t l') ∧ core_same s' t.

(** What is shown of a step of the code that ends in [s']. *)
Definition simulated (s : kernel) (l : list kcont) (s' : kernel) (l' : list kcont) : Prop :=
  moves 3 s l s' l' ∧ lock_free PtableLock s'.

(** What a step of the code relies on: the table and the threads have the same
    length, there is a first process, and children under construction lie in
    the table. *)
Definition sound (s : kernel) (l : list kcont) : Prop :=
  shape (Sys s l) ∧
  ∀ i np, l !! i = Some (Forking np) → (np < length (ptable s))%nat.

End execution.


Section core.
Context `{KernelEnv} `{SpinlockLaws}.

#[export] Instance core_equivalence : Equivalence core_same.
Proof. split; [by split|intros s t []; by split|]. intros s t u [] []. split; congruence. Qed.

Lemma equiv_core s t : s ≡ t → core_same s t.
Proof.
  intros []. split; try done. clear -same_cpus.
  induction same_cpus as [|k k' cs cs' (Hp & _) _ IH]; [done|]. cbn. by rewrite Hp, IH.
Qed.

Lemma core_current c s t : core_same s t → current c s = current c t.
Proof.
  intros [_ _ _ _ _ Hc]. apply (f_equal (.!! c)) in Hc. rewrite !list_lookup_fmap in Hc.
  unfold current. destruct (cpus s !! c), (cpus t !! c); simplify_eq/=; congruence.
Qed.

Lemma core_length s t : core_same s t → length (cpus s) = length (cpus t).
Proof. intros [_ _ _ _ _ Hc]. apply (f_equal length) in Hc. by rewrite !length_fmap in Hc. Qed.

(** ** Effects on states that agree in their core *)

Ltac core := intros Hc; destruct Hc; by split; simpl in *; congruence.

Lemma core_on_slot i f s t : core_same s t → core_same (on_slot i f s) (on_slot i f t).
Proof. destruct s, t. core. Qed.

Lemma core_set_ext e s t : core_same s t → core_same (set_ext e s) (set_ext e t).
Proof. destruct s, t. core. Qed.

Lemma core_set_ptable v s t : core_same s t → core_same (set_ptable v s) (set_ptable v t).
Proof. destruct s, t. core. Qed.

Lemma core_set_first v s t : core_same s t → core_same (set_first v s) (set_first v t).
Proof. destruct s, t. core. Qed.

Lemma core_set_nextpid v s t : core_same s t → core_same (set_nextpid v s) (set_nextpid v t).
Proof. destruct s, t. core. Qed.

Lemma cpu_proc_alter (c : nat) o (cs : list cpu) :
  cpu_proc <$> alter (set_cpu_proc o) c cs = alter (λ _, o) c (cpu_proc <$> cs).
Proof.
  apply list_eq. intros j. rewrite list_lookup_fmap. destruct (decide (c = j)) as [->|].
  - rewrite !list_lookup_alter_eq, list_lookup_fmap. destruct (cs !! j) as [[]|]; done.
  - by rewrite !list_lookup_alter_ne, list_lookup_fmap.
Qed.

Lemma core_on_cpu c o s t :
  core_same s t → core_same (on_cpu c (set_cpu_proc o) s) (on_cpu c (set_cpu_proc o) t).
Proof. intros []. destruct s, t. split; simpl in *; try done. rewrite !cpu_proc_alter. congruence. Qed.

(** The interrupt flag, the saved flag, the trace and the clock are not part of it. *)
Lemma core_flag c f s : (∀ k, cpu_proc (f k) = cpu_proc k) → core_same (on_cpu c f s) s.
Proof.
  intros Hf. destruct s as [? ? ? ? ? cs ? ? ?]. split; try done. simpl. apply list_eq. intros j.
  rewrite !list_lookup_fmap. destruct (decide (c = j)) as [->|].
  - rewrite list_lookup_alter_eq. destruct (cs !! j); simpl; [by rewrite Hf|done].
  - by rewrite list_lookup_alter_ne.
Qed.

Lemma core_sti c f s : core_same (sti_effect c f s) s.
Proof.
  unfold sti_effect. trans (on_cpu c (set_if true) s); [|apply core_flag; by intros []].
  case_decide; [|done]. by destruct s.
Qed.

Lemma core_back c s t : core_same s t → core_same (back_effect c s) (back_effect c t).
Proof. intros Hc. unfold back_effect. rewrite (core_ext _ _ Hc). by apply core_on_cpu, core_set_ext. Qed.

Lemma core_choose c s t :
  core_same s t →
  (choose_effect c s).1 = (choose_effect c t).1 ∧ core_same (choose_effect c s).2 (choose_effect c t).2.
Proof.
  intros Hc. unfold choose_effect. rewrite (core_ext _ _ Hc), (core_ptable _ _ Hc).
  destruct (random_at_most _ _) as [w e]. destruct (lottery _ _); simpl; (split; [done|]).
  - by apply core_on_slot, core_set_ext, core_on_cpu.
  - by apply core_set_ext.
Qed.

Lemma core_forkret s t : core_same s t → core_same (forkret_effect s) (forkret_effect t).
Proof.
  intros Hc. unfold forkret_effect. rewrite (core_ext _ _ Hc), (core_first _ _ Hc).
  case_decide; [|done]. by apply core_set_ext, core_set_first.
Qed.

Lemma core_awake k i s t : core_same s t → core_same (awake_effect k i s) (awake_effect k i t).
Proof. intros Hc. destruct k; simpl; auto using core_forkret, core_on_slot. Qed.

Lemma core_exit i p s t :
  core_same s t →
  core_same (exit_zombie_effect i (exit_files_effect i p s)) (exit_zombie_effect i (exit_files_effect i p t)).
Proof.
  intros Hc. assert (core_same (exit_files_effect i p s) (exit_files_effect i p t)) as Hf.
  { unfold exit_files_effect. rewrite (core_ext _ _ Hc). destruct (close_files _ _).
    by apply core_on_slot, core_set_ext. }
  unfold exit_zombie_effect. rewrite (core_ptable _ _ Hf), (core_initproc _ _ Hf).
  case_match; [|done]. by apply core_on_slot, core_set_ptable.
Qed.

Lemma core_wait i p s t o s' :
  core_same s t → wait_effect i p s = Some (o, s') →
  ∃ t', wait_effect i p t = Some (o, t') ∧ core_same s' t'.
Proof.
  intros Hc. unfold wait_effect. rewrite (core_ptable _ _ Hc).
  destruct (wait_scan _ _ _ _) as [hk [z|]].
  - destruct (ptable t !! z) as [q|]; [|done]. intros. simplify_eq. eexists. split; [done|].
    unfold reap_effect. rewrite (core_ext _ _ Hc). by apply core_on_slot, core_set_ext.
  - destruct (_ || _); [|done]. intros. simplify_eq. by exists t.
Qed.

Lemma core_wait_none i p s t : core_same s t → wait_effect i p s = None → wait_effect i p t = None.
Proof.
  intros Hc. unfold wait_effect. rewrite (core_ptable _ _ Hc). repeat case_match; done.
Qed.

Lemma core_slot s t :
  core_same s t → (slot_effect s).1 = (slot_effect t).1 ∧ core_same (slot_effect s).2 (slot_effect t).2.
Proof.
  intros Hc. unfold slot_effect. rewrite (core_ptable _ _ Hc), (core_nextpid _ _ Hc).
  destruct (find_unused _); simpl; [|done]. split; [done|]. by apply core_set_nextpid, core_on_slot.
Qed.

Lemma core_stack i s t :
  core_same s t → (stack_effect i s).1 = (stack_effect i t).1 ∧ core_same (stack_effect i s).2 (stack_effect i t).2.
Proof.
  intros Hc. unfold stack_effect. rewrite (core_ext _ _ Hc). destruct (kalloc _).
  case_decide; simpl; (split; [done|]); by apply core_on_slot, core_set_ext.
Qed.

Lemma core_copy cur np pp q s t :
  core_same s t → (copy_effect cur np pp q s).1 = (copy_effect cur np pp q t).1 ∧
    core_same (copy_effect cur np pp q s).2 (copy_effect cur np pp q t).2.
Proof.
  intros Hc. unfold copy_effect. rewrite (core_ext _ _ Hc). destruct (copyuvm _ _ _).
  case_decide; simpl; [|destruct (dup_files _ _ _), (idup _ _); simpl];
    (split; [done|]); by apply core_on_slot, core_set_ext.
Qed.

Lemma core_kill n s t : core_same s t → core_same (kill_effect n s).2 (kill_effect n t).2.
Proof.
  intros Hc. unfold kill_effect. rewrite (core_ptable _ _ Hc). case_match; simpl; [|done].
  by apply core_on_slot.
Qed.

(** A pair known up to its core. *)
Lemma core_pair {A} (f : kernel → A * kernel) s t a s' :
  (f s).1 = (f t).1 ∧ core_same (f s).2 (f t).2 → f s = (a, s') →
  ∃ t', f t = (a, t') ∧ core_same s' t'.
Proof. intros [E Hc] Hs. rewrite Hs in E, Hc. simpl in *. exists (f t).2. split; [|done]. rewrite E. by destruct (f t). Qed.

Lemma sys_step_core s t l s' l' :
  core_same s t → sys_step (Sys s l) (Sys s' l') →
  ∃ t', sys_step (Sys t l) (Sys t' l') ∧ core_same s' t'.
Proof.
  intros Hc Hst. pose proof (λ c, core_current c s t Hc) as Hcur. pose proof (core_ptable _ _ Hc) as Htab.
  inversion Hst; subst; rewrite ?Hcur in *.
  - edestruct (core_pair (choose_effect c)) as (t' & ? & ?); [by apply core_choose|done|].
    exists t'. split; [|done]. eapply S_dispatch; [by rewrite <-(core_length _ _ Hc)|done|done].
  - edestruct (core_pair (choose_effect c)) as (t' & ? & ?); [by apply core_choose|done|].
    exists t'. split; [|done]. by eapply S_idle.
  - eexists. split; [by eapply S_resume|]. by apply core_awake.
  - eexists. split; [by eapply S_yield|]. by apply core_back, core_on_slot.
  - eexists. split; [by eapply S_sleep|]. by apply core_back, core_on_slot.
  - edestruct core_wait as (t' & ? & ?); [by apply core_awake|done|].
    exists t'. split; [|done]. eapply S_wait_reap; try done.
    by rewrite <-(core_ptable _ _ (core_awake _ _ _ _ Hc)).
  - edestruct core_wait as (t' & ? & ?); [by apply core_awake|done|].
    exists t'. split; [|done]. eapply S_wait_none; try done.
    by rewrite <-(core_ptable _ _ (core_awake _ _ _ _ Hc)).
  - eexists. split; [eapply S_wait_sleep; try done|].
    + by rewrite <-(core_ptable _ _ (core_awake _ _ _ _ Hc)).
    + eapply core_wait_none; [by apply core_awake|done].
    + by apply core_back, core_on_slot, core_awake.
  - eexists. split; [eapply S_exit; try done|].
    + by rewrite <-(core_initproc _ _ Hc).
    + by rewrite <-Htab.
    + by apply core_back, core_exit.
  - edestruct (core_pair slot_effect) as (t' & ? & ?); [by apply core_slot|done|].
    exists t'. split; [|done]. by eapply S_fork_slot.
  - edestruct (core_pair (stack_effect np)) as (t' & ? & ?); [by apply core_stack|done|].
    exists t'. split; [|done]. by eapply S_fork_nostack.
  - edestruct (core_pair (stack_effect np)) as (t1 & ? & Hc1); [by apply core_stack|done|].
    edestruct (core_pair (copy_effect i np pp q)) as (t2 & ? & ?); [by apply core_copy|done|].
    exists t2. split; [|done]. eapply S_fork_copy; try done; by rewrite <-(core_ptable _ _ Hc1).
  - eexists. split; [by eapply S_fork_publish|]. by apply core_on_slot.
  - eexists. split; [by eapply S_wakeup|]. rewrite Htab. by apply core_set_ptable.
  - eexists. split; [by eapply S_kill|]. by apply core_kill.
  - eexists. split; [by eapply S_settickets|]. by apply core_on_slot.
  - eexists. split; [by eapply S_trapframe|]. by apply core_on_slot.
  - eexists. split; [eapply S_growproc; by rewrite <-?Htab|]. by apply core_on_slot, core_set_ext.
  - match goal with |- ∃ _, _ ∧ core_same (set_ticks ?tk (set_ext ?e s)) _ =>
      exists (set_ticks tk (set_ext e t)) end.
    split; [by eapply S_outside|]. destruct Hc, s, t. by split.
Qed.

End core.
