(* ===== verification/ExecutionProps.v ===== *)
(** Every step of the code is a few steps of the system: the proofs for each
    kind of step of Execution.v, and what follows for all the states the code
    can reach. *)

From S2P Require Import Prelude KernelEnv Proc Locking ProcSpec Lottery.
From S2P Require Import Handover Protocol System Execution.


Section simulation.
Context `{KernelEnv} `{SpinlockLaws}.

(** ** Several steps of the system, up to the core *)

Lemma moves_core s l s' : core_same s' s → moves 0 s l s' l.
Proof. intros Hc. exists 0%nat, s. split; [done|]. split; [constructor|done]. Qed.

Lemma moves_step s l s' t l' : sys_step (Sys s l) (Sys t l') → core_same s' t → moves 1 s l s' l'.
Proof. intros Hs Hc. exists 1%nat, t. split; [done|]. split; [by apply nsteps_once|done]. Qed.

Lemma nsteps_core n s t l s' l' :
  core_same s t → nsteps sys_step n (Sys s l) (Sys s' l') →
  ∃ t', nsteps sys_step n (Sys t l) (Sys t' l') ∧ core_same s' t'.
Proof.
  revert s t l. induction n as [|n IH]; intros s t l Hc Hn; inversion Hn as [|? ? [s1 l1] ? Hst Hrest]; subst.
  - exists t. by split; [constructor|].
  - destruct (sys_step_core _ _ _ _ _ Hc Hst) as (t1 & Hst' & Hc1).
    destruct (IH _ _ _ Hc1 Hrest) as (t' & Hn' & Hc'). exists t'. split; [|done]. by econstructor.
Qed.

Lemma moves_trans n m s l s1 l1 s2 l2 :
  moves n s l s1 l1 → moves m s1 l1 s2 l2 → moves (n + m) s l s2 l2.
Proof.
  intros (n' & t1 & Hn & Hs1 & Hc1) (m' & t2 & Hm & Hs2 & Hc2).
  destruct (nsteps_core _ _ _ _ _ _ Hc1 Hs2) as (t & Hs & Hc). exists (n' + m')%nat, t.
  split; [lia|]. split; [by eapply nsteps_trans|]. by trans t2.
Qed.

Lemma moves_weaken n m s l s' l' : (n ≤ m)%nat → moves n s l s' l' → moves m s l s' l'.
Proof. intros Hle (k & t & Hk & ?). exists k, t. split; [lia|done]. Qed.

(** ** The pieces of the code under the lock *)

Lemma calls_current c i s : calls c i s → current c s = Some i.
Proof. intros (_ & k & Hk & _ & Hp). unfold current. by rewrite Hk. Qed.

Lemma calls_can_lock c i s : calls c i s → can_lock c PtableLock s.
Proof. intros (Hf & k & Hk & Hn & _). split; [done|]. exists k. split; [done|]. split; [lia|intros; lia]. Qed.

Lemma depth_on_cpu c f s : (∀ k, ncli (f k) = ncli k) → idle_depth c s → idle_depth c (on_cpu c f s).
Proof.
  intros Hf (k & Hk & Hn). exists (f k). destruct s. simpl in *. rewrite list_lookup_alter_eq, Hk.
  split; [done|]. by rewrite Hf.
Qed.

Lemma depth_cpus c s t : cpus t = cpus s → idle_depth c s → idle_depth c t.
Proof. intros E (k & ? & ?). exists k. by rewrite E. Qed.

Lemma idles_dispatch c f s l o t :
  idles c s → scheduler_choose c f s = Ok o t →
  ∃ s1, locked c s1 t ∧ idle_depth c s1 ∧ moves 1 s l s1 l ∧
    length (ptable s1) = length (ptable s) ∧
    match o with Some i => current c s1 = Some i | None => True end.
Proof.
  intros (Hfree & k & Hk & Hn & Hp) Hch.
  destruct (scheduler_choose_locked c f s k Hfree Hk Hn) as (t' & Hch' & Hl).
  rewrite Hch in Hch'. simplify_eq. set (s0 := sti_effect c f s) in *.
  exists (choose_effect c s0).2. split; [done|].
  assert (current c s = None) as Hcur by (unfold current; by rewrite Hk).
  assert (idle_depth c s0) as Hd0.
  { assert (idle_depth c (on_cpu c (set_if true) s)) by (apply depth_on_cpu; [by intros []|by exists k]).
    unfold s0, sti_effect. case_decide; [|done]. eapply depth_cpus; [|done]. by destruct s. }
  pose proof (core_choose c s0 s (core_sti c f s)) as [E1 E2].
  destruct (choose_effect c s) as [o s1] eqn:Hs. simpl in E1, E2.
  assert (c < length (cpus s))%nat as Hlt by by eapply lookup_lt_Some.
  rewrite E1. split; [|split; [|split]].
  - unfold choose_effect. destruct (random_at_most _ _). case_match; simpl.
    + eapply depth_cpus; [|apply (depth_on_cpu c (set_cpu_proc (Some n)) s0); [by intros []|done]].
      by destruct s0.
    + eapply depth_cpus; [|done]. by destruct s0.
  - destruct o as [i|].
    + eapply moves_step; [by eapply S_dispatch|done].
    + eapply moves_step; [by eapply S_idle|done].
  - rewrite (core_ptable _ _ E2). apply (shape_choose _ _ _ _ Hs).
  - destruct o as [i|]; [|done]. rewrite (core_current _ _ _ E2).
    unfold choose_effect in Hs. destruct (random_at_most _ _). case_match; simplify_eq.
    trans (current c (on_cpu c (set_cpu_proc (Some i)) s)); [by destruct s|].
    rewrite current_on_cpu by done. by rewrite decide_True.
Qed.

Lemma flagged_core c saved s : core_same (flagged c saved s) s.
Proof. apply core_flag. by intros []. Qed.

Lemma sched_leave_locked c saved s t :
  locked c s t → idle_depth c s → is_intena saved →
  ∃ t', sched_leave c saved t = Ok tt t' ∧ locked c (flagged c saved s) t' ∧
        idle_depth c (flagged c saved s).
Proof.
  intros Hl Hd Hs. eexists. split; [done|]. split; [|by apply depth_on_cpu; [by intros []|]].
  destruct Hd as (k0 & Hk0 & Hn0).
  destruct Hl as [? ? ? ? ? ? ? (k & k' & Hk & Hcpus & Hok & Hp & Hn & Hif & Hi) Hfree Hh].
  assert (k = k0) as -> by congruence. pose proof (lookup_lt_Some _ _ _ Hk) as Hlt.
  destruct s, t. simpl in *. subst. unfold flagged, on_cpu. simpl. split; try done. simpl.
  exists (set_if (bool_decide (saved = 1)) k0), (set_intena saved k').
  rewrite list_lookup_alter_eq, Hk.
  rewrite (list_alter_insert _ _ _ k') by by apply list_lookup_insert_eq.
  rewrite (list_alter_insert _ _ _ k0 Hk), !list_insert_insert_eq.
  destruct k0, k'. simpl in *. rewrite decide_True by done. repeat split; try done; try lia.
  - simpl. lia.
  - by destruct Hs as [-> | ->].
Qed.

(** ** Each kind of step *)

Lemma simulated_equiv n s l s' l' u :
  (n ≤ 3)%nat → moves n s l u l' → s' ≡ u → lock_free PtableLock u → simulated s l s' l'.
Proof.
  intros Hn Hm Hu Hf. split; [|by rewrite Hu]. replace 3%nat with (3 + 0)%nat by lia.
  destruct Hm as (m & t & Hm & Hs & Hc). exists m, t. split; [lia|]. split; [done|].
  trans u; [by apply equiv_core|done].
Qed.

Lemma runs_eq {A} (m : K A) s a t b u : runs m s a t → m s = Ok b u → b = a ∧ u ≡ t.
Proof. intros (t' & Hm & Ht) Hu. rewrite Hm in Hu. injection Hu as -> ->. by split. Qed.

Lemma sim_run_new s l c f i t s' :
  idles c s → scheduler_choose c f s = Ok (Some i) t → l !! i = Some AtForkret →
  forkret c t = Ok tt s' → simulated s l s' (set_kont i InKernel l).
Proof.
  intros Hi Hch Hk Hf. destruct (idles_dispatch c f s l _ t Hi Hch) as (s1 & Hl & Hd & Hm & Hlen & Hcur).
  destruct (runs_eq _ _ _ _ _ _ (forkret_runs c s1 t Hl) Hf) as [_ Hu].
  apply (simulated_equiv 2 _ _ _ _ (forkret_effect s1)); [lia| |done|].
  - apply (moves_trans 1 1 _ _ s1 l); [done|]. eapply moves_step; [|done].
    by apply (S_resume s1 l c i AtForkret); [..|set_solver].
  - unfold forkret_effect. pose proof (locked_free _ _ _ Hl). case_decide; by destruct s1.
Qed.

Lemma sim_run_yield s l c f i t saved s' :
  idles c s → scheduler_choose c f s = Ok (Some i) t → l !! i = Some AtYield →
  is_intena saved → yield_rest c saved t = Ok tt s' → simulated s l s' (set_kont i InKernel l).
Proof.
  intros Hi Hch Hk Hs Hf. destruct (idles_dispatch c f s l _ t Hi Hch) as (s1 & Hl & Hd & Hm & Hlen & Hcur).
  destruct (sched_leave_locked c saved s1 t Hl Hd Hs) as (t1 & Hlv & Hl1 & _).
  destruct (release_locked _ _ _ Hl1) as (u & Hr & Hu).
  unfold yield_rest in Hf. cbv [mbind K_bind prog_bind] in Hf. rewrite Hlv, Hr in Hf. simplify_eq.
  apply (simulated_equiv 2 _ _ _ _ (flagged c saved s1)); [lia| |done|apply (locked_free _ _ _ Hl1)].
  apply (moves_trans 1 1 _ _ s1 l); [done|]. eapply moves_step; [|apply flagged_core].
  by apply (S_resume s1 l c i AtYield); [..|set_solver].
Qed.

Lemma sim_run_sleep s l c f i t saved s' :
  idles c s → scheduler_choose c f s = Ok (Some i) t → l !! i = Some AtSleep →
  is_intena saved → sleep_rest c i saved t = Ok tt s' → simulated s l s' (set_kont i InKernel l).
Proof.
  intros Hi Hch Hk Hs Hf. destruct (idles_dispatch c f s l _ t Hi Hch) as (s1 & Hl & Hd & Hm & Hlen & Hcur).
  destruct (sched_leave_locked c saved s1 t Hl Hd Hs) as (t1 & Hlv & Hl1 & _).
  pose proof (locked_on_slot c i (set_chan None) _ _ Hl1) as Hl2.
  destruct (release_locked _ _ _ Hl2) as (u & Hr & Hu).
  unfold sleep_rest in Hf. cbv [mbind K_bind prog_bind] in Hf. rewrite Hlv, upd_run, Hr in Hf. simplify_eq.
  apply (simulated_equiv 2 _ _ _ _ (on_slot i (set_chan None) (flagged c saved s1)));
    [lia| |done|apply (locked_free _ _ _ Hl2)].
  apply (moves_trans 1 1 _ _ s1 l); [done|].
  eapply moves_step; [|apply core_on_slot, flagged_core].
  by apply (S_resume s1 l c i AtSleep); [..|set_solver].
Qed.

Lemma sim_idle_code s l c f t s' :
  idles c s → scheduler_choose c f s = Ok None t → release c PtableLock t = Ok tt s' →
  simulated s l s' l.
Proof.
  intros Hi Hch Hr. destruct (idles_dispatch c f s l _ t Hi Hch) as (s1 & Hl & _ & Hm & _).
  destruct (release_locked _ _ _ Hl) as (u & Hr' & Hu). rewrite Hr in Hr'. simplify_eq.
  apply (simulated_equiv 1 _ _ _ _ s1); [lia|done|done|apply (locked_free _ _ _ Hl)].
Qed.

(** Giving the processor up: the scheduler takes over and releases the lock. *)
Lemma back_free c s t s' :
  locked c s t → scheduler_back c t = Ok tt s' →
  s' ≡ back_effect c s ∧ lock_free PtableLock (back_effect c s).
Proof.
  intros Hl Hb. destruct (runs_eq _ _ _ _ _ _ (scheduler_back_runs c s t Hl) Hb) as [_ Hu].
  split; [done|]. pose proof (locked_free _ _ _ Hl). by destruct s.
Qed.

(** ** wait *)

Lemma wait_wakes_locked c i saved s t t1 :
  locked c s t → idle_depth c s → is_intena saved → wait_wakes c i saved t = Ok tt t1 →
  ∃ u, locked c u t1 ∧ idle_depth c u ∧ core_same u (awake_effect AtWait i s).
Proof.
  intros Hl Hd Hs Hw. destruct (sched_leave_locked c saved s t Hl Hd Hs) as (t' & Hlv & Hl1 & Hd1).
  unfold wait_wakes in Hw. cbv [mbind K_bind prog_bind] in Hw. rewrite Hlv, upd_run in Hw. simplify_eq.
  exists (on_slot i (set_chan None) (flagged c saved s)). split_and!.
  - by apply locked_on_slot.
  - eapply depth_cpus; [|done]. by destruct (flagged c saved s).
  - apply core_on_slot, flagged_core.
Qed.

Lemma wait_scan_effect i p u z :
  (wait_scan i 0 (ptable u) false).2 = Some z → ∃ v, wait_effect i p u = Some (Some z, v).
Proof.
  intros Hz. unfold wait_effect. pose proof (wait_scan_eq i 0 (ptable u) false) as He.
  destruct (wait_scan _ _ _ _) as [hk o]. simpl in Hz. subst.
  destruct (list_find _ _) as [[z' q]|] eqn:Hf; simplify_eq/=.
  apply list_find_Some in Hf as [-> _]. eauto.
Qed.

(** A round of [wait] that returns. *)
Lemma wait_returns c i k p s u t v s' l :
  current c s = Some i → l !! i = Some k → k ∈ [InKernel; AtWait] →
  locked c u t → core_same u (awake_effect k i s) → ptable u !! i = Some p →
  wait_round c i t = Ok (Some v) s' →
  moves 1 s l s' (after_wait i (ptable t) l) ∧ lock_free PtableLock s'.
Proof.
  intros Hcur Hk Hin Hl Hc Hp Hw. pose proof (wait_round_runs c i u t p Hl Hp) as Hr.
  pose proof (core_ptable _ _ Hc) as Htab.
  unfold after_wait. rewrite (locked_ptable _ _ _ Hl).
  destruct (wait_effect i p u) as [[[z|] u']|] eqn:He; [| |congruence].
  - destruct Hr as (q & Hq & Hr). destruct (runs_eq _ _ _ _ _ _ Hr Hw) as [_ Hu].
    destruct (core_wait _ _ _ _ _ _ Hc He) as (w & Hw' & Hcw).
    assert ((wait_scan i 0 (ptable u) false).2 = Some z) as ->.
    { unfold wait_effect in He. destruct (wait_scan _ _ _ _) as [? [z'|]]; [|by repeat case_match].
      destruct (ptable u !! z'); by simplify_eq. }
    split.
    + eapply moves_step; [|trans u'; [by apply equiv_core|done]].
      eapply (S_wait_reap s l c i k p); [done..| |done]. by rewrite <-Htab.
    + rewrite Hu. pose proof (locked_free _ _ _ Hl). unfold wait_effect in He.
      repeat case_match; simplify_eq. unfold reap_effect. by destruct u.
  - destruct (runs_eq _ _ _ _ _ _ Hr Hw) as [_ Hu].
    destruct (core_wait _ _ _ _ _ _ Hc He) as (w & Hw' & Hcw).
    assert (u' = u) as -> by (unfold wait_effect in He; by repeat case_match; simplify_eq).
    destruct ((wait_scan i 0 (ptable u) false).2) as [z|] eqn:Hz.
    { apply (wait_scan_effect i p) in Hz as [v' Hz]. congruence. }
    split.
    + eapply moves_step; [|trans u; [by apply equiv_core|done]].
      eapply (S_wait_none s l c i k p); [done..| |done]. by rewrite <-Htab.
    + rewrite Hu. apply (locked_free _ _ _ Hl).
Qed.

(** [sched] changes nothing before the switch. *)
Lemma sched_enter_same c t v t' : sched_enter c t = Ok v t' → t' = t.
Proof.
  unfold sched_enter, curproc, proc_at, expect, get. cbv [mbind K_bind prog_bind mret K_ret prog_ret panic].
  intros Hs. repeat (case_match; simplify_eq/=). done.
Qed.

Lemma sleep_half_locked c i ch s t saved t2 :
  locked c s t → current c s = Some i → sleep_half c ch PtableLock t = Ok saved t2 →
  locked c (sleep_effect i ch s) t2.
Proof.
  intros Hl Hcur Hs. destruct (sleep_enter_wait c ch s t i Hl Hcur) as (u & He & Hl').
  unfold sleep_half in Hs. cbv [mbind K_bind prog_bind] in Hs. rewrite He in Hs.
  by apply sched_enter_same in Hs as ->.
Qed.

(** A round of [wait] that goes to sleep. *)
Lemma wait_sleeps c i k p s u t t1 saved t2 s' l :
  current c s = Some i → l !! i = Some k → k ∈ [InKernel; AtWait] →
  locked c u t → core_same u (awake_effect k i s) → ptable u !! i = Some p →
  wait_round c i t = Ok None t1 → sleep_half c (Some (ChProc i)) PtableLock t1 = Ok saved t2 →
  scheduler_back c t2 = Ok tt s' →
  moves 1 s l s' (set_kont i AtWait l) ∧ lock_free PtableLock s'.
Proof.
  intros Hcur Hk Hin Hl Hc Hp Hw Hs Hb. pose proof (wait_round_runs c i u t p Hl Hp) as Hr.
  destruct (wait_effect i p u) as [[[z|] u']|] eqn:He.
  { destruct Hr as (q & _ & w & Hr & _). congruence. }
  { destruct Hr as (w & Hr & _). congruence. }
  rewrite Hr in Hw. injection Hw as <-.
  assert (current c u = Some i) as Hcu.
  { rewrite (core_current _ _ _ Hc). destruct (awake_fields k i s) as (_ & Hcp & _).
    by rewrite (current_cpus _ _ _ Hcp). }
  pose proof (sleep_half_locked _ _ _ _ _ _ _ Hl Hcu Hs) as Hl2.
  destruct (back_free _ _ _ _ Hl2 Hb) as [Hu Hf]. split; [|by rewrite Hu].
  eapply moves_step.
  - eapply (S_wait_sleep s l c i k p); [done..| |].
    + by rewrite <-(core_ptable _ _ Hc).
    + eapply core_wait_none; [done|]. done.
  - trans (back_effect c (sleep_effect i (Some (ChProc i)) u)); [by apply equiv_core|].
    by apply core_back, core_on_slot.
Qed.

Lemma sound_lookup s l i k : sound s l → l !! i = Some k → ∃ p, ptable s !! i = Some p.
Proof.
  intros [[Hlen _] _] Hk. apply lookup_lt_is_Some_2. simpl in Hlen. rewrite <-Hlen. by eapply lookup_lt_Some.
Qed.

Lemma same_length_lookup {A} (l l' : list A) i x :
  length l' = length l → l !! i = Some x → ∃ y, l' !! i = Some y.
Proof. intros Hl Hx. apply lookup_lt_is_Some_2. rewrite Hl. by eapply lookup_lt_Some. Qed.

Lemma sim_run_wait s l c f i t saved t1 v s' :
  sound s l → idles c s → scheduler_choose c f s = Ok (Some i) t → l !! i = Some AtWait →
  is_intena saved → wait_wakes c i saved t = Ok tt t1 → wait_round c i t1 = Ok (Some v) s' →
  simulated s l s' (after_wait i (ptable t1) l).
Proof.
  intros Hso Hi Hch Hk Hs Hw Hr.
  destruct (idles_dispatch c f s l _ t Hi Hch) as (s1 & Hl & Hd & Hm & Hlen & Hcur).
  destruct (wait_wakes_locked c i saved s1 t t1 Hl Hd Hs Hw) as (u & Hlu & Hdu & Hcu).
  destruct (sound_lookup _ _ _ _ Hso Hk) as [p Hp].
  destruct (same_length_lookup (ptable s) (ptable u) i p) as [q Hq]; [|done|].
  { rewrite (core_ptable _ _ Hcu). destruct (awake_fields AtWait i s1) as [-> _]. done. }
  destruct (wait_returns c i AtWait q s1 u t1 v s' l Hcur Hk) as [Hm' Hf]; try done; [set_solver|].
  split; [|done]. apply (moves_weaken 2); [lia|]. by apply (moves_trans 1 1 _ _ s1 l).
Qed.

Lemma sim_run_wait_sleep s l c f i t saved t1 saved' t2 s' :
  sound s l → idles c s → scheduler_choose c f s = Ok (Some i) t → l !! i = Some AtWait →
  is_intena saved → wait_wakes c i saved t = Ok tt t1 → wait_round c i t1 = Ok None t1 →
  sleep_half c (Some (ChProc i)) PtableLock t1 = Ok saved' t2 → scheduler_back c t2 = Ok tt s' →
  simulated s l s' (set_kont i AtWait l).
Proof.
  intros Hso Hi Hch Hk Hs Hw Hr Hsl Hb.
  destruct (idles_dispatch c f s l _ t Hi Hch) as (s1 & Hl & Hd & Hm & Hlen & Hcur).
  destruct (wait_wakes_locked c i saved s1 t t1 Hl Hd Hs Hw) as (u & Hlu & Hdu & Hcu).
  destruct (sound_lookup _ _ _ _ Hso Hk) as [p Hp].
  destruct (same_length_lookup (ptable s) (ptable u) i p) as [q Hq]; [|done|].
  { rewrite (core_ptable _ _ Hcu). destruct (awake_fields AtWait i s1) as [-> _]. done. }
  destruct (wait_sleeps c i AtWait q s1 u t1 t1 saved' t2 s' l Hcur Hk) as [Hm' Hf]; try done; [set_solver|].
  split; [|done]. apply (moves_weaken 2); [lia|]. by apply (moves_trans 1 1 _ _ s1 l).
Qed.

(** *** Calls of a process *)

Lemma calls_locked c i s :
  calls c i s → ∃ t, acquire c PtableLock s = Ok tt t ∧ locked c s t ∧ current c t = Some i.
Proof.
  intros Hc. destruct (acquire_locked c s (calls_can_lock _ _ _ Hc)) as (t & Ha & Hl).
  exists t. split; [done|]. split; [done|].
  by rewrite (locked_current _ _ _ Hl), (calls_current _ _ _ Hc).
Qed.

Lemma sim_yield_code s l c i saved t s' :
  sound s l → calls c i s → l !! i = Some InKernel →
  yield_half c s = Ok saved t → scheduler_back c t = Ok tt s' →
  simulated s l s' (set_kont i AtYield l).
Proof.
  intros Hso Hc Hk Hy Hb. destruct (sound_lookup _ _ _ _ Hso Hk) as [p Hp].
  pose proof (calls_current _ _ _ Hc) as Hcur. destruct Hc as (Hf & k & Hck & Hn & Hcp).
  destruct (yield_half_locked c s k i p) as (t' & Hy' & Hl); [done..|]. rewrite Hy in Hy'. simplify_eq.
  destruct (back_free _ _ _ _ Hl Hb) as [Hu Hfr].
  apply (simulated_equiv 1 _ _ _ _ _ ltac:(lia)) with (2 := Hu); [|done].
  eapply moves_step; [|done]. by apply S_yield.
Qed.

Lemma wait_first_round c i s o s' :
  calls c i s → wait_first c s = Ok o s' → ∃ t, locked c s t ∧ wait_round c i t = Ok o s'.
Proof.
  intros Hc Hw. destruct (calls_locked _ _ _ Hc) as (t & Ha & Hl & Hct). exists t. split; [done|].
  unfold wait_first in Hw. cbv [mbind K_bind prog_bind] in Hw. by rewrite Ha, (curproc_run _ _ _ Hct) in Hw.
Qed.

Lemma sim_wait_code s l c i v s' :
  sound s l → calls c i s → l !! i = Some InKernel → wait_first c s = Ok (Some v) s' →
  simulated s l s' (after_wait i (ptable s) l).
Proof.
  intros Hso Hc Hk Hw. destruct (sound_lookup _ _ _ _ Hso Hk) as [p Hp].
  destruct (wait_first_round _ _ _ _ _ Hc Hw) as (t & Hl & Hr). rewrite <-(locked_ptable _ _ _ Hl).
  destruct (wait_returns c i InKernel p s s t v s' l) as [Hm Hf]; try done;
    [by apply calls_current|set_solver|].
  split; [|done]. by apply (moves_weaken 1); [lia|].
Qed.

Lemma sim_wait_sleep_code s l c i t1 saved t2 s' :
  sound s l → calls c i s → l !! i = Some InKernel → wait_first c s = Ok None t1 →
  sleep_half c (Some (ChProc i)) PtableLock t1 = Ok saved t2 → scheduler_back c t2 = Ok tt s' →
  simulated s l s' (set_kont i AtWait l).
Proof.
  intros Hso Hc Hk Hw Hs Hb. destruct (sound_lookup _ _ _ _ Hso Hk) as [p Hp].
  destruct (wait_first_round _ _ _ _ _ Hc Hw) as (t & Hl & Hr).
  destruct (wait_sleeps c i InKernel p s s t t1 saved t2 s' l) as [Hm Hf]; try done;
    [by apply calls_current|set_solver|].
  split; [|done]. by apply (moves_weaken 1); [lia|].
Qed.

Lemma exit_half_not_init c s i saved t :
  current c s = Some i → exit_half c s = Ok saved t → initproc s ≠ Some i.
Proof.
  intros Hcur He Hi. unfold exit_half, exit_files in He. cbv [mbind K_bind prog_bind] in He.
  rewrite (curproc_run _ _ _ Hcur) in He. cbv [get] in He. cbn beta iota in He.
  by rewrite decide_True in He.
Qed.

Lemma sim_exit_code s l c i saved t s' :
  sound s l → calls c i s → l !! i = Some InKernel →
  exit_half c s = Ok saved t → scheduler_back c t = Ok tt s' →
  simulated s l s' (set_kont i AtExit l).
Proof.
  intros Hso Hc Hk He Hb. destruct (sound_lookup _ _ _ _ Hso Hk) as [p Hp].
  pose proof (calls_current _ _ _ Hc) as Hcur. destruct Hc as (Hf & k & Hck & Hn & Hcp).
  pose proof (exit_half_not_init _ _ _ _ _ Hcur He) as Hni.
  destruct (exit_half_locked c s k i p) as (t' & He' & Hl); [done..|]. rewrite He in He'. simplify_eq.
  destruct (back_free _ _ _ _ Hl Hb) as [Hu Hfr].
  apply (simulated_equiv 1 _ _ _ _ _ ltac:(lia)) with (2 := Hu); [|done].
  eapply moves_step; [|done]. by apply S_exit.
Qed.

(** *** fork *)

Lemma slot_free s o s' : slot_effect s = (o, s') → lock_free PtableLock s → lock_free PtableLock s'.
Proof. unfold slot_effect. case_match; intros ? Hf; simplify_eq; [|done]. by destruct s. Qed.

Lemma sim_fork_slot_code s l c i np s' :
  calls c i s → l !! i = Some InKernel → allocproc_slot c s = Ok (Some np) s' →
  simulated s l s' (set_kont i (Forking np) l).
Proof.
  intros Hc Hk Ha. pose proof (allocproc_slot_runs c s (calls_can_lock _ _ _ Hc)) as Hr.
  destruct (slot_effect s) as [o s1] eqn:Hs. destruct (runs_eq _ _ _ _ _ _ Hr Ha) as [Ho Hu].
  simpl in *. subst o. apply (simulated_equiv 1 _ _ _ _ _ ltac:(lia)) with (2 := Hu).
  - eapply moves_step; [|done]. eapply S_fork_slot; [by apply calls_current|done|done].
  - eapply slot_free; [done|apply Hc].
Qed.

Lemma sim_fork_full_code s l c i s' :
  calls c i s → allocproc_slot c s = Ok None s' → simulated s l s' l.
Proof.
  intros Hc Ha. pose proof (allocproc_slot_runs c s (calls_can_lock _ _ _ Hc)) as Hr.
  destruct (runs_eq _ _ _ _ _ _ Hr Ha) as [Ho Hu]. unfold slot_effect in *.
  destruct (find_unused _); simplify_eq/=.
  apply (simulated_equiv 0 _ _ _ _ _ ltac:(lia)) with (2 := Hu); [by apply moves_core|apply Hc].
Qed.

Lemma stack_free np s : lock_free PtableLock s → lock_free PtableLock (stack_effect np s).2.
Proof. unfold stack_effect. destruct (kalloc _), s. by case_decide. Qed.

Lemma copy_free i np pp q s : lock_free PtableLock s → lock_free PtableLock (copy_effect i np pp q s).2.
Proof.
  unfold copy_effect. destruct (copyuvm _ _ _), s. case_decide; [done|].
  by destruct (dup_files _ _ _), (idup _ _).
Qed.

Lemma sim_fork_nostack_code s l c i np s' :
  calls c i s → l !! i = Some (Forking np) → allocproc_stack np s = Ok None s' →
  simulated s l s' (set_kont i InKernel l).
Proof.
  intros Hc Hk Ha. rewrite allocproc_stack_run in Ha. injection Ha as Ho <-.
  destruct (stack_effect np s) as [o s1] eqn:Hs. simpl in *. subst o.
  apply (simulated_equiv 1 _ _ _ _ s1 ltac:(lia)); [|done|].
  - eapply moves_step; [|done]. by eapply S_fork_nostack; [by apply calls_current|..].
  - pose proof (stack_free np s (proj1 Hc)) as Hf. by rewrite Hs in Hf.
Qed.

Lemma stack_length np s : length (ptable (stack_effect np s).2) = length (ptable s).
Proof.
  destruct (stack_effect np s) as [o s'] eqn:Hs. by destruct (shape_stack _ _ _ _ Hs).
Qed.

Lemma sim_fork_copy_code s l c i np s1 ok s' :
  sound s l → calls c i s → l !! i = Some (Forking np) → allocproc_stack np s = Ok (Some np) s1 →
  fork_copy i np s1 = Ok ok s' →
  simulated s l s' (set_kont i (if ok : bool then Copied np else InKernel) l).
Proof.
  intros Hso Hc Hk Ha Hcp. rewrite allocproc_stack_run in Ha. injection Ha as Ho <-.
  pose proof (stack_length np s) as Hlen. pose proof (stack_free np s (proj1 Hc)) as Hf.
  destruct (sound_lookup _ _ _ _ Hso Hk) as [pp Hpp].
  destruct (same_length_lookup _ _ _ _ Hlen Hpp) as [pp' Hpp'].
  destruct (lookup_lt_is_Some_2 (ptable s) np (proj2 Hso i np Hk)) as [q Hq].
  destruct (same_length_lookup _ _ _ _ Hlen Hq) as [q' Hq'].
  destruct (stack_effect np s) as [o s1] eqn:Hs. simpl in *. subst o.
  rewrite (fork_copy_run i np s1 pp' q' Hpp' Hq') in Hcp. injection Hcp as Hok <-.
  pose proof (copy_free i np pp' q' s1 Hf) as Hf'.
  destruct (copy_effect i np pp' q' s1) as [ok' s2] eqn:Hs2. simpl in *. subst ok'.
  apply (simulated_equiv 1 _ _ _ _ s2 ltac:(lia)); [|done|done].
  eapply moves_step; [|done]. by eapply S_fork_copy; [by apply calls_current|..].
Qed.

Lemma sim_fork_publish_code s l c i np s' :
  calls c i s → l !! i = Some (Copied np) → fork_publish c np s = Ok tt s' →
  simulated s l s' (set_kont np AtForkret (set_kont i InKernel l)).
Proof.
  intros Hc Hk Hf.
  destruct (runs_eq _ _ _ _ _ _ (fork_publish_runs c np s (calls_can_lock _ _ _ Hc)) Hf) as [_ Hu].
  apply (simulated_equiv 1 _ _ _ _ (publish_effect np s) ltac:(lia)); [|done|].
  - eapply moves_step; [|done]. by eapply S_fork_publish; [by apply calls_current|..].
  - pose proof (proj1 Hc). unfold publish_effect. by destruct s.
Qed.

(** *** The other functions of proc.c *)

Lemma sim_wakeup_code s l c ch s' :
  can_lock c PtableLock s → wakeup c ch s = Ok tt s' → simulated s l s' l.
Proof.
  intros Hc Hw. destruct (runs_eq _ _ _ _ _ _ (wakeup_runs c ch s Hc) Hw) as [_ Hu].
  apply (simulated_equiv 1 _ _ _ _ _ ltac:(lia)) with (2 := Hu).
  - eapply moves_step; [apply S_wakeup|done].
  - pose proof (proj1 Hc). by destruct s.
Qed.

Lemma sim_kill_code s l c n r s' :
  can_lock c PtableLock s → kill c n s = Ok r s' → simulated s l s' l.
Proof.
  intros Hc Hw. destruct (runs_eq _ _ _ _ _ _ (kill_runs c n s Hc) Hw) as [_ Hu].
  apply (simulated_equiv 1 _ _ _ _ _ ltac:(lia)) with (2 := Hu).
  - eapply moves_step; [apply S_kill|done].
  - pose proof (proj1 Hc). unfold kill_effect. case_match; [|done]. by destruct s.
Qed.

Lemma growproc_effect c i n s r s' :
  current c s = Some i → growproc c n s = Ok r s' →
  ∃ z e, s' = on_slot i (set_sz z) (set_ext e s) ∧ (sz <$> ptable s !! i = Some z ∨ 0 ≤ z ≤ UINT_MAX).
Proof.
  intros Hcur Hg. unfold growproc in Hg. cbv [mbind K_bind prog_bind] in Hg.
  rewrite (curproc_run _ _ _ Hcur) in Hg. cbn beta iota in Hg.
  destruct (ptable s !! i) as [p|] eqn:Hp.
  2:{ change (proc_at i s) with (expect (S := kernel) NullDeref (ptable s !! i) s) in Hg. by rewrite Hp in Hg. }
  rewrite (proc_at_run _ _ _ Hp) in Hg. cbn beta iota in Hg.
  assert (∀ e, set_ext e s = on_slot i (set_sz (sz p)) (set_ext e s)) as Hsame.
  { intros e. destruct s. unfold on_slot. simpl in *. f_equal. symmetry.
    rewrite (list_alter_insert _ _ _ _ Hp). rewrite list_insert_id; [done|]. rewrite Hp. by destruct p. }
  cbv [ext_get ext_do upd modify mret K_ret prog_ret] in Hg. cbn beta iota in Hg.
  assert (∀ z e e', set_ext e (set_ptable (alter (set_sz z) i (ptable (set_ext e' s))) (set_ext e' s)) =
    on_slot i (set_sz z) (set_ext e s)) as Hset by by destruct s.
  assert (∀ r, 0 ≤ u32 r ≤ UINT_MAX) as Hu.
  { intros r0. pose proof (u32_range r0). unfold UINT_MAX. lia. }
  repeat (case_match; simplify_eq/=); eauto 8.
  exists (sz p), (switchuvm i (ext s)). split; [by destruct s|]. by left.
Qed.

Lemma sim_growproc_code s l c i n r s' :
  calls c i s → l !! i = Some InKernel → growproc c n s = Ok r s' → simulated s l s' l.
Proof.
  intros Hc Hk Hg. pose proof (calls_current _ _ _ Hc) as Hcur.
  destruct (growproc_effect _ _ _ _ _ _ Hcur Hg) as (z & e & -> & Hz).
  apply (simulated_equiv 1 _ _ _ _ (on_slot i (set_sz z) (set_ext e s)) ltac:(lia)); [|done|].
  - eapply moves_step; [|done]. by eapply S_growproc.
  - pose proof (proj1 Hc). by destruct s.
Qed.

Lemma sim_outside_code s l s' :
  lock_free PtableLock s' →
  ptable s' = ptable s → initproc s' = initproc s → nextpid s' = nextpid s →
  first s' = first s → cpu_proc <$> cpus s' = cpu_proc <$> cpus s →
  simulated s l s' l.
Proof.
  intros Hf ? ? ? ? ?. split; [|done]. apply (moves_weaken 1); [lia|].
  eapply moves_step; [apply (S_outside s l (ext s') (ticks s'))|]. destruct s, s'. by split.
Qed.

Lemma core_given c k k' s L :
  cpus s !! c = Some k → cpu_proc k' = cpu_proc k →
  core_same (set_locks L (set_cpus (<[c:=k']> (cpus s)) s)) s.
Proof.
  intros Hk Hp. destruct s. split; try done. simpl in *. rewrite list_fmap_insert, Hp.
  apply list_insert_id. by rewrite list_lookup_fmap, Hk.
Qed.

(** The scheduler taking over from a section it knows only by its lock. *)
Lemma scheduler_back_core c t k s' :
  (∀ c', holding c' PtableLock (locks t) = bool_decide (c' = c)) → cpus t !! c = Some k →
  ncli k = 1 → eflags_if k = false → scheduler_back c t = Ok tt s' →
  core_same s' (back_effect c t) ∧ lock_free PtableLock s'.
Proof.
  intros Hh Hk Hn Hif Hb.
  destruct (release_ok c PtableLock (back_effect c t) (set_cpu_proc None k))
    as (L & k' & Hr & Hp & _ & _ & Hl & _).
  - transitivity (holding c PtableLock (locks t)); [by destruct t|]. by rewrite Hh, bool_decide_true.
  - destruct t. simpl in *. by rewrite list_lookup_alter_eq, Hk.
  - destruct k. simpl in *. lia.
  - by destruct k.
  - assert (scheduler_back c t = release c PtableLock (back_effect c t)) as He by by destruct t.
    rewrite He, Hr in Hb. injection Hb as <-. split.
    + apply (core_given c (set_cpu_proc None k)); [|by destruct k].
      destruct t. simpl in *. by rewrite list_lookup_alter_eq, Hk.
    + intros c'. trans (holding c' PtableLock L); [by destruct t|]. rewrite Hl.
      trans (holding c' PtableLock (locks t) && negb (bool_decide (c' = c))); [by destruct t|].
      rewrite Hh. by destruct (bool_decide (c' = c)).
Qed.

(** [sleep] on a lock of the caller's: the lock is let go only after
    [ptable.lock] has been taken. *)
Lemma sim_sleep_code s l c i ch lk k saved t s' :
  sound s l → lk ≠ PtableLock → lock_free PtableLock s → cpus s !! c = Some k → ncli k = 1 →
  eflags_if k = false → cpu_proc k = Some i → holding c lk (locks s) = true →
  (∀ c', c' ≠ c → holding c' lk (locks s) = false) → l !! i = Some InKernel →
  sleep_half c ch lk s = Ok saved t → scheduler_back c t = Ok tt s' →
  simulated s l s' (set_kont i AtSleep l).
Proof.
  intros Hso Hlp Hf Hk Hn Hif Hcp Hh Ho Hkk Hs Hb. destruct (sound_lookup _ _ _ _ Hso Hkk) as [p Hp].
  assert (current c s = Some i) as Hcur by (unfold current; by rewrite Hk).
  destruct (sleep_enter_lock c ch lk s k i p Hlp Hf Hk Hn Hif Hcur Hp Hh Ho)
    as (t0 & kt & He & (L & Ht) & _ & Hht & Hkt & Hnt & Hift & Hct).
  unfold sleep_half in Hs. cbv [mbind K_bind prog_bind] in Hs. rewrite He in Hs.
  apply sched_enter_same in Hs as ->.
  destruct (scheduler_back_core c t0 kt s' (Hht) Hkt Hnt Hift Hb) as [Hc Hfr].
  split; [|done]. apply (moves_weaken 1); [lia|].
  eapply moves_step; [by apply (S_sleep s l c i ch)|]. trans (back_effect c t0); [done|].
  apply core_back. subst.
  pose proof (core_given c k kt (sleep_effect i ch s) L) as Hg.
  replace (cpus (sleep_effect i ch s)) with (cpus s) in Hg by by destruct s.
  apply Hg; [done|congruence].
Qed.

Lemma sim_unseen_code s l c i f :
  calls c i s → sys_step (Sys s l) (Sys (on_slot i f s) l) → simulated s l (on_slot i f s) l.
Proof.
  intros Hc Hst. apply (simulated_equiv 1 _ _ _ _ (on_slot i f s) ltac:(lia)); [|done|].
  - by eapply moves_step.
  - pose proof (proj1 Hc). by destruct s.
Qed.

(** ** All of them *)

Lemma code_step_sim s l s' l' :
  sound s l → code_step (Sys s l) (Sys s' l') → simulated s l s' l'.
Proof.
  intros Hso Hst. inversion Hst; subst;
    eauto using sim_idle_code, sim_run_new, sim_run_yield, sim_run_sleep, sim_run_wait,
      sim_run_wait_sleep, sim_yield_code, sim_wait_code, sim_wait_sleep_code, sim_exit_code,
      sim_fork_slot_code, sim_fork_full_code, sim_fork_nostack_code, sim_fork_copy_code,
      sim_fork_publish_code, sim_wakeup_code, sim_kill_code, sim_sleep_code, sim_growproc_code,
      sim_outside_code.
  (* settickets, and the result register *)
  - eapply sim_unseen_code; [done|]. eapply S_settickets; [by eapply calls_current|done..].
  - eapply sim_unseen_code; [done|]. eapply S_trapframe; [by eapply calls_current|done].
Qed.

End simulation.
