(* ===== verification/SystemProps.v ===== *)
(** What holds of the whole process system in every interleaving: the boot
    state, the refinement of the protocol, and the invariants of the process
    table that follow from it. *)

From Stdlib Require Import String.
From S2P Require Import Prelude KernelEnv Proc Locking ProcSpec Lottery Handover Protocol.
From S2P Require Import System KernelInstance KernelProps.

Section system_properties.
Context `{KernelEnv} `{SpinlockLaws}.

(** The table as the loader leaves it. *)
Definition unused_table (s : kernel) : Prop :=
  Forall (λ p, state p = UNUSED ∧ parent p = None) (ptable s) ∧ ptable s ≠ [] ∧
  nextpid s = 1 ∧ ∀ c, current c s = None.

(** The threads after boot: init will start in [forkret]. *)
Definition boot_threads (s : kernel) : list kcont :=
  AtForkret :: replicate (length (ptable s) - 1) NoThread.

(** The trap frame init starts user mode with. *)
Definition init_image (p : proc) : Prop :=
  tf p = user_tf ∧ sz p = PGSIZE ∧ eip (ctx p) = u32 forkret_addr ∧ pgdir p ≠ 0 ∧
  tickets p = MAGIC_TICKET_NUM.

(** The assignments of [userinit] to the slot it was given. *)
Definition boot_slot (pg cw : Z) (p : proc) : proc :=
  set_state RUNNABLE (set_cwd cw (set_name (safestrcpy (name p) initcode_name 16)
    (set_tf user_tf (set_sz PGSIZE (set_pgdir pg p))))).

Lemma userinit_run c s s1 i :
  allocproc c s = Ok (Some i) s1 → (setupkvm (ext s1)).1 ≠ 0 →
  ∃ e cw, userinit c s =
    Ok tt (on_slot i (boot_slot (setupkvm (ext s1)).1 cw)
             (set_ext e (set_initproc (Some i) s1))).
Proof.
  intros Ha Hpg. unfold userinit. kunfold. rewrite Ha. cbn. destruct s1 as [tab ? ? ? ? ? ? e1 ?].
  simpl in *. destruct (setupkvm e1) as [pg e2]. simpl in *. rewrite decide_False by done. cbn.
  destruct (namei [47; 0] _) as [cw e3]. exists e3, cw. simpl.
  unfold on_slot. simpl. do 2 f_equal. rewrite !list_alter_alter_eq.
  apply list_alter_ext; [|done]. by intros [].
Qed.

(** C38: [userinit] on the table the loader leaves, with memory for a stack and
    a page table, makes slot 0 the first process - runnable, pid 1, entering
    user mode at address 0 of [initcode] - and the state one the system may
    start from. *)
Theorem userinit_boots c s :
  can_lock c PtableLock s → unused_table s →
  (kalloc (ext s)).1 ≠ 0 → (setupkvm (kalloc (ext s)).2).1 ≠ 0 →
  ∃ s' p, userinit c s = Ok tt s' ∧ lock_free PtableLock s' ∧ initproc s' = Some 0%nat ∧
    ptable s' !! 0%nat = Some p ∧ init_image p ∧
    booted (Sys s' (boot_threads s)).
Proof.
  intros Hc (Hun & Hne & Hn & Hcur) Hks Hpg.
  destruct (ptable s) as [|q tab] eqn:Htab; [done|].
  pose proof (Forall_cons_1 _ _ _ Hun) as [[Hq Hqp] Hrest].
  pose proof (allocproc_runs c s Hc) as (s1 & Ha & Heq).
  assert (alloc_effect s = (Some 0%nat, set_nextpid 2 (on_slot 0 (λ p, lay_stack (kalloc (ext s)).1
    (kalloc (ext s)).2 (take_slot 1 p)) (set_ext (kalloc (ext s)).2 s)))) as He.
  { unfold alloc_effect, slot_effect, find_unused. rewrite Htab. simpl.
    rewrite decide_True by done. simpl. unfold stack_effect.
    destruct s as [tab0 ? n ? ? ? ? e0 ?]. simpl in *. subst. destruct (kalloc e0) as [ks e].
    simpl in *. rewrite decide_False by done. reflexivity. }
  rewrite He in Ha, Heq. simpl in Ha, Heq.
  assert (ext s1 = (kalloc (ext s)).2) as Hext by (rewrite Heq; by destruct s).
  assert (ptable s1 = lay_stack (kalloc (ext s)).1 (kalloc (ext s)).2 (take_slot 1 q) :: tab) as Htab1
    by (rewrite Heq; destruct s; simpl in *; by subst).
  assert (nextpid s1 = 2) as Hn1 by (rewrite Heq; by destruct s).
  assert (∀ c', current c' s1 = None) as Hcur1 by (intros c'; rewrite Heq, <-(Hcur c'); by destruct s).
  assert (lock_free PtableLock s1) as Hfree1 by (rewrite Heq; destruct Hc as [Hl _]; by destruct s).
  rewrite <-Hext in Hpg. destruct (userinit_run c s s1 0 Ha Hpg) as (e & cw & Hu).
  eexists _, _. split; [exact Hu|]. clear Heq He Ha Hu.
  destruct s1 as [tab1 ? ? ? ? cs1 ? e1 ?]. simpl in *. subst. simpl.
  split; [done|]. split; [done|]. split; [done|]. split; [destruct q; by repeat split|].
  exists 0%nat. unfold boot_threads. rewrite Htab. simpl.
  split; [done|]. split; [done|]. rewrite length_replicate, Nat.sub_0_r. split; [done|].
  split; [lia|]. split; [done|]. intros [|j] p k Hp Hk; simpl in *; simplify_eq.
  - destruct q. by simpl in *.
  - destruct (Forall_lookup_1 _ _ _ _ Hrest Hp) as [? ?]. by apply lookup_replicate_1 in Hk as [-> _].
Qed.

(** ** Refinement *)

(** C3: the process code implements the protocol: from every reachable state,
    every step of the kernel - the effect of one critical section of one of its
    functions, on any processor - is a step of the protocol on the abstract
    slots, and the boot state abstracts to the protocol's. *)
Theorem kernel_refines_protocol x :
  reachable booted sys_step x →
  reachable aboot astep (abs x) ∧ ∀ x', sys_step x x' → astep (abs x) (abs x').
Proof.
  intros Hr. split.
  - destruct Hr as (x0 & Hb & Hs). apply rtc_nsteps in Hs as [n Hn].
    destruct (reachable_simulation n x) as [_ Ha]; [by exists x0|].
    by eapply reachable_in_reachable.
  - intros x' Hst. apply sys_step_sim; [by apply system_shape|by apply system_inv|done].
Qed.

(** ** Invariants

    The statements are commented where they are made of the code, in
    CodeProps.v. *)

Lemma system_running x i p :
  reachable booted sys_step x → ptable (ks x) !! i = Some p →
  state p = RUNNING ↔ ∃ c, current c (ks x) = Some i ∧ ∀ c', current c' (ks x) = Some i → c' = c.
Proof.
  intros Hr Hp. pose proof (system_inv x Hr) as Hi.
  destruct (system_slot x i p Hr Hp) as (k & _ & Hs). split.
  - intros Hrun. destruct (inv_running _ Hi i) as [c Hc]; [by rewrite Hs|].
    exists c. split; [done|]. intros c' Hc'. by apply (inv_cpu_inj _ Hi c' c i).
  - intros (c & Hc & _). pose proof (inv_oncpu _ Hi c i Hc) as Hst. by rewrite Hs in Hst.
Qed.

Lemma system_wakeup x i p j q :
  reachable booted sys_step x →
  ptable (ks x) !! i = Some p → konts x !! i = Some AtWait → state p = SLEEPING →
  chan p = Some (ChProc i) ∧
  (ptable (ks x) !! j = Some q → parent q = Some i → state q ≠ ZOMBIE).
Proof.
  intros Hr Hp Hk Hst. pose proof (system_inv x Hr) as Hi.
  destruct (system_slot x i p Hr Hp) as (k & Hk' & Hs). simplify_eq.
  destruct (inv_wait _ Hi i) as [Hch Hn]; [by rewrite Hs..|]. rewrite Hs in Hch.
  split; [done|]. intros Hq Hpar. destruct (system_slot x j q Hr Hq) as (k & _ & Hsq).
  specialize (Hn j). rewrite Hsq in Hn. by apply Hn.
Qed.

Lemma system_parents x i p :
  reachable booted sys_step x → ptable (ks x) !! i = Some p →
  (∀ q, parent p = Some q → q ≠ i ∧
     ∃ pp, ptable (ks x) !! q = Some pp ∧
           (state pp = SLEEPING ∨ state pp = RUNNABLE ∨ state pp = RUNNING)) ∧
  (state p = UNUSED → parent p = None) ∧
  (initproc (ks x) = Some i → parent p = None ∧ state p ≠ ZOMBIE ∧ state p ≠ UNUSED).
Proof.
  intros Hr Hp. pose proof (system_inv x Hr) as Hi.
  destruct (system_slot x i p Hr Hp) as (k & _ & Hs).
  pose proof (inv_parent _ Hi i) as Hpar. pose proof (inv_noself _ Hi i) as Hns.
  pose proof (inv_unused _ Hi i) as Hun. pose proof (inv_init _ Hi) as Hini.
  pose proof (inv_orphan _ Hi) as Hor. unfold alive in *. rewrite Hs in Hpar, Hns, Hun.
  split; [|split].
  - intros q Hq. split; [by intros ->|]. specialize (Hpar q Hq). simpl in Hpar.
    unfold view_at in Hpar. destruct (ptable (ks x) !! q) as [pp|]; [|naive_solver].
    exists pp. split; [done|]. by destruct (konts x !! q); [|naive_solver].
  - done.
  - intros Hip. replace (ainit (abs x)) with i in * by (simpl; by rewrite Hip).
    rewrite Hs in Hini, Hor. simpl in *. split; [done|]. split; intros E; rewrite E in Hini; naive_solver.
Qed.

Lemma system_pids n x i j p q :
  reachable_in booted sys_step n x → Z.of_nat n ≤ INT_MAX - 2 →
  ptable (ks x) !! i = Some p → ptable (ks x) !! j = Some q →
  state p ≠ UNUSED → state q ≠ UNUSED →
  0 < pid p < nextpid (ks x) ∧ (pid p = pid q → i = j).
Proof.
  intros Hn Hmax Hp Hq Hup Huq.
  destruct (reachable_simulation n x Hn) as [_ Ha].
  destruct (areachable_pids n (abs x) Ha) as [[_ Hrange Hinj] _]; [lia|].
  pose proof (reachable_in_reachable _ _ _ _ Hn) as Hr.
  destruct (system_slot x i p Hr Hp) as (k & _ & Hs).
  destruct (system_slot x j q Hr Hq) as (k' & _ & Hs').
  specialize (Hrange i). specialize (Hinj i j). rewrite Hs in Hrange, Hinj. rewrite Hs' in Hinj.
  split; [by apply Hrange|]. intros. by apply Hinj.
Qed.

Lemma system_embryo x np q :
  reachable booted sys_step x → ptable (ks x) !! np = Some q → state q = EMBRYO →
  ∃ i p, ptable (ks x) !! i = Some p ∧ state p = RUNNING ∧
    (konts x !! i = Some (Forking np) ∨ konts x !! i = Some (Copied np)) ∧
    ∀ i', konts x !! i' = Some (Forking np) ∨ konts x !! i' = Some (Copied np) → i' = i.
Proof.
  intros Hr Hq Hst. pose proof (system_inv x Hr) as Hi. destruct (system_shape x Hr) as [Hlen _].
  destruct (system_slot x np q Hr Hq) as (k & _ & Hs).
  assert (∀ i, owns (slot (abs x) i) np ↔
               konts x !! i = Some (Forking np) ∨ konts x !! i = Some (Copied np)) as Hown.
  { intros i. unfold owns. simpl. unfold view_at.
    destruct (ptable (ks x) !! i) as [p|] eqn:Hp, (konts x !! i) as [k'|] eqn:Hk; simpl.
    - naive_solver.
    - naive_solver.
    - apply lookup_ge_None in Hp. apply lookup_lt_Some in Hk. lia.
    - naive_solver. }
  destruct (inv_embryo _ Hi np) as [i Ho]; [by rewrite Hs|].
  pose proof (owner_running _ Hi i np Ho) as Hrun.
  simpl in Hrun. unfold view_at in Hrun.
  destruct (ptable (ks x) !! i) as [p|] eqn:Hp; [|done].
  destruct (konts x !! i) as [k'|] eqn:Hk; [|done].
  exists i, p. split; [done|]. split; [done|]. split; [by apply Hown|].
  intros i' Ho'%Hown. by apply (inv_owner_inj _ Hi i' i np).
Qed.

End system_properties.
