(* ===== verification/CodeProps.v ===== *)
(** What holds of every state the code of hw3/proc.c can reach: it is a state
    of the system of System.v up to what the processes see, and nothing the
    code does next panics but the exit of init. *)

From Stdlib Require Import String.
From S2P Require Import Prelude KernelEnv Proc Locking ProcSpec Lottery.
From S2P Require Import Handover Protocol System SystemProps Execution ExecutionProps.

Section code_properties.
Context `{KernelEnv} `{SpinlockLaws}.

(** ** The states of the code and the states of the system *)

Lemma reachable_sound y : reachable booted sys_step y → sound (ks y) (konts y).
Proof.
  intros Hr. pose proof (system_shape y Hr) as Hsh. pose proof (system_inv y Hr) as Hinv.
  destruct y as [s l]. split; [done|]. intros i np Hk.
  apply (sim_owned s l Hinv np i). left. by apply (sim_kont s l Hsh).
Qed.

Lemma sound_core s t l : core_same s t → sound t l → sound s l.
Proof.
  intros Hc [[Hlen (ini & Hini & Hlt)] Hch]. simpl in *. unfold sound.
  rewrite (core_ptable _ _ Hc). split; [|done]. split; simpl; [by rewrite (core_ptable _ _ Hc)|].
  exists ini. by rewrite (core_initproc _ _ Hc), (core_ptable _ _ Hc).
Qed.

(** From a reachable state the code's steps are followed by the system's, at
    most three for one. *)
Lemma code_steps_sim n x z xs :
  reachable booted sys_step xs → core_same (ks x) (ks xs) → konts x = konts xs →
  nsteps code_step n x z →
  ∃ m y, (m ≤ 3 * n)%nat ∧ nsteps sys_step m xs y ∧ core_same (ks z) (ks y) ∧ konts z = konts y.
Proof.
  intros (x0 & Hb & Hr0) Hc0 Hk0 Hn.
  apply (nsteps_preserves code_step (λ n z, ∃ m y, (m ≤ 3 * n)%nat ∧
    nsteps sys_step m xs y ∧ core_same (ks z) (ks y) ∧ konts z = konts y))
    with (n := n) (k := 0%nat) (s := x) (s' := z) in Hn; [done| |].
  - intros k [s l'] [s' l2] (m & [t l] & Hm & Hr & Hc & Hk) Hst. simpl in *. subst l'.
    destruct (code_step_sim s l s' l2) as [(m' & u & Hm' & Hs & Hcu) _]; [|done|].
    { eapply sound_core; [done|]. apply (reachable_sound (Sys t l)). exists x0. split; [done|].
      etrans; [exact Hr0|]. by eapply rtc_nsteps_2. }
    destruct (nsteps_core _ _ _ _ _ _ Hc Hs) as (v & Hv & Hcv).
    exists (m + m')%nat, (Sys v l2). split; [lia|]. split; [|split; [by trans u|done]].
    by eapply nsteps_trans.
  - exists 0%nat, xs. split; [lia|]. split; [constructor|done].
Qed.

Lemma code_steps_from n x0 x :
  booted x0 → nsteps code_step n x0 x →
  ∃ m y, (m ≤ 3 * n)%nat ∧ nsteps sys_step m x0 y ∧ core_same (ks x) (ks y) ∧ konts x = konts y.
Proof. intros Hb. apply (code_steps_sim n x0 x x0); [|done..]. exists x0. split; [done|apply rtc_refl]. Qed.

Lemma code_reachable_core_in n x :
  reachable_in booted code_step n x →
  ∃ m y, (m ≤ 3 * n)%nat ∧ reachable_in booted sys_step m y ∧
    core_same (ks x) (ks y) ∧ konts x = konts y.
Proof.
  intros (x0 & Hb & Hn). destruct (code_steps_from n x0 x Hb Hn) as (m & y & Hm & Hs & ?).
  exists m, y. split; [done|]. split; [by exists x0|done].
Qed.

Lemma code_reachable_from x0 x :
  booted x0 → rtc code_step x0 x →
  ∃ y, rtc sys_step x0 y ∧ core_same (ks x) (ks y) ∧ konts x = konts y.
Proof.
  intros Hb [n Hn]%rtc_nsteps. destruct (code_steps_from n x0 x Hb Hn) as (m & y & _ & Hs & ?).
  exists y. split; [by eapply rtc_nsteps_2|done].
Qed.

Lemma code_reachable_core x :
  reachable booted code_step x →
  ∃ y, reachable booted sys_step y ∧ core_same (ks x) (ks y) ∧ konts x = konts y.
Proof.
  intros (x0 & Hb & Hs). destruct (code_reachable_from x0 x Hb Hs) as (y & Hy & ?).
  exists y. split; [by exists x0|done].
Qed.

(** ** The pieces of code run to their ends *)

Lemma sleep_half_runs c i ch u t p :
  locked c u t → idle_depth c u → current c u = Some i → ptable u !! i = Some p →
  ∃ v t', sleep_half c ch PtableLock t = Ok v t' ∧ locked c (sleep_effect i ch u) t'.
Proof.
  intros Hl (k & Hk & Hn) Hcur Hp.
  destruct (sleep_enter_wait c ch u t i Hl Hcur) as (t' & He & Hl').
  unfold sleep_half. cbv [mbind K_bind prog_bind]. rewrite He.
  rewrite (sched_enter_ok c _ t' k i (set_state SLEEPING (set_chan ch p)) Hl');
    [eauto|by destruct u|done|by destruct u| |by destruct p].
  unfold sleep_effect. by rewrite on_slot_lookup, decide_True, Hp.
Qed.

Lemma wait_turn_runs c i u t p :
  locked c u t → idle_depth c u → current c u = Some i → ptable u !! i = Some p →
  ∃ s', wait_turn c i t = Ok tt s'.
Proof.
  intros Hl Hd Hcur Hp. pose proof (wait_round_runs c i u t p Hl Hp) as Hr.
  unfold wait_turn. cbv [mbind K_bind prog_bind].
  destruct (wait_effect i p u) as [[[z|] u']|].
  - destruct Hr as (q & _ & s' & -> & _). by eexists.
  - destruct Hr as (s' & -> & _). by eexists.
  - rewrite Hr. destruct (sleep_half_runs c i (Some (ChProc i)) u t p Hl Hd Hcur Hp) as (v & t' & -> & Hl').
    destruct (scheduler_back_runs _ _ _ Hl') as (s' & -> & _). by eexists.
Qed.

Lemma yield_rest_runs c saved u t :
  locked c u t → idle_depth c u → is_intena saved → ∃ s', yield_rest c saved t = Ok tt s'.
Proof.
  intros Hl Hd Hs. destruct (sched_leave_locked c saved u t Hl Hd Hs) as (t1 & Hlv & Hl1 & _).
  destruct (release_locked _ _ _ Hl1) as (s' & Hr & _). exists s'.
  unfold yield_rest. cbv [mbind K_bind prog_bind]. by rewrite Hlv.
Qed.

Lemma sleep_rest_runs c i saved u t :
  locked c u t → idle_depth c u → is_intena saved → ∃ s', sleep_rest c i saved t = Ok tt s'.
Proof.
  intros Hl Hd Hs. destruct (sched_leave_locked c saved u t Hl Hd Hs) as (t1 & Hlv & Hl1 & _).
  destruct (release_locked _ _ _ (locked_on_slot c i (set_chan None) _ _ Hl1)) as (s' & Hr & _).
  exists s'. unfold sleep_rest. cbv [mbind K_bind prog_bind]. by rewrite Hlv, upd_run.
Qed.

Lemma wait_again_runs c i saved u t p :
  locked c u t → idle_depth c u → is_intena saved → current c u = Some i → ptable u !! i = Some p →
  ∃ s', (wait_wakes c i saved ;; wait_turn c i) t = Ok tt s'.
Proof.
  intros Hl Hd Hs Hcur Hp. destruct (sched_leave_locked c saved u t Hl Hd Hs) as (t1 & Hlv & Hl1 & Hd1).
  pose proof (locked_on_slot c i (set_chan None) _ _ Hl1) as Hl2.
  destruct (wait_turn_runs c i _ _ (set_chan None p) Hl2) as [s' Hw].
  - eapply depth_cpus; [|done]. by destruct (flagged c saved u).
  - rewrite (core_current c _ (on_slot i (set_chan None) u)) by apply core_on_slot, flagged_core.
    by destruct u.
  - rewrite on_slot_lookup, decide_True by done.
    replace (ptable (flagged c saved u)) with (ptable u) by by destruct u. by rewrite Hp.
  - exists s'. unfold wait_wakes. cbv [mbind K_bind prog_bind]. by rewrite Hlv, upd_run.
Qed.

(** Wherever the process had stopped, the switch from the scheduler leads to
    code that runs. *)
Lemma resume_runs k c i saved u t p :
  k ∈ [AtForkret; AtYield; AtSleep; AtWait] →
  locked c u t → idle_depth c u → is_intena saved → current c u = Some i → ptable u !! i = Some p →
  ∃ s', resume k c i saved t = Ok tt s'.
Proof.
  intros Hin Hl Hd Hs Hcur Hp. rewrite !elem_of_cons, elem_of_nil in Hin.
  destruct Hin as [->|[->|[->|[->|[]]]]]; simpl;
    eauto using yield_rest_runs, sleep_rest_runs, wait_again_runs.
  destruct (forkret_runs c u t Hl) as (s' & Hf & _). eauto.
Qed.

(** [sleep] on a lock of its caller's - a driver's, or the clock's - goes as far
    as the switch and from there to the scheduler: [ptable.lock] is held at the
    checks of [sched]. *)
Lemma sleep_lock_enters c ch lk s k i p :
  lk ≠ PtableLock → lock_free PtableLock s → cpus s !! c = Some k → ncli k = 1 →
  eflags_if k = false → cpu_proc k = Some i → ptable s !! i = Some p →
  holding c lk (locks s) = true → (∀ c', c' ≠ c → holding c' lk (locks s) = false) →
  ∃ t kt s', sleep_enter c ch (Some lk) s = Ok i t ∧ cpus t !! c = Some kt ∧
    sched_enter c t = Ok (intena kt) t ∧ sleep_half c ch lk s = Ok (intena kt) t ∧
    scheduler_back c t = Ok tt s'.
Proof.
  intros Hlp Hf Hk Hn Hif Hcp Hp Hh Ho.
  assert (current c s = Some i) as Hcur by (unfold current; by rewrite Hk).
  destruct (sleep_enter_lock c ch lk s k i p) as
    (t & kt & He & (L & Ht) & _ & Hht & Hkt & Hnt & Hift & Hct); [done..|].
  assert (ptable t !! i = Some (set_state SLEEPING (set_chan ch p))) as Hpt.
  { subst t. unfold sleep_effect. destruct s. simpl in *. by rewrite list_lookup_alter_eq, Hp. }
  assert (sched_enter c t = Ok (intena kt) t) as Hse.
  { eapply (sched_enter_run c t kt i); [by rewrite Hht, bool_decide_true|done|done|done|done|exact Hpt|by destruct p]. }
  destruct (release_ok c PtableLock (back_effect c t) (set_cpu_proc None kt)) as (L2 & k2 & Hr & _).
  { trans (holding c PtableLock (locks t)); [by destruct t|]. by rewrite Hht, bool_decide_true. }
  { clear -Hkt. destruct t. simpl in *. by rewrite list_lookup_alter_eq, Hkt. }
  { destruct kt. simpl in *. lia. }
  { by destruct kt. }
  assert (scheduler_back c t = release c PtableLock (back_effect c t)) as Hb by by destruct t.
  rewrite Hr in Hb. exists t, kt. eexists. do 3 (split; [done|]). split; [|exact Hb].
  unfold sleep_half. cbv [mbind K_bind prog_bind]. by rewrite He.
Qed.

(** *** Calls *)

Lemma growproc_runs c n s i p :
  current c s = Some i → ptable s !! i = Some p → ∃ r s', growproc c n s = Ok r s'.
Proof.
  intros Hc Hp. unfold growproc. cbv [mbind K_bind prog_bind].
  rewrite (curproc_run _ _ _ Hc), (proc_at_run _ _ _ Hp).
  cbv [ext_get ext_do upd modify mret K_ret prog_ret]. repeat case_match; eauto.
Qed.

Lemma runs_unit {A} (m : K A) s a s' : m s = Ok a s' → (m ;; mret tt) s = Ok tt s'.
Proof. intros Hm. cbv [mbind K_bind prog_bind]. by rewrite Hm. Qed.

Lemma request_runs r c i s l :
  sound s l → calls c i s → l !! i = Some InKernel → (r = AskExit → initproc s ≠ Some i) →
  ∃ s', proceed InKernel r c i s = Ok tt s'.
Proof.
  intros Hso Hc Hk He. destruct (sound_lookup _ _ _ _ Hso Hk) as [p Hp].
  pose proof (calls_current _ _ _ Hc) as Hcur. pose proof Hc as (Hf & k & Hck & Hn & Hcp).
  destruct r; simpl.
  - destruct (yield_half_locked c s k i p) as (t & Hy & Hl); [done..|].
    destruct (scheduler_back_runs _ _ _ Hl) as (s' & Hb & _). exists s'.
    cbv [mbind K_bind prog_bind]. by rewrite Hy.
  - destruct (calls_locked _ _ _ Hc) as (t & Ha & Hl & Hct).
    destruct (wait_turn_runs c i s t p Hl) as [s' Hw]; [by exists k|done|done|]. exists s'.
    cbv [mbind K_bind prog_bind]. by rewrite Ha, (curproc_run _ _ _ Hct).
  - destruct (exit_half_locked c s k i p) as (t & Hx & Hl); [by auto..|].
    destruct (scheduler_back_runs _ _ _ Hl) as (s' & Hb & _). exists s'.
    cbv [mbind K_bind prog_bind]. by rewrite Hx.
  - destruct (allocproc_slot_runs c s (calls_can_lock _ _ _ Hc)) as (s' & Ha & _).
    exists s'. by eapply runs_unit.
  - destruct (growproc_runs c n s i p Hcur Hp) as (r & s' & Hg). exists s'. by eapply runs_unit.
Qed.

(** init cannot exit. *)
Lemma exit_refused c i s :
  calls c i s → initproc s = Some i → exit_half c s = Err (Panic "init exiting").
Proof.
  intros Hc Hi. unfold exit_half, exit_files. cbv [mbind K_bind prog_bind].
  rewrite (curproc_run _ _ _ (calls_current _ _ _ Hc)). cbv [get]. cbn beta iota.
  by rewrite decide_True.
Qed.

(** Process [i], on processor [c], holds the lock [lk] and no other: where the
    kernel calls [sleep] with a lock of its own. *)
Definition holds_one (c i : nat) (lk : lockid) (s : kernel) : Prop :=
  lk ≠ PtableLock ∧ lock_free PtableLock s ∧
  ∃ k, cpus s !! c = Some k ∧ ncli k = 1 ∧ eflags_if k = false ∧ cpu_proc k = Some i ∧
    holding c lk (locks s) = true ∧ ∀ c', c' ≠ c → holding c' lk (locks s) = false.

Lemma sleep_lock_runs c i ch lk s l :
  sound s l → holds_one c i lk s → l !! i = Some InKernel →
  ∃ saved t s', sleep_half c ch lk s = Ok saved t ∧ scheduler_back c t = Ok tt s'.
Proof.
  intros Hso (Hlp & Hf & k & Hk & Hn & Hif & Hcp & Hh & Ho) Hkk.
  destruct (sound_lookup _ _ _ _ Hso Hkk) as [p Hp].
  destruct (sleep_lock_enters c ch lk s k i p) as (t & kt & s' & _ & _ & _ & Hs & Hb); [done..|].
  by exists (intena kt), t, s'.
Qed.

Lemma fork_goes_on np r c i s l :
  sound s l → l !! i = Some (Forking np) → ∃ s', proceed (Forking np) r c i s = Ok tt s'.
Proof.
  intros Hso Hk. destruct (sound_lookup _ _ _ _ Hso Hk) as [pp Hpp].
  destruct (lookup_lt_is_Some_2 (ptable s) np (proj2 Hso i np Hk)) as [q Hq].
  pose proof (stack_length np s) as Hlen. simpl. cbv [mbind K_bind prog_bind].
  rewrite allocproc_stack_run.
  assert ((stack_effect np s).1 = None ∨ (stack_effect np s).1 = Some np) as [-> | ->]
    by (unfold stack_effect; destruct (kalloc _); case_decide; auto).
  - by eexists.
  - destruct (same_length_lookup _ _ _ _ Hlen Hpp) as [pp' Hpp'].
    destruct (same_length_lookup _ _ _ _ Hlen Hq) as [q' Hq'].
    rewrite (fork_copy_run i np _ pp' q' Hpp' Hq'). by eexists.
Qed.

Lemma proceed_runs k r c i s l :
  sound s l → calls c i s → l !! i = Some k → in_kernel k = true →
  (r = AskExit → initproc s ≠ Some i) → ∃ s', proceed k r c i s = Ok tt s'.
Proof.
  intros Hso Hc Hk Hin He. destruct k; try done.
  - by eapply request_runs.
  - by eapply fork_goes_on.
  - destruct (fork_publish_runs c np s (calls_can_lock _ _ _ Hc)) as (s' & Hf & _). by exists s'.
Qed.

(** A process the scheduler chooses has stopped in one of the functions that
    hand the processor over. *)
Lemma chosen_kont y s c f i :
  reachable booted sys_step y → core_same s (ks y) → (choose_effect c (sti_effect c f s)).1 = Some i →
  ∃ k p, konts y !! i = Some k ∧ ptable s !! i = Some p ∧ k ∈ [AtForkret; AtYield; AtSleep; AtWait].
Proof.
  intros Hy Hc Ho. destruct (core_choose c (sti_effect c f s) (ks y)) as [E _].
  { trans s; [apply core_sti|done]. }
  rewrite Ho in E. unfold choose_effect in E. destruct (random_at_most _ _) as [w e].
  destruct (lottery _ _) as [j|] eqn:Hl; simplify_eq/=.
  destruct (lottery_runnable _ _ _ Hl) as (p & Hp & Hrun).
  destruct (system_slot y j p Hy Hp) as (k & Hk & Hs). exists k, p.
  split; [done|]. split; [by rewrite (core_ptable _ _ Hc)|].
  pose proof (inv_kont _ (system_inv y Hy) j) as Hok. rewrite Hs in Hok. simpl in Hok.
  destruct k; simpl in Hok; rewrite ?Hrun in Hok; set_solver.
Qed.

(** The process on a processor is running. *)
Lemma current_running c i k s l :
  reachable booted code_step (Sys s l) → current c s = Some i → l !! i = Some k →
  ∃ p, ptable s !! i = Some p ∧ state p = RUNNING.
Proof.
  intros Hr Hcur Hk. destruct (code_reachable_core _ Hr) as (y & Hy & Hcy & El). simpl in *. subst.
  destruct (sound_lookup _ _ _ _ (sound_core _ _ _ Hcy (reachable_sound y Hy)) Hk) as [p Hp].
  exists p. split; [done|]. rewrite (core_ptable _ _ Hcy) in Hp. apply (system_running y i p Hy Hp).
  exists c. rewrite (core_current c _ _ Hcy) in Hcur. split; [done|].
  intros c' Hc'. by apply (inv_cpu_inj _ (system_inv y Hy) c' c i).
Qed.

Lemma calls_running c i s l :
  reachable booted code_step (Sys s l) → calls c i s → l !! i = Some InKernel →
  ∃ p, ptable s !! i = Some p ∧ state p = RUNNING.
Proof. intros Hr Hc. eapply current_running; [done|]. by apply calls_current. Qed.

(** ** The theorems *)

(** C1: the functions of proc.c implement the protocol of the process table.
    Every state they reach - each function run from one moment without
    [ptable.lock] to the next, on any processor, in any order - is, up to the
    interrupt flags and the locks, a state of the system of critical sections,
    whose abstraction is a state of the protocol. *)
Theorem code_refines_system x :
  reachable booted code_step x →
  ∃ y, reachable booted sys_step y ∧ core_same (ks x) (ks y) ∧ konts x = konts y ∧
    reachable aboot astep (abs y).
Proof.
  intros Hr. destruct (code_reachable_core x Hr) as (y & Hy & Hc & Hk). exists y.
  do 3 (split; [done|]). destruct Hy as (x0 & Hb & Hs). apply rtc_nsteps in Hs as [n Hn].
  destruct (reachable_simulation n y) as [_ Ha]; [by exists x0|].
  by eapply reachable_in_reachable.
Qed.

(** C2: the one panic the process code reaches is that of init calling [exit].
    In every reachable state a processor in its scheduler draws and then either
    gives the lock back or enters a process that had stopped in [forkret],
    [yield], [sleep] or [wait] - never in [exit] - and runs on without panic; a
    process running its own code may call yield, wait, fork or sbrk, and any but
    init exit, while init's exit is the panic "init exiting"; a process that
    holds one lock, not [ptable.lock], may sleep on any channel with it and
    arrives in the scheduler; and [wakeup] and [kill] run to their ends on any
    processor, in a process or in the handler of an interrupt, where
    [ptable.lock] is free.  So the checks of [sched], the null pointers and the
    double locks are never hit. *)
Theorem code_never_panics x c :
  reachable booted code_step x →
  (∀ f saved, idles c (ks x) → is_intena saved →
     ∃ o t, scheduler_choose c f (ks x) = Ok o t ∧
       match o with
       | None => ∃ s', release c PtableLock t = Ok tt s'
       | Some i => ∃ k s', konts x !! i = Some k ∧ resume k c i saved t = Ok tt s'
       end) ∧
  (∀ i k r, calls c i (ks x) → konts x !! i = Some k → in_kernel k = true →
     (r = AskExit → initproc (ks x) ≠ Some i) →
     ∃ s', proceed k r c i (ks x) = Ok tt s') ∧
  (∀ i, calls c i (ks x) → initproc (ks x) = Some i →
     exit_half c (ks x) = Err (Panic "init exiting")) ∧
  (∀ i ch lk, holds_one c i lk (ks x) → konts x !! i = Some InKernel →
     ∃ saved t s', sleep_half c ch lk (ks x) = Ok saved t ∧ scheduler_back c t = Ok tt s') ∧
  (∀ ch n, can_lock c PtableLock (ks x) →
     ∃ r s1 s2, wakeup c ch (ks x) = Ok tt s1 ∧ kill c n (ks x) = Ok r s2).
Proof.
  intros Hr. destruct (code_reachable_core x Hr) as (y & Hy & Hc & Hkk).
  pose proof (sound_core _ _ _ Hc (reachable_sound y Hy)) as Hso. rewrite <-Hkk in Hso.
  destruct x as [s l]. simpl in *. split; [|split; [|split; [|split]]].
  - intros f saved Hi Hs. pose proof Hi as (Hf & k & Hk & Hn & Hp).
    destruct (scheduler_choose_locked c f s k Hf Hk Hn) as (t & Hch & _).
    eexists _, t. split; [exact Hch|].
    destruct (idles_dispatch c f s l _ t Hi Hch) as (s1 & Hl & Hd & _ & Hlen & Hcur).
    destruct (choose_effect c (sti_effect c f s)).1 as [i|] eqn:Ho.
    + destruct (chosen_kont y s c f i Hy Hc Ho) as (kk & p & Hki & Hp1 & Hin).
      rewrite <-Hkk in Hki. destruct (same_length_lookup _ _ _ _ Hlen Hp1) as [q Hq].
      destruct (resume_runs kk c i saved s1 t q) as [s' Hs']; [done..|]. by exists kk, s'.
    + destruct (release_locked _ _ _ Hl) as (s' & Hrl & _). by exists s'.
  - intros i k r. by apply proceed_runs.
  - intros i. apply exit_refused.
  - intros i ch lk. by apply sleep_lock_runs.
  - intros ch n Hcl. destruct (wakeup_runs c ch s Hcl) as (s1 & Hw & _).
    destruct (kill_runs c n s Hcl) as (s2 & Hk & _). by eexists _, s1, s2.
Qed.

(** ** Invariants of the code *)

(** C13: in every reachable state a slot is in state RUNNING exactly when some
    processor runs it, and then exactly one does: no process runs on two
    processors, and none is lost between them. *)
Theorem running_iff_on_one_cpu x i p :
  reachable booted code_step x → ptable (ks x) !! i = Some p →
  state p = RUNNING ↔ ∃ c, current c (ks x) = Some i ∧ ∀ c', current c' (ks x) = Some i → c' = c.
Proof.
  intros Hr Hp. destruct (code_reachable_core x Hr) as (y & Hy & Hc & _).
  rewrite (core_ptable _ _ Hc) in Hp. rewrite (system_running y i p Hy Hp).
  by setoid_rewrite (λ c, core_current c _ _ Hc).
Qed.

(** C5: no wakeup is lost between [exit] and [wait]: in every reachable state
    a process that sleeps inside [wait] has no zombie child, and sleeps on its
    own slot, where [exit] of a child wakes it. *)
Theorem no_lost_wakeup x i p j q :
  reachable booted code_step x →
  ptable (ks x) !! i = Some p → konts x !! i = Some AtWait → state p = SLEEPING →
  chan p = Some (ChProc i) ∧
  (ptable (ks x) !! j = Some q → parent q = Some i → state q ≠ ZOMBIE).
Proof.
  intros Hr. destruct (code_reachable_core x Hr) as (y & Hy & Hc & ->).
  rewrite (core_ptable _ _ Hc). by apply system_wakeup.
Qed.

(** C14: in every reachable state the parent pointer of a slot leads to a
    living process - sleeping, runnable or running -, so that every zombie has
    somebody to wait for it; no process is its own parent; the first process is
    alive and has no parent; unused slots have none. *)
Theorem parents_alive x i p :
  reachable booted code_step x → ptable (ks x) !! i = Some p →
  (∀ q, parent p = Some q → q ≠ i ∧
     ∃ pp, ptable (ks x) !! q = Some pp ∧
           (state pp = SLEEPING ∨ state pp = RUNNABLE ∨ state pp = RUNNING)) ∧
  (state p = UNUSED → parent p = None) ∧
  (initproc (ks x) = Some i → parent p = None ∧ state p ≠ ZOMBIE ∧ state p ≠ UNUSED).
Proof.
  intros Hr. destruct (code_reachable_core x Hr) as (y & Hy & Hc & _).
  rewrite (core_ptable _ _ Hc), (core_initproc _ _ Hc). by apply system_parents.
Qed.

(** a slot that [allocproc] has taken (EMBRYO) belongs to exactly one fork
    in progress, whose caller is running: no two forks build in the same slot. *)
Lemma embryo_has_one_builder x np q :
  reachable booted code_step x → ptable (ks x) !! np = Some q → state q = EMBRYO →
  ∃ i p, ptable (ks x) !! i = Some p ∧ state p = RUNNING ∧
    (konts x !! i = Some (Forking np) ∨ konts x !! i = Some (Copied np)) ∧
    ∀ i', konts x !! i' = Some (Forking np) ∨ konts x !! i' = Some (Copied np) → i' = i.
Proof.
  intros Hr. destruct (code_reachable_core x Hr) as (y & Hy & Hc & ->).
  rewrite (core_ptable _ _ Hc). by apply system_embryo.
Qed.
(** C15: two slots in use never have the same pid, and pids are positive, in
    any state the code reaches in at most (2^31 - 3) / 3 steps ([nextpid] is an
    [int], and a step of the code is at most three of the system, each of which
    gives out at most one pid). *)
Theorem pids_unique n x i j p q :
  reachable_in booted code_step n x → 3 * Z.of_nat n ≤ INT_MAX - 2 →
  ptable (ks x) !! i = Some p → ptable (ks x) !! j = Some q →
  state p ≠ UNUSED → state q ≠ UNUSED →
  0 < pid p < nextpid (ks x) ∧ (pid p = pid q → i = j).
Proof.
  intros Hr Hmax. destruct (code_reachable_core_in n x Hr) as (m & y & Hm & Hy & Hc & _).
  rewrite (core_ptable _ _ Hc), (core_nextpid _ _ Hc). apply (system_pids m); [done|lia].
Qed.

End code_properties.
