(* ===== verification/TypeProps.v ===== *)
(** The types of the kernel's data: what the C types and array bounds of proc.h
    say of the fields of a process and of the globals of proc.c is preserved by
    everything the process code does, in any interleaving. *)

From Stdlib Require Import String.
From S2P Require Import Prelude KernelEnv Proc Locking ProcSpec Lottery.
From S2P Require Import Handover Protocol System SystemProps Execution ExecutionProps CodeProps.

Section types.
Context `{KernelEnv}.

Definition is_int (z : Z) : Prop := INT_MIN ≤ z ≤ INT_MAX.

Definition is_uint (z : Z) : Prop := 0 ≤ z ≤ UINT_MAX.

Definition is_flag (z : Z) : Prop := z = 0 ∨ z = 1.

(** [sizeof(proc->name)] *)
Definition name_size : nat := 16.

(** [struct proc], in a table of [n] slots. *)
Record proc_typed (n : nat) (p : proc) : Prop := {
  ty_sz : is_uint (sz p);
  ty_pid : is_int (pid p);
  ty_killed : is_flag (killed p);
  ty_tickets : is_int (tickets p);
  ty_parent : ∀ q, parent p = Some q → (q < n)%nat;
  ty_tf_addr : is_uint (tf_addr p);
  ty_context_addr : is_uint (context_addr p);
  ty_kret : is_uint (kret p);
  ty_ofile : length (ofile p) = NOFILE;
  ty_name : length (name p) = name_size
}.

(** string.c: [safestrcpy] writes inside the array it is given the size of. *)
Class CopyLaw : Prop := {
  safestrcpy_length : ∀ dst src n,
    0 ≤ n ≤ Z.of_nat (length dst) → length (safestrcpy dst src n) = length dst
}.

End types.

Section kernel_types.
Context `{KernelEnv} `{Spinlock}.

(** The table and the globals. *)
Record kernel_typed (s : kernel) : Prop := {
  ty_table : length (ptable s) = NPROC;
  ty_initproc : ∀ i, initproc s = Some i → (i < NPROC)%nat;
  ty_nextpid : is_int (nextpid s);
  ty_first : is_flag (first s);
  ty_procs : Forall (proc_typed NPROC) (ptable s)
}.

End kernel_types.

(** ** Assignments *)

Section assignments.
Context `{KernelEnv} `{CL : !CopyLaw}.

Lemma u32_uint z : is_uint (u32 z).
Proof. pose proof (u32_range z). unfold is_uint, UINT_MAX. lia. Qed.

Lemma stack_tf_uint ks : is_uint (stack_tf ks).
Proof. apply u32_uint. Qed.

Lemma i32_int z : is_int (i32 z).
Proof. apply i32_range. Qed.

Lemma typed_state n v p : proc_typed n p → proc_typed n (set_state v p).
Proof. destruct p. by intros []. Qed.

Lemma typed_chan n v p : proc_typed n p → proc_typed n (set_chan v p).
Proof. destruct p. by intros []. Qed.

Lemma typed_kstack n v p : proc_typed n p → proc_typed n (set_kstack v p).
Proof. destruct p. by intros []. Qed.

Lemma typed_pgdir n v p : proc_typed n p → proc_typed n (set_pgdir v p).
Proof. destruct p. by intros []. Qed.

Lemma typed_cwd n v p : proc_typed n p → proc_typed n (set_cwd v p).
Proof. destruct p. by intros []. Qed.

Lemma typed_tf n v p : proc_typed n p → proc_typed n (set_tf v p).
Proof. destruct p. by intros []. Qed.

Lemma typed_ctx n v p : proc_typed n p → proc_typed n (set_ctx v p).
Proof. destruct p. by intros []. Qed.

Lemma typed_sz n v p : is_uint v → proc_typed n p → proc_typed n (set_sz v p).
Proof. destruct p. by intros ? []. Qed.

Lemma typed_pid n v p : is_int v → proc_typed n p → proc_typed n (set_pid v p).
Proof. destruct p. by intros ? []. Qed.

Lemma typed_killed n v p : is_flag v → proc_typed n p → proc_typed n (set_killed v p).
Proof. destruct p. by intros ? []. Qed.

Lemma typed_tickets n v p : is_int v → proc_typed n p → proc_typed n (set_tickets v p).
Proof. destruct p. by intros ? []. Qed.

Lemma typed_parent n v p :
  (∀ q, v = Some q → (q < n)%nat) → proc_typed n p → proc_typed n (set_parent v p).
Proof. destruct p. by intros ? []. Qed.

Lemma typed_tf_addr n v p : is_uint v → proc_typed n p → proc_typed n (set_tf_addr v p).
Proof. destruct p. by intros ? []. Qed.

Lemma typed_context_addr n v p : is_uint v → proc_typed n p → proc_typed n (set_context_addr v p).
Proof. destruct p. by intros ? []. Qed.

Lemma typed_kret n v p : is_uint v → proc_typed n p → proc_typed n (set_kret v p).
Proof. destruct p. by intros ? []. Qed.

Lemma typed_ofile n v p : length v = NOFILE → proc_typed n p → proc_typed n (set_ofile v p).
Proof. destruct p. by intros ? []. Qed.

Lemma typed_name n v p : length v = name_size → proc_typed n p → proc_typed n (set_name v p).
Proof. destruct p. by intros ? []. Qed.

Create HintDb typed.

#[local] Hint Resolve typed_state typed_chan typed_kstack typed_pgdir typed_cwd typed_tf typed_ctx
  typed_sz typed_pid typed_killed typed_tickets typed_parent typed_tf_addr typed_context_addr
  typed_kret typed_ofile typed_name u32_uint stack_tf_uint i32_int : typed.

Lemma typed_take n v p : is_int v → proc_typed n p → proc_typed n (take_slot v p).
Proof. intros. unfold take_slot. apply typed_tickets; [done|]. auto with typed. Qed.

Lemma typed_lay n ks e p : proc_typed n p → proc_typed n (lay_stack ks e p).
Proof. intros. unfold lay_stack. auto 10 with typed. Qed.

Lemma typed_drop n p : proc_typed n p → proc_typed n (drop_slot p).
Proof. intros. unfold drop_slot. auto with typed. Qed.

Lemma typed_strcpy n p q : proc_typed n p → length (safestrcpy (name p) q 16) = name_size.
Proof. intros []. by rewrite safestrcpy_length by (rewrite ty_name0; unfold name_size; lia). Qed.

Lemma typed_copy n cur pp pg files cw q :
  (cur < n)%nat → length files = NOFILE → proc_typed n pp → proc_typed n q →
  proc_typed n (copy_proc cur pp pg files cw q).
Proof.
  intros Hc Hf Hp Hq. unfold copy_proc. apply typed_name.
  - by apply (typed_strcpy n).
  - assert (∀ j, Some cur = Some j → (j < n)%nat) by (intros ? [= <-]; done).
    pose proof (ty_sz _ _ Hp). auto 10 with typed.
Qed.

Lemma typed_reap n p : proc_typed n p → proc_typed n (reap_slot p).
Proof.
  intros Hp. unfold reap_slot. apply typed_killed; [by left|]. apply typed_name.
  - rewrite length_insert. apply (ty_name _ _ Hp).
  - apply typed_parent; [done|]. apply typed_pid; [done|]. auto with typed.
Qed.

Lemma typed_kill n p : proc_typed n p → proc_typed n (kill_proc p).
Proof.
  intros. unfold kill_proc. assert (proc_typed n (set_killed 1 p)) by (apply typed_killed; [by right|done]).
  case_decide; auto with typed.
Qed.

Lemma typed_wake n ch p : proc_typed n p → proc_typed n (wake ch p).
Proof. intros. unfold wake. case_decide; auto with typed. Qed.

Lemma typed_reparent n cur ip w p :
  (∀ q, ip = Some q → (q < n)%nat) → proc_typed n p → proc_typed n (reparent_slot cur ip w p).
Proof.
  intros Hip Hp. unfold reparent_slot, adopt.
  repeat case_match; repeat case_decide; auto using typed_wake, typed_parent.
Qed.

Lemma dup_files_length from to e : length (dup_files from to e).1 = length to.
Proof.
  revert to e. induction from as [|f from IH]; intros [|t to] e; simpl; [done..|].
  destruct (if decide _ then _ else _) as [t' e1]. specialize (IH to e1).
  destruct (dup_files from to e1) as [r e2]. simpl in *. by rewrite IH.
Qed.

Lemma close_files_length fs e : length (close_files fs e).1 = length fs.
Proof.
  revert e. induction fs as [|f fs IH]; intros e; simpl; [done|].
  destruct (if decide _ then _ else _) as [f' e1]. specialize (IH e1).
  destruct (close_files fs e1) as [r e2]. simpl in *. by rewrite IH.
Qed.

End assignments.

(** ** Steps *)

Section steps.
Context `{KernelEnv} `{SpinlockLaws} `{CL : !CopyLaw}.

Lemma typed_core s t : core_same s t → kernel_typed t → kernel_typed s.
Proof.
  intros Hc []. split; rewrite ?(core_ptable _ _ Hc), ?(core_initproc _ _ Hc), ?(core_nextpid _ _ Hc),
    ?(core_first _ _ Hc); done.
Qed.

Lemma typed_lookup s i p : kernel_typed s → ptable s !! i = Some p → proc_typed NPROC p ∧ (i < NPROC)%nat.
Proof.
  intros Ht Hp. split; [by eapply Forall_lookup_1, Hp; apply Ht|].
  rewrite <-(ty_table _ Ht). by eapply lookup_lt_Some.
Qed.

Lemma typed_on_slot i f s :
  kernel_typed s → (∀ p, ptable s !! i = Some p → proc_typed NPROC p → proc_typed NPROC (f p)) →
  kernel_typed (on_slot i f s).
Proof.
  intros Ht Hf. pose proof Ht as [Hlen Hini Hn Hfi Hps]. destruct s as [tab]. simpl in *. split; simpl; try done.
  - by rewrite length_alter.
  - apply Forall_lookup_2. intros j p Hp. apply list_alter_lookup_Some in Hp as [(-> & q & Hq & ->)|[_ Hp]].
    + apply Hf; [done|]. by apply (Forall_lookup_1 _ _ _ _ Hps Hq).
    + by apply (Forall_lookup_1 _ _ _ _ Hps Hp).
Qed.

Lemma typed_map f s :
  kernel_typed s → (∀ p, proc_typed NPROC p → proc_typed NPROC (f p)) →
  kernel_typed (set_ptable (f <$> ptable s) s).
Proof.
  intros [Hlen Hini Hn Hfi Hps] Hf. destruct s as [tab]. simpl in *. split; simpl; try done.
  - by rewrite length_fmap.
  - apply list.Forall_fmap. eapply list.Forall_impl; [exact Hps|done].
Qed.

Lemma typed_set_ext e s : kernel_typed s → kernel_typed (set_ext e s).
Proof. destruct s. by intros []. Qed.

Lemma typed_on_cpu c f s : kernel_typed s → kernel_typed (on_cpu c f s).
Proof. destruct s. by intros []. Qed.

Lemma typed_back c s : kernel_typed s → kernel_typed (back_effect c s).
Proof. intros. by apply typed_on_cpu, typed_set_ext. Qed.

Lemma typed_awake k i s : kernel_typed s → kernel_typed (awake_effect k i s).
Proof.
  intros Ht. assert (kernel_typed (on_slot i (set_chan None) s)).
  { apply typed_on_slot; [done|]. intros p _. apply typed_chan. }
  destruct k; simpl; try done. unfold forkret_effect. case_decide; [|done].
  apply typed_set_ext. destruct s, Ht. split; try done. by left.
Qed.

Lemma typed_sleep i ch s : kernel_typed s → kernel_typed (sleep_effect i ch s).
Proof. intros. apply typed_on_slot; [done|]. intros p _ Hp. by apply typed_state, typed_chan. Qed.

Lemma typed_choose c s : kernel_typed s → kernel_typed (choose_effect c s).2.
Proof.
  intros Ht. unfold choose_effect. destruct (random_at_most _ _) as [w e].
  destruct (lottery _ _); simpl; [|by apply typed_set_ext].
  apply typed_on_slot; [by apply typed_set_ext, typed_on_cpu|]. intros p _. apply typed_state.
Qed.

Lemma typed_slot s : kernel_typed s → kernel_typed (slot_effect s).2.
Proof.
  intros Ht. unfold slot_effect. destruct (find_unused _) as [i|]; [|done]. simpl.
  assert (kernel_typed (on_slot i (take_slot (nextpid s)) s)) as Hs.
  { apply typed_on_slot; [done|]. intros p _. apply typed_take, Ht. }
  revert Hs. generalize (nextpid s). intros n. destruct s. intros []. split; try done. apply i32_int.
Qed.

Lemma typed_stack i s : kernel_typed s → kernel_typed (stack_effect i s).2.
Proof.
  intros Ht. unfold stack_effect. destruct (kalloc _) as [ks e].
  case_decide; simpl; (apply typed_on_slot; [by apply typed_set_ext|]); intros p _;
    [apply typed_drop|apply typed_lay].
Qed.

Lemma typed_copied cur np pp q s :
  kernel_typed s → ptable s !! cur = Some pp → ptable s !! np = Some q →
  kernel_typed (copy_effect cur np pp q s).2.
Proof.
  intros Ht Hpp Hq. destruct (typed_lookup _ _ _ Ht Hpp) as [Hp Hlt].
  destruct (typed_lookup _ _ _ Ht Hq) as [Htq _]. unfold copy_effect.
  destruct (copyuvm _ _ _) as [pg e1]. case_decide; simpl.
  - apply typed_on_slot; [by apply typed_set_ext|]. intros p _ Hp'. by apply typed_drop, typed_pgdir.
  - pose proof (dup_files_length (ofile pp) (ofile q) e1) as Hf.
    destruct (dup_files _ _ _) as [files e2]. destruct (idup _ _) as [cw e3]. simpl in *.
    apply typed_on_slot; [by apply typed_set_ext|]. intros p _ Hp'.
    apply typed_copy; [done| |done..]. by rewrite Hf, (ty_ofile _ _ Htq).
Qed.

Lemma typed_waited i p s o s' : kernel_typed s → wait_effect i p s = Some (o, s') → kernel_typed s'.
Proof.
  intros Ht. unfold wait_effect. destruct (wait_scan _ _ _ _) as [hk [z|]].
  - destruct (ptable s !! z) as [q|]; [|done]. intros [= <- <-]. unfold reap_effect.
    apply typed_on_slot; [by apply typed_set_ext|]. intros q' _. apply typed_reap.
  - destruct (_ || _); [|done]. by intros [= <- <-].
Qed.

Lemma typed_exit i p s :
  kernel_typed s → ptable s !! i = Some p →
  kernel_typed (exit_zombie_effect i (exit_files_effect i p s)).
Proof.
  intros Ht Hp. destruct (typed_lookup _ _ _ Ht Hp) as [Hpt _].
  assert (kernel_typed (exit_files_effect i p s)) as Hs1.
  { unfold exit_files_effect. pose proof (close_files_length (ofile p) (ext s)) as Hf.
    destruct (close_files _ _) as [files e]. simpl in Hf. apply typed_on_slot; [by apply typed_set_ext|].
    intros q _ Hq. apply typed_cwd, typed_ofile; [|done]. by rewrite Hf, (ty_ofile _ _ Hpt). }
  revert Hs1. generalize (exit_files_effect i p s). intros s1 Hs1.
  unfold exit_zombie_effect. destruct (ptable s1 !! i) as [q|]; [|done].
  apply typed_on_slot; [|intros ? _; apply typed_state].
  rewrite reparent_eq. unfold wake_all. rewrite <-list_fmap_compose.
  apply typed_map; [done|]. intros q' Hq'. apply typed_reparent; [apply Hs1|by apply typed_wake].
Qed.

Lemma typed_step x x' : kernel_typed (ks x) → sys_step x x' → kernel_typed (ks x').
Proof.
  intros Ht Hst. destruct Hst; simpl in *; auto using typed_back, typed_sleep, typed_awake.
  - match goal with E : choose_effect _ _ = _ |- _ => pose proof (typed_choose c s Ht) as Hc; by rewrite E in Hc end.
  - match goal with E : choose_effect _ _ = _ |- _ => pose proof (typed_choose c s Ht) as Hc; by rewrite E in Hc end.
  - apply typed_back, typed_on_slot; [done|]. intros p _. apply typed_state.
  - eapply typed_waited; [|done]. by apply typed_awake.
  - eapply typed_waited; [|done]. by apply typed_awake.
  - by apply typed_back, typed_exit.
  - match goal with E : slot_effect _ = _ |- _ => pose proof (typed_slot s Ht) as Hc; by rewrite E in Hc end.
  - match goal with E : stack_effect _ _ = _ |- _ => pose proof (typed_stack np s Ht) as Hc; by rewrite E in Hc end.
  - match goal with E : stack_effect _ _ = _ |- _ => pose proof (typed_stack np s Ht) as Hc; rewrite E in Hc end.
    pose proof (typed_copied i np pp q s1 Hc) as Hc2.
    match goal with E : copy_effect _ _ _ _ _ = _ |- _ => rewrite E in Hc2 end. by apply Hc2.
  - apply typed_on_slot; [done|]. intros p _. apply typed_state.
  - apply typed_map; [done|]. intros p. apply typed_wake.
  - unfold kill_effect. destruct (find_pid _ _); [|done]. simpl.
    apply typed_on_slot; [done|]. intros p _. apply typed_kill.
  - apply typed_on_slot; [done|]. intros p _. by apply typed_tickets.
  - apply typed_on_slot; [done|]. intros p _. apply typed_tf.
  - apply typed_on_slot; [by apply typed_set_ext|]. intros p Hp Hpt. apply typed_sz; [|done].
    destruct s. simpl in *. rewrite Hp in *. simpl in *. destruct Hpt. naive_solver.
  - destruct s, Ht. by split.
Qed.

End steps.

(** ** The theorem *)

Section types_hold.
Context `{KernelEnv} `{SpinlockLaws} `{CL : !CopyLaw}.

Lemma allocated_in_table s i : (alloc_effect s).1 = Some i → (i < length (ptable s))%nat.
Proof.
  unfold alloc_effect, slot_effect, find_unused, stack_effect.
  destruct (list_find _ _) as [[j p]|] eqn:Hf; simpl; [|done].
  destruct (kalloc _). case_decide; simpl; [done|]. intros [= <-].
  apply list_find_Some in Hf as (Hp & _). by eapply lookup_lt_Some.
Qed.

Lemma typed_userinit c s s' :
  can_lock c PtableLock s → is_uint PGSIZE → kernel_typed s → userinit c s = Ok tt s' → kernel_typed s'.
Proof.
  intros Hc Hpg Ht Hu. destruct (allocproc_runs c s Hc) as (s1 & Ha & Heq).
  assert (kernel_typed (alloc_effect s).2) as Ht1.
  { unfold alloc_effect. pose proof (typed_slot s Ht) as Hs. destruct (slot_effect s) as [[i|] s2]; [|done].
    by apply typed_stack. }
  apply equiv_core, typed_core in Heq; [|done].
  destruct (alloc_effect s).1 as [i|] eqn:Hsome.
  - destruct (decide ((setupkvm (ext s1)).1 = 0)) as [Hz|Hz].
    + exfalso. unfold userinit in Hu. revert Hu. kunfold. rewrite Ha. cbn. destruct s1. simpl in *.
      rewrite Hz. by rewrite decide_True by done.
    + destruct (userinit_run c s s1 i Ha Hz) as (e & cw & Hr). rewrite Hr in Hu. injection Hu as <-.
      assert (i < NPROC)%nat as Hlt.
      { rewrite <-(ty_table _ Ht). eapply allocated_in_table, Hsome. }
      apply typed_on_slot.
      * destruct s1, Heq. split; try done. by intros ? [= <-].
      * intros p _ Hp. unfold boot_slot. apply typed_state, typed_cwd, typed_name.
        { by apply (typed_strcpy NPROC). }
        by apply typed_tf, typed_sz, typed_pgdir.
  - exfalso. unfold userinit in Hu. revert Hu. kunfold. by rewrite Ha.
Qed.

(** C18: the types of the data hold in every state. From a well-typed table -
    sizes and stack addresses are unsigned 32-bit numbers, pids and tickets
    [int]s, [killed] and [first] are 0 or 1, parents and [initproc] point into
    the table, every process has NOFILE file slots and a 16-byte name -
    [userinit] leads to one, and so does every step of the process code, on any
    processor, in any order. *)
Theorem kernel_types :
  (∀ c s s', can_lock c PtableLock s → is_uint PGSIZE → kernel_typed s →
     userinit c s = Ok tt s' → kernel_typed s') ∧
  ∀ x, reachable (λ y, booted y ∧ kernel_typed (ks y)) code_step x → kernel_typed (ks x).
Proof.
  split; [apply typed_userinit|]. intros x (x0 & [Hb Ht] & Hr).
  destruct (code_reachable_from x0 x Hb Hr) as (y & Hy & Hc & _).
  eapply typed_core; [exact Hc|].
  by apply (rtc_preserves sys_step (λ y, kernel_typed (ks y)) typed_step x0).
Qed.

End types_hold.
