(* ===== verification/PidProps.v ===== *)
(** Pids over time: what a pid names does not change while [nextpid] does not
    wrap around. *)

From Stdlib Require Import String.
From S2P Require Import Prelude KernelEnv Proc Locking ProcSpec Lottery.
From S2P Require Import Handover Protocol System SystemProps Execution ExecutionProps CodeProps.

Section pids.



End pids.

Section code.
Context `{KernelEnv} `{SpinlockLaws}.



End code.
