(* ===== verification/TicketProps.v ===== *)
(** Tickets over time: which steps change the tickets of a process, and that
    they are those of its own last call of settickets. *)

From Stdlib Require Import String.
From S2P Require Import Prelude KernelEnv Proc Locking ProcSpec Lottery Handover Protocol.
From S2P Require Import System SwitchProps SystemProps Execution ExecutionProps CodeProps.

(** ** Code that works slot by slot *)

Section slotwise.
Context `{KernelEnv} `{Spinlock}.

(** A slot keeps its tickets, and a slot in use was in use, with the same pid;
    of the slot [o], which is known to be in use before, the pid is kept. *)
Definition same_process (o : option nat) (j : nat) (p q : proc) : Prop :=
  tickets q = tickets p ∧
  if decide (o = Some j) then pid q = pid p
  else state q ≠ UNUSED → state p ≠ UNUSED ∧ pid q = pid p.

Definition same_slots (o : option nat) (tab tab' : list proc) : Prop :=
  length tab' = length tab ∧
  ∀ j p q, tab !! j = Some p → tab' !! j = Some q → same_process o j p q.

Definition slotwise (o : option nat) {A} (m : K A) : Prop :=
  ∀ s a s', m s = Ok a s' → same_slots o (ptable s) (ptable s').

#[export] Instance same_slots_preorder o : PreOrder (same_slots o).
Proof.
  split.
  - intros tab. split; [done|]. intros j p q Hp Hq. simplify_eq. split; [done|]. by case_decide.
  - intros t1 t2 t3 [L1 H1] [L2 H2]. split; [congruence|]. intros j p q Hp Hq.
    destruct (lookup_lt_is_Some_2 t2 j) as [r Hr]; [rewrite L1; by eapply lookup_lt_Some|].
    destruct (H1 j p r Hp Hr) as [T1 P1], (H2 j r q Hr Hq) as [T2 P2]. split; [congruence|].
    case_decide; [congruence|]. intros Hu. destruct (P2 Hu) as [Hu2 E2], (P1 Hu2) as [Hu1 E1].
    split; [done|congruence].
Qed.

(** The slot [o] is in use before. *)
Lemma same_slots_used o tab tab' :
  same_slots o tab tab' → (∀ i p, o = Some i → tab !! i = Some p → state p ≠ UNUSED) →
  same_slots None tab tab'.
Proof.
  intros [Hl Hs] Hu. split; [done|]. intros j p q Hp Hq. destruct (Hs j p q Hp Hq) as [Ht Hor].
  split; [done|]. rewrite decide_False by done. case_decide as Ho; [|done].
  intros _. split; [by eapply Hu|done].
Qed.

Lemma same_slots_fmap o (f : proc → proc) tab :
  (∀ p, tickets (f p) = tickets p ∧ pid (f p) = pid p ∧ (state p = UNUSED → state (f p) = UNUSED)) →
  same_slots o tab (f <$> tab).
Proof.
  intros Hf. split; [apply length_fmap|]. intros j p q Hp. rewrite list_lookup_fmap, Hp. intros [= <-].
  destruct (Hf p) as (Ht & Hi & Hu). split; [done|]. case_decide; [done|]. auto.
Qed.

Lemma same_slots_alter o i (f : proc → proc) tab :
  (∀ p, tickets (f p) = tickets p ∧
     (pid (f p) = pid p ∧ (o = Some i ∨ (state p = UNUSED → state (f p) = UNUSED)) ∨
      o ≠ Some i ∧ state (f p) = UNUSED)) →
  same_slots o tab (alter f i tab).
Proof.
  intros Hf. split; [apply length_alter|]. intros j p q Hp Hq.
  apply list_alter_lookup_Some in Hq as [(-> & p' & Hp' & ->)|[_ Hq]]; simplify_eq.
  - destruct (Hf p) as (Ht & Hc). split; [done|]. case_decide as Ho; [naive_solver|].
    destruct Hc as [[Hi [?|Hu]]|[_ Hu]]; [done|auto|done].
  - split; [done|]. by case_decide.
Qed.

(** ** Rules *)

Lemma slotwise_same o {A} (m : K A) :
  (∀ s a s', m s = Ok a s' → ptable s' = ptable s) → slotwise o m.
Proof. intros Hm s a s' Hr. by rewrite (Hm s a s' Hr). Qed.

Lemma slotwise_bind o {A B} (m : K A) (f : A → K B) :
  slotwise o m → (∀ a, slotwise o (f a)) → slotwise o (m ≫= f).
Proof.
  intros Hm Hf s b s'. unfold mbind, K_bind, prog_bind. destruct (m s) as [a s1|] eqn:Hr; [|done].
  intros Hr2. trans (ptable s1); [by eapply Hm|by eapply Hf].
Qed.

Lemma slotwise_ret o {A} (a : A) : slotwise o (mret a).
Proof. apply slotwise_same. by intros s b s' [= _ <-]. Qed.

Lemma slotwise_get o {A} (f : kernel → K A) :
  (∀ s a s', f s s = Ok a s' → same_slots o (ptable s) (ptable s')) → slotwise o (s ← (get : K kernel); f s).
Proof. intros Hf s a s'. apply Hf. Qed.

Lemma slotwise_expect o {A} e (x : option A) : slotwise o (expect e x : K A).
Proof. destruct x; [apply slotwise_ret|done]. Qed.

Lemma slotwise_curproc o c : slotwise o (curproc c).
Proof. apply slotwise_get. intros s a s' Hr. by eapply slotwise_expect. Qed.

Lemma slotwise_proc_at o i : slotwise o (proc_at i).
Proof. apply slotwise_get. intros s a s' Hr. by eapply slotwise_expect. Qed.

Lemma slotwise_ext_get o {A} (f : kext → A * kext) : slotwise o (ext_get f).
Proof. apply slotwise_same. intros s a s' [= _ <-]. by destruct s. Qed.

Lemma slotwise_ext_do o f : slotwise o (ext_do f).
Proof. apply slotwise_same. intros s a s' [= _ <-]. by destruct s. Qed.

Lemma slotwise_upd_cpu o c f : slotwise o (upd_cpu c f).
Proof. apply slotwise_same. intros s a s' [= _ <-]. by destruct s. Qed.

Lemma slotwise_with_lock o f c l : slotwise o (with_lock f c l).
Proof.
  apply slotwise_same. intros s a s'. unfold with_lock.
  destruct (cpus s !! c) as [k|]; [|done]. destruct (f _ _) as [[L k']|]; [|done].
  intros [= _ <-]. by destruct s.
Qed.

Lemma slotwise_fmap o (f : kernel → proc → proc) :
  (∀ s p, tickets (f s p) = tickets p ∧ pid (f s p) = pid p ∧ (state p = UNUSED → state (f s p) = UNUSED)) →
  slotwise o (modify (λ s, set_ptable (f s <$> ptable s) s) : K unit).
Proof.
  intros Hf s a s' [= _ <-]. replace (ptable (set_ptable _ s)) with (f s <$> ptable s) by by destruct s.
  by apply same_slots_fmap.
Qed.

Lemma slotwise_upd o i f :
  (∀ p, tickets (f p) = tickets p ∧
     (pid (f p) = pid p ∧ (o = Some i ∨ (state p = UNUSED → state (f p) = UNUSED)) ∨
      o ≠ Some i ∧ state (f p) = UNUSED)) →
  slotwise o (upd i f).
Proof.
  intros Hf s a s'. rewrite upd_run. intros [= _ <-]. rewrite (proj1 (on_slot_fields _ _ _)).
  by apply same_slots_alter.
Qed.

(** Two assignments to one slot. *)
Lemma slotwise_upd_upd o i f g {A} (m : unit → K A) :
  slotwise o (upd i (λ p, g (f p)) ≫= m) → slotwise o (upd i f ≫= λ _, upd i g ≫= m).
Proof.
  intros Hm s a s' Hr. apply (Hm s a s'). rewrite <-Hr. cbv [mbind K_bind prog_bind].
  rewrite !upd_run. f_equal. unfold on_slot. destruct s. simpl. by rewrite list_alter_alter_eq.
Qed.

End slotwise.

(** An assignment that leaves the state alone, or sets it to [UNUSED]. *)
Ltac slot_keeps :=
  let p := fresh in intros p; destruct p; cbn; split; [done|]; left; split; [done|]; right; by intros.

Ltac slotwise :=
  repeat first
    [ apply slotwise_ret | apply slotwise_curproc | apply slotwise_proc_at | apply slotwise_expect
    | apply slotwise_ext_get | apply slotwise_ext_do | apply slotwise_upd_cpu | apply slotwise_with_lock
    | apply slotwise_upd; slot_keeps
    | match goal with
      | |- slotwise _ (mbind _ _) => apply slotwise_bind; [|intros ?]
      | |- slotwise _ (get) => apply slotwise_same; by intros ? ? ? [= _ <-]
      | |- slotwise _ (modify _) => apply slotwise_same; intros [] ? ? [= _ <-]; done
      | |- slotwise _ (fail _) => by intros ? ? ?
      | |- slotwise _ (if ?b then _ else _) => destruct b
      | |- slotwise _ (match ?x with _ => _ end) => destruct x
      end ].

Section functions.
Context `{KernelEnv} `{Spinlock}.

(** ** The functions of proc.c *)

Lemma slots_forkret o c : slotwise o (forkret c).
Proof. unfold forkret, release. slotwise. Qed.

Lemma slots_yield_rest o c saved : slotwise o (yield_rest c saved).
Proof. unfold yield_rest, sched_leave, release. slotwise. Qed.

Lemma slots_sleep_rest o c i saved : slotwise o (sleep_rest c i saved).
Proof. unfold sleep_rest, sched_leave, release. slotwise. Qed.

Lemma slots_wait_wakes o c i saved : slotwise o (wait_wakes c i saved).
Proof. unfold wait_wakes, sched_leave. slotwise. Qed.

Lemma slots_back o c : slotwise o (scheduler_back c).
Proof. unfold scheduler_back, release. slotwise. Qed.

Lemma slots_release o c l : slotwise o (release c l).
Proof. unfold release. slotwise. Qed.

Lemma slots_stack o i : slotwise o (allocproc_stack i).
Proof. unfold allocproc_stack. slotwise. Qed.

Lemma slots_copy o cur np : slotwise o (fork_copy cur np).
Proof. unfold fork_copy. slotwise. Qed.

Lemma slots_growproc o c n : slotwise o (growproc c n).
Proof. unfold growproc. slotwise. Qed.

Lemma wake_keeps ch p :
  tickets (wake ch p) = tickets p ∧ pid (wake ch p) = pid p ∧ (state p = UNUSED → state (wake ch p) = UNUSED).
Proof. unfold wake. case_decide as Hs; [|done]. destruct p. simpl in *. naive_solver. Qed.

Lemma slots_wakeup o c ch : slotwise o (wakeup c ch).
Proof.
  unfold wakeup, acquire, release. slotwise. apply (slotwise_fmap o (λ _, wake ch)). intros _ p. apply wake_keeps.
Qed.

Lemma slots_kill o c n : slotwise o (kill c n).
Proof.
  unfold kill, acquire, release. slotwise. apply slotwise_upd. intros p. unfold kill_proc.
  destruct p. cbn. case_decide; cbn; (split; [done|]; left; split; [done|]; right; congruence).
Qed.

Lemma slots_publish c np : slotwise (Some np) (fork_publish c np).
Proof.
  unfold fork_publish, acquire, release. slotwise. apply slotwise_upd. intros []. cbn.
  split; [done|]. left. split; [done|by left].
Qed.

(** [wait] frees the slot before it clears the pid. *)
Lemma slots_reap c i : slotwise None (wait_reap c i).
Proof.
  unfold wait_reap, release. apply slotwise_bind; [slotwise|]. intros p.
  do 3 (apply slotwise_bind; [slotwise|]; intros ?).
  apply slotwise_upd_upd. slotwise. apply slotwise_upd. intros []. cbn. split; [done|]. by right.
Qed.

Lemma slots_wait_round c cur : slotwise None (wait_round c cur).
Proof. unfold wait_round, release. slotwise; apply slots_reap. Qed.

End functions.

(** ** Steps *)

Section steps.
Context `{KernelEnv} `{SpinlockLaws}.

(** [settickets(n)] by the process in slot [j]. *)
Definition settickets_step (j : nat) (n : Z) (x y : sys) : Prop :=
  ∃ c, calls c j (ks x) ∧ konts x !! j = Some InKernel ∧
    y = Sys (on_slot j (set_tickets n) (ks x)) (konts x).

(** A process is born in slot [j]. *)
Definition birth (j : nat) (x y : sys) : Prop :=
  ∃ p, ptable (ks x) !! j = Some p ∧ state p = UNUSED ∧
    ptable (ks y) = <[j := take_slot (nextpid (ks x)) p]> (ptable (ks x)).

Lemma choose_slots c f s i t :
  idles c s → scheduler_choose c f s = Ok (Some i) t →
  same_slots None (ptable s) (ptable t) ∧ ∀ p, ptable t !! i = Some p → state p = RUNNING.
Proof.
  intros Hi Hch. pose proof Hi as (Hfree & k & Hk & Hn & _).
  destruct (scheduler_choose_locked c f s k Hfree Hk Hn) as (t' & Hch' & Hl).
  rewrite Hch in Hch'. injection Hch' as Ho <-.
  assert (∃ p, ptable s !! i = Some p ∧ state p = RUNNABLE) as (p & Hp & Hrun).
  { unfold choose_effect in Ho. destruct (random_at_most _ _) as [w e].
    destruct (lottery _ _) as [j|] eqn:Hj; simplify_eq/=. destruct (lottery_runnable _ _ _ Hj) as (p & Hp & Hr).
    exists p. split; [|done]. unfold sti_effect in Hp. repeat case_decide; by destruct s. }
  pose proof (locked_ptable _ _ _ Hl) as Ht. unfold choose_effect in *.
  destruct (random_at_most _ _) as [w e]. destruct (lottery _ _) as [j|]; simplify_eq/=.
  assert (ptable t = alter (set_state RUNNING) j (ptable s)) as ->.
  { rewrite Ht. unfold sti_effect. case_decide; by destruct s. }
  split.
  - apply (same_slots_used (Some j)); [|intros ? ? [= <-] ?; simplify_eq; congruence].
    apply same_slots_alter. intros []. cbn. split; [done|]. left. split; [done|by left].
  - intros q. rewrite list_lookup_alter_eq, Hp. intros [= <-]. by destruct p.
Qed.

Lemma idle_slots c f s t : idles c s → scheduler_choose c f s = Ok None t → ptable t = ptable s.
Proof.
  intros (Hfree & k & Hk & Hn & _) Hch.
  destruct (scheduler_choose_locked c f s k Hfree Hk Hn) as (t' & Hch' & Hl).
  rewrite Hch in Hch'. injection Hch' as Ho <-. rewrite (locked_ptable _ _ _ Hl). unfold choose_effect in *.
  destruct (random_at_most _ _) as [w e]. destruct (lottery _ _); simplify_eq/=.
  unfold sti_effect. case_decide; by destruct s.
Qed.

Lemma sleep_slots i ch s :
  (∀ p, ptable s !! i = Some p → state p ≠ UNUSED) →
  same_slots None (ptable s) (ptable (sleep_effect i ch s)).
Proof.
  intros Hu. apply (same_slots_used (Some i)); [|intros ? ? [= <-]; apply Hu].
  unfold sleep_effect. rewrite (proj1 (on_slot_fields _ _ _)).
  apply same_slots_alter. intros []. cbn. split; [done|]. left. split; [done|by left].
Qed.

Lemma exit_slots i p s :
  ptable s !! i = Some p → state p ≠ UNUSED →
  same_slots None (ptable s) (ptable (exit_zombie_effect i (exit_files_effect i p s))).
Proof.
  intros Hp Hu. apply (same_slots_used (Some i)); [|intros ? ? [= <-] ?; by simplify_eq].
  trans (ptable (exit_files_effect i p s)).
  - unfold exit_files_effect. destruct (close_files _ _). rewrite (proj1 (on_slot_fields _ _ _)).
    replace (ptable (set_ext _ s)) with (ptable s) by by destruct s. apply same_slots_alter. slot_keeps.
  - generalize (exit_files_effect i p s). intros t. unfold exit_zombie_effect.
    destruct (ptable t !! i) as [q|]; [|done]. rewrite (proj1 (on_slot_fields _ _ _)).
    replace (ptable (set_ptable _ t)) with (reparent i (initproc t) (wake_all (ChProc <$> parent q) (ptable t)))
      by by destruct t.
    trans (wake_all (ChProc <$> parent q) (ptable t)); [apply same_slots_fmap; intros; apply wake_keeps|].
    rewrite reparent_eq.
    trans (reparent_slot i (initproc t) (existsb (zombie_child i) (wake_all (ChProc <$> parent q) (ptable t)))
      <$> wake_all (ChProc <$> parent q) (ptable t)).
    + apply same_slots_fmap. intros r. unfold reparent_slot, adopt.
      assert (∀ v, tickets (set_parent v r) = tickets r ∧ pid (set_parent v r) = pid r ∧
        state (set_parent v r) = state r) as Hsp by by destruct r.
      destruct (Hsp (initproc t)) as (E1 & E2 & E3).
      pose proof (wake_keeps (ChProc <$> initproc t) r). pose proof (wake_keeps (ChProc <$> initproc t) (set_parent (initproc t) r)).
      destruct (is_child i r), (existsb _ _); rewrite ?E1, ?E2, ?E3 in *; intuition congruence.
    + apply same_slots_alter. intros []. cbn. split; [done|]. left. split; [done|by left].
Qed.

End steps.

(** ** One step of the system *)

Section system_steps.
Context `{KernelEnv} `{SpinlockLaws}.

Lemma slots_run {A} o (m : K A) s a s' t :
  slotwise o m → m s = Ok a s' → same_slots o t (ptable s) → same_slots o t (ptable s').
Proof. intros Hm Hr Ht. trans (ptable s); [done|by eapply Hm]. Qed.

Lemma running_used s i :
  (∃ p, ptable s !! i = Some p ∧ state p = RUNNING) → ∀ p, ptable s !! i = Some p → state p ≠ UNUSED.
Proof. intros (q & Hq & Hr) p Hp. congruence. Qed.

Lemma building_used s l i np :
  reachable booted code_step (Sys s l) → l !! i = Some (Copied np) →
  ∀ q, ptable s !! np = Some q → state q ≠ UNUSED.
Proof.
  intros Hr Hk q Hq. destruct (code_reachable_core _ Hr) as ([t l'] & Hy & Hc & El). simpl in *. subst l'.
  destruct (sim_child t l (system_shape _ Hy) (system_inv _ Hy) i np) as (Ho & _); [by right|].
  rewrite (core_ptable _ _ Hc) in Hq. destruct (system_slot _ np q Hy Hq) as (k & _ & Hs).
  pose proof (inv_owner _ (system_inv _ Hy) i np Ho) as He. rewrite Hs in He. simpl in He. congruence.
Qed.

(** [wait] and [sleep] from the scan or the call to the scheduler. *)
Lemma wait_sleep_slots c i s u t1 saved t2 s' :
  locked c u t1 → current c u = Some i → ptable u = ptable s → (∀ p, ptable s !! i = Some p → state p ≠ UNUSED) →
  sleep_half c (Some (ChProc i)) PtableLock t1 = Ok saved t2 → scheduler_back c t2 = Ok tt s' →
  same_slots None (ptable s) (ptable s').
Proof.
  intros Hl Hcur Hu Hused Hs Hb. eapply slots_run; [apply slots_back|exact Hb|].
  rewrite (locked_ptable _ _ _ (sleep_half_locked _ _ _ _ _ _ _ Hl Hcur Hs)), <-Hu.
  apply sleep_slots. by rewrite Hu.
Qed.

Lemma birth_step c i np s l s' l' :
  calls c i s → allocproc_slot c s = Ok (Some np) s' → birth np (Sys s l) (Sys s' l').
Proof.
  intros Hc Ha. destruct (runs_eq _ _ _ _ _ _ (allocproc_slot_runs c s (calls_can_lock _ _ _ Hc)) Ha) as [Ho Hu].
  unfold slot_effect in *. destruct (find_unused (ptable s)) as [j|] eqn:Hf; simplify_eq/=.
  unfold find_unused in Hf. destruct (list_find _ _) as [[j' p]|] eqn:Hl; simplify_eq/=.
  apply list_find_Some in Hl as (Hp & Hst & _). exists p. split; [done|]. split; [done|]. simpl.
  rewrite (ptable_proper _ _ Hu), <-(list_alter_insert _ _ _ _ Hp). by destruct s.
Qed.

Lemma run_wait_sleep_slots c f s i t saved t1 saved' t2 s' :
  idles c s → scheduler_choose c f s = Ok (Some i) t → is_intena saved →
  wait_wakes c i saved t = Ok tt t1 → sleep_half c (Some (ChProc i)) PtableLock t1 = Ok saved' t2 →
  scheduler_back c t2 = Ok tt s' → same_slots None (ptable s) (ptable s').
Proof.
  intros Hi Hch Hsv Hw Hs Hb. destruct (choose_slots c f s i t Hi Hch) as [Hcs Hrun].
  destruct (idles_dispatch c f s [] _ t Hi Hch) as (s1 & Hl & Hd & _ & _ & Hcur).
  destruct (wait_wakes_locked c i saved s1 t t1 Hl Hd Hsv Hw) as (u & Hlu & _ & Hcu).
  trans (ptable t); [done|].
  assert (ptable u = alter (set_chan None) i (ptable t)) as Hu.
  { rewrite (core_ptable _ _ Hcu). simpl. rewrite (proj1 (on_slot_fields _ _ _)).
    by rewrite (locked_ptable _ _ _ Hl). }
  trans (ptable u); [rewrite Hu; apply same_slots_alter; slot_keeps|].
  eapply (wait_sleep_slots c i u u); [done| |done| |done|done].
  - rewrite (core_current _ _ _ Hcu). by destruct s1.
  - intros p. rewrite Hu, list_lookup_alter_eq. destruct (ptable t !! i) as [q|] eqn:Hq; [|done].
    intros [= <-]. specialize (Hrun q eq_refl). destruct q. simpl in *. by subst.
Qed.

Lemma wait_first_sleep_slots c i s l t1 saved t2 s' :
  reachable booted code_step (Sys s l) → calls c i s → l !! i = Some InKernel → wait_first c s = Ok None t1 →
  sleep_half c (Some (ChProc i)) PtableLock t1 = Ok saved t2 → scheduler_back c t2 = Ok tt s' →
  same_slots None (ptable s) (ptable s').
Proof.
  intros Hr Hc Hk Hw Hs Hb. destruct (wait_first_round c i s _ _ Hc Hw) as (t & Hl & Hwr).
  destruct (calls_running _ _ _ _ Hr Hc Hk) as (p & Hp & Hrun).
  pose proof (wait_round_runs c i s t p Hl Hp) as Hround.
  assert (t1 = t) as ->.
  { destruct (wait_effect i p s) as [[[z|] v]|]; [| |congruence].
    - destruct Hround as (q & _ & w & Hq & _). congruence.
    - destruct Hround as (w & Hq & _). congruence. }
  eapply (wait_sleep_slots c i s s t); [done|by apply calls_current|done| |done|done].
  eapply running_used. by exists p.
Qed.

Lemma yield_slots c i s l saved t s' :
  reachable booted code_step (Sys s l) → calls c i s → l !! i = Some InKernel →
  yield_half c s = Ok saved t → scheduler_back c t = Ok tt s' → same_slots None (ptable s) (ptable s').
Proof.
  intros Hr Hc Hk Hy Hb. destruct (calls_running _ _ _ _ Hr Hc Hk) as (p & Hp & Hrun).
  pose proof (calls_current _ _ _ Hc) as Hcur. destruct Hc as (Hf & k & Hck & Hn & Hcp).
  destruct (yield_half_locked c s k i p) as (t' & Hy' & Hl); [done..|].
  rewrite Hy in Hy'. injection Hy' as _ <-.
  eapply slots_run; [apply slots_back|exact Hb|].
  rewrite (locked_ptable _ _ _ Hl), (proj1 (on_slot_fields _ _ _)).
  apply (same_slots_used (Some i)); [|intros ? ? [= <-] ?; congruence].
  apply same_slots_alter. intros []. cbn. split; [done|]. left. split; [done|by left].
Qed.

Lemma exit_step_slots c i s l saved t s' :
  reachable booted code_step (Sys s l) → calls c i s → l !! i = Some InKernel →
  exit_half c s = Ok saved t → scheduler_back c t = Ok tt s' → same_slots None (ptable s) (ptable s').
Proof.
  intros Hr Hc Hk He Hb. destruct (calls_running _ _ _ _ Hr Hc Hk) as (p & Hp & Hrun).
  pose proof (calls_current _ _ _ Hc) as Hcur. destruct Hc as (Hf & k & Hck & Hn & Hcp).
  pose proof (exit_half_not_init _ _ _ _ _ Hcur He) as Hni.
  destruct (exit_half_locked c s k i p) as (t' & He' & Hl); [done..|].
  rewrite He in He'. injection He' as _ <-.
  eapply slots_run; [apply slots_back|exact Hb|]. rewrite (locked_ptable _ _ _ Hl).
  apply exit_slots; [done|congruence].
Qed.

Lemma sleep_step_slots c i s l ch lk k saved t s' :
  reachable booted code_step (Sys s l) → lk ≠ PtableLock → lock_free PtableLock s → cpus s !! c = Some k →
  ncli k = 1 → eflags_if k = false → cpu_proc k = Some i → holding c lk (locks s) = true →
  (∀ c', c' ≠ c → holding c' lk (locks s) = false) → l !! i = Some InKernel →
  sleep_half c ch lk s = Ok saved t → scheduler_back c t = Ok tt s' → same_slots None (ptable s) (ptable s').
Proof.
  intros Hr Hlp Hf Hk Hn Hif Hcp Hh Ho Hkk Hs Hb.
  assert (current c s = Some i) as Hcur by (unfold current; by rewrite Hk).
  destruct (current_running _ _ _ _ _ Hr Hcur Hkk) as (p & Hp & Hrun).
  destruct (sleep_enter_lock c ch lk s k i p Hlp Hf Hk Hn Hif Hcur Hp Hh Ho)
    as (t0 & kt & He & (L & Ht) & _).
  unfold sleep_half in Hs. cbv [mbind K_bind prog_bind] in Hs. rewrite He in Hs.
  apply sched_enter_same in Hs as ->. eapply slots_run; [apply slots_back|exact Hb|].
  assert (ptable t0 = ptable (sleep_effect i ch s)) as -> by (rewrite Ht; by destruct s).
  apply sleep_slots, running_used. by exists p.
Qed.

Lemma fork_full_slots c i s s' : calls c i s → allocproc_slot c s = Ok None s' → ptable s' = ptable s.
Proof.
  intros Hc Ha. destruct (runs_eq _ _ _ _ _ _ (allocproc_slot_runs c s (calls_can_lock _ _ _ Hc)) Ha) as [Ho Hu].
  rewrite (ptable_proper _ _ Hu). unfold slot_effect in *. by destruct (find_unused (ptable s)).
Qed.

(** A step is a call of settickets, or the birth of a process, or every process
    keeps its tickets, its slot and its pid. *)
Lemma step_slots x y :
  reachable booted code_step x → code_step x y →
  same_slots None (ptable (ks x)) (ptable (ks y)) ∨
  (∃ j n, settickets_step j n x y) ∨ (∃ j, birth j x y).
Proof.
  intros Hr Hst. destruct Hst; simpl;
    try (left; first [eapply slots_run; [apply slots_wakeup|done|done] | eapply slots_run; [apply slots_kill|done|done]
      | eapply slots_run; [apply slots_growproc|done|done]]).
  - left. eapply slots_run; [apply slots_release|done|].
    by erewrite (idle_slots c f s t).
  - left. eapply slots_run; [apply slots_forkret|done|]. by eapply choose_slots.
  - left. eapply slots_run; [apply slots_yield_rest|done|]. by eapply choose_slots.
  - left. eapply slots_run; [apply slots_sleep_rest|done|]. by eapply choose_slots.
  - left. eapply slots_run; [apply slots_wait_round|done|]. eapply slots_run; [apply slots_wait_wakes|done|].
    by eapply choose_slots.
  - left. by eapply run_wait_sleep_slots.
  - left. by eapply yield_slots.
  - left. eapply (slots_run None (wait_first c)); [|done|done].
    unfold wait_first, acquire. slotwise. apply slots_wait_round.
  - left. by eapply wait_first_sleep_slots.
  - left. by eapply exit_step_slots.
  - right. right. exists np. by eapply birth_step.
  - left. by rewrite (fork_full_slots c i s s').
  - left. eapply slots_run; [apply slots_stack|done|done].
  - left. eapply slots_run; [apply slots_copy|done|]. eapply slots_run; [apply slots_stack|done|done].
  - left. eapply same_slots_used; [eapply slots_run; [apply slots_publish|done|done]|].
    intros ? ? [= <-]. by eapply building_used.
  - left. by apply (sleep_step_slots c i s l ch lk k saved t s').
  - right. left. eexists i, _, c. done.
  - left. rewrite (proj1 (on_slot_fields _ _ _)). apply same_slots_alter. slot_keeps.
  - left. by replace (ptable s') with (ptable s).
Qed.

End system_steps.

(** ** The theorem *)

Section tickets.
Context `{KernelEnv} `{SpinlockLaws}.

(** Slot [j] belongs to the process with pid [n], which has [v] tickets. *)
Definition has_tickets (j : nat) (n v : Z) (x : sys) : Prop :=
  ∃ p, ptable (ks x) !! j = Some p ∧ state p ≠ UNUSED ∧ pid p = n ∧ tickets p = v.

(** A step after which it still has. *)
Definition still_has (j : nat) (n v : Z) (x y : sys) : Prop := code_step x y ∧ has_tickets j n v y.

(** Where they come from: a step of the process itself, or its birth. *)
Definition gets_tickets (j : nat) (n v : Z) (x y : sys) : Prop :=
  code_step x y ∧
  (settickets_step j v x y ∧ (∃ v0, has_tickets j n v0 x) ∨
   birth j x y ∧ n = nextpid (ks x) ∧ v = MAGIC_TICKET_NUM).

Lemma step_tickets j n v x y :
  reachable booted code_step x → code_step x y → has_tickets j n v y →
  has_tickets j n v x ∨ gets_tickets j n v x y.
Proof.
  intros Hr Hst (q & Hq & Hu & Hp & Ht).
  destruct (step_slots x y Hr Hst) as [[Hlen Hs]|[(i & m & c & Hc & Hk & ->)|(i & p & Hpi & Hun & Htab)]].
  - destruct (same_length_lookup _ _ _ _ (eq_sym Hlen) Hq) as [p Hpj].
    destruct (Hs j p q Hpj Hq) as [Ht' Hkept]. rewrite decide_False in Hkept by done.
    destruct (Hkept Hu) as [Hu' Hp']. left. exists p. split_and!; [done|done|congruence|congruence].
  - simpl in Hq. rewrite on_slot_lookup in Hq. case_decide as Hj; [|by left; exists q]. subst i.
    right. split; [done|]. left. destruct (ptable (ks x) !! j) as [p|] eqn:Hpj; [|done].
    injection Hq as <-.
    assert (m = v ∧ state p ≠ UNUSED ∧ pid p = n) as (-> & Hu' & Hp') by (destruct p; simpl in *; auto).
    split; [by exists c|]. exists (tickets p), p. done.
  - rewrite Htab, list_lookup_insert_Some in Hq. destruct Hq as [(<- & <- & _)|[_ Hq]]; [|by left; exists q].
    right. split; [done|]. right. split; [by exists p|]. by destruct p.
Qed.

(** C7: nobody's tickets are changed by anybody else.  Whatever the system does
    between two states, the tickets a process has in the second are those of its
    own last call of settickets in between; or, if it made none, those it had in
    the first; or, if it was born in between and made none, the 20 that
    [allocproc] gives. *)
Theorem tickets_are_the_owners x y j n v :
  reachable booted code_step x → rtc code_step x y → has_tickets j n v y →
  ∃ b, rtc (still_has j n v) b y ∧
    (b = x ∧ has_tickets j n v x ∨ ∃ a, rtc code_step x a ∧ gets_tickets j n v a b).
Proof.
  intros (x0 & Hb & Hx) Hxy. revert y Hxy. apply (rtc_ind_r (λ y, has_tickets j n v y →
    ∃ b, rtc (still_has j n v) b y ∧
      (b = x ∧ has_tickets j n v x ∨ ∃ a, rtc code_step x a ∧ gets_tickets j n v a b)) x).
  - intros Hx'. exists x. split; [apply rtc_refl|]. by left.
  - intros y z Hxy Hst IH Hz.
    assert (reachable booted code_step y) as Hy by (exists x0; split; [done|by etrans]).
    destruct (step_tickets j n v y z Hy Hst Hz) as [Hyh|Hg].
    + destruct (IH Hyh) as (b & Hs & Hor). exists b. split; [by eapply rtc_r|done].
    + exists z. split; [apply rtc_refl|]. right. by exists y.
Qed.

End tickets.

(** ** The lottery in the running system *)

Section lottery_runs.
Context `{KernelEnv} `{SpinlockLaws}.

Definition tickets_within (B : Z) (tab : list proc) : Prop := Forall (λ p, 0 ≤ tickets p ≤ B) tab.

(** A step in which a process, if it sets its tickets, sets at most [B]. *)
Definition modest_step (B : Z) (x y : sys) : Prop :=
  code_step x y ∧ ∀ j n, settickets_step j n x y → 0 ≤ n ≤ B.

(** The system starts with few tickets, and [NPROC * B] is an [int]. *)
Definition modest_boot (B : Z) (x : sys) : Prop :=
  booted x ∧ tickets_within B (ptable (ks x)) ∧ Z.of_nat (length (ptable (ks x))) * B ≤ INT_MAX.

Lemma within_total B tab : 0 ≤ B → tickets_within B tab → 0 ≤ total tab ≤ Z.of_nat (length tab) * B.
Proof.
  intros HB Ht. induction Ht as [|p tab Hp Ht IH]; [done|].
  change (total (p :: tab)) with (weight p + total tab). rewrite length_cons.
  cbn beta in *. unfold weight. case_decide; lia.
Qed.

Lemma within_fair B tab :
  0 ≤ B → tickets_within B tab → Z.of_nat (length tab) * B ≤ INT_MAX → fair_table tab.
Proof.
  intros HB Ht Hmax. split; [|pose proof (within_total B tab HB Ht); lia].
  eapply list.Forall_impl; [exact Ht|]. intros p Hp. cbn beta in *. unfold weight. case_decide; lia.
Qed.

Lemma within_step B x y :
  MAGIC_TICKET_NUM ≤ B → reachable booted code_step x → modest_step B x y →
  tickets_within B (ptable (ks x)) →
  tickets_within B (ptable (ks y)) ∧ length (ptable (ks y)) = length (ptable (ks x)).
Proof.
  unfold MAGIC_TICKET_NUM. intros HB Hr [Hst Hset] Ht.
  destruct (step_slots x y Hr Hst) as [[Hlen Hs]|[(i & n & Hn)|(i & p & Hp & _ & Htab)]].
  - split; [|done]. apply Forall_lookup_2. intros j q Hq.
    destruct (same_length_lookup _ _ _ _ (eq_sym Hlen) Hq) as [p Hp].
    destruct (Hs j p q Hp Hq) as [-> _]. by apply (Forall_lookup_1 _ _ _ _ Ht Hp).
  - specialize (Hset i n Hn). destruct Hn as (c & _ & _ & ->). simpl.
    rewrite (proj1 (on_slot_fields _ _ _)). split; [|apply length_alter].
    apply Forall_alter; [done|]. intros q _ _. by destruct q.
  - rewrite Htab, length_insert. split; [|done]. apply Forall_insert; [done|]. destruct p. simpl.
    unfold MAGIC_TICKET_NUM. lia.
Qed.

Lemma modest_reachable B x :
  MAGIC_TICKET_NUM ≤ B → reachable (modest_boot B) (modest_step B) x →
  reachable booted code_step x ∧ tickets_within B (ptable (ks x)) ∧
    Z.of_nat (length (ptable (ks x))) * B ≤ INT_MAX.
Proof.
  intros HB (x0 & (Hb & Ht & Hmax) & Hr). revert x Hr.
  apply (rtc_ind_r (λ x, reachable booted code_step x ∧ tickets_within B (ptable (ks x)) ∧
    Z.of_nat (length (ptable (ks x))) * B ≤ INT_MAX) x0).
  - split; [|done]. exists x0. split; [done|apply rtc_refl].
  - intros y z _ Hst (Hy & Hty & Hly). destruct (within_step B y z HB Hy Hst Hty) as [Htz Hlen].
    split; [|by rewrite Hlen]. destruct Hy as (y0 & Hb0 & Hs). exists y0. split; [done|].
    eapply rtc_r; [exact Hs|apply Hst].
Qed.

(** C8: the lottery stays sane. As long as processes ask for between 0 and [B]
    tickets, with [NPROC * B] an [int] and [B] at least 20, the count of the
    tickets does not overflow in any reachable state; a processor in its
    scheduler always dispatches a runnable process when there is one, whatever
    the generator draws; and when there is none the round leaves the table as it
    was. *)
Theorem lottery_stays_sane `{!RandomLaw} B x c f :
  MAGIC_TICKET_NUM ≤ B → reachable (modest_boot B) (modest_step B) x →
  num_tickets (ptable (ks x)) = total (ptable (ks x)) ∧ 0 ≤ num_tickets (ptable (ks x)) ≤ INT_MAX ∧
  (idles c (ks x) → ∃ o t, scheduler_choose c f (ks x) = Ok o t ∧
     match o with
     | Some i => ∃ p, ptable (ks x) !! i = Some p ∧ state p = RUNNABLE ∧
                      ptable t = <[i := set_state RUNNING p]> (ptable (ks x))
     | None => Forall (λ p, state p ≠ RUNNABLE) (ptable (ks x)) ∧ ptable t = ptable (ks x)
     end).
Proof.
  intros HB Hx. destruct (modest_reachable B x HB Hx) as (_ & Ht & Hmax).
  assert (0 ≤ B) as HB0 by (unfold MAGIC_TICKET_NUM in HB; lia).
  pose proof (within_fair B _ HB0 Ht Hmax) as Hf. rewrite (num_tickets_total _ Hf).
  split; [done|]. split; [pose proof (within_total B _ HB0 Ht); lia|].
  intros (Hfree & k & Hk & Hn & _). destruct (scheduler_choose_locked c f (ks x) k Hfree Hk Hn) as (t & Hch & Hl).
  destruct (sti_effect_fields c f (ks x)) as (Hst & _).
  destruct (choose_effect c (sti_effect c f (ks x))) as [o s'] eqn:He. simpl in *.
  pose proof (choose_effect_cases c (sti_effect c f (ks x)) o s') as Hc. rewrite Hst in Hc.
  specialize (Hc Hf He). exists o, t. split; [done|]. rewrite (locked_ptable _ _ _ Hl).
  destruct o as [i|].
  - destruct Hc as (p & Hp & Hr & Htab & _). by exists p.
  - destruct Hc as (Hno & Htab & _). done.
Qed.

End lottery_runs.
