(* ===== verification/Syscall.v ===== *)
(** System calls: the argument fetching and the dispatcher of hw3/syscall.c and
    the process calls of hw3/sysproc.c.

    The calls of sysfile.c, whose file in the repository is empty, are an
    argument ([fs_call]) of the dispatcher. *)

From Stdlib Require Import String.
From S2P Require Import Prelude KernelEnv Proc Locking ProcSpec Lottery Handover Protocol.
From S2P Require Import System KernelInstance KernelProps.

(** ** syscall.h *)

Inductive sysno : Type :=
| SYS_fork | SYS_exit | SYS_wait | SYS_pipe | SYS_read | SYS_kill | SYS_exec | SYS_fstat
| SYS_chdir | SYS_dup | SYS_getpid | SYS_sbrk | SYS_sleep | SYS_uptime | SYS_open | SYS_write
| SYS_mknod | SYS_unlink | SYS_link | SYS_mkdir | SYS_close | SYS_gettime | SYS_settickets.

#[export] Instance sysno_eq_dec : EqDecision sysno.
Proof. solve_decision. Defined.

(** [syscalls[]], entry 0 being null. *)
Definition syscalls : list (option sysno) :=
  [None; Some SYS_fork; Some SYS_exit; Some SYS_wait; Some SYS_pipe; Some SYS_read;
   Some SYS_kill; Some SYS_exec; Some SYS_fstat; Some SYS_chdir; Some SYS_dup;
   Some SYS_getpid; Some SYS_sbrk; Some SYS_sleep; Some SYS_uptime; Some SYS_open;
   Some SYS_write; Some SYS_mknod; Some SYS_unlink; Some SYS_link; Some SYS_mkdir;
   Some SYS_close; Some SYS_gettime; Some SYS_settickets].

Definition NELEM_syscalls : Z := Z.of_nat (List.length syscalls).

Section syscall.
Context `{KernelEnv} `{Spinlock}.

(** The process running on processor [c]. *)
Definition cur_proc (c : nat) : K proc := cur ← curproc c; proc_at cur.

(** ** Fetching arguments; [None] stands for the result -1 *)

Definition fetchint (c : nat) (addr : Z) : K (option Z) :=
  p ← cur_proc c;
  if decide (sz p ≤ addr) then mret None
  else if decide (sz p < u32 (addr + 4)) then mret None
  else s ← (get : K kernel); mret (Some (i32 (uload32 (pgdir p) addr (ext s)))).

(** The loop [for(s = *pp; s < ep; s++)] from [s], [fuel] characters at most. *)
Fixpoint scan_nul (fuel : nat) (load : Z → Z) (ep s : Z) : option Z :=
  match fuel with
  | O => None
  | S fuel' =>
      if decide (s < ep) then
        if decide (load s = 0) then Some s else scan_nul fuel' load ep (s + 1)
      else None
  end.

(** The pointer stored in [*pp] and the length returned. *)
Definition fetchstr (c : nat) (addr : Z) : K (option (Z * Z)) :=
  p ← cur_proc c;
  if decide (sz p ≤ addr) then mret None
  else
    s ← (get : K kernel);
    match scan_nul (Z.to_nat (sz p - addr)) (λ a, uload8 (pgdir p) a (ext s)) (sz p) addr with
    | Some e => mret (Some (addr, i32 (e - addr)))
    | None => mret None
    end.

Definition argint (c : nat) (n : Z) : K (option Z) :=
  p ← cur_proc c;
  fetchint c (u32 (tf_esp (tf p) + 4 + 4 * n)).

Definition argptr (c : nat) (n size : Z) : K (option Z) :=
  r ← argint c n;
  match r with
  | None => mret None
  | Some i =>
      p ← cur_proc c;
      if decide (sz p ≤ u32 i) then mret None
      else if decide (sz p < u32 (u32 i + size)) then mret None
      else mret (Some (u32 i))
  end.

Definition argstr (c : nat) (n : Z) : K (option (Z * Z)) :=
  r ← argint c n;
  match r with
  | None => mret None
  | Some addr => fetchstr c (u32 addr)
  end.

(** ** sysproc.c

    The calls that may switch return their value with the processor the
    process is on afterwards, and [None] when the observation bound on the
    number of switches is exhausted. *)

Definition sys_fork (c : nat) : K Z := fork c.

Definition sys_exit (swtch : nat → K nat) (c : nat) : K Z := exit swtch c ;; mret 0.

Definition sys_wait (rounds : nat) (swtch : nat → K nat) (c : nat) : K (option (Z * nat)) :=
  wait rounds swtch c.

Definition sys_kill (c : nat) : K Z :=
  r ← argint c 0;
  match r with
  | None => mret (-1)
  | Some n => kill c n
  end.

Definition sys_getpid (c : nat) : K Z := p ← cur_proc c; mret (pid p).

Definition sys_sbrk (c : nat) : K Z :=
  r ← argint c 0;
  match r with
  | None => mret (-1)
  | Some n =>
      p ← cur_proc c;
      g ← growproc c n;
      if decide (g < 0) then mret (-1) else mret (i32 (sz p))
  end.

(** The loop of [sys_sleep], with [tickslock] held; the comparison of the
    unsigned difference with the [int] is unsigned. *)
Fixpoint sleep_loop (rounds : nat) (swtch : nat → K nat) (c : nat) (ticks0 n : Z)
    : K (option (Z * nat)) :=
  s ← (get : K kernel);
  if decide (u32 (ticks s - ticks0) < u32 n) then
    p ← cur_proc c;
    if decide (killed p ≠ 0) then
      release c TicksLock ;; mret (Some (-1, c))
    else
      match rounds with
      | O => mret None
      | S rounds' =>
          c' ← sleep swtch c (Some ChTicks) (Some TicksLock);
          sleep_loop rounds' swtch c' ticks0 n
      end
  else release c TicksLock ;; mret (Some (0, c)).

Definition sys_sleep (rounds : nat) (swtch : nat → K nat) (c : nat) : K (option (Z * nat)) :=
  r ← argint c 0;
  match r with
  | None => mret (Some (-1, c))
  | Some n =>
      acquire c TicksLock ;;
      s ← (get : K kernel);
      sleep_loop rounds swtch c (ticks s) n
  end.

Definition sys_uptime (c : nat) : K Z :=
  acquire c TicksLock ;;
  s ← (get : K kernel);
  release c TicksLock ;;
  mret (i32 (ticks s)).

Definition sys_gettime (c : nat) : K Z :=
  d ← argptr c 0 sizeof_rtcdate;
  match d with
  | None => mret (-1)
  | Some a => p ← cur_proc c; ext_do (cmostime (pgdir p) a) ;; mret 0
  end.

Definition sys_settickets (c : nat) : K Z :=
  r ← argint c 0;
  match r with
  | None => mret (-1)
  | Some tix =>
      cur ← curproc c;
      upd cur (set_tickets tix) ;;
      p ← cur_proc c;
      mret (tickets p)
  end.

(** ** The dispatcher *)

Definition on_same (c : nat) (m : K Z) : K (option (Z * nat)) := v ← m; mret (Some (v, c)).

Definition run_call (fs_call : sysno → nat → K (option (Z * nat))) (rounds : nat)
    (swtch : nat → K nat) (c : nat) (n : sysno) : K (option (Z * nat)) :=
  match n with
  | SYS_fork => on_same c (sys_fork c)
  | SYS_exit => on_same c (sys_exit swtch c)
  | SYS_wait => sys_wait rounds swtch c
  | SYS_kill => on_same c (sys_kill c)
  | SYS_getpid => on_same c (sys_getpid c)
  | SYS_sbrk => on_same c (sys_sbrk c)
  | SYS_sleep => sys_sleep rounds swtch c
  | SYS_uptime => on_same c (sys_uptime c)
  | SYS_gettime => on_same c (sys_gettime c)
  | SYS_settickets => on_same c (sys_settickets c)
  | n => fs_call n c
  end.

Definition set_eax (v : Z) (p : proc) : proc :=
  let t := tf p in
  set_tf (Trapframe (u32 v) (tf_esp t) (tf_eip t) (tf_eflags t) (tf_cs t) (tf_ds t) (tf_es t)
                    (tf_ss t)) p.

(** [num > 0 && num < NELEM(syscalls) && syscalls[num]] *)
Definition syscall_entry (num : Z) : option sysno :=
  if decide (0 < num ∧ num < NELEM_syscalls) then mjoin (syscalls !! Z.to_nat num) else None.

Definition syscall (fs_call : sysno → nat → K (option (Z * nat))) (rounds : nat)
    (swtch : nat → K nat) (c : nat) : K (option nat) :=
  p ← cur_proc c;
  let num := i32 (tf_eax (tf p)) in
  match syscall_entry num with
  | Some n =>
      r ← run_call fs_call rounds swtch c n;
      match r with
      | Some (v, c') => cur ← curproc c'; upd cur (set_eax v) ;; mret (Some c')
      | None => mret None
      end
  | None =>
      modify (emit (EvUnknownCall (pid p) (name p) num)) ;;
      cur ← curproc c;
      upd cur (set_eax (-1)) ;;
      mret (Some c)
  end.

(** What the theorems below say of an address space. *)

(** [p] is the process on processor [c] and its size leaves room for the
    argument arithmetic (user space ends below the kernel). *)
Definition in_user (c cur : nat) (p : proc) (s : kernel) : Prop :=
  current c s = Some cur ∧ ptable s !! cur = Some p ∧ 0 ≤ sz p ≤ 2 ^ 31.

(** The block of [n] bytes at [a] lies inside the process. *)
Definition inside (p : proc) (a n : Z) : Prop := 0 ≤ a ∧ a + n ≤ sz p.

(** A NUL-terminated string of length [n] at [a], inside the process. *)
Definition string_at (p : proc) (load : Z → Z) (a n : Z) : Prop :=
  0 ≤ n ∧ a + n < sz p ∧ load (a + n) = 0 ∧ ∀ i, 0 ≤ i < n → load (a + i) ≠ 0.

(** ** Lemmas *)

Lemma cur_proc_run c cur p s :
  current c s = Some cur → ptable s !! cur = Some p → cur_proc c s = Ok p s.
Proof.
  intros Hc Hp. unfold cur_proc. cbv [mbind K_bind prog_bind].
  by rewrite (curproc_run _ _ _ Hc), (proc_at_run _ _ _ Hp).
Qed.

Lemma fetchint_run c cur p s addr :
  in_user c cur p s → 0 ≤ addr < 2 ^ 32 →
  fetchint c addr s =
    Ok (if decide (inside p addr 4) then Some (i32 (uload32 (pgdir p) addr (ext s))) else None) s.
Proof.
  intros (Hc & Hp & Hsz) Ha. unfold fetchint, inside. cbv [mbind K_bind prog_bind].
  rewrite (cur_proc_run _ _ _ _ Hc Hp). cbn beta iota.
  case_decide as H1; [rewrite decide_False by lia; done|].
  rewrite u32_small by lia.
  case_decide as H2; [rewrite decide_False by lia; done|]. by rewrite decide_True by lia.
Qed.

Definition arg_addr (p : proc) (n : Z) : Z := u32 (tf_esp (tf p) + 4 + 4 * n).

Lemma argint_run c cur p s n :
  in_user c cur p s →
  argint c n s =
    Ok (if decide (inside p (arg_addr p n) 4)
        then Some (i32 (uload32 (pgdir p) (arg_addr p n) (ext s))) else None) s.
Proof.
  intros Hu. pose proof Hu as (Hc & Hp & _). unfold argint. cbv [mbind K_bind prog_bind].
  rewrite (cur_proc_run _ _ _ _ Hc Hp). apply (fetchint_run c cur p); [done|apply u32_range].
Qed.

Lemma scan_nul_spec load ep s fuel :
  (Z.to_nat (ep - s) ≤ fuel)%nat →
  match scan_nul fuel load ep s with
  | Some e => s ≤ e < ep ∧ load e = 0 ∧ ∀ a, s ≤ a < e → load a ≠ 0
  | None => ∀ a, s ≤ a < ep → load a ≠ 0
  end.
Proof.
  revert s. induction fuel as [|fuel IH]; intros s Hf; simpl; [lia|].
  case_decide; [|lia]. case_decide as Hz; [split; [lia|]; split; [done|lia]|].
  specialize (IH (s + 1) ltac:(lia)). destruct (scan_nul fuel load ep (s + 1)) as [e|].
  - destruct IH as (? & ? & Hb). split; [lia|]. split; [done|]. intros a Ha.
    destruct (decide (a = s)) as [->|]; [done|]. apply Hb. lia.
  - intros a Ha. destruct (decide (a = s)) as [->|]; [done|]. apply IH. lia.
Qed.

(** ** Properties *)

(** C34: [fetchstr] reads nothing outside the process: it returns the pointer
    and the length of the string when a NUL-terminated string starts there and
    ends inside the process, and -1 exactly when there is none; the state is
    unchanged. *)
Theorem fetchstr_spec c cur p s addr :
  in_user c cur p s → 0 ≤ addr < 2 ^ 32 →
  let load a := uload8 (pgdir p) a (ext s) in
  ∃ r, fetchstr c addr s = Ok r s ∧
    (∀ ptr n, r = Some (ptr, n) ↔ ptr = addr ∧ string_at p load addr n).
Proof.
  intros (Hc & Hp & Hsz) Ha load. unfold fetchstr. cbv [mbind K_bind prog_bind get].
  rewrite (cur_proc_run _ _ _ _ Hc Hp). cbn beta iota. unfold string_at.
  case_decide as Hout; [exists None; split; [done|]; split; [done|lia]|].
  pose proof (scan_nul_spec load (sz p) addr (Z.to_nat (sz p - addr)) ltac:(lia)) as Hs.
  unfold load in *. cbv [mret K_ret prog_ret].
  destruct (scan_nul _ _ _ _) as [e|].
  - destruct Hs as (He & Hz & Hnz). eexists. split; [done|].
    rewrite i32_small by (unfold INT_MIN, INT_MAX; lia). intros ptr n. split.
    + intros E. simplify_eq. split; [done|].
      replace (ptr + (e - ptr)) with e by lia. repeat split; try done; try lia.
      intros i Hi. apply Hnz. lia.
    + intros (-> & Hn & Hin & Hz' & Hnz').
      destruct (Z.lt_trichotomy n (e - addr)) as [Hlt|[->|Hgt]]; [|done|].
      * exfalso. apply (Hnz (addr + n)); [lia|done].
      * exfalso. apply (Hnz' (e - addr)); [lia|]. by replace (addr + (e - addr)) with e by lia.
  - eexists. split; [done|]. intros ptr n. split; [done|].
    intros (-> & Hn & Hin & Hz & _). exfalso. apply (Hs (addr + n)); [lia|done].
Qed.

(** C33: [argptr] with a non-negative size accepts a pointer exactly when the
    argument word and the whole block of that size lie inside the process, and
    returns that pointer; the state is unchanged. With a negative size it
    accepts every pointer into the process at or above minus the size, as the
    bound is compared after an unsigned addition that wraps. *)
Theorem argptr_spec c cur p s n size :
  in_user c cur p s →
  let i := u32 (uload32 (pgdir p) (arg_addr p n) (ext s)) in
  ∃ r, argptr c n size s = Ok r s ∧
    (0 ≤ size ≤ INT_MAX →
       ∀ a, r = Some a ↔ a = i ∧ inside p (arg_addr p n) 4 ∧ i < sz p ∧ inside p i size) ∧
    (INT_MIN ≤ size < 0 → inside p (arg_addr p n) 4 → i < sz p → - size ≤ i → r = Some i).
Proof.
  intros Hu i. pose proof Hu as (Hc & Hp & Hsz). unfold argptr. cbv [mbind K_bind prog_bind].
  rewrite (argint_run c cur p s n Hu). cbn beta iota.
  pose proof (u32_range (uload32 (pgdir p) (arg_addr p n) (ext s))) as Hi. fold i in Hi.
  destruct (decide (inside p (arg_addr p n) 4)) as [Hin|Hin]; cbn beta iota.
  2: { exists None. split; [done|]. split; [|done]. intros Hs a. split; [done|tauto]. }
  rewrite u32_i32. fold i. rewrite (cur_proc_run _ _ _ _ Hc Hp). cbn beta iota.
  cbv [mret K_ret prog_ret]. unfold inside in *. case_decide as H1.
  { exists None. split; [done|]. split; [intros Hs a; split; [done|lia]|lia]. }
  case_decide as H2.
  - exists None. split; [done|]. split.
    + intros Hs a. split; [done|]. rewrite u32_small in H2 by (unfold INT_MAX in *; lia). lia.
    + intros Hs _ Hlt Hge. rewrite u32_small in H2 by lia. lia.
  - eexists. split; [done|]. split; [|done]. intros Hs a.
    rewrite u32_small in H2 by (unfold INT_MAX in *; lia). split; [|naive_solver].
    intros E. simplify_eq. split; [done|]. lia.
Qed.

(** ** The dispatcher *)

(** C29: a system call number that is not in the table - zero, negative, too
    large - changes nothing but the result register, which becomes -1, and
    prints the complaint; a number in the table runs its handler and puts what
    it returns into the register of the calling process. *)
Theorem syscall_spec fs_call rounds swtch c cur p s :
  current c s = Some cur → ptable s !! cur = Some p →
  let num := i32 (tf_eax (tf p)) in
  (¬ (1 ≤ num ≤ 23) →
     syscall fs_call rounds swtch c s =
       Ok (Some c) (on_slot cur (set_eax (-1)) (emit (EvUnknownCall (pid p) (name p) num) s))) ∧
  (1 ≤ num ≤ 23 → ∃ n, syscalls !! Z.to_nat num = Some (Some n) ∧
     ∀ v s', run_call fs_call rounds swtch c n s = Ok (Some (v, c)) s' → current c s' = Some cur →
       syscall fs_call rounds swtch c s = Ok (Some c) (on_slot cur (set_eax v) s')).
Proof.
  intros Hc Hp num. unfold syscall. cbv [mbind K_bind prog_bind].
  rewrite (cur_proc_run _ _ _ _ Hc Hp). cbn beta iota. fold num.
  unfold syscall_entry. change NELEM_syscalls with 24. split.
  - intros Hn. rewrite decide_False by lia. unfold modify. cbn beta iota.
    rewrite (curproc_run c _ cur) by (rewrite <-Hc; unfold current; by destruct s).
    by rewrite upd_run.
  - intros Hn. rewrite decide_True by lia.
    assert (∃ n, syscalls !! Z.to_nat num = Some (Some n)) as [n Hs].
    { assert (Z.to_nat num < 24)%nat as Hlt by lia. assert (Z.to_nat num ≠ 0)%nat as Hnz by lia.
      generalize dependent (Z.to_nat num). intros m Hlt Hnz.
      do 24 (destruct m as [|m]; [first [done|by eexists]|]). lia. }
    exists n. split; [done|]. intros v s' Hr Hc'. rewrite Hs. change (mjoin (Some (Some n))) with (Some n). cbn beta iota.
    rewrite Hr. cbn beta iota. by rewrite (curproc_run _ _ _ Hc'), upd_run.
Qed.

(** ** sysproc.c *)

(** What [growproc] asks of the paging code. *)
Definition resize (n : Z) (p : proc) (e : kext) : Z * kext :=
  if decide (0 < n) then allocuvm (pgdir p) (sz p) (u32 (sz p + n)) e
  else if decide (n < 0) then deallocuvm (pgdir p) (sz p) (u32 (sz p + n)) e
  else (sz p, e).

Lemma growproc_run c cur p s n :
  current c s = Some cur → ptable s !! cur = Some p → 0 ≤ sz p < 2 ^ 32 →
  growproc c n s =
    let '(r, e) := resize n p (ext s) in
    if decide (n ≠ 0 ∧ u32 r = 0) then Ok (-1) (set_ext e s)
    else Ok 0 (on_slot cur (set_sz (u32 r)) (set_ext (switchuvm cur e) s)).
Proof.
  intros Hc Hp Hsz. unfold growproc, resize. cbv [mbind K_bind prog_bind].
  rewrite (curproc_run _ _ _ Hc), (proc_at_run _ _ _ Hp).
  cbv [ext_get ext_do upd modify mret K_ret prog_ret]. destruct s. simpl in *.
  destruct (decide (0 < n)) as [Hpos|Hpos]; [|destruct (decide (n < 0)) as [Hneg|Hneg]].
  - destruct (allocuvm _ _ _ _) as [r e]. simpl.
    destruct (decide (u32 r = 0)); [by rewrite decide_True by lia|by rewrite decide_False by lia].
  - destruct (deallocuvm _ _ _ _) as [r e]. simpl.
    destruct (decide (u32 r = 0)); [by rewrite decide_True by lia|by rewrite decide_False by lia].
  - rewrite decide_False by lia. by rewrite u32_small by lia.
Qed.

(** [sbrk] returns the old size; the new size is the one the paging code
    answers for the requested growth, shrinkage or none, and when it answers 0
    the call returns -1 with the size unchanged. *)
Lemma sys_sbrk_spec c cur p s :
  in_user c cur p s → inside p (arg_addr p 0) 4 →
  let n := i32 (uload32 (pgdir p) (arg_addr p 0) (ext s)) in
  let r := resize n p (ext s) in
  ∃ v s' p', sys_sbrk c s = Ok v s' ∧ ptable s' !! cur = Some p' ∧
    (n ≠ 0 ∧ u32 r.1 = 0 → v = -1 ∧ p' = p ∧ ext s' = r.2) ∧
    (¬ (n ≠ 0 ∧ u32 r.1 = 0) →
       v = i32 (sz p) ∧ p' = set_sz (u32 r.1) p ∧ ext s' = switchuvm cur r.2).
Proof.
  intros Hu Hin n r. pose proof Hu as (Hc & Hp & Hsz). unfold sys_sbrk.
  cbv [mbind K_bind prog_bind]. rewrite (argint_run _ _ _ _ _ Hu), decide_True by done.
  cbn beta iota. fold n. rewrite (cur_proc_run _ _ _ _ Hc Hp). cbn beta iota.
  rewrite (growproc_run c cur p s n Hc Hp ltac:(lia)). fold r. destruct r as [r e]. simpl.
  destruct (decide (n ≠ 0 ∧ u32 r = 0)) as [Hf|Hf].
  - exists (-1), (set_ext e s), p. split; [done|]. destruct s. by repeat split.
  - eexists _, _, (set_sz (u32 r) p). split; [done|]. split; [|split; [tauto|]].
    + rewrite on_slot_lookup, decide_True by done. destruct s. simpl in *. by rewrite Hp.
    + intros _. split; [done|]. split; [done|]. by destruct s.
Qed.

(** [settickets] takes any [int], negative and zero included: it becomes
    the ticket count of the calling process and the result; no other slot
    changes. *)
Theorem sys_settickets_spec c cur p s :
  in_user c cur p s → inside p (arg_addr p 0) 4 →
  let n := i32 (uload32 (pgdir p) (arg_addr p 0) (ext s)) in
  ∃ s', sys_settickets c s = Ok n s' ∧ ptable s' = <[cur := set_tickets n p]> (ptable s).
Proof.
  intros Hu Hin n. pose proof Hu as (Hc & Hp & Hsz). unfold sys_settickets.
  cbv [mbind K_bind prog_bind]. rewrite (argint_run _ _ _ _ _ Hu), decide_True by done.
  cbn beta iota. fold n. rewrite (curproc_run _ _ _ Hc). cbn beta iota. rewrite upd_run.
  rewrite (cur_proc_run c cur (set_tickets n p)).
  - cbn beta iota. eexists. split; [by destruct p|].
    rewrite (proj1 (on_slot_fields _ _ _)). by apply list_alter_insert.
  - rewrite <-Hc. unfold current. by destruct s.
  - by rewrite on_slot_lookup, decide_True, Hp.
Qed.

Lemma with_lock_ticks f c l s s' : with_lock f c l s = Ok tt s' → ticks s' = ticks s.
Proof.
  unfold with_lock. destruct (cpus s !! c); [|done]. destruct (f _ _) as [[]|]; [|done].
  intros E. simplify_eq. by destruct s.
Qed.

Lemma cur_proc_same c s p s' : cur_proc c s = Ok p s' → s' = s.
Proof.
  unfold cur_proc, curproc, proc_at. cbv [mbind K_bind prog_bind get expect mret K_ret prog_ret].
  destruct (option_bind _ _ _ _) as [cur|]; [|done]. simpl.
  destruct (ptable s !! cur); [|done]. intros E. by simplify_eq.
Qed.

Lemma sleep_loop_elapsed rounds swtch c t0 n s v c' s' :
  sleep_loop rounds swtch c t0 n s = Ok (Some (v, c')) s' →
  v = 0 ∧ u32 n ≤ u32 (ticks s' - t0) ∨ v = -1.
Proof.
  revert c s. induction rounds as [|rounds IH]; intros c s; simpl;
    cbv [mbind K_bind prog_bind get mret K_ret prog_ret]; cbn beta iota;
    (case_decide as Ht;
     [destruct (cur_proc c s) as [p sp|] eqn:Hcp; [|done];
      pose proof (cur_proc_same _ _ _ _ Hcp) as ->; cbn beta iota; case_decide
     |unfold release; destruct (with_lock _ c TicksLock s) as [[] s1|] eqn:Hl; [|done];
      intros E; simplify_eq; left; rewrite (with_lock_ticks _ _ _ _ _ Hl); split; [done|lia]]).
  - destruct (release c TicksLock s) as [[] ?|]; [|done]. intros E. simplify_eq. by right.
  - done.
  - destruct (release c TicksLock s) as [[] ?|]; [|done]. intros E. simplify_eq. by right.
  - destruct (sleep _ _ _ _ s) as [c1 s1|]; [|done]. apply IH.
Qed.

End syscall.

(** ** At work *)

(** The process of slot 0, with an argument word at 104 that holds 104. *)
Definition caller : proc :=
  set_sz 4096 (set_tf (Trapframe 23 100 0 512 27 35 35 35) (a_proc RUNNING 1 20 None)).

Definition caller_kernel : kernel := kernel_of [caller; blank] [busy_cpu 0].

Lemma caller_in_user : in_user 0 0 caller caller_kernel.
Proof. split; [done|]. split; [done|]. simpl. lia. Qed.

Lemma fetchstr_spec_witness :
  fetchstr 0 104 caller_kernel = Ok (Some (104, 7)) caller_kernel ∧
  fetchstr 0 4096 caller_kernel = Ok None caller_kernel.
Proof.
  split.
  - destruct (fetchstr_spec 0 0 caller caller_kernel 104 caller_in_user) as (r & Hr & Hs); [lia|].
    rewrite Hr. f_equal. apply Hs. split; [reflexivity|]. repeat split; try by vm_compute.
    intros i Hi. simpl. rewrite decide_False; [done|].
    assert (i = (104 + i) mod 8) by (apply (Z.mod_unique _ _ 13); lia). lia.
  - destruct (fetchstr_spec 0 0 caller caller_kernel 4096 caller_in_user) as (r & Hr & Hs); [lia|].
    rewrite Hr. destruct r as [[ptr n]|]; [|reflexivity].
    exfalso. destruct (Hs ptr n) as [Hs1 _]. destruct (Hs1 eq_refl) as (_ & H1 & H2 & _).
    simpl in H2. lia.
Defined.

Lemma argptr_spec_witness :
  argptr 0 0 24 caller_kernel = Ok (Some 104) caller_kernel ∧
  argptr 0 0 4000 caller_kernel = Ok None caller_kernel ∧
  argptr 0 0 (-1) caller_kernel = Ok (Some 104) caller_kernel.
Proof.
  split; [|split].
  - destruct (argptr_spec 0 0 caller caller_kernel 0 24 caller_in_user) as (r & Hr & Hs & _).
    rewrite Hr. f_equal. apply Hs; [by vm_compute|]. by vm_compute.
  - destruct (argptr_spec 0 0 caller caller_kernel 0 4000 caller_in_user) as (r & Hr & Hs & _).
    rewrite Hr. destruct r as [a|]; [|reflexivity]. exfalso.
    destruct (Hs ltac:(by vm_compute) a) as [Hs1 _]. destruct (Hs1 eq_refl) as (_ & _ & _ & _ & Hin).
    by vm_compute in Hin.
  - destruct (argptr_spec 0 0 caller caller_kernel 0 (-1) caller_in_user) as (r & Hr & _ & Hs).
    rewrite Hr. f_equal. apply Hs; by vm_compute.
Defined.

Lemma syscall_spec_witness :
  syscall (λ _ c, mret (Some (0, c))) 0 (λ c, mret c) 0 caller_kernel =
    Ok (Some 0%nat) (on_slot 0 (set_eax 104) (on_slot 0 (set_tickets 104) caller_kernel)).
Proof.
  destruct (syscall_spec (λ _ c, mret (Some (0, c))) 0 (λ c, mret c) 0 0 caller caller_kernel)
    as [_ Hs]; [reflexivity|reflexivity|].
  destruct Hs as (n & Hn & Hs); [by vm_compute|]. vm_compute in Hn. simplify_eq.
  apply Hs; reflexivity.
Defined.

Lemma sys_sbrk_spec_witness :
  ∃ v s' p', sys_sbrk 0 caller_kernel = Ok v s' ∧ ptable s' !! 0%nat = Some p' ∧
    v = 4096 ∧ p' = set_sz 4200 caller.
Proof.
  destruct (sys_sbrk_spec 0 0 caller caller_kernel caller_in_user) as (v & s' & p' & Hs & Hp & _ & Hok);
    [by vm_compute|].
  destruct Hok as (Hv & Hp' & _); [by intros [_ Hz]; vm_compute in Hz|].
  exists v, s', p'. split; [exact Hs|]. split; [exact Hp|]. split; [exact Hv|exact Hp'].
Defined.

Lemma sys_settickets_spec_witness :
  ∃ s', sys_settickets 0 caller_kernel = Ok 104 s' ∧
        ptable s' = <[0%nat := set_tickets 104 caller]> (ptable caller_kernel).
Proof.
  destruct (sys_settickets_spec 0 0 caller caller_kernel caller_in_user) as (s' & Hs & Hp);
    [by vm_compute|].
  exists s'. split; [exact Hs|exact Hp].
Defined.
