(* ===== verification/SleepProps.v ===== *)
(** [sys_sleep] (hw3/sysproc.c) while the system runs: it returns only when the
    time has passed or the process is killed, and does return when the clock
    goes on and the process is scheduled again. *)

From Stdlib Require Import String.
From S2P Require Import Prelude KernelEnv Proc Locking ProcSpec Lottery Handover Protocol.
From S2P Require Import System KernelInstance KernelProps SwitchProps Syscall.

Section sleeping.
Context `{KernelEnv} `{Spinlock}.

(** At the head of the loop of [sys_sleep], and inside [sched] under [sleep]:
    the only lock anybody holds of the two is [l], held by [c], which runs
    [cur]; [p] is its slot. *)
Record holds_only (l : lockid) (c cur : nat) (p : proc) (s : kernel) : Prop := {
  ho_held : ∀ c', holding c' l (locks s) = bool_decide (c' = c);
  ho_ptable : l ≠ PtableLock → lock_free PtableLock s;
  ho_ticks : l ≠ TicksLock → lock_free TicksLock s;
  ho_slot : ptable s !! cur = Some p;
  ho_cpu : ∃ k, cpus s !! c = Some k ∧ ncli k = 1 ∧ eflags_if k = false ∧ cpu_proc k = Some cur
}.

(** What the rest of the system does for a process that sleeps on the clock:
    some ticks later - at least one, and not so many that the counter passes the
    whole of its range - it is back, on some processor, not killed. *)
Definition resumes_sleeper (swtch : nat → K nat) (cur : nat) (n : Z) : Prop :=
  ∀ c s p, holds_only PtableLock c cur p s → state p ≠ RUNNING → killed p = 0 →
    ∃ c' s' d p', swtch c s = Ok c' s' ∧ holds_only PtableLock c' cur p' s' ∧ killed p' = 0 ∧
      1 ≤ d ≤ 2 ^ 32 - u32 n ∧ ticks s' = u32 (ticks s + d).

End sleeping.

Section sleeping_spec.
Context `{KernelEnv} `{SpinlockLaws}.

Lemma holds_current l c cur p s : holds_only l c cur p s → current c s = Some cur.
Proof. intros [_ _ _ _ (k & Hk & _ & _ & Hp)]. unfold current. by rewrite Hk. Qed.

(** [sched] and [sleep] after the switch: [ptable.lock] is exchanged for the
    caller's lock. *)
Lemma sleep_back_runs saved c cur p s :
  holds_only PtableLock c cur p s →
  ∃ s', (sched_leave c saved ;; sleep_leave c cur (Some TicksLock)) s = Ok tt s' ∧
    holds_only TicksLock c cur (set_chan None p) s' ∧ ticks s' = ticks s.
Proof.
  intros [Hh _ Ht Hp (k & Hk & Hn & Hif & Hcp)]. specialize (Ht ltac:(done)).
  pose proof (lookup_lt_Some _ _ _ Hk) as Hlt.
  set (s1 := on_slot cur (set_chan None) (on_cpu c (set_intena saved) s)).
  destruct (release_ok c PtableLock s1 (set_intena saved k)) as (L & k1 & Hr & Hp1 & Hn1 & Hif1 & Hl1 & Ho1).
  { unfold s1. destruct s. simpl in *. by rewrite Hh, bool_decide_true. }
  { unfold s1. destruct s. simpl in *. by rewrite list_lookup_alter_eq, Hk. }
  { destruct k. simpl in *. lia. }
  { by destruct k. }
  set (s2 := set_locks L _) in *.
  destruct (acquire_ok c TicksLock s2 k1) as (L2 & k2 & Ha & Hp2 & Hn2 & Hif2 & _ & Hh2 & Ho2).
  { intros c'. unfold s2, s1. destruct s. simpl in *. rewrite Ho1 by done. apply Ht. }
  { unfold s2, s1. destruct s. simpl in *. rewrite list_lookup_insert_eq; [done|].
    by rewrite length_alter. }
  { destruct k. simpl in *. split; [lia|]. intros. lia. }
  eexists. split.
  { unfold sched_leave, sleep_leave. cbv [mbind K_bind prog_bind]. unfold upd_cpu, modify. cbn beta iota.
    rewrite upd_run, decide_True by done. fold (on_cpu c (set_intena saved) s). fold s1.
    rewrite Hr. exact Ha. }
  clear Hr Ha. split; [|unfold s2, s1; by destruct s]. unfold s2, s1 in *. destruct s. simpl in *.
  split; simpl.
  - intros c'. destruct (decide (c' = c)) as [->|Hc]; [by rewrite bool_decide_true|].
    rewrite bool_decide_false by done. rewrite Ho2 by naive_solver. rewrite Ho1 by done. apply Ht.
  - intros _ c'. rewrite Ho2 by naive_solver. rewrite Hl1, Hh. simpl.
    by destruct (bool_decide (c' = c)).
  - done.
  - by rewrite list_lookup_alter_eq, Hp.
  - exists k2. rewrite list_insert_insert_eq, list_lookup_insert_eq by by rewrite length_alter.
    destruct k. simpl in *. split; [done|]. split; [lia|]. split; [done|]. congruence.
Qed.

(** One [sleep(&ticks, &tickslock)]. *)
Lemma sleep_tick swtch c cur p s n :
  holds_only TicksLock c cur p s → killed p = 0 → resumes_sleeper swtch cur n →
  ∃ c' s' d p', sleep swtch c (Some ChTicks) (Some TicksLock) s = Ok c' s' ∧
    holds_only TicksLock c' cur p' s' ∧ killed p' = 0 ∧
    1 ≤ d ≤ 2 ^ 32 - u32 n ∧ ticks s' = u32 (ticks s + d).
Proof.
  intros Hho Hk Hsw. pose proof (holds_current _ _ _ _ _ Hho) as Hcur.
  pose proof Hho as [Hh Hf _ Hp (k & Hck & Hn & Hif & Hcp)].
  destruct (sleep_enter_lock c (Some ChTicks) TicksLock s k cur p) as
    (t & kt & He & (L & Ht) & Hlf & Hht & Hkt & Hnt & Hift & Hct); try done.
  { by apply Hf. }
  { by rewrite Hh, bool_decide_true. }
  { intros c' Hc. by rewrite Hh, bool_decide_false. }
  set (q := set_state SLEEPING (set_chan (Some ChTicks) p)).
  assert (holds_only PtableLock c cur q t) as Hho'.
  { split; try done; [|by exists kt]. subst t. unfold sleep_effect. destruct s. simpl in *.
    by rewrite list_lookup_alter_eq, Hp. }
  destruct (Hsw c t q Hho') as (c' & u & d & p' & Hs & Hho2 & Hk2 & Hd & Htk); [by destruct p..|].
  assert (sched_enter c t = Ok (intena kt) t) as Hse.
  { destruct Hho' as [_ _ _ Hq _]. apply (sched_enter_run c t kt cur q); try done.
    - by rewrite Hht, bool_decide_true.
    - by destruct p. }
  destruct (sleep_back_runs (intena kt) c' cur p' u Hho2) as (s' & Hb & Hho3 & Htk').
  exists c', s', d, (set_chan None p'). split; [|split; [done|split; [by destruct p'|split; [done|]]]].
  - unfold sleep, sched. cbv [mbind K_bind prog_bind]. rewrite He. cbn beta iota. rewrite Hse.
    cbn beta iota. rewrite Hs. cbv [mbind K_bind prog_bind] in Hb.
    destruct (sched_leave c' (intena kt) u) as [[] v|]; [|done]. cbv [mret K_ret prog_ret]. cbn beta iota.
    by rewrite Hb.
  - rewrite Htk', Htk. subst t. by destruct s.
Qed.

Lemma elapsed_step t t0 n d :
  u32 (t - t0) < u32 n → 1 ≤ d ≤ 2 ^ 32 - u32 n →
  u32 (u32 (t + d) - t0) = u32 (t - t0) + d.
Proof.
  intros Hlt Hd. pose proof (u32_range (t - t0)). unfold u32 in *.
  rewrite Zminus_mod_idemp_l. replace (t + d - t0) with (t - t0 + d) by lia.
  rewrite <-Zplus_mod_idemp_l. apply Z.mod_small. lia.
Qed.

Lemma ticks_release c cur p s :
  holds_only TicksLock c cur p s → ∃ s', release c TicksLock s = Ok tt s'.
Proof.
  intros [Hh _ _ _ (k & Hk & Hn & Hif & _)].
  destruct (release_ok c TicksLock s k) as (L & k' & Hr & _); [|done|lia|done|by eexists].
  by rewrite Hh, bool_decide_true.
Qed.

Lemma sleep_loop_returns rounds swtch c cur p t0 n s :
  holds_only TicksLock c cur p s → killed p = 0 → resumes_sleeper swtch cur n →
  u32 n ≤ u32 (ticks s - t0) + Z.of_nat rounds →
  ∃ c' s', sleep_loop rounds swtch c t0 n s = Ok (Some (0, c')) s'.
Proof.
  intros Hho Hk Hsw. revert c p s Hho Hk. induction rounds as [|rounds IH]; intros c p s Hho Hk Hle;
    simpl; cbv [mbind K_bind prog_bind get mret K_ret prog_ret]; cbn beta iota; case_decide as Ht;
    try (destruct (ticks_release _ _ _ _ Hho) as [s' ->]; by eexists _, _); [lia|].
  rewrite (cur_proc_run c cur p s (holds_current _ _ _ _ _ Hho) (ho_slot _ _ _ _ _ Hho)). cbn beta iota.
  rewrite decide_False by lia.
  destruct (sleep_tick swtch c cur p s n Hho Hk Hsw) as (c' & s' & d & p' & -> & Hho' & Hk' & Hd & Htk).
  apply (IH c' p'); [done|done|]. rewrite Htk, (elapsed_step _ _ n) by done. lia.
Qed.

(** C40: [sleep(n)] measures its time by the clock.  Whatever the rest of the
    system does meanwhile, it returns 0 only when the tick counter has advanced
    by at least [n] modulo 2^32 since the call, and otherwise -1; a negative [n]
    is compared as an unsigned number, so that it waits for at least 2^31 ticks.
    And it does return 0 when the process is not killed and is scheduled again,
    each time a tick or more later. *)
Theorem sys_sleep_elapsed rounds swtch c cur p s :
  in_user c cur p s → inside p (arg_addr p 0) 4 →
  let n := i32 (uload32 (pgdir p) (arg_addr p 0) (ext s)) in
  (∀ v c' s', sys_sleep rounds swtch c s = Ok (Some (v, c')) s' →
     v = -1 ∨ v = 0 ∧ u32 n ≤ u32 (ticks s' - ticks s) ∧
              (n < 0 → 2 ^ 31 ≤ u32 (ticks s' - ticks s))) ∧
  (lock_free TicksLock s → lock_free PtableLock s →
   (∃ k, cpus s !! c = Some k ∧ ncli k = 0) → killed p = 0 →
   resumes_sleeper swtch cur n → u32 n ≤ Z.of_nat rounds →
   ∃ c' s', sys_sleep rounds swtch c s = Ok (Some (0, c')) s').
Proof.
  intros Hu Hin n. unfold sys_sleep. cbv [mbind K_bind prog_bind].
  rewrite (argint_run _ _ _ _ _ Hu), decide_True by done. cbn beta iota. fold n. split.
  - intros v c' s'. destruct (acquire c TicksLock s) as [[] s1|] eqn:Ha; [|done]. cbv [get]. cbn beta iota.
    unfold acquire in Ha. rewrite <-(with_lock_ticks _ _ _ _ _ Ha).
    intros [[-> Hle]| ->]%sleep_loop_elapsed; [|by left]. right. split; [done|]. split; [done|].
    intros Hneg. assert (2 ^ 31 ≤ u32 n); [|lia].
    pose proof (i32_range (uload32 (pgdir p) (arg_addr p 0) (ext s))) as Hr. fold n in Hr.
    unfold u32. rewrite <-(Z.mod_add n 1) by lia. rewrite Z.mod_small; unfold INT_MIN in *; lia.
  - intros Hlt Hlp (k & Hk & Hn) Hkl Hsw Hr. destruct Hu as (Hc & Hp & _).
    destruct (acquire_ok c TicksLock s k Hlt Hk) as (L & k' & Ha & Hp' & Hn' & Hif' & _ & Hh & Ho).
    { split; [lia|]. intros. lia. }
    rewrite Ha. cbv [get]. cbn beta iota. pose proof (lookup_lt_Some _ _ _ Hk) as Hlen.
    assert (cpu_proc k = Some cur) as Hcp by (unfold current in Hc; by rewrite Hk in Hc).
    apply (sleep_loop_returns rounds swtch c cur p); try done; destruct s; simpl in *.
    + split; simpl; try done.
      * intros c'. destruct (decide (c' = c)) as [->|Hne]; [by rewrite bool_decide_true|].
        rewrite bool_decide_false by done. rewrite Ho by naive_solver. apply Hlt.
      * intros _ c'. simpl. rewrite Ho by naive_solver. apply Hlp.
      * exists k'. rewrite list_lookup_insert_eq by done. split; [done|]. split; [lia|]. split; [done|]. congruence.
    + pose proof (u32_range (ticks - ticks)). lia.
Qed.

End sleeping_spec.

(** ** At work *)

(** The clock runs 200 ticks while the process is switched out. *)
Definition clock_swtch (c : nat) : K nat :=
  modify (λ s, set_ticks (u32 (ticks s + 200)) (on_slot 0 (set_state RUNNING) s)) ;; mret c.

Lemma clock_resumes : resumes_sleeper clock_swtch 0 104.
Proof.
  intros c s p [Hh Hp Ht Hs Hk] _ Hkl.
  exists c, (set_ticks (u32 (ticks s + 200)) (on_slot 0 (set_state RUNNING) s)), 200, (set_state RUNNING p).
  split; [done|]. split; [|split; [by destruct p|split; [by split; vm_compute|by destruct s]]].
  destruct s. split; simpl in *; try done. by rewrite list_lookup_alter_eq, Hs.
Qed.

Lemma sys_sleep_elapsed_witness :
  ∃ c' s', sys_sleep 104 clock_swtch 0 caller_kernel = Ok (Some (0, c')) s' ∧
    (0 = -1 ∨ 0 = 0 ∧ 104 ≤ u32 (ticks s' - 5) ∧ (104 < 0 → 2 ^ 31 ≤ u32 (ticks s' - 5))).
Proof.
  destruct (sys_sleep_elapsed 104 clock_swtch 0 0 caller caller_kernel) as [Hv Hr];
    [apply caller_in_user|by vm_compute|].
  destruct Hr as (c' & s' & Hs); [by intros ?|by intros ?|by eexists|done|apply clock_resumes|by vm_compute|].
  exists c', s'. split; [exact Hs|]. apply (Hv _ _ _ Hs).
Defined.
