(* ===== verification/KernelCalls.v ===== *)
(** System calls in the running system: a call that does not switch, executed
    by [syscall] from its number in the trap frame to the result register, is a
    sequence of steps of the system of Execution.v - so that whatever holds of
    the reachable states holds when the call returns - and does not fail. *)

From Stdlib Require Import String.
From S2P Require Import Prelude KernelEnv Proc Locking ProcSpec Lottery Handover Protocol.
From S2P Require Import System KernelProps SystemProps Execution ExecutionProps CodeProps TypeProps Syscall.

Section calls.
Context `{KernelEnv} `{Spinlock}.

(** The calls whose handlers in proc.c and sysproc.c do not switch. *)
Definition non_blocking (n : sysno) : bool :=
  match n with
  | SYS_fork | SYS_kill | SYS_getpid | SYS_sbrk | SYS_uptime | SYS_gettime | SYS_settickets => true
  | _ => false
  end.

(** Process [i] runs on processor [c], in the kernel, in a state the code can
    reach; a part [P] of the state is as it needs. *)
Definition in_call (c i : nat) (s : kernel) (l : list kcont) : Prop :=
  reachable booted code_step (Sys s l) ∧ calls c i s ∧ l !! i = Some InKernel.

(** [m], run by that process, returns a result that satisfies [Q], by steps of
    the system, with the process as before. *)
Definition completes {A} (c i : nat) (P : kernel → Prop) (m : K A) (Q : A → Prop) : Prop :=
  ∀ s l, in_call c i s l → P s →
    ∃ a s' l', m s = Ok a s' ∧ rtc code_step (Sys s l) (Sys s' l') ∧ in_call c i s' l' ∧ Q a.

Definition always : kernel → Prop := λ _, True.

End calls.

Section rules.
Context `{KernelEnv} `{SpinlockLaws}.
Context (c i : nat).

(** ** Rules *)

Lemma completes_ret {A} (a : A) P (Q : A → Prop) : Q a → completes c i P (mret a) Q.
Proof. intros Ha s l Hin _. exists a, s, l. split; [done|]. split; [apply rtc_refl|done]. Qed.

Lemma completes_bind {A B} (m : K A) (f : A → K B) P Q R :
  completes c i P m Q → (∀ a, Q a → completes c i always (f a) R) → completes c i P (m ≫= f) R.
Proof.
  intros Hm Hf s l Hin HP. destruct (Hm s l Hin HP) as (a & s1 & l1 & Hr & Hs & Hin1 & Ha).
  destruct (Hf a Ha s1 l1 Hin1 I) as (b & s2 & l2 & Hr2 & Hs2 & Hin2 & Hb).
  exists b, s2, l2. split; [|split; [by etrans|done]].
  unfold mbind, K_bind, prog_bind. by rewrite Hr.
Qed.

Lemma completes_weaken {A} (m : K A) P P' (Q Q' : A → Prop) :
  completes c i P m Q → (∀ s, P' s → P s) → (∀ a, Q a → Q' a) → completes c i P' m Q'.
Proof.
  intros Hm HP HQ s l Hin Hs. destruct (Hm s l Hin (HP s Hs)) as (a & s' & l' & ? & ? & ? & ?).
  exists a, s', l'. auto.
Qed.

(** A computation that only reads. *)
Lemma completes_reads {A} (m : K A) (Q : A → Prop) :
  (∀ s l, in_call c i s l → ∃ a, m s = Ok a s ∧ Q a) → completes c i always m Q.
Proof.
  intros Hm s l Hin _. destruct (Hm s l Hin) as (a & Hr & Ha). exists a, s, l.
  split; [done|]. split; [apply rtc_refl|done].
Qed.

Lemma in_call_sound s l : in_call c i s l → sound s l.
Proof.
  intros (Hr & _). destruct (code_reachable_core _ Hr) as ([t l'] & Hy & Hc & Hk). simpl in *. subst.
  eapply sound_core; [exact Hc|]. apply (reachable_sound _ Hy).
Qed.

Lemma in_call_slot s l : in_call c i s l → ∃ p, ptable s !! i = Some p.
Proof. intros Hin. pose proof Hin as (_ & _ & Hk). by eapply sound_lookup; [apply in_call_sound|]. Qed.

(** A piece of code that is one step. *)
Lemma in_call_step s l s' l' :
  in_call c i s l → code_step (Sys s l) (Sys s' l') → calls c i s' → l' !! i = Some InKernel →
  rtc code_step (Sys s l) (Sys s' l') ∧ in_call c i s' l'.
Proof.
  intros ((x0 & Hb & Hr) & _) Hst Hc Hk. split; [by apply rtc_once|]. split; [|done].
  exists x0. split; [done|]. by eapply rtc_r.
Qed.

Lemma completes_step {A} (m : K A) P (Q : A → Prop) :
  (∀ s l, in_call c i s l → P s → ∃ a s', m s = Ok a s' ∧ Q a ∧ calls c i s' ∧
     code_step (Sys s l) (Sys s' l)) →
  completes c i P m Q.
Proof.
  intros Hm s l Hin HP. destruct (Hm s l Hin HP) as (a & s' & Hr & Ha & Hc & Hst).
  destruct (in_call_step s l s' l) as [Hs Hin']; [done..|by apply Hin|].
  exists a, s', l. auto.
Qed.

(** ** Where the process is *)

Lemma calls_frame s t : frame s t → calls c i s → calls c i t.
Proof. intros [Hcp Hl]. unfold calls, Locking.lock_free. by rewrite Hcp, Hl. Qed.

Lemma calls_equiv s t : s ≡ t → calls c i t → calls c i s.
Proof.
  intros Heq (Hf & k & Hk & Hn & Hp). split; [by rewrite Heq|]. destruct Heq.
  destruct (Forall2_lookup_r _ _ _ _ _ same_cpus Hk) as (k' & Hk' & Hp' & Hn' & _).
  exists k'. split; [done|]. split; congruence.
Qed.

Lemma runs_calls {A} (m : K A) s a t :
  runs m s a t → frame s t → calls c i s → ∃ s', m s = Ok a s' ∧ s' ≡ t ∧ calls c i s'.
Proof.
  intros (s' & Hm & Heq) Hf Hc. exists s'. split; [done|]. split; [done|].
  eapply calls_equiv; [exact Heq|]. by eapply calls_frame.
Qed.

(** ** The functions of proc.c *)

Lemma completes_kill n : completes c i always (kill c n) (λ _, True).
Proof.
  apply completes_step. intros s l (Hr & Hc & Hk) _.
  destruct (runs_calls _ _ _ _ (kill_runs c n s (calls_can_lock _ _ _ Hc))) as (s' & Hm & _ & Hc');
    [|done|].
  - unfold kill_effect. destruct (find_pid _ _); simpl; [by apply frame_on_slot|done].
  - eexists _, s'. split; [exact Hm|]. split; [done|]. split; [done|].
    eapply C_kill; [by eapply calls_can_lock|exact Hm].
Qed.

Lemma completes_growproc n : completes c i always (growproc c n) (λ _, True).
Proof.
  apply completes_step. intros s l Hin _. destruct (in_call_slot _ _ Hin) as [p Hp].
  destruct Hin as (Hr & Hc & Hk). pose proof (calls_current _ _ _ Hc) as Hcur.
  destruct (growproc_runs c n s i p Hcur Hp) as (r & s' & Hg). exists r, s'.
  split; [done|]. split; [done|]. split; [|by eapply C_growproc].
  destruct (growproc_effect _ _ _ _ _ _ Hcur Hg) as (z & e & -> & _).
  eapply calls_frame; [|exact Hc]. by apply frame_on_slot, frame_set_ext.
Qed.

Lemma slot_frame s : frame s (slot_effect s).2.
Proof.
  unfold slot_effect. destruct (find_unused _); [|done]. simpl. by apply frame_set_nextpid, frame_on_slot.
Qed.

Lemma stack_frame np s : frame s (stack_effect np s).2.
Proof.
  unfold stack_effect. destruct (kalloc _). case_decide; simpl; by apply frame_on_slot, frame_set_ext.
Qed.

(** The slot of a child under construction. *)
Lemma child_slot s l np :
  reachable booted code_step (Sys s l) → l !! i = Some (Forking np) →
  np ≠ i ∧ (np < length l)%nat.
Proof.
  intros Hr Hk. destruct (code_reachable_core _ Hr) as ([t l'] & Hy & Hc & El). simpl in *. subst l'.
  pose proof (system_shape _ Hy) as Hsh.
  destruct (sim_child t l Hsh (system_inv _ Hy) i np) as (_ & _ & Hlt & Hne); [by left|].
  split; [done|]. destruct Hsh as [Hl _]. simpl in Hl. by rewrite Hl.
Qed.

Lemma set_kont_eq k k' (l : list kcont) : l !! i = Some k' → set_kont i k l !! i = Some k.
Proof. intros Hk. unfold set_kont. by rewrite list_lookup_alter_eq, Hk. Qed.

(** [fork] from the new slot on. *)
Lemma fork_from_slot s l np :
  reachable booted code_step (Sys s l) → calls c i s → l !! i = Some (Forking np) →
  ∃ r s' l', (o ← allocproc_stack np;
              match o with
              | None => mret (-1)
              | Some np =>
                  cur ← curproc c;
                  ok ← fork_copy cur np;
                  if (ok : bool) then q ← proc_at np; fork_publish c np ;; mret (pid q)
                  else mret (-1)
              end) s = Ok r s' ∧
    rtc code_step (Sys s l) (Sys s' l') ∧ calls c i s' ∧ l' !! i = Some InKernel.
Proof.
  intros Hr Hc Hk. destruct (child_slot s l np Hr Hk) as [Hne Hlt].
  pose proof (allocproc_stack_run np s) as Ha. cbv [mbind K_bind prog_bind]. rewrite Ha.
  pose proof (calls_frame _ _ (stack_frame np s) Hc) as Hc1.
  pose proof (stack_length np s) as Hlen.
  assert (length l = length (ptable s)) as Hll.
  { destruct (code_reachable_core _ Hr) as (y & Hy & Hcy & El).
    destruct (system_shape _ Hy) as [Hl _]. by rewrite <-El, <-(core_ptable _ _ Hcy) in Hl. }
  assert ((stack_effect np s).1 = None ∨ (stack_effect np s).1 = Some np) as [E|E]
    by (unfold stack_effect; destruct (kalloc _); case_decide; auto); rewrite E in Ha |- *.
  { exists (-1), (stack_effect np s).2, (set_kont i InKernel l). split; [done|].
    split; [|split; [done|by eapply set_kont_eq]]. apply rtc_once. by eapply C_fork_nostack. }
  rewrite (curproc_run _ _ _ (calls_current _ _ _ Hc1)).
  destruct (lookup_lt_is_Some_2 (ptable (stack_effect np s).2) i) as [pp Hpp].
  { rewrite Hlen, <-Hll. by eapply lookup_lt_Some. }
  destruct (lookup_lt_is_Some_2 (ptable (stack_effect np s).2) np) as [q Hq]; [lia|].
  pose proof (fork_copy_run i np _ pp q Hpp Hq) as Hcp. rewrite Hcp.
  pose proof (calls_frame _ _ (copy_effect_frame i np pp q _) Hc1) as Hc2.
  set (s2 := (copy_effect i np pp q (stack_effect np s).2).2) in *.
  assert (code_step (Sys s l) (Sys s2 (set_kont i
    (if (copy_effect i np pp q (stack_effect np s).2).1 then Copied np else InKernel) l))) as Hst
    by by eapply C_fork_copy.
  destruct (copy_effect i np pp q (stack_effect np s).2).1.
  2:{ eexists _, s2, _. split; [done|]. split; [by apply rtc_once|]. split; [done|by eapply set_kont_eq]. }
  assert (reachable booted code_step (Sys s2 (set_kont i (Copied np) l))) as Hr2.
  { destruct Hr as (x0 & Hb & Hr). exists x0. split; [done|]. by eapply rtc_r. }
  assert (∃ q2, ptable s2 !! np = Some q2) as [q2 Hq2].
  { apply lookup_lt_is_Some_2. unfold s2, copy_effect. destruct (copyuvm _ _ _) as [pg e].
    case_decide; simpl; [|destruct (dup_files _ _ _), (idup _ _); simpl];
      rewrite (proj1 (on_slot_fields _ _ _)), length_alter;
      (replace (ptable (set_ext _ _)) with (ptable (stack_effect np s).2) by by destruct (stack_effect np s).2); lia. }
  rewrite (proc_at_run _ _ _ Hq2).
  destruct (runs_calls _ _ _ _ (fork_publish_runs c np s2 (calls_can_lock _ _ _ Hc2))) as (s3 & Hp & _ & Hc3);
    [by apply frame_on_slot|done|].
  rewrite Hp. eexists _, s3, _. split; [done|]. split; [|split; [done|]].
  - eapply rtc_l; [exact Hst|]. apply rtc_once. eapply C_fork_publish; [exact Hc2| |exact Hp].
    by eapply set_kont_eq.
  - unfold set_kont. rewrite list_lookup_alter_ne by done. by rewrite !list_lookup_alter_eq, Hk.
Qed.

Lemma completes_fork : completes c i always (sys_fork c) (λ _, True).
Proof.
  intros s l Hin _. pose proof Hin as (Hr & Hc & Hk).
  destruct (runs_calls _ _ _ _ (allocproc_slot_runs c s (calls_can_lock _ _ _ Hc)) (slot_frame s) Hc)
    as (s1 & Ha & _ & Hc1).
  destruct (slot_effect s).1 as [np|].
  - assert (code_step (Sys s l) (Sys s1 (set_kont i (Forking np) l))) as Hst by by eapply C_fork_slot.
    destruct (fork_from_slot s1 (set_kont i (Forking np) l) np) as (r & s' & l' & Hf & Hs & Hc' & Hk').
    { destruct Hr as (x0 & Hb & Hr). exists x0. split; [done|]. by eapply rtc_r. }
    { done. }
    { by eapply set_kont_eq. }
    exists r, s', l'. split; [|split; [by eapply rtc_l|split; [split; [|done]|done]]].
    + unfold sys_fork, fork, allocproc. cbv [mbind K_bind prog_bind] in *. by rewrite Ha.
    + destruct Hr as (x0 & Hb & Hr). exists x0. split; [done|]. etrans; [exact Hr|]. by eapply rtc_l.
  - exists (-1), s1, l. destruct (in_call_step s l s1 l) as [Hs Hin']; [done|by eapply C_fork_full|done..|].
    split; [|done]. unfold sys_fork, fork, allocproc. cbv [mbind K_bind prog_bind]. by rewrite Ha.
Qed.

(** ** Arguments *)

Lemma completes_cur_proc : completes c i always (cur_proc c) (λ _, True).
Proof.
  apply completes_reads. intros s l Hin. destruct (in_call_slot _ _ Hin) as [p Hp].
  destruct Hin as (_ & Hc & _). exists p. split; [|done].
  apply (cur_proc_run c i); [by eapply calls_current|done].
Qed.

Definition int_or_none (r : option Z) : Prop := ∀ z, r = Some z → is_int z.

Lemma completes_fetchint addr : completes c i always (fetchint c addr) int_or_none.
Proof.
  unfold fetchint. eapply completes_bind; [apply completes_cur_proc|]. intros p _.
  case_decide; [by apply completes_ret|]. case_decide; [by apply completes_ret|].
  apply completes_reads. intros s l _. eexists. split; [done|]. intros z [= <-]. apply i32_range.
Qed.

Lemma completes_argint n : completes c i always (argint c n) int_or_none.
Proof. eapply completes_bind; [apply completes_cur_proc|]. intros p _. apply completes_fetchint. Qed.

Lemma completes_argptr n size : completes c i always (argptr c n size) (λ _, True).
Proof.
  eapply completes_bind; [apply completes_argint|]. intros [a|] _; [|by apply completes_ret].
  eapply completes_bind; [apply completes_cur_proc|]. intros p _.
  case_decide; [by apply completes_ret|]. case_decide; by apply completes_ret.
Qed.

(** ** The handlers *)

Lemma completes_sys_kill : completes c i always (sys_kill c) (λ _, True).
Proof.
  eapply completes_bind; [apply completes_argint|]. intros [n|] _; [|by apply completes_ret].
  apply completes_kill.
Qed.

Lemma completes_getpid : completes c i always (sys_getpid c) (λ _, True).
Proof. eapply completes_bind; [apply completes_cur_proc|]. intros p _. by apply completes_ret. Qed.

Lemma completes_sbrk : completes c i always (sys_sbrk c) (λ _, True).
Proof.
  eapply completes_bind; [apply completes_argint|]. intros [n|] _; [|by apply completes_ret].
  eapply completes_bind; [apply completes_cur_proc|]. intros p _.
  eapply completes_bind; [apply completes_growproc|]. intros g _. case_decide; by apply completes_ret.
Qed.

(** Work outside the process table. *)
Lemma outside_step s l s' :
  in_call c i s l → core_same s' s ∨ (∃ e, s' = set_ext e s) ∨ (∃ v, s' = emit v s) →
  lock_free PtableLock s' → code_step (Sys s l) (Sys s' l).
Proof.
  intros _ Hs Hf. destruct Hs as [Hc|[[e ->]|[v ->]]].
  - destruct Hc. by apply C_outside.
  - apply C_outside; [done|by destruct s..].
  - apply C_outside; [done|by destruct s..].
Qed.

Lemma completes_uptime : completes c i (lock_free TicksLock) (sys_uptime c) (λ _, True).
Proof.
  apply completes_step. intros s l Hin Hfree. pose proof Hin as (Hr & Hc & Hk).
  assert (runs (sys_uptime c) s (i32 (ticks s)) s) as Hrun.
  { apply (bracket_runs c TicksLock (sys_uptime c) (λ s, (i32 (ticks s), s))).
    - intros t. unfold sys_uptime. cbv [mbind K_bind prog_bind get].
      by destruct (acquire c TicksLock t) as [[] u|].
    - by intros [] L C.
    - split; [done|]. destruct (calls_can_lock _ _ _ Hc) as [_ ?]. done. }
  destruct (runs_calls _ _ _ _ Hrun) as (s' & Hm & Heq & Hc'); [done|done|].
  exists (i32 (ticks s)), s'. split; [done|]. split; [done|]. split; [done|].
  apply outside_step; [done|left; by apply equiv_core|apply Hc'].
Qed.

Lemma completes_ext_do f : completes c i always (ext_do f) (λ _, True).
Proof.
  apply completes_step. intros s l Hin _. pose proof Hin as (Hr & Hc & Hk).
  assert (calls c i (set_ext (f (ext s)) s)) as Hc' by by apply (calls_frame s); [destruct s|].
  exists tt, (set_ext (f (ext s)) s). split; [done|]. split; [done|]. split; [done|].
  apply outside_step; [done|right; left; by eexists|apply Hc'].
Qed.

Lemma completes_emit v : completes c i always (modify (emit v) : K unit) (λ _, True).
Proof.
  apply completes_step. intros s l Hin _. pose proof Hin as (Hr & Hc & Hk).
  assert (calls c i (emit v s)) as Hc' by by apply (calls_frame s); [destruct s|].
  exists tt, (emit v s). split; [done|]. split; [done|]. split; [done|].
  apply outside_step; [done|right; right; by eexists|apply Hc'].
Qed.

Lemma completes_gettime : completes c i always (sys_gettime c) (λ _, True).
Proof.
  eapply completes_bind; [apply completes_argptr|]. intros [d|] _; [|by apply completes_ret].
  eapply completes_bind; [apply completes_cur_proc|]. intros p _.
  eapply completes_bind; [apply completes_ext_do|]. intros [] _. by apply completes_ret.
Qed.

Lemma completes_curproc : completes c i always (curproc c) (λ cur, cur = i).
Proof.
  apply completes_reads. intros s l (_ & Hc & _). exists i. split; [|done].
  by apply curproc_run, calls_current.
Qed.

Lemma completes_upd f :
  (∀ s l, calls c i s → l !! i = Some InKernel → code_step (Sys s l) (Sys (on_slot i f s) l)) →
  completes c i always (upd i f) (λ _, True).
Proof.
  intros Hf. apply completes_step. intros s l (Hr & Hc & Hk) _.
  exists tt, (on_slot i f s). split; [done|]. split; [done|]. split; [|by apply Hf].
  by apply (calls_frame s); [apply frame_on_slot|].
Qed.

Lemma completes_settickets : completes c i always (sys_settickets c) (λ _, True).
Proof.
  eapply completes_bind; [apply completes_argint|]. intros [n|] Hn; [|by apply completes_ret].
  eapply completes_bind; [apply completes_curproc|]. intros cur ->.
  eapply completes_bind; [apply completes_upd|].
  { intros s l Hc Hk. eapply C_settickets; [done|done|]. by apply Hn. }
  intros [] _. eapply completes_bind; [apply completes_cur_proc|]. intros p _. by apply completes_ret.
Qed.

(** ** The dispatcher *)

(** What the calls need of the state: the clock's lock, for uptime. *)
Definition ready (n : option sysno) (s : kernel) : Prop :=
  match n with Some SYS_uptime => lock_free TicksLock s | _ => True end.

Lemma completes_call fs_call rounds swtch n :
  non_blocking n = true →
  completes c i (ready (Some n)) (run_call fs_call rounds swtch c n)
    (λ r, ∃ v, r = Some (v, c)).
Proof.
  intros Hn. assert (∀ m P, completes c i P m (λ _, True) →
    completes c i P (on_same c m) (λ r, ∃ v, r = Some (v, c))) as Hsame.
  { intros m P Hm. eapply completes_bind; [exact Hm|]. intros v _. apply completes_ret. eauto. }
  destruct n; try done; simpl; apply Hsame;
    (exact completes_uptime ||
     (eapply completes_weaken; [|intros ? ?; exact I|done];
      eauto using completes_fork, completes_sys_kill, completes_getpid, completes_sbrk,
        completes_gettime, completes_settickets)).
Qed.

Lemma completes_set_eax v : completes c i always (upd i (set_eax v)) (λ _, True).
Proof.
  apply completes_step. intros s l Hin _. destruct (in_call_slot _ _ Hin) as [p Hp].
  destruct Hin as (Hr & Hc & Hk). exists tt, (on_slot i (set_eax v) s).
  split; [done|]. split; [done|]. split; [by apply (calls_frame s); [apply frame_on_slot|]|].
  assert (on_slot i (set_eax v) s = on_slot i (set_tf (tf (set_eax v p))) s) as ->.
  { unfold on_slot. f_equal. rewrite !(list_alter_insert _ _ _ _ Hp). by destruct p. }
  by eapply C_trapframe.
Qed.
End rules.

Section theorems.
Context `{KernelEnv} `{SpinlockLaws}.

(** C17: a system call that does not switch - fork, kill, getpid, sbrk, uptime,
    gettime, settickets, or a number that is no call - runs to its end in every
    reachable state, from the number in the trap frame to the result register,
    by steps of the system of Execution.v: it does not panic, the process goes
    on on the same processor without locks, and the state it leaves is
    reachable, so that all the invariants of reachable states hold there.
    (uptime waits while the clock's lock is taken.) *)
Theorem syscall_completes fs_call rounds swtch c i p x :
  reachable booted code_step x → calls c i (ks x) → konts x !! i = Some InKernel →
  ptable (ks x) !! i = Some p →
  let entry := syscall_entry (i32 (tf_eax (tf p))) in
  (∀ n, entry = Some n → non_blocking n = true) → ready entry (ks x) →
  ∃ s' l', syscall fs_call rounds swtch c (ks x) = Ok (Some c) s' ∧
    rtc code_step x (Sys s' l') ∧ reachable booted code_step (Sys s' l') ∧
    calls c i s' ∧ l' !! i = Some InKernel.
Proof.
  destruct x as [s l]. intros Hr Hc Hk Hp entry Hnb Hready. simpl in *.
  assert (in_call c i s l) as Hin by done.
  set (body := match entry with
    | Some n =>
        r ← run_call fs_call rounds swtch c n;
        match r with
        | Some (v, c') => cur ← curproc c'; upd cur (set_eax v) ;; mret (Some c')
        | None => mret None
        end
    | None =>
        modify (emit (EvUnknownCall (pid p) (name p) (i32 (tf_eax (tf p))))) ;;
        cur ← curproc c; upd cur (set_eax (-1)) ;; mret (Some c)
    end : K (option nat)).
  assert (syscall fs_call rounds swtch c s = body s) as ->.
  { unfold syscall. cbv [mbind K_bind prog_bind].
    by rewrite (cur_proc_run c i p s (calls_current _ _ _ Hc) Hp). }
  assert (∀ v, completes c i always (cur ← curproc c; upd cur (set_eax v) ;; mret (Some c))
                 (λ r, r = Some c)) as Hfin.
  { intros v. eapply completes_bind; [apply completes_curproc|]. intros cur ->.
    eapply completes_bind; [apply completes_set_eax|]. intros [] _. by apply completes_ret. }
  assert (completes c i (ready entry) body (λ r, r = Some c)) as Hb.
  { unfold body. destruct entry as [n|].
    - eapply completes_bind; [apply completes_call; auto|]. intros a [v ->]. apply Hfin.
    - eapply completes_bind; [eapply completes_weaken; [apply completes_emit|done|done]|].
      intros [] _. apply Hfin. }
  destruct (Hb s l Hin Hready) as (a & s' & l' & Hrun & Hs & (Hr' & Hc' & Hk') & ->).
  exists s', l'. auto.
Qed.

(** The table when the scheduler has chosen. *)
Lemma dispatch_table c f s i t :
  idles c s → scheduler_choose c f s = Ok (Some i) t →
  ptable t = alter (set_state RUNNING) i (ptable s).
Proof.
  intros (Hfree & k & Hk & Hn & Hp) Hch.
  destruct (scheduler_choose_locked c f s k Hfree Hk Hn) as (t' & Hch' & Hl).
  rewrite Hch in Hch'. injection Hch' as Ho <-. rewrite (locked_ptable _ _ _ Hl).
  unfold choose_effect in *. destruct (random_at_most _ _) as [w e].
  destruct (lottery _ _) as [i'|]; simplify_eq/=.
  unfold sti_effect. case_decide; by destruct s.
Qed.

(** Back from the switch inside [wait], up to the next scan. *)
Lemma wait_again_scans c i saved s t :
  locked c s t → idle_depth c s → is_intena saved →
  ∃ t1 u, wait_wakes c i saved t = Ok tt t1 ∧ locked c u t1 ∧
    ptable u = alter (set_chan None) i (ptable s).
Proof.
  intros Hl Hd Hs. destruct (sched_leave_locked c saved s t Hl Hd Hs) as (t' & Hlv & Hl1 & _).
  exists (on_slot i (set_chan None) t'), (on_slot i (set_chan None) (flagged c saved s)).
  split; [|split; [by apply locked_on_slot|]].
  - unfold wait_wakes. cbv [mbind K_bind prog_bind]. by rewrite Hlv, upd_run.
  - by destruct s.
Qed.

(** A scan with a zombie child in the table ends in the release of one. *)
Lemma collects_zombie c i u t j q p :
  locked c u t → ptable u !! i = Some p → ptable u !! j = Some q → parent q = Some i → state q = ZOMBIE →
  ∃ z qz s', (wait_scan i 0 (ptable u) false).2 = Some z ∧
    ptable u !! z = Some qz ∧ parent qz = Some i ∧ state qz = ZOMBIE ∧
    wait_round c i t = Ok (Some (pid qz)) s' ∧ ptable s' !! z = Some (reap_slot qz).
Proof.
  intros Hl Hp Hq Hpar Hz. pose proof (wait_round_runs c i u t p Hl Hp) as Hr. unfold wait_effect in Hr.
  rewrite wait_scan_eq in *. destruct (list_find (zombie_child i) (ptable u)) as [[z qz]|] eqn:Hf.
  2:{ exfalso. apply list_find_None in Hf. apply (Forall_lookup_1 _ _ _ _ Hf) in Hq. apply Hq.
      unfold zombie_child, is_child. by rewrite Hpar, Hz, !bool_decide_true. }
  apply list_find_Some in Hf as (Hqz & Hzc & _). cbn beta iota in Hr. change (0 + z)%nat with z in *.
  rewrite Hqz in Hr. destruct Hr as (q' & Hq' & s' & Hm & Heq).
  assert (q' = qz) as -> by congruence.
  unfold zombie_child in Hzc. apply andb_prop_elim in Hzc as [Ha Hb].
  exists z, qz, s'. split_and!; [done|done|by apply bool_decide_unpack in Ha|
    by apply bool_decide_unpack in Hb|done|].
  rewrite (ptable_proper _ _ Heq). unfold reap_effect. rewrite on_slot_lookup, decide_True by done.
  replace (ptable (set_ext _ u)) with (ptable u) by by destruct u. by rewrite Hqz.
Qed.

(** C19: a zombie child is collected. In every reachable state a process that
    has stopped in [wait] and has a zombie child is not asleep, and the next
    time a scheduler chooses it, [wait] returns the pid of a zombie child and
    frees its slot. *)
Theorem zombie_is_collected x i p j q :
  reachable booted code_step x → konts x !! i = Some AtWait → ptable (ks x) !! i = Some p →
  ptable (ks x) !! j = Some q → parent q = Some i → state q = ZOMBIE →
  state p ≠ SLEEPING ∧
  ∀ c f saved t, idles c (ks x) → scheduler_choose c f (ks x) = Ok (Some i) t → is_intena saved →
    ∃ z qz s', ptable (ks x) !! z = Some qz ∧ parent qz = Some i ∧ state qz = ZOMBIE ∧
      (wait_wakes c i saved ;; wait_round c i) t = Ok (Some (pid qz)) s' ∧
      ptable s' !! z = Some (reap_slot qz) ∧
      code_step x (Sys s' (set_kont z NoThread (set_kont i InKernel (konts x)))).
Proof.
  intros Hr Hk Hp Hq Hpar Hz. split.
  { intros Hs. destruct (code_reachable_core x Hr) as (y & Hy & Hc & El).
    rewrite (core_ptable _ _ Hc) in *. rewrite El in Hk.
    destruct (system_wakeup y i p j q Hy Hp Hk Hs) as [_ Hno]. by apply Hno. }
  intros c f saved t Hi Hch Hsv. destruct x as [s l]. simpl in *.
  destruct (idles_dispatch c f s l _ t Hi Hch) as (s1 & Hl & Hd & _ & _ & Hcur).
  destruct (wait_again_scans c i saved s1 t Hl Hd Hsv) as (t1 & u & Hw & Hlu & Hu).
  rewrite <-(locked_ptable _ _ _ Hl), (dispatch_table c f s i t Hi Hch), list_alter_alter_eq in Hu.
  assert (i ≠ j) as Hij.
  { destruct (code_reachable_core _ Hr) as (y & Hy & Hc & _). simpl in Hc. rewrite (core_ptable _ _ Hc) in Hq.
    destruct (system_parents y j q Hy Hq) as (Hpq & _). by destruct (Hpq i Hpar). }
  assert (ptable u !! i = Some (set_chan None (set_state RUNNING p))) as Hpu
    by by rewrite Hu, list_lookup_alter_eq, Hp.
  destruct (collects_zombie c i u t1 j q _ Hlu Hpu) as (z & qz & s' & Hsc & Hz1 & Hz2 & Hz3 & Hround & Hfree);
    [by rewrite Hu, list_lookup_alter_ne|done..|].
  assert (z ≠ i) as Hzi by (intros ->; rewrite Hpu in Hz1; injection Hz1 as <-; by destruct p).
  exists z, qz, s'. split; [by rewrite Hu, list_lookup_alter_ne in Hz1|]. do 2 (split; [done|]).
  split; [|split; [done|]].
  - cbv [mbind K_bind prog_bind]. by rewrite Hw.
  - pose proof (C_run_wait s l c f i t saved t1 (pid qz) s' Hi Hch Hk Hsv Hw Hround) as Hst.
    unfold after_wait in Hst. by rewrite (locked_ptable _ _ _ Hlu), Hsc in Hst.
Qed.

End theorems.
