(* ===== verification/SyscallRuns.v ===== *)
(** The functions that give up the processor, in the running system: with a
    [swtch] that does what swtch.S and the scheduler do - the rest of the system
    runs, and control comes back when a scheduler chooses the process -, the
    whole functions [wait], [sleep], [yield] and [exit], and every system call
    of the process subsystem, are runs of the system of Execution.v. *)

From Stdlib Require Import String.
From S2P Require Import Prelude KernelEnv Proc Locking ProcSpec Lottery Handover Protocol.
From S2P Require Import System KernelProps SwitchProps SystemProps Execution ExecutionProps CodeProps.
From S2P Require Import TypeProps Syscall SleepProps KernelCalls.

Section switching_back.
Context `{KernelEnv} `{Spinlock}.

(** [swtch], called by process [i] from [sched]: the processor goes back to its
    scheduler, the system runs, and if control ever comes back, then a scheduler
    - of whatever processor - has chosen the process, which is where it had
    stopped.  If it does not, the outcome is the mark [off], which may be any
    value: the assembly code itself has no other error. *)
Definition comes_back (i : nat) (off : kerr) (swtch : nat → K nat) : Prop :=
  (∀ c t e, swtch c t = Err e → e = off) ∧
  ∀ k c t s l c' t',
    k ∈ [AtYield; AtSleep; AtWait; AtExit] → scheduler_back c t = Ok tt s →
    reachable booted code_step (Sys s l) → l !! i = Some k → swtch c t = Ok c' t' →
    ∃ s2 l2 f, rtc code_step (Sys s l) (Sys s2 l2) ∧ l2 !! i = Some k ∧
      idles c' s2 ∧ scheduler_choose c' f s2 = Ok (Some i) t'.

(** Process [i] has come from [x] back to its own code, on processor [c]. *)
Definition returned (i : nat) (x : sys) (c : nat) (s : kernel) : Prop :=
  ∃ l, rtc code_step x (Sys s l) ∧ calls c i s ∧ l !! i = Some InKernel.

(** Process [i] has come from [x] to where it wants the clock's lock, which
    is taken. *)
Definition spins (i : nat) (x : sys) (e : kerr) : Prop :=
  e = NoLock TicksLock ∧
  ∃ c s l, rtc code_step x (Sys s l) ∧ calls c i s ∧ l !! i = Some InKernel ∧
    acquire c TicksLock s = Err e ∧ ¬ lock_free TicksLock s.

(** Process [i] has come from [x] to a switch, which has given the processor to
    the scheduler and does not come back. *)
Definition switched_off (i : nat) (swtch : nat → K nat) (x : sys) (e : kerr) : Prop :=
  ∃ k c t s l, k ∈ [AtYield; AtSleep; AtWait; AtExit] ∧ rtc code_step x (Sys s l) ∧
    l !! i = Some k ∧ scheduler_back c t = Ok tt s ∧ swtch c t = Err e.

(** The outcome of a function called in state [x]: it returns there; or the
    bound on the number of switches is reached; or it does not return, because
    it is not switched back to, or waits for the clock's lock. *)
Definition in_system {A} (i : nat) (swtch : nat → K nat) (x : sys) (at_cpu : A → option nat)
    (o : outcome kernel kerr A) : Prop :=
  match o with
  | Ok a s => match at_cpu a with Some c => returned i x c s | None => True end
  | Err e => spins i x e ∨ switched_off i swtch x e
  end.

(** The processor in the results of the functions. *)
Definition result_cpu (r : option (Z * nat)) : option nat := snd <$> r.

End switching_back.

Section runs.
Context `{KernelEnv} `{SpinlockLaws}.

Lemma in_system_step {A} i swtch x y at_cpu (o : outcome kernel kerr A) :
  rtc code_step x y → in_system i swtch y at_cpu o → in_system i swtch x at_cpu o.
Proof.
  intros Hxy. destruct o as [a s|e]; simpl.
  - destruct (at_cpu a) as [c|]; [|done]. intros (l & Hr & Hc). exists l. split; [by etrans|done].
  - intros [(He & c & s & l & Hr & Hc)|(k & c & t & s & l & Hk & Hr & Hs)]; [left|right].
    + split; [done|]. exists c, s, l. split; [by etrans|done].
    + exists k, c, t, s, l. split; [done|]. split; [by etrans|done].
Qed.

(** A switch after a step from [x] that does not come back. *)
Lemma switch_fails i swtch s l k c t s1 l1 e :
  code_step (Sys s l) (Sys s1 l1) → k ∈ [AtYield; AtSleep; AtWait; AtExit] → l1 !! i = Some k →
  scheduler_back c t = Ok tt s1 → swtch c t = Err e → switched_off i swtch (Sys s l) e.
Proof. intros Hst Hk Hl Hb He. exists k, c, t, s1, l1. split; [done|]. split; [by apply rtc_once|done]. Qed.

Lemma reachable_rtc x y : reachable booted code_step x → rtc code_step x y → reachable booted code_step y.
Proof. intros (x0 & Hb & Hr) Hs. exists x0. split; [done|by etrans]. Qed.

Lemma set_kont_self i k (l : list kcont) : is_Some (l !! i) → set_kont i k l !! i = Some k.
Proof. intros [k' Hk]. unfold set_kont. by rewrite list_lookup_alter_eq, Hk. Qed.

Lemma sched_enter_intena c t saved t' :
  sched_enter c t = Ok saved t' → ∀ s k, locked c s t → cpus s !! c = Some k → ncli k = 0 → is_intena saved.
Proof.
  intros He s k Hl Hk Hn. destruct (locked_cpus _ _ _ Hl) as (k0 & k' & Hk0 & Hcp & _ & _ & _ & _ & Hi).
  assert (k0 = k) as -> by congruence. rewrite decide_True in Hi by done.
  assert (cpus t !! c = Some k') as Hkt.
  { rewrite Hcp. apply list_lookup_insert_eq. by eapply lookup_lt_Some. }
  unfold sched_enter, curproc, proc_at, expect, get in He.
  cbv [mbind K_bind prog_bind mret K_ret prog_ret panic] in He. rewrite Hkt in He.
  repeat (case_match; simplify_eq/=); (rewrite Hi; destruct (eflags_if k); [by right|by left]).
Qed.

(** ** At the head of the loop of [wait] *)

(** The lock is held from [u] on, and the process is running. *)
Record scanning (c i : nat) (u t : kernel) : Prop := {
  scan_locked : locked c u t;
  scan_depth : idle_depth c u;
  scan_current : current c u = Some i;
  scan_running : ∃ p, ptable u !! i = Some p ∧ state p = RUNNING
}.

(** A turn of the loop that begins in [t] is a step from [x]. *)
Definition turns (c i : nat) (x : sys) (t : kernel) : Prop :=
  (∀ v s, wait_round c i t = Ok (Some v) s →
     code_step x (Sys s (after_wait i (ptable t) (konts x)))) ∧
  (wait_round c i t = Ok None t → ∀ saved t2 s,
     sleep_half c (Some (ChProc i)) PtableLock t = Ok saved t2 → scheduler_back c t2 = Ok tt s →
     code_step x (Sys s (set_kont i AtWait (konts x)))).

(** The processor after the lock is given back. *)
Lemma scanning_calls c i u t v s :
  scanning c i u t → wait_round c i t = Ok (Some v) s → calls c i s.
Proof.
  intros [Hl (k & Hk & Hn) Hcur (p & Hp & _)] Hw.
  assert (calls c i u) as Hc.
  { split; [apply (locked_free _ _ _ Hl)|]. exists k. split; [done|]. split; [done|].
    unfold current in Hcur. by rewrite Hk in Hcur. }
  pose proof (wait_round_runs c i u t p Hl Hp) as Hr.
  destruct (wait_effect i p u) as [[[z|] u']|] eqn:He; [| |congruence].
  - destruct Hr as (q & _ & Hr). destruct (runs_eq _ _ _ _ _ _ Hr Hw) as [_ Hu].
    eapply calls_equiv; [exact Hu|]. eapply calls_frame; [|exact Hc].
    unfold wait_effect in He. repeat case_match; simplify_eq. by apply frame_on_slot, frame_set_ext.
  - destruct (runs_eq _ _ _ _ _ _ Hr Hw) as [_ Hu]. eapply calls_equiv; [exact Hu|].
    unfold wait_effect in He. by repeat case_match; simplify_eq.
Qed.

(** A turn ends, or finds nothing and changes nothing. *)
Lemma wait_turn_cases c i u t :
  scanning c i u t → (∃ v s, wait_round c i t = Ok (Some v) s) ∨ wait_round c i t = Ok None t.
Proof.
  intros [Hl _ _ (p & Hp & _)]. pose proof (wait_round_runs c i u t p Hl Hp) as Hr.
  destruct (wait_effect i p u) as [[[z|] u']|]; [| |by right]; left.
  - destruct Hr as (q & _ & s & Hr & _). eauto.
  - destruct Hr as (s & Hr & _). eauto.
Qed.

Lemma scan_zombie i tab z :
  (wait_scan i 0 tab false).2 = Some z → ∃ q, tab !! z = Some q ∧ state q = ZOMBIE.
Proof.
  rewrite wait_scan_eq. destruct (list_find _ _) as [[z' q]|] eqn:Hf; [|done]. intros [= <-].
  apply list_find_Some in Hf as (Hq & Hz & _). exists q. split; [done|].
  unfold zombie_child in Hz. apply andb_prop_elim in Hz as [_ Hz]. by apply bool_decide_unpack in Hz.
Qed.

Lemma after_wait_kept c i u t (l : list kcont) :
  scanning c i u t → is_Some (l !! i) → after_wait i (ptable t) l !! i = Some InKernel.
Proof.
  intros [Hl _ _ (p & Hp & Hrun)] Hk. unfold after_wait. rewrite (locked_ptable _ _ _ Hl).
  destruct (wait_scan _ _ _ _).2 as [z|] eqn:Hz; [|by apply set_kont_self].
  destruct (scan_zombie _ _ _ Hz) as (q & Hq & Hst).
  assert (z ≠ i) by congruence. unfold set_kont at 1. rewrite list_lookup_alter_ne by done.
  by apply set_kont_self.
Qed.

(** Back from [swtch]: the lock is held, and the process is running. *)
Lemma switched_back i k off swtch c t s l c' t' :
  comes_back i off swtch → k ∈ [AtYield; AtSleep; AtWait; AtExit] → scheduler_back c t = Ok tt s →
  reachable booted code_step (Sys s l) → l !! i = Some k → swtch c t = Ok c' t' →
  ∃ s2 l2 f u, rtc code_step (Sys s l) (Sys s2 l2) ∧ l2 !! i = Some k ∧ idles c' s2 ∧
    scheduler_choose c' f s2 = Ok (Some i) t' ∧ scanning c' i u t'.
Proof.
  intros Hsw Hin Hb Hr Hk Hs. destruct (proj2 Hsw k c t s l c' t') as (s2 & l2 & f & Hst & Hk2 & Hi & Hch); [done..|].
  destruct (idles_dispatch c' f s2 l2 _ t' Hi Hch) as (u & Hl & Hd & _ & _ & Hcur).
  exists s2, l2, f, u. split_and!; [done..|]. split; [done..|].
  destruct (code_reachable_core (Sys s2 l2)) as (y & Hy & Hc & El); [by eapply reachable_rtc|]. simpl in *.
  pose proof (sound_core _ _ _ Hc (reachable_sound y Hy)) as Hso. rewrite <-El in Hso.
  destruct (sound_lookup _ _ _ _ Hso Hk2) as [p Hp]. exists (set_state RUNNING p).
  rewrite <-(locked_ptable _ _ _ Hl), (dispatch_table c' f s2 i t' Hi Hch), list_lookup_alter_eq, Hp.
  by destruct p.
Qed.

(** ** wait *)

Lemma wait_wakes_scans c i saved u t :
  scanning c i u t → is_intena saved → ∃ t1 u1, wait_wakes c i saved t = Ok tt t1 ∧ scanning c i u1 t1.
Proof.
  intros [Hl Hd Hcur (p & Hp & Hrun)] Hs.
  destruct (sched_leave_locked c saved u t Hl Hd Hs) as (t' & Hlv & _).
  assert (wait_wakes c i saved t = Ok tt (on_slot i (set_chan None) t')) as Hw.
  { unfold wait_wakes. cbv [mbind K_bind prog_bind]. by rewrite Hlv, upd_run. }
  destruct (wait_wakes_locked c i saved u t _ Hl Hd Hs Hw) as (u1 & Hl1 & Hd1 & Hc1).
  eexists _, u1. split; [exact Hw|]. split; [done..| |].
  - rewrite (core_current _ _ _ Hc1). by destruct u.
  - rewrite (core_ptable _ _ Hc1). simpl. rewrite on_slot_lookup, decide_True, Hp by done.
    eexists. split; [done|]. by destruct p.
Qed.

Lemma sleep_cut c i ch t u saved t2 swtch :
  scanning c i u t → sleep_half c ch PtableLock t = Ok saved t2 →
  sleep swtch c ch (Some PtableLock) t = (c' ← swtch c; wait_wakes c' i saved ;; mret c') t2.
Proof.
  intros [Hl _ Hcur _] Hs. destruct (sleep_enter_wait c ch u t i Hl Hcur) as (t1 & He & _).
  unfold sleep, sched, sleep_half in *. cbv [mbind K_bind prog_bind] in *. rewrite He in *. rewrite Hs.
  destruct (swtch c t2) as [c' v|]; [|done]. unfold wait_wakes. cbv [mbind K_bind prog_bind].
  destruct (sched_leave c' saved v) as [[] w|]; [|done]. cbv [mret K_ret prog_ret]. cbn beta iota.
  unfold sleep_leave. cbv [mbind K_bind prog_bind]. rewrite upd_run. by rewrite decide_False by naive_solver.
Qed.

Lemma sleep_half_intena c ch u t saved t2 i :
  scanning c i u t → sleep_half c ch PtableLock t = Ok saved t2 → is_intena saved.
Proof.
  intros [Hl (k & Hk & Hn) Hcur _] Hs. destruct (sleep_enter_wait c ch u t i Hl Hcur) as (t1 & He & Hl1).
  unfold sleep_half in Hs. cbv [mbind K_bind prog_bind] in Hs. rewrite He in Hs.
  eapply (sched_enter_intena _ _ _ _ Hs _ k); [exact Hl1| |done]. by destruct u.
Qed.

Lemma wait_loop_runs i off swtch rounds c t u x :
  comes_back i off swtch → reachable booted code_step x → is_Some (konts x !! i) →
  scanning c i u t → turns c i x t →
  in_system i swtch x result_cpu (wait_loop rounds swtch c i t).
Proof.
  intros Hsw. revert c t u x. induction rounds as [|rounds IH]; intros c t u x Hr Hk Hsc [Hret Hslp];
    simpl; cbv [mbind K_bind prog_bind mret K_ret prog_ret].
  all: destruct (wait_turn_cases c i u t Hsc) as [(v & s & Hw)|Hw]; rewrite Hw; cbn beta iota;
    [exists (after_wait i (ptable t) (konts x)); split; [by eapply rtc_once, Hret|];
     split; [by eapply scanning_calls|by eapply after_wait_kept]|].
  { done. }
  pose proof Hsc as [Hl Hd Hcur (p & Hp & Hrun)].
  destruct (sleep_half_runs c i (Some (ChProc i)) u t p Hl Hd Hcur Hp) as (saved & t2 & Hs & Hl2).
  destruct (scheduler_back_runs _ _ _ Hl2) as (s1 & Hb & _).
  pose proof (Hslp Hw saved t2 s1 Hs Hb) as Hst.
  rewrite (sleep_cut c i _ t u saved t2 swtch Hsc Hs). cbv [mbind K_bind prog_bind].
  destruct (swtch c t2) as [c' t'|e] eqn:Hsx.
  2:{ right. destruct x. by eapply (switch_fails i swtch _ _ AtWait); [exact Hst|set_solver|by apply set_kont_self| |]. }
  cbn beta iota.
  destruct (switched_back i AtWait off swtch c t2 s1 (set_kont i AtWait (konts x)) c' t')
    as (s2 & l2 & f & u2 & Hs2 & Hk2 & Hi2 & Hch & Hsc2); [done|set_solver|done| |by apply set_kont_self|done|].
  { eapply reachable_rtc; [done|by apply rtc_once]. }
  pose proof (sleep_half_intena _ _ _ _ _ _ _ Hsc Hs) as Hsv.
  destruct (wait_wakes_scans c' i saved u2 t' Hsc2 Hsv) as (t1 & u1 & Hwk & Hsc1). rewrite Hwk. cbn beta iota.
  assert (rtc code_step x (Sys s2 l2)) as Hx by (eapply rtc_l; [exact Hst|exact Hs2]).
  eapply in_system_step; [exact Hx|]. apply (IH c' t1 u1); [by eapply reachable_rtc|by eexists|done|].
  split.
  - intros v s Hv. by eapply C_run_wait.
  - intros Hn saved' t3 s Hs' Hb'. by eapply C_run_wait_sleep.
Qed.

Lemma wait_runs i off swtch rounds c s l :
  comes_back i off swtch → reachable booted code_step (Sys s l) → calls c i s → l !! i = Some InKernel →
  in_system i swtch (Sys s l) result_cpu (wait rounds swtch c s).
Proof.
  intros Hsw Hr Hc Hk. destruct (calls_locked _ _ _ Hc) as (t & Ha & Hl & Hct).
  assert (wait rounds swtch c s = wait_loop rounds swtch c i t) as ->.
  { unfold wait. cbv [mbind K_bind prog_bind]. by rewrite Ha, (curproc_run _ _ _ Hct). }
  assert (wait_first c s = wait_round c i t) as Hw.
  { unfold wait_first. cbv [mbind K_bind prog_bind]. by rewrite Ha, (curproc_run _ _ _ Hct). }
  apply (wait_loop_runs i off swtch rounds c t s); [done..|by eexists| |].
  - pose proof Hc as (_ & k & Hck & Hn & _). split; [done|by exists k|by apply calls_current|].
    by eapply calls_running.
  - unfold turns. rewrite <-Hw, (locked_ptable _ _ _ Hl). split.
    + intros v s' Hv. by eapply C_wait.
    + intros Hn saved t2 s' Hs Hb. by eapply C_wait_sleep.
Qed.

(** ** yield, and exit *)

Lemma yield_runs i off swtch c s l :
  comes_back i off swtch → reachable booted code_step (Sys s l) → calls c i s → l !! i = Some InKernel →
  in_system i swtch (Sys s l) Some (yield swtch c s).
Proof.
  intros Hsw Hr Hc Hk. pose proof Hc as (Hf & k & Hck & Hn & Hcp).
  destruct (calls_running _ _ _ _ Hr Hc Hk) as (p & Hp & _).
  destruct (yield_half_locked c s k i p) as (t & Hy & Hl); [done..|by apply calls_current|done|].
  destruct (scheduler_back_runs _ _ _ Hl) as (s1 & Hb & _).
  set (saved := if eflags_if k then 1 else 0) in *.
  assert (is_intena saved) as Hsv by (unfold saved; destruct (eflags_if k); [by right|by left]).
  assert (yield swtch c s = (c' ← swtch c; yield_rest c' saved ;; mret c') t) as ->.
  { rewrite yield_cut. cbv [mbind K_bind prog_bind]. by rewrite Hy. }
  assert (code_step (Sys s l) (Sys s1 (set_kont i AtYield l))) as Hst by by eapply C_yield.
  cbv [mbind K_bind prog_bind]. destruct (swtch c t) as [c' t'|e] eqn:Hsx.
  2:{ right. by eapply (switch_fails i swtch _ _ AtYield); [exact Hst|set_solver|by apply set_kont_self| |]. }
  cbn beta iota.
  destruct (switched_back i AtYield off swtch c t s1 (set_kont i AtYield l) c' t')
    as (s2 & l2 & f & u & Hs2 & Hk2 & Hi2 & Hch & [Hlu Hdu Hcu _]);
    [done|set_solver|done|by eapply reachable_rtc, rtc_once|by apply set_kont_self|done|].
  destruct (sched_leave_locked c' saved u t' Hlu Hdu Hsv) as (t1 & Hlv & Hl1 & (k1 & Hk1 & Hn1)).
  destruct (release_locked _ _ _ Hl1) as (s' & Hrl & Heq).
  assert (yield_rest c' saved t' = Ok tt s') as Hyr.
  { unfold yield_rest. cbv [mbind K_bind prog_bind]. by rewrite Hlv. }
  rewrite Hyr. cbv [mret K_ret prog_ret]. exists (set_kont i InKernel l2).
  split; [|split; [|by apply set_kont_self]].
  - eapply rtc_l; [exact Hst|]. eapply rtc_r; [exact Hs2|]. by eapply C_run_yield.
  - eapply calls_equiv; [exact Heq|]. split; [apply (locked_free _ _ _ Hl1)|]. exists k1.
    split; [done|]. split; [done|]. rewrite <-(core_current c' _ _ (flagged_core c' saved u)) in Hcu.
    unfold current in Hcu. by rewrite Hk1 in Hcu.
Qed.

(** A process that has exited is never chosen. *)
Lemma exited_not_chosen c f s l i t :
  reachable booted code_step (Sys s l) → idles c s → scheduler_choose c f s = Ok (Some i) t →
  l !! i ≠ Some AtExit.
Proof.
  intros Hr (Hfree & k & Hk & Hn & _) Hch He.
  destruct (code_reachable_core _ Hr) as (y & Hy & Hc & El). simpl in *. subst l.
  destruct (scheduler_choose_locked c f s k Hfree Hk Hn) as (t' & Hch' & _).
  rewrite Hch in Hch'. injection Hch' as Ho _.
  destruct (chosen_kont y s c f i Hy Hc (eq_sym Ho)) as (kk & p & Hki & _ & Hin). set_solver.
Qed.

Lemma exit_runs i off swtch c s l :
  comes_back i off swtch → reachable booted code_step (Sys s l) → calls c i s → l !! i = Some InKernel →
  initproc s ≠ Some i → ∃ e, exit swtch c s = Err e ∧ switched_off i swtch (Sys s l) e.
Proof.
  intros Hsw Hr Hc Hk Hini. pose proof Hc as (Hf & k & Hck & Hn & Hcp).
  destruct (calls_running _ _ _ _ Hr Hc Hk) as (p & Hp & _).
  destruct (exit_half_locked c s k i p) as (t & Hx & Hl); [done..|by apply calls_current|done|done|].
  destruct (scheduler_back_runs _ _ _ Hl) as (s1 & Hb & _).
  assert (code_step (Sys s l) (Sys s1 (set_kont i AtExit l))) as Hst by by eapply C_exit.
  rewrite exit_cut. cbv [mbind K_bind prog_bind]. rewrite Hx. cbn beta iota.
  destruct (swtch c t) as [c' t'|e] eqn:Hsx.
  2:{ exists e. split; [done|]. by eapply (switch_fails i swtch _ _ AtExit); [exact Hst|set_solver|by apply set_kont_self| |]. }
  destruct (switched_back i AtExit off swtch c t s1 (set_kont i AtExit l) c' t')
    as (s2 & l2 & f & u & Hs2 & Hk2 & Hi2 & Hch & _);
    [done|set_solver|done|by eapply reachable_rtc, rtc_once|by apply set_kont_self|done|].
  exfalso. eapply (exited_not_chosen c' f s2 l2); [|exact Hi2|exact Hch|exact Hk2].
  eapply reachable_rtc; [exact Hr|]. by eapply rtc_l.
Qed.

(** ** sleep on the clock *)

Lemma acquire_found_free c l s s' : acquire c l s = Ok tt s' → lock_free l s.
Proof.
  unfold acquire, with_lock. intros Ha c'. destruct (cpus s !! c) as [k|]; [|done].
  destruct (holding c' l (locks s)) eqn:Hh; [|done]. by rewrite (acquire_busy c c') in Ha.
Qed.

Lemma acquire_fails c l s k e : cpus s !! c = Some k → acquire c l s = Err e → e = NoLock l.
Proof. unfold acquire, with_lock. intros ->. destruct (lk_acquire _ _ _ _) as [[]|]; congruence. Qed.

Lemma clock_spins c i s l e :
  calls c i s → l !! i = Some InKernel → acquire c TicksLock s = Err e → spins i (Sys s l) e.
Proof.
  intros Hc Hk Ha. pose proof Hc as (_ & k & Hck & Hn & _). split; [by eapply acquire_fails|].
  exists c, s, l. split; [apply rtc_refl|]. do 3 (split; [done|]). intros Hf.
  unfold acquire, with_lock in Ha. rewrite Hck in Ha.
  destruct (acquire_free c TicksLock (locks s) k Hf) as (L & k' & Ha' & _); [lia|]. by rewrite Ha' in Ha.
Qed.

(** Process [i] holds the clock's lock and no other, on processor [c]. *)
Definition clocked (c i : nat) (s : kernel) : Prop :=
  ∃ p, holds_only TicksLock c i p s ∧ ∀ k, cpus s !! c = Some k → is_intena (intena k).

Lemma lock_outside c k k' L s l :
  cpus s !! c = Some k → cpu_proc k' = cpu_proc k → (∀ c', holding c' PtableLock L = false) →
  code_step (Sys s l) (Sys (set_locks L (set_cpus (<[c:=k']> (cpus s)) s)) l).
Proof.
  intros Hk Hp Hf. pose proof (core_given c k k' s L Hk Hp) as Hc. destruct Hc.
  apply C_outside; [|done..]. by destruct s.
Qed.

Lemma clock_taken c i s l s' :
  reachable booted code_step (Sys s l) → calls c i s → l !! i = Some InKernel →
  acquire c TicksLock s = Ok tt s' → code_step (Sys s l) (Sys s' l) ∧ clocked c i s'.
Proof.
  intros Hr Hc Hkk Ha. destruct (calls_running _ _ _ _ Hr Hc Hkk) as (p & Hp & _).
  destruct Hc as (Hf & k & Hk & Hn & Hcp). pose proof (acquire_found_free _ _ _ _ Ha) as Hft.
  destruct (acquire_ok c TicksLock s k Hft Hk) as (L & k' & Ha' & Hp' & Hn' & Hif & Hi & Hh & Ho);
    [split; [lia|intros; lia]|].
  rewrite Ha in Ha'. injection Ha' as ->. rewrite decide_True in Hi by done.
  assert (∀ c', holding c' PtableLock L = false) as HfL by (intros c'; rewrite Ho by naive_solver; apply Hf).
  split; [by eapply lock_outside|]. exists p. pose proof (lookup_lt_Some _ _ _ Hk).
  destruct s. simpl in *. split; [split; simpl; try done|].
  - intros c'. destruct (decide (c' = c)) as [->|Hne]; [by rewrite bool_decide_true|].
    rewrite bool_decide_false by done. rewrite Ho by naive_solver. apply Hft.
  - exists k'. rewrite list_lookup_insert_eq by done. split; [done|]. split; [lia|]. split; [done|congruence].
  - rewrite list_lookup_insert_eq by done. intros k2 [= <-]. rewrite Hi. destruct (eflags_if k); [by right|by left].
Qed.

Lemma clock_given c i s l :
  clocked c i s → ∃ s', release c TicksLock s = Ok tt s' ∧ code_step (Sys s l) (Sys s' l) ∧ calls c i s'.
Proof.
  intros (p & [Hh Hf _ _ (k & Hk & Hn & Hif & Hcp)] & _). specialize (Hf ltac:(done)).
  destruct (release_ok c TicksLock s k) as (L & k' & Hr & Hp & Hn' & _ & _ & Ho); [|done|lia|done|].
  { by rewrite Hh, bool_decide_true. }
  assert (∀ c', holding c' PtableLock L = false) as HfL by (intros c'; rewrite Ho by done; apply Hf).
  eexists. split; [exact Hr|]. split; [by eapply lock_outside|]. pose proof (lookup_lt_Some _ _ _ Hk).
  destruct s. simpl in *. split; [done|]. exists k'. simpl. rewrite list_lookup_insert_eq by done.
  split; [done|]. split; [lia|congruence].
Qed.

(** The interrupt flag that the outermost lock saved is kept by [sleep]. *)
Lemma sleep_enter_intena c ch l s k cur t kt :
  l ≠ PtableLock → current c s = Some cur → cpus s !! c = Some k → ncli k = 1 → eflags_if k = false →
  lock_free PtableLock s → holding c l (locks s) = true →
  sleep_enter c ch (Some l) s = Ok cur t → cpus t !! c = Some kt → intena kt = intena k.
Proof.
  intros Hlp Hcur Hk Hn Hif Hfree Hh He Hkt. rewrite (sleep_enter_eq _ _ _ _ _ Hcur), decide_True in He by done.
  destruct (acquire_free c PtableLock (locks s) k Hfree ltac:(lia))
    as (L & k1 & Ha & _ & Hn1 & Hif1 & Hi1 & _ & Ho1). rewrite decide_False in Hi1 by lia.
  destruct (release_held c l L k1) as (L2 & k2 & Hr & _ & _ & Hi2 & _);
    [by rewrite Ho1 by naive_solver|lia|done|].
  pose proof (lookup_lt_Some _ _ _ Hk). destruct s. simpl in *.
  unfold acquire, release, with_lock in He. cbv [mbind K_bind prog_bind mret K_ret prog_ret upd modify] in He.
  simpl in He. rewrite Hk, Ha in He. simpl in He. rewrite list_lookup_insert_eq, Hr in He by done.
  injection He as <-. simpl in Hkt. rewrite list_lookup_insert_eq in Hkt by by rewrite length_insert.
  injection Hkt as <-. congruence.
Qed.

(** The process goes to sleep with one step, and is in [swtch] then. *)
Lemma sleep_clock_enters c i s l :
  clocked c i s → l !! i = Some InKernel →
  ∃ t saved s1, is_intena saved ∧ scheduler_back c t = Ok tt s1 ∧
    code_step (Sys s l) (Sys s1 (set_kont i AtSleep l)) ∧
    ∀ swtch, sleep swtch c (Some ChTicks) (Some TicksLock) s =
      (c' ← swtch c; sleep_rest c' i saved ;; acquire c' TicksLock ;; mret c') t.
Proof.
  intros (p & [Hh Hf _ Hp (k & Hk & Hn & Hif & Hcp)] & Hint) Hkk. specialize (Hf ltac:(done)).
  specialize (Hint k Hk). assert (current c s = Some i) as Hcur by (unfold current; by rewrite Hk).
  assert (holding c TicksLock (locks s) = true) as Hhc by by rewrite Hh, bool_decide_true.
  assert (∀ c', c' ≠ c → holding c' TicksLock (locks s) = false) as Ho
    by (intros c' Hne; by rewrite Hh, bool_decide_false).
  destruct (sleep_lock_enters c (Some ChTicks) TicksLock s k i p) as
    (t & kt & s1 & He & Hkt & Hse & Hs & Hb); [done..|].
  assert (intena kt = intena k) as Hik by by eapply (sleep_enter_intena c (Some ChTicks) TicksLock s k i t).
  exists t, (intena kt), s1. split; [by rewrite Hik|]. split; [exact Hb|].
  split; [by eapply (C_sleep s l c i (Some ChTicks) TicksLock k)|].
  intros swtch. unfold sleep, sched. cbv [mbind K_bind prog_bind]. rewrite He. cbn beta iota. rewrite Hse.
  cbn beta iota. destruct (swtch c t) as [c' v|]; [|done]. cbn beta iota.
  unfold sleep_rest, sleep_leave. cbv [mbind K_bind prog_bind mret K_ret prog_ret].
  destruct (sched_leave c' (intena kt) v) as [[] w|]; [|done]. rewrite !upd_run, decide_True by done.
  by destruct (release c' PtableLock _) as [[] w'|].
Qed.

Lemma sleep_rest_calls c i saved u t :
  scanning c i u t → is_intena saved → ∃ s, sleep_rest c i saved t = Ok tt s ∧ calls c i s.
Proof.
  intros Hsc Hs. destruct (wait_wakes_scans c i saved u t Hsc Hs) as (t1 & u1 & Hw & [Hl (k & Hk & Hn) Hcur _]).
  destruct (release_locked _ _ _ Hl) as (s & Hr & Heq). exists s. split.
  - unfold sleep_rest, wait_wakes in *. cbv [mbind K_bind prog_bind] in *.
    destruct (sched_leave c saved t) as [[] v|]; [|done]. cbn beta iota in *. by rewrite Hw.
  - eapply calls_equiv; [exact Heq|]. split; [apply (locked_free _ _ _ Hl)|]. exists k.
    split; [done|]. split; [done|]. unfold current in Hcur. by rewrite Hk in Hcur.
Qed.

Lemma sleep_loop_runs i off swtch rounds t0 n c s l :
  comes_back i off swtch → reachable booted code_step (Sys s l) → l !! i = Some InKernel → clocked c i s →
  in_system i swtch (Sys s l) result_cpu (sleep_loop rounds swtch c t0 n s).
Proof.
  intros Hsw. revert c s l. induction rounds as [|rounds IH]; intros c s l Hr Hk Hc.
  all: destruct (clock_given c i s l Hc) as (s1 & Hrel & Hst1 & Hc1);
    assert (∀ v, in_system i swtch (Sys s l) result_cpu (Ok (Some (v, c)) s1)) as Hend
      by (intros v; exists l; split; [by apply rtc_once|done]).
  all: simpl; cbv [mbind K_bind prog_bind get mret K_ret prog_ret]; cbn beta iota.
  all: case_decide; [|rewrite Hrel; cbn beta iota; apply Hend].
  all: pose proof Hc as (p & Hho & _);
    rewrite (cur_proc_run c i p s (holds_current _ _ _ _ _ Hho) (ho_slot _ _ _ _ _ Hho)); cbn beta iota.
  all: case_decide; [rewrite Hrel; cbn beta iota; apply Hend|].
  { done. }
  destruct (sleep_clock_enters c i s l Hc Hk) as (t & saved & s2 & Hsv & Hb & Hst2 & ->).
  cbv [mbind K_bind prog_bind]. destruct (swtch c t) as [c' t'|e] eqn:Hsx.
  2:{ right. by eapply (switch_fails i swtch _ _ AtSleep); [exact Hst2|set_solver|by apply set_kont_self| |]. }
  cbn beta iota.
  assert (reachable booted code_step (Sys s2 (set_kont i AtSleep l))) as Hr2
    by by eapply reachable_rtc, rtc_once.
  destruct (switched_back i AtSleep off swtch c t s2 (set_kont i AtSleep l) c' t')
    as (s3 & l3 & f & u & Hs3 & Hk3 & Hi3 & Hch & Hsc); [done|set_solver|done|done|by apply set_kont_self|done|].
  destruct (sleep_rest_calls c' i saved u t' Hsc Hsv) as (s4 & Hrest & Hc4). rewrite Hrest. cbn beta iota.
  assert (rtc code_step (Sys s l) (Sys s4 (set_kont i InKernel l3))) as Hs4.
  { eapply rtc_l; [exact Hst2|]. eapply rtc_r; [exact Hs3|]. by eapply C_run_sleep. }
  assert (set_kont i InKernel l3 !! i = Some InKernel) as Hk4 by by apply set_kont_self.
  destruct (acquire c' TicksLock s4) as [[] s5|e] eqn:Ha; cbv [mret K_ret prog_ret]; cbn beta iota.
  2:{ eapply in_system_step; [exact Hs4|]. left. by eapply clock_spins. }
  destruct (clock_taken c' i s4 (set_kont i InKernel l3) s5) as [Hst5 Hc5]; [exact (reachable_rtc _ _ Hr Hs4)|done..|].
  assert (rtc code_step (Sys s l) (Sys s5 (set_kont i InKernel l3))) as Hs5 by by eapply rtc_r.
  eapply in_system_step; [exact Hs5|]. apply IH; [exact (reachable_rtc _ _ Hr Hs5)|done|done].
Qed.

(** A piece of code that is itself steps of the system, and what follows it. *)
Lemma in_system_bind {A B} i swtch c P Q (m : K A) (f : A → K B) at_cpu s l :
  completes c i P m Q → in_call c i s l → P s →
  (∀ a s' l', Q a → in_call c i s' l' → in_system i swtch (Sys s' l') at_cpu (f a s')) →
  in_system i swtch (Sys s l) at_cpu ((m ≫= f) s).
Proof.
  intros Hm Hin HP Hf. destruct (Hm s l Hin HP) as (a & s' & l' & Hr & Hs & Hin' & Ha).
  cbv [mbind K_bind prog_bind]. rewrite Hr. eapply in_system_step; [exact Hs|]. by apply Hf.
Qed.

Lemma sys_sleep_runs i off swtch rounds c s l :
  comes_back i off swtch → in_call c i s l →
  in_system i swtch (Sys s l) result_cpu (sys_sleep rounds swtch c s).
Proof.
  intros Hsw Hin. eapply in_system_bind; [apply completes_argint|done|done|].
  intros [n|] s' l' _ (Hr & Hc & Hk).
  2:{ exists l'. split; [apply rtc_refl|done]. }
  cbv [mbind K_bind prog_bind]. destruct (acquire c TicksLock s') as [[] s1|e] eqn:Ha; cbn beta iota.
  2:{ left. by eapply clock_spins. }
  destruct (clock_taken c i s' l' s1) as [Hst Hc1]; [done..|]. cbv [get]. cbn beta iota.
  eapply in_system_step; [by apply rtc_once|]. apply (sleep_loop_runs i off); [done| |done|done].
  by eapply reachable_rtc, rtc_once.
Qed.

(** ** The dispatcher *)

(** The calls whose handlers are in proc.c and sysproc.c; the others are those of
    sysfile.c and exec.c. *)
Definition proc_call (n : sysno) : bool :=
  non_blocking n || match n with SYS_exit | SYS_wait | SYS_sleep => true | _ => false end.

Lemma completes_in_system i swtch c P (m : K (option (Z * nat))) s l :
  completes c i P m (λ r, ∃ v, r = Some (v, c)) → in_call c i s l → P s →
  in_system i swtch (Sys s l) result_cpu (m s).
Proof.
  intros Hm Hin HP. destruct (Hm s l Hin HP) as (a & s' & l' & -> & Hs & (_ & Hc & Hk) & v & ->).
  by exists l'.
Qed.

Lemma run_call_runs i off swtch fs_call rounds c n s l :
  comes_back i off swtch → in_call c i s l → proc_call n = true → (n = SYS_exit → initproc s ≠ Some i) →
  in_system i swtch (Sys s l) result_cpu (run_call fs_call rounds swtch c n s).
Proof.
  intros Hsw Hin Hn Hx. destruct (non_blocking n) eqn:Hnb.
  - destruct (decide (n = SYS_uptime)) as [->|Hne].
    + destruct (acquire c TicksLock s) as [[] s1|e] eqn:Ha.
      * eapply completes_in_system; [by apply completes_call|done|]. by eapply acquire_found_free.
      * simpl. unfold on_same, sys_uptime. cbv [mbind K_bind prog_bind]. rewrite Ha. left.
        destruct Hin as (_ & Hc & Hk). by eapply clock_spins.
    + eapply completes_in_system; [by apply completes_call|done|]. by destruct n.
  - destruct Hin as (Hr & Hc & Hk). destruct n; try done; simpl.
    + destruct (exit_runs i off swtch c s l) as (e & He & Ht); [auto..|].
      unfold on_same, sys_exit. cbv [mbind K_bind prog_bind]. rewrite He. by right.
    + by eapply wait_runs.
    + by eapply sys_sleep_runs.
Qed.

Lemma result_stored i x c v s :
  reachable booted code_step x → returned i x c s →
  ∃ s', (cur ← curproc c; upd cur (set_eax v) ;; mret (Some c)) s = Ok (Some c) s' ∧ returned i x c s'.
Proof.
  intros Hr (l & Hs & Hc & Hk).
  assert (completes c i always (cur ← curproc c; upd cur (set_eax v) ;; mret (Some c)) (λ r, r = Some c)) as Hm.
  { eapply completes_bind; [apply completes_curproc|]. intros cur ->.
    eapply completes_bind; [apply completes_set_eax|]. intros [] _. by apply completes_ret. }
  assert (in_call c i s l) as Hin by (split; [exact (reachable_rtc _ _ Hr Hs)|done]).
  destruct (Hm s l Hin I) as (a & s' & l' & Hrun & Hs' & (_ & Hin') & ->).
  exists s'. split; [exact Hrun|]. exists l'. split; [by etrans|done].
Qed.

(** Only the calls that sleep have a bound on the number of switches. *)
Lemma run_call_bound fs_call rounds swtch c n s s' :
  proc_call n = true → run_call fs_call rounds swtch c n s = Ok None s' → n = SYS_wait ∨ n = SYS_sleep.
Proof.
  assert (∀ m : K Z, on_same c m s ≠ Ok None s') as Ho.
  { intros m. unfold on_same. cbv [mbind K_bind prog_bind]. by destruct (m s). }
  destruct n; try done; simpl; intros _ Hr; auto; by apply Ho in Hr.
Qed.

(** init's [exit]: the call panics before it gives anything up. *)
Lemma exit_panics fs_call rounds swtch c i s :
  calls c i s → initproc s = Some i →
  run_call fs_call rounds swtch c SYS_exit s = Err (Panic "init exiting").
Proof.
  intros Hc Hi. simpl. unfold on_same, sys_exit, exit, exit_files. cbv [mbind K_bind prog_bind].
  rewrite (curproc_run _ _ _ (calls_current _ _ _ Hc)). cbv [get]. cbn beta iota.
  by rewrite decide_True.
Qed.

(** C4: every system call of the process subsystem, the ones that give up the
    processor included, is a run of the system.  From any reachable state, with
    a switch that does what swtch.S and the scheduler do, [syscall] either
    returns - then by steps of the interleaved system, to a reachable state, on
    the processor the process is on by then, with no lock held -, or it has come
    by such steps to where its process spins on the clock's lock, which is
    taken, or to a switch that has put it into the hands of the scheduler and
    does not come back: the outcome is then the mark [off] of that switch,
    whatever the mark, so the call itself raises no panic and follows no null
    pointer.  [exit] does not return.  The one exception is the [exit] of init,
    which is the panic "init exiting".  (The bound on the number of switches
    concerns wait and sleep only.) *)
Theorem syscalls_are_system_runs fs_call rounds off swtch c i p x :
  reachable booted code_step x → calls c i (ks x) → konts x !! i = Some InKernel →
  ptable (ks x) !! i = Some p → comes_back i off swtch →
  let entry := syscall_entry (i32 (tf_eax (tf p))) in
  (∀ n, entry = Some n → proc_call n = true) →
  if decide (entry = Some SYS_exit ∧ initproc (ks x) = Some i)
  then syscall fs_call rounds swtch c (ks x) = Err (Panic "init exiting") else
  match syscall fs_call rounds swtch c (ks x) with
  | Ok (Some c') s' => entry ≠ Some SYS_exit ∧
      ∃ l', rtc code_step x (Sys s' l') ∧ reachable booted code_step (Sys s' l') ∧
            calls c' i s' ∧ l' !! i = Some InKernel
  | Ok None _ => entry = Some SYS_wait ∨ entry = Some SYS_sleep
  | Err e => spins i x e ∨ (e = off ∧ switched_off i swtch x e)
  end.
Proof.
  destruct x as [s l]. intros Hr Hc Hk Hp Hsw entry Hpc. simpl in *.
  assert (in_call c i s l) as Hin by done.
  unfold syscall. cbv [mbind K_bind prog_bind].
  rewrite (cur_proc_run c i p s (calls_current _ _ _ Hc) Hp). cbn beta iota. fold entry.
  case_decide as Hx.
  { destruct Hx as [-> Hi]. by rewrite (exit_panics _ _ _ c i). }
  destruct entry as [n|] eqn:He.
  - specialize (Hpc n eq_refl).
    assert (n = SYS_exit → initproc s ≠ Some i) as Hx' by (intros ->; auto).
    pose proof (run_call_runs i off swtch fs_call rounds c n s l Hsw Hin Hpc Hx') as Hrun.
    destruct (run_call fs_call rounds swtch c n s) as [[[v c']|] s'|e] eqn:Hcall.
    + destruct (result_stored i (Sys s l) c' v s' Hr Hrun) as (s2 & Hs2 & l2 & Hst & Hc2 & Hk2).
      cbv [mbind K_bind prog_bind] in Hs2. cbn beta iota. rewrite Hs2. split.
      * intros [= ->]. destruct (exit_runs i off swtch c s l) as (e & Hex & _); [auto..|].
        simpl in Hcall. unfold on_same, sys_exit in Hcall. cbv [mbind K_bind prog_bind] in Hcall.
        by rewrite Hex in Hcall.
      * exists l2. split; [done|]. split; [exact (reachable_rtc _ _ Hr Hst)|done].
    + destruct (run_call_bound _ _ _ _ _ _ _ Hpc Hcall) as [->| ->]; [by left|by right].
    + destruct Hrun as [Hrun|Hrun]; [by left|right]. split; [|done].
      destruct Hrun as (k & c1 & t1 & s1 & l1 & _ & _ & _ & _ & Hoff). by eapply (proj1 Hsw).
  - destruct (completes_emit c i (EvUnknownCall (pid p) (name p) (i32 (tf_eax (tf p)))) s l Hin I)
      as (a & s' & l' & Hem & Hs' & (_ & Hc' & Hk') & _). cbv [mbind K_bind prog_bind] in *. rewrite Hem.
    destruct (result_stored i (Sys s l) c (-1) s' Hr) as (s2 & Hs2 & l2 & Hst & Hc2 & Hk2); [by exists l'|].
    cbv [mbind K_bind prog_bind] in Hs2. cbn beta iota. rewrite Hs2. split; [done|].
    exists l2. split; [done|]. split; [exact (reachable_rtc _ _ Hr Hst)|done].
Qed.

End runs.
