(* ===== verification/KernelWitness.v ===== *)
(** The theorems on the process code applied to concrete kernels: a machine
    with four slots and two processors, before boot, after boot, and with a
    shell-like family of processes. *)

From Stdlib Require Import String.
From S2P Require Import Prelude KernelEnv Proc Locking ProcSpec Lottery Handover Protocol.
From S2P Require Import System KernelInstance KernelProps SwitchProps SystemProps.
From S2P Require Import Execution ExecutionProps CodeProps TypeProps PidProps TicketProps Syscall KernelCalls SyscallRuns.

(** init waits for its child, which runs on processor 0 and has a zombie
    child; slot 2 is free. *)
Definition family : list proc :=
  [set_chan (Some (ChProc 0)) (a_proc SLEEPING 1 20 None);
   a_proc RUNNING 2 20 (Some 0%nat);
   blank;
   a_proc ZOMBIE 3 20 (Some 1%nat)].

Definition family_kernel : kernel := kernel_of family [busy_cpu 1; free_cpu].

Lemma family_can_lock : can_lock 0 PtableLock family_kernel.
Proof. apply (can_lock_kernel_of _ _ _ (busy_cpu 1)); [done|apply busy_cpu_ok]. Qed.

Lemma family_runs : runs_proc 0 1 (a_proc RUNNING 2 20 (Some 0%nat)) family_kernel.
Proof. split; [apply family_can_lock|done]. Qed.

Lemma family_duty : on_duty 0 1 (busy_cpu 1) (a_proc RUNNING 2 20 (Some 0%nat)) family_kernel.
Proof. by repeat split. Qed.

Lemma wakeup_spec_witness :
  ∃ s', wakeup 0 (Some (ChProc 0)) family_kernel = Ok tt s' ∧
    ptable s' !! 0%nat = Some (set_state RUNNABLE (set_chan (Some (ChProc 0)) (a_proc SLEEPING 1 20 None))).
Proof.
  destruct (wakeup_spec 0 (Some (ChProc 0)) family_kernel family_can_lock) as (s' & Hw & _ & _ & Hs).
  exists s'. split; [exact Hw|]. destruct (Hs 0%nat _ eq_refl) as [Hs0 _]. apply Hs0. by split.
Defined.

Lemma kill_spec_witness :
  ∃ r s', kill 0 1 family_kernel = Ok r s' ∧ lock_free PtableLock s' ∧ r = 0.
Proof.
  destruct (kill_spec 0 1 family_kernel family_can_lock) as (r & s' & Hk & Hl & Hor).
  exists r, s'. split; [exact Hk|]. split; [exact Hl|].
  destruct Hor as [(_ & _ & Hf)|(_ & _ & _ & Hr & _)]; [|exact Hr].
  exfalso. inversion Hf as [|? ? Hne _]. by apply Hne.
Defined.

Lemma fork_spec_witness :
  ∃ r s', fork 0 family_kernel = Ok r s' ∧ r = 9 ∧ lock_free PtableLock s'.
Proof.
  destruct (fork_spec 0 1 _ family_kernel family_runs) as (r & s' & Hf & Hl & Hor).
  exists r, s'. split; [exact Hf|]. split; [|exact Hl].
  destruct Hor as [[Hr _]|(np & q0 & q & _ & _ & Hr & _)]; [|exact Hr].
  exfalso. subst r.
  apply (f_equal (λ o, match o with Ok v _ => v | Err _ => 0 end)) in Hf. vm_compute in Hf. done.
Defined.

Lemma kill_zero_poisons_fork_witness :
  ∃ s1, kill 0 0 family_kernel = Ok 0 s1 ∧
    ∀ r s2, fork 0 s1 = Ok r s2 → r ≠ -1 →
      ∃ q, ptable s2 !! 2%nat = Some q ∧ state q = RUNNABLE ∧ pid q = r ∧ killed q = 1.
Proof.
  apply (kill_zero_poisons_fork 0 1 _ 2 family_kernel family_runs); [reflexivity|reflexivity|done].
Defined.

Lemma yield_switches_witness :
  ∃ t, at_switch 0 1 t ∧ outcome_ok (yield (λ c, mret c) 0 family_kernel) = true.
Proof.
  destruct (yield_switches 0 1 _ _ family_kernel family_duty) as (t & Ht & _ & _).
  exists t. split; [exact Ht|reflexivity].
Defined.

(** The child holds another lock, on which it goes to sleep. *)
Definition sleeper_kernel : kernel :=
  set_locks [(0%nat, TicksLock)]
    (kernel_of family [Cpu (Some 1%nat) 1 1 false; free_cpu]).

Lemma sleep_switches_witness :
  ∃ t saved, at_switch 0 1 t ∧ lock_free TicksLock t ∧
    ∀ swtch, sleep swtch 0 (Some ChTicks) (Some TicksLock) sleeper_kernel =
      (c' ← swtch 0%nat; sched_leave c' saved ;; upd 1 (set_chan None) ;;
       release c' PtableLock ;; acquire c' TicksLock ;; mret c') t.
Proof.
  destruct (sleep_switches 0 1 TicksLock (Some ChTicks) (Cpu (Some 1%nat) 1 1 false)
    (a_proc RUNNING 2 20 (Some 0%nat)) sleeper_kernel) as [(t & saved & Ht & Hl & _ & Hs) _]; try done.
  - intros c. by destruct c.
  - intros c' Hc. simpl. apply bool_decide_false. intros Hin. apply list_elem_of_singleton in Hin. congruence.
  - exists t, saved. split; [exact Ht|]. split; [exact Hl|exact Hs].
Defined.

Lemma exit_becomes_zombie_witness :
  ∃ t z, at_switch 0 1 t ∧ ptable t !! 1%nat = Some z ∧ state z = ZOMBIE ∧ pid z = 2.
Proof.
  destruct (exit_becomes_zombie 0 1 _ _ 0 family_kernel family_duty eq_refl) as [_ He].
  destruct He as (t & saved & z & Ht & Hz & Hst & Hp & _); [done|].
  exists t, z. split; [exact Ht|]. split; [exact Hz|]. split; [exact Hst|exact Hp].
Defined.

Lemma wait_spec_witness :
  ∃ s' q', wait 0 (λ c, mret c) 0 family_kernel = Ok (Some (3, 0%nat)) s' ∧ lock_free PtableLock s' ∧
    ptable s' = <[3%nat := q']> family ∧ collected q'.
Proof.
  destruct (wait_spec 0 1 _ _ family_kernel family_duty) as [Hz _].
  apply (Hz 3%nat (a_proc ZOMBIE 3 20 (Some 1%nat))). reflexivity.
Defined.

(** Two runnable processes and an idle processor. *)
Definition idle_kernel : kernel := kernel_of lottery_table [free_cpu; free_cpu].

Lemma scheduler_round_spec_witness :
  ∃ i p t, lottery_table !! i = Some p ∧ state p = RUNNABLE ∧
    ptable t = <[i := set_state RUNNING p]> lottery_table ∧ current 0 t = Some i.
Proof.
  assert (lock_free PtableLock idle_kernel) as Hf by by intros [].
  destruct (scheduler_round_spec 0 free_cpu 1 idle_kernel Hf eq_refl eq_refl) as (Hs & _ & Hw).
  specialize (Hw lottery_table_fair _ ltac:(right; by left)).
  destruct (lottery _ _) as [i|]; [|by destruct Hw].
  destruct Hs as (p & t & Hp & Hr & Ht & _ & Hc & _).
  exists i, p, t. split; [exact Hp|]. split; [exact Hr|]. split; [exact Ht|exact Hc].
Defined.

Lemma power_on_can_lock : can_lock 0 PtableLock power_on.
Proof. split; [done|]. exists free_cpu. split; [done|apply free_cpu_ok]. Qed.

Lemma power_on_unused : unused_table power_on.
Proof.
  split; [by repeat constructor|]. split; [done|]. split; [done|].
  by intros [|[|c]].
Qed.

Lemma userinit_boots_witness :
  ∃ s' p, userinit 0 power_on = Ok tt s' ∧ ptable s' !! 0%nat = Some p ∧ init_image p ∧
    booted (Sys s' (boot_threads power_on)).
Proof.
  destruct (userinit_boots 0 power_on power_on_can_lock power_on_unused) as
    (s' & p & Hu & _ & _ & Hp & Hi & Hb); [done|done|].
  exists s', p. split; [exact Hu|]. split; [exact Hp|]. split; [exact Hi|exact Hb].
Defined.

(** ** Reachable states of the system *)

Definition boot_sys : sys :=
  Sys (set_nextpid 2 (kernel_of [a_proc RUNNABLE 1 20 None; blank; blank; blank] [free_cpu; free_cpu]))
      [AtForkret; NoThread; NoThread; NoThread].

Lemma boot_sys_booted : booted boot_sys.
Proof.
  exists 0%nat. split; [done|]. split; [done|]. split; [done|]. split; [simpl; lia|].
  split; [by intros [|[|c]]|].
  intros [|[|[|[|j]]]] p k Hp Hk; simpl in *; simplify_eq; by simpl.
Qed.

(** init is dispatched on processor 1, resumes in the kernel, takes a slot in
    fork, and so on: the states after each step. *)
Definition next (o : option nat * kernel) : kernel := o.2.

Definition sys1 : sys := Sys (next (choose_effect 1 (ks boot_sys))) (konts boot_sys).

Definition sys2 : sys := Sys (awake_effect AtForkret 0 (ks sys1)) (set_kont 0 InKernel (konts sys1)).

Definition sys3 : sys := Sys (next (slot_effect (ks sys2))) (set_kont 0 (Forking 1) (konts sys2)).

Lemma sys3_reachable_in : reachable_in booted sys_step 3 sys3.
Proof.
  exists boot_sys. split; [apply boot_sys_booted|].
  apply nsteps_l with sys1.
  { apply (S_dispatch _ _ 1 0); [simpl; lia|reflexivity|vm_compute; reflexivity]. }
  apply nsteps_l with sys2.
  { apply (S_resume _ _ 1 0 AtForkret); [vm_compute; reflexivity|reflexivity|by left]. }
  apply nsteps_l with sys3; [|constructor].
  apply (S_fork_slot _ _ 1 0 1); [vm_compute; reflexivity|reflexivity|vm_compute; reflexivity].
Qed.

Lemma sys3_reachable : reachable booted sys_step sys3.
Proof. eapply reachable_in_reachable, sys3_reachable_in. Qed.

Lemma kernel_refines_protocol_witness :
  reachable aboot astep (abs sys3) ∧ ∀ x', sys_step sys3 x' → astep (abs sys3) (abs x').
Proof. apply (kernel_refines_protocol sys3 sys3_reachable). Defined.

(** ** Reachable states of the code *)

(** The state a function leaves. *)
Definition run {A} (m : K A) (s : kernel) : kernel :=
  match m s with Ok _ t => t | Err _ => s end.

(** init is chosen on processor 1 and starts; it forks, in three steps; it
    waits, with no zombie child, and goes to sleep. *)
Definition chosen : kernel := Eval vm_compute in run (scheduler_choose 1 1) (ks boot_sys).

Definition code1 : sys := Eval vm_compute in Sys (run (forkret 1) chosen) (set_kont 0 InKernel (konts boot_sys)).

Definition code2 : sys := Eval vm_compute in Sys (run (allocproc_slot 1) (ks code1)) (set_kont 0 (Forking 1) (konts code1)).

Definition stacked : kernel := Eval vm_compute in run (allocproc_stack 1) (ks code2).

Definition code3 : sys := Eval vm_compute in Sys (run (fork_copy 0 1) stacked) (set_kont 0 (Copied 1) (konts code2)).

Definition code4 : sys := Eval vm_compute in
  Sys (run (fork_publish 1 1) (ks code3)) (set_kont 1 AtForkret (set_kont 0 InKernel (konts code3))).

Definition scanned : kernel := Eval vm_compute in run (wait_first 1) (ks code4).

Definition asleep : kernel := Eval vm_compute in run (sleep_half 1 (Some (ChProc 0)) PtableLock) scanned.

Definition code5 : sys := Eval vm_compute in Sys (run (scheduler_back 1) asleep) (set_kont 0 AtWait (konts code4)).

Lemma code1_calls : calls 1 0 (ks code1).
Proof. split; [by intros c|]. eexists. split; [vm_compute; reflexivity|done]. Qed.

Lemma code2_calls : calls 1 0 (ks code2).
Proof. split; [by intros c|]. eexists. split; [vm_compute; reflexivity|done]. Qed.

Lemma code3_calls : calls 1 0 (ks code3).
Proof. split; [by intros c|]. eexists. split; [vm_compute; reflexivity|done]. Qed.

Lemma code4_calls : calls 1 0 (ks code4).
Proof. split; [by intros c|]. eexists. split; [vm_compute; reflexivity|done]. Qed.

Lemma boot_idles : idles 1 (ks boot_sys).
Proof. split; [by intros c|]. by exists free_cpu. Qed.

Lemma code5_idles : idles 1 (ks code5).
Proof. split; [by intros c|]. eexists. split; [vm_compute; reflexivity|done]. Qed.

Lemma code1_step : code_step boot_sys code1.
Proof.
  assert (scheduler_choose 1 1 (ks boot_sys) = Ok (Some 0%nat) chosen) as Hch by (vm_compute; reflexivity).
  assert (forkret 1 chosen = Ok tt (ks code1)) as Hf by (vm_compute; reflexivity).
  exact (C_run_new (ks boot_sys) (konts boot_sys) 1 1 0 chosen _ boot_idles Hch eq_refl Hf).
Qed.

Lemma code2_steps : nsteps code_step 2 boot_sys code2.
Proof.
  assert (allocproc_slot 1 (ks code1) = Ok (Some 1%nat) (ks code2)) as Hs by (vm_compute; reflexivity).
  apply nsteps_l with code1; [exact code1_step|]. apply nsteps_l with code2; [|constructor].
  exact (C_fork_slot (ks code1) (konts code1) 1 0 1 _ code1_calls eq_refl Hs).
Qed.

Lemma code5_nsteps : nsteps code_step 3 code2 code5.
Proof.
  assert (allocproc_stack 1 (ks code2) = Ok (Some 1%nat) stacked) as Hs by (vm_compute; reflexivity).
  assert (fork_copy 0 1 stacked = Ok true (ks code3)) as Hc by (vm_compute; reflexivity).
  assert (fork_publish 1 1 (ks code3) = Ok tt (ks code4)) as Hp by (vm_compute; reflexivity).
  assert (wait_first 1 (ks code4) = Ok None scanned) as Hw by (vm_compute; reflexivity).
  assert (sleep_half 1 (Some (ChProc 0)) PtableLock scanned = Ok 1 asleep) as Hsl by (vm_compute; reflexivity).
  assert (scheduler_back 1 asleep = Ok tt (ks code5)) as Hb by (vm_compute; reflexivity).
  apply nsteps_l with code3.
  { exact (C_fork_copy (ks code2) (konts code2) 1 0 1 _ _ _ code2_calls eq_refl Hs Hc). }
  apply nsteps_l with code4.
  { exact (C_fork_publish (ks code3) (konts code3) 1 0 1 _ code3_calls eq_refl Hp). }
  apply nsteps_once.
  exact (C_wait_sleep (ks code4) (konts code4) 1 0 _ 1 _ _ code4_calls eq_refl Hw Hsl Hb).
Qed.

Lemma code5_steps : rtc code_step boot_sys code5.
Proof. trans code2; [by eapply rtc_nsteps_2, code2_steps|by eapply rtc_nsteps_2, code5_nsteps]. Qed.

Lemma code2_reachable_in : reachable_in booted code_step 2 code2.
Proof. exists boot_sys. split; [apply boot_sys_booted|apply code2_steps]. Qed.

Lemma code2_reachable : reachable booted code_step code2.
Proof. eapply reachable_in_reachable, code2_reachable_in. Qed.

Lemma code5_reachable : reachable booted code_step code5.
Proof. exists boot_sys. split; [apply boot_sys_booted|apply code5_steps]. Qed.

#[export] Instance toy_copy : CopyLaw.
Proof.
  assert (∀ src n, (length (copy_string src n) ≤ n)%nat) as Hc.
  { intros src n. revert src. induction n as [|[|n] IH]; intros [|b src]; simpl; try lia.
    case_decide; simpl; [lia|]. pose proof (IH src) as Hl. destruct src; simpl in *; lia. }
  split. intros dst src n Hn. simpl. rewrite length_app, length_drop.
  pose proof (Hc src (Z.to_nat n)). lia.
Qed.

Lemma blank_typed : proc_typed 4 blank.
Proof. by split; repeat split; vm_compute; intros; try discriminate; auto. Qed.

Lemma boot_sys_typed : kernel_typed (ks boot_sys).
Proof.
  assert (Forall (proc_typed 4) (replicate 3 blank)) as Hb by (apply Forall_replicate, blank_typed).
  split; simpl; try done.
  - intros i Hi. injection Hi as <-. simpl. lia.
  - by left.
  - constructor; [|done].
    apply typed_state, typed_pid; [done|]. apply typed_tickets; [done|]. apply typed_parent; [done|].
    apply blank_typed.
Qed.

Lemma kernel_types_witness :
  kernel_typed (ks code5) ∧
  ∀ s', userinit 0 power_on = Ok tt s' → kernel_typed s'.
Proof.
  split.
  - apply (proj2 kernel_types). exists boot_sys. split; [|exact code5_steps].
    split; [exact boot_sys_booted|exact boot_sys_typed].
  - intros s'. apply (proj1 kernel_types); [exact power_on_can_lock|split; vm_compute; discriminate|].
    split; try done; [by right|]. apply Forall_replicate, blank_typed.
Defined.

Lemma code_refines_system_witness :
  ∃ y, reachable booted sys_step y ∧ core_same (ks code5) (ks y) ∧ konts code5 = konts y ∧
    reachable aboot astep (abs y).
Proof. apply (code_refines_system code5 code5_reachable). Defined.

Lemma running_iff_on_one_cpu_witness :
  ∃ c, current c (ks code2) = Some 0%nat ∧ ∀ c', current c' (ks code2) = Some 0%nat → c' = c.
Proof.
  apply (running_iff_on_one_cpu code2 0 (set_state RUNNING (a_proc RUNNABLE 1 20 None)) code2_reachable);
    reflexivity.
Defined.

Lemma parents_alive_witness :
  parent (a_proc RUNNING 1 20 None) = None ∧ state (a_proc RUNNING 1 20 None) ≠ ZOMBIE.
Proof.
  destruct (parents_alive code2 0 (a_proc RUNNING 1 20 None) code2_reachable) as (_ & _ & Hi);
    [reflexivity|].
  destruct Hi as (Hp & Hz & _); [reflexivity|]. split; [exact Hp|exact Hz].
Defined.

Lemma pids_unique_witness : 0 < 1 < 3 ∧ 0 < 2 < 3.
Proof.
  split.
  - apply (pids_unique 2 code2 0 0 (a_proc RUNNING 1 20 None) (a_proc RUNNING 1 20 None)
      code2_reachable_in); by vm_compute.
  - apply (pids_unique 2 code2 1 0 (take_slot 2 blank) (a_proc RUNNING 1 20 None)
      code2_reachable_in); by vm_compute.
Defined.

Lemma embryo_has_one_builder_witness :
  ∃ i p, ptable (ks code2) !! i = Some p ∧ state p = RUNNING ∧
    (konts code2 !! i = Some (Forking 1) ∨ konts code2 !! i = Some (Copied 1)) ∧
    ∀ i', konts code2 !! i' = Some (Forking 1) ∨ konts code2 !! i' = Some (Copied 1) → i' = i.
Proof.
  apply (embryo_has_one_builder code2 1 (take_slot 2 blank) code2_reachable); reflexivity.
Defined.

Lemma no_lost_wakeup_witness :
  ∃ p, ptable (ks code5) !! 0%nat = Some p ∧ chan p = Some (ChProc 0).
Proof.
  exists (set_chan (Some (ChProc 0)) (a_proc SLEEPING 1 20 None)). split; [reflexivity|].
  apply (no_lost_wakeup code5 0 _ 1 blank code5_reachable); reflexivity.
Defined.

(** ** System calls *)

(** init asks for fork. *)
Definition code1f : sys := Sys (on_slot 0 (set_tf (Trapframe 1 0 0 0 0 0 0 0)) (ks code1)) (konts code1).

Lemma code1f_calls : calls 1 0 (ks code1f).
Proof. split; [by intros c|]. eexists. split; [vm_compute; reflexivity|done]. Qed.

Lemma code1f_reachable : reachable booted code_step code1f.
Proof.
  exists boot_sys. split; [apply boot_sys_booted|]. apply rtc_l with code1; [exact code1_step|].
  apply rtc_once. apply (C_trapframe _ _ 1 0); [apply code1_calls|done].
Qed.

Definition no_files (n : sysno) (c : nat) : K (option (Z * nat)) := mret (Some (-1, c)).

Lemma syscall_completes_witness :
  ∃ s' l', syscall no_files 0 (λ c, mret c) 1 (ks code1f) = Ok (Some 1%nat) s' ∧
    reachable booted code_step (Sys s' l').
Proof.
  destruct (ptable (ks code1f) !! 0%nat) as [p|] eqn:Hp; [|by vm_compute in Hp].
  destruct (syscall_completes no_files 0 (λ c, mret c) 1 0 p code1f code1f_reachable code1f_calls)
    as (s' & l' & Hs & _ & Hr & _).
  - reflexivity.
  - exact Hp.
  - intros n Hn. vm_compute in Hp. injection Hp as <-. vm_compute in Hn. by injection Hn as <-.
  - vm_compute in Hp. by injection Hp as <-.
  - exists s', l'. split; [exact Hs|exact Hr].
Defined.

(** The child starts and exits, while init sleeps in wait. *)
Definition child_chosen : kernel := Eval vm_compute in run (scheduler_choose 1 1) (ks code5).

Definition code6 : sys := Eval vm_compute in Sys (run (forkret 1) child_chosen) (set_kont 1 InKernel (konts code5)).

Definition exiting : kernel := Eval vm_compute in run (exit_half 1) (ks code6).

Definition code7 : sys := Eval vm_compute in Sys (run (scheduler_back 1) exiting) (set_kont 1 AtExit (konts code6)).

Lemma code6_calls : calls 1 1 (ks code6).
Proof. split; [by intros c|]. eexists. split; [vm_compute; reflexivity|done]. Qed.

Lemma code7_idles : idles 1 (ks code7).
Proof. split; [by intros c|]. eexists. split; [vm_compute; reflexivity|done]. Qed.

Lemma code7_reachable : reachable booted code_step code7.
Proof.
  destruct code5_reachable as (s0 & Hb & Hr). exists s0. split; [done|]. trans code5; [exact Hr|].
  assert (scheduler_choose 1 1 (ks code5) = Ok (Some 1%nat) child_chosen) as Hch by (vm_compute; reflexivity).
  assert (forkret 1 child_chosen = Ok tt (ks code6)) as Hf by (vm_compute; reflexivity).
  assert (exit_half 1 (ks code6) = Ok 1 exiting) as Hex by (vm_compute; reflexivity).
  assert (scheduler_back 1 exiting = Ok tt (ks code7)) as Hb' by (vm_compute; reflexivity).
  apply rtc_l with code6.
  { exact (C_run_new (ks code5) (konts code5) 1 1 1 child_chosen _ code5_idles Hch eq_refl Hf). }
  apply rtc_once.
  exact (C_exit (ks code6) (konts code6) 1 1 1 exiting _ code6_calls eq_refl Hex Hb').
Qed.

Definition parent_chosen : kernel := Eval vm_compute in run (scheduler_choose 1 1) (ks code7).

Lemma zombie_is_collected_witness :
  ∃ z qz s', ptable (ks code7) !! z = Some qz ∧ state qz = ZOMBIE ∧
    (wait_wakes 1 0 1 ;; wait_round 1 0) parent_chosen = Ok (Some (pid qz)) s'.
Proof.
  destruct (ptable (ks code7) !! 0%nat) as [p|] eqn:Hp; [|by vm_compute in Hp].
  destruct (ptable (ks code7) !! 1%nat) as [q|] eqn:Hq; [|by vm_compute in Hq].
  destruct (zombie_is_collected code7 0 p 1 q code7_reachable) as [_ Hnext].
  - reflexivity.
  - exact Hp.
  - exact Hq.
  - vm_compute in Hq. by injection Hq as <-.
  - vm_compute in Hq. by injection Hq as <-.
  - destruct (Hnext 1%nat 1 1 parent_chosen code7_idles) as (z & qz & s' & Hz & _ & Hst & Hw & _).
    + vm_compute. reflexivity.
    + by right.
    + exists z, qz, s'. split; [exact Hz|]. split; [exact Hst|exact Hw].
Defined.


(** init, whose child has just been made, takes seven tickets. *)
Definition code4t : sys := Sys (on_slot 0 (set_tickets 7) (ks code4)) (konts code4).

Lemma code4_reachable : reachable booted code_step code4.
Proof.
  exists boot_sys. split; [apply boot_sys_booted|].
  assert (allocproc_stack 1 (ks code2) = Ok (Some 1%nat) stacked) as Hs by (vm_compute; reflexivity).
  assert (fork_copy 0 1 stacked = Ok true (ks code3)) as Hc by (vm_compute; reflexivity).
  assert (fork_publish 1 1 (ks code3) = Ok tt (ks code4)) as Hp by (vm_compute; reflexivity).
  trans code2; [by eapply rtc_nsteps_2, code2_steps|]. apply rtc_l with code3.
  { exact (C_fork_copy (ks code2) (konts code2) 1 0 1 _ _ _ code2_calls eq_refl Hs Hc). }
  apply rtc_once. exact (C_fork_publish (ks code3) (konts code3) 1 0 1 _ code3_calls eq_refl Hp).
Qed.

Lemma tickets_are_the_owners_witness :
  ∃ b, rtc (still_has 0 1 7) b code4t ∧
    (b = code4 ∧ has_tickets 0 1 7 code4 ∨ ∃ a, rtc code_step code4 a ∧ gets_tickets 0 1 7 a b).
Proof.
  apply (tickets_are_the_owners code4 code4t 0 1 7 code4_reachable).
  - apply rtc_once. apply (C_settickets (ks code4) (konts code4) 1 0 7 code4_calls); [reflexivity|].
    unfold INT_MIN, INT_MAX. lia.
  - eexists. split; [vm_compute; reflexivity|]. by split_and!.
Defined.

(** init takes the lock of the clock. *)
Definition code4l : sys := Eval vm_compute in Sys (run (acquire 1 TicksLock) (ks code4)) (konts code4).

Lemma code4l_reachable : reachable booted code_step code4l.
Proof.
  assert (acquire 1 TicksLock (ks code4) = Ok tt (ks code4l)) as Ha by (vm_compute; reflexivity).
  apply (reachable_rtc code4 _ code4_reachable), rtc_once.
  exact (proj1 (clock_taken 1 0 (ks code4) (konts code4) _ code4_reachable code4_calls eq_refl Ha)).
Qed.

Lemma code4l_holds : holds_one 1 0 TicksLock (ks code4l).
Proof.
  split; [done|]. split; [intros c; apply bool_decide_eq_false; intros Hin; apply list_elem_of_singleton in Hin; congruence|].
  eexists. split; [vm_compute; reflexivity|]. do 4 (split; [done|]).
  intros c' Hc. apply bool_decide_eq_false. intros Hin. apply list_elem_of_singleton in Hin. congruence.
Qed.

Lemma code_never_panics_witness :
  (∃ o t, scheduler_choose 1 1 (ks code5) = Ok o t ∧
     match o with
     | None => ∃ s', release 1 PtableLock t = Ok tt s'
     | Some i => ∃ k s', konts code5 !! i = Some k ∧ resume k 1 i 1 t = Ok tt s'
     end) ∧
  (∃ s', proceed InKernel AskWait 1 0 (ks code4) = Ok tt s') ∧
  exit_half 1 (ks code4) = Err (Panic "init exiting") ∧
  (∃ saved t s', sleep_half 1 (Some ChTicks) TicksLock (ks code4l) = Ok saved t ∧
     scheduler_back 1 t = Ok tt s') ∧
  (∃ r s1 s2, wakeup 1 (Some ChTicks) (ks code4) = Ok tt s1 ∧ kill 1 2 (ks code4) = Ok r s2).
Proof.
  destruct (code_never_panics code4 1 code4_reachable) as (_ & Hp & Hx & _ & Hw).
  split; [apply (code_never_panics code5 1 code5_reachable); [apply code5_idles|by right]|].
  split; [apply (Hp 0%nat InKernel AskWait); [apply code4_calls|reflexivity|reflexivity|done]|].
  split; [apply (Hx 0%nat); [apply code4_calls|reflexivity]|].
  split; [apply (code_never_panics code4l 1 code4l_reachable) with 0%nat; [apply code4l_holds|reflexivity]|].
  apply Hw. apply (calls_can_lock 1 0), code4_calls.
Defined.

(** A switch during which somebody kills init, which sleeps in wait: it wakes
    up and is chosen. *)
Definition can_go (c : nat) (s : kernel) : bool :=
  bool_decide (locks s = []) &&
  match cpus s !! c with
  | Some k => bool_decide (ncli k = 0) && bool_decide (cpu_proc k = None)
  | None => false
  end.

Definition gone : kerr := NoLock PtableLock.

Definition interrupting (c : nat) : K nat := λ t,
  match scheduler_back c t with
  | Ok _ s =>
      if can_go c s then
        match kill c 1 s with
        | Ok _ s1 =>
            if can_go c s1 then
              match scheduler_choose c 1 s1 with
              | Ok (Some 0%nat) t' => Ok c t'
              | _ => Err gone
              end
            else Err gone
        | Err _ => Err gone
        end
      else Err gone
  | Err _ => Err gone
  end.

Lemma can_go_idles c s : can_go c s = true → idles c s.
Proof.
  unfold can_go. intros [Hl%bool_decide_eq_true Hk]%andb_true_iff. split; [intros c'; by rewrite Hl|].
  destruct (cpus s !! c) as [k|]; [|done]. apply andb_true_iff in Hk as [Hn%bool_decide_eq_true Hp%bool_decide_eq_true].
  by exists k.
Qed.

Lemma interrupting_comes_back : comes_back 0 gone interrupting.
Proof.
  split; [intros c t e; unfold interrupting; repeat case_match; congruence|].
  intros k c t s l c' t' _ Hb _ Hk Hs. unfold interrupting in Hs. rewrite Hb in Hs.
  destruct (can_go c s) eqn:Hg; [|done]. destruct (kill c 1 s) as [r s1|] eqn:Hkill; [|done].
  destruct (can_go c s1) eqn:Hg1; [|done].
  destruct (scheduler_choose c 1 s1) as [[[|i]|] t1|] eqn:Hch; try done. injection Hs as <- <-.
  exists s1, l, 1. split; [|split; [done|]; split; [by apply can_go_idles|done]].
  apply rtc_once. eapply C_kill; [|exact Hkill].
  destruct (can_go_idles _ _ Hg) as (Hf & k0 & Hk0 & Hn & _). split; [done|].
  exists k0. split; [done|]. split; [lia|]. intros. lia.
Qed.

(** init asks for wait. *)
Definition code4w : sys := Sys (on_slot 0 (set_tf (Trapframe 3 0 0 0 0 0 0 0)) (ks code4)) (konts code4).

Lemma code4w_calls : calls 1 0 (ks code4w).
Proof. split; [by intros c|]. eexists. split; [vm_compute; reflexivity|done]. Qed.

Lemma code4w_reachable : reachable booted code_step code4w.
Proof.
  destruct code4_reachable as (x0 & Hb & Hr). exists x0. split; [done|]. eapply rtc_r; [exact Hr|].
  apply (C_trapframe _ _ 1 0); [apply code4_calls|done].
Qed.

Lemma syscalls_are_system_runs_witness :
  ∃ c' s' l', syscall no_files 3 interrupting 1 (ks code4w) = Ok (Some c') s' ∧
    rtc code_step code4w (Sys s' l') ∧ calls c' 0 s'.
Proof.
  destruct (ptable (ks code4w) !! 0%nat) as [p|] eqn:Hp; [|by vm_compute in Hp].
  assert (tf_eax (tf p) = 3) as Heax by (vm_compute in Hp; by injection Hp as <-).
  pose proof (syscalls_are_system_runs no_files 3 gone interrupting 1 0 p code4w code4w_reachable code4w_calls
    eq_refl Hp interrupting_comes_back) as Hrun. rewrite Heax in Hrun.
  cbv zeta in Hrun. rewrite decide_False in Hrun by (vm_compute; intros [? _]; discriminate).
  destruct (syscall no_files 3 interrupting 1 (ks code4w)) as [[c'|] s'|e] eqn:Hs.
  - destruct Hrun as (_ & l' & Hsteps & _ & Hc & _); [by intros n [= <-]|].
    exists c', s', l'. split; [reflexivity|]. split; [exact Hsteps|exact Hc].
  - exfalso. apply (f_equal outcome_ok) in Hs as Ho. vm_compute in Hs. discriminate.
  - exfalso. apply (f_equal outcome_ok) in Hs as Ho. vm_compute in Ho. discriminate.
Defined.

(** The boot, and the state in which init has started: nobody has set tickets. *)
Lemma boot_modest : modest_boot 100 boot_sys.
Proof.
  split; [apply boot_sys_booted|]. split; [|unfold INT_MAX; simpl; lia].
  repeat constructor; simpl; lia.
Qed.

Lemma code1_modest : modest_step 100 boot_sys code1.
Proof.
  split; [exact code1_step|]. intros j n (c & (_ & k & Hk & _ & Hc) & _).
  destruct c as [|[|c]]; simpl in Hk; [injection Hk as <-; done|injection Hk as <-; done|done].
Qed.

Lemma lottery_stays_sane_witness :
  num_tickets (ptable (ks boot_sys)) = 20 ∧
  (∃ i t, scheduler_choose 1 1 (ks boot_sys) = Ok (Some i) t) ∧
  ∃ t, scheduler_choose 0 1 (ks code1) = Ok None t ∧ ptable t = ptable (ks code1).
Proof.
  assert (reachable (modest_boot 100) (modest_step 100) boot_sys) as Hb.
  { exists boot_sys. split; [exact boot_modest|apply rtc_refl]. }
  assert (reachable (modest_boot 100) (modest_step 100) code1) as H1.
  { exists boot_sys. split; [exact boot_modest|apply rtc_once, code1_modest]. }
  assert (MAGIC_TICKET_NUM ≤ 100) as HB by (unfold MAGIC_TICKET_NUM; lia).
  destruct (lottery_stays_sane 100 boot_sys 1 1 HB Hb) as (Hn & _ & Hd).
  destruct (Hd boot_idles) as (o & t & Hch & Ho).
  destruct (lottery_stays_sane 100 code1 0 1 HB H1) as (_ & _ & Hd1).
  destruct Hd1 as (o1 & t1 & Hch1 & Ho1); [split; [by intros c|by exists free_cpu]|].
  split; [exact Hn|]. split.
  - destruct o as [i|]; [by exists i, t|]. destruct Ho as [Hno _]. by inversion Hno.
  - destruct o1 as [i|]; [|exists t1; split; [exact Hch1|apply Ho1]].
    destruct Ho1 as (p & Hp & Hr & _). exfalso.
    destruct i as [|[|[|[|i]]]]; vm_compute in Hp; [injection Hp as <-; by vm_compute in Hr..|done].
Defined.
