(* ===== verification/Hashtable.v ===== *)
(** The parallel hash table of hw4: its entries in a heap, the insertion as the
    sequence of its memory accesses interleaved among the threads, the two
    phases, and the three locking disciplines - none (parallel_hashtable.c), a
    mutex for each bucket (parallel_mutex.c), one spin lock (parallel_spin.c). *)

From stdpp Require Import gmap list.
From S2P Require Import Prelude.

Definition NUM_BUCKETS : Z := 5.

Definition NUM_KEYS : Z := 100000.

Definition loc : Type := nat.

Record bucket_entry : Type := Entry { key : Z; val : Z; next : option loc }.

(** Contents of a fresh block, before the fields are written. *)
Definition raw_entry : bucket_entry := Entry 0 0 None.

(** [key % NUM_BUCKETS], C's remainder; the keys come from [random()] and are
    not negative. *)
Definition bucket (k : Z) : nat := Z.to_nat (Z.rem k NUM_BUCKETS).

(** ** The threads *)

(** Where a thread stands in [insert(keys[key], tid)]. *)
Inductive pc : Type :=
| At_malloc                     (* between two insertions *)
| At_lock (i : nat) (e : loc)
| At_link (i : nat) (e : loc)   (* e->next = table[i] *)
| At_key (i : nat) (e : loc)    (* e->key = key *)
| At_val (i : nat) (e : loc)    (* e->val = val *)
| At_head (i : nat) (e : loc)   (* table[i] = e *)
| At_unlock (i : nat) (e : loc).

(** A thread: the keys it still has to insert, the current one first. *)
Record thread : Type := Thread { todo : list Z; at_pc : pc }.

Record hstate : Type := HState {
  heap : gmap loc bucket_entry;
  table : list (option loc);
  owner : gmap nat nat;           (* the thread that holds a lock *)
  threads : list thread;
  exited : bool                   (* a [panic] has ended the program *)
}.

(** The lock of a bucket, if the program has one. *)
Definition discipline : Type := nat → option nat.

Definition no_locks : discipline := λ _, None.

Definition mutex_per_bucket : discipline := λ i, Some i.

Definition one_spinlock : discipline := λ _, Some 0%nat.

Definition set_thread (t : nat) (th : thread) (s : hstate) : hstate :=
  HState (heap s) (table s) (owner s) (<[t := th]> (threads s)) (exited s).

Definition store (e : loc) (f : bucket_entry → bucket_entry) (s : hstate) : hstate :=
  HState (alter f e (heap s)) (table s) (owner s) (threads s) (exited s).

Definition set_table (i : nat) (o : option loc) (s : hstate) : hstate :=
  HState (heap s) (<[i := o]> (table s)) (owner s) (threads s) (exited s).

Definition set_owner (f : gmap nat nat → gmap nat nat) (s : hstate) : hstate :=
  HState (heap s) (table s) (f (owner s)) (threads s) (exited s).

(** [pthread_mutex_lock] or [pthread_spin_lock]: waits until the lock is free. *)
Definition take_lock (d : discipline) (t i : nat) (s : hstate) : option hstate :=
  match d i with
  | None => Some s
  | Some l =>
      match owner s !! l with
      | None => Some (set_owner <[l := t]> s)
      | Some _ => None
      end
  end.

Definition drop_lock (d : discipline) (i : nat) (s : hstate) : hstate :=
  match d i with
  | None => s
  | Some l => set_owner (delete l) s
  end.

(** One memory access of thread [t]. [malloc] returns some block that is not
    in use, or null, and then the program exits; the block's number is chosen
    by the environment. *)
Inductive hstep (d : discipline) : hstate → hstate → Prop :=
| H_malloc s t k ks e :
    exited s = false → threads s !! t = Some (Thread (k :: ks) At_malloc) → heap s !! e = None →
    hstep d s (set_thread t (Thread (k :: ks) (At_lock (bucket k) e))
                 (HState (<[e := raw_entry]> (heap s)) (table s) (owner s) (threads s) (exited s)))
| H_no_memory s t k ks :
    exited s = false → threads s !! t = Some (Thread (k :: ks) At_malloc) →
    hstep d s (HState (heap s) (table s) (owner s) (threads s) true)
| H_lock s t ks i e s' :
    exited s = false → threads s !! t = Some (Thread ks (At_lock i e)) →
    take_lock d t i s = Some s' →
    hstep d s (set_thread t (Thread ks (At_link i e)) s')
| H_link s t ks i e o :
    exited s = false → threads s !! t = Some (Thread ks (At_link i e)) → table s !! i = Some o →
    hstep d s (set_thread t (Thread ks (At_key i e))
                 (store e (λ b, Entry (key b) (val b) o) s))
| H_key s t k ks i e :
    exited s = false → threads s !! t = Some (Thread (k :: ks) (At_key i e)) →
    hstep d s (set_thread t (Thread (k :: ks) (At_val i e))
                 (store e (λ b, Entry k (val b) (next b)) s))
| H_val s t ks i e :
    exited s = false → threads s !! t = Some (Thread ks (At_val i e)) →
    hstep d s (set_thread t (Thread ks (At_head i e))
                 (store e (λ b, Entry (key b) (Z.of_nat t) (next b)) s))
| H_head s t ks i e :
    exited s = false → threads s !! t = Some (Thread ks (At_head i e)) →
    hstep d s (set_thread t (Thread ks (At_unlock i e)) (set_table i (Some e) s))
| H_unlock s t ks i e :
    exited s = false → threads s !! t = Some (Thread ks (At_unlock i e)) →
    hstep d s (set_thread t (Thread (tail ks) At_malloc) (drop_lock d i s)).

(** The three programs. *)
Definition hashtable_step : relation hstate := hstep no_locks.

Definition mutex_step : relation hstate := hstep mutex_per_bucket.

Definition spin_step : relation hstate := hstep one_spinlock.

(** ** The phases *)

(** [for (key = tid; key < NUM_KEYS; key += num_threads)]: the indices a thread
    visits; [fuel] iterations at most. With more than INT_MAX - NUM_KEYS threads
    the addition overflows, which C leaves undefined. *)
Fixpoint indices (fuel : nat) (bound num_threads key : Z) : list Z :=
  match fuel with
  | O => []
  | S fuel' =>
      if decide (key < bound)
      then key :: indices fuel' bound num_threads (i32 (key + num_threads))
      else []
  end.

Definition thread_indices (num_threads : Z) (tid : nat) : list Z :=
  indices (Z.to_nat NUM_KEYS) NUM_KEYS num_threads (Z.of_nat tid).

(** [keys[key]], the array as a function of the index. *)
Definition put_phase (keys : Z → Z) (num_threads : Z) (tid : nat) : list Z :=
  keys <$> thread_indices num_threads tid.

(** The loop of [retrieve] from entry [b]. *)
Fixpoint walk (fuel : nat) (h : gmap loc bucket_entry) (k : Z) (b : option loc) : option loc :=
  match fuel, b with
  | S fuel', Some e =>
      match h !! e with
      | Some x => if decide (key x = k) then Some e else walk fuel' h k (next x)
      | None => None
      end
  | _, _ => None
  end.

(** A chain visits a block at most once, so the size of the heap bounds it. *)
Definition retrieve (s : hstate) (k : Z) : option loc :=
  walk (S (size (heap s))) (heap s) k (mjoin (table s !! bucket k)).

(** [get_phase]: how many of the thread's keys are not found. *)
Definition get_phase (s : hstate) (keys : Z → Z) (num_threads : Z) (tid : nat) : Z :=
  foldl (λ lost i, if decide (retrieve s (keys i) = None) then lost + 1 else lost) 0
    (thread_indices num_threads tid).

(** ** main *)

(** Before the threads are created; [progs] are the keys each will insert. *)
Definition initial (progs : list (list Z)) : hstate :=
  HState ∅ (replicate (Z.to_nat NUM_BUCKETS) None) ∅ ((λ ks, Thread ks At_malloc) <$> progs) false.

(** All the threads have reached [pthread_exit] and been joined. *)
Definition joined (s : hstate) : Prop :=
  exited s = false ∧ Forall (λ th, todo th = [] ∧ at_pc th = At_malloc) (threads s).

Definition all_progs (keys : Z → Z) (num_threads : nat) : list (list Z) :=
  put_phase keys (Z.of_nat num_threads) <$> seq 0 num_threads.

(** The sum the main thread prints, after the get phase. *)
Definition total_lost (s : hstate) (keys : Z → Z) (num_threads : nat) : Z :=
  foldl (λ n tid, n + get_phase s keys (Z.of_nat num_threads) tid) 0 (seq 0 num_threads).

Inductive main_panic : Type := Usage | InvalidThreads.

(** The check of the arguments: the number of threads, or the panic; [atoi] is
    the standard library's. *)
Definition main_args (atoi : list Z → Z) (argv : list (list Z)) : Z + main_panic :=
  match argv with
  | [_; n] => if decide (atoi n ≤ 0) then inr InvalidThreads else inl (atoi n)
  | _ => inr Usage
  end.

(** ** What the table holds *)

(** The chain from a pointer: blocks with their keys and values. *)
Inductive chain (h : gmap loc bucket_entry) : option loc → list (loc * (Z * Z)) → Prop :=
| chain_nil : chain h None []
| chain_cons e x l :
    h !! e = Some x → chain h (next x) l → chain h (Some e) ((e, (key x, val x)) :: l).

(** What a thread has not linked into the table yet. *)
Definition pending (th : thread) : list Z :=
  match at_pc th with
  | At_unlock _ _ => tail (todo th)
  | _ => todo th
  end.

Definition tag (t : nat) (ks : list Z) : list (Z * Z) := (λ k, (k, Z.of_nat t)) <$> ks.

(** The key-value pairs of the programs and those still pending. *)
Definition all_pairs (progs : list (list Z)) : list (Z * Z) := concat (imap tag progs).

Definition pending_pairs (ths : list thread) : list (Z * Z) := all_pairs (pending <$> ths).

(** The block a thread is filling, and the bucket it works in. *)
Definition private (th : thread) : option loc :=
  match at_pc th with
  | At_lock _ e | At_link _ e | At_key _ e | At_val _ e | At_head _ e => Some e
  | _ => None
  end.

Definition inside (p : pc) : option nat :=
  match p with
  | At_link i _ | At_key i _ | At_val i _ | At_head i _ | At_unlock i _ => Some i
  | _ => None
  end.

(** Every bucket has a lock. *)
Definition guarded (d : discipline) : Prop :=
  ∀ i, (i < Z.to_nat NUM_BUCKETS)%nat → ∃ l, d i = Some l.
