(* ===== verification/HashConc.v ===== *)
(** Insertions interleaved: with a lock for every bucket, in any schedule, the
    chains stay well formed and no pair is lost; the invariant of hstep. *)

From stdpp Require Import gmap list.
From S2P Require Import Prelude Hashtable.

(** ** Invariant *)

Definition holds (d : discipline) (s : hstate) (t i : nat) : Prop :=
  ∀ l, d i = Some l → owner s !! l = Some t.

(** What is known of a thread, by where it stands. *)
Definition thread_ok (d : discipline) (s : hstate) (t : nat) (th : thread) : Prop :=
  (∀ i, inside (at_pc th) = Some i → holds d s t i) ∧
  match at_pc th with
  | At_malloc => True
  | At_lock i e | At_link i e =>
      ∃ k ks x, todo th = k :: ks ∧ bucket k = i ∧ heap s !! e = Some x
  | At_key i e =>
      ∃ k ks x, todo th = k :: ks ∧ bucket k = i ∧ heap s !! e = Some x ∧
                table s !! i = Some (next x)
  | At_val i e =>
      ∃ k ks x, todo th = k :: ks ∧ bucket k = i ∧ heap s !! e = Some x ∧
                table s !! i = Some (next x) ∧ key x = k
  | At_head i e =>
      ∃ k ks x, todo th = k :: ks ∧ bucket k = i ∧ heap s !! e = Some x ∧
                table s !! i = Some (next x) ∧ key x = k ∧ val x = Z.of_nat t
  | At_unlock i e => ∃ k ks, todo th = k :: ks ∧ bucket k = i
  end.

(** [Ls] are the contents of the buckets. *)
Record hinv (d : discipline) (progs : list (list Z)) (Ls : list (list (loc * (Z * Z))))
    (s : hstate) : Prop := {
  hi_len : length Ls = Z.to_nat NUM_BUCKETS ∧ length (table s) = Z.to_nat NUM_BUCKETS;
  hi_chain : ∀ i L, Ls !! i = Some L →
    ∃ o, table s !! i = Some o ∧ chain (heap s) o L ∧ Forall (λ x, bucket x.2.1 = i) L;
  hi_nodup : NoDup (concat Ls).*1;
  hi_apart : ∀ t th e, threads s !! t = Some th → private th = Some e → e ∉ (concat Ls).*1;
  hi_private : ∀ t t' th th' e, threads s !! t = Some th → threads s !! t' = Some th' →
    private th = Some e → private th' = Some e → t = t';
  hi_thread : ∀ t th, threads s !! t = Some th → thread_ok d s t th;
  hi_pairs : (concat Ls).*2 ++ pending_pairs (threads s) ≡ₚ all_pairs progs;
  hi_nonneg : ∀ t th k, threads s !! t = Some th → k ∈ todo th → 0 ≤ k
}.

(** ** Lists of pairs *)

Lemma all_pairs_insert n progs t ks ks' :
  progs !! t = Some ks →
  ∃ l1 l2, concat (imap (λ i, tag (n + i)) progs) = l1 ++ tag (n + t) ks ++ l2 ∧
           concat (imap (λ i, tag (n + i)) (<[t := ks']> progs)) = l1 ++ tag (n + t) ks' ++ l2.
Proof.
  revert n t. induction progs as [|q progs IH]; intros n [|t] Hp; simplify_eq/=.
  - rewrite Nat.add_0_r. exists [], (concat (imap (λ i, tag (n + S i)) progs)). done.
  - destruct (IH (S n) t Hp) as (l1 & l2 & H1 & H2).
    exists (tag (n + 0) q ++ l1), l2. rewrite <-!app_assoc.
    replace (n + S t)%nat with (S n + t)%nat by lia. rewrite <-H1, <-H2.
    split; f_equal; f_equal; apply imap_ext; intros; simpl; f_equal; lia.
Qed.

Lemma pending_insert_same ths t th th' :
  ths !! t = Some th → pending th' = pending th →
  pending_pairs (<[t := th']> ths) = pending_pairs ths.
Proof.
  intros Ht Hp. unfold pending_pairs. f_equal. rewrite list_fmap_insert, Hp.
  apply list_insert_id. by rewrite list_lookup_fmap, Ht.
Qed.

Lemma pending_insert_pop ths t th th' k :
  ths !! t = Some th → pending th = k :: pending th' →
  pending_pairs ths ≡ₚ (k, Z.of_nat t) :: pending_pairs (<[t := th']> ths).
Proof.
  intros Ht Hp. unfold pending_pairs, all_pairs. rewrite list_fmap_insert.
  destruct (all_pairs_insert 0 (pending <$> ths) t (pending th) (pending th')) as (l1 & l2 & H1 & H2).
  { by rewrite list_lookup_fmap, Ht. }
  simpl in H1, H2. change (imap tag) with (imap (λ i, tag i)). rewrite H1, H2, Hp.
  change (0 + t)%nat with t. unfold tag. simpl. by rewrite <-Permutation_middle.
Qed.

Lemma concat_insert_cons {A} (Ls : list (list A)) i L x :
  Ls !! i = Some L → concat (<[i := x :: L]> Ls) ≡ₚ x :: concat Ls.
Proof.
  revert i. induction Ls as [|M Ls IH]; intros [|i] Hi; simplify_eq/=; [done|].
  rewrite IH by done. by rewrite Permutation_middle.
Qed.

(** ** Chains *)

Lemma chain_frame h h' o L :
  chain h o L → (∀ e, e ∈ L.*1 → h' !! e = h !! e) → chain h' o L.
Proof.
  induction 1 as [|e x l Hx Hc IH]; intros Hh; [constructor|].
  constructor; [by rewrite Hh; [|left]|]. apply IH. intros e' He'. apply Hh. by right.
Qed.

Lemma chain_dom h o L : chain h o L → ∀ e, e ∈ L.*1 → is_Some (h !! e).
Proof.
  induction 1 as [|e x l Hx Hc IH]; intros e' He'; [by apply not_elem_of_nil in He'|].
  apply elem_of_cons in He' as [->|]; eauto.
Qed.

Lemma elem_of_concat_lookup {A} (Ls : list (list A)) i L x :
  Ls !! i = Some L → x ∈ L → x ∈ concat Ls.
Proof.
  intros Hi Hx. apply list_elem_of_In, in_concat. exists L.
  split; apply list_elem_of_In; [by eapply list_elem_of_lookup_2|done].
Qed.

Lemma elem_of_fst_concat {A B} (Ls : list (list (A * B))) i L e :
  Ls !! i = Some L → e ∈ L.*1 → e ∈ (concat Ls).*1.
Proof.
  intros Hi (x & -> & Hx)%list_elem_of_fmap. apply list_elem_of_fmap. exists x.
  split; [done|]. by eapply elem_of_concat_lookup.
Qed.

Lemma bucket_range k : 0 ≤ k → (bucket k < Z.to_nat NUM_BUCKETS)%nat.
Proof. intros Hk. unfold bucket, NUM_BUCKETS. pose proof (Z.rem_bound_pos k 5). lia. Qed.

(** ** Frames *)

Lemma thread_ok_frame d s s' t th :
  thread_ok d s t th →
  (∀ e, private th = Some e → heap s' !! e = heap s !! e) →
  (∀ i, inside (at_pc th) = Some i → table s' !! i = table s !! i) →
  (∀ l, owner s !! l = Some t → owner s' !! l = Some t) →
  thread_ok d s' t th.
Proof.
  intros [Hh Hok] Hheap Htab Hown. split.
  { intros i Hi l Hl. by apply Hown, (Hh i). }
  unfold private, inside in *. destruct (at_pc th) as [|i e|i e|i e|i e|i e|i e];
    rewrite ?(Hheap e), ?(Htab i) by done; done.
Qed.

(** Two threads are never in the critical sections of one bucket. *)
Lemma inside_exclusive d s t t' th th' i :
  guarded d → (i < Z.to_nat NUM_BUCKETS)%nat →
  thread_ok d s t th → thread_ok d s t' th' →
  inside (at_pc th) = Some i → inside (at_pc th') = Some i → t = t'.
Proof.
  intros Hd Hi [H1 _] [H2 _] Hin Hin'. destruct (Hd i Hi) as [l Hl].
  pose proof (H1 i Hin l Hl). pose proof (H2 i Hin' l Hl). congruence.
Qed.

(** ** Preservation *)

Section preservation.
Context (d : discipline) (progs : list (list Z)).

Lemma private_heap s t th e : thread_ok d s t th → private th = Some e → is_Some (heap s !! e).
Proof.
  intros [_ Hok] Hp. unfold private in Hp. destruct (at_pc th); simplify_eq; naive_solver.
Qed.

Lemma chained_heap Ls s e : hinv d progs Ls s → e ∈ (concat Ls).*1 → is_Some (heap s !! e).
Proof.
  intros Hi (x & -> & Hx)%list_elem_of_fmap. apply list_elem_of_In, in_concat in Hx.
  destruct Hx as (L & HL%list_elem_of_In & Hx%list_elem_of_In).
  apply list_elem_of_lookup in HL as [i HL]. destruct (hi_chain _ _ _ _ Hi i L HL) as (o & _ & Hc & _).
  eapply chain_dom; [done|]. apply list_elem_of_fmap. eauto.
Qed.

(** A step of thread [t] that links nothing. *)
Lemma hinv_keep Ls s s' t th th' :
  hinv d progs Ls s → threads s !! t = Some th →
  table s' = table s → threads s' = <[t := th']> (threads s) →
  (∀ e, private th ≠ Some e → is_Some (heap s !! e) → heap s' !! e = heap s !! e) →
  (∀ t' l, t' ≠ t → owner s !! l = Some t' → owner s' !! l = Some t') →
  (∀ e, private th' = Some e → private th = Some e ∨ heap s !! e = None) →
  pending th' = pending th → (∀ k, k ∈ todo th' → k ∈ todo th) →
  thread_ok d s' t th' →
  hinv d progs Ls s'.
Proof.
  intros Hi Ht Htab Hths Hheap Hown Hpriv Hpend Htodo Hok.
  pose proof (lookup_lt_Some _ _ _ Ht) as Hlt.
  assert (∀ t' th2, threads s' !! t' = Some th2 →
            t' = t ∧ th2 = th' ∨ t' ≠ t ∧ threads s !! t' = Some th2) as Hcase.
  { intros t' th2. rewrite Hths, list_lookup_insert_Some. naive_solver. }
  split; rewrite ?Htab.
  - apply Hi.
  - intros i L HL. destruct (hi_chain _ _ _ _ Hi i L HL) as (o & Ho & Hc & Hb).
    exists o. split; [done|]. split; [|done]. eapply chain_frame; [done|].
    intros e He. pose proof (elem_of_fst_concat _ _ _ _ HL He) as He'. apply Hheap.
    + intros Hp. by apply (hi_apart _ _ _ _ Hi t th e).
    + by eapply chained_heap.
  - apply Hi.
  - intros t' th2 e [[-> ->]|[Hne Ht']]%Hcase Hp.
    + destruct (Hpriv e Hp) as [Hp'|Hno]; [by apply (hi_apart _ _ _ _ Hi t th e)|].
      intros He. destruct (chained_heap _ _ _ Hi He). congruence.
    + by apply (hi_apart _ _ _ _ Hi t' th2 e).
  - assert (∀ t' th2 e, t' ≠ t → threads s !! t' = Some th2 → private th2 = Some e →
              private th' = Some e → False) as Hnew.
    { intros t' th2 e Hne Ht' Hp Hp'. destruct (Hpriv e Hp') as [Hp2|Hno].
      - by apply Hne, (hi_private _ _ _ _ Hi t' t th2 th e).
      - destruct (private_heap s t' th2 e); [by apply Hi|done|congruence]. }
    intros t1 t2 th1 th2 e [[-> ->]|[Hne1 Ht1]]%Hcase [[-> ->]|[Hne2 Ht2]]%Hcase Hp1 Hp2;
      [done|exfalso; eauto..|by eapply Hi].
  - intros t' th2 [[-> ->]|[Hne Ht']]%Hcase; [done|].
    eapply thread_ok_frame; [by apply Hi| | |].
    + intros e Hp. apply Hheap; [|eapply private_heap; [by apply Hi|done]].
      intros Hp'. by apply Hne, (hi_private _ _ _ _ Hi t' t th2 th e).
    + by rewrite Htab.
    + intros l. by apply Hown.
  - rewrite Hths, (pending_insert_same _ _ th) by done. apply Hi.
  - intros t' th2 k [[-> ->]|[Hne Ht']]%Hcase Hk; [|by eapply Hi].
    by apply (hi_nonneg _ _ _ _ Hi t th); [|apply Htodo].
Qed.

(** What a step does to the contents of the buckets and to the keys still to be
    inserted: nothing, or a thread's next key has become the latest of its bucket. *)
Definition linked (Ls : list (list (loc * (Z * Z)))) (s s' : hstate)
    (Ls' : list (list (loc * (Z * Z)))) : Prop :=
  (Ls' = Ls ∧ pending <$> threads s' = pending <$> threads s) ∨
  ∃ t k ks e L, (pending <$> threads s) !! t = Some (k :: ks) ∧ 0 ≤ k ∧ Ls !! bucket k = Some L ∧
    Ls' = <[bucket k := (e, (k, Z.of_nat t)) :: L]> Ls ∧
    pending <$> threads s' = <[t := ks]> (pending <$> threads s).

Lemma hinv_keep_linked Ls s s' t th th' :
  hinv d progs Ls s → threads s !! t = Some th →
  table s' = table s → threads s' = <[t := th']> (threads s) →
  (∀ e, private th ≠ Some e → is_Some (heap s !! e) → heap s' !! e = heap s !! e) →
  (∀ t' l, t' ≠ t → owner s !! l = Some t' → owner s' !! l = Some t') →
  (∀ e, private th' = Some e → private th = Some e ∨ heap s !! e = None) →
  pending th' = pending th → (∀ k, k ∈ todo th' → k ∈ todo th) →
  thread_ok d s' t th' →
  hinv d progs Ls s' ∧ linked Ls s s' Ls.
Proof.
  intros Hi Ht Htab Hths Hheap Hown Hpriv Hpend Htodo Hok.
  split; [by eapply hinv_keep|]. left. split; [done|]. rewrite Hths, list_fmap_insert, Hpend.
  apply list_insert_id. by rewrite list_lookup_fmap, Ht.
Qed.

(** The step that puts the block at the head of the bucket's chain. *)
Lemma hinv_link Ls s t ks i e :
  guarded d → hinv d progs Ls s → threads s !! t = Some (Thread ks (At_head i e)) →
  ∃ k ks' L, ks = k :: ks' ∧ bucket k = i ∧ 0 ≤ k ∧ Ls !! i = Some L ∧
    hinv d progs (<[i := (e, (k, Z.of_nat t)) :: L]> Ls)
      (set_thread t (Thread ks (At_unlock i e)) (set_table i (Some e) s)).
Proof.
  intros Hd Hi Ht. set (th := Thread ks (At_head i e)) in *.
  destruct (hi_thread _ _ _ _ Hi t th Ht) as [Hhold (k & ks' & x & Htodo & Hb & Hx & Htab & Hk & Hv)].
  simpl in *. subst ks.
  assert (0 ≤ k) as Hk0 by (apply (hi_nonneg _ _ _ _ Hi t th k Ht); left).
  pose proof (bucket_range k Hk0) as Hlt. rewrite Hb in Hlt.
  destruct (hi_len _ _ _ _ Hi) as [HlL Hlt'].
  destruct (lookup_lt_is_Some_2 Ls i) as [L HL]; [lia|].
  destruct (hi_chain _ _ _ _ Hi i L HL) as (o & Ho & Hc & Hbs).
  assert (o = next x) as -> by congruence.
  pose proof (concat_insert_cons Ls i L (e, (key x, val x)) HL) as Hperm.
  assert (e ∉ (concat Ls).*1) as Hnew by (by apply (hi_apart _ _ _ _ Hi t th e)).
  pose proof (lookup_lt_Some _ _ _ Ht) as Htl.
  set (th' := Thread (k :: ks') (At_unlock i e)).
  assert (∀ t' th2, <[t := th']> (threads s) !! t' = Some th2 →
            t' = t ∧ th2 = th' ∨ t' ≠ t ∧ threads s !! t' = Some th2) as Hcase.
  { intros t' th2. rewrite list_lookup_insert_Some. naive_solver. }
  exists k, ks', L. do 4 (split; [done|]).
  replace (k, Z.of_nat t) with (key x, val x) by congruence. split; simpl.
  - by rewrite !length_insert.
  - intros j M. rewrite list_lookup_insert_Some.
    intros [(-> & <- & _)|[Hne HM]].
    + exists (Some e). rewrite list_lookup_insert_eq by lia. split; [done|]. split.
      * by constructor.
      * constructor; [by rewrite <-Hb, <-Hk|done].
    + rewrite list_lookup_insert_ne by done. by apply (hi_chain _ _ _ _ Hi).
  - rewrite Hperm. simpl. constructor; [done|]. apply Hi.
  - intros t' th2 e2 [[-> ->]|[Hne Ht']]%Hcase Hp; [done|]. rewrite Hperm. simpl.
    rewrite not_elem_of_cons. split; [|by apply (hi_apart _ _ _ _ Hi t' th2 e2)].
    intros ->. by apply Hne, (hi_private _ _ _ _ Hi t' t th2 th e).
  - intros t1 t2 th1 th2 e2 [[-> ->]|[Hne1 Ht1]]%Hcase [[-> ->]|[Hne2 Ht2]]%Hcase Hp1 Hp2;
      [done..|by eapply Hi].
  - intros t' th2 [[-> ->]|[Hne Ht']]%Hcase.
    + split; [|by exists k, ks']. intros j Hj. simpl in Hj. simplify_eq. by apply Hhold.
    + eapply thread_ok_frame; [by apply Hi|done| |done].
      intros j Hj. simpl. apply list_lookup_insert_ne. intros <-.
      apply Hne. apply (inside_exclusive d s t' t th2 th i Hd Hlt); [by apply Hi..|done|done].
  - rewrite Hperm. simpl. pose proof (hi_pairs _ _ _ _ Hi) as Hpp.
    rewrite (pending_insert_pop _ t th th' k) in Hpp by done.
    rewrite <-Hpp, Hk, Hv. by rewrite Permutation_middle.
  - intros t' th2 k2 [[-> ->]|[Hne Ht']]%Hcase Hk2; [|by eapply Hi].
    by apply (hi_nonneg _ _ _ _ Hi t th).
Qed.

(** Reading the private block of a thread that does not link. *)
Lemma alter_other {A} (f : A → A) (h : gmap loc A) e e' : e' ≠ e → alter f e h !! e' = h !! e'.
Proof. intros. by apply lookup_alter_ne. Qed.

Lemma hstep_inv Ls s s' :
  guarded d → hinv d progs Ls s → hstep d s s' → ∃ Ls', hinv d progs Ls' s' ∧ linked Ls s s' Ls'.
Proof.
  intros Hd Hi Hst.
  assert (∀ t th, threads s !! t = Some th → thread_ok d s t th) as Hok by apply Hi.
  destruct Hst as [s t k ks e Hex Ht He|s t k ks Hex Ht|s t ks i e s1 Hex Ht Hl|s t ks i e o Hex Ht Ho
                  |s t k ks i e Hex Ht|s t ks i e Hex Ht|s t ks i e Hex Ht|s t ks i e Hex Ht];
    try specialize (Hok _ _ Ht) as [Hh Hth]; simpl in *.
  - exists Ls. eapply (hinv_keep_linked Ls s _ t); [done..| | |simpl|done|done|]; simpl.
    + intros e' _ [x Hx]. apply lookup_insert_ne. congruence.
    + done.
    + intros e' E. unfold private in E. simpl in E. simplify_eq. by right.
    + split; [done|]. simpl. exists k, ks, raw_entry. by rewrite lookup_insert_eq.
  - exists Ls. split; [destruct Hi; by split|by left].
  - destruct Hth as (k & ks' & x & -> & Hb & Hx). unfold take_lock in Hl.
    exists Ls. destruct (d i) as [l|] eqn:Hdi.
    + destruct (owner s !! l) eqn:Hlo; [done|]. injection Hl as <-.
      eapply (hinv_keep_linked Ls s _ t); [done..| |simpl; naive_solver|done|done|]; simpl.
      * intros t' l' Hne Hl'. rewrite lookup_insert_ne; [done|congruence].
      * split; [|by exists k, ks', x]. intros j Hj. simpl in Hj. simplify_eq. intros l' Hl'.
        simpl. simplify_eq. apply lookup_insert_eq.
    + injection Hl as <-. eapply (hinv_keep_linked Ls s _ t); [done..|simpl; naive_solver|done|done|].
      split; [|by exists k, ks', x]. intros j Hj. simpl in Hj. simplify_eq. intros l' Hl'. congruence.
  - destruct Hth as (k & ks' & x & -> & Hb & Hx). exists Ls.
    eapply (hinv_keep_linked Ls s _ t); [done..| |done|simpl; naive_solver|done|done|]; simpl.
    + intros e' Hp _. apply alter_other. by intros ->.
    + split; [done|]. simpl. eexists k, ks', _. rewrite lookup_alter_eq, Hx. done.
  - destruct Hth as (k0 & ks' & x & E & Hb & Hx & Hn). simplify_eq. exists Ls.
    eapply (hinv_keep_linked Ls s _ t); [done..| |done|simpl; naive_solver|done|done|]; simpl.
    + intros e' Hp _. apply alter_other. by intros ->.
    + split; [done|]. simpl. eexists k0, ks', _. rewrite lookup_alter_eq, Hx. done.
  - destruct Hth as (k & ks' & x & -> & Hb & Hx & Hn & Hk). exists Ls.
    eapply (hinv_keep_linked Ls s _ t); [done..| |done|simpl; naive_solver|done|done|]; simpl.
    + intros e' Hp _. apply alter_other. by intros ->.
    + split; [done|]. simpl. eexists k, ks', _. rewrite lookup_alter_eq, Hx. done.
  - destruct (hinv_link Ls s t ks i e Hd Hi Ht) as (k & ks' & L & -> & <- & Hk & HL & Hi').
    eexists. split; [exact Hi'|]. right. exists t, k, ks', e, L.
    rewrite list_lookup_fmap, Ht. split_and!; [done..|]. simpl. by rewrite list_fmap_insert.
  - destruct Hth as (k & ks' & -> & Hb). exists Ls. unfold drop_lock. destruct (d i) as [l|] eqn:Hdi.
    + eapply (hinv_keep_linked Ls s _ t); [done..| |done|done|simpl; intros ? ?; by right|by split]; simpl.
      intros t' l' Hne Hl'. rewrite lookup_delete_ne; [done|].
      intros <-. apply Hne. pose proof (Hh i eq_refl l Hdi). congruence.
    + eapply (hinv_keep_linked Ls s _ t); [done..|simpl; intros ? ?; by right|by split].
Qed.

Lemma hinv_initial :
  Forall (Forall (λ k, 0 ≤ k)) progs → hinv d progs (replicate (Z.to_nat NUM_BUCKETS) []) (initial progs).
Proof.
  intros Hnn.
  assert (∀ t th, threads (initial progs) !! t = Some th →
            ∃ ks, progs !! t = Some ks ∧ th = Thread ks At_malloc) as Hth.
  { intros t th. simpl. rewrite list_lookup_fmap. intros (ks & -> & ?)%fmap_Some. eauto. }
  assert (∀ n, concat (replicate n (@nil (loc * (Z * Z)))) = []) as Hnil.
  { induction n; done. }
  split; rewrite ?Hnil.
  - by rewrite length_replicate.
  - intros i L [-> Hlt]%lookup_replicate. exists None. split; [|by split; constructor].
    by apply lookup_replicate_2.
  - constructor.
  - intros t th e (ks & _ & ->)%Hth. done.
  - intros t t' th th' e (ks & _ & ->)%Hth. done.
  - intros t th (ks & _ & ->)%Hth. by split.
  - simpl. unfold pending_pairs. rewrite <-list_fmap_compose.
    assert (pending ∘ (λ ks, Thread ks At_malloc) <$> progs = progs) as ->; [|done].
    transitivity (id <$> progs); [|apply list_fmap_id]. by apply list_fmap_ext.
  - intros t th k (ks & Hks & ->)%Hth Hk. simpl in Hk. rewrite list.Forall_lookup in Hnn.
    specialize (Hnn t ks Hks). rewrite list.Forall_forall in Hnn. by apply Hnn.
Qed.

Lemma hreachable_inv s :
  guarded d → Forall (Forall (λ k, 0 ≤ k)) progs →
  rtc (hstep d) (initial progs) s → ∃ Ls, hinv d progs Ls s.
Proof.
  intros Hd Hnn Hs.
  apply (rtc_preserves (hstep d) (λ s, ∃ Ls, hinv d progs Ls s)) with (initial progs); [|eauto using hinv_initial|done].
  intros s1 s2 [Ls Hi] Hst. destruct (hstep_inv Ls s1 s2) as (Ls' & ? & _); eauto.
Qed.

(** ** Looking up in a chain *)

Lemma walk_chain h o L k fuel :
  chain h o L → (length L < fuel)%nat →
  walk fuel h k o = fst <$> (snd <$> list_find (λ x, x.2.1 = k) L).
Proof.
  intros Hc. revert fuel. induction Hc as [|e x l Hx Hc IH]; intros [|fuel] Hf; simpl in *; try lia; [done|].
  rewrite Hx. case_decide; [done|]. rewrite IH by lia.
  by destruct (list_find _ l) as [[]|].
Qed.

Lemma NoDup_bucket Ls i (L : list (loc * (Z * Z))) :
  NoDup (concat Ls).*1 → Ls !! i = Some L → NoDup L.*1.
Proof.
  intros Hnd. revert i. induction Ls as [|M Ls IH]; intros [|i] HL; simplify_eq/=;
    rewrite fmap_app in Hnd; apply list.NoDup_app in Hnd as (? & _ & ?); eauto.
Qed.

(** The chains fit in the heap. *)
Lemma chain_fits h o L : chain h o L → NoDup L.*1 → (length L ≤ size h)%nat.
Proof.
  intros Hc Hnd. rewrite <-(length_fmap fst), <-(size_list_to_set (C := gset loc)) by done.
  rewrite <-(size_dom (D := gset loc)). apply subseteq_size.
  intros e He%elem_of_list_to_set. apply elem_of_dom. by eapply chain_dom.
Qed.

Lemma chain_length Ls s i L :
  hinv d progs Ls s → Ls !! i = Some L → (length L ≤ size (heap s))%nat.
Proof.
  intros Hi HL. destruct (hi_chain _ _ _ _ Hi i L HL) as (o & _ & Hc & _).
  apply (chain_fits _ _ _ Hc). eapply NoDup_bucket; [apply Hi|done].
Qed.

End preservation.
