(* ===== verification/HashProps.v ===== *)
(** What the three programs of hw4 do with the keys: the indices are dealt out
    exactly once, with a lock on every bucket no key is lost and the phase
    ends, without locks a key can be lost. *)

From stdpp Require Import gmap list.
From S2P Require Import Prelude Hashtable HashConc.

(** ** The indices of the threads *)

(** Unrolled: the multiples of [n] from [key] on, below [bound]. *)
Lemma indices_spec fuel bound n key :
  0 < n → 0 ≤ key → bound + n ≤ INT_MAX → bound - key ≤ Z.of_nat fuel →
  ∀ j, j ∈ indices fuel bound n key ↔ key ≤ j < bound ∧ (j - key) mod n = 0.
Proof.
  revert key. induction fuel as [|fuel IH]; intros key Hn Hk Hb Hf j; simpl.
  { split; [by intros ?%not_elem_of_nil|lia]. }
  case_decide as Hlt; [|split; [by intros ?%not_elem_of_nil|lia]].
  rewrite i32_small by (unfold INT_MIN; lia). rewrite elem_of_cons, IH by lia.
  assert ((j - (key + n)) mod n = (j - key) mod n) as ->.
  { replace (j - (key + n)) with (j - key + (-1) * n) by lia. by rewrite Z.mod_add by lia. }
  split.
  - intros [->|[? ?]]; [|lia]. split; [lia|]. by rewrite Z.sub_diag, Z.mod_0_l by lia.
  - intros [Hj Hm]. destruct (decide (j = key)) as [->|Hne]; [by left|]. right. split; [|done].
    assert (n ≤ j - key); [|lia]. apply (Z.mod_divide (j - key) n ltac:(lia)) in Hm as [q Hq]. assert (0 < q) by (clear -Hn Hj Hq Hne; nia). clear -Hn Hq H; nia.
Qed.

Lemma indices_nodup fuel bound n key :
  0 < n → 0 ≤ key → bound + n ≤ INT_MAX → bound - key ≤ Z.of_nat fuel →
  NoDup (indices fuel bound n key).
Proof.
  revert key. induction fuel as [|fuel IH]; intros key Hn Hk Hb Hf; simpl; [constructor|].
  case_decide; [|constructor]. rewrite i32_small by (unfold INT_MIN; lia).
  constructor; [|apply IH; lia]. rewrite indices_spec by lia. lia.
Qed.

Lemma thread_indices_spec n tid j :
  0 < n ≤ INT_MAX - NUM_KEYS → (Z.of_nat tid < n) →
  j ∈ thread_indices n tid ↔ Z.of_nat tid ≤ j < NUM_KEYS ∧ j mod n = Z.of_nat tid.
Proof.
  intros Hn Ht. unfold thread_indices. rewrite indices_spec by (unfold NUM_KEYS in *; lia).
  apply and_iff_compat_l.
  split.
  - intros Hz. apply (Z.mod_divide (j - Z.of_nat tid) n ltac:(lia)) in Hz as [q Hq].
    assert (j = Z.of_nat tid + q * n) as -> by lia.
    rewrite Z.mod_add, Z.mod_small; lia.
  - intros Hz. rewrite <-Hz.
    rewrite Zminus_mod_idemp_r, Z.sub_diag. by rewrite Z.mod_0_l by lia.
Qed.

(** the threads' index sequences deal out the keys: every index below
    [NUM_KEYS] is visited by exactly one thread, once - the one whose number is
    the remainder -, and no index outside the array is read. *)
Lemma indices_partition n :
  (0 < n)%nat → Z.of_nat n ≤ INT_MAX - NUM_KEYS →
  concat (thread_indices (Z.of_nat n) <$> seq 0 n) ≡ₚ seqZ 0 NUM_KEYS.
Proof.
  intros Hn Hmax.
  assert (∀ m, (m ≤ n)%nat →
    NoDup (concat (thread_indices (Z.of_nat n) <$> seq 0 m)) ∧
    ∀ j, j ∈ concat (thread_indices (Z.of_nat n) <$> seq 0 m) ↔
         0 ≤ j < NUM_KEYS ∧ j mod Z.of_nat n < Z.of_nat m) as Hm.
  { induction m as [|m IH]; intros Hle.
    - split; [constructor|]. intros j. simpl. pose proof (Z.mod_pos_bound j (Z.of_nat n)).
      split; [by intros ?%not_elem_of_nil|lia].
    - destruct IH as [Hnd Hin]; [lia|]. rewrite seq_S, fmap_app, concat_app. simpl.
      rewrite app_nil_r.
      assert (∀ j, j ∈ thread_indices (Z.of_nat n) m ↔
                   0 ≤ j < NUM_KEYS ∧ j mod Z.of_nat n = Z.of_nat m) as Hlast.
      { intros j. rewrite thread_indices_spec by lia.
        split; intros [Hj Hr]; (split; [|done]); [lia|].
        pose proof (Z.mod_le j (Z.of_nat n)). lia. }
      split.
      + apply list.NoDup_app. split; [done|]. split.
        * intros j Hj1%Hin Hj2%Hlast. lia.
        * apply indices_nodup; unfold NUM_KEYS in *; lia.
      + intros j. rewrite elem_of_app, Hin, Hlast. lia. }
  destruct (Hm n) as [Hnd Hin]; [done|]. apply NoDup_Permutation; [done|apply NoDup_seqZ|].
  intros j. rewrite Hin, elem_of_seqZ. pose proof (Z.mod_pos_bound j (Z.of_nat n)). lia.
Qed.

(** ** Retrieval *)

Section guarded.
Context (d : discipline) (progs : list (list Z)).

Lemma retrieve_spec Ls s k :
  hinv d progs Ls s → 0 ≤ k → retrieve s k ≠ None ↔ ∃ v, (k, v) ∈ (concat Ls).*2.
Proof.
  intros Hi Hk. destruct (hi_len _ _ _ _ Hi) as [HlL _]. pose proof (bucket_range k Hk) as Hlt.
  destruct (lookup_lt_is_Some_2 Ls (bucket k)) as [L HL]; [lia|].
  destruct (hi_chain _ _ _ _ Hi _ L HL) as (o & Ho & Hc & _).
  unfold retrieve. rewrite Ho. change (mjoin (Some o)) with o.
  rewrite (walk_chain _ _ L) by (done || pose proof (chain_length _ _ _ _ _ _ Hi HL); lia).
  assert (∀ x : loc * (Z * Z), x ∈ concat Ls → x.2.1 = k → x ∈ L) as Hin.
  { intros x (M & HM & Hx)%list_elem_of_In%in_concat Hkx.
    apply list_elem_of_In in HM, Hx. apply list_elem_of_lookup in HM as [i HM].
    destruct (hi_chain _ _ _ _ Hi i M HM) as (_ & _ & _ & Hb).
    rewrite list.Forall_forall in Hb. specialize (Hb x Hx). rewrite Hkx in Hb. congruence. }
  split.
  - intros Hne. destruct (list_find _ L) as [[j x]|] eqn:Hf; [|done].
    apply list_find_Some in Hf as (Hx & Hkx & _). exists x.2.2.
    apply list_elem_of_fmap. exists x. split; [destruct x as [? []]; simpl in *; by subst|].
    eapply elem_of_concat_lookup; [done|]. by eapply list_elem_of_lookup_2.
  - intros (v & (x & Hxv & Hx)%list_elem_of_fmap) Hno.
    assert (x.2.1 = k) as Hkx by by rewrite <-Hxv.
    apply fmap_None, fmap_None, list_find_None in Hno. rewrite list.Forall_forall in Hno.
    by apply (Hno x (Hin x Hx Hkx)).
Qed.

Lemma joined_pending s : joined s → pending_pairs (threads s) = [].
Proof.
  intros [_ Hj]. unfold pending_pairs, all_pairs.
  assert (∀ n, concat (imap (λ i, tag (n + i)) (pending <$> threads s)) = []) as Hn; [|apply (Hn 0%nat)].
  induction Hj as [|th ths [Ht Hp] Hj IH]; intros n; [done|]. simpl.
  unfold pending at 1. rewrite Hp, Ht. simpl. rewrite <-(IH (S n)).
  f_equal. apply imap_ext. intros. simpl. f_equal. lia.
Qed.

(** A key of some program is among the pairs. *)
Lemma all_pairs_key n qs t ks k :
  qs !! t = Some ks → k ∈ ks → (k, Z.of_nat (n + t)) ∈ concat (imap (λ i, tag (n + i)) qs).
Proof.
  revert n t. induction qs as [|q qs IH]; intros n [|t] Hq Hk; simplify_eq/=; rewrite elem_of_app.
  - left. unfold tag. rewrite Nat.add_0_r. apply list_elem_of_fmap. by exists k.
  - right. replace (n + S t)%nat with (S n + t)%nat by lia.
    assert (imap ((λ i, tag (n + i)) ∘ S) qs = imap (λ i, tag (S n + i)) qs) as ->; [|by apply IH].
    apply imap_ext. intros. simpl. f_equal. lia.
Qed.

(** ** The phase ends *)

Definition pc_left (p : pc) : nat :=
  match p with
  | At_malloc => 7 | At_lock _ _ => 6 | At_link _ _ => 5 | At_key _ _ => 4 | At_val _ _ => 3
  | At_head _ _ => 2 | At_unlock _ _ => 1
  end.

(** The steps a thread has left, and the whole program. *)
Definition steps_left (th : thread) : nat :=
  match todo th with
  | [] => 0
  | _ :: ks => 7 * length ks + pc_left (at_pc th)
  end.

Definition all_steps (s : hstate) : nat :=
  sum_list (steps_left <$> threads s) + (if exited s then 0 else 1).

Lemma sum_list_insert (f : thread → nat) ths t th th' :
  ths !! t = Some th → (sum_list (f <$> <[t := th']> ths) + f th = sum_list (f <$> ths) + f th')%nat.
Proof.
  revert t. induction ths as [|q ths IH]; intros [|t] Ht; simplify_eq/=; [lia|].
  specialize (IH t Ht). lia.
Qed.

Lemma all_steps_thread s s' t th th' :
  threads s !! t = Some th → threads s' = <[t := th']> (threads s) → exited s' = exited s →
  (steps_left th = S (steps_left th'))%nat → (all_steps s' < all_steps s)%nat.
Proof.
  intros Ht Hths Hex Hs. unfold all_steps. rewrite Hths, Hex.
  pose proof (sum_list_insert steps_left (threads s) t th th' Ht). lia.
Qed.

Lemma hstep_counts Ls s s' :
  hinv d progs Ls s → hstep d s s' → (all_steps s' < all_steps s)%nat.
Proof.
  intros Hi Hst.
  assert (∀ t th, threads s !! t = Some th → at_pc th ≠ At_malloc → ∃ k ks, todo th = k :: ks) as Htodo.
  { intros t th Ht Hp. destruct (hi_thread _ _ _ _ Hi t th Ht) as [_ Hok].
    destruct (at_pc th); naive_solver. }
  destruct Hst as [s t k ks e Hex Ht He|s t k ks Hex Ht|s t ks i e s1 Hex Ht Hl|s t ks i e o Hex Ht Ho
                  |s t k ks i e Hex Ht|s t ks i e Hex Ht|s t ks i e Hex Ht|s t ks i e Hex Ht];
    try (destruct (Htodo _ _ Ht) as (k' & ks' & E); [done|]; simpl in E; simplify_eq).
  - eapply all_steps_thread; [done..|]. unfold steps_left; simpl; lia.
  - unfold all_steps. simpl. rewrite Hex. lia.
  - assert (threads s1 = threads s ∧ exited s1 = exited s) as [Hths Hexs].
    { unfold take_lock in Hl. destruct (d i); [destruct (owner s !! _)|]; by simplify_eq. }
    eapply all_steps_thread; [done|simpl; by rewrite Hths|done|]. unfold steps_left; simpl; lia.
  - eapply all_steps_thread; [done..|]. unfold steps_left; simpl; lia.
  - eapply all_steps_thread; [done..|]. unfold steps_left; simpl; lia.
  - eapply all_steps_thread; [done..|]. unfold steps_left; simpl; lia.
  - eapply all_steps_thread; [done..|]. unfold steps_left; simpl; lia.
  - eapply all_steps_thread; [done|unfold drop_lock; by destruct (d i)..|].
    unfold steps_left; destruct ks'; simpl; lia.
Qed.

(** A lock is held by a thread inside a bucket of that lock. *)
Definition owners_ok (s : hstate) : Prop :=
  ∀ l t, owner s !! l = Some t →
    ∃ th i, threads s !! t = Some th ∧ inside (at_pc th) = Some i ∧ d i = Some l.

Lemma owners_keep s s' t th th' :
  owners_ok s → threads s !! t = Some th → threads s' = <[t := th']> (threads s) →
  owner s' = owner s → inside (at_pc th') = inside (at_pc th) → owners_ok s'.
Proof.
  intros Ho Ht Hths Hown Hin l t' Hl. rewrite Hown in Hl. destruct (Ho l t' Hl) as (th2 & i & Ht2 & Hi & Hd).
  rewrite Hths. destruct (decide (t' = t)) as [->|Hne].
  - simplify_eq. exists th', i. rewrite list_lookup_insert_eq by by eapply lookup_lt_Some.
    by rewrite Hin.
  - exists th2, i. by rewrite list_lookup_insert_ne.
Qed.

Lemma owners_step s s' : owners_ok s → hstep d s s' → owners_ok s'.
Proof.
  intros Ho Hst.
  destruct Hst as [s t k ks e Hex Ht He|s t k ks Hex Ht|s t ks i e s1 Hex Ht Hl|s t ks i e o Hex Ht Hto
                  |s t k ks i e Hex Ht|s t ks i e Hex Ht|s t ks i e Hex Ht|s t ks i e Hex Ht];
    try (by eapply owners_keep).
  - exact Ho.
  - pose proof (lookup_lt_Some _ _ _ Ht) as Hlt. unfold take_lock in Hl.
    destruct (d i) as [l|] eqn:Hdi; [destruct (owner s !! l) eqn:Hol; [done|]|]; injection Hl as <-;
      intros l' t'; simpl.
    + rewrite lookup_insert_Some. intros [[<- <-]|[Hne Hl']].
      * eexists _, i. rewrite list_lookup_insert_eq by done. done.
      * destruct (Ho l' t' Hl') as (th2 & i2 & Ht2 & Hi2 & Hd2).
        destruct (decide (t' = t)) as [->|Hnt]; [by simplify_eq|].
        exists th2, i2. by rewrite list_lookup_insert_ne.
    + intros Hl'. destruct (Ho l' t' Hl') as (th2 & i2 & Ht2 & Hi2 & Hd2).
      destruct (decide (t' = t)) as [->|Hnt]; [by simplify_eq|].
      exists th2, i2. by rewrite list_lookup_insert_ne.
  - unfold drop_lock. destruct (d i) as [l|] eqn:Hdi; intros l' t'; simpl.
    + rewrite lookup_delete_Some. intros [Hne Hl'].
      destruct (Ho l' t' Hl') as (th2 & i2 & Ht2 & Hi2 & Hd2).
      destruct (decide (t' = t)) as [->|Hnt]; [simplify_eq/=; congruence|].
      exists th2, i2. by rewrite list_lookup_insert_ne.
    + intros Hl'. destruct (Ho l' t' Hl') as (th2 & i2 & Ht2 & Hi2 & Hd2).
      destruct (decide (t' = t)) as [->|Hnt]; [simplify_eq/=; congruence|].
      exists th2, i2. by rewrite list_lookup_insert_ne.
Qed.

(** A thread inside its critical section, or without work on the lock, can go
    on. *)
Lemma thread_can_step Ls s t th :
  hinv d progs Ls s → exited s = false → threads s !! t = Some th → todo th ≠ [] →
  (∀ i e, at_pc th = At_lock i e → ∃ s', take_lock d t i s = Some s') →
  ∃ s', hstep d s s' ∧ exited s' = false.
Proof.
  intros Hi Hex Ht Hne Hl. destruct (hi_thread _ _ _ _ Hi t th Ht) as [_ Hok].
  destruct th as [ks p]. simpl in *.
  destruct p as [|i e|i e|i e|i e|i e|i e]; simpl in Hok.
  - destruct ks as [|k ks]; [done|]. eexists. split.
    + apply (H_malloc d s t k ks (fresh (dom (heap s)))); [done..|].
      apply not_elem_of_dom. apply is_fresh.
    + done.
  - destruct (Hl i e eq_refl) as [s' Hs']. eexists. split; [by apply (H_lock d s t ks i e s')|].
    unfold take_lock in Hs'. destruct (d i); [destruct (owner s !! _)|]; by simplify_eq.
  - destruct Hok as (k & ks' & x & -> & Hb & Hx).
    assert (0 ≤ k) as Hk by (apply (hi_nonneg _ _ _ _ Hi t _ k Ht); left).
    pose proof (bucket_range k Hk) as Hlt. destruct (hi_len _ _ _ _ Hi) as [_ Hlen].
    destruct (lookup_lt_is_Some_2 (table s) i) as [o Ho]; [lia|].
    eexists. by split; [apply (H_link d s t (k :: ks') i e o)|].
  - destruct Hok as (k & ks' & x & -> & _). eexists. by split; [apply (H_key d s t k ks' i e)|].
  - eexists. by split; [apply (H_val d s t ks i e)|].
  - eexists. by split; [apply (H_head d s t ks i e)|].
  - eexists. split; [by apply (H_unlock d s t ks i e)|]. unfold drop_lock. by destruct (d i).
Qed.

(** Somebody can always go on, until all are done. *)
Lemma progress Ls s :
  hinv d progs Ls s → owners_ok s → exited s = false →
  joined s ∨ ∃ s', hstep d s s' ∧ exited s' = false.
Proof.
  intros Hi Ho Hex.
  destruct (decide (Exists (λ th, todo th ≠ []) (threads s))) as [He|He].
  - right. apply list.Exists_exists in He as (th & Hin & Hne).
    apply list_elem_of_lookup in Hin as [t Ht].
    assert ((∀ i e, at_pc th = At_lock i e → ∃ s', take_lock d t i s = Some s') ∨
            ∃ t' th' i, threads s !! t' = Some th' ∧ inside (at_pc th') = Some i) as [Hl|Hl].
    { destruct (at_pc th) as [|i e| | | | |] eqn:Hp; try by left.
      unfold take_lock. destruct (d i) as [l|] eqn:Hdi.
      - destruct (owner s !! l) as [t'|] eqn:Hlo.
        + right. destruct (Ho l t' Hlo) as (th' & i' & ? & ? & _). eauto.
        + left. intros i' e' E. simplify_eq. rewrite Hdi, Hlo. eauto.
      - left. intros i' e' E. simplify_eq. rewrite Hdi. eauto. }
    + by eapply (thread_can_step Ls s t th).
    + destruct Hl as (t' & th' & i & Ht' & Hin). eapply (thread_can_step Ls s t' th'); [done..| |].
      * destruct (hi_thread _ _ _ _ Hi t' th' Ht') as [_ Hok].
        destruct (at_pc th'); simpl in Hin; try done; deex; congruence.
      * intros i' e' E. by rewrite E in Hin.
  - left. split; [done|]. apply list.Forall_lookup. intros t th Ht.
    assert (todo th = []) as E.
    { destruct (decide (todo th = [])) as [|Hn]; [done|]. exfalso. apply He.
      apply list.Exists_exists. exists th. split; [by eapply list_elem_of_lookup_2|done]. }
    split; [done|]. destruct (hi_thread _ _ _ _ Hi t th Ht) as [_ Hok].
    rewrite E in Hok. destruct (at_pc th); naive_solver.
Qed.

Lemma can_join Ls s :
  guarded d → hinv d progs Ls s → owners_ok s → exited s = false →
  ∃ s', rtc (hstep d) s s' ∧ joined s'.
Proof.
  intros Hd. remember (all_steps s) as n eqn:Hn. revert Ls s Hn.
  induction (lt_wf n) as [n _ IH]. intros Ls s Hn Hi Ho Hex.
  destruct (progress Ls s Hi Ho Hex) as [Hj|(s1 & Hst & Hex1)]; [by exists s|].
  destruct (hstep_inv d progs Ls s s1 Hd Hi Hst) as (Ls1 & Hi1 & _).
  destruct (IH (all_steps s1)) with (Ls := Ls1) (s := s1) as (s2 & Hr & Hj); try done.
  - rewrite Hn. by apply (hstep_counts Ls).
  - by eapply owners_step.
  - exists s2. split; [by eapply rtc_l|done].
Qed.

Lemma owners_reachable s : rtc (hstep d) (initial progs) s → owners_ok s.
Proof.
  apply (rtc_preserves (hstep d) owners_ok); [apply owners_step|].
  intros l t. simpl. by rewrite lookup_empty.
Qed.

End guarded.

(** ** The programs with locks *)

Lemma mutex_guarded : guarded mutex_per_bucket.
Proof. intros i _. by exists i. Qed.

Lemma spin_guarded : guarded one_spinlock.
Proof. intros i _. by exists 0%nat. Qed.

Lemma foldl_lost s (keys : Z → Z) l lost :
  (∀ i, i ∈ l → retrieve s (keys i) ≠ None) →
  foldl (λ lost i, if decide (retrieve s (keys i) = None) then lost + 1 else lost) lost l = lost.
Proof.
  intros Hl. induction l as [|i l IH]; [done|]. simpl. rewrite decide_False by (apply Hl; by left).
  apply IH. intros j Hj. apply Hl. by right.
Qed.

Lemma foldl_zero (g : nat → Z) l n : (∀ t, t ∈ l → g t = 0) → foldl (λ n t, n + g t) n l = n.
Proof.
  intros Hg. revert n. induction l as [|t l IH]; intros n; simpl; [done|].
  rewrite (Hg t) by by left. rewrite Z.add_0_r. apply IH. intros u Hu. apply Hg. by right.
Qed.

Lemma lookup_all_progs keys nt t :
  (t < nt)%nat → all_progs keys nt !! t = Some (put_phase keys (Z.of_nat nt) t).
Proof.
  intros Ht. unfold all_progs. rewrite list_lookup_fmap, lookup_seq_lt by done. done.
Qed.

Lemma nonneg_progs keys nt :
  (∀ i, 0 ≤ keys i) → Forall (Forall (λ k, 0 ≤ k)) (all_progs keys nt).
Proof.
  intros Hkeys. unfold all_progs, put_phase. apply list.Forall_fmap, list.Forall_true. intros t.
  apply list.Forall_fmap, list.Forall_true. intros i. apply Hkeys.
Qed.

(** What a thread of the get phase counts once the table is complete. *)
Lemma get_phase_zero d keys nt s t :
  guarded d → (∀ i, 0 ≤ keys i) →
  rtc (hstep d) (initial (all_progs keys nt)) s → joined s → (t < nt)%nat →
  get_phase s keys (Z.of_nat nt) t = 0.
Proof.
  intros Hd Hkeys Hs Hj Ht.
  destruct (hreachable_inv d (all_progs keys nt) s Hd (nonneg_progs keys nt Hkeys) Hs) as [Ls Hi].
  pose proof (hi_pairs _ _ _ _ Hi) as Hp. rewrite (joined_pending _ Hj), app_nil_r in Hp.
  apply foldl_lost. intros i Hin. rewrite (retrieve_spec _ _ _ _ _ Hi) by done.
  exists (Z.of_nat t). rewrite Hp. apply (all_pairs_key 0 _ t (put_phase keys (Z.of_nat nt) t)).
  - by apply lookup_all_progs.
  - unfold put_phase. apply list_elem_of_fmap. by exists i.
Qed.

Lemma locked_table_total d keys nt s :
  guarded d → (∀ i, 0 ≤ keys i) →
  rtc (hstep d) (initial (all_progs keys nt)) s → joined s → total_lost s keys nt = 0.
Proof.
  intros Hd Hkeys Hs Hj. unfold total_lost. apply foldl_zero. intros t Ht%elem_of_seq.
  apply (get_phase_zero d); [done..|lia].
Qed.

(** C10: with a lock for every bucket - the mutexes and the spin lock are two
    instances -, whatever the interleaving of the threads' memory accesses, once
    all the threads have been joined no key is lost: the total the main thread
    prints is 0, and every bucket is a chain of entries that together hold each
    inserted pair exactly once. *)
Theorem locked_table_loses_nothing d keys nt s :
  guarded d → (∀ i, 0 ≤ keys i) →
  rtc (hstep d) (initial (all_progs keys nt)) s → joined s →
  total_lost s keys nt = 0 ∧
  ∃ Ls, length Ls = Z.to_nat NUM_BUCKETS ∧
    (∀ i L, Ls !! i = Some L → ∃ o, table s !! i = Some o ∧ chain (heap s) o L ∧
       Forall (λ x, bucket x.2.1 = i) L) ∧
    (concat Ls).*2 ≡ₚ all_pairs (all_progs keys nt).
Proof.
  intros Hd Hkeys Hs Hj.
  split.
  - by apply (locked_table_total d).
  - destruct (hreachable_inv d (all_progs keys nt) s Hd (nonneg_progs keys nt Hkeys) Hs) as [Ls Hi].
    pose proof (hi_pairs _ _ _ _ Hi) as Hp. rewrite (joined_pending _ Hj), app_nil_r in Hp.
    exists Ls. split; [apply Hi|]. split; [|done]. intros i L HL. by apply (hi_chain _ _ _ _ Hi).
Qed.

(** C30: with a lock for every bucket the put phase ends: no schedule deadlocks
    - as long as the program has not exited and some thread is not done, some
    thread can make its next access -, from every such state all the threads can
    be joined, and every schedule has at most seven accesses for each key, and
    one exit. *)
Theorem put_phase_ends d progs s :
  guarded d → Forall (Forall (λ k, 0 ≤ k)) progs → rtc (hstep d) (initial progs) s →
  (exited s = false → (joined s ∨ ∃ s', hstep d s s') ∧ ∃ s', rtc (hstep d) s s' ∧ joined s') ∧
  ∀ n s', nsteps (hstep d) n s s' → (n ≤ all_steps s)%nat.
Proof.
  intros Hd Hnn Hs. destruct (hreachable_inv d progs s Hd Hnn Hs) as [Ls Hi]. split.
  - intros Hex. pose proof (owners_reachable d progs s Hs) as Ho. split.
    + destruct (progress d progs Ls s Hi Ho Hex) as [|(s' & ? & _)]; eauto.
    + by eapply can_join.
  - intros n s' Hn. revert Ls s Hs Hi Hn.
    induction n as [|n IH]; intros Ls s Hs Hi Hn; [lia|].
    inversion Hn as [|? ? s1 ? Hst Hrest]; subst.
    destruct (hstep_inv d progs Ls s s1 Hd Hi Hst) as (Ls1 & Hi1 & _).
    pose proof (hstep_counts d progs Ls s s1 Hi Hst).
    assert (n ≤ all_steps s1)%nat; [|lia].
    apply (IH Ls1); [by eapply rtc_r|done|done].
Qed.

(** ** The program without locks *)

(** Two threads insert one key each, into the same bucket. The second links
    its entry between the first's reading of the head and its writing. *)
Definition race (k1 k2 : Z) (n : nat) : hstate :=
  let i := bucket k1 in
  let tab0 := replicate (Z.to_nat NUM_BUCKETS) None in
  let h1 := <[0%nat := raw_entry]> (∅ : gmap loc bucket_entry) in
  let h2 := <[1%nat := raw_entry]> h1 in
  let l1 := alter (λ b, Entry (key b) (val b) None) 0%nat h2 in
  let l2 := alter (λ b, Entry (key b) (val b) None) 1%nat l1 in
  let k1s := alter (λ b, Entry k1 (val b) (next b)) 0%nat l2 in
  let v1 := alter (λ b, Entry (key b) 0 (next b)) 0%nat k1s in
  let k2s := alter (λ b, Entry k2 (val b) (next b)) 1%nat v1 in
  let v2 := alter (λ b, Entry (key b) 1 (next b)) 1%nat k2s in
  let st h tab a b := HState h tab ∅ [a; b] false in
  match n with
  | 0%nat => st ∅ tab0 (Thread [k1] At_malloc) (Thread [k2] At_malloc)
  | 1%nat => st h1 tab0 (Thread [k1] (At_lock i 0%nat)) (Thread [k2] At_malloc)
  | 2%nat => st h2 tab0 (Thread [k1] (At_lock i 0%nat)) (Thread [k2] (At_lock i 1%nat))
  | 3%nat => st h2 tab0 (Thread [k1] (At_link i 0%nat)) (Thread [k2] (At_lock i 1%nat))
  | 4%nat => st h2 tab0 (Thread [k1] (At_link i 0%nat)) (Thread [k2] (At_link i 1%nat))
  | 5%nat => st l1 tab0 (Thread [k1] (At_key i 0%nat)) (Thread [k2] (At_link i 1%nat))
  | 6%nat => st l2 tab0 (Thread [k1] (At_key i 0%nat)) (Thread [k2] (At_key i 1%nat))
  | 7%nat => st k1s tab0 (Thread [k1] (At_val i 0%nat)) (Thread [k2] (At_key i 1%nat))
  | 8%nat => st v1 tab0 (Thread [k1] (At_head i 0%nat)) (Thread [k2] (At_key i 1%nat))
  | 9%nat => st k2s tab0 (Thread [k1] (At_head i 0%nat)) (Thread [k2] (At_val i 1%nat))
  | 10%nat => st v2 tab0 (Thread [k1] (At_head i 0%nat)) (Thread [k2] (At_head i 1%nat))
  | 11%nat => st v2 (<[i := Some 0%nat]> tab0) (Thread [k1] (At_unlock i 0%nat)) (Thread [k2] (At_head i 1%nat))
  | 12%nat => st v2 (<[i := Some 1%nat]> (<[i := Some 0%nat]> tab0))
                (Thread [k1] (At_unlock i 0%nat)) (Thread [k2] (At_unlock i 1%nat))
  | 13%nat => st v2 (<[i := Some 1%nat]> (<[i := Some 0%nat]> tab0))
                (Thread [] At_malloc) (Thread [k2] (At_unlock i 1%nat))
  | _ => st v2 (<[i := Some 1%nat]> (<[i := Some 0%nat]> tab0))
                (Thread [] At_malloc) (Thread [] At_malloc)
  end.

Lemma race_steps k1 k2 n :
  0 ≤ k1 → bucket k1 = bucket k2 → (n < 14)%nat → hashtable_step (race k1 k2 n) (race k1 k2 (S n)).
Proof.
  intros Hk Hb Hn. pose proof (bucket_range k1 Hk) as Hlt.
  assert (∀ j, j = bucket k1 →
    replicate (Z.to_nat NUM_BUCKETS) (@None loc) !! j = Some None) as Hr
    by (intros j ->; by apply lookup_replicate_2).
  destruct n as [|[|[|[|[|[|[|[|[|[|[|[|[|[|n]]]]]]]]]]]]]]; try lia.
  - exact (H_malloc no_locks (race k1 k2 0) 0 k1 [] 0%nat eq_refl eq_refl eq_refl).
  - pose proof (H_malloc no_locks (race k1 k2 1) 1 k2 [] 1%nat eq_refl eq_refl eq_refl) as Hst.
    by rewrite <-Hb in Hst.
  - exact (H_lock no_locks (race k1 k2 2) 0 [k1] (bucket k1) 0%nat _ eq_refl eq_refl eq_refl).
  - exact (H_lock no_locks (race k1 k2 3) 1 [k2] (bucket k1) 1%nat _ eq_refl eq_refl eq_refl).
  - exact (H_link no_locks (race k1 k2 4) 0 [k1] (bucket k1) 0%nat None eq_refl eq_refl (Hr _ eq_refl)).
  - exact (H_link no_locks (race k1 k2 5) 1 [k2] (bucket k1) 1%nat None eq_refl eq_refl (Hr _ eq_refl)).
  - exact (H_key no_locks (race k1 k2 6) 0 k1 [] (bucket k1) 0%nat eq_refl eq_refl).
  - exact (H_val no_locks (race k1 k2 7) 0 [k1] (bucket k1) 0%nat eq_refl eq_refl).
  - exact (H_key no_locks (race k1 k2 8) 1 k2 [] (bucket k1) 1%nat eq_refl eq_refl).
  - exact (H_val no_locks (race k1 k2 9) 1 [k2] (bucket k1) 1%nat eq_refl eq_refl).
  - exact (H_head no_locks (race k1 k2 10) 0 [k1] (bucket k1) 0%nat eq_refl eq_refl).
  - exact (H_head no_locks (race k1 k2 11) 1 [k2] (bucket k1) 1%nat eq_refl eq_refl).
  - exact (H_unlock no_locks (race k1 k2 12) 0 [k1] (bucket k1) 0%nat eq_refl eq_refl).
  - exact (H_unlock no_locks (race k1 k2 13) 1 [k2] (bucket k1) 1%nat eq_refl eq_refl).
Qed.

Lemma retrieve_head s k e x :
  mjoin (table s !! bucket k) = Some e → heap s !! e = Some x →
  retrieve s k = if decide (key x = k) then Some e else walk (size (heap s)) (heap s) k (next x).
Proof. intros Ht Hx. unfold retrieve. rewrite Ht. simpl. by rewrite Hx. Qed.

(** C39: without locks the program can lose a key: for any two different keys
    of one bucket there is a schedule of two threads that inserts both, ends
    normally, and leaves a table in which the first is not found. *)
Theorem unlocked_table_loses_a_key k1 k2 :
  0 ≤ k1 → k1 ≠ k2 → bucket k1 = bucket k2 →
  ∃ s, rtc hashtable_step (initial [[k1]; [k2]]) s ∧ joined s ∧
       retrieve s k1 = None ∧ retrieve s k2 ≠ None.
Proof.
  intros Hk Hne Hb. exists (race k1 k2 14).
  assert (∀ n, (n ≤ 14)%nat → rtc hashtable_step (race k1 k2 0) (race k1 k2 n)) as Hrun.
  { induction n as [|n IH]; intros Hn; [constructor|].
    eapply rtc_r; [apply IH; lia|]. apply race_steps; done || lia. }
  split; [apply (Hrun 14%nat); lia|]. split; [split; [done|by repeat constructor]|].
  pose proof (bucket_range k1 Hk) as Hlt.
  assert (mjoin (table (race k1 k2 14) !! bucket k1) = Some 1%nat) as Htab.
  { simpl. by rewrite list_lookup_insert_eq by (rewrite length_insert; exact Hlt). }
  assert (heap (race k1 k2 14) !! 1%nat = Some (Entry k2 1 None)) as Hh by reflexivity.
  assert (mjoin (table (race k1 k2 14) !! bucket k2) = Some 1%nat) as Htab2 by by rewrite <-Hb.
  rewrite (retrieve_head _ k1 _ _ Htab Hh), (retrieve_head _ k2 _ _ Htab2 Hh). cbn [key next].
  rewrite decide_False, decide_True by done. split; [|done]. by destruct (size _).
Qed.

(** ** At work *)

Lemma indices_partition_witness :
  concat (thread_indices 8 <$> seq 0 8) ≡ₚ seqZ 0 NUM_KEYS.
Proof. apply (indices_partition 8); [lia|unfold INT_MAX, NUM_KEYS; lia]. Defined.

(** Keys that fill the buckets unevenly. *)
Definition some_keys (i : Z) : Z := i * i.

Lemma some_keys_nonneg i : 0 ≤ some_keys i.
Proof. apply Z.square_nonneg. Qed.

(** The program with mutexes and four threads runs to its end. *)
Lemma four_threads_join :
  ∃ s, rtc mutex_step (initial (all_progs some_keys 4)) s ∧ joined s.
Proof.
  pose proof (nonneg_progs some_keys 4 some_keys_nonneg) as Hnn.
  eapply can_join; [apply mutex_guarded|by apply hinv_initial| |done].
  by apply (owners_reachable _ (all_progs some_keys 4)).
Qed.

Lemma locked_table_loses_nothing_witness :
  ∃ s, rtc mutex_step (initial (all_progs some_keys 4)) s ∧ joined s ∧ total_lost s some_keys 4 = 0.
Proof.
  destruct four_threads_join as (s & Hs & Hj). exists s. split; [exact Hs|]. split; [exact Hj|].
  apply (locked_table_loses_nothing mutex_per_bucket some_keys 4 s mutex_guarded some_keys_nonneg Hs Hj).
Defined.

Lemma put_phase_ends_witness :
  ∃ s', rtc spin_step (initial [[3; 8]; [13]]) s' ∧ joined s'.
Proof.
  destruct (put_phase_ends one_spinlock [[3; 8]; [13]] (initial [[3; 8]; [13]]) spin_guarded) as [He _].
  - by repeat constructor.
  - constructor.
  - apply He. reflexivity.
Defined.

Lemma unlocked_table_loses_a_key_witness :
  ∃ s, rtc hashtable_step (initial [[3]; [8]]) s ∧ joined s ∧ retrieve s 3 = None ∧ retrieve s 8 ≠ None.
Proof. apply (unlocked_table_loses_a_key 3 8); [lia|lia|reflexivity]. Defined.
