(* ===== verification/HashMain.v ===== *)
(** The main functions of hw4: the checks, the keys, the locks, the two phases
    and what the program prints - the same text in the three programs but for
    the initialisation of the locks -, and that the programs with locks retrieve
    every key and report it, if they have memory for the report. *)

From stdpp Require Import gmap list.
From S2P Require Import Prelude Hashtable HashConc HashProps.

(** What goes to the terminal; the seconds are left out. *)
Inductive line : Type :=
| PanicArgs (e : main_panic)
| PanicHandles             (* out of memory allocating thread handles *)
| PanicBucket              (* No memory to allocate bucket! *)
| InitFailed               (* mutex init has failed *)
| InsertedLine (n : Z)
| LostLine (tid : nat) (lost : Z)
| RetrievedLine (n total : Z).

(** How the process ends: with an exit status, or killed for a memory access
    through a null pointer. *)
Inductive ending : Type := Exits (status : Z) | Crashes.

Section main.
Context (atoi : list Z → Z).          (* the standard library's *)
Context (random : nat → Z).           (* the results of [random()] *)
Context (handles : bool).             (* whether [malloc] gives the thread handles *)
Context (lost_block : bool).          (* whether [malloc] gives [lost_keys], unchecked *)
Context (lock_init : nat → Z).        (* the results of the calls that initialise the locks *)

(** [keys[i] = random()], the array as a function of the index. *)
Definition random_keys (i : Z) : Z := i32 (random (Z.to_nat i)).

(** The loop over the locks, from lock [i]: whether all can be initialised. *)
Fixpoint init_locks (i n : nat) : bool :=
  match n with
  | O => true
  | S n' => if decide (lock_init i ≠ 0) then false else init_locks (S i) n'
  end.

(** Up to the creation of the threads: how many, or the line the program ends with. *)
Definition setup (n_locks : nat) (argv : list (list Z)) : nat + line :=
  match main_args atoi argv with
  | inr e => inr (PanicArgs e)
  | inl n =>
      if negb handles then inr PanicHandles
      else if negb (init_locks 0 n_locks) then inr InitFailed
      else inl (Z.to_nat n)
  end.

(** A run of [main]: how it ends and its output. The threads of the get phase
    only read, and print their lines in any order. Without memory for
    [lost_keys], the first turn of the loop over the threads - which waits for
    thread 0 - accesses the null pointer [&lost_keys[0]]: by then thread 0 has
    printed its line, and any others may have. *)
Inductive main_run (d : discipline) (n_locks : nat) (argv : list (list Z)) : ending → list line → Prop :=
| M_refused e :
    setup n_locks argv = inr e → main_run d n_locks argv (Exits 1) [e]
| M_no_memory n s :
    setup n_locks argv = inl n → rtc (hstep d) (initial (all_progs random_keys n)) s →
    exited s = true → main_run d n_locks argv (Exits 1) [PanicBucket]
| M_null n s order :
    setup n_locks argv = inl n → rtc (hstep d) (initial (all_progs random_keys n)) s → joined s →
    lost_block = false → 0%nat ∈ order → order ⊆+ seq 0 n →
    main_run d n_locks argv Crashes
      (InsertedLine NUM_KEYS ::
       ((λ tid, LostLine tid (get_phase s random_keys (Z.of_nat n) tid)) <$> order))
| M_done n s order :
    setup n_locks argv = inl n → rtc (hstep d) (initial (all_progs random_keys n)) s → joined s →
    lost_block = true → order ≡ₚ seq 0 n →
    main_run d n_locks argv (Exits 0)
      (InsertedLine NUM_KEYS ::
       ((λ tid, LostLine tid (get_phase s random_keys (Z.of_nat n) tid)) <$> order) ++
       [RetrievedLine (NUM_KEYS - total_lost s random_keys n) NUM_KEYS]).

(** The three programs. *)
Definition hashtable_main : list (list Z) → ending → list line → Prop := main_run no_locks 0.

Definition mutex_main : list (list Z) → ending → list line → Prop :=
  main_run mutex_per_bucket (Z.to_nat NUM_BUCKETS).

Definition spin_main : list (list Z) → ending → list line → Prop := main_run one_spinlock 1.

(** The output of a run that loses nothing. *)
Definition clean_output (n : nat) (out : list line) : Prop :=
  ∃ order, order ≡ₚ seq 0 n ∧
    out = InsertedLine NUM_KEYS :: ((λ tid, LostLine tid 0) <$> order) ++
          [RetrievedLine NUM_KEYS NUM_KEYS].

(** The output of a run that has lost nothing when it crashes. *)
Definition crash_output (n : nat) (out : list line) : Prop :=
  ∃ order, 0%nat ∈ order ∧ order ⊆+ seq 0 n ∧
    out = InsertedLine NUM_KEYS :: ((λ tid, LostLine tid 0) <$> order).

(** ** Lemmas *)

Hypothesis random_nonneg : ∀ i, 0 ≤ random i ≤ INT_MAX.

Lemma random_keys_nonneg i : 0 ≤ random_keys i.
Proof.
  unfold random_keys. pose proof (random_nonneg (Z.to_nat i)).
  rewrite i32_small; [lia|]. unfold INT_MIN. lia.
Qed.

Lemma init_locks_spec i n :
  init_locks i n = true ↔ ∀ j, (i ≤ j < i + n)%nat → lock_init j = 0.
Proof.
  revert i. induction n as [|n IH]; intros i; simpl; [by split; [intros _ j; lia|]|].
  case_decide as Hi.
  - split; [done|]. intros Hj. by rewrite Hj in Hi by lia.
  - rewrite IH. split; intros Hj j Hle; [|apply Hj; lia].
    destruct (decide (j = i)) as [->|]; [lia|]. apply Hj. lia.
Qed.

Lemma lost_by_nobody d n s t :
  guarded d → rtc (hstep d) (initial (all_progs random_keys n)) s → joined s → (t < n)%nat →
  get_phase s random_keys (Z.of_nat n) t = 0.
Proof. intros Hd Hs Hj Ht. apply (get_phase_zero d); [done|apply random_keys_nonneg|done..]. Qed.

Lemma setup_spec n_locks argv n :
  setup n_locks argv = inl n ↔
  (∃ name arg, argv = [name; arg] ∧ 0 < atoi arg ∧ n = Z.to_nat (atoi arg)) ∧
  handles = true ∧ ∀ j, (j < n_locks)%nat → lock_init j = 0.
Proof.
  assert ((∀ j, (j < n_locks)%nat → lock_init j = 0) ↔ init_locks 0 n_locks = true) as ->.
  { rewrite init_locks_spec. split; intros Hj j ?; apply Hj; lia. }
  unfold setup, main_args. destruct argv as [|name [|arg [|? ?]]]; try naive_solver.
  case_decide; [naive_solver lia|].
  destruct handles; simpl; [|naive_solver]. destruct (init_locks 0 n_locks); simpl; [|naive_solver].
  split; [intros [= <-]|intros ((? & ? & [= <- <-] & _ & ->) & _); done].
  split; [|done]. exists name, arg. split; [done|]. split; [lia|done].
Qed.

(** The lines of threads none of which has lost anything. *)
Lemma nothing_lost_lines n s order :
  (∀ t, (t < n)%nat → get_phase s random_keys (Z.of_nat n) t = 0) → order ⊆+ seq 0 n →
  (λ tid, LostLine tid (get_phase s random_keys (Z.of_nat n) tid)) <$> order =
  (λ tid, LostLine tid 0) <$> order.
Proof.
  intros Hg Ho. apply list_fmap_ext. intros i tid Ht. f_equal. apply Hg.
  assert (tid ∈ order) as Hin by by eapply list_elem_of_lookup_2.
  eapply elem_of_submseteq in Hin; [|exact Ho]. apply elem_of_seq in Hin. lia.
Qed.

Lemma nothing_lost_is_clean n s order :
  (∀ t, (t < n)%nat → get_phase s random_keys (Z.of_nat n) t = 0) → order ≡ₚ seq 0 n →
  clean_output n (InsertedLine NUM_KEYS ::
    ((λ tid, LostLine tid (get_phase s random_keys (Z.of_nat n) tid)) <$> order) ++
    [RetrievedLine (NUM_KEYS - total_lost s random_keys n) NUM_KEYS]).
Proof.
  intros Hg Ho. exists order. split; [done|].
  assert (total_lost s random_keys n = 0) as ->.
  { apply foldl_zero. intros t Ht%elem_of_seq. apply Hg. lia. }
  rewrite Z.sub_0_r, nothing_lost_lines; [done|done|by rewrite Ho].
Qed.

Lemma done_is_clean d n s order :
  guarded d → rtc (hstep d) (initial (all_progs random_keys n)) s → joined s → order ≡ₚ seq 0 n →
  clean_output n (InsertedLine NUM_KEYS ::
    ((λ tid, LostLine tid (get_phase s random_keys (Z.of_nat n) tid)) <$> order) ++
    [RetrievedLine (NUM_KEYS - total_lost s random_keys n) NUM_KEYS]).
Proof. intros Hd Hs Hj. apply nothing_lost_is_clean. intros t Ht. by apply (lost_by_nobody d). Qed.

Lemma null_is_crash d n s order :
  guarded d → rtc (hstep d) (initial (all_progs random_keys n)) s → joined s →
  0%nat ∈ order → order ⊆+ seq 0 n →
  crash_output n (InsertedLine NUM_KEYS ::
    ((λ tid, LostLine tid (get_phase s random_keys (Z.of_nat n) tid)) <$> order)).
Proof.
  intros Hd Hs Hj H0 Ho. exists order. do 2 (split; [done|]). f_equal.
  apply nothing_lost_lines; [|done]. intros t Ht. by apply (lost_by_nobody d).
Qed.

(** C26: a run of a program with locks, asked for at most INT_MAX - NUM_KEYS
    threads (with more of them the loops over the keys overflow), either is
    refused before the threads start - wrong arguments, no memory for the
    handles, a lock that cannot be initialised -, or ends when [malloc] has no
    block for an entry, or gets through the insertions and the retrievals with
    no thread reporting a lost key; and then, if [malloc] has given [lost_keys],
    it prints that all keys were retrieved, and if not, it is killed at the null
    pointer it has not checked, while it prints its report.  There is a run of
    the last kind, whichever it is, for every command line that is not refused. *)
Theorem locked_main_reports d n_locks argv :
  guarded d → (∀ name arg, argv = [name; arg] → atoi arg ≤ INT_MAX - NUM_KEYS) →
  (∀ e out, main_run d n_locks argv e out →
     match setup n_locks argv with
     | inr l => e = Exits 1 ∧ out = [l]
     | inl n =>
         (e = Exits 1 ∧ out = [PanicBucket]) ∨
         (lost_block = true ∧ e = Exits 0 ∧ clean_output n out) ∨
         (lost_block = false ∧ e = Crashes ∧ crash_output n out)
     end) ∧
  match setup n_locks argv with
  | inr l => main_run d n_locks argv (Exits 1) [l]
  | inl n => ∃ out,
      if lost_block then main_run d n_locks argv (Exits 0) out ∧ clean_output n out
      else main_run d n_locks argv Crashes out ∧ crash_output n out
  end.
Proof.
  intros Hd _. split.
  - intros e out Hr. destruct Hr as [l ->|n s -> Hs Hx|n s order -> Hs Hj Hb H0 Ho|n s order -> Hs Hj Hb Ho].
    + done.
    + by left.
    + right. right. do 2 (split; [done|]). by apply (null_is_crash d).
    + right. left. do 2 (split; [done|]). by apply (done_is_clean d).
  - destruct (setup n_locks argv) as [n|e] eqn:He; [|by apply M_refused].
    pose proof (nonneg_progs random_keys n random_keys_nonneg) as Hnn.
    destruct (can_join d (all_progs random_keys n) _ _ Hd (hinv_initial d _ Hnn)) as (s & Hs & Hj); [|done|].
    { by apply (owners_reachable d (all_progs random_keys n)). }
    assert (0%nat ∈ seq 0 n) as H0.
    { apply setup_spec in He as [(_ & arg & _ & Harg & ->) _]. apply elem_of_seq. lia. }
    destruct lost_block eqn:Hb; eexists.
    + split; [by eapply (M_done _ _ _ n s (seq 0 n))|]. by apply (done_is_clean d).
    + split; [by eapply (M_null _ _ _ n s (seq 0 n))|]. by apply (null_is_crash d).
Qed.

End main.

(** The program with mutexes, run with the argument 8. *)
Definition argument_of (arg : list Z) : Z := match arg with [d] => d - 48 | _ => 0 end.

Definition some_random (i : nat) : Z := Z.of_nat (i mod 7).

Lemma some_random_range i : 0 ≤ some_random i ≤ INT_MAX.
Proof. unfold some_random. pose proof (Nat.mod_upper_bound i 7). unfold INT_MAX. lia. Qed.

Lemma eight_threads name arg : [[]; [56]] = [name; arg] → argument_of arg ≤ INT_MAX - NUM_KEYS.
Proof. intros [= _ <-]. by vm_compute. Qed.

Lemma locked_main_reports_witness :
  (∃ out, mutex_main argument_of some_random true true (λ _, 0) [[]; [56]] (Exits 0) out ∧
     clean_output 8 out) ∧
  ∃ out, spin_main argument_of some_random true false (λ _, 0) [[]; [56]] Crashes out ∧
    crash_output 8 out.
Proof.
  split.
  - exact (proj2 (locked_main_reports argument_of some_random true true (λ _, 0) some_random_range
      mutex_per_bucket 5 [[]; [56]] mutex_guarded eight_threads)).
  - exact (proj2 (locked_main_reports argument_of some_random true false (λ _, 0) some_random_range
      one_spinlock 1 [[]; [56]] spin_guarded eight_threads)).
Defined.
