(* ===== verification/HashSeq.v ===== *)
(** The hash table of hw4 used by one thread at a time: [insert] and the two
    phases as whole functions of the three programs, the multimap they
    implement, and that they are runs of the interleaved model. *)

From stdpp Require Import gmap list.
From S2P Require Import Prelude Hashtable HashConc HashProps HashMain.

(** ** The functions *)

(** [exit(1)] *)
Definition exit_program (s : hstate) : hstate :=
  HState (heap s) (table s) (owner s) (threads s) true.

Definition set_heap (h : gmap loc bucket_entry) (s : hstate) : hstate :=
  HState h (table s) (owner s) (threads s) (exited s).

Section functions.
Context (malloc : gmap loc bucket_entry → option loc).

(** [insert(key, val)] by thread [t]; [None] when it waits for a lock that is
    not free. *)
Definition insert (d : discipline) (t : nat) (k v : Z) (s : hstate) : option hstate :=
  let i := bucket k in
  match malloc (heap s) with
  | None => Some (exit_program s)
  | Some e =>
      s ← take_lock d t i (set_heap (<[e := raw_entry]> (heap s)) s);
      o ← table s !! i;
      let s := store e (λ b, Entry (key b) (val b) o) s in
      let s := store e (λ b, Entry k (val b) (next b)) s in
      let s := store e (λ b, Entry (key b) v (next b)) s in
      Some (drop_lock d i (set_table i (Some e) s))
  end.

(** The loop of [put_phase] from index [key]; [None] also when [fuel]
    iterations are not enough. *)
Fixpoint put_loop (fuel : nat) (d : discipline) (keys : Z → Z) (num_threads : Z) (t : nat)
    (key : Z) (s : hstate) : option hstate :=
  match fuel with
  | O => None
  | S fuel' =>
      if decide (key < NUM_KEYS) then
        s ← insert d t (keys key) (i32 (Z.of_nat t)) s;
        if exited s then Some s
        else put_loop fuel' d keys num_threads t (i32 (key + num_threads)) s
      else Some s
  end.

Definition put_thread (d : discipline) (keys : Z → Z) (num_threads : Z) (t : nat) (s : hstate)
    : option hstate :=
  put_loop (S (Z.to_nat NUM_KEYS)) d keys num_threads t (i32 (Z.of_nat t)) s.

(** parallel_hashtable.c *)
Definition hashtable_insert : nat → Z → Z → hstate → option hstate := insert no_locks.

Definition hashtable_put_phase : (Z → Z) → Z → nat → hstate → option hstate := put_thread no_locks.

(** parallel_mutex.c *)
Definition mutex_insert : nat → Z → Z → hstate → option hstate := insert mutex_per_bucket.

Definition mutex_put_phase : (Z → Z) → Z → nat → hstate → option hstate := put_thread mutex_per_bucket.

(** parallel_spin.c *)
Definition spin_insert : nat → Z → Z → hstate → option hstate := insert one_spinlock.

Definition spin_put_phase : (Z → Z) → Z → nat → hstate → option hstate := put_thread one_spinlock.

End functions.

(** [retrieve] and [get_phase] are the same text in the three programs. *)
Definition mutex_retrieve : hstate → Z → option loc := retrieve.

Definition mutex_get_phase : hstate → (Z → Z) → Z → nat → Z := get_phase.

Definition spin_retrieve : hstate → Z → option loc := retrieve.

Definition spin_get_phase : hstate → (Z → Z) → Z → nat → Z := get_phase.

(** ** The multimap *)

(** Every value inserted under a key, the latest first. *)
Notation multimap := (gmap Z (list Z)).

Definition map_insert (k v : Z) (m : multimap) : multimap := <[k := v :: m !!! k]> m.

Definition map_retrieve (k : Z) (m : multimap) : option Z := head (m !!! k).

(** The values of a key in a chain. *)
Definition values (k : Z) (L : list (loc * (Z * Z))) : list Z :=
  (λ x, x.2.2) <$> filter (λ x, x.2.1 = k) L.

(** The chains of the table hold the multimap. *)
Record holds_map (s : hstate) (m : multimap) : Prop := {
  hm_len : length (table s) = Z.to_nat NUM_BUCKETS;
  hm_chain : ∀ i o, table s !! i = Some o →
    ∃ L, chain (heap s) o L ∧ NoDup L.*1 ∧
         ∀ k, 0 ≤ k → bucket k = i → m !!! k = values k L
}.

(** [malloc] gives a block that is not in use, or null. *)
Definition gives_fresh (malloc : gmap loc bucket_entry → option loc) : Prop :=
  ∀ h e, malloc h = Some e → h !! e = None.

(** The key and value of the entry [retrieve] finds. *)
Definition found (s : hstate) (k : Z) : option (Z * Z) :=
  e ← retrieve s k; b ← heap s !! e; Some (key b, val b).

(** ** Lemmas *)

Lemma chain_entry h o L e kv : chain h o L → (e, kv) ∈ L → ∃ b, h !! e = Some b ∧ kv = (key b, val b).
Proof.
  induction 1 as [|e' x l Hx Hc IH]; [by intros ?%not_elem_of_nil|].
  intros [[= -> ->]|]%elem_of_cons; eauto.
Qed.

Lemma values_head k L :
  head (values k L) = (λ x, x.2.2.2) <$> list_find (λ x : loc * (Z * Z), x.2.1 = k) L.
Proof.
  unfold values. induction L as [|x L IH]; [done|]. rewrite filter_cons. simpl.
  destruct (decide (x.2.1 = k)); [done|]. rewrite IH. by destruct (list_find _ L) as [[]|].
Qed.

(** [retrieve] is the lookup of the multimap. *)
Lemma found_spec s m k :
  holds_map s m → 0 ≤ k → found s k = (λ v, (k, v)) <$> map_retrieve k m.
Proof.
  intros Hm Hk. pose proof (bucket_range k Hk) as Hlt.
  destruct (lookup_lt_is_Some_2 (table s) (bucket k)) as [o Ho]; [by rewrite (hm_len _ _ Hm)|].
  destruct (hm_chain _ _ Hm _ _ Ho) as (L & Hc & Hnd & Hv).
  unfold found, retrieve, map_retrieve. rewrite Ho. change (mjoin (Some o)) with o.
  rewrite (walk_chain _ _ L) by (done || pose proof (chain_fits _ _ _ Hc Hnd); lia).
  rewrite (Hv k), values_head by done.
  destruct (list_find _ L) as [[j [e [k' v]]]|] eqn:Hf; [|done]. simpl.
  apply list_find_Some in Hf as (Hj & Hk' & _). simpl in Hk'. subst k'.
  destruct (chain_entry _ _ _ e (k, v) Hc) as (b & Hb & [= -> ->]); [by eapply list_elem_of_lookup_2|].
  cbn. by rewrite Hb.
Qed.

Lemma retrieve_null s m k : holds_map s m → 0 ≤ k → retrieve s k = None ↔ m !!! k = [].
Proof.
  intros Hm Hk. pose proof (bucket_range k Hk) as Hlt.
  destruct (lookup_lt_is_Some_2 (table s) (bucket k)) as [o Ho]; [by rewrite (hm_len _ _ Hm)|].
  destruct (hm_chain _ _ Hm _ _ Ho) as (L & Hc & Hnd & Hv).
  unfold retrieve. rewrite Ho. change (mjoin (Some o)) with o.
  rewrite (walk_chain _ _ L) by (done || pose proof (chain_fits _ _ _ Hc Hnd); lia).
  rewrite (Hv k) by done. pose proof (values_head k L) as Hh.
  destruct (list_find _ L) as [[j x]|], (values k L); simpl in *; done.
Qed.

(** ** insert *)

Section insertion.
Context (malloc : gmap loc bucket_entry → option loc).
Hypothesis Hfresh : gives_fresh malloc.

(** What [insert] leaves, when it gets a block and the lock. *)
Definition inserted (e : loc) (k v : Z) (o : option loc) (s : hstate) : hstate :=
  HState (<[e := Entry k v o]> (heap s)) (<[bucket k := Some e]> (table s)) (owner s) (threads s) (exited s).

(** No thread holds the bucket's lock. *)
Definition lock_free (d : discipline) (i : nat) (s : hstate) : bool :=
  match d i with Some l => bool_decide (owner s !! l = None) | None => true end.

Lemma insert_runs d t k v s e o :
  malloc (heap s) = Some e → lock_free d (bucket k) s = true → table s !! bucket k = Some o →
  insert malloc d t k v s = Some (inserted e k v o s).
Proof.
  intros He Hf Ho. unfold insert, take_lock, drop_lock. unfold lock_free in Hf. rewrite He.
  assert (∀ (f g h : bucket_entry → bucket_entry) x (m : gmap loc bucket_entry),
    alter h e (alter g e (alter f e (<[e := x]> m))) = <[e := h (g (f x))]> m) as Hst.
  { intros f g h x m. by rewrite !alter_insert_eq. }
  destruct (d (bucket k)) as [l|] eqn:Hd.
  - apply bool_decide_eq_true in Hf. simpl. rewrite Hf. simpl. rewrite Ho. simpl. unfold inserted, store, set_table, set_owner.
    simpl. by rewrite Hst, delete_insert_id.
  - simpl. rewrite Ho. simpl. unfold inserted, store, set_table. simpl. by rewrite Hst.
Qed.

Lemma insert_holds e k v o s m :
  holds_map s m → 0 ≤ k → heap s !! e = None → table s !! bucket k = Some o →
  holds_map (inserted e k v o s) (map_insert k v m).
Proof.
  intros Hm Hk He Ho. pose proof (lookup_lt_Some _ _ _ Ho) as Hlt. split; simpl.
  { rewrite length_insert. apply Hm. }
  assert (∀ o' L, chain (heap s) o' L → chain (<[e := Entry k v o]> (heap s)) o' L ∧ e ∉ L.*1) as Hframe.
  { intros o' L Hc. assert (e ∉ L.*1) as Hn.
    { intros Hin. destruct (chain_dom _ _ _ Hc e Hin). congruence. }
    split; [|done]. apply (chain_frame (heap s)); [done|]. intros e' He'.
    apply lookup_insert_ne. by intros <-. }
  intros i o'. rewrite list_lookup_insert_Some. intros [(<- & <- & _)|[Hne Ho']].
  - destruct (hm_chain _ _ Hm _ _ Ho) as (L & Hc & Hnd & Hv).
    destruct (Hframe o L Hc) as [Hc' Hn]. exists ((e, (k, v)) :: L). split_and!.
    + change (k, v) with (key (Entry k v o), val (Entry k v o)).
      apply chain_cons; [apply lookup_insert_eq|done].
    + by constructor.
    + intros k' Hk' Hb. unfold values, map_insert. rewrite filter_cons. cbn [fst snd].
      destruct (decide (k = k')) as [->|Hkk].
      * rewrite lookup_total_insert_eq. cbn [fmap list_fmap fst snd]. f_equal. by apply Hv.
      * rewrite lookup_total_insert_ne by done. by apply Hv.
  - destruct (hm_chain _ _ Hm _ _ Ho') as (L & Hc & Hnd & Hv).
    destruct (Hframe o' L Hc) as [Hc' Hn]. exists L. split_and!; [done..|].
    intros k' Hk' Hb. unfold map_insert. rewrite lookup_total_insert_ne by congruence. by apply Hv.
Qed.

(** C23: [insert] and [retrieve] of the three programs are those of a multimap
    whose last binding counts, for a thread that is not disturbed.  When
    [malloc] fails the program exits; while the bucket's lock is taken the call
    waits; otherwise the pair is added, the lock is free again, [retrieve] of
    the key finds the value just inserted, and of any other key what it found
    before. *)
Theorem insert_refines_map d t k v s m :
  holds_map s m → 0 ≤ k →
  match malloc (heap s) with
  | None => insert malloc d t k v s = Some (exit_program s)
  | Some _ =>
      if lock_free d (bucket k) s then
        ∃ s', insert malloc d t k v s = Some s' ∧ holds_map s' (map_insert k v m) ∧
          owner s' = owner s ∧ threads s' = threads s ∧ exited s' = exited s ∧
          found s' k = Some (k, v) ∧ (∀ k', 0 ≤ k' → k' ≠ k → found s' k' = found s k')
      else insert malloc d t k v s = None
  end.
Proof.
  intros Hm Hk. destruct (malloc (heap s)) as [e|] eqn:He; [|by unfold insert; rewrite He].
  pose proof (bucket_range k Hk) as Hlt. rewrite <-(hm_len _ _ Hm) in Hlt.
  destruct (lookup_lt_is_Some_2 _ _ Hlt) as [o Ho].
  destruct (lock_free d (bucket k) s) eqn:Hf.
  - pose proof (insert_holds e k v o s m Hm Hk (Hfresh _ _ He) Ho) as Hm'.
    exists (inserted e k v o s). split_and!; [by apply insert_runs|done..| |].
    + rewrite (found_spec _ _ k Hm') by done. unfold map_retrieve, map_insert.
      by rewrite lookup_total_insert_eq.
    + intros k' Hk' Hne. rewrite (found_spec _ _ k' Hm'), (found_spec _ _ k' Hm) by done.
      unfold map_retrieve, map_insert. by rewrite lookup_total_insert_ne.
  - unfold insert, take_lock. rewrite He. unfold lock_free in Hf. destruct (d (bucket k)) as [l|]; [|done].
    apply bool_decide_eq_false in Hf. simpl. by destruct (owner s !! l).
Qed.

(** ** Runs of the interleaved model *)

Lemma insert_is_steps d t k ks s s' :
  threads s !! t = Some (Thread (k :: ks) At_malloc) → exited s = false →
  insert malloc d t k (Z.of_nat t) s = Some s' →
  (if exited s' then hstep d s s' else rtc (hstep d) s (set_thread t (Thread ks At_malloc) s')) ∧
  threads s' = threads s.
Proof.
  intros Ht Hex. unfold insert. destruct (malloc (heap s)) as [e|] eqn:He.
  2:{ intros [= <-]. simpl. split; [by eapply H_no_memory|done]. }
  destruct (take_lock _ _ _ _) as [s1|] eqn:Hl; [|done]. simpl.
  destruct (table s1 !! bucket k) as [o|] eqn:Ho; [|done]. simpl. intros [= <-].
  assert (threads s1 = threads s ∧ exited s1 = false) as [Hths Hex1].
  { unfold take_lock in Hl. destruct (d (bucket k)) as [l|]; [destruct (_ !! l)|]; by simplify_eq/=. }
  assert (t < length (threads s))%nat as Hlt by by eapply lookup_lt_Some.
  set (si := bucket k) in *.
  assert (∀ s2, exited (drop_lock d si s2) = exited s2 ∧ threads (drop_lock d si s2) = threads s2) as Hdrop.
  { intros s2. unfold drop_lock. by destruct (d si). }
  rewrite (proj1 (Hdrop _)). rewrite (proj2 (Hdrop _)). cbn [exited threads set_table store].
  rewrite Hex1. split; [|done].
  assert (take_lock d t si (set_thread t (Thread (k :: ks) (At_lock si e)) (set_heap (<[e:=raw_entry]> (heap s)) s)) =
          Some (set_thread t (Thread (k :: ks) (At_lock si e)) s1)) as Hl'.
  { unfold take_lock in *. destruct (d si) as [l|]; [simpl in *; destruct (_ !! l)|]; by simplify_eq. }
  eapply rtc_l; [by eapply (H_malloc d s t k ks e), Hfresh|].
  eapply rtc_l; [eapply (H_lock d _ t); [done|by apply list_lookup_insert_eq|exact Hl']|].
  eapply rtc_l; [eapply (H_link d _ t); [done|apply list_lookup_insert_eq|exact Ho]|].
  { simpl. by rewrite length_insert, Hths. }
  eapply rtc_l; [eapply (H_key d _ t); [done|apply list_lookup_insert_eq]|].
  { simpl. by rewrite !length_insert, Hths. }
  eapply rtc_l; [eapply (H_val d _ t); [done|apply list_lookup_insert_eq]|].
  { simpl. by rewrite !length_insert, Hths. }
  eapply rtc_l; [eapply (H_head d _ t); [done|apply list_lookup_insert_eq]|].
  { simpl. by rewrite !length_insert, Hths. }
  eapply rtc_l; [eapply (H_unlock d _ t); [done|apply list_lookup_insert_eq]|].
  { simpl. by rewrite !length_insert, Hths. }
  match goal with |- rtc _ ?a ?b => replace b with a; [apply rtc_refl|] end.
  subst si. unfold drop_lock. destruct (d (bucket k)); unfold set_thread; simpl; by rewrite !list_insert_insert_eq.
Qed.

(** ** put_phase *)

Lemma insert_set_thread d t k v th u s :
  insert malloc d t k v (set_thread u th s) = set_thread u th <$> insert malloc d t k v s.
Proof.
  unfold insert, take_lock, drop_lock. simpl. destruct (malloc (heap s)) as [e|]; [|done].
  destruct (d (bucket k)) as [l|]; simpl; [destruct (owner s !! l); [done|]|]; simpl;
    by destruct (table s !! bucket k).
Qed.

Lemma set_thread_twice t th th' s : set_thread t th (set_thread t th' s) = set_thread t th s.
Proof. unfold set_thread. simpl. by rewrite list_insert_insert_eq. Qed.

Section put.
Context (d : discipline) (keys : Z → Z) (n : Z) (t : nat).
Hypothesis Hn : 0 < n.
Hypothesis Hbound : NUM_KEYS + n ≤ INT_MAX.
Hypothesis Ht : Z.of_nat t ≤ INT_MAX.

Lemma put_loop_steps fuel key s s' :
  0 ≤ key → NUM_KEYS - key ≤ Z.of_nat fuel → (t < length (threads s))%nat → exited s = false →
  put_loop malloc (S fuel) d keys n t key s = Some s' →
  ∃ th, rtc (hstep d) (set_thread t (Thread (keys <$> indices fuel NUM_KEYS n key) At_malloc) s)
                      (set_thread t th s') ∧
        (exited s' = false → th = Thread [] At_malloc).
Proof.
  assert (INT_MIN ≤ Z.of_nat t) as Ht0 by (unfold INT_MIN; lia).
  revert key s. induction fuel as [|fuel IH]; intros key s Hk Hf Hlt Hex.
  { cbn [put_loop indices]. rewrite decide_False by lia. intros [= <-]. eexists. by split. }
  cbn [indices]. remember (S fuel) as f eqn:Ef. cbn [put_loop]. subst f. case_decide as Hkey.
  2:{ intros [= <-]. eexists. by split. }
  rewrite (i32_small (Z.of_nat t)) by lia. rewrite (i32_small (key + n)) by (unfold INT_MIN in *; lia).
  destruct (insert malloc d t (keys key) _ s) as [s1|] eqn:Hin; [|done]. simpl fmap.
  set (ks := keys <$> indices fuel NUM_KEYS n (key + n)). intros Hput. simpl in Hput.
  destruct (insert_is_steps d t (keys key) ks (set_thread t (Thread (keys key :: ks) At_malloc) s)
              (set_thread t (Thread (keys key :: ks) At_malloc) s1)) as [Hst Hths].
  { by apply list_lookup_insert_eq. }
  { done. }
  { by rewrite insert_set_thread, Hin. }
  simpl in Hst. rewrite set_thread_twice in Hst.
  destruct (exited s1) eqn:Hex1.
  { injection Hput as <-. eexists. split; [by apply rtc_once|congruence]. }
  apply (f_equal length) in Hths. simpl in Hths. rewrite !length_insert in Hths.
  destruct (IH (key + n) s1) as (th & Hr & Hth); [lia..|done| |].
  { exact Hput. }
  exists th. split; [by etrans|done].
Qed.

(** What the loop leaves when no lock is held. *)
Lemma put_loop_spec fuel key s m :
  0 ≤ key → NUM_KEYS - key ≤ Z.of_nat fuel → (∀ i, 0 ≤ keys i) →
  holds_map s m → (∀ k, lock_free d (bucket k) s = true) → exited s = false →
  ∃ s', put_loop malloc (S fuel) d keys n t key s = Some s' ∧
    (exited s' = true → ∃ h, malloc h = None) ∧
    (exited s' = false → owner s' = owner s ∧ threads s' = threads s ∧
       holds_map s' (foldl (λ m i, map_insert (keys i) (Z.of_nat t) m) m (indices fuel NUM_KEYS n key))).
Proof.
  assert (INT_MIN ≤ Z.of_nat t) as Ht0 by (unfold INT_MIN; lia). intros Hk Hf Hkeys. revert key s m Hk Hf.
  induction fuel as [|fuel IH]; intros key s m Hk Hf Hm Hfree Hex.
  { cbn [put_loop indices]. rewrite decide_False by lia. exists s. split_and!; [done|congruence|done]. }
  cbn [indices]. remember (S fuel) as f eqn:Ef. cbn [put_loop]. subst f. case_decide as Hkey.
  2:{ exists s. split_and!; [done|congruence|done]. }
  rewrite (i32_small (Z.of_nat t)) by lia. rewrite (i32_small (key + n)) by (unfold INT_MIN in *; lia).
  destruct (malloc (heap s)) as [e|] eqn:He.
  2:{ exists (exit_program s). unfold insert. rewrite He. split_and!; [done|eauto|done]. }
  pose proof (bucket_range (keys key) (Hkeys key)) as Hlt. rewrite <-(hm_len _ _ Hm) in Hlt.
  destruct (lookup_lt_is_Some_2 _ _ Hlt) as [o Ho].
  rewrite (insert_runs d t (keys key) (Z.of_nat t) s e o He (Hfree _) Ho).
  cbn [mbind option_bind]. cbn [exited inserted]. rewrite Hex.
  destruct (IH (key + n) (inserted e (keys key) (Z.of_nat t) o s) (map_insert (keys key) (Z.of_nat t) m))
    as (s' & Hput & Hnull & Hs'); [lia..| |done|done|].
  - by apply insert_holds, Ho; [..|apply Hfresh].
  - exists s'. split_and!; [exact Hput|exact Hnull|]. intros Hx. by destruct (Hs' Hx) as (-> & -> & Hh).
Qed.
End put.

(** A thread's pairs, in the order of its insertions. *)
Definition map_put (keys : Z → Z) (n : Z) (t : nat) (m : multimap) : multimap :=
  foldl (λ m i, map_insert (keys i) (Z.of_nat t) m) m (thread_indices n t).

Lemma foldl_map_insert (keys : Z → Z) v l m k :
  m !!! k ≠ [] ∨ k ∈ keys <$> l → foldl (λ m i, map_insert (keys i) v m) m l !!! k ≠ [].
Proof.
  revert m. induction l as [|i l IH]; intros m Hk; simpl.
  { destruct Hk as [|Hk]; [done|]. by apply not_elem_of_nil in Hk. }
  apply IH. unfold map_insert. destruct (decide (keys i = k)) as [->|Hne].
  - left. by rewrite lookup_total_insert_eq.
  - rewrite lookup_total_insert_ne by done. destruct Hk as [|[|]%elem_of_cons]; auto.
Qed.

Lemma get_phase_found keys n t s m :
  (∀ i, 0 ≤ keys i) → holds_map s (map_put keys n t m) → get_phase s keys n t = 0.
Proof.
  intros Hkeys Hm. apply foldl_lost. intros i Hi. rewrite (retrieve_null _ _ _ Hm) by done.
  apply foldl_map_insert. right. apply list_elem_of_fmap. eauto.
Qed.

Section thread.
Context (d : discipline) (keys : Z → Z) (n : Z) (t : nat).
Hypothesis Hn : 0 < n.
Hypothesis Hbound : NUM_KEYS + n ≤ INT_MAX.
Hypothesis Ht : Z.of_nat t < n.
Hypothesis Hkeys : ∀ i, 0 ≤ keys i.

Lemma put_thread_runs s m :
  holds_map s m → (∀ k, lock_free d (bucket k) s = true) → exited s = false →
  (t < length (threads s))%nat →
  ∃ s', put_thread malloc d keys n t s = Some s' ∧
    (exited s' = true → ∃ h, malloc h = None) ∧
    ∃ th, rtc (hstep d) (set_thread t (Thread (put_phase keys n t) At_malloc) s) (set_thread t th s') ∧
          (exited s' = false → th = Thread [] At_malloc).
Proof.
  intros Hm Hfree Hex Hlt. unfold put_thread, put_phase, thread_indices.
  assert (0 ≤ NUM_KEYS) as HK by done.
  assert (NUM_KEYS ≤ Z.of_nat (Z.to_nat NUM_KEYS)) as Hf by lia. revert Hf.
  generalize (Z.to_nat NUM_KEYS). intros fuel Hf.
  rewrite (i32_small (Z.of_nat t)) by (unfold INT_MIN in *; lia).
  destruct (put_loop_spec d keys n t) with fuel (Z.of_nat t) s m as (s' & Hput & Hnull & _); [done || lia..|].
  exists s'. split_and!; [exact Hput|exact Hnull|]. apply put_loop_steps in Hput; done || lia.
Qed.

Lemma put_thread_holds s s' m :
  holds_map s m → (∀ k, lock_free d (bucket k) s = true) → exited s = false →
  put_thread malloc d keys n t s = Some s' → exited s' = false →
  holds_map s' (map_put keys n t m) ∧ owner s' = owner s ∧ threads s' = threads s.
Proof.
  intros Hm Hfree Hex. unfold put_thread, map_put, thread_indices.
  assert (0 ≤ NUM_KEYS) as HK by done.
  assert (NUM_KEYS ≤ Z.of_nat (Z.to_nat NUM_KEYS)) as Hf by lia. revert Hf.
  generalize (Z.to_nat NUM_KEYS). intros fuel Hf.
  rewrite (i32_small (Z.of_nat t)) by (unfold INT_MIN in *; lia).
  destruct (put_loop_spec d keys n t) with fuel (Z.of_nat t) s m as (s2 & Hput & _ & Hs2); [done || lia..|].
  rewrite Hput. intros [= <-] Hx. by destruct (Hs2 Hx) as (? & ? & ?).
Qed.

(** the put phase of one thread, undisturbed, in the three programs.  It
    returns, on a table that no thread has locked, and it is one of the
    schedules of the interleaved model; unless a [malloc] has failed, the table
    then holds what it held and all the thread's pairs, its locks are free, and
    the thread's get phase loses no key. *)
Lemma put_phase_alone s m :
  holds_map s m → (∀ k, lock_free d (bucket k) s = true) → exited s = false →
  (t < length (threads s))%nat →
  ∃ s', put_thread malloc d keys n t s = Some s' ∧
    (∃ th, rtc (hstep d) (set_thread t (Thread (put_phase keys n t) At_malloc) s) (set_thread t th s') ∧
           (exited s' = false → th = Thread [] At_malloc)) ∧
    (exited s' = true → ∃ h, malloc h = None) ∧
    (exited s' = false →
       holds_map s' (map_put keys n t m) ∧ owner s' = owner s ∧ get_phase s' keys n t = 0).
Proof.
  intros Hm Hfree Hex Hlt. destruct (put_thread_runs s m) as (s' & Hput & Hnull & Hrun); [done..|].
  exists s'. split_and!; [exact Hput|exact Hrun|exact Hnull|]. intros Hx.
  destruct (put_thread_holds s s' m) as (Hh & Ho & _); [done..|]. split_and!; [done|done|].
  by apply get_phase_found with m.
Qed.

End thread.
End insertion.

(** ** One thread needs no lock

    A schedule of a single thread under any discipline is one under the spin
    lock, but for the owners. *)

Definition lone_owner (th : thread) : gmap nat nat :=
  match inside (at_pc th) with Some _ => {[ 0%nat := 0%nat ]} | None => ∅ end.

Definition spin_view (th : thread) (s : hstate) : hstate :=
  HState (heap s) (table s) (lone_owner th) [th] (exited s).

Lemma lone_step d s s' th :
  threads s = [th] → hstep d s s' →
  ∃ th', threads s' = [th'] ∧ hstep one_spinlock (spin_view th s) (spin_view th' s').
Proof.
  intros Hth Hst.
  destruct Hst as [s t k ks e Hex Ht He|s t k ks Hex Ht|s t ks i e s1 Hex Ht Hl|s t ks i e o Hex Ht Ho
                  |s t k ks i e Hex Ht|s t ks i e Hex Ht|s t ks i e Hex Ht|s t ks i e Hex Ht];
    rewrite Hth in Ht; apply list_lookup_singleton_Some in Ht as [-> ->].
  - exists (Thread (k :: ks) (At_lock (bucket k) e)). split; [simpl; by rewrite Hth|].
    exact (H_malloc one_spinlock (spin_view (Thread (k :: ks) At_malloc) s) 0 k ks e Hex eq_refl He).
  - exists (Thread (k :: ks) At_malloc). split; [done|].
    exact (H_no_memory one_spinlock (spin_view (Thread (k :: ks) At_malloc) s) 0 k ks Hex eq_refl).
  - exists (Thread ks (At_link i e)).
    assert (heap s1 = heap s ∧ table s1 = table s ∧ threads s1 = threads s ∧ exited s1 = exited s)
      as (E1 & E2 & E3 & E4).
    { unfold take_lock in Hl. destruct (d i) as [l|]; [destruct (_ !! l)|]; by simplify_eq. }
    split; [simpl; by rewrite E3, Hth|]. unfold spin_view. simpl. rewrite E1, E2, E4.
    exact (H_lock one_spinlock (spin_view (Thread ks (At_lock i e)) s) 0 ks i e _ Hex eq_refl eq_refl).
  - exists (Thread ks (At_key i e)). split; [simpl; by rewrite Hth|].
    exact (H_link one_spinlock (spin_view (Thread ks (At_link i e)) s) 0 ks i e o Hex eq_refl Ho).
  - exists (Thread (k :: ks) (At_val i e)). split; [simpl; by rewrite Hth|].
    exact (H_key one_spinlock (spin_view (Thread (k :: ks) (At_key i e)) s) 0 k ks i e Hex eq_refl).
  - exists (Thread ks (At_head i e)). split; [simpl; by rewrite Hth|].
    exact (H_val one_spinlock (spin_view (Thread ks (At_val i e)) s) 0 ks i e Hex eq_refl).
  - exists (Thread ks (At_unlock i e)). split; [simpl; by rewrite Hth|].
    exact (H_head one_spinlock (spin_view (Thread ks (At_head i e)) s) 0 ks i e Hex eq_refl).
  - exists (Thread (tail ks) At_malloc).
    assert (heap (drop_lock d i s) = heap s ∧ table (drop_lock d i s) = table s ∧
            threads (drop_lock d i s) = threads s ∧ exited (drop_lock d i s) = exited s)
      as (E1 & E2 & E3 & E4) by (unfold drop_lock; by destruct (d i)).
    split; [simpl; by rewrite E3, Hth|]. unfold spin_view. simpl. rewrite E1, E2, E4.
    exact (H_unlock one_spinlock (spin_view (Thread ks (At_unlock i e)) s) 0 ks i e Hex eq_refl).
Qed.

Lemma lone_runs d ks s :
  rtc (hstep d) (initial [ks]) s →
  ∃ th, threads s = [th] ∧ rtc (hstep one_spinlock) (initial [ks]) (spin_view th s).
Proof.
  apply (rtc_preserves (hstep d) (λ s, ∃ th, threads s = [th] ∧ rtc (hstep one_spinlock) (initial [ks]) (spin_view th s))).
  - intros s1 s2 (th & Hth & Hr) Hst. destruct (lone_step d s1 s2 th Hth Hst) as (th' & Hth' & Hst').
    exists th'. split; [done|]. by eapply rtc_r.
  - exists (Thread ks At_malloc). split; [done|]. apply rtc_refl.
Qed.

Lemma get_phase_same s s' keys n tid :
  heap s' = heap s → table s' = table s → get_phase s keys n tid = get_phase s' keys n tid.
Proof.
  intros Hh Ht. assert (∀ k, retrieve s k = retrieve s' k) as Hr
    by (intros k; unfold retrieve; by rewrite Hh, Ht).
  unfold get_phase. generalize (thread_indices n tid) as l. intros l. generalize 0 as z.
  induction l as [|i l IH]; intros z; [done|]. simpl. rewrite Hr. apply IH.
Qed.

Lemma lone_thread_finds d keys s :
  (∀ i, 0 ≤ keys i) → rtc (hstep d) (initial (all_progs keys 1)) s → joined s →
  get_phase s keys (Z.of_nat 1) 0 = 0.
Proof.
  intros Hkeys Hr [Hex Hj]. destruct (lone_runs d _ s Hr) as (th & Hth & Hr').
  rewrite (get_phase_same s (spin_view th s)) by done.
  apply (get_phase_zero one_spinlock); [apply spin_guarded|done|exact Hr'| |lia].
  split; [exact Hex|]. by rewrite Hth in Hj.
Qed.

(** A [malloc] that never fails. *)
Definition next_block (h : gmap loc bucket_entry) : option loc := Some (fresh (dom h)).

Lemma next_block_fresh : gives_fresh next_block.
Proof. intros h e [= <-]. apply not_elem_of_dom, is_fresh. Qed.

Lemma holds_empty progs : holds_map (initial progs) ∅.
Proof.
  split; [done|]. intros i o [-> _]%lookup_replicate. exists []. split_and!; [constructor..|].
  intros k _ _. by rewrite lookup_total_empty.
Qed.

(** ** The program with one thread *)

Section main.
Context (atoi : list Z → Z) (random : nat → Z) (handles : bool) (lock_init : nat → Z).
Hypothesis random_nonneg : ∀ i, 0 ≤ random i ≤ INT_MAX.

Lemma lone_clean d s order :
  rtc (hstep d) (initial (all_progs (random_keys random) 1)) s → joined s → order ≡ₚ seq 0 1 →
  clean_output 1 (InsertedLine NUM_KEYS ::
    ((λ tid, LostLine tid (get_phase s (random_keys random) (Z.of_nat 1) tid)) <$> order) ++
    [RetrievedLine (NUM_KEYS - total_lost s (random_keys random) 1) NUM_KEYS]).
Proof.
  intros Hr Hj. apply nothing_lost_is_clean. intros [|t] Ht; [|lia].
  by apply (lone_thread_finds d); [apply random_keys_nonneg|..].
Qed.

(** One thread can always run to its end. *)
Lemma lone_joins d keys :
  (∀ i, 0 ≤ keys i) → ∃ s, rtc (hstep d) (initial (all_progs keys 1)) s ∧ joined s.
Proof.
  intros Hkeys. set (s0 := initial (all_progs keys 1)).
  destruct (put_thread_runs next_block next_block_fresh d keys 1 0) with s0 (∅ : multimap)
    as (s' & Hput & Hnull & th & Hrun & Hth).
  - done.
  - by unfold NUM_KEYS, INT_MAX.
  - done.
  - done.
  - apply holds_empty.
  - intros k. unfold lock_free. destruct (d (bucket k)); [|done]. by apply bool_decide_eq_true.
  - done.
  - by apply Nat.lt_0_succ.
  - destruct (exited s') eqn:Hx; [by destruct (Hnull eq_refl) as (h & [=])|].
    destruct (put_thread_holds next_block next_block_fresh d keys 1 0) with s0 s' (∅ : multimap)
      as (_ & _ & Hths); try done.
    + apply holds_empty.
    + intros k. unfold lock_free. destruct (d (bucket k)); [|done]. by apply bool_decide_eq_true.
    + exists (set_thread 0 th s'). split; [exact Hrun|]. split; [done|].
      rewrite (Hth eq_refl). simpl. rewrite Hths. by repeat constructor.
Qed.

(** one thread needs no lock.  Run with the argument 1, each of the three
    programs - the one without locks too - either ends when [malloc] has no
    block for an entry, or, [malloc] giving [lost_keys], prints that the thread
    lost no key and that all were retrieved; and there is such a run. *)
Lemma lone_main_reports d n_locks argv :
  setup atoi handles lock_init n_locks argv = inl 1%nat →
  (∀ e out, main_run atoi random handles true lock_init d n_locks argv e out →
     (e = Exits 0 ∧ clean_output 1 out) ∨ (e = Exits 1 ∧ out = [PanicBucket])) ∧
  ∃ out, main_run atoi random handles true lock_init d n_locks argv (Exits 0) out ∧ clean_output 1 out.
Proof.
  intros Hset. split.
  - intros e out Hr. destruct Hr as [l He|n s Hn Hs Hx|n s order Hn Hs Hj Hb _ _|n s order Hn Hs Hj _ Ho].
    + congruence.
    + by right.
    + done.
    + left. rewrite Hset in Hn. injection Hn as <-. split; [done|]. by apply (lone_clean d).
  - destruct (lone_joins d (random_keys random) (random_keys_nonneg random random_nonneg)) as (s & Hs & Hj).
    eexists. split; [by eapply (M_done _ _ _ _ _ _ _ _ 1 s (seq 0 1))|]. by apply (lone_clean d).
Qed.

End main.

(** ** At work *)

(** Two insertions under one key, then a third under another of its bucket. *)
Definition demo : option hstate :=
  s ← mutex_insert next_block 0 3 10 (initial [[3; 3; 8]]);
  s ← mutex_insert next_block 0 3 11 s;
  mutex_insert next_block 0 8 12 s.

Example demo_found :
  (λ s, (found s 3, found s 8, mutex_retrieve s 13)) <$> demo =
  Some (Some (3, 11), Some (8, 12), None).
Proof. vm_compute. reflexivity. Qed.

Lemma insert_refines_map_witness :
  ∃ s', spin_insert next_block 0 3 10 (initial [[3]]) = Some s' ∧ found s' 3 = Some (3, 10).
Proof.
  pose proof (insert_refines_map next_block next_block_fresh one_spinlock 0 3 10 (initial [[3]]) ∅
    (holds_empty _)) as H.
  destruct H as (s' & Hs & _ & _ & _ & _ & Hf & _); [lia|]. exists s'. split; [exact Hs|exact Hf].
Defined.

Lemma put_phase_alone_witness :
  ∃ s', mutex_put_phase next_block some_keys 4 1 (initial [[]; []]) = Some s' ∧
    (exited s' = true → ∃ h, next_block h = None).
Proof.
  destruct (put_phase_alone next_block next_block_fresh mutex_per_bucket some_keys 4 1)
    with (initial [[]; []]) (∅ : multimap) as (s' & Hput & _ & Hnull & _).
  - lia.
  - unfold NUM_KEYS, INT_MAX. lia.
  - lia.
  - apply some_keys_nonneg.
  - apply holds_empty.
  - intros k. reflexivity.
  - reflexivity.
  - simpl. lia.
  - exists s'. split; [exact Hput|exact Hnull].
Defined.

(** parallel_hashtable.c, run with the argument 1. *)
Lemma lone_main_reports_witness :
  ∃ out, hashtable_main argument_of some_random true true (λ _, 0) [[]; [49]] (Exits 0) out ∧
    clean_output 1 out.
Proof.
  destruct (lone_main_reports argument_of some_random true (λ _, 0))
    with (d := no_locks) (n_locks := 0%nat) (argv := [[]; [49]]) as [_ Hrun].
  - exact some_random_range.
  - reflexivity.
  - exact Hrun.
Defined.
