(* ===== verification/HashRefine.v ===== *)
(** The locked hash tables refine a shared multimap whose insertions are
    atomic: every interleaving of the memory accesses is an order of whole
    insertions, each at the access that links its block. *)

From stdpp Require Import gmap list.
From S2P Require Import Prelude Hashtable HashConc HashProps HashMain HashSeq.

(** ** The specification *)

(** The multimap, and the keys each thread still has to insert. *)
Record shared : Type := Shared { content : multimap; remaining : list (list Z) }.

(** Some thread inserts its next key, under its own number. *)
Inductive atomic_insert : relation shared :=
| Atomic_insert m q t k ks :
    q !! t = Some (k :: ks) →
    atomic_insert (Shared m q) (Shared (map_insert k (Z.of_nat t) m) (<[t := ks]> q)).

(** The state of the specification a table stands for. *)
Definition stands_for (s : hstate) (a : shared) : Prop :=
  holds_map s (content a) ∧ remaining a = pending <$> threads s.

Section refinement.
Context (d : discipline) (progs : list (list Z)).
Hypothesis Hd : guarded d.

(** The multimap of the contents of the buckets. *)
Definition map_of (m : multimap) (Ls : list (list (loc * (Z * Z)))) : Prop :=
  ∀ k L, 0 ≤ k → Ls !! bucket k = Some L → m !!! k = values k L.

Lemma hinv_holds Ls s m : hinv d progs Ls s → map_of m Ls → holds_map s m.
Proof.
  intros Hi Hm. destruct (hi_len _ _ _ _ Hi) as [HlL Hlt]. split; [done|].
  intros i o Ho. destruct (lookup_lt_is_Some_2 Ls i) as [L HL].
  { rewrite HlL, <-Hlt. by eapply lookup_lt_Some. }
  destruct (hi_chain _ _ _ _ Hi i L HL) as (o' & Ho' & Hc & _). simplify_eq.
  exists L. split; [done|]. split; [eapply NoDup_bucket; [apply Hi|done]|].
  intros k Hk <-. by apply Hm.
Qed.

Lemma map_of_insert Ls m k v e L :
  0 ≤ k → Ls !! bucket k = Some L → map_of m Ls →
  map_of (map_insert k v m) (<[bucket k := (e, (k, v)) :: L]> Ls).
Proof.
  intros Hk HL Hm k' L' Hk'. unfold map_insert. rewrite list_lookup_insert_Some.
  intros [(Hb & <- & _)|[Hb HL']].
  - unfold values. rewrite filter_cons. cbn [fst snd]. destruct (decide (k = k')) as [->|Hne].
    + rewrite lookup_total_insert_eq. cbn. f_equal. by apply Hm.
    + rewrite lookup_total_insert_ne by done. apply Hm; [done|congruence].
  - rewrite lookup_total_insert_ne by congruence. by apply Hm.
Qed.

(** One access is at most one insertion of the specification. *)
Lemma access_refines Ls s s' m :
  hinv d progs Ls s → map_of m Ls → hstep d s s' →
  ∃ Ls' m', hinv d progs Ls' s' ∧ map_of m' Ls' ∧
    (m' = m ∧ pending <$> threads s' = pending <$> threads s ∨
     atomic_insert (Shared m (pending <$> threads s)) (Shared m' (pending <$> threads s'))).
Proof.
  intros Hi Hm Hst. destruct (hstep_inv d progs Ls s s' Hd Hi Hst) as (Ls' & Hi' & Hl).
  exists Ls'. destruct Hl as [[-> Hp]|(t & k & ks & e & L & Ht & Hk & HL & -> & Hp)].
  - exists m. auto.
  - exists (map_insert k (Z.of_nat t) m). split; [done|]. split; [by apply map_of_insert|].
    right. rewrite Hp. by constructor.
Qed.

Lemma accesses_refine s :
  Forall (Forall (λ k, 0 ≤ k)) progs → rtc (hstep d) (initial progs) s →
  ∃ Ls m, hinv d progs Ls s ∧ map_of m Ls ∧
    rtc atomic_insert (Shared ∅ progs) (Shared m (pending <$> threads s)).
Proof.
  intros Hnn. apply (rtc_preserves (hstep d) (λ s, ∃ Ls m, hinv d progs Ls s ∧ map_of m Ls ∧
    rtc atomic_insert (Shared ∅ progs) (Shared m (pending <$> threads s)))).
  - intros s1 s2 (Ls & m & Hi & Hm & Ha) Hst.
    destruct (access_refines Ls s1 s2 m Hi Hm Hst) as (Ls' & m' & Hi' & Hm' & [[-> Hp]|Hat]).
    + exists Ls', m. by rewrite Hp.
    + exists Ls', m'. split; [done|]. split; [done|]. by eapply rtc_r.
  - exists (replicate (Z.to_nat NUM_BUCKETS) []), ∅. split; [by apply hinv_initial|]. split.
    + intros k L _ [-> _]%lookup_replicate. by rewrite lookup_total_empty.
    + simpl. rewrite <-list_fmap_compose.
      assert (pending ∘ (λ ks, Thread ks At_malloc) <$> progs = progs) as ->; [|apply rtc_refl].
      transitivity (id <$> progs); [by apply list_fmap_ext|apply list_fmap_id].
Qed.

(** C11: the locked tables refine the multimap with atomic insertions.  In every
    state of every interleaving of the accesses of any number of threads, the
    table stands for a state the multimap reaches by whole insertions, in the
    order in which each thread has its keys; [retrieve] finds there the latest
    value of each key; the next access, of whatever thread, is at most one
    insertion of the multimap; and once all threads are joined nothing remains
    to be inserted. *)
Theorem locked_inserts_atomic s :
  Forall (Forall (λ k, 0 ≤ k)) progs → rtc (hstep d) (initial progs) s →
  ∃ a, rtc atomic_insert (Shared ∅ progs) a ∧ stands_for s a ∧
    (∀ k, 0 ≤ k → found s k = (λ v, (k, v)) <$> map_retrieve k (content a)) ∧
    (∀ s', hstep d s s' → ∃ a', stands_for s' a' ∧ (a' = a ∨ atomic_insert a a')) ∧
    (joined s → Forall (λ ks, ks = []) (remaining a)).
Proof.
  intros Hnn Hr. destruct (accesses_refine s Hnn Hr) as (Ls & m & Hi & Hm & Ha).
  pose proof (hinv_holds Ls s m Hi Hm) as Hh. exists (Shared m (pending <$> threads s)).
  split_and!; [done|done|intros k; by apply found_spec| |].
  - intros s' Hst. destruct (access_refines Ls s s' m Hi Hm Hst) as (Ls' & m' & Hi' & Hm' & Hc).
    exists (Shared m' (pending <$> threads s')). split; [split; [by eapply hinv_holds|done]|].
    destruct Hc as [[-> Hp]|Hat]; [left; by rewrite Hp|by right].
  - intros [_ Hj]. simpl. apply list.Forall_fmap. eapply list.Forall_impl; [exact Hj|].
    intros [ks p] [Ht Hp]. simpl in *. by subst.
Qed.

End refinement.

(** ** At work *)

(** Three threads under the spin lock, two of which insert the same key. *)
Lemma locked_inserts_atomic_witness :
  ∃ s a, rtc spin_step (initial [[3; 8]; [3]; [4]]) s ∧ joined s ∧
    rtc atomic_insert (Shared ∅ [[3; 8]; [3]; [4]]) a ∧ stands_for s a ∧
    Forall (λ ks, ks = []) (remaining a).
Proof.
  assert (Forall (Forall (λ k, 0 ≤ k)) [[3; 8]; [3]; [4]]) as Hnn by by repeat constructor.
  destruct (can_join one_spinlock [[3; 8]; [3]; [4]] _ _ spin_guarded (hinv_initial one_spinlock _ Hnn))
    as (s & Hs & Hj); [|done|].
  { by apply (owners_reachable one_spinlock [[3; 8]; [3]; [4]]). }
  destruct (locked_inserts_atomic one_spinlock [[3; 8]; [3]; [4]] spin_guarded s Hnn Hs)
    as (a & Ha & Hst & _ & _ & Hrem).
  exists s, a. split; [exact Hs|]. split; [exact Hj|]. split; [exact Ha|].
  split; [exact Hst|exact (Hrem Hj)].
Defined.
