(* ===== verification/Disk.v ===== *)
(** The disk programs of final_project: reading a file block by block (run.c),
    its xor of 32-bit words (run_blocksize.c, fast.c), the same split among
    threads (run_multithreaded.c), the seek loop (part_4_lseek_run.c), the
    writing of constant blocks, and the argument handling of the mains.

    Files are lists of bytes.  How many bytes a [read], [pread] or [write] of
    the operating system transfers, when some are available, is a parameter. *)

From S2P Require Import Prelude.

(** ** Words *)

(** sizeof(unsigned int) *)
Definition sizeof_uint : Z := 4.

(** The little-endian word of four bytes. *)
Definition word (b0 b1 b2 b3 : Z) : Z :=
  Z.lor b0 (Z.lor (Z.shiftl b1 8) (Z.lor (Z.shiftl b2 16) (Z.shiftl b3 24))).

(** A byte buffer seen as [unsigned int *]; an incomplete word at the end is
    not an element. *)
Fixpoint words (bs : list Z) : list Z :=
  match bs with
  | b0 :: b1 :: b2 :: b3 :: bs' => word b0 b1 b2 b3 :: words bs'
  | _ => []
  end.

(** The loop of [xorbuf]; [None] when it reads outside the buffer. *)
Fixpoint xor_loop (size : nat) (buffer : list Z) (result : Z) : option Z :=
  match size, buffer with
  | O, _ => Some result
  | S size', w :: buffer' => xor_loop size' buffer' (Z.lxor result w)
  | S _, [] => None
  end.

Definition xorbuf (buffer : list Z) (size : Z) : option Z := xor_loop (Z.to_nat size) buffer 0.

(** ** Reading *)

Section disk.
Context (read_count : Z → Z → Z).

(** [pread(fd, buf, n, off)]: the bytes transferred. *)
Definition pread (data : list Z) (n off : Z) : list Z :=
  let avail := Z.min n (Z.of_nat (length data) - off) in
  if decide (avail ≤ 0) then []
  else take (Z.to_nat (read_count off avail)) (drop (Z.to_nat off) data).

(** The buffer after a transfer: the rest keeps what it held. *)
Definition fill (buf got : list Z) : list Z := got ++ drop (length got) buf.

(** run.c, [disk_read]: the file offset when the loop ends. *)
Fixpoint read_all (fuel : nat) (data : list Z) (block_size off : Z) : option Z :=
  match fuel with
  | O => None
  | S fuel' =>
      let r := Z.of_nat (length (pread data block_size off)) in
      if decide (0 < r) then read_all fuel' data block_size (off + r) else Some off
  end.

Definition run_disk_read (fuel : nat) (data : list Z) (block_size : Z) : option Z :=
  read_all fuel data block_size 0.

(** [block_size/(long)sizeof(unsigned int)]; the division is an integer one,
    which [ceil] does not change. *)
Definition buf_words (block_size : Z) : Z := Z.quot block_size sizeof_uint.

(** The loop of run_blocksize.c; [limit] is [block_count], or [None] in
    fast.c, which has no count. The result is the value printed and the file
    offset. *)
Fixpoint xor_blocks (fuel : nat) (limit : option Z) (data : list Z) (size : Z)
    (buf : list Z) (off count xor : Z) : option (Z * Z) :=
  match fuel with
  | O => None
  | S fuel' =>
      let got := pread data (size * sizeof_uint) off in
      let r := Z.of_nat (length got) in
      let buf := fill buf got in
      if decide (0 < r) then
        if (match limit with Some n => bool_decide (count < n) | None => true end : bool) then
          match xorbuf (words buf) (Z.quot r sizeof_uint) with
          | Some x =>
              xor_blocks fuel' limit data size buf (off + r) (count + 1) (Z.lxor xor x)
          | None => None
          end
        else Some (xor, off + r)
      else Some (xor, off)
  end.

Definition blocksize_disk_read (fuel : nat) (data : list Z) (junk : list Z)
    (block_size block_count : Z) : option (Z * Z) :=
  let size := buf_words block_size in
  xor_blocks fuel (Some block_count) data size
    (take (Z.to_nat (size * sizeof_uint)) junk) 0 0 0.

Definition fast_disk_read (fuel : nat) (data : list Z) (junk : list Z) : option (Z * Z) :=
  let size := buf_words 4096 in
  xor_blocks fuel None data size (take (Z.to_nat (size * sizeof_uint)) junk) 0 0 0.

(** ** Threads *)

Definition u64 (z : Z) : Z := z mod 2 ^ 64.

Record thread_arg : Type := ThreadArg {
  block_size : Z; buf : option (list Z); xor : Z; thread_num : Z; num_threads : Z
}.

(** The loop of [thread_read]; the result is the thread's [xor]. Into a null
    pointer, the unchecked result of [malloc], [pread] transfers nothing. *)
Fixpoint thread_loop (fuel : nat) (data : list Z) (arg : thread_arg) (count off : Z) : option Z :=
  match fuel with
  | O => None
  | S fuel' =>
      match buf arg with None => Some (xor arg) | Some b =>
      let got := pread data (block_size arg) off in
      let r := Z.of_nat (length got) in
      let b := fill b got in
      if decide (0 < r) then
        match xorbuf (words b) (Z.quot r sizeof_uint) with
        | Some x =>
            let arg := ThreadArg (block_size arg) (Some b) (Z.lxor (xor arg) x) (thread_num arg)
                                 (num_threads arg) in
            let count := i32 (count + 1) in
            let off := u64 (u64 (u64 (num_threads arg * count) + thread_num arg) * block_size arg) in
            thread_loop fuel' data arg count off
        | None => None
        end
      else Some (xor arg)
      end
  end.

(** The first offset is computed in [int]. *)
Definition thread_read (fuel : nat) (data : list Z) (arg : thread_arg) : option Z :=
  thread_loop fuel data arg 0 (u64 (i32 (thread_num arg * block_size arg))).

(** [disk_read] of run_multithreaded.c: every thread runs on its own argument
    and buffer, then the results are combined in the order of the joins;
    [gets i] says whether [malloc] gives thread [i] its buffer. *)
Definition thread_args (gets : nat → bool) (block_size0 : Z) (n : nat) (junk : list Z) : list thread_arg :=
  let buf_size := u32 (Z.quot (u64 block_size0) sizeof_uint) in
  let bytes := i32 (buf_size * sizeof_uint) in
  (λ i, ThreadArg bytes (if gets i then Some (take (Z.to_nat bytes) junk) else None) 0
          (Z.of_nat i) (Z.of_nat n)) <$> seq 0 n.

Fixpoint join_xor (results : list (option Z)) (acc : Z) : option Z :=
  match results with
  | [] => Some acc
  | Some x :: rs => join_xor rs (i32 (Z.lxor acc x))
  | None :: _ => None
  end.

Definition multithreaded_disk_read (gets : nat → bool) (fuel : nat) (data junk : list Z)
    (block_size0 : Z) (n : nat) : option Z :=
  join_xor (thread_read fuel data <$> thread_args gets block_size0 n junk) 0.

End disk.

(** ** The seek loop of part_4_lseek_run.c

    [lseek] does not move to a negative offset. *)

Fixpoint seek_loop (fuel : nat) (bound block_size sum off : Z) : option (Z * Z) :=
  match fuel with
  | O => None
  | S fuel' =>
      if decide (sum < bound)
      then seek_loop fuel' bound block_size (i32 (sum + block_size))
             (if decide (0 ≤ off + block_size) then off + block_size else off)
      else Some (sum, off)
  end.

(** The sum and the file offset at the end. *)
Definition lseek_disk_read (fuel : nat) (block_size block_count : Z) : option (Z * Z) :=
  seek_loop fuel (i32 (block_count * block_size)) block_size 0 0.

(** ** Writing *)

Section write.
Context (write_count : Z → Z → Z).

Definition letter_t : Z := 116.

(** The inner loop of [disk_write]. *)
Fixpoint fill_t (j : nat) (buf : list Z) : list Z :=
  match j with
  | O => buf
  | S j' => <[j' := letter_t]> (fill_t j' buf)
  end.

(** [write(fd, buf, n)] at an offset of a file that is at least that long. *)
Definition write_at (data got : list Z) (off : Z) : list Z :=
  let n := write_count off (Z.of_nat (length got)) in
  let part := take (Z.to_nat n) got in
  take (Z.to_nat off) data ++ part ++ drop (Z.to_nat off + length part) data.

Fixpoint write_loop (count : nat) (buf data : list Z) (off : Z) : list Z * Z :=
  match count with
  | O => (data, off)
  | S count' =>
      let buf := fill_t (length buf) buf in
      let n := write_count off (Z.of_nat (length buf)) in
      write_loop count' buf (write_at data buf off) (off + n)
  end.

(** The file after [disk_write] of a file that held [data] (created when it
    did not exist); without O_TRUNC what is beyond stays. *)
Definition disk_write (data junk : list Z) (block_size block_count : Z) : list Z * Z :=
  write_loop (Z.to_nat block_count) (take (Z.to_nat block_size) junk) data 0.

End write.

(** The mode [open] is given: the decimal number 777. *)
Definition create_mode : Z := 777.

(** ** The mains *)

Inductive action : Type :=
| DoRead (filename : list Z) (block_size block_count : Z)
| DoWrite (filename : list Z) (block_size block_count : Z)
| DoNothing
| Fault.   (* a null [argv] entry is dereferenced *)

(** [usage()] prints and returns, so the program goes on; [usages] counts the
    messages. [mode] is uninitialized when the flag has not two characters.
    [argc] is 5 in run.c, run_blocksize.c and part_4_lseek_run.c. *)
Definition main_run (atoi : list Z → Z) (uninit : Z) (argv : list (list Z)) : nat * action :=
  let usages := if decide (length argv ≠ 5%nat) then 1%nat else 0%nat in
  match argv !! 2%nat with
  | None => (usages, Fault)
  | Some flag =>
      let '(usages, mode) :=
        if decide (length flag ≠ 2%nat) then (S usages, uninit)
        else (usages, default uninit (flag !! 1%nat)) in
      match argv !! 1%nat, argv !! 3%nat, argv !! 4%nat with
      | Some filename, Some bs, Some bc =>
          (usages,
           if decide (mode = 114) then DoRead filename (atoi bs) (atoi bc)
           else if decide (mode = 119) then DoWrite filename (atoi bs) (atoi bc)
           else DoNothing)
      | _, _, _ => (usages, Fault)
      end
  end.

(** The main of run_multithreaded.c, which takes the number of threads too and
    gives the block count to the writer only. *)
Inductive multi_action : Type :=
| MultiRead (filename : list Z) (block_size num_threads : Z)
| MultiWrite (filename : list Z) (block_size block_count : Z)
| MultiNothing
| MultiFault.

Definition main_multithreaded (atoi : list Z → Z) (uninit : Z) (argv : list (list Z))
    : nat * multi_action :=
  let usages := if decide (length argv ≠ 6%nat) then 1%nat else 0%nat in
  match argv !! 2%nat with
  | None => (usages, MultiFault)
  | Some flag =>
      let '(usages, mode) :=
        if decide (length flag ≠ 2%nat) then (S usages, uninit)
        else (usages, default uninit (flag !! 1%nat)) in
      match argv !! 1%nat, argv !! 3%nat, argv !! 4%nat, argv !! 5%nat with
      | Some filename, Some bs, Some bc, Some nt =>
          (usages,
           if decide (mode = 114) then MultiRead filename (atoi bs) (atoi nt)
           else if decide (mode = 119) then MultiWrite filename (atoi bs) (atoi bc)
           else MultiNothing)
      | _, _, _, _ => (usages, MultiFault)
      end
  end.

(** The main of fast.c: the number of usage messages and the file to read. *)
Definition main_fast (argv : list (list Z)) : nat * option (list Z) :=
  (if decide (length argv ≠ 2%nat) then 1%nat else 0%nat, argv !! 1%nat).

(** ** What the theorems speak of *)

(** The xor of a list of words, and of all the whole words of a file. *)
Definition xor_list (ws : list Z) : Z := foldr Z.lxor 0 ws.

Definition file_xor (data : list Z) : Z := xor_list (words data).

(** [read] transfers something when it can, never more than it can. *)
Definition reads_some (read_count : Z → Z → Z) : Prop :=
  ∀ off n, 0 < n → 0 < read_count off n ≤ n.

(** A short read does not split a word. *)
Definition reads_aligned (read_count : Z → Z → Z) : Prop :=
  ∀ off n, 0 < n → read_count off n = n ∨ read_count off n mod 4 = 0.

Definition reads_full (read_count : Z → Z → Z) : Prop := ∀ off n, read_count off n = n.

(** ** Words and xors *)

Lemma words_app a b : Z.of_nat (length a) mod 4 = 0 → words (a ++ b) = words a ++ words b.
Proof.
  remember (length a) as n eqn:Hn. revert a Hn. induction (lt_wf n) as [n _ IH].
  intros a -> Hm. destruct a as [|b0 [|b1 [|b2 [|b3 a]]]]; try done. simpl. f_equal.
  apply (IH (length a)); [simpl; lia|done|].
  rewrite <-Hm. simpl length. rewrite <-(Z.mod_add (Z.of_nat (length a)) 1) by lia. f_equal. lia.
Qed.

Lemma words_short a b :
  (length a < 4)%nat → take (length a / 4) (words (a ++ b)) = [] ∧ words a = [].
Proof. intros Ha. destruct a as [|b0 [|b1 [|b2 [|b3 a]]]]; simpl in Ha; first [split; reflexivity|lia]. Qed.

(** The whole words of the bytes that arrived, whatever the buffer holds
    behind them. *)
Lemma words_prefix a b :
  take (length a / 4) (words (a ++ b)) = words a ∧ (length a / 4 ≤ length (words (a ++ b)))%nat.
Proof.
  remember (length a) as n eqn:Hn. revert a Hn. induction (lt_wf n) as [n _ IH]. intros a ->.
  destruct (decide (length a < 4)%nat) as [Hs|Hs].
  { destruct (words_short a b Hs) as [-> ->]. split; [done|]. rewrite Nat.div_small by lia. lia. }
  destruct a as [|b0 [|b1 [|b2 [|b3 a]]]]; simpl in Hs; try lia.
  replace (length (b0 :: b1 :: b2 :: b3 :: a)) with (length a + 1 * 4)%nat by (simpl; lia).
  rewrite Nat.div_add by lia. rewrite Nat.add_comm. cbn [app words take length Nat.add].
  destruct (IH (length a)) with a as [-> ?]; [simpl; lia|done|]. split; [done|lia].
Qed.

Lemma xor_list_app a b : xor_list (a ++ b) = Z.lxor (xor_list a) (xor_list b).
Proof.
  unfold xor_list. induction a as [|w a IH]; simpl; [by rewrite Z.lxor_0_l|].
  by rewrite IH, Z.lxor_assoc.
Qed.

Lemma xor_loop_spec n buffer acc :
  (n ≤ length buffer)%nat → xor_loop n buffer acc = Some (Z.lxor acc (xor_list (take n buffer))).
Proof.
  revert buffer acc. induction n as [|n IH]; intros [|w buffer] acc Hn; simpl in *; try lia.
  - by rewrite Z.lxor_0_r.
  - by rewrite Z.lxor_0_r.
  - rewrite IH by lia. by rewrite Z.lxor_assoc.
Qed.

Lemma quot_length (l : list Z) : Z.to_nat (Z.quot (Z.of_nat (length l)) sizeof_uint) = (length l / 4)%nat.
Proof.
  unfold sizeof_uint. rewrite Z.quot_div_nonneg by lia. change 4 with (Z.of_nat 4).
  by rewrite <-Nat2Z.inj_div, Nat2Z.id.
Qed.

(** What one block contributes. *)
Lemma xorbuf_fill buf got :
  xorbuf (words (fill buf got)) (Z.quot (Z.of_nat (length got)) sizeof_uint) = Some (file_xor got).
Proof.
  unfold xorbuf, fill. rewrite quot_length.
  destruct (words_prefix got (drop (length got) buf)) as [Ht Hl].
  by rewrite xor_loop_spec, Ht, Z.lxor_0_l.
Qed.

Lemma file_xor_app a b :
  Z.of_nat (length a) mod 4 = 0 → file_xor (a ++ b) = Z.lxor (file_xor a) (file_xor b).
Proof. intros Ha. unfold file_xor. by rewrite words_app, xor_list_app. Qed.

Lemma length_pos_nil {A} (l : list A) : ¬ (0 < Z.of_nat (length l)) → l = [].
Proof. destruct l; simpl; [done|lia]. Qed.

(** ** Reads *)

Section reads.
Context (read_count : Z → Z → Z).

Lemma pread_spec data n off :
  reads_some read_count → 0 < n → 0 ≤ off ≤ Z.of_nat (length data) →
  let got := pread read_count data n off in
  let r := Z.of_nat (length got) in
  off + r ≤ Z.of_nat (length data) ∧ r ≤ n ∧
  (r = 0 ↔ off = Z.of_nat (length data)) ∧
  take (Z.to_nat (off + r)) data = take (Z.to_nat off) data ++ got ∧
  (off < Z.of_nat (length data) → r = read_count off (Z.min n (Z.of_nat (length data) - off))).
Proof.
  intros Hs Hn Hoff got r. unfold got, pread in *. case_decide as Hav.
  - assert (off = Z.of_nat (length data)) as -> by lia. unfold r. simpl.
    rewrite app_nil_r, Z.add_0_r. repeat split; lia.
  - set (av := Z.min n (Z.of_nat (length data) - off)) in *. pose proof (Hs off av ltac:(lia)) as Hc.
    assert (r = read_count off av) as Hr.
    { unfold r. rewrite length_take, length_drop. lia. }
    rewrite Hr. split; [lia|]. split; [lia|]. split; [split; lia|]. split; [|done].
    rewrite Z2Nat.inj_add by lia. by rewrite take_take_drop.
Qed.

Lemma read_all_spec data block_size off fuel :
  reads_some read_count → 0 < block_size → 0 ≤ off ≤ Z.of_nat (length data) →
  Z.of_nat (length data) - off < Z.of_nat fuel →
  read_all read_count fuel data block_size off = Some (Z.of_nat (length data)).
Proof.
  intros Hs Hb. revert off. induction fuel as [|fuel IH]; intros off Hoff Hf; [lia|]. simpl.
  destruct (pread_spec data block_size off Hs Hb Hoff) as (H1 & H2 & H3 & _).
  case_decide; [apply IH; lia|]. f_equal. apply H3. lia.
Qed.

(** The offset stays a multiple of four until the end of the file. *)
Lemma pread_aligned data n off :
  reads_some read_count → reads_aligned read_count → 0 < n → n mod 4 = 0 →
  0 ≤ off < Z.of_nat (length data) → off mod 4 = 0 →
  let r := Z.of_nat (length (pread read_count data n off)) in
  (off + r) mod 4 = 0 ∨ off + r = Z.of_nat (length data).
Proof.
  intros Hs Ha Hn Hn4 Hoff Ho4 r.
  destruct (pread_spec data n off Hs Hn ltac:(lia)) as (_ & _ & _ & _ & Hr).
  specialize (Hr ltac:(lia)). fold r in Hr.
  destruct (Ha off (Z.min n (Z.of_nat (length data) - off)) ltac:(lia)) as [E|E]; rewrite <-Hr in E.
  - destruct (decide (n ≤ Z.of_nat (length data) - off)).
    + left. rewrite E, Z.min_l by lia. by rewrite Z.add_mod, Ho4, Hn4 by lia.
    + right. lia.
  - left. by rewrite Z.add_mod, Ho4, E by lia.
Qed.

Lemma length_take_Z (data : list Z) off :
  0 ≤ off ≤ Z.of_nat (length data) → Z.of_nat (length (take (Z.to_nat off) data)) = off.
Proof. intros. rewrite length_take. lia. Qed.

Lemma xor_blocks_unlimited data size buf off count fuel :
  reads_some read_count → reads_aligned read_count → 0 < size →
  0 ≤ off ≤ Z.of_nat (length data) → (off mod 4 = 0 ∨ off = Z.of_nat (length data)) →
  Z.of_nat (length data) - off < Z.of_nat fuel →
  xor_blocks read_count fuel None data size buf off count (file_xor (take (Z.to_nat off) data)) =
  Some (file_xor data, Z.of_nat (length data)).
Proof.
  intros Hs Ha Hsz. revert buf off count. induction fuel as [|fuel IH];
    intros buf off count Hoff H4 Hf; [lia|]. cbn [xor_blocks].
  assert (0 < size * sizeof_uint) as Hn by (unfold sizeof_uint; lia).
  destruct (pread_spec data (size * sizeof_uint) off Hs Hn Hoff) as (H1 & H2 & H3 & Htake & _).
  case_decide as Hr.
  - rewrite xorbuf_fill. destruct H4 as [H4|H4]; [|lia].
    rewrite <-file_xor_app, <-Htake by by rewrite length_take_Z.
    apply IH; [lia| |lia]. apply pread_aligned; try done; [|lia].
    unfold sizeof_uint. apply Z.mod_mul. lia.
  - assert (off = Z.of_nat (length data)) as -> by (apply H3; lia).
    by rewrite Nat2Z.id, take_ge by lia.
Qed.

Lemma xor_blocks_limited data size n buf count fuel :
  reads_full read_count → 0 < size → 0 ≤ count ≤ n → n - count < Z.of_nat fuel →
  let B := size * sizeof_uint in
  let len := Z.of_nat (length data) in
  let off := Z.min (count * B) len in
  xor_blocks read_count fuel (Some n) data size buf off count (file_xor (take (Z.to_nat off) data)) =
  Some (file_xor (take (Z.to_nat (n * B)) data), Z.min ((n + 1) * B) len).
Proof.
  intros Hfull Hsz. assert (reads_some read_count) as Hs by (intros ? ? ?; rewrite Hfull; lia).
  revert buf count. induction fuel as [|fuel IH]; intros buf count Hc Hf B len off; [lia|].
  cbn [xor_blocks]. assert (0 < B) as HB by (unfold B, sizeof_uint; lia).
  assert (0 ≤ off ≤ len) as Hoff by (unfold off; nia).
  destruct (pread_spec data B off Hs HB Hoff) as (H1 & H2 & H3 & Htake & Hr). fold len in H1, H3, Hr.
  rewrite Hfull in Hr. fold B. case_decide as Hpos.
  - assert (off < len) as Hlt by lia. specialize (Hr Hlt).
    assert (off = count * B) as Eoff by (unfold off in *; lia).
    case_bool_decide as Hcn.
    + rewrite xorbuf_fill. rewrite <-file_xor_app, <-Htake.
      * replace (off + Z.of_nat (length (pread read_count data B off)))
          with (Z.min ((count + 1) * B) len) by lia. apply IH; lia.
      * rewrite length_take_Z by done. rewrite Eoff. unfold B, sizeof_uint.
        rewrite Z.mul_assoc. apply Z.mod_mul. lia.
    + assert (count = n) as -> by lia. rewrite Eoff at 1. f_equal. f_equal. lia.
  - assert (off = len) as Eoff by (apply H3; lia).
    assert (len ≤ count * B) as Hle by (unfold off in Eoff; lia).
    assert (len ≤ n * B) as Hn by nia. assert (len ≤ (n + 1) * B) as Hn1 by nia.
    rewrite Eoff, Z.min_r by done. unfold len at 1. rewrite Nat2Z.id.
    rewrite !take_ge; [done|clear -Hn; subst len; lia|done].
Qed.

End reads.

(** ** The blocks dealt out to the threads *)

Section blocks.
Context (data : list Z) (B : Z).
Hypothesis HB : 0 < B.

Hypothesis HB4 : B mod 4 = 0.

(** Block [k] of the file, empty beyond the end, and its xor. *)
Definition block (k : nat) : list Z := take (Z.to_nat B) (drop (Z.to_nat (Z.of_nat k * B)) data).

Definition block_xor (k : nat) : Z := file_xor (block k).

Lemma block_beyond k : Z.of_nat (length data) ≤ Z.of_nat k * B → block_xor k = 0.
Proof. intros Hk. unfold block_xor, block. rewrite drop_ge by lia. by rewrite take_nil. Qed.

(** The xor of the first [n] blocks is that of the bytes they cover. *)
Lemma block_xor_prefix n :
  xor_list (block_xor <$> seq 0 n) = file_xor (take (Z.to_nat (Z.of_nat n * B)) data).
Proof.
  induction n as [|n IH]; [done|].
  rewrite seq_S, fmap_app, xor_list_app, IH. cbn. rewrite Z.lxor_0_r.
  replace (Z.to_nat (Z.of_nat (S n) * B)) with (Z.to_nat (Z.of_nat n * B) + Z.to_nat B)%nat by lia.
  rewrite <-take_take_drop. fold (block n).
  destruct (decide (Z.of_nat (length data) ≤ Z.of_nat n * B)) as [Hge|Hlt].
  - rewrite block_beyond by done. rewrite Z.lxor_0_r. unfold block. rewrite drop_ge by lia.
    by rewrite take_nil, app_nil_r.
  - symmetry. apply file_xor_app. rewrite length_take, Nat.min_l by lia.
    rewrite Z2Nat.id by nia. by rewrite Z.mul_mod, HB4, Z.mul_0_r by lia.
Qed.

(** Threads [0..n-1], taking the blocks in turn, take the first [n * m]. *)
Lemma xor_list_zip (f g : nat → Z) l :
  xor_list ((λ t, Z.lxor (f t) (g t)) <$> l) = Z.lxor (xor_list (f <$> l)) (xor_list (g <$> l)).
Proof.
  unfold xor_list. induction l as [|t l IH]; [done|]. rewrite !fmap_cons. cbn [foldr]. rewrite IH.
  rewrite !Z.lxor_assoc. f_equal. rewrite <-!Z.lxor_assoc. f_equal. apply Z.lxor_comm.
Qed.

Lemma deal_blocks n m :
  xor_list ((λ t, xor_list ((λ j, block_xor (n * j + t)) <$> seq 0 m)) <$> seq 0 n) =
  xor_list (block_xor <$> seq 0 (n * m)).
Proof.
  induction m as [|m IH].
  - rewrite Nat.mul_0_r. unfold xor_list. simpl. induction (seq 0 n); done.
  - transitivity (xor_list ((λ t, Z.lxor (xor_list ((λ j, block_xor (n * j + t)) <$> seq 0 m))
                                         (block_xor (n * m + t))) <$> seq 0 n)).
    + f_equal. apply list_fmap_ext. intros _ t _. rewrite seq_S, fmap_app, xor_list_app. cbn.
      by rewrite Z.lxor_0_r.
    + rewrite xor_list_zip, IH. rewrite Nat.mul_succ_r, seq_app, fmap_app, xor_list_app. f_equal.
      assert (seq (0 + n * m) n = Nat.add (n * m) <$> seq 0 n) as -> by (by rewrite fmap_add_seq, Nat.add_0_r).
      by rewrite <-list_fmap_compose.
Qed.
End blocks.

Section threads.
Context (read_count : Z → Z → Z) (data : list Z) (B : Z) (n t : nat).
Hypothesis Hfull : reads_full read_count.

Hypothesis HB : 0 < B.

Hypothesis Ht : (t < n)%nat.

Hypothesis HnB : Z.of_nat n * B ≤ INT_MAX.

Hypothesis Hlen : Z.of_nat (length data) ≤ INT_MAX * B.

Lemma pread_full off : 0 ≤ off → pread read_count data B off = take (Z.to_nat B) (drop (Z.to_nat off) data).
Proof.
  intros Hoff. unfold pread. case_decide as Hav.
  - by rewrite drop_ge, take_nil by lia.
  - rewrite Hfull. destruct (decide (B ≤ Z.of_nat (length data) - off)).
    + by rewrite Z.min_l by lia.
    + rewrite Z.min_r by lia. rewrite !take_ge by (rewrite length_drop; lia). done.
Qed.

Definition thread_at (buf : list Z) (x : Z) : thread_arg :=
  ThreadArg B (Some buf) x (Z.of_nat t) (Z.of_nat n).

Lemma thread_loop_spec m c buf x fuel :
  (c ≤ m)%nat → Z.of_nat (length data) ≤ Z.of_nat (n * m + t) * B → (m - c < fuel)%nat →
  thread_loop read_count fuel data (thread_at buf x) (Z.of_nat c) (Z.of_nat (n * c + t) * B) =
  Some (Z.lxor x (xor_list ((λ j, block_xor data B (n * j + t)) <$> seq c (m - c)))).
Proof.
  revert c buf x. induction fuel as [|fuel IH]; intros c buf x Hc Hm Hf; [lia|].
  cbn [thread_loop]. cbn [block_size Disk.buf xor thread_num num_threads thread_at].
  rewrite pread_full by lia. fold (block data B (n * c + t)).
  case_decide as Hr.
  - rewrite xorbuf_fill. fold (block_xor data B (n * c + t)).
    assert (Z.of_nat (n * c + t) * B < Z.of_nat (length data)) as Hlt.
    { destruct (decide (Z.of_nat (n * c + t) * B < Z.of_nat (length data))) as [|Hge]; [done|].
      unfold block in Hr. rewrite drop_ge, take_nil in Hr by lia. simpl in Hr. lia. }
    assert (c < m)%nat as Hcm by (destruct (decide (c = m)) as [->|]; lia).
    assert (Z.of_nat c * B < INT_MAX * B) as HcB by nia.
    assert (Z.of_nat c < INT_MAX) as Hci by nia.
    rewrite (i32_small (Z.of_nat c + 1)) by (unfold INT_MIN; lia).
    assert (Z.of_nat (n * S c + t) * B < 2 ^ 63) as Hbig.
    { replace (Z.of_nat (n * S c + t) * B) with (Z.of_nat (n * c + t) * B + Z.of_nat n * B) by lia.
      unfold INT_MAX in *. nia. }
    assert (0 ≤ Z.of_nat (n * S c + t) < 2 ^ 63) as Hsmall by nia.
    assert (u64 (u64 (u64 (Z.of_nat n * (Z.of_nat c + 1)) + Z.of_nat t) * B) =
            Z.of_nat (n * S c + t) * B) as ->.
    { unfold u64. rewrite (Z.mod_small (Z.of_nat n * (Z.of_nat c + 1))) by lia.
      replace (Z.of_nat n * (Z.of_nat c + 1) + Z.of_nat t) with (Z.of_nat (n * S c + t)) by lia.
      rewrite (Z.mod_small (Z.of_nat (n * S c + t))) by lia. apply Z.mod_small. nia. }
    replace (Z.of_nat c + 1) with (Z.of_nat (S c)) by lia.
    fold (thread_at (fill buf (block data B (n * c + t))) (Z.lxor x (block_xor data B (n * c + t)))).
    rewrite IH by lia. f_equal.
    replace (m - c)%nat with (S (m - S c)) by lia. simpl. unfold xor_list at 2. simpl.
    by rewrite Z.lxor_assoc.
  - f_equal.
    assert (Z.of_nat (length data) ≤ Z.of_nat (n * c + t) * B) as Hge.
    { destruct (decide (Z.of_nat (length data) ≤ Z.of_nat (n * c + t) * B)) as [|Hlt]; [done|].
      unfold block in Hr. rewrite length_take, length_drop in Hr. lia. }
    assert (xor_list ((λ j, block_xor data B (n * j + t)) <$> seq c (m - c)) = 0) as ->;
      [|by rewrite Z.lxor_0_r].
    clear -Hge HB. generalize (m - c)%nat as l. intros l.
    assert (∀ j, (c ≤ j)%nat → block_xor data B (n * j + t) = 0) as Hz.
    { intros j Hj. apply block_beyond. etrans; [exact Hge|].
      apply Z.mul_le_mono_nonneg_r; [lia|]. pose proof (Nat.mul_le_mono_l c j n Hj). lia. }
    clear Hge. revert c Hz. induction l as [|l IH]; intros c Hz; simpl; [done|].
    unfold xor_list in *. simpl. rewrite Hz by lia. rewrite IH; [done|]. intros j Hj. apply Hz. lia.
Qed.

End threads.
