(* ===== verification/DiskProps.v ===== *)
(** What the disk programs compute: the xor of the file, alone, limited to a
    number of blocks, and split among threads; the file that disk_write leaves;
    the seek loop. *)

From S2P Require Import Prelude Disk.

(** With full reads fast.c computes the xor of the file. *)
Lemma fast_reads_full read_count data junk fuel :
  reads_full read_count → Z.of_nat (length data) < Z.of_nat fuel →
  fast_disk_read read_count fuel data junk = Some (file_xor data, Z.of_nat (length data)).
Proof.
  intros Hr Hf. unfold fast_disk_read. set (buf := take _ junk).
  apply (xor_blocks_unlimited read_count data 1024 buf 0 0 fuel); try lia.
  - intros o n Hn. rewrite Hr. lia.
  - intros o n Hn. left. apply Hr.
  - by left.
Qed.

(** fast.c prints the xor of all the whole little-endian 32-bit words of
    the file, whatever the buffer held before, as long as a short read does not
    split a word; it reads to the end of the file and stops; run.c reads to the
    end for every positive block size. *)
Lemma fast_xors_the_file read_count data junk bs fuel :
  reads_some read_count → reads_aligned read_count → 0 < bs →
  Z.of_nat (length data) < Z.of_nat fuel →
  fast_disk_read read_count fuel data junk = Some (file_xor data, Z.of_nat (length data)) ∧
  run_disk_read read_count fuel data bs = Some (Z.of_nat (length data)).
Proof.
  intros Hs Ha Hbs Hf. split.
  - unfold fast_disk_read.
    apply (xor_blocks_unlimited read_count data 1024 _ 0 0 fuel); try done; try lia. by left.
  - apply read_all_spec; try done; lia.
Qed.

(** run_blocksize.c prints the xor of the words of the first
    [block_count] blocks, a block being [block_size] rounded down to whole
    words; it stops one block further in the file (if there is one), as the
    count is compared only after the next block has been read. *)
Lemma blocksize_xors_the_blocks read_count data junk bs n fuel :
  reads_full read_count → 4 ≤ bs → 0 ≤ n < Z.of_nat fuel →
  let B := 4 * (bs / 4) in
  blocksize_disk_read read_count fuel data junk bs n =
    Some (file_xor (take (Z.to_nat (n * B)) data),
          Z.min ((n + 1) * B) (Z.of_nat (length data))).
Proof.
  intros Hfull Hbs Hn B. unfold blocksize_disk_read, buf_words, sizeof_uint.
  rewrite Z.quot_div_nonneg by lia.
  assert (0 < bs / 4) as Hsz by (apply Z.div_str_pos; lia).
  pose proof (xor_blocks_limited read_count data (bs / 4) n
    (take (Z.to_nat (bs / 4 * sizeof_uint)) junk) 0 fuel Hfull Hsz ltac:(lia) ltac:(lia)) as Hx.
  cbv zeta in Hx. unfold sizeof_uint in *. rewrite Z.mul_0_l, Z.min_l in Hx by lia. simpl take in Hx.
  change (file_xor []) with 0 in Hx. unfold B. by rewrite (Z.mul_comm 4).
Qed.

(** ** Threads *)

Lemma u32_lxor a b : u32 (Z.lxor (u32 a) b) = u32 (Z.lxor a b).
Proof.
  unfold u32. apply Z.bits_inj'. intros n Hn. destruct (decide (n < 32)).
  - by rewrite !Z.mod_pow2_bits_low, !Z.lxor_spec, Z.mod_pow2_bits_low by lia.
  - by rewrite !Z.mod_pow2_bits_high by lia.
Qed.

Lemma join_xor_spec (f : nat → Z) l acc :
  INT_MIN ≤ acc ≤ INT_MAX →
  ∃ r, join_xor ((λ t, Some (f t)) <$> l) acc = Some r ∧ INT_MIN ≤ r ≤ INT_MAX ∧
       u32 r = u32 (Z.lxor acc (xor_list (f <$> l))).
Proof.
  revert acc. induction l as [|t l IH]; intros acc Hacc.
  - exists acc. simpl. by rewrite Z.lxor_0_r.
  - rewrite fmap_cons. cbn [join_xor].
    destruct (IH (i32 (Z.lxor acc (f t))) (i32_range _)) as (r & -> & Hr & Hu).
    exists r. split; [done|]. split; [done|]. rewrite Hu, fmap_cons.
    change (xor_list (f t :: (f <$> l))) with (Z.lxor (f t) (xor_list (f <$> l))).
    by rewrite <-Z.lxor_assoc, <-u32_lxor, u32_i32, u32_lxor.
Qed.

(** C27: run_multithreaded.c computes what the sequential programs do.  With
    reads that transfer all that is asked for, a buffer for every thread, and
    products that stay in the code's [int]s, the threads' blocks cover the file,
    each block once, every thread stops, and the [int] that the results are
    combined in holds the xor of all the whole words of the file: for any number
    of threads the value fast.c computes for that file, and the one
    run_blocksize.c computes with the same block size - both rounded down to
    whole words - and a block count that covers the file. *)
Theorem threads_xor_the_file read_count gets data junk bs n fuel :
  reads_full read_count → 4 ≤ bs → (0 < n)%nat → (∀ t, (t < n)%nat → gets t = true) →
  let B := 4 * (bs / 4) in
  Z.of_nat n * B ≤ INT_MAX → Z.of_nat (length data) ≤ INT_MAX * B →
  (length data < fuel)%nat →
  ∃ r, multithreaded_disk_read read_count gets fuel data junk bs n = Some r ∧
    u32 r = u32 (file_xor data) ∧
    (∀ fast_junk, ∃ x off,
       fast_disk_read read_count fuel data fast_junk = Some (x, off) ∧ u32 x = u32 r) ∧
    (∀ block_junk count fuel', 0 ≤ count < Z.of_nat fuel' → Z.of_nat (length data) ≤ count * B →
       ∃ x off, blocksize_disk_read read_count fuel' data block_junk bs count = Some (x, off) ∧
                u32 x = u32 r).
Proof.
  intros Hfull Hbs Hn Hgets B HnB Hlen Hf.
  assert (0 < bs / 4) as Hsz by (apply Z.div_str_pos; lia).
  assert (0 < B) as HB by lia.
  assert (i32 (u32 (Z.quot (u64 bs) sizeof_uint) * sizeof_uint) = B) as Hbytes.
  { unfold INT_MAX in *. assert (B ≤ Z.of_nat n * B) by nia.
    pose proof (Z.div_mod bs 4 ltac:(lia)). pose proof (Z.mod_pos_bound bs 4 ltac:(lia)).
    unfold u64. rewrite (Z.mod_small bs) by lia. unfold sizeof_uint. rewrite Z.quot_div_nonneg by lia.
    rewrite u32_small by lia. rewrite i32_small by (unfold INT_MIN, INT_MAX; lia). lia. }
  assert (∀ t, (t < n)%nat →
    thread_read read_count fuel data (ThreadArg B (Some (take (Z.to_nat B) junk)) 0 (Z.of_nat t) (Z.of_nat n)) =
    Some (xor_list ((λ j, block_xor data B (n * j + t)) <$> seq 0 (length data)))) as Hth.
  { intros t Ht. unfold thread_read. cbn [thread_num block_size].
    assert (Z.of_nat t * B < 2 ^ 31) as Hlt by (unfold INT_MAX in *; nia).
    rewrite i32_small by (unfold INT_MIN, INT_MAX; lia).
    unfold u64. rewrite Z.mod_small by lia.
    pose proof (thread_loop_spec read_count data B n t Hfull HB Ht HnB Hlen (length data) 0
      (take (Z.to_nat B) junk) 0 fuel ltac:(lia)) as Hl.
    rewrite Nat.mul_0_r, Nat.sub_0_r, Z.lxor_0_l in Hl. apply Hl; [|lia].
    assert (length data ≤ n * length data + t)%nat by nia. nia. }
  unfold multithreaded_disk_read, thread_args. rewrite Hbytes, <-list_fmap_compose.
  assert ((thread_read read_count fuel data ∘
             (λ i, ThreadArg B (if gets i then Some (take (Z.to_nat B) junk) else None) 0
                     (Z.of_nat i) (Z.of_nat n))) <$> seq 0 n =
          (λ t, Some (xor_list ((λ j, block_xor data B (n * j + t)) <$> seq 0 (length data)))) <$> seq 0 n)
    as ->.
  { apply list_fmap_ext. intros i t Hi. apply lookup_seq in Hi as [-> Hi].
    cbn. rewrite Hgets by lia. apply Hth. lia. }
  destruct (join_xor_spec (λ t, xor_list ((λ j, block_xor data B (n * j + t)) <$> seq 0 (length data)))
    (seq 0 n) 0) as (r & -> & _ & Hu); [unfold INT_MIN, INT_MAX; lia|].
  assert (u32 r = u32 (file_xor data)) as Hr.
  { rewrite Hu, Z.lxor_0_l, deal_blocks, block_xor_prefix; [|done|].
    - f_equal. f_equal. apply take_ge. nia.
    - unfold B. rewrite Z.mul_comm. apply Z.mod_mul. lia. }
  exists r. split; [done|]. split; [done|]. split.
  - intros fast_junk. exists (file_xor data), (Z.of_nat (length data)). split; [|done].
    by apply fast_reads_full; [|lia].
  - intros block_junk count fuel' Hc Hcov. eexists _, _.
    rewrite (blocksize_xors_the_blocks read_count data block_junk bs count fuel') by done.
    split; [done|]. rewrite Hr, take_ge; [done|]. fold B. lia.
Qed.

(** ** Writing and seeking *)

Lemma fill_t_spec n buf :
  (n ≤ length buf)%nat → length (fill_t n buf) = length buf ∧
  ∀ j, (j < n)%nat → fill_t n buf !! j = Some letter_t.
Proof.
  induction n as [|n IH]; intros Hn; simpl; [split; [done|lia]|].
  destruct IH as [Hl Hj]; [lia|]. split; [by rewrite length_insert|].
  intros j Hjn. destruct (decide (n = j)) as [->|].
  - apply list_lookup_insert_eq. lia.
  - rewrite list_lookup_insert_ne by done. apply Hj. lia.
Qed.

Lemma fill_t_replicate buf : fill_t (length buf) buf = replicate (length buf) letter_t.
Proof.
  destruct (fill_t_spec (length buf) buf) as [Hl Hj]; [lia|]. apply list_eq. intros j.
  destruct (decide (j < length buf)%nat) as [Hlt|Hge].
  - by rewrite Hj, lookup_replicate_2 by done.
  - rewrite !lookup_ge_None_2; [done|rewrite length_replicate; lia|lia].
Qed.

Lemma write_loop_spec write_count c buf data off :
  (∀ o n, write_count o n = n) →
  write_loop write_count c buf
    (replicate off letter_t ++ drop off data) (Z.of_nat off) =
  (replicate (off + c * length buf) letter_t ++ drop (off + c * length buf) data,
   Z.of_nat (off + c * length buf)).
Proof.
  intros Hw. revert buf off. induction c as [|c IH]; intros buf off; simpl.
  { by rewrite Nat.add_0_r. }
  rewrite fill_t_replicate, Hw, length_replicate. unfold write_at.
  rewrite Hw, length_replicate, !Nat2Z.id.
  rewrite (take_ge (replicate (length buf) letter_t)) by by rewrite length_replicate.
  rewrite take_app_le, take_ge by by rewrite length_replicate.
  rewrite length_replicate, drop_app_ge by (rewrite length_replicate; lia).
  rewrite length_replicate, drop_drop, app_assoc, <-replicate_add.
  replace (off + (off + length buf - off))%nat with (off + length buf)%nat by lia.
  rewrite <-Nat2Z.inj_add, IH, length_replicate.
  replace (off + length buf + c * length buf)%nat with (off + (length buf + c * length buf))%nat by lia.
  done.
Qed.

(** [disk_write] of full writes leaves [block_size * block_count] letters
    t at the beginning of the file, and what an older, longer file held beyond
    them: the file is not truncated. *)
Lemma disk_write_spec write_count data junk bs bc :
  (∀ o n, write_count o n = n) → 0 ≤ bs ≤ Z.of_nat (length junk) → 0 ≤ bc →
  disk_write write_count data junk bs bc =
    (replicate (Z.to_nat (bc * bs)) letter_t ++ drop (Z.to_nat (bc * bs)) data, bc * bs).
Proof.
  intros Hw Hbs Hbc. unfold disk_write.
  pose proof (write_loop_spec write_count (Z.to_nat bc) (take (Z.to_nat bs) junk) data 0 Hw) as Hl.
  simpl replicate in Hl. rewrite drop_0 in Hl. simpl app in Hl.
  change (Z.of_nat 0) with 0 in Hl. rewrite Hl. rewrite length_take, Nat.min_l by lia.
  simpl. replace (Z.to_nat bc * Z.to_nat bs)%nat with (Z.to_nat (bc * bs)) by lia. f_equal. lia.
Qed.

Lemma seek_loop_spec fuel bc bs k :
  0 < bs → 0 ≤ k ≤ bc → bc * bs ≤ INT_MAX → bc - k < Z.of_nat fuel →
  seek_loop fuel (bc * bs) bs (k * bs) (k * bs) = Some (bc * bs, bc * bs).
Proof.
  intros Hbs. revert k. induction fuel as [|fuel IH]; intros k Hk Hmax Hf; [lia|]. simpl.
  case_decide as Hlt.
  - assert (k < bc) as Hkb by nia. rewrite i32_small by (unfold INT_MIN, INT_MAX in *; nia).
    rewrite decide_True by nia. replace (k * bs + bs) with ((k + 1) * bs) by lia. apply IH; lia.
  - assert (k = bc) as -> by nia. done.
Qed.

(** the seek loop of part_4_lseek_run.c ends and has moved the offset over
    exactly [block_count] blocks while the product is an [int]; when it is
    between 2^31 and 2^32 the product is negative and no seek is made. *)
Lemma lseek_covers_the_blocks bs bc fuel :
  0 < bs ≤ INT_MAX → 0 ≤ bc < Z.of_nat fuel →
  (bc * bs ≤ INT_MAX → lseek_disk_read fuel bs bc = Some (bc * bs, bc * bs)) ∧
  (INT_MAX < bc * bs < 2 ^ 32 → lseek_disk_read fuel bs bc = Some (0, 0)).
Proof.
  intros Hbs Hbc. unfold lseek_disk_read. split; intros Hp.
  - rewrite i32_small by (unfold INT_MIN; nia). apply (seek_loop_spec fuel bc bs 0); lia.
  - destruct fuel as [|fuel]; [lia|]. simpl. rewrite decide_False; [done|].
    unfold i32, INT_MAX in *. rewrite <-(Z.mod_add (bc * bs + 2 ^ 31) (-1)) by lia.
    rewrite Z.mod_small by lia. lia.
Qed.

(** ** At work *)

(** Eleven bytes: two words and a rest. *)
Definition a_file : list Z := [1; 2; 3; 4; 255; 0; 16; 32; 7; 7; 7].

(** Reads that return at most eight bytes, and full reads. *)
Definition eight_at_most (_ n : Z) : Z := Z.min n 8.

Definition full (_ n : Z) : Z := n.

Lemma fast_xors_the_file_witness :
  fast_disk_read eight_at_most 12 a_file [9; 9] = Some (Z.lxor 67305985 537919743, 11).
Proof.
  apply (fast_xors_the_file eight_at_most a_file [9; 9] 1 12).
  - intros off n Hn. unfold eight_at_most. lia.
  - intros off n Hn. unfold eight_at_most.
    destruct (decide (n ≤ 8)); [left; lia|right; rewrite Z.min_r by lia; reflexivity].
  - lia.
  - simpl. lia.
Defined.

Lemma blocksize_xors_the_blocks_witness :
  blocksize_disk_read full 5 a_file [] 6 1 = Some (67305985, 8).
Proof. apply (blocksize_xors_the_blocks full a_file [] 6 1 5); [by intros ? ?|lia|lia]. Defined.

Lemma threads_xor_the_file_witness :
  ∃ r, multithreaded_disk_read full (λ _, true) 12 a_file [] 5 3 = Some r ∧
    u32 r = u32 (Z.lxor 67305985 537919743) ∧
    (∃ x off, fast_disk_read full 12 a_file [9] = Some (x, off) ∧ u32 x = u32 r) ∧
    ∃ x off, blocksize_disk_read full 4 a_file [9] 5 3 = Some (x, off) ∧ u32 x = u32 r.
Proof.
  destruct (threads_xor_the_file full (λ _, true) a_file [] 5 3 12) as (r & Hm & Hx & Hf & Hb);
    [by intros ? ?|lia|lia|done|by vm_compute|by vm_compute|simpl; lia|].
  exists r. split; [exact Hm|]. split; [exact Hx|]. split; [apply Hf|]. by apply Hb; vm_compute.
Defined.

Lemma disk_write_spec_witness :
  disk_write full [1; 2; 3; 4; 5; 6; 7] [0; 0; 0; 0] 2 3 =
    ([116; 116; 116; 116; 116; 116; 7], 6).
Proof. apply (disk_write_spec full [1; 2; 3; 4; 5; 6; 7] [0; 0; 0; 0] 2 3); [by intros ? ?|simpl; lia|lia]. Defined.

Lemma lseek_covers_the_blocks_witness :
  lseek_disk_read 7 512 6 = Some (3072, 3072) ∧ lseek_disk_read 7 1073741824 3 = Some (0, 0).
Proof.
  split.
  - apply (lseek_covers_the_blocks 512 6 7); unfold INT_MAX; lia.
  - apply (lseek_covers_the_blocks 1073741824 3 7); unfold INT_MAX; lia.
Defined.
