(* ===== verification/DiskMain.v ===== *)
(** The disk programs from their command lines to the files and the terminal:
    main, [disk_read] and [disk_write] composed over a file system, and that
    what run_blocksize.c writes it reads back. *)

From stdpp Require Import gmap list.
From S2P Require Import Prelude Disk DiskProps.

(** A file: its bytes and the permission bits of its mode. *)
Record file : Type := File { data : list Z; mode : Z }.

Notation fs := (gmap (list Z) file).

(** What a program leaves: how often [usage()] was printed, the xor it printed,
    and the files. *)
Record result : Type := Result { usages : nat; printed : option Z; files : fs }.

Section programs.
Context (atoi : list Z → Z).                          (* the standard library's *)
Context (uninit : Z).                                 (* the value of [mode] before it is set *)
Context (read_count write_count : Z → Z → Z).         (* bytes a call transfers *)
Context (junk : list Z).                              (* the stack under the buffers *)
Context (gets : nat → bool).                          (* the threads [malloc] gives buffers *)
Context (root : bool) (umask : Z).                    (* the user that runs it *)

(** S_IRUSR and S_IWUSR: bits 8 and 7 of the mode, for the owner. *)
Definition may_access (bit : Z) (x : file) : bool := root || Z.testbit (mode x) bit.

(** A file that cannot be opened: [read] of the descriptor -1 gives nothing. *)
Definition contents (f : fs) (name : list Z) : list Z :=
  match f !! name with
  | Some x => if may_access 8 x then data x else []
  | None => []
  end.

(** [open(filename, O_WRONLY|O_CREAT, 777)]: a new file gets the mode, which is
    looked at from the next [open] on. *)
Definition new_file : file := File [] (Z.ldiff create_mode umask).

Definition open_write (name : list Z) (f : fs) : option file :=
  match f !! name with
  | Some x => if may_access 7 x then Some x else None
  | None => Some new_file
  end.

(** [disk_write]; [write] to the descriptor -1 does nothing. *)
Definition write_file (name : list Z) (bs bc : Z) (f : fs) : fs :=
  match open_write name f with
  | Some x => <[name := File (disk_write write_count (data x) junk bs bc).1 (mode x)]> f
  | None => f
  end.

(** The other writers have the text of run.c's. *)
Definition blocksize_disk_write : list Z → Z → Z → fs → fs := write_file.

Definition lseek_disk_write : list Z → Z → Z → fs → fs := write_file.

Definition multithreaded_disk_write : list Z → Z → Z → fs → fs := write_file.

(** run.c reads to the end and prints nothing. [None] stands for a crash, or
    for a loop that is still running. *)
Definition run_program (fuel : nat) (argv : list (list Z)) (f : fs) : option result :=
  match main_run atoi uninit argv with
  | (u, DoRead name bs _) =>
      match run_disk_read read_count fuel (contents f name) bs with
      | Some _ => Some (Result u None f)
      | None => None
      end
  | (u, DoWrite name bs bc) => Some (Result u None (write_file name bs bc f))
  | (u, DoNothing) => Some (Result u None f)
  | (_, Fault) => None
  end.

Definition blocksize_program (fuel : nat) (argv : list (list Z)) (f : fs) : option result :=
  match main_run atoi uninit argv with
  | (u, DoRead name bs bc) =>
      match blocksize_disk_read read_count fuel (contents f name) junk bs bc with
      | Some (x, _) => Some (Result u (Some x) f)
      | None => None
      end
  | (u, DoWrite name bs bc) => Some (Result u None (blocksize_disk_write name bs bc f))
  | (u, DoNothing) => Some (Result u None f)
  | (_, Fault) => None
  end.

Definition lseek_program (fuel : nat) (argv : list (list Z)) (f : fs) : option result :=
  match main_run atoi uninit argv with
  | (u, DoRead name bs bc) =>
      match lseek_disk_read fuel bs bc with
      | Some _ => Some (Result u None f)
      | None => None
      end
  | (u, DoWrite name bs bc) => Some (Result u None (lseek_disk_write name bs bc f))
  | (u, DoNothing) => Some (Result u None f)
  | (_, Fault) => None
  end.

(** The xor of the threads is computed and not printed. *)
Definition multithreaded_program (fuel : nat) (argv : list (list Z)) (f : fs) : option result :=
  match main_multithreaded atoi uninit argv with
  | (u, MultiRead name bs nt) =>
      match multithreaded_disk_read read_count gets fuel (contents f name) junk bs (Z.to_nat nt) with
      | Some _ => Some (Result u None f)
      | None => None
      end
  | (u, MultiWrite name bs bc) => Some (Result u None (multithreaded_disk_write name bs bc f))
  | (u, MultiNothing) => Some (Result u None f)
  | (_, MultiFault) => None
  end.

Definition fast_program (fuel : nat) (argv : list (list Z)) (f : fs) : option result :=
  match main_fast argv with
  | (u, Some name) =>
      match fast_disk_read read_count fuel (contents f name) junk with
      | Some (x, _) => Some (Result u (Some x) f)
      | None => None
      end
  | (_, None) => None
  end.

(** Four letters t as a word. *)
Definition tttt : Z := word letter_t letter_t letter_t letter_t.

Definition flag (c : Z) : list Z := [45; c].

(** ** Lemmas *)

Lemma words_t k : words (replicate (4 * k) letter_t) = replicate k tttt.
Proof.
  induction k as [|k IH]; [done|].
  replace (4 * S k)%nat with (S (S (S (S (4 * k))))) by lia. cbn [replicate words]. by rewrite IH.
Qed.

Lemma xor_t k : xor_list (replicate k tttt) = if Nat.odd k then tttt else 0.
Proof.
  induction k as [|k IH]; [done|].
  change (xor_list (replicate (S k) tttt)) with (Z.lxor tttt (xor_list (replicate k tttt))).
  rewrite IH, Nat.odd_succ, <-Nat.negb_odd. by destruct (Nat.odd k).
Qed.

Lemma file_xor_t k : file_xor (replicate (4 * k) letter_t) = if Nat.odd k then tttt else 0.
Proof. unfold file_xor. by rewrite words_t, xor_t. Qed.

Lemma main_reads p name sbs sbc :
  main_run atoi uninit [p; name; flag 114; sbs; sbc] = (0%nat, DoRead name (atoi sbs) (atoi sbc)).
Proof. reflexivity. Qed.

Lemma main_writes p name sbs sbc :
  main_run atoi uninit [p; name; flag 119; sbs; sbc] = (0%nat, DoWrite name (atoi sbs) (atoi sbc)).
Proof. reflexivity. Qed.

(** The file can be opened for both, or created and then read. *)
Definition readable_writable (name : list Z) (f : fs) : Prop :=
  match f !! name with
  | Some x => may_access 8 x = true ∧ may_access 7 x = true
  | None => Z.testbit umask 8 = false
  end.

Lemma new_file_modes : Z.testbit umask 8 = false → may_access 8 new_file = true ∧ may_access 7 new_file = root.
Proof.
  intros Hu. unfold may_access, new_file. cbn [mode]. rewrite !Z.ldiff_spec, Hu. by destruct root.
Qed.

Lemma readable_written name f :
  readable_writable name f → ∃ x, open_write name f = Some x ∧ may_access 8 x = true ∧
    data x = default [] (data <$> f !! name) ∧ (f !! name = None → may_access 7 x = root).
Proof.
  unfold readable_writable, open_write. destruct (f !! name) as [x|].
  - intros [Hr ->]. exists x. split_and!; done.
  - intros [Hr Hw]%new_file_modes. exists new_file. split_and!; done.
Qed.

(** C35: what run_blocksize.c writes it reads back.  After [-w], whatever the
    file held, [-r] with the same block size and count prints the xor of as many
    words of four letters t as the blocks hold - 0x74747474 when their number is
    odd, and 0 when it is even -, with no usage message; the other files are as
    they were. If the file was not longer than what was written, fast.c prints
    the same for a block size of whole words. And when the file was created, a
    second [-w] changes nothing unless run by root: the mode 777 is decimal and
    does not let the owner write. *)
Theorem written_file_reads_back p name sbs sbc fuel f :
  reads_full read_count → (∀ o n, write_count o n = n) → readable_writable name f →
  4 ≤ atoi sbs ≤ Z.of_nat (length junk) → 0 ≤ atoi sbc < Z.of_nat fuel →
  let n := Z.to_nat (atoi sbc * (atoi sbs / 4)) in
  let x := if Nat.odd n then tttt else 0 in
  ∃ f', blocksize_program fuel [p; name; flag 119; sbs; sbc] f = Some (Result 0 None f') ∧
    blocksize_program fuel [p; name; flag 114; sbs; sbc] f' = Some (Result 0 (Some x) f') ∧
    (∀ other, other ≠ name → f' !! other = f !! other) ∧
    (atoi sbs mod 4 = 0 → Z.of_nat (length (default [] (data <$> f !! name))) ≤ atoi sbc * atoi sbs →
     atoi sbc * atoi sbs < Z.of_nat fuel →
     fast_program fuel [p; name] f' = Some (Result 0 (Some x) f')) ∧
    (f !! name = None → root = false → ∀ sbs' sbc',
     blocksize_program fuel [p; name; flag 119; sbs'; sbc'] f' = Some (Result 0 None f')).
Proof.
  intros Hr Hw Hrw Hbs Hbc n x. set (bs := atoi sbs) in *. set (bc := atoi sbc) in *.
  destruct (readable_written name f Hrw) as (y & Hy & Hy8 & Hyd & Hy7).
  set (new := replicate (Z.to_nat (bc * bs)) letter_t ++ drop (Z.to_nat (bc * bs)) (data y)).
  set (f' := <[name := File new (mode y)]> f).
  assert (contents f' name = new) as Hnew.
  { unfold contents, f'. rewrite lookup_insert_eq. change (may_access 8 _) with (may_access 8 y). by rewrite Hy8. }
  exists f'. split_and!.
  - unfold blocksize_program, blocksize_disk_write, write_file. rewrite main_writes. cbn. rewrite Hy. fold bs bc.
    by rewrite (disk_write_spec write_count (data y) junk bs bc Hw) by lia.
  - unfold blocksize_program. rewrite main_reads. cbn. fold bs bc.
    rewrite Hnew, (blocksize_xors_the_blocks read_count new junk bs bc fuel Hr) by lia.
    do 3 f_equal. unfold new. pose proof (Z.mul_div_le bs 4 ltac:(lia)).
    rewrite take_app_le, take_replicate by (rewrite length_replicate; nia).
    rewrite Nat.min_l by nia.
    replace (Z.to_nat (bc * (4 * (bs / 4)))) with (4 * n)%nat by (unfold n; lia).
    by rewrite file_xor_t.
  - intros other Ho. by apply lookup_insert_ne.
  - intros Hm Hold Hf. unfold fast_program. cbn. rewrite <-Hyd in Hold.
    rewrite Hnew. unfold new. rewrite drop_ge, app_nil_r by lia.
    rewrite fast_reads_full by (done || rewrite length_replicate; lia).
    replace (Z.to_nat (bc * bs)) with (4 * n)%nat by (unfold n; pose proof (Z.div_mod bs 4); lia).
    by rewrite file_xor_t.
  - intros Hnone Hroot sbs' sbc'. unfold blocksize_program, blocksize_disk_write, write_file.
    rewrite main_writes. cbn. unfold open_write at 1, f' at 1. rewrite lookup_insert_eq.
    change (may_access 7 (File new (mode y))) with (may_access 7 y). by rewrite (Hy7 Hnone), Hroot.
Qed.

End programs.

(** ** At work *)

(** Three blocks of four bytes, over a longer file. *)
Definition number_of (arg : list Z) : Z := match arg with [d] => d - 48 | _ => 0 end.

Definition some_fs : fs := {[ [102] := File [1; 2; 3] 420 ]}.

Lemma written_file_reads_back_witness :
  (∃ f', blocksize_program number_of 0 full full (replicate 9 0) false 18 20
          [[]; [102]; flag 119; [52]; [51]] some_fs = Some (Result 0 None f') ∧
    fast_program full (replicate 9 0) false 20 [[]; [102]] f' =
      Some (Result 0 (Some 1953789044) f')) ∧
  (∃ f', blocksize_program number_of 0 full full (replicate 9 0) false 18 20
          [[]; [103]; flag 119; [52]; [51]] some_fs = Some (Result 0 None f') ∧
    blocksize_program number_of 0 full full (replicate 9 0) false 18 20
          [[]; [103]; flag 119; [53]; [54]] f' = Some (Result 0 None f')).
Proof.
  split.
  - destruct (written_file_reads_back number_of 0 full full (replicate 9 0) false 18
      [] [102] [52] [51] 20 some_fs) as (f' & Hw & _ & _ & Hf & _); [done|done|by vm_compute|by vm_compute|by vm_compute|].
    exists f'. split; [exact Hw|]. by apply Hf.
  - destruct (written_file_reads_back number_of 0 full full (replicate 9 0) false 18
      [] [103] [52] [51] 20 some_fs) as (f' & Hw & _ & _ & _ & Hagain); [done|done|by vm_compute|by vm_compute|by vm_compute|].
    exists f'. split; [exact Hw|]. by apply Hagain.
Defined.
