(* ===== verification/Benchmark.v ===== *)
(** benchmark_extra_cred.cpp: the two timed functions, which the benchmark
    library calls as often as it sees fit, over files with permissions and a
    bounded number of descriptors; and what each call really transfers. *)

From stdpp Require Import gmap list.
From S2P Require Import Prelude Disk DiskProps DiskMain.

(** The files, and how many descriptors the process can still open; the
    program closes none. *)
Record bstate : Type := BState { disk : fs; free_fds : nat }.

(** "benchmarktest.txt" *)
Definition bm_filename : list Z :=
  [98; 101; 110; 99; 104; 109; 97; 114; 107; 116; 101; 115; 116; 46; 116; 120; 116].

Definition bm_block_size : Z := 512.

Definition bm_block_count : Z := 1953125.

Section benchmark.
Context (root : bool) (umask : Z).                    (* the user that runs it *)
Context (read_count write_count : Z → Z → Z).         (* bytes a call transfers *)
Context (junk : list Z).                              (* the stack under the buffers *)

(** [open(filename, O_RDONLY)]: the file, and a descriptor less. *)
Definition bm_open_read (name : list Z) (s : bstate) : option (file * bstate) :=
  match free_fds s, disk s !! name with
  | S n, Some f => if may_access root 8 f then Some (f, BState (disk s) n) else None
  | _, _ => None
  end.

(** [open(filename, O_WRONLY|O_CREAT, 777)] *)
Definition bm_open_write (name : list Z) (s : bstate) : option (file * bstate) :=
  match free_fds s, open_write root umask name (disk s) with
  | S n, Some f => Some (f, BState (<[name := f]> (disk s)) n)
  | _, _ => None
  end.

(** [disk_read]: the bytes read; those of the descriptor -1 are none. *)
Definition bm_disk_read (fuel : nat) (name : list Z) (block_size : Z) (s : bstate)
    : option (Z * bstate) :=
  match bm_open_read name s with
  | None => Some (0, s)
  | Some (f, s) =>
      match read_all read_count fuel (data f) block_size 0 with
      | Some n => Some (n, s)
      | None => None
      end
  end.

(** [disk_write]: the bytes written. *)
Definition bm_disk_write (name : list Z) (block_size block_count : Z) (s : bstate) : Z * bstate :=
  match bm_open_write name s with
  | None => (0, s)
  | Some (f, s) =>
      let '(d, n) := disk_write write_count (data f) junk block_size block_count in
      (n, BState (<[name := File d (mode f)]> (disk s)) (free_fds s))
  end.

(** [for (auto _ : state) disk_write(...)]: [n] iterations, and what each
    transfers. *)
Fixpoint BM_Write (n : nat) (s : bstate) : list Z * bstate :=
  match n with
  | O => ([], s)
  | S n' =>
      let '(w, s) := bm_disk_write bm_filename bm_block_size bm_block_count s in
      let '(ws, s) := BM_Write n' s in (w :: ws, s)
  end.

Fixpoint BM_Read (fuel n : nat) (s : bstate) : option (list Z * bstate) :=
  match n with
  | O => Some ([], s)
  | S n' =>
      '(r, s) ← bm_disk_read fuel bm_filename bm_block_size s;
      '(rs, s) ← BM_Read fuel n' s;
      Some (r :: rs, s)
  end.

(** [BENCHMARK_MAIN()]: the functions in the order they are registered. *)
Definition benchmark_main (fuel writes reads : nat) (s : bstate) : option (list Z * list Z * bstate) :=
  let '(ws, s) := BM_Write writes s in
  '(rs, s) ← BM_Read fuel reads s;
  Some (ws, rs, s).

(** ** Lemmas *)

Hypothesis reads_full : reads_full read_count.
Hypothesis writes_full : ∀ o n, write_count o n = n.
Hypothesis Hjunk : bm_block_size ≤ Z.of_nat (length junk).

(** A thousand million bytes. *)
Definition bm_bytes : Z := bm_block_count * bm_block_size.

Definition written (f : file) : Prop := data f = replicate (Z.to_nat bm_bytes) letter_t.

Lemma bm_bytes_nonneg : 0 ≤ bm_bytes.
Proof. done. Qed.

(** Writing over what is shorter, or was written before. *)
Lemma write_written d :
  (d = [] ∨ d = replicate (Z.to_nat bm_bytes) letter_t) →
  disk_write write_count d junk bm_block_size bm_block_count =
    (replicate (Z.to_nat bm_bytes) letter_t, bm_bytes).
Proof.
  intros Hd. rewrite disk_write_spec by (done || unfold bm_block_size, bm_block_count in *; lia).
  fold bm_bytes. pose proof bm_bytes_nonneg. generalize dependent bm_bytes. intros N Hd HN. f_equal.
  destruct Hd as [->| ->]; [by rewrite drop_nil, app_nil_r|].
  by rewrite drop_ge, app_nil_r by by rewrite length_replicate.
Qed.

#[local] Opaque bm_bytes bm_filename.

#[local] Arguments disk_write : simpl never.

(** The later iterations of BM_Write: the file is there. *)
Lemma BM_Write_again n s f :
  disk s !! bm_filename = Some f → written f →
  let k := if may_access root 7 f then Nat.min n (free_fds s) else 0%nat in
  BM_Write n s = (replicate k bm_bytes ++ replicate (n - k) 0, BState (disk s) (free_fds s - k)).
Proof.
  intros Hf Hw k. revert s k Hf. induction n as [|n IH]; intros [fs [|q]] k Hf; subst k;
    simpl in Hf; cbn [BM_Write].
  - by destruct (may_access root 7 f).
  - by destruct (may_access root 7 f).
  - unfold bm_disk_write, bm_open_write, open_write. cbn [disk free_fds]. rewrite (IH (BState fs 0) Hf). simpl.
    by destruct (may_access root 7 f); rewrite ?Nat.min_0_r, ?Nat.sub_0_r.
  - unfold bm_disk_write, bm_open_write, open_write. cbn [disk free_fds]. rewrite Hf. destruct (may_access root 7 f) eqn:Ha.
    + rewrite write_written by by right. cbn [disk free_fds]. rewrite insert_insert_eq.
      assert (<[bm_filename := File (replicate (Z.to_nat bm_bytes) letter_t) (mode f)]> fs = fs) as ->.
      { apply insert_id. rewrite Hf. destruct f as [d m]. unfold written in Hw. simpl in *. by rewrite Hw. }
      rewrite (IH (BState fs q) Hf). reflexivity.
    + rewrite (IH (BState fs (S q)) Hf). simpl. by rewrite Nat.sub_0_r.
Qed.

Lemma BM_Read_spec fuel n s f :
  disk s !! bm_filename = Some f → written f → may_access root 8 f = true → bm_bytes < Z.of_nat fuel →
  let k := Nat.min n (free_fds s) in
  BM_Read fuel n s =
    Some (replicate k bm_bytes ++ replicate (n - k) 0, BState (disk s) (free_fds s - k)).
Proof.
  intros Hf Hw Ha Hfuel k. revert s k Hf. induction n as [|n IH]; intros [fs [|q]] k Hf; subst k;
    simpl in Hf; cbn [BM_Read]; [done|done| |].
  - unfold bm_disk_read, bm_open_read. cbn [disk free_fds mbind option_bind]. by rewrite (IH (BState fs 0) Hf), Nat.min_0_r, Nat.sub_0_r.
  - unfold bm_disk_read, bm_open_read. cbn [disk free_fds mbind option_bind]. rewrite Hf, Ha.
    assert (Z.of_nat (length (data f)) = bm_bytes) as Hlen.
    { rewrite Hw, length_replicate. apply Z2Nat.id, bm_bytes_nonneg. }
    rewrite read_all_spec, Hlen; [|intros o z Hz; rewrite reads_full; lia|done|lia|lia]. simpl.
    by rewrite (IH (BState fs q) Hf).
Qed.

(** C36: what the benchmark times, when the file does not exist before. The
    first iteration of BM_Write creates it and writes its thousand million
    letters; the mode is the decimal 777, which does not let the owner write, so
    the following iterations fail to open it and transfer nothing, unless run
    by root.  BM_Read reads all of the bytes as long as there are descriptors -
    none is ever closed -, and nothing afterwards.  The file keeps the letters. *)
Theorem benchmark_transfers fuel writes reads s :
  disk s !! bm_filename = None → Z.testbit umask 8 = false → bm_bytes < Z.of_nat fuel →
  (0 < writes)%nat → (0 < free_fds s)%nat →
  let w := if root then Nat.min writes (free_fds s) else 1%nat in
  let r := Nat.min reads (free_fds s - w) in
  ∃ s' f, benchmark_main fuel writes reads s =
      Some (replicate w bm_bytes ++ replicate (writes - w) 0,
            replicate r bm_bytes ++ replicate (reads - r) 0, s') ∧
    disk s' = <[bm_filename := f]> (disk s) ∧ written f ∧ free_fds s' = (free_fds s - w - r)%nat.
Proof.
  intros Hnone Hu Hfuel Hwrites Hfds w r.
  destruct writes as [|writes]; [lia|]. destruct s as [fs [|q]]; simpl in Hnone, Hfds; [lia|]. clear Hfds Hwrites.
  destruct (new_file_modes root umask Hu) as [Hread Hwrite].
  set (f := File (replicate (Z.to_nat bm_bytes) letter_t) (mode (new_file umask))).
  assert (written f) as Hf by done.
  unfold benchmark_main. cbn [BM_Write]. unfold bm_disk_write at 1, bm_open_write, open_write.
  cbn [disk free_fds]. rewrite Hnone. rewrite write_written by by left.
  cbn [disk free_fds]. rewrite insert_insert_eq. fold f.
  rewrite (BM_Write_again writes _ f) by (exact Hf || exact (lookup_insert_eq _ _ _)). cbn [disk free_fds].
  change (may_access root 7 f) with (may_access root 7 (new_file umask)). rewrite Hwrite.
  rewrite (BM_Read_spec fuel reads _ f) by (exact Hf || exact Hread || exact Hfuel || exact (lookup_insert_eq _ _ _)).
  cbn [disk free_fds mbind option_bind].
  set (k := if root then _ else _).
  assert (w = S k) as Hw by (subst w k; destruct root; reflexivity).
  exists (BState (<[bm_filename := f]> fs) (q - k - Nat.min reads (q - k))), f. unfold r. rewrite Hw.
  split; [reflexivity|]. split; [reflexivity|]. split; [exact Hf|reflexivity].
Qed.

End benchmark.

(** ** At work *)

(** With 1020 descriptors, three iterations of BM_Write and two thousand of
    BM_Read, not run by root: one write and 1019 reads transfer something. *)
Lemma benchmark_transfers_witness :
  ∃ s', benchmark_main false 18 full full (replicate 512 0) (S (Z.to_nat bm_bytes)) 3 2000 (BState ∅ 1020) =
    Some (bm_bytes :: replicate 2 0, replicate 1019 bm_bytes ++ replicate 981 0, s') ∧ free_fds s' = 0%nat.
Proof.
  destruct (benchmark_transfers false 18 full full (replicate 512 0))
    with (fuel := S (Z.to_nat bm_bytes)) (writes := 3%nat) (reads := 2000%nat) (s := BState ∅ 1020)
    as (s' & f & Hrun & _ & _ & Hfds).
  - done.
  - done.
  - done.
  - reflexivity.
  - reflexivity.
  - pose proof (bm_bytes_nonneg). lia.
  - lia.
  - simpl. lia.
  - exists s'. split; [exact Hrun|exact Hfds].
Defined.
