(* ===== verification/Uniq.v ===== *)
(** hw1/uniq.c: reading a line byte by byte into a 1024-byte buffer, the
    comparison of lines on the stack, the two modes and the arguments.

    [read], [printf], [strcmp], [strcpy], [strlen] and [memset] are the user
    library's; what the program relies on is modelled, with the out-of-bounds
    accesses of the code as accesses to memory the program does not control. *)

From S2P Require Import Prelude.

Definition LINE_SIZE : Z := 1024.

(** '\n' *)
Definition newline : Z := 10.

(** What the program prints: a line, with its count in count mode; the
    messages of the error exits. *)
Inductive output : Type :=
| OutLine (count : option Z) (line : list Z)
| OutEmpty
| OutUsage.

Inductive uerr : Type :=
| Overflow        (* a write or a string beyond the 1024 bytes *)
| Exited (out : list output)
| NoFuel.

(** The three global arrays, the rest of the input, the output so far, and what
    the last call of [string_compare] has left on the stack. *)
Record ust : Type := UState {
  last_line : list Z; this_line : list Z; one_bit : Z; input : list Z; out : list output;
  stack : list Z
}.

Definition zeros : list Z := replicate (Z.to_nat LINE_SIZE) 0.

Definition initial_state (stk inp : list Z) : ust := UState zeros zeros 0 inp [] stk.

Section uniq.
(** The byte behind [one_bit], which [strcmp(one_bit, ...)] also reads; whether
    [read] fails, with -1, once the input is used up, as it does on a descriptor
    that is not open. *)
Context (behind : Z) (broken : bool).

(** The stack below the frame of [string_compare], as a list of bytes from some
    lower address on: [top] is where the frame's arrays begin, going down, and
    [room n] what the compiler reserves for one of [n] bytes. [clobber s] is
    what is there when [string_compare] is called in state [s]: what its last
    call has left, after whatever the calls in between have put over it. *)
Context (top : nat) (room : nat → nat) (clobber : ust → list Z).

(** ** C strings *)

(** Whether there is a NUL inside the buffer. *)
Definition terminated (buf : list Z) : bool := existsb (Z.eqb 0) buf.

Definition strcmp_eq (a b : list Z) : bool := bool_decide (cstr a = cstr b).

(** [memset(line,0,1024); strcpy(line, s)] *)
Definition load_line (s : list Z) : list Z := s ++ drop (length s) zeros.

(** ** myreadline *)

(** The loop: [line] has been filled up to [position]. The result is the
    return value, with the buffer, [one_bit] and the rest of the input. A failing
    [read] leaves [one_bit] as it was: after a newline that ends another line,
    and any other byte is stored again and again, beyond the end of the array. *)
Fixpoint read_loop (inp : list Z) (bit : Z) (line : list Z) (position : nat)
    : option (Z * list Z * Z * list Z) :=
  let finish num bit inp :=
    if decide (position < length line)%nat then
      let num := if decide (num = 0 ∧ position = 0%nat) then 0 else 1 in
      Some (num, <[position := newline]> line, bit, inp)
    else None in
  match inp with
  | [] =>
      if negb broken then finish 0 bit []
      else if strcmp_eq [bit; behind] [newline; 0] then finish (-1) bit []
      else None
  | b :: inp' =>
      if strcmp_eq [b; behind] [newline; 0] then finish 1 b inp'
      else if decide (position < length line)%nat
      then read_loop inp' b (<[position := b]> line) (S position)
      else None
  end.

Definition myreadline (inp : list Z) (bit : Z) : option (Z * list Z * Z * list Z) :=
  read_loop inp bit zeros 0.

(** ** string_compare *)

Definition upper (b : Z) : Z := if decide (97 ≤ b ∧ b ≤ 122) then b - 32 else b.

(** The bytes written to memory at an offset. *)
Definition write_at (off : nat) (bs mem : list Z) : list Z :=
  take off mem ++ bs ++ drop (off + length bs) mem.

(** [to_upper] copies up to the NUL of [str] but not the NUL itself. *)
Definition to_upper (str : list Z) (off : nat) (mem : list Z) : list Z :=
  write_at off (upper <$> cstr str) mem.

Definition strcpy (str : list Z) (off : nat) (mem : list Z) : list Z :=
  write_at off (cstr str ++ [0]) mem.

(** The arrays have [strlen] bytes, so the NUL that [strcpy] writes lies behind
    them, and after [to_upper] none is written at all. The first array is
    allocated first, above the second. The result comes with the memory as the
    call leaves it. *)
Definition offset1 (str1 : list Z) : nat := (top - room (length (cstr str1)))%nat.

Definition offset2 (str1 str2 : list Z) : nat := (offset1 str1 - room (length (cstr str2)))%nat.

Definition string_compare (mem str1 str2 : list Z) (ignore_case : bool) : bool * list Z :=
  let copy := if ignore_case then to_upper else strcpy in
  let mem := copy str2 (offset2 str1 str2) (copy str1 (offset1 str1) mem) in
  (strcmp_eq (drop (offset1 str1) mem) (drop (offset2 str1 str2) mem), mem).

(** ** The two modes *)

Definition U (A : Type) : Type := prog ust uerr A.

#[local] Instance U_ret : MRet U := @prog_ret ust uerr.

#[local] Instance U_bind : MBind U := @prog_bind ust uerr.

Definition print (o : output) : U unit :=
  modify (λ s, UState (last_line s) (this_line s) (one_bit s) (input s) (out s ++ [o]) (stack s)).

Definition set_last (l : list Z) : U unit :=
  modify (λ s, UState l (this_line s) (one_bit s) (input s) (out s) (stack s)).

Definition set_this (l : list Z) : U unit :=
  modify (λ s, UState (last_line s) l (one_bit s) (input s) (out s) (stack s)).

(** [myreadline(fd_in, one_bit, this_line)], or [last_line]. *)
Definition readline (into_last : bool) : U Z :=
  s ← (get : U ust);
  '(num, line, bit, rest) ← (expect Overflow (myreadline (input s) (one_bit s)) : U _);
  modify (λ s, UState (if into_last then line else last_line s)
                      (if into_last then this_line s else line) bit rest (out s) (stack s)) ;;
  mret num.

(** The call of [string_compare]. *)
Definition same (last this : list Z) (ignore : bool) : U bool :=
  s ← (get : U ust);
  let '(r, mem) := string_compare (clobber s) last this ignore in
  modify (λ s, UState (last_line s) (this_line s) (one_bit s) (input s) (out s) mem) ;;
  mret r.

(** A buffer as a string: running past its end is an error. *)
Definition str_of (buf : list Z) : U (list Z) :=
  if terminated buf then mret (cstr buf) else fail Overflow.

Fixpoint duplicate_loop (fuel : nat) (ignore dupe_found : bool) : U unit :=
  match fuel with
  | O => fail NoFuel
  | S fuel' =>
      n ← readline false;
      if decide (0 < n) then
        s ← (get : U ust);
        last ← str_of (last_line s);
        this ← str_of (this_line s);
        eq ← same last this ignore;
        if (eq : bool) && negb dupe_found then
          print (OutLine None last) ;;
          duplicate_loop fuel' ignore true
        else
          set_last (load_line this) ;;
          duplicate_loop fuel' ignore false
      else mret tt
  end.

Definition uniq_duplicate_mode (fuel : nat) (ignore : bool) : U unit :=
  duplicate_loop fuel ignore false.

Definition count_of (count : bool) (n : Z) : option Z := if count then Some n else None.

Fixpoint non_duplicate_loop (fuel : nat) (ignore count : bool) (dupe_count : Z) : U unit :=
  match fuel with
  | O => fail NoFuel
  | S fuel' =>
      n ← readline false;
      s ← (get : U ust);
      last ← str_of (last_line s);
      if decide (0 < n) then
        this ← str_of (this_line s);
        eq ← same last this ignore;
        if negb eq then
          print (OutLine (count_of count dupe_count) last) ;;
          set_last (load_line this) ;;
          set_this zeros ;;
          non_duplicate_loop fuel' ignore count 1
        else
          set_this zeros ;;
          non_duplicate_loop fuel' ignore count (i32 (dupe_count + 1))
      else print (OutLine (count_of count dupe_count) last)
  end.

Definition uniq_non_duplicate_mode (fuel : nat) (ignore count : bool) : U unit :=
  non_duplicate_loop fuel ignore count 1.

Definition uniq (fuel : nat) (count duplicate ignore : bool) : U unit :=
  n ← readline true;
  if decide (n ≤ 0) then
    print OutEmpty ;; s ← (get : U ust); fail (Exited (out s))
  else if duplicate then uniq_duplicate_mode fuel ignore
  else uniq_non_duplicate_mode fuel ignore count.

End uniq.

(** ** main *)

Record options : Type := Options { o_count : bool; o_dup : bool; o_ignore : bool; o_file : option (list Z) }.

(** "-d", "-c", "-i" *)
Definition parse_arg (o : options) (a : list Z) : options :=
  if decide (a = [45; 100]) then Options (o_count o) true (o_ignore o) (o_file o)
  else if decide (a = [45; 99]) then Options true (o_dup o) (o_ignore o) (o_file o)
  else if decide (a = [45; 105]) then Options (o_count o) (o_dup o) true (o_file o)
  else Options (o_count o) (o_dup o) (o_ignore o) (Some a).

(** [infile] is not initialized: [uninit] is what it happens to hold when no
    argument names a file. *)
Definition parse_args (uninit : option (list Z)) (args : list (list Z)) : options :=
  foldl parse_arg (Options false false false uninit) args.

(** The whole program on the files the system has; reading what it prints. *)
Definition main (behind : Z) (broken : bool) (top : nat) (room : nat → nat) (clobber : ust → list Z)
    (stk : list Z) (fuel : nat) (uninit : option (list Z))
    (stdin : list Z) (open : list Z → option (list Z)) (args : list (list Z))
    : option (list output) :=
  let o := parse_args uninit args in
  match (match o_file o with Some f => open f | None => Some stdin end) with
  | None => Some [OutUsage]
  | Some inp =>
      match uniq behind broken top room clobber fuel (o_count o) (o_dup o) (o_ignore o) (initial_state stk inp) with
      | Ok _ s => Some (out s)
      | Err (Exited os) => Some os
      | Err _ => None
      end
  end.

(** ** What the theorems speak of *)

(** A line as the program stores it: printable bytes and the newline. *)
Definition good_line (l : list Z) : Prop :=
  Forall (λ b, b ≠ 0 ∧ b ≠ newline) l ∧ Z.of_nat (length l) < LINE_SIZE - 1.

(** The input that holds the given lines, each ended by a newline. *)
Definition text (ls : list (list Z)) : list Z := ls ≫= λ l, l ++ [newline].

Definition stored (l : list Z) : list Z := l ++ [newline].

(** Equal, up to case when [-i] is given. *)
Definition same_line (ignore : bool) (a b : list Z) : bool :=
  if ignore then bool_decide (upper <$> a = upper <$> b) else bool_decide (a = b).

(** There is room for the two arrays, and at least one byte behind each. *)
Definition frame_ok (top : nat) (room : nat → nat) (clobber : ust → list Z) : Prop :=
  (∀ n, (n < room n ≤ n + 32)%nat) ∧ (2112 ≤ top)%nat ∧ ∀ s, (top ≤ length (clobber s))%nat.

(** The bytes behind the copies of two strings of [n] bytes are NUL. *)
Definition ends (top : nat) (room : nat → nat) (n : nat) (mem : list Z) : Prop :=
  mem !! (top - room n + n)%nat = Some 0 ∧ mem !! (top - room n - room n + n)%nat = Some 0.

(** The calls between two of [string_compare] do not write there. *)
Definition spared (top : nat) (room : nat → nat) (clobber : ust → list Z) (n : nat) : Prop :=
  ∀ s, ends top room n (stack s) → ends top room n (clobber s).

(** A run of lines that count as equal: the first and the others. *)
Definition run : Type := list Z * list (list Z).

Definition run_lines (r : run) : list (list Z) := r.1 :: r.2.

(** The lines of a run count as equal; and the runs are as long as they can be. *)
Definition alike (ignore : bool) (rs : list run) : Prop :=
  Forall (λ r : run, Forall (λ l, same_line ignore r.1 l = true) r.2) rs.

Definition maximal (ignore : bool) (rs : list run) : Prop :=
  alike ignore rs ∧
  ∀ i r r', rs !! i = Some r → rs !! S i = Some r' → same_line ignore r.1 r'.1 = false.

(** ** Strings in memory *)

Lemma upper_nonnul l : Forall (λ b, b ≠ 0) l → Forall (λ b, b ≠ 0) (upper <$> l).
Proof.
  intros Hl. apply list.Forall_fmap. eapply Forall_impl; [|exact Hl]. intros b Hb. simpl in *.
  unfold upper. case_decide; lia.
Qed.

Lemma upper_no_newline l : Forall (λ b, b ≠ 0 ∧ b ≠ newline) l → Forall (λ b, b ≠ newline) (upper <$> l).
Proof.
  intros Hl. apply list.Forall_fmap. eapply Forall_impl; [|exact Hl]. intros b [_ Hb]. simpl in *.
  unfold upper, newline in *. case_decide; lia.
Qed.

Lemma drop_zeros_nul n (m : list Z) : Forall (λ b, b = 0) m → (n < length m)%nat → ∃ r, drop n m = 0 :: r.
Proof.
  intros Hm Hn. destruct (lookup_lt_is_Some_2 m n Hn) as [b Hb].
  rewrite list.Forall_lookup in Hm. rewrite (Hm n b Hb) in Hb.
  exists (drop (S n) m). by apply drop_S.
Qed.

Lemma write_at_length off bs mem :
  (off + length bs ≤ length mem)%nat → length (write_at off bs mem) = length mem.
Proof. intros Hl. unfold write_at. rewrite !length_app, length_take, length_drop. lia. Qed.

(** A write leaves what is outside of it. *)
Lemma write_at_lookup off bs mem j :
  (off + length bs ≤ length mem)%nat → (j < off ∨ off + length bs ≤ j)%nat →
  write_at off bs mem !! j = mem !! j.
Proof.
  intros Hl Hj. unfold write_at. destruct (decide (j < off)%nat) as [Hlt|Hge].
  - rewrite lookup_app_l by (rewrite length_take; lia). by apply lookup_take_lt.
  - rewrite lookup_app_r, length_take by (rewrite length_take; lia).
    rewrite lookup_app_r, lookup_drop by lia. f_equal. lia.
Qed.

(** Two writes that do not overlap, read back. *)
Lemma write_twice off1 off2 (bs1 bs2 mem : list Z) :
  (off2 + length bs2 ≤ off1)%nat → (off1 + length bs1 ≤ length mem)%nat →
  let m := write_at off2 bs2 (write_at off1 bs1 mem) in
  (∃ r1, drop off1 m = bs1 ++ r1 ∧ r1 !! 0%nat = mem !! (off1 + length bs1)%nat) ∧
  (∃ r2, drop off2 m = bs2 ++ r2 ∧
     ((off2 + length bs2 < off1)%nat → r2 !! 0%nat = mem !! (off2 + length bs2)%nat)).
Proof.
  intros Hle Hlen m. set (m1 := write_at off1 bs1 mem) in *.
  assert (length m1 = length mem) as Hm1 by by apply write_at_length.
  assert (∀ off bs mm, (off + length bs ≤ length mm)%nat →
    drop off (write_at off bs mm) = bs ++ drop (off + length bs) mm) as Hd.
  { intros off bs mm Ho. unfold write_at. rewrite drop_app_length'; [done|]. rewrite length_take. lia. }
  split.
  - exists (drop (off1 + length bs1) mem). split; [|by rewrite lookup_drop, Nat.add_0_r].
    assert (drop off1 m = drop off1 m1) as ->; [|by apply Hd].
    apply list_eq. intros j. rewrite !lookup_drop. apply write_at_lookup; lia.
  - exists (drop (off2 + length bs2) m1). split; [by apply Hd; lia|].
    intros Hlt. rewrite lookup_drop, Nat.add_0_r. apply write_at_lookup; lia.
Qed.

Lemma cstr_app a r : Forall (λ c, c ≠ 0) a → cstr (a ++ r) = a ++ cstr r.
Proof. induction 1 as [|c a Hc Ha IH]; [done|]. cbn. rewrite decide_False by done. by rewrite IH. Qed.

Lemma cstr_ended r : r !! 0%nat = Some 0 → cstr r = [].
Proof. destruct r as [|c r]; [done|]. intros [= ->]. reflexivity. Qed.

(** Lines that begin two equal strings, up to the newline. *)
Lemma first_line (a b r1 r2 : list Z) :
  Forall (λ c, c ≠ newline) a → Forall (λ c, c ≠ newline) b →
  a ++ newline :: r1 = b ++ newline :: r2 → a = b.
Proof.
  intros Ha. revert b. induction Ha as [|c a Hc Ha IH]; intros b Hb Heq.
  - destruct Hb as [|c b Hc Hb]; [done|]. by injection Heq as <-.
  - destruct Hb as [|c' b Hc' Hb]; [by injection Heq as ->|]. injection Heq as -> Heq.
    f_equal. by apply IH.
Qed.

Section compare.
Context (behind : Z) (broken : bool) (top : nat) (room : nat → nat) (clobber : ust → list Z).

Lemma same_stored ignore a b : same_line ignore (stored a) (stored b) = same_line ignore a b.
Proof.
  unfold same_line, stored. destruct ignore; apply bool_decide_ext.
  - rewrite !fmap_app. split; [by intros ?%app_inv_tail|by intros ->].
  - split; [by intros ?%app_inv_tail|by intros ->].
Qed.

Lemma stored_nonnul l : good_line l → Forall (λ b, b ≠ 0) (stored l) ∧ (length (stored l) ≤ 1024)%nat.
Proof.
  intros [Hl Hlen]. unfold stored, LINE_SIZE in *. split; [|rewrite length_app; simpl; lia].
  apply list.Forall_app. split; [|by repeat constructor].
  eapply Forall_impl; [|exact Hl]. simpl. by intros b [? ?].
Qed.

(** What a call copies of a string. *)
Definition copied (ignore : bool) (str : list Z) : list Z := if ignore then upper <$> str else str ++ [0].

Lemma length_copied ignore x : (length x ≤ length (copied ignore x) ≤ S (length x))%nat.
Proof. destruct ignore; simpl; rewrite ?length_fmap, ?length_app; simpl; lia. Qed.

(** A call, on strings that fit: what it compares, and what it writes. *)
Lemma compare_reads mem ignore x y :
  frame_ok top room clobber → (top ≤ length mem)%nat →
  Forall (λ c, c ≠ 0) x → Forall (λ c, c ≠ 0) y → (length x ≤ 1024)%nat → (length y ≤ 1024)%nat →
  let r := string_compare top room mem x y ignore in
  let o1 := (top - room (length x))%nat in
  let o2 := (top - room (length x) - room (length y))%nat in
  (∀ j, (o2 + length (copied ignore y) ≤ j < o1 ∨ o1 + length (copied ignore x) ≤ j)%nat →
     r.2 !! j = mem !! j) ∧
  ∃ r1 r2, r.1 = bool_decide (cstr (copied ignore x ++ r1) = cstr (copied ignore y ++ r2)) ∧
    r1 !! 0%nat = mem !! (o1 + length (copied ignore x))%nat ∧
    ((o2 + length (copied ignore y) < o1)%nat → r2 !! 0%nat = mem !! (o2 + length (copied ignore y))%nat).
Proof.
  intros (Hroom & Htop & _) Hm Hx Hy Hlx Hly r o1 o2.
  pose proof (Hroom (length x)). pose proof (Hroom (length y)).
  pose proof (length_copied ignore x). pose proof (length_copied ignore y).
  assert (r = (strcmp_eq (drop o1 r.2) (drop o2 r.2),
    write_at o2 (copied ignore y) (write_at o1 (copied ignore x) mem))) as Hr.
  { unfold r, string_compare, offset2, offset1. rewrite (cstr_id x Hx), (cstr_id y Hy).
    destruct ignore; unfold to_upper, strcpy; by rewrite (cstr_id x Hx), (cstr_id y Hy). }
  assert (r.2 = write_at o2 (copied ignore y) (write_at o1 (copied ignore x) mem)) as Hr2 by by rewrite Hr.
  assert (r.1 = strcmp_eq (drop o1 r.2) (drop o2 r.2)) as Hr1 by by rewrite Hr at 1.
  destruct (write_twice o1 o2 (copied ignore x) (copied ignore y) mem) as [(r1 & Hd1 & Hh1) (r2 & Hd2 & Hh2)];
    [unfold o1, o2; lia..|].
  split.
  - intros j Hj. rewrite Hr2, write_at_lookup; [apply write_at_lookup; unfold o1, o2 in *; lia|..].
    + rewrite write_at_length by (unfold o1, o2; lia). unfold o1, o2. lia.
    + unfold o1, o2 in *. lia.
  - exists r1, r2. split; [|done]. rewrite Hr1, Hr2, Hd1, Hd2. reflexivity.
Qed.

(** Without [-i] the copies end where they should. *)
Lemma compare_case mem a b :
  frame_ok top room clobber → (top ≤ length mem)%nat → good_line a → good_line b →
  (string_compare top room mem (stored a) (stored b) false).1 = same_line false a b.
Proof.
  intros Hfr Hm [Ha Hla]%stored_nonnul [Hb Hlb]%stored_nonnul.
  destruct (compare_reads mem false (stored a) (stored b) Hfr Hm Ha Hb Hla Hlb)
    as (_ & r1 & r2 & -> & _). simpl. rewrite <-!app_assoc. simpl.
  rewrite !cstr_app_nul by done. apply (same_stored false a b).
Qed.

(** With [-i] two lines found equal are equal up to case, whatever is on the
    stack: both copies contain the newline. *)
Lemma compare_sound mem ignore a b :
  frame_ok top room clobber → (top ≤ length mem)%nat → good_line a → good_line b →
  (string_compare top room mem (stored a) (stored b) ignore).1 = true → same_line ignore a b = true.
Proof.
  intros Hfr Hm Hga Hgb. destruct ignore; [|by rewrite compare_case].
  destruct (stored_nonnul a Hga) as [Ha Hla], (stored_nonnul b Hgb) as [Hb Hlb].
  destruct (compare_reads mem true (stored a) (stored b) Hfr Hm Ha Hb Hla Hlb)
    as (_ & r1 & r2 & -> & _). simpl. rewrite bool_decide_eq_true.
  rewrite !cstr_app by by apply upper_nonnul. unfold stored. rewrite !fmap_app, <-!app_assoc.
  change (upper <$> [newline]) with [newline]. simpl. intros Heq.
  apply first_line in Heq; [by apply bool_decide_eq_true|apply upper_no_newline, Hga|apply upper_no_newline, Hgb].
Qed.

(** ... and when the bytes behind the copies are NUL, equal lines are found equal. *)
Lemma compare_exact mem a b :
  frame_ok top room clobber → (top ≤ length mem)%nat → good_line a → good_line b →
  length a = length b → ends top room (length (stored a)) mem →
  let r := string_compare top room mem (stored a) (stored b) true in
  r.1 = same_line true a b ∧ ends top room (length (stored a)) r.2.
Proof.
  intros Hfr Hm Hga Hgb Hlen [He1 He2] r.
  destruct (stored_nonnul a Hga) as [Ha Hla], (stored_nonnul b Hgb) as [Hb Hlb].
  destruct (compare_reads mem true (stored a) (stored b) Hfr Hm Ha Hb Hla Hlb)
    as (Hw & r1 & r2 & Hr & Hh1 & Hh2). fold r in Hw, Hr.
  destruct Hfr as (Hroom & Htop & _). specialize (Hroom (length (stored a))).
  assert (length (stored b) = length (stored a)) as Hls by (unfold stored; rewrite !length_app; lia).
  unfold copied in Hh1, Hh2, Hw. rewrite !length_fmap, Hls in *. split.
  - rewrite Hr. simpl. rewrite !cstr_app by by apply upper_nonnul.
    rewrite (cstr_ended r1), (cstr_ended r2), !app_nil_r by (rewrite ?Hh1, ?Hh2 by lia; done).
    apply (same_stored true a b).
  - split; rewrite Hw; [done|lia|done|lia].
Qed.

(** The call, in the program: the result and the state it leaves. *)
Lemma same_run ignore a b s :
  same top room clobber a b ignore s =
  Ok (string_compare top room (clobber s) a b ignore).1
     (UState (last_line s) (this_line s) (one_bit s) (input s) (out s)
             (string_compare top room (clobber s) a b ignore).2).
Proof.
  unfold same. cbv [mbind U_bind prog_bind get]. by destruct (string_compare _ _ _ _ _ _).
Qed.

(** ** Reading lines *)

Hypothesis Hbehind : behind = 0.
Hypothesis Hread : broken = false.

Lemma newline_test b : strcmp_eq [b; behind] [newline; 0] = bool_decide (b = newline).
Proof.
  rewrite Hbehind. unfold strcmp_eq, newline. simpl.
  destruct (decide (b = 0)) as [->|]; [done|]. apply bool_decide_ext. naive_solver.
Qed.

Lemma load_insert pre b :
  (length pre < 1024)%nat → <[length pre := b]> (load_line pre) = load_line (pre ++ [b]).
Proof.
  intros Hl. unfold load_line. rewrite insert_app_r_alt, Nat.sub_diag by lia.
  rewrite <-app_assoc, length_app. f_equal. simpl. rewrite Nat.add_1_r.
  assert (zeros !! length pre = Some 0) as Hz by (apply lookup_replicate_2; unfold LINE_SIZE; lia).
  by rewrite (drop_S _ _ _ Hz).
Qed.

Lemma length_load pre : (length pre ≤ 1024)%nat → length (load_line pre) = 1024%nat.
Proof.
  intros Hl. unfold load_line, zeros, LINE_SIZE. rewrite length_app, length_drop, length_replicate. lia.
Qed.

Lemma read_loop_line l pre bit rest :
  Forall (λ b, b ≠ 0 ∧ b ≠ newline) l → (length pre + length l < 1023)%nat →
  read_loop behind broken (l ++ newline :: rest) bit (load_line pre) (length pre) =
  Some (1, load_line (stored (pre ++ l)), newline, rest).
Proof.
  intros Hl. revert pre bit. induction Hl as [|b l [Hb Hnb] Hl IH]; intros pre bit Hlen; simpl in *.
  - rewrite newline_test, bool_decide_true by done.
    rewrite length_load by lia. rewrite decide_True by lia.
    rewrite load_insert by lia. by rewrite app_nil_r.
  - rewrite newline_test, bool_decide_false by done.
    rewrite length_load, decide_True, load_insert by lia.
    replace (S (length pre)) with (length (pre ++ [b])) by (rewrite length_app; simpl; lia).
    rewrite IH by (rewrite length_app; simpl; lia). by rewrite <-app_assoc.
Qed.

Lemma myreadline_line l bit rest :
  good_line l →
  myreadline behind broken (l ++ newline :: rest) bit = Some (1, load_line (stored l), newline, rest).
Proof.
  intros [Hl Hlen]. unfold LINE_SIZE in Hlen. apply (read_loop_line l [] bit rest Hl). simpl. lia.
Qed.

Lemma myreadline_end bit : ∃ buf, myreadline behind broken [] bit = Some (0, buf, bit, []).
Proof. unfold myreadline. simpl. rewrite Hread. by eexists. Qed.

Lemma load_terminated l : good_line l → terminated (load_line (stored l)) = true ∧ cstr (load_line (stored l)) = stored l.
Proof.
  intros Hg. destruct (stored_nonnul l Hg) as [Hn _]. destruct Hg as [_ Hlen].
  unfold load_line. destruct (drop_zeros_nul (length (stored l)) zeros) as [r Hr].
  - unfold zeros. by apply Forall_replicate.
  - unfold zeros, stored, LINE_SIZE in *. rewrite length_app, length_replicate. simpl. lia.
  - rewrite Hr. split; [|by apply cstr_app_nul].
    unfold terminated. rewrite existsb_app. simpl. by rewrite orb_true_r.
Qed.

Lemma str_of_load l s : good_line l → str_of (load_line (stored l)) s = Ok (stored l) s.
Proof. intros [Ht Hc]%load_terminated. unfold str_of. by rewrite Ht, Hc. Qed.

End compare.
