(* ===== verification/UniqProps.v ===== *)
(** What uniq prints: one line for each run of equal lines, with its length in
    count mode, whatever the stack holds, and when the runs are maximal; what the
    duplicate mode prints for a run; when two lines are found equal. *)

From S2P Require Import Prelude Uniq.

Section loops.
Context (behind : Z) (broken : bool) (top : nat) (room : nat → nat) (clobber : ust → list Z).
Hypothesis Hbehind : behind = 0.
Hypothesis Hread : broken = false.
Hypothesis Hframe : frame_ok top room clobber.

(** ** Specification *)

(** What is printed for a run. *)
Definition report (count : bool) (r : run) : output :=
  OutLine (count_of count (Z.of_nat (length (run_lines r)))) (stored r.1).

(** When lines are found equal exactly if they are: always without [-i]; with it,
    on lines of one length, when the bytes behind their copies are NUL to begin
    with and are written by nobody else. *)
Definition finds_runs (ignore : bool) (lines : list (list Z)) (stk : list Z) : Prop :=
  ignore = false ∨
  ∃ n, Forall (λ l, length l = n) lines ∧ ends top room (S n) stk ∧ spared top room clobber (S n).

(** Runs given by their lengths. *)
Definition expand (rs : list (nat * list Z)) : list (list Z) := rs ≫= λ x, replicate x.1 x.2.

(** What duplicate mode prints for a run of a given length. *)
Definition duplicate_report (x : nat * list Z) : list output :=
  replicate (x.1 / 2) (OutLine None (stored x.2)).

(** What a comparison finds. *)
Lemma found_equal ignore a b s :
  good_line a → good_line b →
  (string_compare top room (clobber s) (stored a) (stored b) ignore).1 = true →
  same_line ignore a b = true.
Proof. intros Ha Hb. apply (compare_sound top room clobber); try done. apply Hframe. Qed.

Lemma found_different ignore a b ls s :
  Forall good_line (a :: b :: ls) → finds_runs ignore (a :: b :: ls) (stack s) →
  let r := string_compare top room (clobber s) (stored a) (stored b) ignore in
  (r.1 = false → same_line ignore a b = false) ∧
  finds_runs ignore (a :: ls) r.2 ∧ finds_runs ignore (b :: ls) r.2.
Proof.
  intros [Ha [Hb _]%Forall_cons_1]%Forall_cons_1 [->|(n & Hn & He & Hsp)] r.
  - split; [|split; by left]. unfold r. rewrite (compare_case top room clobber); try done. apply Hframe.
  - pose proof Hn as [Hna [Hnb Hnl]%Forall_cons_1]%Forall_cons_1.
    assert (length (stored a) = S n) as Hla by (unfold stored; rewrite length_app; simpl; lia).
    destruct ignore; [|split; [|split; by left];
      unfold r; rewrite (compare_case top room clobber); try done; apply Hframe].
    destruct (compare_exact top room clobber (clobber s) a b) as [Hr He2]; try done.
    { apply Hframe. }
    { congruence. }
    { rewrite Hla. by apply Hsp. }
    fold r in Hr, He2. rewrite Hla in He2. split; [by rewrite Hr|].
    split; right; exists n; (split; [by constructor|done]).
Qed.

Lemma alike_cons ignore l0 o rs :
  Forall (λ l, same_line ignore l0 l = true) o → alike ignore rs → alike ignore ((l0, o) :: rs).
Proof. by constructor. Qed.

Lemma maximal_cons ignore l0 o l o' rs :
  Forall (λ l, same_line ignore l0 l = true) o → same_line ignore l0 l = false →
  maximal ignore ((l, o') :: rs) → maximal ignore ((l0, o) :: (l, o') :: rs).
Proof.
  intros Ho Hne [Ha Hs]. split; [by apply alike_cons|].
  intros [|i] r r' Hr Hr'; [simpl in *; by simplify_eq|by eapply (Hs i)].
Qed.

(** ** The readings of the loops *)

Lemma readline_line s l rest :
  good_line l → input s = l ++ newline :: rest →
  readline behind broken false s =
    Ok 1 (UState (last_line s) (load_line (stored l)) newline rest (out s) (stack s)).
Proof.
  intros Hl Hin. unfold readline. cbv [mbind U_bind prog_bind get expect]. rewrite Hin.
  by rewrite myreadline_line.
Qed.

Lemma readline_end s :
  input s = [] → ∃ buf, readline behind broken false s = Ok 0 (UState (last_line s) buf (one_bit s) [] (out s) (stack s)).
Proof.
  intros Hin. unfold readline. cbv [mbind U_bind prog_bind get expect]. rewrite Hin.
  destruct (myreadline_end behind broken Hread (one_bit s)) as [buf ->]. by eexists.
Qed.

Lemma text_cons l ls : text (l :: ls) = l ++ newline :: text ls.
Proof. unfold text. simpl. by rewrite <-app_assoc. Qed.

(** The loop, with the first line of the current run and its others so far. *)
Lemma non_duplicate_loop_spec ignore count l0 others ls s fuel :
  Forall good_line (l0 :: ls) → Forall (λ l, same_line ignore l0 l = true) others →
  last_line s = load_line (stored l0) → input s = text ls →
  (length ls < fuel)%nat → Z.of_nat (S (length others) + length ls) ≤ INT_MAX →
  ∃ s' more rs,
    non_duplicate_loop behind broken top room clobber fuel ignore count (Z.of_nat (S (length others))) s =
      Ok tt s' ∧
    out s' = out s ++ (report count <$> (l0, others ++ more) :: rs) ∧
    more ++ (rs ≫= run_lines) = ls ∧ alike ignore ((l0, others ++ more) :: rs) ∧
    (finds_runs ignore (l0 :: ls) (stack s) → maximal ignore ((l0, others ++ more) :: rs)).
Proof.
  intros Hg. revert l0 others s fuel Hg.
  induction ls as [|l ls IH]; intros l0 others s [|fuel] Hg Ho Hlast Hin Hf Hmax;
    simpl in Hf; try lia; pose proof Hg as [Hl0 Hls]%Forall_cons_1;
    cbn [non_duplicate_loop]; cbv [mbind U_bind prog_bind get].
  - destruct (readline_end s Hin) as [buf ->]. cbn [last_line].
    rewrite Hlast, (str_of_load) by done. cbn. eexists _, [], []. rewrite app_nil_r.
    split; [done|]. split; [done|]. split; [done|].
    split; [by apply alike_cons; [|constructor]|]. intros _. split; [by apply alike_cons; [|constructor]|].
    intros [|i] r r' Hr Hr'; done.
  - apply Forall_cons_1 in Hls as [Hl Hls].
    rewrite text_cons in Hin. rewrite (readline_line s l (text ls) Hl Hin). cbn [last_line this_line].
    rewrite Hlast, !str_of_load by done. cbn beta iota. rewrite decide_True by lia.
    rewrite !str_of_load by done. cbn beta iota. rewrite same_run.
    set (s1 := UState _ _ _ _ _ _).
    assert (stack s1 = stack s) as Hst by done.
    pose proof (found_different ignore l0 l ls s1 Hg) as Hdiff. rewrite Hst in Hdiff.
    pose proof (found_equal ignore l0 l s1 Hl0 Hl) as Heq.
    destruct (string_compare top room (clobber s1) (stored l0) (stored l) ignore) as [r mem].
    cbn [fst snd] in Hdiff, Heq |- *. cbn beta iota. destruct r; cbn [negb].
    + unfold set_this, modify. cbn.
      replace (i32 (Z.of_nat (S (length others)) + 1)) with (Z.of_nat (S (length (others ++ [l])))).
      2: { rewrite i32_small; [rewrite length_app; simpl; lia|]. simpl in Hmax. unfold INT_MIN. lia. }
      destruct (IH l0 (others ++ [l]) (UState (load_line (stored l0)) zeros newline (text ls) (out s) mem) fuel)
        as (s' & more & rs & Hr & Hout & Hlines & Hal & Hmx); try done.
      * by constructor.
      * apply list.Forall_app. split; [done|]. constructor; [by apply Heq|done].
      * lia.
      * rewrite length_app. cbn [length] in *. lia.
      * exists s', (l :: more), rs. rewrite <-app_assoc in *. cbn [app] in *.
        split; [exact Hr|]. split; [exact Hout|]. split; [by f_equal|]. split; [exact Hal|].
        intros Hfr. by apply Hmx, Hdiff.
    + unfold set_this, set_last, print, modify. cbn.
      change 1 with (Z.of_nat (S (length (@nil (list Z))))).
      set (s2 := UState _ _ _ _ _ _).
      destruct (IH l [] s2 fuel) as (s' & more & rs & Hr & Hout & Hlines & Hal & Hmx); try done.
      * by constructor.
      * lia.
      * cbn [length] in *. lia.
      * exists s', [], ((l, more) :: rs). rewrite app_nil_r. split; [exact Hr|].
        split; [rewrite Hout; simpl; by rewrite <-app_assoc|].
        split; [simpl; f_equal; exact Hlines|]. split; [by apply alike_cons|].
        intros Hfr. destruct (Hdiff Hfr) as (Hne & _ & Hfr').
        apply maximal_cons; [done|by apply Hne|]. apply Hmx. exact Hfr'.
Qed.

(** ** Duplicate mode *)

Lemma text_app a b : text (a ++ b) = text a ++ text b.
Proof. unfold text. by rewrite bind_app. Qed.

Lemma text_expand m l rs :
  text (expand ((S m, l) :: rs)) = l ++ newline :: text (replicate m l) ++ text (expand rs).
Proof.
  change (expand ((S m, l) :: rs)) with (l :: replicate m l ++ expand rs).
  by rewrite text_cons, text_app.
Qed.

Lemma length_expand m l rs : length (expand ((S m, l) :: rs)) = S (m + length (expand rs)).
Proof.
  change (expand ((S m, l) :: rs)) with (l :: replicate m l ++ expand rs).
  cbn [length]. by rewrite length_app, length_replicate.
Qed.

(** How many lines are printed for [k] more copies of the last line, when the
    flag is as given: every other one. *)
Definition printed (k : nat) (found : bool) : nat := if found then k / 2 else S k / 2.

Lemma printed_step k found :
  printed (S k) found = ((if found then 0 else 1) + printed k (negb found))%nat.
Proof.
  unfold printed. destruct found; simpl negb; cbn iota.
  - done.
  - replace (S (S k)) with (k + 1 * 2)%nat by lia. rewrite Nat.div_add by lia. lia.
Qed.

(** One reading of a line equal to the last one, and of a different one. *)
Lemma duplicate_step fuel found l0 l rest s :
  good_line l0 → good_line l →
  last_line s = load_line (stored l0) → input s = l ++ newline :: rest →
  ∃ mem,
  duplicate_loop behind broken top room clobber (S fuel) false found s =
  if bool_decide (l0 = l) && negb found then
    duplicate_loop behind broken top room clobber fuel false true
      (UState (load_line (stored l0)) (load_line (stored l)) newline rest
              (out s ++ [OutLine None (stored l0)]) mem)
  else
    duplicate_loop behind broken top room clobber fuel false false
      (UState (load_line (stored l)) (load_line (stored l)) newline rest (out s) mem).
Proof.
  intros Hl0 Hl Hlast Hin. cbn [duplicate_loop]. cbv [mbind U_bind prog_bind get].
  rewrite (readline_line s l rest Hl Hin). cbn beta iota. rewrite decide_True by lia.
  cbn [last_line this_line]. rewrite Hlast, !str_of_load by done. cbn beta iota.
  rewrite same_run. set (s1 := UState _ _ _ _ _ _).
  pose proof (compare_case top room clobber (clobber s1) l0 l Hframe (proj2 (proj2 Hframe) s1) Hl0 Hl) as Hc.
  unfold same_line in Hc.
  destruct (string_compare top room (clobber s1) (stored l0) (stored l) false) as [r mem].
  cbn [fst snd] in Hc |- *. subst r. exists mem. by destruct (bool_decide (l0 = l)), found.
Qed.

Lemma duplicate_copies k fuel found l0 rest s :
  good_line l0 →
  last_line s = load_line (stored l0) → input s = text (replicate k l0) ++ rest →
  ∃ this bit found' mem,
    duplicate_loop behind broken top room clobber (k + fuel) false found s =
    duplicate_loop behind broken top room clobber fuel false found'
      (UState (load_line (stored l0)) this bit rest
              (out s ++ replicate (printed k found) (OutLine None (stored l0))) mem).
Proof.
  intros Hl0. revert found s. induction k as [|k IH]; intros found s Hlast Hin.
  - exists (this_line s), (one_bit s), found, (stack s). simpl in *.
    unfold printed. replace (if found then 0 / 2 else 1 / 2)%nat with 0%nat by by destruct found.
    simpl. rewrite app_nil_r. destruct s. simpl in *. by subst.
  - cbn [replicate] in Hin. rewrite text_cons, <-app_assoc in Hin. simpl in Hin.
    cbn [Nat.add]. destruct (duplicate_step (k + fuel) found l0 l0 _ s Hl0 Hl0 Hlast Hin) as (mem & ->).
    rewrite bool_decide_true, printed_step by done. destruct found; cbn [negb andb].
    + destruct (IH false (UState (load_line (stored l0)) (load_line (stored l0)) newline
        (text (replicate k l0) ++ rest) (out s) mem) eq_refl eq_refl) as (this & bit & found' & mem' & ->).
      by exists this, bit, found', mem'.
    + destruct (IH true (UState (load_line (stored l0)) (load_line (stored l0)) newline
        (text (replicate k l0) ++ rest) (out s ++ [OutLine None (stored l0)]) mem) eq_refl eq_refl)
        as (this & bit & found' & mem' & ->).
      exists this, bit, found', mem'. do 2 f_equal. simpl. by rewrite <-app_assoc.
Qed.

(** Runs of different lines, one after the other. *)
Definition distinct_runs (rs : list (nat * list Z)) : Prop :=
  Forall (λ x : nat * list Z, (0 < x.1)%nat ∧ good_line x.2) rs ∧
  ∀ i x y, rs !! i = Some x → rs !! S i = Some y → x.2 ≠ y.2.

Lemma distinct_tail x rs : distinct_runs (x :: rs) → distinct_runs rs.
Proof.
  intros [Hf Ha]. apply Forall_cons_1 in Hf as [_ Hf]. split; [done|].
  intros i y z Hy Hz. by apply (Ha (S i)).
Qed.

Lemma duplicate_loop_spec rs k l0 found s fuel :
  good_line l0 → distinct_runs ((S k, l0) :: rs) →
  last_line s = load_line (stored l0) → input s = text (replicate k l0) ++ text (expand rs) →
  (k + length (expand rs) < fuel)%nat →
  ∃ s', duplicate_loop behind broken top room clobber fuel false found s = Ok tt s' ∧
    out s' = out s ++ replicate (printed k found) (OutLine None (stored l0)) ++
             (rs ≫= duplicate_report).
Proof.
  revert k l0 found s fuel.
  induction rs as [|[m l] rs IH]; intros k l0 found s fuel Hl0 Hd Hlast Hin Hf.
  - destruct (duplicate_copies k (fuel - k) found l0 (text (expand [])) s Hl0 Hlast Hin)
      as (this & bit & found' & mem & Hr).
    replace (k + (fuel - k))%nat with fuel in Hr by lia. rewrite Hr.
    destruct (fuel - k)%nat as [|fuel'] eqn:Hfk; [lia|]. cbn [duplicate_loop].
    cbv [mbind U_bind prog_bind].
    destruct (readline_end (UState (load_line (stored l0)) this bit (text (expand []))
      (out s ++ replicate (printed k found) (OutLine None (stored l0))) mem)) as [buf ->]; [done|].
    cbn. eexists. split; [done|]. simpl. by rewrite app_nil_r.
  - destruct Hd as [Hf0 Hne]. pose proof (Hne 0%nat _ _ eq_refl eq_refl) as Hll. simpl in Hll.
    apply Forall_cons_1 in Hf0 as [_ Hf0]. pose proof (Forall_cons_1 _ _ _ Hf0) as [[Hm Hl] _].
    simpl in Hm, Hl. destruct m as [|m]; [lia|]. rewrite length_expand in Hf.
    destruct (duplicate_copies k (fuel - k) found l0 (text (expand ((S m, l) :: rs))) s Hl0 Hlast Hin)
      as (this & bit & found' & mem & Hr).
    replace (k + (fuel - k))%nat with fuel in Hr by lia. rewrite Hr.
    destruct (fuel - k)%nat as [|fuel'] eqn:Hfk; [lia|].
    set (s1 := UState _ _ _ _ _ _).
    destruct (duplicate_step fuel' found' l0 l (text (replicate m l) ++ text (expand rs)) s1) as (mem1 & ->);
      [done|done|done|apply text_expand|].
    rewrite bool_decide_false by done. simpl andb. cbn iota.
    destruct (IH m l false (UState (load_line (stored l)) (load_line (stored l)) newline
      (text (replicate m l) ++ text (expand rs)) (out s1) mem1) fuel') as (s' & Hs' & Ho); try done.
    { split; [done|]. intros i x y Hx Hy. by apply (Hne (S i)). }
    { lia. }
    exists s'. split; [done|]. rewrite Ho. unfold s1. simpl. rewrite <-app_assoc. done.
Qed.

(** ** Properties *)

(** two stored lines compare equal exactly when they are equal, whatever is on
    the stack, provided there is a byte behind each array; under [-i], where the
    copies are not terminated, only if they are equal up to case, and exactly
    then for lines of one length when NUL bytes happen to follow the copies; and
    when the second array ends right below the first, the NUL [strcpy] writes
    behind it lands in the first copy, and two equal lines compare as different. *)
Lemma string_compare_exact mem a b :
  good_line a → good_line b → (top ≤ length mem)%nat →
  ((string_compare top room mem (stored a) (stored b) false).1 = true ↔ a = b) ∧
  ((string_compare top room mem (stored a) (stored b) true).1 = true → upper <$> a = upper <$> b) ∧
  (length a = length b → ends top room (length (stored a)) mem → upper <$> a = upper <$> b →
   (string_compare top room mem (stored a) (stored b) true).1 = true).
Proof.
  intros Ha Hb Hm. split; [|split].
  - rewrite (compare_case top room clobber) by done. apply bool_decide_eq_true.
  - intros Hs. apply (compare_sound top room clobber) in Hs; [|done..]. by apply bool_decide_eq_true in Hs.
  - intros Hl He Hu. destruct (compare_exact top room clobber mem a b) as [-> _]; [done..|].
    by apply bool_decide_eq_true.
Qed.

Lemma string_compare_no_room (room' : nat → nat) mem b :
  good_line b → room' (length (stored b)) = length (stored b) →
  (2048 ≤ top)%nat → (top < length mem)%nat →
  (string_compare top room' mem (stored b) (stored b) false).1 = false.
Proof.
  intros Hg Hroom Htop Hm. destruct (stored_nonnul b Hg) as [Hn Hl].
  unfold string_compare, offset2, offset1. rewrite (cstr_id _ Hn), Hroom.
  unfold strcpy. rewrite (cstr_id _ Hn). cbn [fst].
  set (n := length (stored b)) in *. set (m1 := write_at (top - n) _ _).
  assert (length (stored b ++ [0]) = S n) as Hc by (rewrite length_app; simpl; lia).
  assert (length m1 = length mem) as Hm1 by (apply write_at_length; lia).
  assert (write_at (top - n - n) (stored b ++ [0]) m1 !! (top - n)%nat = Some 0) as H0.
  { unfold write_at. rewrite lookup_app_r, length_take by (rewrite length_take; lia).
    rewrite lookup_app_l by lia. replace (top - n - _)%nat with n by lia.
    rewrite lookup_app_r by lia. by replace (n - length (stored b))%nat with 0%nat by lia. }
  unfold strcmp_eq. apply bool_decide_eq_false. rewrite (cstr_ended (drop (top - n) _)).
  2: { rewrite lookup_drop, Nat.add_0_r. exact H0. }
  unfold write_at. rewrite drop_app_length' by (rewrite length_take; lia).
  rewrite <-app_assoc. cbn [app]. rewrite cstr_app_nul by done. unfold stored. by destruct b.
Qed.

(** C28: on a text of good lines - at most 1022 bytes, none of them NUL -, uniq
    without -d prints one line for each of a sequence of runs of consecutive
    lines: the first line of the run, in order, with the length of the run in
    count mode; and it ends.  The runs make up the text and their lines are
    equal, up to case under [-i], whatever the stack holds when
    [string_compare] is called.  Without [-i] the runs are maximal.  With [-i],
    whose copies are not terminated, they are maximal when the lines have one
    length and the bytes behind the two copies, which [string_compare] does not
    write then, are NUL at first and not written by the other calls.  (The byte
    behind [one_bit] is NUL, [read] does not fail, the lines can be counted in an
    [int], and the stack has room for the two arrays of [string_compare] with 1
    to 32 bytes behind each.) *)
Theorem uniq_prints_runs ignore count l0 ls stk fuel :
  Forall good_line (l0 :: ls) → (length ls < fuel)%nat → Z.of_nat (S (length ls)) ≤ INT_MAX →
  ∃ s rs,
    uniq behind broken top room clobber fuel count false ignore (initial_state stk (text (l0 :: ls))) =
      Ok tt s ∧
    out s = report count <$> rs ∧ rs ≫= run_lines = l0 :: ls ∧ alike ignore rs ∧
    (ignore = false → maximal ignore rs) ∧
    (∀ n, Forall (λ l, length l = n) (l0 :: ls) → ends top room (S n) stk →
       spared top room clobber (S n) → maximal ignore rs).
Proof.
  intros Hg Hf Hmax. pose proof Hg as [Hl0 Hls]%Forall_cons_1.
  set (s1 := UState (load_line (stored l0)) zeros newline (text ls) [] stk).
  destruct (non_duplicate_loop_spec ignore count l0 [] ls s1 fuel Hg)
    as (s & more & rs & Hr & Ho & Hlines & Hal & Hmx); [done..|].
  exists s, ((l0, more) :: rs). split; [|split; [done|]].
  - unfold uniq, readline. cbv [mbind U_bind prog_bind get expect]. cbn [input initial_state one_bit].
    rewrite text_cons, myreadline_line by done. cbn. done.
  - split; [simpl; f_equal; exact Hlines|]. split; [done|]. split.
    + intros Hi. apply Hmx. by left.
    + intros n Hn He Hsp. apply Hmx. right. by exists n.
Qed.

(** in duplicate mode, a run of [m] equal lines is printed [m / 2] times:
    once for two or three lines, twice for four or five - the flag that should
    suppress repetitions is reset by every other repetition. *)
Lemma uniq_d_prints_half k l0 rs stk fuel :
  distinct_runs ((S k, l0) :: rs) → (k + length (expand rs) < fuel)%nat →
  ∃ s, uniq behind broken top room clobber fuel false true false
         (initial_state stk (text (expand ((S k, l0) :: rs)))) = Ok tt s ∧
       out s = ((S k, l0) :: rs) ≫= duplicate_report.
Proof.
  intros Hd Hf. pose proof Hd as [Hf0 _]. apply Forall_cons_1 in Hf0 as [[_ Hl0] _]. simpl in Hl0.
  set (s1 := UState (load_line (stored l0)) zeros newline
               (text (replicate k l0) ++ text (expand rs)) [] stk).
  destruct (duplicate_loop_spec rs k l0 false s1 fuel Hl0 Hd eq_refl eq_refl Hf) as (s & Hr & Ho).
  exists s. split; [|by rewrite Ho].
  unfold uniq, readline. cbv [mbind U_bind prog_bind get expect]. cbn [input initial_state one_bit].
  rewrite text_expand, myreadline_line by done. cbn. done.
Qed.

End loops.

(** ** Witnesses *)

(** "a", "A" and "b" as lines; a frame whose arrays are rounded up to words of
    16 bytes, on a stack that is zero at first and that only [string_compare]
    writes to. *)
Definition line_a : list Z := [97].

Definition line_A : list Z := [65].

Definition line_b : list Z := [98].

Definition clean_stack : list Z := replicate 2112 0.

Definition rounded (n : nat) : nat := (n / 16 * 16 + 16)%nat.

(** As long as the program has not run the stack is the clean one. *)
Definition own_stack (s : ust) : list Z := if decide (2112 ≤ length (stack s))%nat then stack s else clean_stack.

Lemma own_frame : frame_ok 2112 rounded own_stack.
Proof.
  split; [|split; [done|]].
  - intros n. unfold rounded. pose proof (Nat.div_mod n 16 ltac:(done)).
    pose proof (Nat.mod_upper_bound n 16 ltac:(done)). lia.
  - intros s. unfold own_stack. case_decide; [done|]. unfold clean_stack. by rewrite length_replicate.
Qed.

Lemma own_spared n : (n < 16)%nat → spared 2112 rounded own_stack n.
Proof.
  intros Hn s He. unfold own_stack. case_decide; [done|]. unfold ends, rounded, clean_stack.
  rewrite (Nat.div_small n 16) by done. split; apply lookup_replicate_2; lia.
Qed.

Lemma short_lines : good_line line_a ∧ good_line line_A ∧ good_line line_b.
Proof.
  unfold good_line, line_a, line_A, line_b, newline, LINE_SIZE.
  repeat split; try (repeat constructor; lia); simpl; lia.
Qed.

Lemma string_compare_exact_witness :
  (string_compare 2112 rounded clean_stack (stored line_a) (stored line_A) true).1 = true ∧
  (string_compare 2048 id (replicate 2049 7) (stored line_b) (stored line_b) false).1 = false.
Proof.
  destruct short_lines as (Ha & HA & Hb). split.
  - apply (string_compare_exact 2112 rounded own_stack own_frame clean_stack line_a line_A Ha HA);
      [by vm_compute; lia|done|by split|reflexivity].
  - apply (string_compare_no_room 2048 id _ line_b Hb); [reflexivity|lia|rewrite length_replicate; lia].
Defined.

Lemma uniq_prints_runs_witness :
  (∃ s rs, uniq 0 false 2112 rounded own_stack 10 true false true
             (initial_state clean_stack (text [line_a; line_A; line_b])) = Ok tt s ∧
     out s = report true <$> rs ∧ rs ≫= run_lines = [line_a; line_A; line_b] ∧ maximal true rs) ∧
  (∃ s rs, uniq 0 false 2112 rounded own_stack 10 false false false
             (initial_state [] (text [line_a; line_a; line_b])) = Ok tt s ∧
     out s = report false <$> rs ∧ rs ≫= run_lines = [line_a; line_a; line_b] ∧ maximal false rs).
Proof.
  destruct short_lines as (Ha & HA & Hb). split.
  - destruct (uniq_prints_runs 0 false 2112 rounded own_stack eq_refl eq_refl own_frame
      true true line_a [line_A; line_b] clean_stack 10) as (s & rs & Hr & Ho & Hl & _ & _ & Hm).
    + by repeat constructor.
    + simpl. lia.
    + unfold INT_MAX. simpl. lia.
    + exists s, rs. split; [exact Hr|]. split; [exact Ho|]. split; [exact Hl|].
      apply (Hm 1%nat); [by repeat constructor|by split|by apply own_spared; lia].
  - destruct (uniq_prints_runs 0 false 2112 rounded own_stack eq_refl eq_refl own_frame
      false false line_a [line_a; line_b] [] 10) as (s & rs & Hr & Ho & Hl & _ & Hm & _).
    + by repeat constructor.
    + simpl. lia.
    + unfold INT_MAX. simpl. lia.
    + exists s, rs. split; [exact Hr|]. split; [exact Ho|]. split; [exact Hl|]. by apply Hm.
Defined.

Lemma uniq_d_prints_half_witness :
  ∃ s, uniq 0 false 2112 rounded own_stack 10 false true false
         (initial_state [] (text (expand [(4%nat, line_a); (1%nat, line_b)]))) = Ok tt s ∧
       out s = [OutLine None (stored line_a); OutLine None (stored line_a)].
Proof.
  destruct short_lines as (Ha & HA & Hb).
  apply (uniq_d_prints_half 0 false 2112 rounded own_stack eq_refl eq_refl own_frame
    3 line_a [(1%nat, line_b)] [] 10).
  - split; [repeat (apply Forall_cons_2; [split; [simpl; lia|done]|]); apply Forall_nil_2|].
    intros [|[|i]] x y Hx Hy; simplify_eq/=. done.
  - simpl. lia.
Defined.

(** ** Without the NUL

    After a longer line, two equal lines are not found equal under [-i]: their
    copies run into what the comparison before has left. *)
Definition long_line : list Z := replicate 20 97.

Definition lines_printed (ignore : bool) : option (list output) :=
  match uniq 0 false 2112 rounded own_stack 10 true false ignore
          (initial_state clean_stack (text [long_line; line_b; line_b])) with
  | Ok _ s => Some (out s)
  | Err _ => None
  end.

Example equal_lines_missed :
  lines_printed true =
    Some [OutLine (Some 1) (stored long_line); OutLine (Some 1) (stored line_b); OutLine (Some 1) (stored line_b)] ∧
  lines_printed false =
    Some [OutLine (Some 1) (stored long_line); OutLine (Some 2) (stored line_b)].
Proof. split; vm_compute; reflexivity. Qed.
