(* ===== verification/Shell.v ===== *)
(** hw2/shell.c: the parser, which builds the command on the heap while it walks
    over the line, the execution of a command with its file descriptors, and
    the loop that reads the lines.

    A [char *] into the line is the part of the line from there to its end
    [es]; a pointer to a command is an index into the list of the commands
    allocated so far, from 1 on, 0 being NULL. [malloc] is taken to succeed, as
    the code takes it to. The system calls are those of the C library: what they
    return is an argument of the definitions. *)

From stdpp Require Import gmap.
From S2P Require Import Prelude.

Definition word : Type := list Z.

Definition ptr : Type := nat.

(** ** Data *)

Definition MAXARGS : nat := 10.

(** '<', '|', '>', '\n' *)
Definition LT : Z := 60.

Definition BAR : Z := 124.

Definition GT : Z := 62.

Definition NL : Z := 10.

Definition O_RDONLY : Z := 0.

Definition O_WRONLY : Z := 1.

Definition O_CREAT : Z := 64.

Definition O_TRUNC : Z := 512.

(** [struct execcmd], [struct redircmd] and [struct pipecmd]. *)
Inductive cell : Type :=
| Exec (argv : list (option word))
| Redir (type : Z) (cmd : ptr) (file : word) (mode fd : Z)
| Pipe (left right : ptr).

Notation heap := (list cell) (only parsing).

Definition load (h : heap) (p : ptr) : option cell :=
  match p with O => None | S i => h !! i end.

(** The ways the parser gives up. *)
Inductive perr : Type :=
| Leftovers (rest : list Z)
| MissingFile
| SyntaxError
| TooManyArgs
| NoFuel.

(** The heap, and what is left of the line at [*ps]. *)
Record pst : Type := PState { cells : heap; rest : list Z }.

Definition P (A : Type) : Type := prog pst perr A.

#[export] Instance P_ret : MRet P := @prog_ret pst perr.

#[export] Instance P_bind : MBind P := @prog_bind pst perr.

(** ** Characters *)

(** " \t\r\n\v" *)
Definition whitespace : list Z := [32; 9; 13; 10; 11].

Definition symbols : list Z := [LT; BAR; GT].

(** [strchr] finds the terminating NUL as well. *)
Definition strchr (set : list Z) (c : Z) : bool := bool_decide (c = 0 ∨ c ∈ set).

(** [*s]: at [es] there is the NUL of the line. *)
Definition deref (s : list Z) : Z := default 0 (head s).

(** [while(s < es && p( *s )) s++] *)
Fixpoint skip_while (p : Z → bool) (s : list Z) : list Z :=
  match s with
  | [] => []
  | c :: s' => if p c then skip_while p s' else s
  end.

Definition skip_space : list Z → list Z := skip_while (strchr whitespace).

Definition in_word (c : Z) : bool := negb (strchr whitespace c) && negb (strchr symbols c).

(** ** Tokens *)

(** The token, with [q] and [eq]. *)
Definition gettoken : P (Z * list Z * list Z) := λ st,
  let q := skip_space (rest st) in
  let c := deref q in
  let '(ret, eq) :=
    if decide (c = 0) then (c, q)
    else if decide (c = BAR ∨ c = LT) then (c, tail q)
    else if decide (c = GT) then (c, tail q)
    else (97, skip_while in_word q) in
  Ok (ret, q, eq) (PState (cells st) (skip_space eq)).

Definition peek (toks : list Z) : P bool := λ st,
  let s := skip_space (rest st) in
  Ok (negb (bool_decide (deref s = 0)) && strchr toks (deref s)) (PState (cells st) s).

(** The characters from [s] up to [es]. *)
Definition mkcopy (s es : list Z) : word := take (length s - length es) s.

(** ** Allocation *)

Definition malloc (c : cell) : P ptr := λ st,
  Ok (S (length (cells st))) (PState (cells st ++ [c]) (rest st)).

Definition execcmd : P ptr := malloc (Exec (replicate MAXARGS None)).

Definition redircmd (subcmd : ptr) (file : word) (type : Z) : P ptr :=
  malloc (Redir type subcmd file
            (if decide (type = LT) then O_RDONLY else Z.lor (Z.lor O_WRONLY O_CREAT) O_TRUNC)
            (if decide (type = LT) then 0 else 1)).

Definition pipecmd (left right : ptr) : P ptr := malloc (Pipe left right).

(** [cmd->argv[argc] = a], for a command that [execcmd] made. *)
Definition set_arg (cmd : ptr) (argc : nat) (a : option word) : P unit :=
  modify (λ st, PState
    (alter (λ c, match c with Exec argv => Exec (<[argc := a]> argv) | _ => c end)
           (pred cmd) (cells st)) (rest st)).

(** ** The parser *)

Fixpoint parseredirs (fuel : nat) (cmd : ptr) : P ptr :=
  match fuel with
  | O => fail NoFuel
  | S fuel' =>
      more ← peek [LT; GT];
      if (more : bool) then
        '(tok, _, _) ← gettoken;
        '(t, q, eq) ← gettoken;
        if decide (t ≠ 97) then fail MissingFile
        else if decide (tok = LT) then redircmd cmd (mkcopy q eq) LT ≫= parseredirs fuel'
        else if decide (tok = GT) then redircmd cmd (mkcopy q eq) GT ≫= parseredirs fuel'
        else parseredirs fuel' cmd
      else mret cmd
  end.

Fixpoint parseexec_loop (fuel : nat) (cmd ret : ptr) (argc : nat) : P ptr :=
  match fuel with
  | O => fail NoFuel
  | S fuel' =>
      bar ← peek [BAR];
      if (bar : bool) then set_arg cmd argc None ;; mret ret
      else
        '(tok, q, eq) ← gettoken;
        if decide (tok = 0) then set_arg cmd argc None ;; mret ret
        else if decide (tok ≠ 97) then fail SyntaxError
        else
          set_arg cmd argc (Some (mkcopy q eq)) ;;
          if decide (MAXARGS ≤ S argc)%nat then fail TooManyArgs
          else
            ret' ← parseredirs fuel' ret;
            parseexec_loop fuel' cmd ret' (S argc)
  end.

Definition parseexec (fuel : nat) : P ptr :=
  cmd ← execcmd;
  ret ← parseredirs fuel cmd;
  parseexec_loop fuel cmd ret 0.

Fixpoint parsepipe (fuel : nat) : P ptr :=
  match fuel with
  | O => fail NoFuel
  | S fuel' =>
      cmd ← parseexec fuel;
      bar ← peek [BAR];
      if (bar : bool) then
        gettoken ;;
        rcmd ← parsepipe fuel';
        pipecmd cmd rcmd
      else mret cmd
  end.

Definition parseline (fuel : nat) : P ptr := parsepipe fuel.

(** Fuel for one more than the characters of the line: every round of every
    loop takes one. *)
Definition parsecmd (buf : list Z) : outcome pst perr ptr :=
  let s := cstr buf in
  (cmd ← parseline (S (length s));
   peek [] ;;
   st ← (get : P pst);
   if decide (rest st ≠ []) then fail (Leftovers (rest st)) else mret cmd)
  (PState [] s).

(** ** Running a command *)

(** What a file descriptor refers to: what the shell was started with, a file
    opened with the given flags and permissions, or an end of a pipe. The pipes
    are named after the place in the command that creates them. *)
Inductive ofile : Type :=
| Inherited (n : nat)
| Opened (path : word) (flags perm : Z)
| PipeEnd (at_ : list bool) (write : bool).

Definition fdtable : Type := gmap nat ofile.

(** How a process ends: as the program it executes, with its descriptors, or
    by [exit], after a message or not. *)
Inductive ending : Type :=
| Runs (argv : list word) (fds : fdtable)
| Exits (status : Z) (message : bool).

Definition lowest_free (fds : fdtable) : nat :=
  default 0%nat (head (filter (λ i, fds !! i = None) (seq 0 (S (size fds))))).

Definition close (fd : nat) (fds : fdtable) : fdtable := delete fd fds.

(** [dup], [open] and [pipe] take the lowest descriptors that are free. *)
Definition install (f : ofile) (fds : fdtable) : nat * fdtable :=
  let n := lowest_free fds in (n, <[n := f]> fds).

Definition dup (fd : nat) (fds : fdtable) : fdtable :=
  match fds !! fd with Some f => (install f fds).2 | None => fds end.

(** The arguments up to the NULL. *)
Fixpoint args_of (argv : list (option word)) : list word :=
  match argv with Some a :: argv' => a :: args_of argv' | _ => [] end.

Section run.
(** Whether [fork] succeeds at a place of the command, whether [open] with
    these flags succeeds on a path, whether [execvp] finds a program. *)
Context (fork_ok : list bool → bool) (open_ok : word → Z → bool) (executable : word → bool).

(** The processes the command becomes, the child of a pipe before its parent;
    no result when the fuel runs out or a pointer is wild. *)
Fixpoint runcmd (fuel : nat) (h : heap) (cmd : ptr) (here : list bool) (fds : fdtable)
    : option (list ending) :=
  match fuel with
  | O => None
  | S fuel' =>
      if decide (cmd = 0%nat) then Some [Exits 0 false]
      else
        c ← load h cmd;
        match c with
        | Exec argv =>
            match args_of argv with
            | [] => Some [Exits 0 false]
            | a :: args => Some [if executable a then Runs (a :: args) fds else Exits 0 true]
            end
        | Redir type cmd' file mode fd =>
            if decide (type = LT ∨ type = GT) then
              let fds := close (Z.to_nat fd) fds in
              let flags := Z.lor mode O_CREAT in
              let fds := if open_ok file flags then (install (Opened file flags 777) fds).2 else fds in
              runcmd fuel' h cmd' here fds
            else Some [Exits (-1) true]
        | Pipe lcmd rcmd =>
            let '(p0, fds) := install (PipeEnd here false) fds in
            let '(p1, fds) := install (PipeEnd here true) fds in
            let child := close p1 (close p0 (dup p1 (close 1 fds))) in
            let parent := close p0 (close p1 (dup p0 (close 0 fds))) in
            l ← (if fork_ok here then runcmd fuel' h lcmd (here ++ [false]) child else Some []);
            r ← runcmd fuel' h rcmd (here ++ [true]) parent;
            Some (l ++ r)
        end
  end.

End run.

(** ** The loop *)

(** At most [n] characters, through the newline. *)
Fixpoint fgets (n : nat) (inp : list Z) : list Z * list Z :=
  match n, inp with
  | S n', c :: inp' =>
      if decide (c = NL) then ([c], inp')
      else let '(l, r) := fgets n' inp' in (c :: l, r)
  | _, _ => ([], inp)
  end.

Definition NBUF : nat := 100.

(** The buffer and the rest of the input; none at the end of the file. *)
Definition getcmd (nbuf : nat) (inp : list Z) : option (list Z * list Z) :=
  let '(buf, inp) := fgets (pred nbuf) inp in
  if decide (deref buf = 0) then None else Some (buf, inp).

(** What the shell does for a line: [chdir], or forking a child that parses
    and runs it. *)
Inductive action : Type :=
| Chdir (path : word) (ok : bool)
| Child (result : option (list ending))
| NoChild.

(** What the system answers to the shell's n-th line and in its children. *)
Record environment : Type := Environment {
  shell_fork : nat → bool;
  child_fork : nat → list bool → bool;
  opens : word → Z → bool;
  programs : word → bool;
  chdirs : word → bool
}.

(** [runcmd(parsecmd(buf))]: the parser exits with -1 after its message. *)
Definition run_line (e : environment) (n : nat) (fds : fdtable) (buf : list Z)
    : option (list ending) :=
  match parsecmd buf with
  | Ok cmd st =>
      runcmd (child_fork e n) (opens e) (programs e) (S (length (cells st))) (cells st) cmd [] fds
  | Err NoFuel => None
  | Err _ => Some [Exits (-1) true]
  end.

(** The body of the loop, for what [getcmd] left in the buffer. *)
Definition line_action (e : environment) (fds : fdtable) (n : nat) (buf : list Z) : action :=
  let s := cstr buf in
  if decide (take 3 s = [99; 100; 32]) then
    let path := drop 3 (take (length s - 1) s) in Chdir path (chdirs e path)
  else if shell_fork e n then Child (run_line e n fds buf)
  else NoChild.

Fixpoint main_loop (fuel : nat) (e : environment) (fds : fdtable) (n : nat) (inp : list Z)
    : option (list action) :=
  match fuel with
  | O => None
  | S fuel' =>
      match getcmd NBUF inp with
      | None => Some []
      | Some (buf, inp') => (line_action e fds n buf ::.) <$> main_loop fuel' e fds (S n) inp'
      end
  end.

(** The descriptors a program is started with. *)
Definition std (i o e : ofile) : fdtable := {[ 0%nat := i; 1%nat := o; 2%nat := e ]}.

Definition main (e : environment) (inp : list Z) : option (list action) :=
  main_loop (S (length inp)) e (std (Inherited 0) (Inherited 1) (Inherited 2)) 0 inp.

(** ** What the theorems speak of *)

(** *** The grammar *)

Inductive token : Type := TWord (w : word) | TRedir (type : Z) | TBar.

Definition flush (w : word) : list token := match w with [] => [] | _ => [TWord w] end.

(** The tokens of a line, after the characters of a word. *)
Fixpoint tokenize (s : list Z) (w : word) : list token :=
  match s with
  | [] => flush w
  | c :: s' =>
      if bool_decide (c ∈ whitespace) then flush w ++ tokenize s' []
      else if bool_decide (c = BAR) then flush w ++ TBar :: tokenize s' []
      else if bool_decide (c = LT ∨ c = GT) then flush w ++ TRedir c :: tokenize s' []
      else tokenize s' (w ++ [c])
  end.

(** A simple command: its arguments, and its redirections from left to right. *)
Record simple : Type := Simple { args : list word; redirs : list (Z * word) }.

(** The commands of a pipeline, or the error message. *)
Fixpoint parse_tokens (ts : list token) (c : simple) : list simple + perr :=
  match ts with
  | [] => inl [c]
  | TBar :: ts' =>
      match parse_tokens ts' (Simple [] []) with inl cs => inl (c :: cs) | inr e => inr e end
  | TWord w :: ts' =>
      if decide (length (args c) < 9)%nat then parse_tokens ts' (Simple (args c ++ [w]) (redirs c))
      else inr TooManyArgs
  | TRedir t :: TWord w :: ts' => parse_tokens ts' (Simple (args c) (redirs c ++ [(t, w)]))
  | TRedir _ :: _ => inr MissingFile
  end.

Definition grammar (line : list Z) : list simple + perr :=
  parse_tokens (tokenize line []) (Simple [] []).

(** *** The command a pointer stands for *)

(** A command with the given redirections, the last one first, around a
    simple command at [a]; pointers lead to older cells only. *)
Fixpoint wraps (h : heap) (p a : ptr) (rs : list (Z * word)) : Prop :=
  match rs with
  | [] => p = a
  | (t, file) :: rs' =>
      ∃ q, (q < p)%nat ∧ wraps h q a rs' ∧
        load h p = Some (Redir t q file
          (if decide (t = LT) then O_RDONLY else Z.lor (Z.lor O_WRONLY O_CREAT) O_TRUNC)
          (if decide (t = LT) then 0 else 1))
  end.

Definition argv_of (ws : list word) : list (option word) :=
  (Some <$> ws) ++ replicate (MAXARGS - length ws) None.

Definition reads_simple (h : heap) (p : ptr) (c : simple) : Prop :=
  ∃ a, load h a = Some (Exec (argv_of (args c))) ∧ wraps h p a (reverse (redirs c)) ∧
    (length (args c) < MAXARGS)%nat ∧ Forall (λ r, r.1 = LT ∨ r.1 = GT) (redirs c).

Fixpoint reads (h : heap) (p : ptr) (cs : list simple) : Prop :=
  match cs with
  | [] => False
  | [c] => reads_simple h p c
  | c :: cs' =>
      ∃ l r, (l < p)%nat ∧ (r < p)%nat ∧ load h p = Some (Pipe l r) ∧
        reads_simple h l c ∧ reads h r cs'
  end.

(** *** Printing *)

Definition print_word (w : word) : list Z := 32 :: w.

Definition print_simple (c : simple) : list Z :=
  (args c ≫= print_word) ++ (redirs c ≫= λ r, 32 :: r.1 :: print_word r.2).

Fixpoint print (cs : list simple) : list Z :=
  match cs with
  | [] => []
  | [c] => print_simple c
  | c :: cs' => print_simple c ++ 32 :: BAR :: print cs'
  end.

(** A word of the shell: not empty, no blank, symbol or NUL. *)
Definition is_word (w : word) : Prop := w ≠ [] ∧ Forall (λ c, in_word c = true) w.

Definition printable (c : simple) : Prop :=
  Forall is_word (args c) ∧ (length (args c) < MAXARGS)%nat ∧
  Forall (λ r, (r.1 = LT ∨ r.1 = GT) ∧ is_word r.2) (redirs c).

(** *** What a pipeline should run as *)

(** The flags a redirection opens its file with. *)
Definition flags_of (t : Z) : Z :=
  Z.lor (if decide (t = LT) then O_RDONLY else Z.lor (Z.lor O_WRONLY O_CREAT) O_TRUNC) O_CREAT.

(** The file the descriptor of a direction is redirected to: that of the first
    redirection. *)
Definition redirected (t : Z) (rs : list (Z * word)) (f : ofile) : ofile :=
  match list_find (λ r, r.1 = t) rs with
  | Some (_, (_, file)) => Opened file (flags_of t) 777
  | None => f
  end.

(** The end of a simple command started with the given files. *)
Definition ends (executable : word → bool) (c : simple) (i o e : ofile) : ending :=
  match args c with
  | [] => Exits 0 false
  | a :: _ =>
      if executable a
      then Runs (args c) (std (redirected LT (redirs c) i) (redirected GT (redirs c) o) e)
      else Exits 0 true
  end.
