(* ===== verification/ShellProps.v ===== *)
(** What the shell's parser builds, what a pipeline runs as, and how the loop
    divides its input. *)

From stdpp Require Import gmap.
From S2P Require Import Prelude Shell.

(** ** Tokens *)

Lemma strchr_nonnul set c : c ≠ 0 → strchr set c = bool_decide (c ∈ set).
Proof. intros Hc. apply bool_decide_ext. naive_solver. Qed.

Definition nonnul (s : list Z) : Prop := Forall (λ c, c ≠ 0) s.

Lemma skip_while_cases p s :
  skip_while p s = [] ∨ ∃ c s', skip_while p s = c :: s' ∧ p c = false.
Proof. induction s as [|c s IH]; simpl; [by left|]. destruct (p c) eqn:Hp; eauto. Qed.

Lemma skip_while_idemp p s : skip_while p (skip_while p s) = skip_while p s.
Proof. destruct (skip_while_cases p s) as [->|(c & s' & -> & Hp)]; [done|]. simpl. by rewrite Hp. Qed.

Lemma skip_while_nonnul p s : nonnul s → nonnul (skip_while p s).
Proof. induction 1 as [|c s Hc Hs IH]; simpl; [constructor|]. destruct (p c); [done|by constructor]. Qed.

Lemma skip_while_length p s : (length (skip_while p s) ≤ length s)%nat.
Proof. induction s as [|c s IH]; simpl; [lia|]. destruct (p c); simpl; lia. Qed.

(** What was skipped, and what it consists of. *)
Lemma skip_while_split p s :
  ∃ t, s = t ++ skip_while p s ∧ Forall (λ c, p c = true) t.
Proof.
  induction s as [|c s (t & Ht & Hp)]; simpl; [by exists []|].
  destruct (p c) eqn:Hc; [|by exists []]. exists (c :: t). simpl. split; [by f_equal|by constructor].
Qed.

Lemma tokenize_skip s : nonnul s → tokenize (skip_space s) [] = tokenize s [].
Proof.
  induction 1 as [|c s Hc Hs IH]; [done|]. cbn [skip_space skip_while tokenize].
  unfold skip_space in *. cbn [skip_while]. rewrite strchr_nonnul by done.
  case_bool_decide as Hw; [done|]. simpl. by rewrite bool_decide_false.
Qed.

Lemma in_word_spec c :
  c ≠ 0 → in_word c = true ↔ c ∉ whitespace ∧ c ≠ BAR ∧ c ≠ LT ∧ c ≠ GT.
Proof.
  intros Hc. unfold in_word. rewrite !strchr_nonnul by done.
  rewrite andb_true_iff, !negb_true_iff, !bool_decide_eq_false. unfold symbols.
  rewrite !elem_of_cons, elem_of_nil. naive_solver.
Qed.

Lemma tokenize_word t s w :
  Forall (λ c, in_word c = true) t → nonnul t → tokenize (t ++ s) w = tokenize s (w ++ t).
Proof.
  intros Ht. revert w. induction Ht as [|c t Hc Ht IH]; intros w Hn; [by rewrite app_nil_r|].
  apply Forall_cons_1 in Hn as [H0 Hn]. apply in_word_spec in Hc as (? & ? & ? & ?); [|done].
  simpl. rewrite !bool_decide_false by naive_solver. rewrite IH by done. by rewrite <-app_assoc.
Qed.

(** After a word comes its end: the end of the line, a blank or a symbol. *)
Lemma tokenize_flush s w :
  (∀ c s', s = c :: s' → in_word c = false) → nonnul s → tokenize s w = flush w ++ tokenize s [].
Proof.
  intros Hs Hn. destruct s as [|c s']; simpl; [by rewrite app_nil_r|].
  specialize (Hs c s' eq_refl). apply Forall_cons_1 in Hn as [Hc _].
  repeat case_bool_decide; try done. exfalso.
  apply not_true_iff_false in Hs. apply Hs, in_word_spec; naive_solver.
Qed.

(** The tokens of a line whose blanks were skipped, by its first character. *)
Variant next_token (s : list Z) : list Z → Z → list token → Prop :=
| next_end : s = [] → next_token s s 0 []
| next_bar s' : s = BAR :: s' → next_token s s' BAR (TBar :: tokenize s' [])
| next_redir t s' : s = t :: s' → t = LT ∨ t = GT → next_token s s' t (TRedir t :: tokenize s' [])
| next_word eq : s ≠ [] → mkcopy s eq ≠ [] → (length eq < length s)%nat → nonnul eq →
    (∀ c s', s = c :: s' → c ≠ BAR ∧ c ≠ LT ∧ c ≠ GT) →
    next_token s eq 97 (TWord (mkcopy s eq) :: tokenize eq []).

Lemma gettoken_spec st :
  nonnul (rest st) →
  ∃ eq ret, gettoken st = Ok (ret, skip_space (rest st), eq) (PState (cells st) (skip_space eq)) ∧
    next_token (skip_space (rest st)) eq ret (tokenize (rest st) []) ∧ nonnul eq.
Proof.
  intros Hn. unfold gettoken. rewrite <-tokenize_skip by done.
  pose proof (skip_while_nonnul (strchr whitespace) _ Hn) as Hn'. fold skip_space in Hn'.
  destruct (skip_while_cases (strchr whitespace) (rest st)) as [E|(c & s & E & Hc)];
    fold skip_space in E; rewrite E in *; simpl.
  - eexists [], 0. repeat split; try done; by constructor.
  - apply Forall_cons_1 in Hn' as [H0 Hn']. rewrite strchr_nonnul in Hc by done.
    apply bool_decide_eq_false in Hc. rewrite decide_False by done.
    rewrite (bool_decide_false (c ∈ whitespace)) by done.
    destruct (decide (c = BAR)) as [->|Hb]; [|destruct (decide (c = LT)) as [->|Hl];
      [|destruct (decide (c = GT)) as [->|Hg]]].
    + exists s, BAR. repeat split; try done. by constructor.
    + exists s, LT. repeat split; try done. constructor; naive_solver.
    + exists s, GT. repeat split; try done. constructor; naive_solver.
    + rewrite decide_False, decide_False by naive_solver.
      destruct (skip_while_split in_word (c :: s)) as (t & Ht & Hin).
      assert (in_word c = true) as Hcw by (apply in_word_spec; naive_solver).
      set (eq := skip_while in_word (c :: s)) in *.
      assert (nonnul t ∧ nonnul eq) as [Hnt Hneq].
      { apply list.Forall_app. rewrite <-Ht. by constructor. }
      assert (mkcopy (c :: s) eq = t) as Hcopy.
      { unfold mkcopy. rewrite Ht, length_app, Nat.add_sub. by rewrite take_app_length. }
      assert (t ≠ []) as Ht0.
      { intros ->. simpl in Ht. unfold eq in Ht. simpl in Ht. rewrite Hcw in Ht.
        apply (f_equal length) in Ht. pose proof (skip_while_length in_word s). simpl in Ht. lia. }
      exists eq, 97. rewrite Hcw. fold eq. split; [|split; [|done]].
      * unfold eq. simpl. by rewrite Hcw.
      * rewrite !bool_decide_false by naive_solver.
        change (tokenize s ([] ++ [c])) with (tokenize s [c]).
        replace (tokenize s [c]) with (TWord (mkcopy (c :: s) eq) :: tokenize eq []).
        { constructor; try done; [by rewrite Hcopy| |naive_solver].
          rewrite Ht, length_app. destruct t; [done|]. simpl. lia. }
        rewrite Hcopy.
        assert (tokenize (c :: s) [] = tokenize s [c]) as <-.
        { simpl. by rewrite !bool_decide_false by naive_solver. }
        rewrite Ht at 1. rewrite tokenize_word by done. simpl.
        rewrite (tokenize_flush eq t); [by destruct t| |done].
        intros c' s' E'. destruct (skip_while_cases in_word (c :: s)) as [E2|(c2 & s2 & E2 & H2)];
          fold eq in E2; rewrite E2 in E'; by simplify_eq.
Qed.

Definition at_redir (ts : list token) : bool := match ts with TRedir _ :: _ => true | _ => false end.

Definition at_bar (ts : list token) : bool := match ts with TBar :: _ => true | _ => false end.

Lemma peek_spec st :
  nonnul (rest st) →
  peek [LT; GT] st = Ok (at_redir (tokenize (rest st) [])) (PState (cells st) (skip_space (rest st))) ∧
  peek [BAR] st = Ok (at_bar (tokenize (rest st) [])) (PState (cells st) (skip_space (rest st))).
Proof.
  intros Hn. destruct (gettoken_spec st Hn) as (eq & ret & _ & Hnext & _).
  pose proof (skip_while_nonnul (strchr whitespace) _ Hn) as Hn'. fold skip_space in Hn'. unfold peek.
  inversion Hnext as [E E2 Er Et|s' E E2 Er Et|t s' E Ht E2 Er Et|eq' Hne Hc _ _ Hs E2 Er Et]; subst.
  - by rewrite E.
  - by rewrite E.
  - rewrite E. by destruct Ht as [-> | ->].
  - destruct (skip_space (rest st)) as [|c s'] eqn:E; [done|].
    apply Forall_cons_1 in Hn' as [H0 _]. specialize (Hs c s' eq_refl). simpl.
    rewrite !strchr_nonnul, !bool_decide_false; try done;
      rewrite ?elem_of_cons, ?elem_of_nil; naive_solver.
Qed.

Lemma gettoken_skip h s : gettoken (PState h (skip_space s)) = gettoken (PState h s).
Proof. unfold gettoken. cbn [rest cells]. unfold skip_space. by rewrite skip_while_idemp. Qed.

Lemma skip_space_length s : (length (skip_space s) ≤ length s)%nat.
Proof. apply skip_while_length. Qed.

Lemma skip_space_nonnul s : nonnul s → nonnul (skip_space s).
Proof. apply skip_while_nonnul. Qed.

#[export] Hint Resolve skip_space_nonnul : shell.

(** The token at the head of a line: what [gettoken] returns and leaves. *)
Lemma gettoken_head h s :
  nonnul s →
  ∃ q eq ret, gettoken (PState h s) = Ok (ret, q, eq) (PState h (skip_space eq)) ∧ nonnul (skip_space eq) ∧
    match tokenize s [] with
    | [] => ret = 0 ∧ skip_space eq = []
    | TBar :: ts => ret = BAR ∧ (length (skip_space eq) < length s)%nat ∧ tokenize (skip_space eq) [] = ts
    | TRedir t :: ts => ret = t ∧ (t = LT ∨ t = GT) ∧
        (length (skip_space eq) < length s)%nat ∧ tokenize (skip_space eq) [] = ts
    | TWord w :: ts => ret = 97 ∧ mkcopy q eq = w ∧
        (length (skip_space eq) < length s)%nat ∧ tokenize (skip_space eq) [] = ts
    end.
Proof.
  intros Hn. destruct (gettoken_spec (PState h s) Hn) as (eq & ret & Hg & Hnext & Heq).
  cbn [rest cells] in *. exists (skip_space s), eq, ret. split; [done|]. split; [eauto with shell|].
  pose proof (skip_space_length s). pose proof (skip_space_length eq).
  inversion Hnext as [E E2 Er Et|s' E E2 Er Et|t s' E Ht E2 Er Et|eq' Hne Hc Hl _ Hs E2 Er Et];
    subst; try (rewrite E in *; simpl in * ); rewrite ?tokenize_skip by done;
    repeat split; try done; lia.
Qed.

(** ** The heap while a simple command is read *)

Lemma load_app h h' p c : load h p = Some c → load (h ++ h') p = Some c.
Proof. destruct p; [done|]. simpl. apply lookup_app_l_Some. Qed.

Lemma load_last h c : load (h ++ [c]) (S (length h)) = Some c.
Proof. by apply list_lookup_middle. Qed.

Lemma load_length h p c : load h p = Some c → (0 < p ≤ length h)%nat.
Proof. destruct p; [done|]. simpl. intros ?%lookup_lt_Some. lia. Qed.

Definition is_redir (c : cell) : bool := match c with Redir _ _ _ _ _ => true | _ => false end.

Lemma wraps_mono h h' p a rs :
  (∀ q c, is_redir c = true → load h q = Some c → load h' q = Some c) →
  wraps h p a rs → wraps h' p a rs.
Proof.
  intros Hh. revert p. induction rs as [|[t f] rs IH]; intros p; simpl; [done|].
  intros (q & Hq & Hw & Hl). exists q. split; [done|]. split; [by apply IH|]. by apply Hh.
Qed.

(** The simple command read so far is [c]: its cell is at [a], and [ret] points
    to its redirections. All of it lies behind the older part [h0] of the heap. *)
Record building (h0 h : heap) (ret a : ptr) (c : simple) : Prop := Building {
  b_prefix : h0 `prefix_of` h;
  b_new : (length h0 < a)%nat;
  b_exec : load h a = Some (Exec (argv_of (args c)));
  b_wraps : wraps h ret a (reverse (redirs c));
  b_args : (length (args c) < MAXARGS)%nat;
  b_types : Forall (λ r, r.1 = LT ∨ r.1 = GT) (redirs c);
  b_old : (ret ≤ length h)%nat
}.

Lemma building_start h : building h (h ++ [Exec (replicate MAXARGS None)]) (S (length h)) (S (length h)) (Simple [] []).
Proof.
  split; simpl; try done; try (unfold MAXARGS; lia).
  - by eexists.
  - apply (load_last h).
  - rewrite length_app. simpl. lia.
Qed.

Lemma building_redir h0 h ret a ar rs t f :
  building h0 h ret a (Simple ar rs) → t = LT ∨ t = GT →
  building h0 (h ++ [Redir t ret f (if decide (t = LT) then O_RDONLY else Z.lor (Z.lor O_WRONLY O_CREAT) O_TRUNC)
                       (if decide (t = LT) then 0 else 1)])
    (S (length h)) a (Simple ar (rs ++ [(t, f)])).
Proof.
  intros [Hp Hn He Hw Ha Ht Ho] Htf. split; cbn [args redirs] in *; try done.
  - by apply prefix_app_r.
  - by apply load_app.
  - rewrite reverse_snoc. exists ret. split; [lia|]. split; [|apply load_last].
    eapply wraps_mono; [|exact Hw]. intros; by apply load_app.
  - apply list.Forall_app. split; [done|]. by constructor.
  - rewrite length_app. simpl. lia.
Qed.

Lemma argv_insert ws w :
  (length ws < MAXARGS)%nat → <[length ws := Some w]> (argv_of ws) = argv_of (ws ++ [w]).
Proof.
  intros Hl. unfold argv_of. rewrite insert_app_r_alt by (by rewrite length_fmap).
  rewrite length_fmap, Nat.sub_diag, fmap_app, length_app, <-app_assoc. f_equal. simpl.
  by replace (MAXARGS - length ws)%nat with (S (MAXARGS - (length ws + 1))) by lia.
Qed.

Lemma argv_null ws : (length ws < MAXARGS)%nat → <[length ws := None]> (argv_of ws) = argv_of ws.
Proof.
  intros Hl. apply list_insert_id. unfold argv_of.
  rewrite lookup_app_r, length_fmap, Nat.sub_diag by (by rewrite length_fmap).
  apply lookup_replicate_2. lia.
Qed.

(** Assigning to an argument of the command being read. *)
Lemma building_set h0 h ret a ar rs i x ar' :
  building h0 h ret a (Simple ar rs) → (length ar' < MAXARGS)%nat →
  <[i := x]> (argv_of ar) = argv_of ar' →
  building h0 (alter (λ c, match c with Exec argv => Exec (<[i := x]> argv) | _ => c end) (pred a) h)
    ret a (Simple ar' rs).
Proof.
  intros [Hp Hn He Hw Ha Ht Ho] Hl Hx. destruct a as [|a]; [lia|]. cbn [args redirs load pred] in *.
  assert (∀ j, j ≠ a → alter (λ c, match c with Exec argv => Exec (<[i := x]> argv) | _ => c end) a h !! j = h !! j)
    as Hne by (intros; by apply list_lookup_alter_ne).
  split; cbn [args redirs load] in *; try done.
  - destruct Hp as [k ->]. rewrite alter_app_r_alt by lia. by eexists.
  - by rewrite list_lookup_alter_eq, He; simpl; rewrite Hx.
  - eapply wraps_mono; [|exact Hw]. intros [|q] c Hc Hq; [done|]. simpl in *.
    destruct (decide (q = a)) as [->|]; [|by rewrite Hne]. by simplify_eq.
  - by rewrite length_alter.
Qed.

(** ** The parser reads the grammar *)

(** One simple command of a list of tokens, with the tokens behind it. *)
Fixpoint segment (ts : list token) (c : simple) : (simple * list token) + perr :=
  match ts with
  | [] | TBar :: _ => inl (c, ts)
  | TWord w :: ts' =>
      if decide (length (args c) < 9)%nat then segment ts' (Simple (args c ++ [w]) (redirs c))
      else inr TooManyArgs
  | TRedir t :: TWord w :: ts' => segment ts' (Simple (args c) (redirs c ++ [(t, w)]))
  | TRedir _ :: _ => inr MissingFile
  end.

Lemma parse_tokens_segment n ts c :
  (length ts ≤ n)%nat →
  parse_tokens ts c =
  match segment ts c with
  | inl (c', TBar :: ts') =>
      match parse_tokens ts' (Simple [] []) with inl cs => inl (c' :: cs) | inr e => inr e end
  | inl (c', _) => inl [c']
  | inr e => inr e
  end.
Proof.
  revert ts c. induction n as [|n IH]; intros [|[w|t|] ts] c; simpl; intros Hn; try done; try lia.
  - case_decide; [|done]. apply IH. lia.
  - destruct ts as [|[w| |] ts]; try done. apply IH. simpl in Hn. lia.
Qed.

Lemma parseredirs_spec fuel h0 h s ret a c :
  nonnul s → (length s < fuel)%nat → building h0 h ret a c →
  (∃ ret' h' s' c', parseredirs fuel ret (PState h s) = Ok ret' (PState h' s') ∧
     building h0 h' ret' a c' ∧ args c' = args c ∧
     segment (tokenize s []) c = segment (tokenize s' []) c' ∧
     at_redir (tokenize s' []) = false ∧ nonnul s' ∧ (length s' ≤ length s)%nat) ∨
  (parseredirs fuel ret (PState h s) = Err MissingFile ∧ segment (tokenize s []) c = inr MissingFile).
Proof.
  revert h s ret c. induction fuel as [|fuel IH]; intros h s ret c Hn Hf Hb; [lia|].
  pose proof (skip_space_length s) as Hsl.
  destruct (peek_spec (PState h s) Hn) as [Hpk _]. cbn [parseredirs].
  cbv [mbind P_bind prog_bind]. rewrite Hpk. cbn [rest cells].
  destruct (at_redir (tokenize s [])) eqn:Hr.
  - rewrite gettoken_skip. destruct (gettoken_head h s Hn) as (q & eq & tok & -> & Hn1 & H1).
    destruct (tokenize s []) as [|[|t|] ts] eqn:Ets; try done.
    destruct H1 as (-> & Ht & Hl1 & <-).
    destruct (gettoken_head h (skip_space eq) Hn1) as (q2 & eq2 & tok2 & -> & Hn2 & H2).
    destruct (tokenize (skip_space eq) []) as [|[w|t2|] ts2] eqn:Ets2.
    + destruct H2 as [-> _]. by right.
    + destruct H2 as (-> & Hw & Hl2 & Hts2). rewrite decide_False by tauto. destruct c as [ar rs].
      pose proof (building_redir _ _ _ _ _ _ t w Hb Ht) as Hb'. rewrite Hw.
      assert (length (skip_space eq2) < fuel)%nat as Hf2 by lia.
      destruct (IH _ _ _ _ Hn2 Hf2 Hb')
        as [(ret' & h' & s' & c' & Hp & Hb2 & Ha & Hs & Hr' & Hn' & Hl')|[Hp Hs]];
        rewrite Hts2 in Hs; [left; exists ret', h', s', c'|right];
        (split; [destruct Ht as [-> | ->]; exact Hp|]); [|exact Hs].
      split_and!; try done; lia.
    + right. destruct H2 as (-> & [-> | ->] & _); done.
    + right. destruct H2 as (-> & _); done.
  - left. exists ret, h, (skip_space s), c. rewrite tokenize_skip by done.
    split_and!; try done; by auto with shell.
Qed.

Lemma building_reads h0 h ret a c :
  building h0 h ret a c → h0 `prefix_of` h ∧ reads_simple h ret c ∧ (ret ≤ length h)%nat.
Proof. intros []. repeat split; try done. by exists a. Qed.

Lemma parseexec_loop_spec fuel h0 h s ret a c :
  nonnul s → (length s < fuel)%nat → building h0 h ret a c → at_redir (tokenize s []) = false →
  match segment (tokenize s []) c with
  | inl (c', ts) => ∃ ret' h' s',
      parseexec_loop fuel a ret (length (args c)) (PState h s) = Ok ret' (PState h' s') ∧
      h0 `prefix_of` h' ∧ reads_simple h' ret' c' ∧ tokenize s' [] = ts ∧
      nonnul s' ∧ (length s' ≤ length s)%nat ∧ (ret' ≤ length h')%nat
  | inr e => parseexec_loop fuel a ret (length (args c)) (PState h s) = Err e
  end.
Proof.
  revert h s ret c. induction fuel as [|fuel IH]; intros h s ret c Hn Hf Hb Hr; [lia|].
  pose proof (skip_space_length s) as Hsl. pose proof (skip_space_nonnul s Hn) as Hsn.
  destruct (peek_spec (PState h s) Hn) as [_ Hpk]. cbn [parseexec_loop].
  cbv [mbind P_bind prog_bind]. rewrite Hpk. cbn [rest cells].
  destruct c as [ar rs]. pose proof (b_args _ _ _ _ _ Hb) as Hlen. cbn [args redirs] in *.
  pose proof (building_set _ _ _ _ _ _ _ _ ar Hb Hlen (argv_null ar Hlen)) as Hnull.
  destruct (gettoken_head h s Hn) as (q & eq & tok & Hg & Hn1 & H1).
  destruct (tokenize s []) as [|[w|t|] ts] eqn:Ets; try done; cbn [at_bar segment].
  - rewrite gettoken_skip, Hg. destruct H1 as [-> H1]. cbn beta iota. eexists _, _, _. split; [done|].
    destruct (building_reads _ _ _ _ _ Hnull) as (Hp & Hrd & Hle).
    cbn [rest]. rewrite H1. split_and!; try done; [constructor|simpl; lia].
  - rewrite gettoken_skip, Hg. destruct H1 as (-> & Hw & Hl1 & <-). rewrite Hw. cbn [args redirs].
    rewrite (decide_False (P := 97 = 0)) by done.
    rewrite (decide_False (P := 97 ≠ 97)) by (intros Hx; by apply Hx).
    unfold set_arg. cbv [modify]. cbn [rest cells].
    unfold MAXARGS in *. destruct (decide (length ar < 9)%nat) as [H9|H9].
    + rewrite decide_False by lia.
      assert (building h0 (alter (λ c, match c with Exec argv => Exec (<[length ar := Some w]> argv) | _ => c end)
        (pred a) h) ret a (Simple (ar ++ [w]) rs)) as Hb1.
      { eapply building_set; [done| |]; [rewrite length_app; simpl; unfold MAXARGS; lia|].
        apply argv_insert. unfold MAXARGS. lia. }
      assert (length (skip_space eq) < fuel)%nat as Hf1 by lia.
      destruct (parseredirs_spec fuel _ _ _ _ _ _ Hn1 Hf1 Hb1)
        as [(ret' & h' & s' & c' & Hp & Hb2 & Ha & Hs & Hr' & Hn' & Hl')|[Hp Hs]]; [|by rewrite Hp, Hs].
      rewrite Hp, Hs. assert (length s' < fuel)%nat as Hf2 by lia.
      specialize (IH _ _ _ _ Hn' Hf2 Hb2 Hr'). rewrite Ha in IH. cbn [args] in IH.
      rewrite length_app, Nat.add_1_r in IH.
      destruct (segment (tokenize s' []) c') as [[c'' ts]|e]; [|done].
      destruct IH as (ret2 & h2 & s2 & Hp2 & Hpre & Hrd & Hts & Hn2 & Hl2 & Hle).
      exists ret2, h2, s2. split_and!; try done; lia.
    + by rewrite decide_True by lia.
  - eexists _, _, _. split; [done|]. destruct (building_reads _ _ _ _ _ Hnull) as (Hp & Hrd & Hle).
    cbn [rest]. rewrite tokenize_skip by done. split_and!; done.
Qed.

Lemma segment_rest ts c c' ts' : segment ts c = inl (c', ts') → ts' = [] ∨ ∃ ts2, ts' = TBar :: ts2.
Proof.
  remember (length ts) as n eqn:Hn. assert (length ts ≤ n)%nat as Hle by lia. clear Hn. revert ts c Hle.
  induction n as [|n IH]; intros [|[w|t|] ts] c; simpl; intros Hle Hs; simplify_eq; eauto; try lia.
  - case_decide; [|done]. eapply IH; [|done]. lia.
  - destruct ts as [|[w| |] ts]; try done. eapply IH; [|done]. simpl in Hle. lia.
Qed.

Lemma parseexec_spec fuel h s :
  nonnul s → (length s < fuel)%nat →
  match segment (tokenize s []) (Simple [] []) with
  | inl (c, ts) => ∃ ret h' s',
      parseexec fuel (PState h s) = Ok ret (PState h' s') ∧ h `prefix_of` h' ∧
      reads_simple h' ret c ∧ tokenize s' [] = ts ∧ nonnul s' ∧
      (length s' ≤ length s)%nat ∧ (ret ≤ length h')%nat
  | inr e => parseexec fuel (PState h s) = Err e
  end.
Proof.
  intros Hn Hf. unfold parseexec, execcmd, malloc. cbv [mbind P_bind prog_bind]. cbn [rest cells].
  destruct (parseredirs_spec fuel _ _ _ _ _ _ Hn Hf (building_start h))
    as [(ret' & h' & s' & c' & Hp & Hb2 & Ha & Hs & Hr' & Hn' & Hl')|[Hp Hs]]; rewrite Hp, Hs; [|done].
  assert (length s' < fuel)%nat as Hf2 by lia.
  pose proof (parseexec_loop_spec fuel _ _ _ _ _ _ Hn' Hf2 Hb2 Hr') as Hx.
  rewrite Ha in Hx. cbn [args length] in Hx.
  destruct (segment (tokenize s' []) c') as [[c'' ts]|e]; [|done].
  destruct Hx as (ret2 & h2 & s2 & Hp2 & Hpre & Hrd & Hts & Hn2 & Hl2 & Hle).
  exists ret2, h2, s2. split_and!; try done. lia.
Qed.

Lemma tokens_end s : nonnul s → tokenize s [] = [] → skip_space s = [].
Proof.
  intros Hn Ht. destruct (gettoken_spec (PState [] s) Hn) as (eq & ret & _ & Hnext & _).
  cbn [rest] in Hnext. rewrite Ht in Hnext. by inversion Hnext.
Qed.

Lemma reads_simple_app h h' p c : reads_simple h p c → reads_simple (h ++ h') p c.
Proof.
  intros (a & Hl & Hw & ? & ?). exists a. split; [by apply load_app|]. split; [|done].
  eapply wraps_mono; [|exact Hw]. intros. by apply load_app.
Qed.

Lemma reads_app h h' p cs : reads h p cs → reads (h ++ h') p cs.
Proof.
  revert p. induction cs as [|c [|c2 cs] IH]; intros p; [done|apply reads_simple_app|].
  intros (l & r & Hl & Hr & Hp & Hc & Hcs). exists l, r.
  split_and!; [done|done|by apply load_app|by apply reads_simple_app|by apply IH].
Qed.

Lemma parsepipe_spec fuel h s :
  nonnul s → (length s < fuel)%nat →
  match parse_tokens (tokenize s []) (Simple [] []) with
  | inl cs => ∃ ret h' s',
      parsepipe fuel (PState h s) = Ok ret (PState h' s') ∧ h `prefix_of` h' ∧
      reads h' ret cs ∧ skip_space s' = [] ∧ (ret ≤ length h')%nat
  | inr e => parsepipe fuel (PState h s) = Err e
  end.
Proof.
  revert h s. induction fuel as [|fuel IH]; intros h s Hn Hf; [lia|].
  rewrite (parse_tokens_segment _ _ _ (le_n _)). cbn [parsepipe]. cbv [mbind P_bind prog_bind].
  pose proof (parseexec_spec (S fuel) h s Hn Hf) as Hexec.
  destruct (segment (tokenize s []) (Simple [] [])) as [[c ts]|e] eqn:Hseg; [|by rewrite Hexec].
  destruct Hexec as (ret & h1 & s1 & -> & Hpre & Hrd & Hts & Hn1 & Hl1 & Hle).
  destruct (peek_spec (PState h1 s1) Hn1) as [_ ->]. cbn [rest cells].
  destruct (segment_rest _ _ _ _ Hseg) as [-> |[ts2 ->]]; rewrite Hts; cbn [at_bar].
  - exists ret, h1, (skip_space s1).
    rewrite (tokens_end s1 Hn1 Hts). split_and!; done.
  - rewrite gettoken_skip. destruct (gettoken_head h1 s1 Hn1) as (q & eq & tok & -> & Hn2 & H2).
    rewrite Hts in H2. destruct H2 as (_ & Hl2 & <-).
    assert (length (skip_space eq) < fuel)%nat as Hf2 by lia.
    specialize (IH h1 _ Hn2 Hf2).
    destruct (parse_tokens (tokenize (skip_space eq) []) (Simple [] [])) as [cs|e]; [|by rewrite IH].
    destruct IH as (r & h2 & s2 & -> & Hpre2 & Hrd2 & Hs2 & Hle2). unfold pipecmd, malloc. cbn [cells rest].
    destruct Hpre2 as [k ->]. rewrite length_app in Hle2.
    eexists _, _, _. split; [done|]. split_and!; [by do 2 apply prefix_app_r| |done|rewrite !length_app; simpl; lia].
    destruct cs as [|c2 cs]; [done|]. exists ret, r.
    split_and!; [rewrite length_app; lia|rewrite length_app; lia|apply load_last| |].
    + by do 2 apply reads_simple_app.
    + by apply reads_app.
Qed.

(** ** Printing and reading back *)

Definition blank (s : list Z) : Prop := s = [] ∨ ∃ s', s = 32 :: s'.

Lemma tokenize_space s : tokenize (32 :: s) [] = tokenize s [].
Proof. done. Qed.

Lemma word_chars w : is_word w → Forall (λ c, in_word c = true) w ∧ nonnul w ∧ w ≠ [].
Proof.
  intros [Hne Hw]. split; [done|]. split; [|done]. eapply Forall_impl; [|exact Hw].
  intros c Hc ->. by vm_compute in Hc.
Qed.

Lemma tokenize_print_word w s :
  is_word w → blank s → tokenize (print_word w ++ s) [] = TWord w :: tokenize s [].
Proof.
  intros (Hw & Hn & Hne)%word_chars Hs. unfold print_word. cbn [app]. rewrite tokenize_space.
  rewrite tokenize_word by done. cbn [app].
  destruct Hs as [-> |[s' ->]]; cbn; by destruct w.
Qed.

Lemma blank_bind {A} (f : A → list Z) (l : list A) s :
  (∀ x, ∃ t, f x = 32 :: t) → blank s → blank ((l ≫= f) ++ s).
Proof.
  intros Hf Hs. destruct l as [|x l]; [done|]. destruct (Hf x) as [t Ht]. right. simpl. rewrite Ht. by eexists.
Qed.

Definition redir_text (r : Z * word) : list Z := 32 :: r.1 :: print_word r.2.

Definition redir_tokens (r : Z * word) : list token := [TRedir r.1; TWord r.2].

Lemma tokenize_args ws s :
  Forall is_word ws → blank s → tokenize ((ws ≫= print_word) ++ s) [] = (TWord <$> ws) ++ tokenize s [].
Proof.
  intros Hw Hs. induction Hw as [|w ws Hw Hws IH]; [done|].
  cbn [mbind list_bind fmap list_fmap app]. rewrite <-app_assoc.
  rewrite tokenize_print_word; [|done|apply blank_bind; [by eexists|done]].
  cbn [app]. f_equal. exact IH.
Qed.

Lemma tokenize_redirs rs s :
  Forall (λ r : Z * word, (r.1 = LT ∨ r.1 = GT) ∧ is_word r.2) rs → blank s →
  tokenize ((rs ≫= redir_text) ++ s) [] = (rs ≫= redir_tokens) ++ tokenize s [].
Proof.
  intros Hr Hs. induction Hr as [|[t w] rs [Ht Hw] Hrs IH]; [done|].
  cbn [mbind list_bind]. rewrite <-!app_assoc. unfold redir_text at 1. cbn [app fst snd].
  rewrite tokenize_space. cbn [fst snd] in *.
  transitivity (TRedir t :: tokenize (print_word w ++ (rs ≫= redir_text) ++ s) []).
  - by destruct Ht as [-> | ->].
  - rewrite tokenize_print_word; [|done|apply blank_bind; [by eexists|done]].
    unfold redir_tokens at 1. cbn [app fst snd]. do 2 f_equal. exact IH.
Qed.

Definition simple_tokens (c : simple) : list token := (TWord <$> args c) ++ (redirs c ≫= redir_tokens).

Lemma tokenize_simple c s :
  printable c → blank s → tokenize (print_simple c ++ s) [] = simple_tokens c ++ tokenize s [].
Proof.
  intros (Ha & _ & Hr) Hs. unfold print_simple, simple_tokens. rewrite <-!app_assoc.
  rewrite tokenize_args; [|done|apply blank_bind; [by eexists|done]].
  f_equal. by apply tokenize_redirs.
Qed.

Lemma parse_args ws ts ar rs :
  (length ar + length ws < MAXARGS)%nat →
  parse_tokens ((TWord <$> ws) ++ ts) (Simple ar rs) = parse_tokens ts (Simple (ar ++ ws) rs).
Proof.
  revert ar. induction ws as [|w ws IH]; intros ar Hl; [by rewrite app_nil_r|].
  cbn [fmap list_fmap app parse_tokens args redirs]. cbn [length] in Hl. unfold MAXARGS in *.
  rewrite decide_True by lia. rewrite IH by (rewrite length_app; simpl; lia). by rewrite <-app_assoc.
Qed.

Lemma parse_redirs rs' ts ar rs :
  parse_tokens ((rs' ≫= redir_tokens) ++ ts) (Simple ar rs) = parse_tokens ts (Simple ar (rs ++ rs')).
Proof.
  revert rs. induction rs' as [|[t w] rs' IH]; intros rs; [by rewrite app_nil_r|].
  cbn [mbind list_bind]. rewrite <-app_assoc. cbn [app redir_tokens parse_tokens args redirs fst snd].
  etransitivity; [apply IH|]. by rewrite <-app_assoc.
Qed.

Lemma parse_simple c ts :
  printable c → parse_tokens (simple_tokens c ++ ts) (Simple [] []) = parse_tokens ts c.
Proof.
  intros (_ & Hl & _). unfold simple_tokens. rewrite <-app_assoc, parse_args by done.
  rewrite parse_redirs. by destruct c.
Qed.

Lemma print_grammar cs : cs ≠ [] → Forall printable cs → grammar (print cs) = inl cs.
Proof.
  intros Hne Hcs. unfold grammar. induction Hcs as [|c [|c2 cs] Hc Hcs IH]; [done| |].
  - cbn [print]. rewrite <-(app_nil_r (print_simple c)), tokenize_simple by first [done|by left].
    by rewrite parse_simple.
  - change (print (c :: c2 :: cs)) with (print_simple c ++ 32 :: BAR :: print (c2 :: cs)).
    rewrite tokenize_simple, parse_simple by first [done|right; by eexists].
    change (tokenize (32 :: BAR :: print (c2 :: cs)) []) with (TBar :: tokenize (print (c2 :: cs)) []).
    cbn [parse_tokens]. by rewrite IH.
Qed.

Lemma print_nonnul cs : Forall printable cs → nonnul (print cs).
Proof.
  intros Hcs. assert (∀ c, printable c → nonnul (print_simple c)) as Hone.
  { intros c (Ha & _ & Hr). apply list.Forall_app. split.
    - apply Forall_bind. eapply Forall_impl; [|exact Ha].
      intros w Hw. apply word_chars in Hw as (_ & Hw & _). by constructor.
    - apply Forall_bind. eapply Forall_impl; [|exact Hr].
      intros [t w] [Ht Hw]. apply word_chars in Hw as (_ & Hw & _). cbn [fst snd] in *.
      constructor; [done|]. constructor; [destruct Ht as [-> | ->]; done|]. by constructor. }
  induction Hcs as [|c [|c2 cs] Hc Hcs IH]; [constructor|by apply Hone|].
  change (print (c :: c2 :: cs)) with (print_simple c ++ 32 :: BAR :: print (c2 :: cs)).
  apply list.Forall_app. split; [by apply Hone|]. by repeat constructor.
Qed.

(** ** Running *)

Lemma redirect_std i o e f :
  (install f (close 0 (std i o e))).2 = std f o e ∧ (install f (close 1 (std i o e))).2 = std i f e.
Proof. by split; vm_compute. Qed.

(** The tables of the two sides of a pipe. *)
Lemma pipe_std i o e r w :
  let '(p0, fds) := install r (std i o e) in
  let '(p1, fds) := install w fds in
  close p1 (close p0 (dup p1 (close 1 fds))) = std i w e ∧
  close p0 (close p1 (dup p0 (close 0 fds))) = std r o e.
Proof. by split; vm_compute. Qed.

Lemma redirected_snoc t rs t' f g :
  redirected t (rs ++ [(t', f)]) g =
  redirected t rs (if decide (t' = t) then Opened f (flags_of t) 777 else g).
Proof.
  unfold redirected. destruct (list_find (λ r, r.1 = t) rs) as [[i r]|] eqn:Hf.
  - by rewrite (list_find_app_l _ _ _ _ _ Hf).
  - rewrite list_find_app_r by done. simpl. by case_decide.
Qed.

Lemma args_of_argv ws : (length ws < MAXARGS)%nat → args_of (argv_of ws) = ws.
Proof.
  unfold argv_of. intros Hl. destruct (MAXARGS - length ws)%nat as [|n] eqn:E; [lia|]. clear E Hl.
  induction ws as [|w ws IH]; [done|]. simpl. by f_equal.
Qed.

Section running.
Context (fork_ok : list bool → bool) (open_ok : word → Z → bool) (executable : word → bool).

Lemma runcmd_redirs h p a rs ws here fuel i o e :
  wraps h p a rs → Forall (λ r, r.1 = LT ∨ r.1 = GT) rs →
  Forall (λ r, open_ok r.2 (flags_of r.1) = true) rs →
  load h a = Some (Exec (argv_of ws)) → (length ws < MAXARGS)%nat → (p < fuel)%nat →
  runcmd fork_ok open_ok executable fuel h p here (std i o e) =
  Some [ends executable (Simple ws (reverse rs)) i o e].
Proof.
  intros Hw Ht Ho Ha Hl. revert p fuel i o Hw.
  induction rs as [|[t f] rs IH]; intros p [|fuel] i o Hw Hp; try lia; cbn [runcmd].
  - simpl in Hw. subst p. pose proof (load_length _ _ _ Ha). rewrite decide_False by lia.
    rewrite Ha. cbn [mbind option_bind]. rewrite args_of_argv by done. unfold ends. cbn [args redirs].
    by destruct ws.
  - destruct Hw as (q & Hq & Hw & Hld). apply Forall_cons_1 in Ht as [Ht Hts]. apply Forall_cons_1 in Ho as [Ho Hos].
    rewrite decide_False by lia. rewrite Hld. cbn [mbind option_bind fst snd] in *.
    rewrite decide_True by done. unfold flags_of in Ho. rewrite Ho.
    unfold ends. cbn [args redirs]. rewrite reverse_cons, !redirected_snoc.
    destruct (redirect_std i o e (Opened f (flags_of t) 777)) as [H0 H1]. unfold flags_of in H0, H1.
    destruct Ht as [-> | ->]; cbn [decide] in *.
    + change (Z.to_nat _) with 0%nat. rewrite H0. rewrite IH by (done || lia). by unfold ends.
    + change (Z.to_nat _) with 1%nat. rewrite H1. rewrite IH by (done || lia). by unfold ends.
Qed.

Lemma runcmd_simple h p c here fuel i o e :
  reads_simple h p c → Forall (λ r, open_ok r.2 (flags_of r.1) = true) (redirs c) → (p < fuel)%nat →
  runcmd fork_ok open_ok executable fuel h p here (std i o e) = Some [ends executable c i o e].
Proof.
  intros (a & Ha & Hw & Hl & Ht) Ho Hp.
  rewrite (runcmd_redirs h p a (reverse (redirs c)) (args c)); try done;
    [rewrite reverse_involutive; by destruct c|by apply Forall_reverse..].
Qed.

(** The files of the k-th command of a pipeline whose first pipe is made at
    depth [m]. *)
Definition stdin_of (m : nat) (i : ofile) (k : nat) : ofile :=
  match k with O => i | S k' => PipeEnd (replicate (m + k') true) false end.

Definition stdout_of (m : nat) (o : ofile) (n k : nat) : ofile :=
  if decide (S k = n) then o else PipeEnd (replicate (m + k) true) true.

Lemma stdout_pipe m o n k : S k ≠ n → stdout_of m o n k = PipeEnd (replicate (m + k) true) true.
Proof. intros Hk. unfold stdout_of. by rewrite decide_False. Qed.

Lemma runcmd_pipeline h p cs m fuel i o e :
  reads h p cs → (∀ here, fork_ok here = true) →
  Forall (λ c, Forall (λ r, open_ok r.2 (flags_of r.1) = true) (redirs c)) cs → (p < fuel)%nat →
  runcmd fork_ok open_ok executable fuel h p (replicate m true) (std i o e) =
  Some (imap (λ k c, ends executable c (stdin_of m i k) (stdout_of m o (length cs) k) e) cs).
Proof.
  intros Hr Hfork Ho. revert h p m fuel i Hr.
  induction Ho as [|c [|c2 cs] Hc Hcs IH]; intros h p m fuel i Hr Hp; [done| |].
  - by rewrite (runcmd_simple h p c).
  - destruct Hr as (l & r & Hl & Hrp & Hld & Hsl & Hrs). destruct fuel as [|fuel]; [lia|].
    cbn [runcmd]. rewrite decide_False by lia. rewrite Hld. cbn [mbind option_bind].
    pose proof (pipe_std i o e (PipeEnd (replicate m true) false) (PipeEnd (replicate m true) true)) as Hp2.
    destruct (install _ (std i o e)) as [p0 fds0]. destruct (install _ fds0) as [p1 fds].
    destruct Hp2 as [-> ->]. rewrite Hfork, (runcmd_simple h l c) by (done || lia). cbn [mbind option_bind].
    replace (replicate m true ++ [true]) with (replicate (S m) true)
      by (by rewrite <-Nat.add_1_r, replicate_add).
    rewrite (IH h r (S m)) by (done || lia). cbn [mbind option_bind app].
    rewrite (imap_cons _ c (c2 :: cs)). f_equal.
    rewrite (stdout_pipe m o (length (c :: c2 :: cs)) 0) by (simpl; lia). rewrite Nat.add_0_r.
    cbn [stdin_of]. f_equal. apply imap_ext. intros k c' _. unfold compose. f_equal.
    + destruct k; cbn [stdin_of]; by rewrite ?Nat.add_0_r, <-?Nat.add_succ_comm.
    + unfold stdout_of. cbn [length]. rewrite <-Nat.add_succ_comm. repeat case_decide; done || lia.
Qed.

(** Whatever the system answers, the command ends. *)
Lemma runcmd_wraps_total h p a rs ws here fuel fds :
  wraps h p a rs → load h a = Some (Exec ws) → (p < fuel)%nat →
  is_Some (runcmd fork_ok open_ok executable fuel h p here fds).
Proof.
  intros Hw Ha. revert p fuel fds Hw. induction rs as [|[t f] rs IH]; intros p [|fuel] fds Hw Hp; try lia;
    cbn [runcmd].
  - simpl in Hw. subst p. destruct (decide (a = 0%nat)); [by eexists|]. rewrite Ha. cbn. destruct (args_of ws); by eexists.
  - destruct Hw as (q & Hq & Hw & Hld). destruct (decide (p = 0%nat)); [by eexists|]. rewrite Hld. cbn [mbind option_bind].
    destruct (decide (t = LT ∨ t = GT)); [|by eexists]. apply IH; [done|lia].
Qed.

Lemma runcmd_total h p cs here fuel fds :
  reads h p cs → (p < fuel)%nat → is_Some (runcmd fork_ok open_ok executable fuel h p here fds).
Proof.
  revert p here fuel fds. induction cs as [|c [|c2 cs] IH]; intros p here fuel fds; [done| |].
  - intros (a & Ha & Hw & _) Hp. by eapply runcmd_wraps_total.
  - intros (l & r & Hl & Hr & Hld & (a & Ha & Hw & _) & Hrs) Hp. destruct fuel as [|fuel]; [lia|].
    cbn [runcmd]. destruct (decide (p = 0%nat)); [by eexists|]. rewrite Hld. cbn [mbind option_bind].
    destruct (install _ fds) as [p0 fds0]. destruct (install _ fds0) as [p1 fds1].
    assert (∀ here fds, is_Some (runcmd fork_ok open_ok executable fuel h l here fds)) as Hleft
      by (intros; eapply runcmd_wraps_total; [done..|lia]).
    destruct (fork_ok here); [destruct (Hleft (here ++ [false])
      (close p1 (close p0 (dup p1 (close 1 fds1))))) as [x ->]|]; cbn [mbind option_bind];
      (destruct (IH r (here ++ [true]) fuel (close p0 (close p1 (dup p0 (close 0 fds1)))) Hrs) as [y ->]; [lia|]);
      by eexists.
Qed.

End running.

(** ** The whole line *)

Lemma parsecmd_spec buf :
  match grammar (cstr buf) with
  | inl cs => ∃ cmd st, parsecmd buf = Ok cmd st ∧ reads (cells st) cmd cs ∧
      (cmd ≤ length (cells st))%nat ∧ rest st = []
  | inr e => parsecmd buf = Err e
  end.
Proof.
  unfold parsecmd, parseline, grammar. cbv [mbind P_bind prog_bind].
  pose proof (parsepipe_spec (S (length (cstr buf))) [] (cstr buf) (cstr_nonnul buf) (Nat.lt_succ_diag_r _)) as Hp.
  destruct (parse_tokens _ _) as [cs|e]; [|by rewrite Hp].
  destruct Hp as (ret & h & s & -> & _ & Hr & Hs & Hle).
  unfold peek, get. cbn [rest cells]. rewrite Hs, decide_False by auto.
  exists ret, (PState h []). done.
Qed.

Lemma grammar_errors n ts c e :
  (length ts ≤ n)%nat → parse_tokens ts c = inr e → e = MissingFile ∨ e = TooManyArgs.
Proof.
  revert ts c. induction n as [|n IH]; intros [|[w|t|] ts] c; simpl; intros Hn Hp; simplify_eq; try lia.
  - case_decide; [|simplify_eq; by right]. eapply IH; [|done]. lia.
  - destruct ts as [|[w| |] ts]; simplify_eq; try by left. eapply IH; [|done]. simpl in Hn. lia.
  - destruct (parse_tokens ts _) eqn:E; simplify_eq. eapply IH; [|done]. lia.
Qed.

Lemma run_line_total e n fds buf : is_Some (run_line e n fds buf).
Proof.
  unfold run_line. pose proof (parsecmd_spec buf) as Hp.
  destruct (grammar (cstr buf)) as [cs|er] eqn:Hg.
  - destruct Hp as (cmd & st & -> & Hr & Hle & _). eapply runcmd_total; [done|lia].
  - rewrite Hp. destruct (grammar_errors _ _ _ _ (le_n _) Hg) as [-> | ->]; by eexists.
Qed.

(** ** The lines of the input *)

Lemma fgets_spec n inp :
  ∃ l, fgets n inp = (l, drop (length l) inp) ∧ l = take (length l) inp ∧ (length l ≤ n)%nat ∧
    NL ∉ take (length l - 1) l ∧
    (list.last l = Some NL ∨ length l = n ∨ drop (length l) inp = []).
Proof.
  revert inp. induction n as [|n IH]; intros inp; simpl.
  - exists []. split_and!; [done..|set_solver|auto].
  - destruct inp as [|c inp]; [exists []; split_and!; [done..|simpl; lia|set_solver|auto]|].
    case_decide as Hc.
    + subst c. exists [NL]. simpl. split_and!; [done..|lia|set_solver|auto].
    + destruct (IH inp) as (l & -> & Hl & Hlen & Hnl & Hlast). exists (c :: l). simpl.
      split_and!; [done|by f_equal|lia| |].
      * destruct l as [|c2 l]; simpl; [set_solver|]. simpl in Hnl. rewrite Nat.sub_0_r in Hnl.
        apply not_elem_of_cons. done.
      * destruct Hlast as [Hlast|[Hlast|Hlast]]; [left|right; left; by f_equal|auto].
        by destruct l.
Qed.

(** What [fgets] takes from the input at a time. *)
Definition chunk (c : list Z) : Prop :=
  c ≠ [] ∧ (length c < NBUF)%nat ∧ NL ∉ take (length c - 1) c.

(** Only the last one may be cut short by the end of the input. *)
Definition chunks_of (inp : list Z) (cs : list (list Z)) : Prop :=
  inp = concat cs ∧ Forall chunk cs ∧
  ∀ k c, cs !! k = Some c → (S k < length cs)%nat → list.last c = Some NL ∨ S (length c) = NBUF.

Lemma getcmd_spec inp :
  nonnul inp → inp ≠ [] →
  ∃ c inp', getcmd NBUF inp = Some (c, inp') ∧ inp = c ++ inp' ∧ chunk c ∧
    (inp' = [] ∨ list.last c = Some NL ∨ S (length c) = NBUF).
Proof.
  intros Hn Hne. unfold getcmd. destruct (fgets_spec (pred NBUF) inp) as (l & -> & Hl & Hlen & Hnl & Hlast).
  unfold NBUF in *. change (Init.Nat.pred 100) with 99%nat in *. destruct l as [|c l].
  - destruct Hlast as [?|[?|?]]; done.
  - exists (c :: l), (drop (length (c :: l)) inp).
    assert (c ≠ 0) as Hc.
    { destruct inp as [|c' inp]; [done|]. simpl in Hl. apply Forall_cons_1 in Hn as [? _]. by simplify_eq. }
    rewrite decide_False by done. split_and!; [done| | |].
    + rewrite <-(take_drop (length (c :: l)) inp) at 1. by rewrite <-Hl.
    + split_and!; [done|unfold NBUF; lia|done].
    + destruct Hlast as [?|[?|?]]; auto.
Qed.

Lemma main_loop_spec fuel e fds n inp :
  nonnul inp → (length inp < fuel)%nat →
  ∃ cs, chunks_of inp cs ∧
    main_loop fuel e fds n inp = Some (imap (λ k c, line_action e fds (n + k) c) cs).
Proof.
  revert n inp. induction fuel as [|fuel IH]; intros n inp Hn Hf; [lia|]. cbn [main_loop].
  destruct (decide (inp = [])) as [-> |Hne]; [by exists []|].
  destruct (getcmd_spec inp Hn Hne) as (c & inp' & -> & -> & Hc & Hlast).
  apply list.Forall_app in Hn as [_ Hn]. rewrite length_app in Hf.
  assert (c ≠ []) as Hc0 by apply Hc. destruct c as [|b c]; [done|]. simpl in Hf.
  destruct (IH (S n) inp' Hn ltac:(lia)) as (cs & (Hcat & Hall & Hadj) & Hrun). exists ((b :: c) :: cs). split.
  - split; [simpl; by rewrite Hcat|]. split; [by constructor|].
    intros [|k] d Hd Hlt; [|apply (Hadj k); [done|simpl in Hlt; lia]]. simpl in Hd. simplify_eq.
    destruct Hlast as [Hnil|?]; [|done]. destruct cs as [|d cs]; [simpl in Hlt; lia|].
    apply Forall_cons_1 in Hall as [[Hd0 _] _]. simpl in Hnil. by destruct d.
  - rewrite Hrun. cbn. rewrite Nat.add_0_r. do 2 f_equal. apply imap_ext.
    intros k d _. unfold compose. by rewrite Nat.add_succ_r.
Qed.

(** ** Properties *)

(** C9: the parser reads exactly the grammar of pipelines of simple commands
    with redirections: the heap it builds stands for what the grammar makes of
    the tokens of the line, all of which is consumed; and it fails where the
    grammar fails, for a redirection without a file or a tenth argument, so
    that it always ends and its messages "syntax error" and "leftovers" never
    appear. *)
Theorem parser_reads_grammar buf :
  match grammar (cstr buf) with
  | inl cs => ∃ cmd st, parsecmd buf = Ok cmd st ∧ reads (cells st) cmd cs ∧ rest st = []
  | inr e => parsecmd buf = Err e ∧ (e = MissingFile ∨ e = TooManyArgs)
  end.
Proof.
  pose proof (parsecmd_spec buf) as Hp. destruct (grammar (cstr buf)) as [cs|e] eqn:Hg.
  - destruct Hp as (cmd & st & ? & ? & _ & ?). by exists cmd, st.
  - split; [done|]. by eapply grammar_errors.
Qed.

(** C32: a pipeline of printable commands - words without blanks, symbols or
    NULs, at most nine arguments - is read back from its printed form. *)
Theorem parse_print cs :
  cs ≠ [] → Forall printable cs →
  ∃ cmd st, parsecmd (print cs) = Ok cmd st ∧ reads (cells st) cmd cs.
Proof.
  intros Hne Hcs. pose proof (parsecmd_spec (print cs)) as Hp.
  rewrite (cstr_id _ (print_nonnul cs Hcs)), (print_grammar cs Hne Hcs) in Hp.
  destruct Hp as (cmd & st & ? & ? & _). by exists cmd, st.
Qed.

(** C12: when every fork and open succeeds, a line runs as one process for each
    command of its pipeline; the k-th reads from the pipe the one before it
    writes to, the first and the last keep the shell's input and output, and
    the first redirection in a direction - not the last one - overrides this;
    no process keeps another end of a pipe open. *)
Theorem pipeline_runs e n buf cs i o err :
  grammar (cstr buf) = inl cs → (∀ here, child_fork e n here = true) →
  Forall (λ c, Forall (λ r, opens e r.2 (flags_of r.1) = true) (redirs c)) cs →
  run_line e n (std i o err) buf =
  Some (imap (λ k c, ends (programs e) c (stdin_of 0 i k) (stdout_of 0 o (length cs) k) err) cs).
Proof.
  intros Hg Hfork Ho. pose proof (parsecmd_spec buf) as Hp. rewrite Hg in Hp.
  destruct Hp as (cmd & st & Hp & Hr & Hle & _). unfold run_line. rewrite Hp.
  apply (runcmd_pipeline _ _ _ (cells st) cmd cs 0); try done. lia.
Qed.

(** C31: the shell ends on every input without NULs: it takes the input line by
    line, at most 99 characters at a time - so that a longer line runs as
    several commands -, and for each piece changes the directory or forks a
    child, which parses and runs it and always ends. *)
Theorem shell_runs_every_line e inp :
  Forall (λ c, c ≠ 0) inp →
  ∃ cs, chunks_of inp cs ∧
    main e inp =
      Some (imap (line_action e (std (Inherited 0) (Inherited 1) (Inherited 2))) cs) ∧
    ∀ n fds buf, line_action e fds n buf ≠ Child None.
Proof.
  intros Hn. destruct (main_loop_spec (S (length inp)) e
    (std (Inherited 0) (Inherited 1) (Inherited 2)) 0 inp Hn) as (cs & Hcs & Hrun); [lia|].
  exists cs. split; [done|]. split; [exact Hrun|]. intros n fds buf. unfold line_action.
  case_decide; [done|]. destruct (shell_fork e n); [|done].
  destruct (run_line_total e n fds buf) as [x ->]. done.
Qed.

(** A redirection whose file cannot be opened leaves its descriptor free, and
    the next file that is opened takes it: the output of [a >o <m] goes to
    descriptor 0 when [m] does not exist. *)
Lemma failed_redirection_misroutes a o m i out err executable fork_ok here :
  runcmd fork_ok (λ f _, bool_decide (f ≠ m)) executable 4
    [Exec (argv_of [a]); Redir GT 1%nat o 577 1; Redir LT 2%nat m O_RDONLY 0] 3%nat here (std i out err) =
  Some [if executable a
        then Runs [a] (if decide (o = m) then {[ 2%nat := err ]}
                       else {[ 0%nat := Opened o 577 777; 2%nat := err ]})
        else Exits 0 true].
Proof.
  assert (bool_decide (m ≠ m) = false) as Hm by (apply bool_decide_false; tauto).
  destruct (decide (o = m)) as [-> |Hom].
  - cbn. rewrite Hm. cbn. by destruct (executable a).
  - cbn. rewrite Hm. cbn. rewrite bool_decide_true by done. by destruct (executable a).
Qed.

(** ** Witnesses *)

(** [a <b >c >d | e], where every system call succeeds. *)
Definition kind_system : environment :=
  Environment (λ _, true) (λ _ _, true) (λ _ _, true) (λ _, true) (λ _, true).

Definition sample : list simple :=
  [Simple [[97]] [(LT, [98]); (GT, [99]); (GT, [100])]; Simple [[101]] []].

Lemma sample_printable : Forall printable sample.
Proof.
  assert (∀ c, in_word c = true → is_word [c]) as Hw by (intros; split; [done|by repeat constructor]).
  repeat (apply Forall_cons_2); [..|apply Forall_nil_2]; (split_and!; [|simpl; unfold MAXARGS; lia|]); simpl;
    repeat (apply Forall_cons_2); try apply Forall_nil_2; try (by apply Hw); (split; [|by apply Hw]); auto.
Qed.

Lemma parse_print_witness :
  ∃ cmd st, parsecmd [32; 97; 32; 60; 32; 98; 32; 62; 32; 99; 32; 62; 32; 100; 32; 124; 32; 101] = Ok cmd st ∧
    reads (cells st) cmd sample.
Proof. apply (parse_print sample); [done|apply sample_printable]. Defined.

Lemma pipeline_runs_witness :
  run_line kind_system 0 (std (Inherited 0) (Inherited 1) (Inherited 2)) (print sample) =
  Some [Runs [[97]] (std (Opened [98] 64 777) (Opened [99] 577 777) (Inherited 2));
        Runs [[101]] (std (PipeEnd [] false) (Inherited 1) (Inherited 2))].
Proof.
  apply (pipeline_runs kind_system 0 (print sample) sample (Inherited 0) (Inherited 1) (Inherited 2)).
  - vm_compute. reflexivity.
  - done.
  - repeat constructor.
Defined.

Lemma shell_runs_every_line_witness :
  ∃ cs, chunks_of ([99; 100; 32; 97; 10] ++ print sample) cs ∧
    main kind_system ([99; 100; 32; 97; 10] ++ print sample) =
      Some (imap (line_action kind_system (std (Inherited 0) (Inherited 1) (Inherited 2))) cs) ∧
    ∀ n fds buf, line_action kind_system fds n buf ≠ Child None.
Proof.
  apply (shell_runs_every_line kind_system). apply list.Forall_app.
  split; [by repeat constructor|apply print_nonnul, sample_printable].
Defined.
