(* ===== verification/Lotterytest.v ===== *)
(** hw3/lotterytest.c: the user program as an interaction tree whose events are
    its system calls. The busy loops end, and every process of the program makes
    one of three sequences of calls. *)

From ITree Require Import ITree ITreeFacts.
From Paco Require Import paco.
From S2P Require Import Prelude.

Record rtcdate : Type := Rtcdate { second : Z; minute : Z; hour : Z }.

Variant message : Type :=
| Starting (d : rtcdate)
| SpinEnded (tix : Z) (d : rtcdate).

(** The calls, with what they return; [gettime] with what it leaves in the
    structure. *)
Variant sysE : Type → Type :=
| Gettime : sysE rtcdate
| Printf (m : message) : sysE unit
| Fork : sysE Z
| Settickets (n : Z) : sysE Z
| Wait : sysE Z
| Exit : sysE void.

#[local] Notation "'let*' x ':=' t 'in' k" :=
  (ITree.bind t (λ x, k)) (at level 200, x name, t at level 100, k at level 200).

#[local] Notation "'do*' t 'in' k" :=
  (ITree.bind t (λ _ : unit, k)) (at level 200, t at level 100, k at level 200).

#[local] Notation call := ITree.trigger.

(** [while (y < 10000) y++], from [y]; the counters are unsigned. *)
Definition inner_loop (y : Z) : itree sysE unit :=
  ITree.iter (λ y, if decide (y < 10000) then Ret (inl (u32 (y + 1))) else Ret (inr tt)) y.

Definition outer_loop (x : Z) : itree sysE unit :=
  ITree.iter (λ x, if decide (x < 100000)
                   then do* inner_loop 0 in Ret (inl (u32 (x + 1))) else Ret (inr tt)) x.

Definition spin (tix : Z) : itree sysE unit :=
  do* outer_loop 0 in
  let* d := call Gettime in
  call (Printf (SpinEnded tix d)).

Definition main : itree sysE void :=
  let* start := call Gettime in
  do* call (Printf (Starting start)) in
  let* pid1 := call Fork in
  if decide (pid1 = 0) then
    let* r := call (Settickets 80) in
    do* spin 80 in
    call Exit
  else
    let* pid2 := call Fork in
    if decide (pid2 = 0) then
      let* r := call (Settickets 20) in
      do* spin 20 in
      call Exit
    else
      let* w1 := call Wait in
      let* w2 := call Wait in
      call Exit.

(** ** What a process does *)

(** A call with its answer. *)
Variant event : Type :=
| DidGettime (d : rtcdate)
| DidPrintf (m : message)
| DidFork (pid : Z)
| DidSettickets (n r : Z)
| DidWait (pid : Z)
| DidExit.

(** The answers of the kernel, which may depend on all that went before. *)
Record kernel_answers : Type := {
  date_at : list event → rtcdate;
  result_at : list event → Z
}.

(** The calls of a process up to its exit, in [fuel] steps. *)
Fixpoint run (fuel : nat) (env : kernel_answers) (hist : list event) (t : itree sysE void)
    : option (list event) :=
  match fuel with
  | O => None
  | S fuel' =>
      match observe t with
      | RetF v => match v with end
      | TauF t' => run fuel' env hist t'
      | VisF e k =>
          match e in sysE A return (A → itree sysE void) → option (list event) with
          | Gettime => λ k, let d := date_at env hist in run fuel' env (hist ++ [DidGettime d]) (k d)
          | Printf m => λ k, run fuel' env (hist ++ [DidPrintf m]) (k tt)
          | Fork => λ k, let r := result_at env hist in run fuel' env (hist ++ [DidFork r]) (k r)
          | Settickets n => λ k,
              let r := result_at env hist in run fuel' env (hist ++ [DidSettickets n r]) (k r)
          | Wait => λ k, let r := result_at env hist in run fuel' env (hist ++ [DidWait r]) (k r)
          | Exit => λ _, Some (hist ++ [DidExit])
          end k
      end
  end.

(** The rest of a child's life after [fork] returned 0 in it. *)
Definition child_calls (env : kernel_answers) (hist : list event) (tix : Z) : list event :=
  let hist := hist ++ [DidSettickets tix (result_at env hist)] in
  let d := date_at env hist in
  hist ++ [DidGettime d; DidPrintf (SpinEnded tix d); DidExit].

(** The parent's, after both calls of [fork]. *)
Definition parent_calls (env : kernel_answers) (hist : list event) : list event :=
  let hist := hist ++ [DidWait (result_at env hist)] in
  hist ++ [DidWait (result_at env hist); DidExit].

Definition main_calls (env : kernel_answers) : list event :=
  let d := date_at env [] in
  let hist := [DidGettime d; DidPrintf (Starting d)] in
  let pid1 := result_at env hist in
  let hist := hist ++ [DidFork pid1] in
  if decide (pid1 = 0) then child_calls env hist 80
  else
    let pid2 := result_at env hist in
    let hist := hist ++ [DidFork pid2] in
    if decide (pid2 = 0) then child_calls env hist 20 else parent_calls env hist.

(** ** The loops end *)

Lemma inner_loop_ends y : 0 ≤ y → eutt eq (inner_loop y) (Ret tt).
Proof.
  remember (Z.to_nat (10000 - y)) as n eqn:Hn. revert y Hn.
  induction (lt_wf n) as [n _ IH]. intros y Hn Hy. unfold inner_loop. rewrite unfold_iter.
  case_decide as Hlt; rewrite bind_ret_l; [|reflexivity].
  rewrite tau_eutt. fold (inner_loop (u32 (y + 1))). rewrite u32_small by lia.
  apply (IH (Z.to_nat (10000 - (y + 1)))); lia.
Qed.

Lemma outer_loop_ends x : 0 ≤ x → eutt eq (outer_loop x) (Ret tt).
Proof.
  remember (Z.to_nat (100000 - x)) as n eqn:Hn. revert x Hn.
  induction (lt_wf n) as [n _ IH]. intros x Hn Hx. unfold outer_loop. rewrite unfold_iter.
  case_decide as Hlt.
  - rewrite bind_bind, inner_loop_ends by lia. rewrite !bind_ret_l, tau_eutt.
    fold (outer_loop (u32 (x + 1))). rewrite u32_small by lia.
    apply (IH (Z.to_nat (100000 - (x + 1)))); lia.
  - rewrite bind_ret_l. reflexivity.
Qed.

(** [spin] is silent but for its last two calls. *)
Lemma spin_calls tix :
  eutt eq (spin tix) (let* d := call Gettime in call (Printf (SpinEnded tix d))).
Proof. unfold spin. rewrite outer_loop_ends by lia. rewrite bind_ret_l. reflexivity. Qed.

(** ** Runs up to weak bisimilarity *)

Lemma run_eutt n env hist t u tr :
  eutt eq t u → run n env hist t = Some tr → ∃ m, run m env hist u = Some tr.
Proof.
  revert hist t u. induction n as [|n IH]; intros hist t u Heq Hr; [done|].
  punfold Heq. red in Heq. simpl in Hr. remember (observe t) as ot eqn:Ht.
  remember (observe u) as ou eqn:Hu. revert t u Ht Hu Hr.
  induction Heq as [r1 r2|m1 m2 Hm|A e k1 k2 Hk|t1 ot2 _ Heq IHq|ot1 t2 _ Heq IHq];
    intros t u Ht Hu Hr.
  - destruct r1.
  - pclearbot. destruct (IH _ _ _ Hm Hr) as [m Hr']. exists (S m). simpl. by rewrite <-Hu.
  - assert (∀ v, eutt eq (k1 v) (k2 v)) as Hk' by (intros v; specialize (Hk v); by pclearbot).
    destruct e; try (destruct (IH _ _ _ (Hk' _) Hr) as [fuel Hr']; exists (S fuel); simpl; by rewrite <-Hu).
    exists 1%nat. simpl. rewrite <-Hu. exact Hr.
  - apply (IH hist t1 u); [|done]. pfold. red. rewrite <-Hu. exact Heq.
  - destruct (IHq t t2 Ht eq_refl Hr) as [m Hr']. exists (S m). simpl. by rewrite <-Hu.
Qed.

(** The program without its loops. *)
Definition quick_child (tix : Z) : itree sysE void :=
  let* r := call (Settickets tix) in
  let* d := call Gettime in
  do* call (Printf (SpinEnded tix d)) in
  call Exit.

Definition quick_main : itree sysE void :=
  let* start := call Gettime in
  do* call (Printf (Starting start)) in
  let* pid1 := call Fork in
  if decide (pid1 = 0) then quick_child 80
  else
    let* pid2 := call Fork in
    if decide (pid2 = 0) then quick_child 20
    else
      let* w1 := call Wait in
      let* w2 := call Wait in
      call Exit.

Lemma child_quick tix :
  eutt eq (let* r := call (Settickets tix) in do* spin tix in call Exit) (quick_child tix).
Proof.
  unfold quick_child. eapply eutt_clo_bind; [reflexivity|]. intros r ? <-.
  rewrite spin_calls, bind_bind. reflexivity.
Qed.

Lemma main_quick : eutt eq main quick_main.
Proof.
  unfold main, quick_main. eapply eutt_clo_bind; [reflexivity|]. intros d ? <-.
  eapply eutt_clo_bind; [reflexivity|]. intros [] ? _.
  eapply eutt_clo_bind; [reflexivity|]. intros pid1 ? <-. case_decide; [apply child_quick|].
  eapply eutt_clo_bind; [reflexivity|]. intros pid2 ? <-. case_decide; [apply child_quick|].
  reflexivity.
Qed.

(** One call of a run. *)
Lemma run_call A (e : sysE A) (k : A → itree sysE void) n env h :
  run (S n) env h (ITree.bind (call e) k) =
  match e in sysE A return (A → itree sysE void) → option (list event) with
  | Gettime => λ k, let d := date_at env h in run n env (h ++ [DidGettime d]) (k d)
  | Printf m => λ k, run n env (h ++ [DidPrintf m]) (k tt)
  | Fork => λ k, let r := result_at env h in run n env (h ++ [DidFork r]) (k r)
  | Settickets x => λ k, let r := result_at env h in run n env (h ++ [DidSettickets x r]) (k r)
  | Wait => λ k, let r := result_at env h in run n env (h ++ [DidWait r]) (k r)
  | Exit => λ _, Some (h ++ [DidExit])
  end k.
Proof.
  assert (∀ B (r : B) (k : B → itree sysE void) h,
    run n env h (ITree.bind (Ret r) k) = run n env h (k r)) as Hret by by destruct n.
  destruct e; simpl; [apply Hret..|done].
Qed.

#[local] Arguments run : simpl never.

Lemma quick_run env : run 8 env [] quick_main = Some (main_calls env).
Proof.
  unfold main_calls, child_calls, parent_calls, quick_main, quick_child.
  repeat (rewrite run_call; simpl). case_decide; repeat (rewrite run_call; simpl); [reflexivity|].
  case_decide; repeat (rewrite run_call; simpl); reflexivity.
Qed.

(** C37: every process of lotterytest ends, and what it does is determined by
    the answers of [fork]: the first child takes 80 tickets, the second 20, each
    spins, prints the time and exits; the parent - and a process whose fork
    failed goes on as one - waits twice and exits.  The billion turns of
    the busy loops make no call, and end. *)
Theorem lotterytest_calls env : ∃ fuel, run fuel env [] main = Some (main_calls env).
Proof.
  eapply run_eutt; [symmetry; apply main_quick|apply quick_run].
Qed.
